(* ===== verification/_CoqProject ===== *)
-Q . S2P
Prelude.v
Machine.v
Text.v
Net.v
Crates.v
Guacamole.v
Instruction.v
Decoder.v
Protocol.v
EdgeHeader.v
EdgeTrust.v
RateLimit.v
Handshake.v
Link.v
Resume.v
Resilience.v
Engine.v
GuacWire.v
Actor.v
ActorProps.v
AuditChain.v
AuditVerify.v
CoPilot.v
ShareGuest.v
Tokens.v
Revocation.v
Quotas.v
Leases.v
Checkouts.v
Replay.v
FileCrypto.v
Av.v
Shares.v
Recordings.v
Seeking.v
Sinks.v
RecordingStore.v
DmzProxy.v
LinkSupervisor.v
