(* ===== verification/Prelude.v ===== *)
(** * Strata Client: a verification library for the Rust gateway

    Strata gives browsers RDP, VNC, SSH and Kubernetes sessions.  Its Rust
    code has three parts: [crates/strata-session] (the session engine: wire
    protocol, frame encoders, the actor that owns a session),
    [crates/strata-dmz] (the node exposed to the public network, which signs
    what it forwards) and [backend] (the internal node), the last two joined
    by [crates/strata-protocol] (handshake, frames, edge headers, resume
    tokens).  This library translates the parts that carry their own logic
    into executable definitions and proves what makes them correct.

    ** Conventions

    A Rust [str], [Vec<u8>] or [Bytes] is [bytes], the list of its bytes as
    [Z]; an integer is a [Z] with wrap-around, saturation or range checks
    written out where the source has them ([Machine]); [Result] is [result]
    with its monad; a [HashMap] is a [gmap]; [&mut self] is state passing.
    Clocks, random draws, I/O outcomes and what other tasks do are arguments,
    so a theorem covers every behaviour of them.  A database table is a map
    from its key or a list in key order, an SQL statement a function on it,
    and concurrent requests a sequence of statements in the order the database
    serialises them; where a statement may see an older snapshot, the snapshot
    is an argument.  Third-party crates are type
    classes whose laws are their documented behaviour ([Crates]); the module
    [Crates.Reference] gives an executable instance of each, which the
    witnesses compute with.  Cryptographic strength is never assumed: an
    authenticity theorem ends in "or HMAC-SHA-256 collides".

    ** The files

    - [Prelude], [Machine], [Text], [Net]: results, tactics and list lemmas;
      machine integers and big-endian encodings; UTF-8, decimal text,
      trimming and splitting; [std::net] addresses, the trusted networks of
      [edge_signer.rs] and the rule table of [body_caps.rs].
    - [Crates]: winnow, base64, hmac, serde_json and http as interfaces.
    - [Guacamole], [Instruction], [Decoder]: [protocol/guacamole.rs],
      [protocol/instruction.rs], [transport/decoder.rs].  Encoding and
      parsing are inverse, prefixes are incomplete rather than malformed,
      verdicts are stable under more input, chunking is irrelevant, the
      decode loop ends.
    - [Engine], [GuacWire]: the event types and the two frame encoders
      ([transport/guac_wire.rs], [transport/binary.rs]); the interface
      [Engine.FrameEncoder] is what the actor relies on and both encoders
      implement it.  A display model shows that a session's contents arrive.
    - [Actor], [ActorProps]: [actor/session.rs].  [Actor.Env] answers each
      effect; [Actor.run_loop] runs any sequence of [happening]s.  Resource
      bounds, guest confinement, completeness of the recording, keys recorded
      before they are delivered, backpressure, teardown, and the leak of the
      process-wide clipboard budget.
    - [Protocol], [Handshake], [Link], [Resume], [EdgeHeader]: the crate
      strata-protocol and the backend's resume registry.  Round trips, no
      replay, the handshake drivers against each other in every interleaving
      and against an arbitrary peer, single-shot resume tokens.
    - [EdgeTrust]: the DMZ's signer, the backend's verifier and the client
      address middleware, proved end to end.
    - [RateLimit]: the public rate limiter; its bound and its starvation.
    - [Resilience]: backoff, circuit breaker, retry loop.
    - [AuditChain], [AuditVerify]: [audit_verify.rs] and the SQL functions of
      the audit chain.  The batched walk over a growing table is one pass;
      runs report tampering below a known checkpoint, raise no false alarm
      and make progress; checkpoints and anchors are authentic and read back.
    - [CoPilot], [ShareGuest]: [co_pilot/room.rs], [co_pilot.rs] and
      [routes/share.rs]: the roster and the input token of a shared session,
      the opcode filter for viewers, envelopes that cannot speak for others,
      sockets that leave no ghost, the attempt limiter.
    - [Tokens], [Revocation]: [refresh_tokens.rs], [token_revocation.rs],
      [tunnel_tickets.rs].  A refresh token is spent once and its reuse ends
      the family; a revocation reaches every replica; a ticket opens one
      tunnel.
    - [Quotas], [Leases]: [admission.rs], [auth_limits.rs],
      [worker_lease.rs], [idempotency.rs].  The ledger refines the multiset
      of open sessions, windows hold no more attempts than their limit,
      passes of a job do not overlap, a retried request is not run again.
    - [Checkouts]: [checkouts.rs] and its routes as a transition system whose
      steps are the statements and external calls of the password operations.
      One holder per account, and what an active checkout holds is the
      account's password.
    - [Replay]: [session_registry.rs], the replay of [routes/share.rs] and
      [routes/admin.rs] and the producer of [session_engine.rs].  The shared
      budget is exact, credentials are filtered, a viewer that joins sees the
      newer end of what was drawn and misses no later frame.
    - [FileCrypto], [Av], [Shares]: [file_crypto.rs], [av.rs],
      [outbound_shares.rs] with its routes, [transfer_gate.rs] and
      [outbound_share_ingest.rs].  Files leave a session scanned, approved
      and once; what is staged is encrypted, authentic and cleared with its
      row; [Shares] uses the verdicts of [Av].
    - [Recordings], [Seeking]: [recording_index.rs] and the playback of
      [routes/admin/recordings.rs].  A pixel model of the client; what a
      checkpoint sends rebuilds the display of a full replay, and a seek
      stops on the same frame as one, unless that frame is the first after
      the checkpoint.
    - [Sinks], [RecordingStore]: the sinks of [actor/audit.rs], the recording
      policy and row status of [session_engine.rs], and the upload and
      retention passes of [services/recordings.rs] against a disk and a blob
      store whose calls may fail, time out or be cut off.  The status of a
      row can be trusted; no finished recording is lost before its retention
      ends.  The passes assume that a recording still being written was
      written to within the 30 s they wait (the actor flushes every 5 s).
    - [DmzProxy]: [strata-dmz]'s link registry and listener
      ([link_server/registry.rs], [link_server/listener.rs]), [proxy.rs],
      [ws_proxy.rs] and the operator's actions ([operator.rs]).  A handler is
      a program whose effects the environment answers; what h2 may answer is
      the relation [Dmz.permitted].  Only authenticated links carry requests,
      an evicted link stays evicted, what a node receives is what was sent and
      signed, and bodies stream in order within their cap.
    - [LinkSupervisor]: [services/dmz_link/] of the backend ([config.rs],
      [registry.rs], [supervisor.rs]): the name and URL parsing, the table of
      links and the reconnect loop under kicks, pings and shutdown.  The
      table tells the truth, and a shutdown ends every loop.

    ** Fuel and bounds

    Loops that are not structural take fuel that is proved sufficient:
    [Decoder.drain_all] the length of the buffer ([drain_all_stops]),
    [Guacamole.parse_args] the element cap, [Text.strip_all] the length of
    the string ([strip_all_done]); [Text.dec] prints 20 digits, enough for
    every 64-bit value ([dec_spec]).  [AuditChain.verify] takes one query more
    than the table ever has rows ([verify_batches]);
    [ShareGuest.scan_opcodes] the length of the text ([scan_fuel]); the
    loops of [FileCrypto] the length of the file
    ([FileCrypto.file_roundtrip], [FileCrypto.verify_streamed]); the parser
    loops of [Recordings] the length of the buffer ([Seeking.Parsed],
    [Seeking.Checkpoints.drain_steps]) and [Recordings.Display.free_stream]
    the number of audio streams; [LinkSupervisor.Config.trim_start_matches]
    the length of the name.  [DmzProxy] and [LinkSupervisor] run programs
    whose length the environment decides, by induction on its answers.
    [Actor.run_loop] is a fold over any
    finite list of happenings, so its theorems hold at every moment of a
    session.

    ** Not modelled

    The protocol engines and the terminal emulator (drivers of third-party
    crates; the actor is proved against any engine), TLS configuration,
    HTTP/2 and WebSocket framing (the proxies are modelled down to the calls
    of h2 and tungstenite), the backend's server of a link's streams
    ([h2_serve.rs], the upgrade handler, the router adapter), the JSON
    listings of the operator API, the LDAP and Vault clients, SQL services
    and HTTP handlers that keep no protocol of their own, the float token
    bucket [OpenRate] of the actor (an answer of [Actor.Env]) and the float
    averages of [capacity.rs], timers around request bodies, the pacing of a
    playback, the storage of its index, and of [services/recordings.rs] the
    signatures and URLs of blob storage, the listings, the statistics and
    the video conversion.  A statement
    that a timed-out operation left running in the database is not modelled
    either: in [Checkouts] an operation past its deadline takes no step.

    ** Plan

    Next: the session manager of strata-session
    ([actor/manager.rs], [routing.rs], [wol.rs]); the server of a link's
    streams in the backend; password generation and service-account rotation of
    [checkouts.rs]; then keymaps, palette and typescript of the engines. *)

From Stdlib Require Export ZArith Lia.
From stdpp Require Export base numbers strings fin_maps gmap list.

(** ** Rust's [Result] *)

Inductive result (E A : Type) : Type :=
| Ok (a : A)
| Err (e : E).
Arguments Ok {E A} _.
Arguments Err {E A} _.

#[global] Instance result_ret {E} : MRet (result E) := fun _ a => Ok a.

#[global] Instance result_bind {E} : MBind (result E) :=
  fun _ _ f m => match m with Ok a => f a | Err e => Err e end.

#[global] Instance result_eq_dec {E A} `{EqDecision E} `{EqDecision A} :
  EqDecision (result E A).
Proof. solve_decision. Defined.

(** [Option::ok_or]. *)
Definition ok_or {E A} (o : option A) (e : E) : result E A :=
  match o with Some a => Ok a | None => Err e end.

(** [Result::map_err]. *)
Definition map_err {E F A} (f : E -> F) (r : result E A) : result F A :=
  match r with Ok a => Ok a | Err e => Err (f e) end.

(** [Result::is_ok]. *)
Definition is_ok {E A} (r : result E A) : bool :=
  match r with Ok _ => true | Err _ => false end.

Lemma result_bind_Ok {E A B} (m : result E A) (f : A -> result E B) b :
  m ≫= f = Ok b -> exists a, m = Ok a /\ f a = Ok b.
Proof. destruct m; simpl; [eauto | discriminate]. Qed.

Lemma ok_or_Ok {E A} (o : option A) (e : E) a : ok_or o e = Ok a <-> o = Some a.
Proof. destruct o; simpl; split; congruence. Qed.

Lemma map_err_Ok {E F A} (f : E -> F) (r : result E A) a :
  map_err f r = Ok a <-> r = Ok a.
Proof. destruct r; simpl; split; congruence. Qed.

(** ** Proof automation *)

Create HintDb strata.
Create Rewrite HintDb strata.

(** Case on the innermost test of a hypothesis or of the goal, keeping the
    equation, and discard the branches that contradict it. *)
Ltac case_test :=
  match goal with
  | H : context [if ?b then _ else _] |- _ =>
      let E := fresh "Hb" in destruct b eqn:E; try discriminate
  | |- context [if ?b then _ else _] =>
      let E := fresh "Hb" in destruct b eqn:E; try discriminate
  end.

(** Turn boolean comparisons into the propositions they decide. *)
Ltac b2p :=
  repeat match goal with
  | H : (_ && _)%bool = true |- _ => apply andb_prop in H; destruct H
  | H : (_ || _)%bool = false |- _ => apply orb_false_elim in H; destruct H
  | H : negb _ = true |- _ => apply negb_true_iff in H
  | H : negb _ = false |- _ => apply negb_false_iff in H
  | H : (_ <? _)%Z = true |- _ => apply Z.ltb_lt in H
  | H : (_ <? _)%Z = false |- _ => apply Z.ltb_ge in H
  | H : (_ <=? _)%Z = true |- _ => apply Z.leb_le in H
  | H : (_ <=? _)%Z = false |- _ => apply Z.leb_gt in H
  | H : (_ =? _)%Z = true |- _ => apply Z.eqb_eq in H
  | H : (_ =? _)%Z = false |- _ => apply Z.eqb_neq in H
  | H : (_ <? _)%nat = true |- _ => apply Nat.ltb_lt in H
  | H : (_ <? _)%nat = false |- _ => apply Nat.ltb_ge in H
  | H : (_ <=? _)%nat = true |- _ => apply Nat.leb_le in H
  | H : (_ <=? _)%nat = false |- _ => apply Nat.leb_gt in H
  | H : (_ =? _)%nat = true |- _ => apply Nat.eqb_eq in H
  | H : (_ =? _)%nat = false |- _ => apply Nat.eqb_neq in H
  | H : bool_decide _ = true |- _ => apply bool_decide_eq_true in H
  | H : bool_decide _ = false |- _ => apply bool_decide_eq_false in H
  end.

(** Close a boolean comparison in the goal by arithmetic. *)
Ltac bdec :=
  repeat match goal with
  | |- (_ && _)%bool = true => apply andb_true_intro; split
  | |- (_ <? _)%Z = true => apply Z.ltb_lt
  | |- (_ <? _)%Z = false => apply Z.ltb_ge
  | |- (_ <=? _)%Z = true => apply Z.leb_le
  | |- (_ <=? _)%Z = false => apply Z.leb_gt
  | |- (_ =? _)%Z = true => apply Z.eqb_eq
  | |- (_ =? _)%Z = false => apply Z.eqb_neq
  | |- (_ <? _)%nat = true => apply Nat.ltb_lt
  | |- (_ <? _)%nat = false => apply Nat.ltb_ge
  | |- (_ <=? _)%nat = true => apply Nat.leb_le
  | |- (_ <=? _)%nat = false => apply Nat.leb_gt
  | |- (_ =? _)%nat = true => apply Nat.eqb_eq
  | |- (_ =? _)%nat = false => apply Nat.eqb_neq
  end; try lia.

(** Rewrite the goal with the value of a boolean test that arithmetic
    decides. *)
Ltac take_true b := let E := fresh in assert (b = true) as E by bdec; rewrite E; clear E.
Ltac take_false b := let E := fresh in assert (b = false) as E by bdec; rewrite E; clear E.

(** ** Lists *)

Section lists.
Context {A : Type}.
Implicit Types l k : list A.

(** The longest prefix of at most [n] elements that satisfy [p]. *)
Fixpoint prefix_while (n : nat) (p : A -> bool) (l : list A) : list A :=
  match n, l with
  | S m, x :: r => if p x then x :: prefix_while m p r else []
  | _, _ => []
  end.

Lemma prefix_while_app n p l k :
  Forall (fun x => p x = true) l -> length l <= n ->
  (forall x k', k = x :: k' -> p x = false) ->
  prefix_while n p (l ++ k) = l.
Proof.
  intros Hl. revert n. induction Hl as [|x l Hx Hl IH]; intros n Hn Hk; simpl.
  - destruct n, k; simpl; try done. by rewrite (Hk a k).
  - destruct n; simpl in *; [lia|]. rewrite Hx, IH; [done|lia|done].
Qed.

Lemma prefix_while_length n p l : length (prefix_while n p l) <= n.
Proof.
  revert l. induction n; intros [|x l]; simpl; try lia.
  destruct (p x); simpl; [specialize (IHn l)|]; lia.
Qed.

Lemma prefix_while_Forall n p l : Forall (fun x => p x = true) (prefix_while n p l).
Proof.
  revert l. induction n; intros [|x l]; simpl; try constructor.
  destruct (p x) eqn:E; constructor; auto.
Qed.

Lemma prefix_while_prefix n p l :
  l = prefix_while n p l ++ drop (length (prefix_while n p l)) l.
Proof.
  revert l. induction n; intros [|x l]; simpl; try done.
  destruct (p x); simpl; [f_equal; apply IHn | done].
Qed.

(** Reading more input extends the longest prefix only when it was cut by
    the end of the input. *)
Lemma prefix_while_extend n p l k :
  length (prefix_while n p l) < length l ->
  prefix_while n p (l ++ k) = prefix_while n p l.
Proof.
  revert l. induction n; intros [|x l]; simpl; try lia; try done.
  destruct (p x); simpl; [|done]. intros. f_equal. apply IHn. lia.
Qed.

(** [slice::chunks(n)]. *)
Fixpoint chunks_fuel (fuel n : nat) (l : list A) : list (list A) :=
  match fuel with
  | O => []
  | S f => match l with
           | [] => []
           | _ => take n l :: chunks_fuel f n (drop n l)
           end
  end.

Definition chunks (n : nat) (l : list A) : list (list A) := chunks_fuel (length l) n l.

Lemma chunks_fuel_spec fuel n l :
  0 < n -> length l <= fuel ->
  concat (chunks_fuel fuel n l) = l /\
  Forall (fun c => 0 < length c <= n) (chunks_fuel fuel n l).
Proof.
  intros Hn. revert l. induction fuel as [|f IH]; intros l Hl; simpl.
  - destruct l; simpl in *; [by split|lia].
  - destruct l as [|x l]; [by split|].
    destruct (IH (drop n (x :: l))) as [Hc Hf].
    { rewrite length_drop. simpl in *. lia. }
    split; simpl concat.
    + rewrite Hc. apply take_drop.
    + constructor; [|done]. rewrite length_take. simpl. lia.
Qed.

Lemma chunks_concat n l : 0 < n -> concat (chunks n l) = l.
Proof. intros. by apply chunks_fuel_spec. Qed.

Lemma chunks_bounded n l : 0 < n -> Forall (fun c => 0 < length c <= n) (chunks n l).
Proof. intros. by apply chunks_fuel_spec. Qed.

Lemma take_add n m l : take (n + m) l = take n l ++ take m (drop n l).
Proof.
  revert l. induction n as [|n IH]; intros [|x l]; simpl; try done; [by rewrite take_nil|]. by rewrite IH.
Qed.

Lemma drop_length_app l k : drop (length l) (l ++ k) = k.
Proof. apply drop_app_length. Qed.

Lemma filter_none (P : A -> Prop) `{forall x, Decision (P x)} l : (forall x, x ∈ l -> ~ P x) -> filter P l = [].
Proof.
  induction l as [|x l IH]; intros Hl; [done|]. rewrite filter_cons_False by (apply Hl; left).
  apply IH. intros. apply Hl. by right.
Qed.

Lemma filter_all (P : A -> Prop) `{forall x, Decision (P x)} l : (forall x, x ∈ l -> P x) -> filter P l = l.
Proof.
  induction l as [|x l IH]; intros Hl; [done|]. rewrite filter_cons_True by (apply Hl; left).
  f_equal. apply IH. intros. apply Hl. by right.
Qed.

Lemma app_eq_length_inv l1 l2 k1 k2 :
  length l1 = length l2 -> l1 ++ k1 = l2 ++ k2 -> l1 = l2 /\ k1 = k2.
Proof. intros. by apply app_inj_1. Qed.
End lists.

#[export] Hint Rewrite @length_app @length_take @length_drop @length_replicate
  @length_fmap @length_insert : strata.

(** Normalise list lengths and finish with linear arithmetic. *)
Ltac len := simpl in *; autorewrite with strata in *; simpl in *; lia.
