(* ===== verification/Machine.v ===== *)
(** * Machine integers and byte strings

    Rust's fixed-width integers are [Z] with their range written out; a byte
    string ([&[u8]], [Vec<u8>], [Bytes], [BytesMut]) is a list of [Z] in
    [0, 256).  This file holds the ranges, the wrap-around and saturating
    operations the sources use, the big-endian conversions
    ([to_be_bytes]/[from_be_bytes] and the [put_u*] writers), and the
    length-prefixed field encoding that the handshake transcript and the
    edge-header MAC share. *)

From S2P Require Import Prelude.

Local Open Scope Z_scope.

Abbreviation bytes := (list Z).

Definition byte_ok (b : Z) : Prop := 0 <= b < 256.

Abbreviation bytes_ok := (Forall byte_ok).

(** ** Ranges *)

Definition u8_max : Z := 255.
Definition u16_max : Z := 65535.
Definition u32_max : Z := 4294967295.
Definition u64_max : Z := 18446744073709551615.
Definition i32_min : Z := -2147483648.
Definition i32_max : Z := 2147483647.
Definition i64_min : Z := -9223372036854775808.
Definition i64_max : Z := 9223372036854775807.

Definition in_range (lo hi z : Z) : Prop := lo <= z <= hi.

Abbreviation is_u8 := (in_range 0 u8_max).
Abbreviation is_u32 := (in_range 0 u32_max).
Abbreviation is_u64 := (in_range 0 u64_max).
Abbreviation is_i32 := (in_range i32_min i32_max).
Abbreviation is_i64 := (in_range i64_min i64_max).

(** Two's complement wrap-around, which is what release builds do on
    overflow ([Cargo.toml] sets no [overflow-checks]). *)
Definition wrap_u (bits z : Z) : Z := z mod 2 ^ bits.
Definition wrap_i (bits z : Z) : Z := (z + 2 ^ (bits - 1)) mod 2 ^ bits - 2 ^ (bits - 1).

(** [i64::abs], which wraps to [i64::MIN] on [i64::MIN]. *)
Definition i64_abs (z : Z) : Z := wrap_i 64 (Z.abs z).

(** [i64] subtraction. *)
Definition i64_sub (a b : Z) : Z := wrap_i 64 (a - b).

Definition u64_saturating_mul (a b : Z) : Z := Z.min (a * b) u64_max.
Definition i64_saturating_mul (a b : Z) : Z := Z.max i64_min (Z.min (a * b) i64_max).
Definition i64_saturating_add (a b : Z) : Z := Z.max i64_min (Z.min (a + b) i64_max).
Definition u32_saturating_add (a b : Z) : Z := Z.min (a + b) u32_max.

Lemma wrap_i64_id z : is_i64 z -> wrap_i 64 z = z.
Proof.
  unfold in_range, wrap_i, i64_min, i64_max. intros.
  change (2 ^ (64 - 1)) with 9223372036854775808.
  change (2 ^ 64) with 18446744073709551616.
  rewrite Z.mod_small; lia.
Qed.

Lemma wrap_i64_range z : is_i64 (wrap_i 64 z).
Proof.
  unfold in_range, wrap_i, i64_min, i64_max.
  change (2 ^ (64 - 1)) with 9223372036854775808.
  change (2 ^ 64) with 18446744073709551616.
  pose proof (Z.mod_pos_bound (z + 9223372036854775808) 18446744073709551616). lia.
Qed.

(** [(now - ts).abs() > limit], the clock-skew test of the handshake and of
    the edge headers, in [i64] arithmetic. *)
Definition skewed (limit now ts : Z) : bool := limit <? i64_abs (i64_sub now ts).

(** For a clock between 1970 and the year 146 million, the test is the
    mathematical one except at a single timestamp, [now - 2^63], where the
    difference overflows to [i64::MIN] whose [abs] is negative. *)
Lemma skewed_spec limit now ts :
  0 <= now < 2 ^ 62 -> 0 <= limit < 2 ^ 62 -> is_i64 ts ->
  skewed limit now ts = false <-> Z.abs (now - ts) <= limit \/ ts = now - 2 ^ 63.
Proof.
  unfold skewed, i64_sub, i64_abs, in_range, i64_min, i64_max. intros Hnow Hlim Hts. rewrite Z.ltb_ge.
  destruct (decide (now - ts < 2 ^ 63)) as [Hsmall|Hbig].
  - rewrite (wrap_i64_id (now - ts)) by (unfold in_range, i64_min, i64_max; lia).
    rewrite wrap_i64_id by (unfold in_range, i64_min, i64_max; lia). lia.
  - assert (wrap_i 64 (now - ts) = now - ts - 2 ^ 64) as ->.
    { unfold wrap_i. rewrite <- (Z.mod_unique_pos (now - ts + 2 ^ (64 - 1)) (2 ^ 64) 1
        (now - ts + 2 ^ (64 - 1) - 2 ^ 64)); lia. }
    destruct (decide (ts = now - 2 ^ 63)) as [->|Hne].
    + replace (Z.abs (now - (now - 2 ^ 63) - 2 ^ 64)) with (2 ^ 63) by lia.
      change (wrap_i 64 (2 ^ 63)) with (- 2 ^ 63). lia.
    + rewrite wrap_i64_id by (unfold in_range, i64_min, i64_max; lia). lia.
Qed.

(** ** Big-endian encodings *)

(** The low [n] bytes of [v], most significant first. *)
Fixpoint to_be (n : nat) (v : Z) : bytes :=
  match n with
  | O => []
  | S m => to_be m (v / 256) ++ [v mod 256]
  end.

(** The unsigned value of a big-endian byte string. *)
Definition from_be (bs : bytes) : Z := fold_left (fun acc b => acc * 256 + b) bs 0.

Definition u32_to_be (v : Z) : bytes := to_be 4 v.
Definition u64_to_be (v : Z) : bytes := to_be 8 v.
Definition u32_from_be (bs : bytes) : Z := from_be bs.
Definition u64_from_be (bs : bytes) : Z := from_be bs.

(** Signed 64-bit values travel as their two's complement. *)
Definition i64_to_be (v : Z) : bytes := to_be 8 (wrap_u 64 v).
Definition i64_from_be (bs : bytes) : Z := wrap_i 64 (from_be bs).

#[global] Arguments u32_to_be : simpl never.
#[global] Arguments u64_to_be : simpl never.
#[global] Arguments i64_to_be : simpl never.

Lemma to_be_length n v : length (to_be n v) = n.
Proof. revert v. induction n; intros; simpl; [done|]. rewrite length_app, IHn. simpl. lia. Qed.

Lemma to_be_ok n v : bytes_ok (to_be n v).
Proof.
  revert v. induction n; intros; simpl; [constructor|].
  apply Forall_app; split; [done|]. constructor; [|constructor].
  unfold byte_ok. pose proof (Z.mod_pos_bound v 256). lia.
Qed.

Lemma from_be_app a b : from_be (a ++ [b]) = from_be a * 256 + b.
Proof. unfold from_be. by rewrite fold_left_app. Qed.

Lemma from_to_be n v : from_be (to_be n v) = v mod 256 ^ Z.of_nat n.
Proof.
  revert v. induction n; intros v.
  - simpl. by rewrite Z.mod_1_r.
  - simpl to_be. rewrite from_be_app, IHn, Nat2Z.inj_succ, Z.pow_succ_r by lia.
    rewrite (Z.mul_comm (_ mod _)), Z.add_comm. symmetry. apply Z.rem_mul_r; lia.
Qed.

Lemma from_be_bound bs : bytes_ok bs -> 0 <= from_be bs < 256 ^ Z.of_nat (length bs).
Proof.
  induction bs as [|b bs IH] using rev_ind; intros Hok; [done|].
  apply Forall_app in Hok as [Hbs Hb]. apply Forall_cons_1 in Hb as [Hb _].
  rewrite from_be_app, length_app, Nat2Z.inj_add. change (Z.of_nat (length [b])) with 1.
  rewrite Z.pow_add_r, Z.pow_1_r by lia. unfold byte_ok in Hb. specialize (IH Hbs). lia.
Qed.

Lemma to_from_be bs : bytes_ok bs -> to_be (length bs) (from_be bs) = bs.
Proof.
  induction bs as [|b bs IH] using rev_ind; intros Hok; [done|].
  apply Forall_app in Hok as [Hbs Hb]. apply Forall_cons_1 in Hb as [Hb _]. unfold byte_ok in Hb.
  rewrite length_app, Nat.add_1_r. simpl. rewrite from_be_app.
  rewrite Z.div_add_l, Z.div_small, Z.add_0_r, IH by (lia || done).
  by rewrite Z.add_comm, Z.mod_add, Z.mod_small by lia.
Qed.

Lemma to_be_inj n v w :
  0 <= v < 256 ^ Z.of_nat n -> 0 <= w < 256 ^ Z.of_nat n -> to_be n v = to_be n w -> v = w.
Proof.
  intros Hv Hw E. apply (f_equal from_be) in E.
  by rewrite !from_to_be, !Z.mod_small in E by done.
Qed.

Lemma u32_from_to_be v : is_u32 v -> u32_from_be (u32_to_be v) = v.
Proof.
  unfold in_range, u32_max, u32_from_be, u32_to_be. intros.
  rewrite from_to_be. apply Z.mod_small. simpl. lia.
Qed.

Lemma u64_from_to_be v : is_u64 v -> u64_from_be (u64_to_be v) = v.
Proof.
  unfold in_range, u64_max, u64_from_be, u64_to_be. intros.
  rewrite from_to_be. apply Z.mod_small. simpl. lia.
Qed.

Lemma wrap_i_wrap_u v : wrap_i 64 (wrap_u 64 v) = wrap_i 64 v.
Proof. unfold wrap_i, wrap_u. by rewrite Zplus_mod_idemp_l. Qed.

Lemma i64_from_to_be v : is_i64 v -> i64_from_be (i64_to_be v) = v.
Proof.
  intros Hv. unfold i64_from_be, i64_to_be. rewrite from_to_be.
  change (256 ^ Z.of_nat 8) with (2 ^ 64). unfold wrap_u at 1. rewrite Z.mod_mod by lia.
  change (v mod 2 ^ 64) with (wrap_u 64 v). by rewrite wrap_i_wrap_u, wrap_i64_id.
Qed.

Lemma i64_to_be_inj v w : is_i64 v -> is_i64 w -> i64_to_be v = i64_to_be w -> v = w.
Proof.
  intros Hv Hw E. apply (f_equal i64_from_be) in E.
  by rewrite !i64_from_to_be in E.
Qed.

Lemma to_be_length_4 v : length (u32_to_be v) = 4%nat.
Proof. apply to_be_length. Qed.

Lemma to_be_length_8 v : length (u64_to_be v) = 8%nat.
Proof. apply to_be_length. Qed.

Lemma i64_to_be_length v : length (i64_to_be v) = 8%nat.
Proof. apply to_be_length. Qed.

#[export] Hint Rewrite to_be_length to_be_length_4 to_be_length_8 i64_to_be_length : strata.

(** ** Length-prefixed fields

    [push] of [handshake::transcript] and the loop body of
    [edge_header::canonical_input] both write a field as its [u32]
    big-endian length followed by its bytes. *)

Definition len_prefixed (b : bytes) : bytes := u32_to_be (wrap_u 32 (Z.of_nat (length b))) ++ b.

Definition short (b : bytes) : Prop := Z.of_nat (length b) <= u32_max.

Lemma len_prefixed_app_inj a b r s :
  short a -> short b -> len_prefixed a ++ r = len_prefixed b ++ s -> a = b /\ r = s.
Proof.
  unfold short, len_prefixed, u32_max, wrap_u. intros Ha Hb. rewrite <- !(assoc_L (++)). intros E.
  apply app_eq_length_inv in E as [El E]; [|by rewrite !to_be_length_4].
  rewrite !Z.mod_small in El by (simpl; lia).
  apply to_be_inj in El; [|simpl; lia..]. apply Nat2Z.inj in El.
  by apply app_eq_length_inv in E.
Qed.

(** A sequence of length-prefixed fields determines its fields. *)
Lemma concat_len_prefixed_inj fs gs :
  length fs = length gs -> Forall short fs -> Forall short gs ->
  concat (len_prefixed <$> fs) = concat (len_prefixed <$> gs) -> fs = gs.
Proof.
  intros Hlen Hf. revert gs Hlen. induction Hf as [|f fs Hsf Hf IH]; intros [|g gs]; try done.
  intros Hlen Hg E. inversion Hg; subst. simpl in *.
  apply len_prefixed_app_inj in E as [-> E]; [|done..]. f_equal. apply IH; auto; lia.
Qed.
