(* ===== verification/Text.v ===== *)
(** * Rust text: UTF-8, decimal integers, string splitting

    A Rust [str] is the list of its UTF-8 bytes.  This file models what the
    sources use of the standard library on text: UTF-8 validation
    ([str::from_utf8]), [chars().count()], [ToString] and [FromStr] for
    integers, [trim], [split] and [split_once]. *)

From S2P Require Import Prelude Machine.

Local Open Scope Z_scope.

(** A string literal as its bytes. *)
Fixpoint str (s : string) : bytes :=
  match s with
  | EmptyString => []
  | String a r => Z.of_N (Ascii.N_of_ascii a) :: str r
  end.

(** ** UTF-8 *)

(** Whether [b] continues a multi-byte character. *)
Definition is_cont (b : Z) : bool := Z.land b 192 =? 128.

(** [chars().count()]: the standard library counts the bytes that are not
    continuation bytes. *)
Definition char_count (bs : bytes) : nat := length (filter (fun b => is_cont b = false) bs).

(** The second byte of a three-byte character, which excludes overlong
    encodings and surrogates. *)
Definition second3_ok (b c : Z) : bool :=
  if b =? 224 then (160 <=? c) && (c <=? 191)
  else if b =? 237 then (128 <=? c) && (c <=? 159)
  else (128 <=? c) && (c <=? 191).

(** The second byte of a four-byte character. *)
Definition second4_ok (b c : Z) : bool :=
  if b =? 240 then (144 <=? c) && (c <=? 191)
  else if b =? 244 then (128 <=? c) && (c <=? 143)
  else (128 <=? c) && (c <=? 191).

Definition cont_ok (c : Z) : bool := (128 <=? c) && (c <=? 191).

(** The encoding of exactly one character. *)
Definition utf8_char (c : bytes) : bool :=
  match c with
  | [b] => (0 <=? b) && (b <=? 127)
  | [b; c1] => (194 <=? b) && (b <=? 223) && cont_ok c1
  | [b; c1; c2] => (224 <=? b) && (b <=? 239) && second3_ok b c1 && cont_ok c2
  | [b; c1; c2; c3] =>
      (240 <=? b) && (b <=? 244) && second4_ok b c1 && cont_ok c2 && cont_ok c3
  | _ => false
  end.

(** [str::from_utf8(..).is_ok()]. *)
Fixpoint utf8_valid (bs : bytes) : bool :=
  match bs with
  | [] => true
  | b :: r =>
      if b <=? 127 then utf8_char [b] && utf8_valid r
      else match r with
      | [] => false
      | c1 :: r1 =>
          if b <=? 223 then utf8_char [b; c1] && utf8_valid r1
          else match r1 with
          | [] => false
          | c2 :: r2 =>
              if b <=? 239 then utf8_char [b; c1; c2] && utf8_valid r2
              else match r2 with
              | [] => false
              | c3 :: r3 => utf8_char [b; c1; c2; c3] && utf8_valid r3
              end
          end
      end
  end.

Lemma utf8_char_nonempty c : utf8_char c = true -> c <> [].
Proof. by destruct c. Qed.

(** Induction on valid text one character at a time. *)
Lemma utf8_valid_ind (P : bytes -> Prop) :
  P [] ->
  (forall c r, utf8_char c = true -> utf8_valid r = true -> P r -> P (c ++ r)) ->
  forall bs, utf8_valid bs = true -> P bs.
Proof.
  intros Hnil Hstep bs.
  induction bs as [bs IH] using (induction_ltof1 _ (@length Z)); unfold ltof in IH.
  intros Hv. destruct bs as [|b r]; [done|].
  cbn [utf8_valid] in Hv.
  destruct (b <=? 127).
  { apply andb_prop in Hv as [Hc Hr]. apply (Hstep [b]); [done..|]. apply IH; [simpl; lia|done]. }
  destruct r as [|c1 r1]; [done|]. destruct (b <=? 223).
  { apply andb_prop in Hv as [Hc Hr]. apply (Hstep [b; c1]); [done..|]. apply IH; [simpl; lia|done]. }
  destruct r1 as [|c2 r2]; [done|]. destruct (b <=? 239).
  { apply andb_prop in Hv as [Hc Hr]. apply (Hstep [b; c1; c2]); [done..|]. apply IH; [simpl; lia|done]. }
  destruct r2 as [|c3 r3]; [done|].
  apply andb_prop in Hv as [Hc Hr]. apply (Hstep [b; c1; c2; c3]); [done..|].
  apply IH; [simpl; lia|done].
Qed.

Lemma utf8_char_cases c :
  utf8_char c = true ->
  (exists b, c = [b] /\ 0 <= b <= 127) \/
  (exists b c1, c = [b; c1] /\ 194 <= b <= 223 /\ cont_ok c1 = true) \/
  (exists b c1 c2, c = [b; c1; c2] /\ 224 <= b <= 239 /\ second3_ok b c1 = true /\ cont_ok c2 = true) \/
  (exists b c1 c2 c3, c = [b; c1; c2; c3] /\ 240 <= b <= 244 /\
     second4_ok b c1 = true /\ cont_ok c2 = true /\ cont_ok c3 = true).
Proof.
  destruct c as [|b [|c1 [|c2 [|c3 [|]]]]]; simpl; try done; intros H; b2p.
  - left. eauto.
  - right; left. eauto 10.
  - right; right; left. eauto 10.
  - right; right; right. eauto 10.
Qed.

Lemma utf8_valid_char c r : utf8_char c = true -> utf8_valid (c ++ r) = utf8_valid r.
Proof.
  intros Hc. pose proof Hc as Hc'.
  apply utf8_char_cases in Hc' as [(b & -> & ?)|[(b & c1 & -> & ? & ?)|[(b & c1 & c2 & -> & ? & ?)|
    (b & c1 & c2 & c3 & -> & ? & ?)]]]; cbn [app utf8_valid].
  - take_true (b <=? 127). by rewrite Hc.
  - take_false (b <=? 127). take_true (b <=? 223). by rewrite Hc.
  - take_false (b <=? 127). take_false (b <=? 223). take_true (b <=? 239). by rewrite Hc.
  - take_false (b <=? 127). take_false (b <=? 223). take_false (b <=? 239). by rewrite Hc.
Qed.

Lemma utf8_valid_app a b : utf8_valid a = true -> utf8_valid (a ++ b) = utf8_valid b.
Proof.
  intros Ha. revert a Ha. apply (utf8_valid_ind (fun a => utf8_valid (a ++ b) = utf8_valid b)); [done|].
  intros c r Hc Hr IH. by rewrite <- (assoc_L (++)), utf8_valid_char.
Qed.

(** Decide a property of every byte by evaluation. *)
Lemma byte_forall (P : Z -> bool) :
  forallb P (Z.of_nat <$> seq 0 256) = true -> forall b, byte_ok b -> P b = true.
Proof.
  intros H b Hb. unfold byte_ok in Hb. rewrite forallb_forall in H. apply H.
  apply list_elem_of_In, list_elem_of_fmap. exists (Z.to_nat b). split; [lia|].
  apply elem_of_seq. lia.
Qed.

Lemma is_cont_ok b : byte_ok b -> is_cont b = cont_ok b.
Proof.
  intros Hb. apply Bool.eqb_prop. revert b Hb.
  apply (byte_forall (fun b => Bool.eqb (is_cont b) (cont_ok b))). vm_compute. reflexivity.
Qed.

Lemma cont_ok_byte c : cont_ok c = true -> byte_ok c /\ is_cont c = true.
Proof.
  intros H. assert (byte_ok c) as Hb by (unfold cont_ok in H; b2p; unfold byte_ok; lia).
  split; [done|]. by rewrite is_cont_ok.
Qed.

Lemma second3_cont b c : second3_ok b c = true -> cont_ok c = true.
Proof. unfold second3_ok, cont_ok. repeat case_test; intros; b2p; bdec. Qed.

Lemma second4_cont b c : second4_ok b c = true -> cont_ok c = true.
Proof. unfold second4_ok, cont_ok. repeat case_test; intros; b2p; bdec. Qed.

Lemma lead_not_cont b : 0 <= b <= 127 \/ 194 <= b <= 244 -> is_cont b = false.
Proof.
  intros. rewrite is_cont_ok by (unfold byte_ok; lia). unfold cont_ok.
  apply andb_false_iff. rewrite Z.leb_gt, Z.leb_gt. lia.
Qed.

(** A character starts with a lead byte and every further byte continues it. *)
Lemma utf8_char_shape c :
  utf8_char c = true ->
  exists lead tl, c = lead :: tl /\ byte_ok lead /\ is_cont lead = false /\
    bytes_ok tl /\ Forall (fun b => is_cont b = true) tl.
Proof.
  intros H. apply utf8_char_cases in H as
    [(b & -> & ?)|[(b & c1 & -> & ? & H1)|[(b & c1 & c2 & -> & ? & H1 & H2)|
      (b & c1 & c2 & c3 & -> & ? & H1 & H2 & H3)]]];
  try apply second3_cont in H1; try apply second4_cont in H1;
  repeat match goal with H : cont_ok _ = true |- _ => apply cont_ok_byte in H as [??] end;
  (eexists _, _; split; [reflexivity|]); split_and!;
  solve [unfold byte_ok; lia | apply lead_not_cont; lia
        | repeat apply Forall_cons_2; try apply Forall_nil_2; assumption].
Qed.

Lemma utf8_char_ok c : utf8_char c = true -> bytes_ok c.
Proof. intros H. apply utf8_char_shape in H as (? & ? & -> & ? & ? & ? & ?). by constructor. Qed.

Lemma utf8_valid_ok bs : utf8_valid bs = true -> bytes_ok bs.
Proof.
  revert bs. apply utf8_valid_ind; [constructor|]. intros. apply Forall_app. split; [|done].
  by apply utf8_char_ok.
Qed.

Lemma char_count_app a b : char_count (a ++ b) = (char_count a + char_count b)%nat.
Proof. unfold char_count. by rewrite filter_app, length_app. Qed.

Lemma char_count_char c : utf8_char c = true -> char_count c = 1%nat.
Proof.
  intros H. apply utf8_char_shape in H as (l & tl & -> & ? & Hl & ? & Htl).
  unfold char_count. rewrite filter_cons_True by done. simpl. f_equal.
  induction Htl as [|x tl Hx ? IH]; [done|]. rewrite filter_cons_False by congruence.
  apply IH. by match goal with H : Forall _ (_ :: _) |- _ => inversion H end.
Qed.

Lemma char_count_le bs : (char_count bs <= length bs)%nat.
Proof. apply length_filter. Qed.

(** ** Decimal integers *)

Definition is_digit (b : Z) : bool := (48 <=? b) && (b <=? 57).

(** [fold] over ASCII digits, as the length prefix of an element and
    [FromStr] compute a value. *)
Definition digits_value (ds : bytes) : Z := fold_left (fun acc d => acc * 10 + (d - 48)) ds 0.

(** The decimal digits of [v >= 0]; [fuel] bounds their number. *)
Fixpoint dec_fuel (fuel : nat) (v : Z) : bytes :=
  match fuel with
  | O => []
  | S f => (if v <? 10 then [] else dec_fuel f (v / 10)) ++ [48 + v mod 10]
  end.

(** Every 64-bit value has at most 20 digits. *)
Definition dec (v : Z) : bytes := dec_fuel 20 v.
#[global] Arguments dec : simpl never.

(** [ToString] for integers. *)
Definition int_to_string (z : Z) : bytes := if z <? 0 then 45 :: dec (- z) else dec z.

(** [FromStr] for an integer type with range [lo, hi]: an optional sign ([-]
    only for signed types), at least one digit, and no overflow. *)
Definition parse_int (lo hi : Z) (s : bytes) : option Z :=
  let check neg ds :=
    match ds with
    | [] => None
    | _ => if forallb is_digit ds then
             let v := if (neg : bool) then - digits_value ds else digits_value ds in
             if (lo <=? v) && (v <=? hi) then Some v else None
           else None
    end in
  match s with
  | 43 :: ds => check false ds
  | 45 :: ds => if lo <? 0 then check true ds else None
  | ds => check false ds
  end.

Definition parse_u8 := parse_int 0 u8_max.
Definition parse_u32 := parse_int 0 u32_max.
Definition parse_u64 := parse_int 0 u64_max.
Definition parse_i32 := parse_int i32_min i32_max.
Definition parse_i64 := parse_int i64_min i64_max.

Lemma digits_value_app a d : digits_value (a ++ [d]) = digits_value a * 10 + (d - 48).
Proof. unfold digits_value. by rewrite fold_left_app. Qed.

Lemma dec_fuel_spec fuel v :
  0 <= v < 10 ^ Z.of_nat fuel -> (fuel <> 0)%nat ->
  digits_value (dec_fuel fuel v) = v /\
  Forall (fun d => is_digit d = true) (dec_fuel fuel v) /\
  dec_fuel fuel v <> [] /\ (length (dec_fuel fuel v) <= fuel)%nat.
Proof.
  revert v. induction fuel as [|f IH]; intros v Hv Hf; [done|]. cbn [dec_fuel].
  assert (is_digit (48 + v mod 10) = true) as Hd.
  { unfold is_digit. pose proof (Z.mod_pos_bound v 10). bdec. }
  rewrite digits_value_app. rewrite Nat2Z.inj_succ, Z.pow_succ_r in Hv by lia.
  destruct (v <? 10) eqn:E; b2p.
  - split_and!; [cbn; rewrite Z.mod_small; lia|by repeat constructor|done|simpl; lia].
  - assert (f <> 0)%nat by (intros ->; simpl in *; lia).
    destruct (IH (v / 10)) as (IH1 & IH2 & IH3 & IH4); [|done|].
    { split; [apply Z.div_pos; lia|apply Z.div_lt_upper_bound; lia]. }
    split_and!.
    + rewrite IH1. pose proof (Z.div_mod v 10). lia.
    + apply Forall_app; auto.
    + by destruct (dec_fuel f (v / 10)).
    + len.
Qed.

Definition dec_bound : Z := 100000000000000000000.

Lemma dec_spec v :
  0 <= v < dec_bound ->
  digits_value (dec v) = v /\ Forall (fun d => is_digit d = true) (dec v) /\
  dec v <> [] /\ (length (dec v) <= 20)%nat.
Proof. intros. apply dec_fuel_spec; [by unfold dec_bound in *|done]. Qed.

Lemma digit_range d : is_digit d = true <-> 48 <= d <= 57.
Proof. unfold is_digit. rewrite andb_true_iff, !Z.leb_le. done. Qed.

Lemma Forall_digits_forallb ds : Forall (fun d => is_digit d = true) ds -> forallb is_digit ds = true.
Proof. induction 1; simpl; [done|]. apply andb_true_intro. auto. Qed.

Lemma parse_int_digits lo hi ds :
  ds <> [] -> Forall (fun d => is_digit d = true) ds -> in_range lo hi (digits_value ds) ->
  parse_int lo hi ds = Some (digits_value ds).
Proof.
  intros Hne Hd [Hlo Hhi]. pose proof (Forall_digits_forallb _ Hd) as Hall.
  destruct ds as [|d ds]; [done|]. inversion_clear Hd as [|? ? Hd1 _]. apply digit_range in Hd1.
  unfold parse_int.
  assert (match d with 43 | 45 => False | _ => True end) as Hns by (repeat case_match; subst; try done; lia).
  transitivity (if forallb is_digit (d :: ds) then
    (if (lo <=? digits_value (d :: ds)) && (digits_value (d :: ds) <=? hi)
     then Some (digits_value (d :: ds)) else None) else None).
  { by repeat case_match. }
  rewrite Hall. by take_true ((lo <=? digits_value (d :: ds)) && (digits_value (d :: ds) <=? hi)).
Qed.

(** Rendering an integer and parsing it back gives the integer. *)
Lemma parse_int_to_string lo hi z :
  in_range lo hi z -> - dec_bound < z < dec_bound ->
  parse_int lo hi (int_to_string z) = Some z.
Proof.
  intros [Hlo Hhi] Hz. unfold int_to_string. case_test; b2p.
  - destruct (dec_spec (- z)) as (Hv & Hd & Hne & _); [lia|]. unfold parse_int.
    take_true (lo <? 0). destruct (dec (- z)) as [|d ds] eqn:E; [done|]. rewrite <- E in *.
    rewrite (Forall_digits_forallb _ Hd), Hv, Z.opp_involutive.
    by take_true ((lo <=? z) && (z <=? hi)).
  - destruct (dec_spec z) as (Hv & Hd & Hne & _); [lia|].
    rewrite parse_int_digits by (rewrite ?Hv; done). by rewrite Hv.
Qed.

(** Rendered integers are ASCII. *)
Definition is_ascii (b : Z) : bool := (0 <=? b) && (b <=? 127).

(** Visible ASCII, the space included. *)
Definition is_visible (b : Z) : bool := (32 <=? b) && (b <=? 126).

Lemma visible_ascii bs : forallb is_visible bs = true -> forallb is_ascii bs = true.
Proof.
  intros Hb. apply forallb_forall. intros b Hin. rewrite forallb_forall in Hb. specialize (Hb b Hin).
  unfold is_visible, is_ascii in *. b2p. bdec.
Qed.

Lemma ascii_utf8 bs : forallb is_ascii bs = true -> utf8_valid bs = true.
Proof.
  induction bs as [|b bs IH]; [done|]. cbn [forallb utf8_valid]. intros H. apply andb_prop in H as [Hb H].
  pose proof Hb as Hb'. unfold is_ascii in Hb'. b2p. take_true (b <=? 127).
  change (utf8_char [b]) with (is_ascii b). by rewrite Hb, IH.
Qed.

Lemma digits_utf8 ds : Forall (fun d => is_digit d = true) ds -> utf8_valid ds = true.
Proof.
  intros H. apply ascii_utf8. induction H as [|d ds Hd]; [done|]. simpl. rewrite IHForall, andb_true_r.
  apply digit_range in Hd. unfold is_ascii. bdec.
Qed.

Lemma int_to_string_utf8 z : - dec_bound < z < dec_bound -> utf8_valid (int_to_string z) = true.
Proof.
  intros Hz. unfold int_to_string. case_test; b2p.
  - destruct (dec_spec (- z)) as (_ & Hd & _); [lia|].
    change (45 :: dec (- z)) with ([45] ++ dec (- z)). rewrite utf8_valid_char by done. by apply digits_utf8.
  - destruct (dec_spec z) as (_ & Hd & _); [lia|]. by apply digits_utf8.
Qed.

Lemma int_to_string_length z : - dec_bound < z < dec_bound -> (length (int_to_string z) <= 21)%nat.
Proof.
  intros Hz. unfold int_to_string. case_test; b2p.
  - destruct (dec_spec (- z)) as (_ & _ & _ & ?); [lia|]. simpl. lia.
  - destruct (dec_spec z) as (_ & _ & _ & ?); [lia|]. lia.
Qed.

Lemma i64_dec_bound z : is_i64 z \/ is_u64 z \/ is_i32 z \/ is_u32 z \/ is_u8 z -> - dec_bound < z < dec_bound.
Proof.
  unfold in_range, dec_bound, i64_min, i64_max, u64_max, i32_min, i32_max, u32_max, u8_max. lia.
Qed.

#[export] Hint Resolve int_to_string_utf8 i64_dec_bound : strata.

(** Values below [10^k] have at most [k] digits. *)
Lemma dec_fuel_length fuel k v :
  (k <> 0)%nat -> 0 <= v < 10 ^ Z.of_nat k -> (length (dec_fuel fuel v) <= k)%nat.
Proof.
  revert k v. induction fuel as [|f IH]; intros k v Hk Hv; simpl; [lia|].
  case_test; b2p; [simpl; lia|].
  destruct k as [|k]; [done|]. rewrite Nat2Z.inj_succ, Z.pow_succ_r in Hv by lia.
  assert (k <> 0)%nat by (intros ->; simpl in *; lia).
  rewrite length_app. simpl. specialize (IH k (v / 10)).
  ospecialize (IH _ _); [done|split; [apply Z.div_pos; lia|apply Z.div_lt_upper_bound; lia]|lia].
Qed.

Lemma parse_int_range lo hi s v : parse_int lo hi s = Some v -> in_range lo hi v.
Proof.
  unfold parse_int, in_range. intros E.
  repeat case_match; simplify_eq; b2p; lia.
Qed.

(** ** Splitting and trimming *)

(** [split_once(sep)] for an ASCII separator. *)
Fixpoint split_once (sep : Z) (s : bytes) : option (bytes * bytes) :=
  match s with
  | [] => None
  | b :: r =>
      if b =? sep then Some ([], r)
      else match split_once sep r with Some (x, y) => Some (b :: x, y) | None => None end
  end.

(** [split(sep)] for an ASCII separator: always at least one piece. *)
Fixpoint split (sep : Z) (s : bytes) : list bytes :=
  match s with
  | [] => [[]]
  | b :: r =>
      if b =? sep then [] :: split sep r
      else match split sep r with p :: ps => (b :: p) :: ps | [] => [[b]] end
  end.

(** The UTF-8 encodings of the characters with the White_Space property. *)
Definition white_space : list bytes :=
  [[9]; [10]; [11]; [12]; [13]; [32]; [194; 133]; [194; 160]; [225; 154; 128]] ++
  ((fun c => [226; 128; c]) <$> [128; 129; 130; 131; 132; 133; 134; 135; 136; 137; 138; 168; 169; 175]) ++
  [[226; 129; 159]; [227; 128; 128]].

Fixpoint strip_one (ws : list bytes) (s : bytes) : option bytes :=
  match ws with
  | [] => None
  | w :: r => if bool_decide (take (length w) s = w) then Some (drop (length w) s) else strip_one r s
  end.

Fixpoint strip_all (fuel : nat) (ws : list bytes) (s : bytes) : bytes :=
  match fuel with
  | O => s
  | S f => match strip_one ws s with Some s' => strip_all f ws s' | None => s end
  end.

(** [trim_start] and [trim_end]: each step removes at least a byte, so the
    length is enough fuel. *)
Definition trim_start (s : bytes) : bytes := strip_all (length s) white_space s.
Definition trim_end (s : bytes) : bytes := rev (strip_all (length s) (rev (A:=Z) <$> white_space) (rev s)).
Definition trim (s : bytes) : bytes := trim_end (trim_start s).

Lemma strip_one_shorter ws s s' :
  Forall (fun w => w <> []) ws -> strip_one ws s = Some s' -> (length s' < length s)%nat.
Proof.
  induction 1 as [|w ws Hw _ IH]; cbn [strip_one]; [done|]. case_bool_decide as Hs; [|done].
  intros [= <-]. rewrite length_drop. apply (f_equal length) in Hs. rewrite length_take in Hs.
  destruct w; [done|]. cbn [length] in *. lia.
Qed.

(** With the length as fuel, no leading white space is left. *)
Lemma strip_all_done ws s : Forall (fun w => w <> []) ws -> strip_one ws (strip_all (length s) ws s) = None.
Proof.
  intros Hws. assert (forall n s, (length s <= n)%nat -> strip_one ws (strip_all n ws s) = None) as Hn; [|by apply Hn].
  intros n. induction n as [|n IH]; intros t Ht; cbn [strip_all].
  - destruct (strip_one ws t) eqn:Es; [|done]. apply strip_one_shorter in Es; [lia|done].
  - destruct (strip_one ws t) eqn:Es; [|done]. apply IH. apply strip_one_shorter in Es; [lia|done].
Qed.

Lemma strip_one_split ws s s' :
  strip_one ws s = Some s' -> exists w, s = w ++ s' /\ Forall (fun b => b ∈ concat ws) w.
Proof.
  induction ws as [|w ws IH]; cbn [strip_one concat]; [done|]. case_bool_decide as Hs.
  - intros [= <-]. exists w. split; [by rewrite <- Hs at 1; rewrite take_drop|].
    apply Forall_forall. intros b Hb. apply elem_of_app. by left.
  - intros Hs'. destruct (IH Hs') as (v & -> & Hv). exists v. split; [done|].
    eapply Forall_impl; [exact Hv|]. intros b Hb. apply elem_of_app. by right.
Qed.

Lemma strip_all_split n ws s : exists w, s = w ++ strip_all n ws s /\ Forall (fun b => b ∈ concat ws) w.
Proof.
  revert s. induction n as [|n IH]; intros s; cbn [strip_all]; [by exists []|].
  destruct (strip_one ws s) as [s'|] eqn:Es; [|by exists []]. apply strip_one_split in Es as (w & -> & Hw).
  destruct (IH s') as (v & Hs & Hv). exists (w ++ v). rewrite <- (assoc_L (++)), <- Hs. split; [done|]. by apply Forall_app.
Qed.

Lemma strip_one_prefix ws s u : strip_one ws (u ++ s) = None -> strip_one ws u = None.
Proof.
  induction ws as [|w ws IH]; cbn [strip_one]; [done|]. do 2 case_bool_decide; try done.
  match goal with H : take (length w) u = w, N : take (length w) (u ++ s) <> w |- _ => destruct N; rewrite <- H at 2 end.
  match goal with H : take (length w) u = w |- _ => apply (f_equal length) in H; rewrite length_take in H end.
  rewrite take_app_le by lia. done.
Qed.

Lemma strip_all_fixed n ws s : strip_one ws s = None -> strip_all n ws s = s.
Proof. intros E. destruct n; cbn [strip_all]; [done|]. by rewrite E. Qed.

Lemma trim_idem s : trim (trim s) = trim s.
Proof.
  unfold trim. assert (forall t, exists v, t = trim_end t ++ v) as He.
  { intros t. unfold trim_end. destruct (strip_all_split (length t) (rev (A:=Z) <$> white_space) (rev t)) as (v & Hv & _).
    exists (rev v). rewrite <- rev_app_distr, <- Hv. by rewrite rev_involutive. }
  assert (trim_start (trim_end (trim_start s)) = trim_end (trim_start s)) as ->.
  { destruct (He (trim_start s)) as [v Hv]. unfold trim_start at 1. apply strip_all_fixed, (strip_one_prefix _ v).
    rewrite <- Hv. apply strip_all_done. repeat apply Forall_cons_2; try apply Forall_nil_2; done. }
  set (t := trim_start s). unfold trim_end at 1. rewrite strip_all_fixed; [by rewrite rev_involutive|].
  unfold trim_end. rewrite rev_involutive. replace (length t) with (length (rev t)) by apply length_rev. apply strip_all_done.
  repeat apply Forall_cons_2; try apply Forall_nil_2; done.
Qed.

Lemma strip_one_head ws d r :
  Forall (fun w => match w with x :: _ => x <> d | [] => False end) ws -> strip_one ws (d :: r) = None.
Proof.
  induction 1 as [|w ws Hw _ IH]; [done|]. cbn [strip_one]. destruct w as [|x w]; [done|]. cbn [length take].
  rewrite bool_decide_false by (intros [= ->]; done). done.
Qed.

Lemma digit_head_trim d r : is_digit d = true -> trim_start (d :: r) = d :: r.
Proof.
  intros Hd. unfold trim_start. apply strip_all_fixed, strip_one_head. apply digit_range in Hd. repeat constructor; lia.
Qed.

(** Text from a digit to a [';'] has nothing to trim. *)
Lemma trim_digit_semicolon d r : is_digit d = true -> trim (d :: r ++ [59]) = d :: r ++ [59].
Proof.
  intros Hd. unfold trim. rewrite digit_head_trim by done. unfold trim_end.
  rewrite app_comm_cons, rev_unit, strip_all_fixed.
  - by rewrite <- rev_unit, rev_involutive.
  - apply strip_one_head. unfold white_space. cbn. repeat (apply Forall_cons_2; [lia|]). apply Forall_nil_2.
Qed.

(** A string that trims to nothing consists of white space. *)
Lemma trim_blank s : trim s = [] -> Forall (fun b => b ∈ concat white_space) s.
Proof.
  unfold trim, trim_end. intros Ht. apply (f_equal (rev (A:=Z))) in Ht. rewrite rev_involutive in Ht. change (rev []) with (@nil Z) in Ht.
  destruct (strip_all_split (length s) white_space s) as (w & Hs & Hw). fold (trim_start s) in Hs.
  destruct (strip_all_split (length (trim_start s)) (rev (A:=Z) <$> white_space) (rev (trim_start s))) as (v & Hv & Hvw).
  rewrite Ht, app_nil_r in Hv. rewrite Hs. apply Forall_app. split; [done|].
  rewrite <- (rev_involutive (trim_start s)), Hv. apply Forall_rev. eapply Forall_impl; [exact Hvw|].
  cbn beta. intros b. rewrite !list_elem_of_In, !in_concat. intros (x & Hx & Hb).
  apply list_elem_of_In, list_elem_of_fmap in Hx as (y & -> & Hy). exists y.
  split; [by apply list_elem_of_In|]. by apply in_rev.
Qed.

(** Joining the pieces with the separator gives the string back, and no piece
    contains it. *)
Fixpoint join (sep : bytes) (ps : list bytes) : bytes :=
  match ps with
  | [] => []
  | [p] => p
  | p :: ps => p ++ sep ++ join sep ps
  end.

Lemma split_join sep s : join [sep] (split sep s) = s.
Proof.
  induction s as [|b s IH]; [done|]. cbn [split]. case_test; b2p.
  - subst. destruct (split sep s) eqn:Es; [by destruct s; cbn in Es; repeat case_match|].
    rewrite <- IH. done.
  - destruct (split sep s) as [|p ps]; [cbn in IH; by subst|]. rewrite <- IH. by destruct ps.
Qed.

Lemma split_pieces sep s : Forall (fun p => sep ∉ p) (split sep s).
Proof.
  induction s as [|b s IH]; cbn [split]; [constructor; [apply not_elem_of_nil|constructor]|].
  case_test; b2p; [constructor; [apply not_elem_of_nil|done]|].
  destruct (split sep s) as [|p ps]; [repeat constructor; rewrite list_elem_of_singleton; congruence|].
  inversion_clear IH. constructor; [|done]. rewrite not_elem_of_cons. split; congruence.
Qed.

Lemma split_once_spec sep s x y : split_once sep s = Some (x, y) <-> s = x ++ sep :: y /\ sep ∉ x.
Proof.
  revert x. induction s as [|b s IH]; intros x; cbn [split_once].
  - split; [done|]. by intros [Hs _]; destruct x.
  - case_test; b2p.
    + subst. split; [intros [= <- <-]; split; [done|apply not_elem_of_nil]|]. intros [Hs Hx].
      destruct x as [|c x]; cbn in Hs; [by injection Hs as ->|]. injection Hs as <- _. exfalso. apply Hx. left.
    + split.
      * destruct (split_once sep s) as [[x' y']|] eqn:Es; [|done]. intros [= <- <-].
        destruct (proj1 (IH x') eq_refl) as [-> Hx']. split; [done|]. rewrite not_elem_of_cons. split; congruence.
      * intros [Hs Hx]. destruct x as [|c x]; cbn in Hs; [congruence|]. injection Hs as <- Hs.
        rewrite not_elem_of_cons in Hx. rewrite (proj2 (IH x)) by tauto. done.
Qed.

Lemma join_visible sep ps :
  forallb is_visible sep = true -> Forall (fun p => forallb is_visible p = true) ps ->
  forallb is_visible (join sep ps) = true.
Proof.
  intros Hs. induction 1 as [|p ps Hp Hps IH]; [done|]. destruct ps as [|q ps]; [done|].
  change (join sep (p :: q :: ps)) with (p ++ sep ++ join sep (q :: ps)). by rewrite !forallb_app, Hp, Hs, IH.
Qed.

Lemma join_nonempty sep p ps : p <> [] -> join sep (p :: ps) <> [].
Proof. intros Hp. destruct ps; [done|]. cbn. by destruct p. Qed.

Lemma digits_visible ds : Forall (fun d => is_digit d = true) ds -> forallb is_visible ds = true.
Proof.
  intros H. apply forallb_forall. intros d Hd. rewrite Forall_forall in H. apply list_elem_of_In in Hd.
  specialize (H d Hd). apply digit_range in H. unfold is_visible. bdec.
Qed.

Lemma int_to_string_visible z :
  - dec_bound < z < dec_bound -> forallb is_visible (int_to_string z) = true /\ int_to_string z <> [].
Proof.
  intros Hz. unfold int_to_string. case_test; b2p.
  - destruct (dec_spec (- z)) as (_ & Hd & _); [lia|]. split; [|done]. by apply digits_visible in Hd.
  - destruct (dec_spec z) as (_ & Hd & ? & _); [lia|]. split; [by apply digits_visible|done].
Qed.

(** ** Lossy decoding and lines *)

(** [String::from_utf8_lossy]: each maximal invalid sequence becomes U+FFFD. *)
Definition replacement : bytes := [239; 191; 189].

Fixpoint utf8_lossy (bs : bytes) : bytes :=
  match bs with
  | [] => []
  | b :: r =>
      if b <=? 127 then b :: utf8_lossy r
      else if b <=? 193 then replacement ++ utf8_lossy r
      else if 245 <=? b then replacement ++ utf8_lossy r
      else match r with
      | [] => replacement
      | c1 :: r1 =>
          if b <=? 223 then
            if cont_ok c1 then b :: c1 :: utf8_lossy r1 else replacement ++ utf8_lossy r
          else if negb (if b <=? 239 then second3_ok b c1 else second4_ok b c1)
          then replacement ++ utf8_lossy r
          else match r1 with
          | [] => replacement
          | c2 :: r2 =>
              if negb (cont_ok c2) then replacement ++ utf8_lossy r1
              else if b <=? 239 then b :: c1 :: c2 :: utf8_lossy r2
              else match r2 with
              | [] => replacement
              | c3 :: r3 =>
                  if cont_ok c3 then b :: c1 :: c2 :: c3 :: utf8_lossy r3
                  else replacement ++ utf8_lossy r2
              end
          end
      end
  end.

Lemma utf8_lossy_char c r : utf8_char c = true -> utf8_lossy (c ++ r) = c ++ utf8_lossy r.
Proof.
  intros Hc. apply utf8_char_cases in Hc as [(b & -> & ?)|[(b & c1 & -> & ? & H1)|[(b & c1 & c2 & -> & ? & H1 & H2)|
    (b & c1 & c2 & c3 & -> & ? & H1 & H2 & H3)]]]; cbn [app utf8_lossy].
  - by take_true (b <=? 127).
  - take_false (b <=? 127). take_false (b <=? 193). take_false (245 <=? b). take_true (b <=? 223). by rewrite H1.
  - take_false (b <=? 127). take_false (b <=? 193). take_false (245 <=? b). take_false (b <=? 223).
    take_true (b <=? 239). rewrite H1. cbn [negb]. by rewrite H2.
  - take_false (b <=? 127). take_false (b <=? 193). take_false (245 <=? b). take_false (b <=? 223).
    take_false (b <=? 239). rewrite H1. cbn [negb]. rewrite H2. cbn [negb]. by rewrite H3.
Qed.

(** Valid text is unchanged. *)
Lemma utf8_lossy_valid bs : utf8_valid bs = true -> utf8_lossy bs = bs.
Proof. revert bs. apply utf8_valid_ind; [done|]. intros c r Hc _ IH. by rewrite utf8_lossy_char, IH. Qed.

(** A line break is never swallowed by what comes before it. *)
Lemma utf8_lossy_newline a r : utf8_lossy (a ++ 10 :: r) = utf8_lossy a ++ 10 :: utf8_lossy r.
Proof.
  induction a as [a IH] using (induction_ltof1 _ (@length Z)). unfold ltof in IH.
  destruct a as [|b a]; [done|].
  assert (forall b, (if b <=? 239 then second3_ok b 10 else second4_ok b 10) = false) as Hs.
  { intros b'. unfold second3_ok, second4_ok. by repeat case_match. }
  pose proof (IH a ltac:(simpl; lia)) as IHa.
  cbn [app utf8_lossy]. rewrite IHa.
  destruct (b <=? 127); [done|]. destruct (b <=? 193); [by rewrite (assoc_L (++))|].
  destruct (245 <=? b); [by rewrite (assoc_L (++))|].
  destruct a as [|c1 a].
  { cbn [app] in *. rewrite Hs. change (cont_ok 10) with false. by destruct (b <=? 223). }
  pose proof (IH a ltac:(simpl; lia)) as IHa1. cbn [app] in *. rewrite IHa1.
  destruct (b <=? 223); [destruct (cont_ok c1); [done|by rewrite (assoc_L (++))]|].
  destruct (negb _); [by rewrite (assoc_L (++))|].
  destruct a as [|c2 a]; [done|].
  pose proof (IH a ltac:(simpl; lia)) as IHa2. cbn [app] in *. rewrite IHa2.
  destruct (negb (cont_ok c2)); [by rewrite (assoc_L (++))|]. destruct (b <=? 239); [done|].
  destruct a as [|c3 a]; [done|].
  pose proof (IH a ltac:(simpl; lia)) as IHa3. cbn [app] in *. rewrite IHa3.
  destruct (cont_ok c3); [done|]. by rewrite (assoc_L (++)).
Qed.

(** [str::lines]: pieces between line feeds, without a final empty one and
    without one carriage return at the end of each. *)
Definition strip_cr (l : bytes) : bytes :=
  match rev l with 13 :: r => rev r | _ => l end.

Definition lines (s : bytes) : list bytes :=
  let ps := split 10 s in
  strip_cr <$> (match rev ps with [] :: r => rev r | _ => ps end).

Lemma split_app_sep sep a r : split sep (a ++ sep :: r) = split sep a ++ split sep r.
Proof.
  induction a as [|b a IH]; cbn [app split]; [by rewrite Z.eqb_refl|]. rewrite IH.
  case_test; [done|]. destruct (split sep a) eqn:E; [|done]. by destruct a; cbn in E; repeat case_match.
Qed.

Lemma split_single sep a : sep ∉ a -> split sep a = [a].
Proof.
  induction a as [|b a IH]; [done|]. rewrite not_elem_of_cons. intros [Hb Ha]. cbn [split].
  take_false (b =? sep). by rewrite IH.
Qed.

Lemma strip_cr_id l : 13 ∉ l -> strip_cr l = l.
Proof.
  intros Hl. unfold strip_cr. destruct (rev l) as [|c r] eqn:E; [done|].
  assert (c <> 13). { intros ->. apply Hl, list_elem_of_In, in_rev. rewrite E. by left. }
  by repeat case_match.
Qed.

(** A terminated last line is the last of the lines. *)
Lemma lines_last s l : 10 ∉ l -> 13 ∉ l ->
  (s = [] \/ exists s', s = s' ++ [10]) -> exists ls, lines (s ++ l ++ [10]) = ls ++ [l].
Proof.
  intros Hn Hr Hs.
  assert (exists ps, split 10 (s ++ l ++ [10]) = (ps ++ [l]) ++ [[]]) as [ps Hps].
  { destruct Hs as [->|[s' ->]].
    - exists []. cbn [app]. rewrite split_app_sep, (split_single 10 l) by done. done.
    - exists (split 10 s'). rewrite <- !(assoc_L (++)). cbn [app].
      rewrite split_app_sep, split_app_sep, (split_single 10 l) by done. done. }
  exists (strip_cr <$> ps). unfold lines. rewrite Hps, rev_app_distr. cbn [rev app].
  rewrite rev_involutive, fmap_app. cbn. by rewrite strip_cr_id.
Qed.

(** ** Unique splitting *)

Lemma split_unique_l (sep : Z) (x y x' y' : bytes) :
  sep ∉ x -> sep ∉ x' -> x ++ sep :: y = x' ++ sep :: y' -> x = x' /\ y = y'.
Proof.
  intros Hx Hx' E. assert (split_once sep (x ++ sep :: y) = Some (x, y)) as H1 by by apply split_once_spec.
  assert (split_once sep (x' ++ sep :: y') = Some (x', y')) as H2 by by apply split_once_spec.
  rewrite E, H2 in H1. by injection H1.
Qed.

Lemma split_unique_r (sep : Z) (x y x' y' : bytes) :
  sep ∉ y -> sep ∉ y' -> x ++ sep :: y = x' ++ sep :: y' -> x = x' /\ y = y'.
Proof.
  intros Hy Hy' E. apply (f_equal (rev (A:=Z))) in E. rewrite !rev_app_distr in E. cbn [rev] in E.
  rewrite <- !(assoc_L (++)) in E. cbn [app] in E.
  apply split_unique_l in E as [Ey Ex]; [|rewrite list_elem_of_In, <- in_rev, <- list_elem_of_In; done..].
  apply (f_equal (rev (A:=Z))) in Ex, Ey. by rewrite !rev_involutive in Ex, Ey.
Qed.

(** The characters of a rendered integer. *)
Lemma int_to_string_chars z c : - dec_bound < z < dec_bound -> c ∈ int_to_string z -> is_digit c = true \/ c = 45.
Proof.
  intros Hz. unfold int_to_string. case_test; b2p.
  - destruct (dec_spec (- z)) as (_ & Hd & _); [lia|]. rewrite elem_of_cons. intros [->|Hin]; [by right|].
    left. rewrite Forall_forall in Hd. by apply Hd.
  - destruct (dec_spec z) as (_ & Hd & _); [lia|]. intros Hin. left. rewrite Forall_forall in Hd. by apply Hd.
Qed.

Lemma int_to_string_nonempty z : - dec_bound < z < dec_bound -> int_to_string z <> [].
Proof.
  intros Hz. unfold int_to_string. case_test; b2p. destruct (dec_spec z) as (_ & _ & ? & _); [lia|done].
Qed.

Lemma int_to_string_inj a b : is_i64 a -> is_i64 b -> int_to_string a = int_to_string b -> a = b.
Proof.
  intros Ha Hb E. apply (f_equal parse_i64) in E. unfold parse_i64 in E.
  rewrite !parse_int_to_string in E by auto using i64_dec_bound. by injection E.
Qed.

(** ** Searching *)

(** [str::contains]. *)
Fixpoint str_contains (sub s : bytes) : bool :=
  bool_decide (take (length sub) s = sub) || match s with [] => false | _ :: r => str_contains sub r end.

(** [str::starts_with] and [str::ends_with]. *)
Definition str_starts (p s : bytes) : bool := bool_decide (take (length p) s = p).
Definition str_ends (p s : bytes) : bool := bool_decide (drop (length s - length p) s = p).

Definition to_ascii_lowercase (s : bytes) : bytes := (fun c => if (65 <=? c) && (c <=? 90) then c + 32 else c) <$> s.
Definition to_ascii_uppercase (s : bytes) : bytes := (fun c => if (97 <=? c) && (c <=? 122) then c - 32 else c) <$> s.

(** [trim_end_matches(p)]: every copy of [p] at the end. *)
Fixpoint trim_end_matches_fuel (fuel : nat) (p s : bytes) : bytes :=
  match fuel with
  | O => s
  | S f => if str_ends p s then trim_end_matches_fuel f p (take (length s - length p) s) else s
  end.

Definition trim_end_matches (p s : bytes) : bytes := trim_end_matches_fuel (length s) p s.

(** [rsplit(sep).next()]: what follows the last separator. *)
Fixpoint after_last (sep s : bytes) : bytes :=
  match s with
  | [] => []
  | _ :: r => if str_contains sep r then after_last sep r else if str_starts sep s then drop (length sep) s else s
  end.

(** [split_whitespace]. *)
Fixpoint split_whitespace_fuel (fuel : nat) (word s : bytes) : list bytes :=
  let flush := match word with [] => [] | _ => [word] end in
  match fuel, s with
  | O, _ | _, [] => flush
  | S f, b :: r =>
      match strip_one white_space s with
      | Some s' => flush ++ split_whitespace_fuel f [] s'
      | None => split_whitespace_fuel f (word ++ [b]) r
      end
  end.

Definition split_whitespace (s : bytes) : list bytes := split_whitespace_fuel (length s) [] s.

(** [str::replace]. *)
Fixpoint replace_fuel (fuel : nat) (from to s : bytes) : bytes :=
  match fuel, s with
  | O, _ | _, [] => s
  | S f, b :: r => if str_starts from s then to ++ replace_fuel f from to (drop (length from) s) else b :: replace_fuel f from to r
  end.

Definition str_replace (from to s : bytes) : bytes := replace_fuel (length s) from to s.
