(* ===== verification/Net.v ===== *)
(** * IP addresses, trusted networks and per-network body caps

    The parts of [std::net] the gateway uses ([IpAddr], [FromStr],
    [Display]), the trusted-proxy networks of
    [crates/strata-dmz/src/edge_signer.rs] and the rule table of
    [crates/strata-dmz/src/body_caps.rs]. *)

From Stdlib Require Import Sorted.
From S2P Require Import Prelude Machine Text.

Local Open Scope Z_scope.

(** ** [std::net::IpAddr] *)

(** An address as the integer [u32::from] or [u128::from] gives. *)
Inductive IpAddr : Type := V4 (bits : Z) | V6 (bits : Z).

#[export] Instance IpAddr_eq_dec : EqDecision IpAddr.
Proof. solve_decision. Defined.

Definition u128_max : Z := 340282366920938463463374607431768211455.

Definition is_ipv4 (a : IpAddr) : bool := match a with V4 _ => true | V6 _ => false end.

(** The width of an address of the same family. *)
Definition width (a : IpAddr) : Z := if is_ipv4 a then 32 else 128.

Definition bits_of (a : IpAddr) : Z := match a with V4 b | V6 b => b end.

Definition ip_ok (a : IpAddr) : Prop := 0 <= bits_of a < 2 ^ width a.

(** *** Parsing *)

(** [char::to_digit]. *)
Definition to_digit (radix b : Z) : option Z :=
  let d :=
    if is_digit b then b - 48
    else if (97 <=? b) && (b <=? 122) then b - 87
    else if (65 <=? b) && (b <=? 90) then b - 55
    else 255 in
  if d <? radix then Some d else None.

Definition reader (A : Type) : Type := bytes -> option (A * bytes).

(** [Parser::read_given_char]. *)
Definition read_given_char (c : Z) : reader unit := fun s =>
  match s with b :: r => if b =? c then Some (tt, r) else None | [] => None end.

(** [Parser::read_number] with a digit limit, for values up to [hi]. *)
Definition read_number (radix : Z) (max_digits : nat) (allow_zero_prefix : bool) (hi : Z) : reader Z := fun s =>
  let ds := prefix_while (S max_digits) (fun b => bool_decide (is_Some (to_digit radix b))) s in
  let v := fold_left (fun acc b => acc * radix + default 0 (to_digit radix b)) ds 0 in
  if (length ds =? 0)%nat || (max_digits <? length ds)%nat then None
  else if negb allow_zero_prefix && bool_decide (head ds = Some 48) && (1 <? length ds)%nat then None
  else if hi <? v then None
  else Some (v, drop (length ds) s).

(** [Parser::read_separator]. *)
Definition read_separator {A} (sep : Z) (index : nat) (inner : reader A) : reader A := fun s =>
  if (0 <? index)%nat
  then match read_given_char sep s with Some (_, r) => inner r | None => None end
  else inner s.

Definition read_octet (index : nat) : reader Z := read_separator 46 index (read_number 10 3 false 255).

Definition read_ipv4_addr : reader Z := fun s =>
  '(a, s) ← read_octet 0 s; '(b, s) ← read_octet 1 s; '(c, s) ← read_octet 2 s; '(d, s) ← read_octet 3 s;
  Some (((a * 256 + b) * 256 + c) * 256 + d, s).

(** [read_groups] with [n] slots left, the next one being [i]: the groups,
    whether they end with an embedded IPv4 address, and what is left. *)
Fixpoint read_groups (n i : nat) (s : bytes) : list Z * bool * bytes :=
  match n with
  | O => ([], false, s)
  | S n' =>
      match (if (0 <? n')%nat then read_separator 58 i read_ipv4_addr s else None) with
      | Some (v4, s) => ([v4 / 65536; v4 mod 65536], true, s)
      | None =>
          match read_separator 58 i (read_number 16 4 true 65535) s with
          | Some (g, s) => let '(gs, v4, r) := read_groups n' (S i) s in (g :: gs, v4, r)
          | None => ([], false, s)
          end
      end
  end.

Definition of_groups (gs : list Z) : Z := fold_left (fun acc g => acc * 65536 + g) gs 0.

Definition read_ipv6_addr : reader Z := fun s =>
  let '(head, head_ipv4, s) := read_groups 8 0 s in
  if (length head =? 8)%nat then Some (of_groups head, s)
  else if head_ipv4 then None
  else
    '(_, s) ← read_given_char 58 s; '(_, s) ← read_given_char 58 s;
    let '(tail, _, s) := read_groups (8 - (length head + 1)) 0 s in
    Some (of_groups (head ++ replicate (8 - length head - length tail) 0 ++ tail), s).

(** [str::parse::<IpAddr>]: IPv4 first, and nothing may be left over. *)
Definition parse_ip (s : bytes) : option IpAddr :=
  match read_ipv4_addr s with
  | Some (b, []) => Some (V4 b)
  | Some (_, _ :: _) => None
  | None => match read_ipv6_addr s with Some (b, []) => Some (V6 b) | _ => None end
  end.

(** *** Printing *)

Definition hex_digit (d : Z) : Z := if d <? 10 then 48 + d else 87 + d.

(** [{:x}] of a [u16]. *)
Fixpoint hex_fuel (fuel : nat) (v : Z) : bytes :=
  match fuel with
  | O => []
  | S f => (if v <? 16 then [] else hex_fuel f (v / 16)) ++ [hex_digit (v mod 16)]
  end.

Definition octets (b : Z) : list Z := to_be 4 b.

Definition show_v4 (b : Z) : bytes := join [46] (dec <$> octets b).

(** [Ipv6Addr::segments]. *)
Definition segments (b : Z) : list Z :=
  (fun i => Z.land (Z.shiftr b (16 * i)) 65535) <$> [7; 6; 5; 4; 3; 2; 1; 0].

(** The first longest run of zero segments: [longest] and [current] are
    (start, length). *)
Fixpoint zero_span (i : nat) (segs : list Z) (longest current : nat * nat) : nat * nat :=
  match segs with
  | [] => longest
  | s :: r =>
      if s =? 0 then
        let current := (if (snd current =? 0)%nat then i else fst current, S (snd current)) in
        zero_span (S i) r (if (snd longest <? snd current)%nat then current else longest) current
      else zero_span (S i) r longest (0%nat, 0%nat)
  end.

Definition show_segments (segs : list Z) : bytes := join [58] (hex_fuel 4 <$> segs).

(** [Display for Ipv6Addr]: IPv4-mapped addresses keep their dotted tail. *)
Definition show_v6 (b : Z) : bytes :=
  if Z.shiftr b 32 =? 65535 then str "::ffff:" ++ show_v4 (Z.land b u32_max)
  else
    let segs := segments b in
    let '(start, len) := zero_span 0 segs (0%nat, 0%nat) (0%nat, 0%nat) in
    if (1 <? len)%nat
    then show_segments (take start segs) ++ [58; 58] ++ show_segments (drop (start + len) segs)
    else show_segments segs.

(** [IpAddr::to_string]. *)
Definition ip_to_string (a : IpAddr) : bytes := match a with V4 b => show_v4 b | V6 b => show_v6 b end.

(** ** Trusted networks ([edge_signer.rs]) *)

Record TrustedNet : Type := mk_net { network : IpAddr; prefix : Z }.

#[export] Instance TrustedNet_eq_dec : EqDecision TrustedNet.
Proof. solve_decision. Defined.

(** [checked_shl] on a [w]-bit integer. *)
Definition checked_shl (w v n : Z) : option Z := if n <? w then Some (wrap_u w (Z.shiftl v n)) else None.

Definition mask_addr (addr : IpAddr) (prefix : Z) : IpAddr :=
  match addr with
  | V4 bits =>
      let mask := if prefix =? 0 then 0 else default 0 (checked_shl 32 u32_max (32 - prefix)) in
      V4 (Z.land bits mask)
  | V6 bits =>
      let mask := if prefix =? 0 then 0 else default 0 (checked_shl 128 u128_max (128 - prefix)) in
      V6 (Z.land bits mask)
  end.

(** [TrustedNet::new]. *)
Definition net_new (network : IpAddr) (prefix : Z) : option TrustedNet :=
  let max := match network with V4 _ => 32 | V6 _ => 128 end in
  if max <? prefix then None else Some (mk_net (mask_addr network prefix) prefix).

(** [TrustedNet::parse]. *)
Definition net_parse (s : bytes) : option TrustedNet :=
  match split_once 47 s with
  | None => ip ← parse_ip s; net_new ip (if is_ipv4 ip then 32 else 128)
  | Some (ip_part, prefix_part) => ip ← parse_ip ip_part; prefix ← parse_u8 prefix_part; net_new ip prefix
  end.

(** [TrustedNet::contains]. *)
Definition contains (n : TrustedNet) (addr : IpAddr) : bool :=
  match network n, addr with
  | V4 _, V4 _ | V6 _, V6 _ => bool_decide (mask_addr addr (prefix n) = network n)
  | _, _ => false
  end.

(** ** Body caps ([body_caps.rs]) *)

Record Rule : Type := mk_rule { net : IpAddr; prefix_len : Z; cap : Z }.

Definition v4_mask (prefix : Z) : Z := if prefix =? 0 then 0 else wrap_u 32 (Z.shiftl u32_max (32 - prefix)).
Definition v6_mask (prefix : Z) : Z := if prefix =? 0 then 0 else wrap_u 128 (Z.shiftl u128_max (128 - prefix)).

Definition mask_to_prefix (addr : IpAddr) (prefix : Z) : IpAddr :=
  match addr with
  | V4 v4 => V4 (Z.land v4 (v4_mask prefix))
  | V6 v6 => V6 (Z.land v6 (v6_mask prefix))
  end.

Definition parse_cidr (s : bytes) : option (IpAddr * Z) :=
  let '(addr_str, prefix_str) :=
    match split_once 47 s with Some (a, p) => (a, Some p) | None => (s, None) end in
  addr ← parse_ip addr_str;
  let max := match addr with V4 _ => 32 | V6 _ => 128 end in
  prefix ← match prefix_str with Some p => parse_u8 p | None => Some max end;
  if max <? prefix then None else Some (addr, prefix).

Definition checked_mul (n m : Z) : option Z := if n * m <=? u64_max then Some (n * m) else None.

Definition parse_bytes (s : bytes) : option Z :=
  let s := trim s in
  b ← last s;
  let cut := take (length s - 1) s in
  let '(num, mult) :=
    if (b =? 75) || (b =? 107) then (cut, 1024)
    else if (b =? 77) || (b =? 109) then (cut, 1024 * 1024)
    else if (b =? 71) || (b =? 103) then (cut, 1024 * 1024 * 1024)
    else (s, 1) in
  n ← parse_u64 (trim num); checked_mul n mult.

(** Why a rule list is rejected; the messages quote the fragment. *)
Inductive RuleError : Type :=
| MissingSeparator (frag : bytes) | InvalidBytes (frag bytes : bytes) | InvalidCidr (frag cidr : bytes).

Definition parse_rule (frag : bytes) : result RuleError Rule :=
  '(cidr, bytes) ← ok_or (split_once 61 frag) (MissingSeparator frag);
  cap ← ok_or (parse_bytes (trim bytes)) (InvalidBytes frag bytes);
  '(addr, prefix) ← ok_or (parse_cidr (trim cidr)) (InvalidCidr frag cidr);
  Ok (mk_rule (mask_to_prefix addr prefix) prefix cap).

(** The rules in the order they are written; empty fragments are skipped and
    the first bad one stops the loop. *)
Fixpoint parse_fragments (frags : list bytes) : result RuleError (list Rule) :=
  match frags with
  | [] => Ok []
  | f :: r =>
      let frag := trim f in
      if bool_decide (frag = []) then parse_fragments r
      else rule ← parse_rule frag; rules ← parse_fragments r; Ok (rule :: rules)
  end.

(** [sort_by_key(Reverse(prefix_len))], a stable sort. *)
Fixpoint insert_rule (r : Rule) (rules : list Rule) : list Rule :=
  match rules with
  | [] => [r]
  | q :: rest => if prefix_len q <=? prefix_len r then r :: rules else q :: insert_rule r rest
  end.
Definition sort_rules (rules : list Rule) : list Rule := foldr insert_rule [] rules.

(** [body_caps::parse]. *)
Definition parse_rules (input : bytes) : result RuleError (list Rule) :=
  if bool_decide (trim input = []) then Ok []
  else rules ← parse_fragments (split 44 input); Ok (sort_rules rules).

(** [matches]. *)
Definition rule_matches (rule : Rule) (ip : IpAddr) : bool :=
  match net rule, ip with
  | V4 n, V4 probe =>
      let mask := v4_mask (prefix_len rule) in Z.land n mask =? Z.land probe mask
  | V6 n, V6 probe =>
      let mask := v6_mask (prefix_len rule) in Z.land n mask =? Z.land probe mask
  | _, _ => false
  end.

Fixpoint lookup_cap (rules : list Rule) (ip : IpAddr) : option Z :=
  match rules with
  | [] => None
  | r :: rest => if rule_matches r ip then Some (cap r) else lookup_cap rest ip
  end.

Record BodyCapPolicy : Type := mk_caps { default_cap : Z; rules : list Rule }.

(** [BodyCapPolicy::cap_for]. *)
Definition cap_for (p : BodyCapPolicy) (ip : IpAddr) : Z := default (default_cap p) (lookup_cap (rules p) ip).

(** [body_cap_middleware]: the request is refused when its declared
    Content-Length exceeds the cap of its peer, and otherwise passed on with
    a body limited to that cap. *)
Inductive capped : Type := PayloadTooLarge (cap : Z) | Forwarded (limit : Z).

Definition body_cap_middleware (p : BodyCapPolicy) (peer : IpAddr) (content_length : option bytes) : capped :=
  let cap := cap_for p peer in
  match content_length ≫= parse_u64 with
  | Some cl => if cap <? cl then PayloadTooLarge cap else Forwarded cap
  | None => Forwarded cap
  end.

(** ** Masks *)

(** The top [p] of [w] bits are the same. *)
Definition same_prefix (w p x y : Z) : Prop := Z.shiftr x (w - p) = Z.shiftr y (w - p).

(** The mask with the top [p] of [w] bits set, as all three routines
    compute it. *)
Definition prefix_mask (w p : Z) : Z := if p =? 0 then 0 else wrap_u w (Z.shiftl (Z.ones w) (w - p)).

Lemma prefix_mask_testbit w p i :
  0 <= p <= w -> 0 <= i -> Z.testbit (prefix_mask w p) i = (w - p <=? i) && (i <? w).
Proof.
  intros Hp Hi. unfold prefix_mask, wrap_u. case_test; b2p.
  - subst. rewrite Z.bits_0. symmetry. destruct (w - 0 <=? i) eqn:E; [b2p; bdec|done].
  - destruct (i <? w) eqn:E; b2p.
    + rewrite Z.mod_pow2_bits_low, Z.shiftl_spec by lia. rewrite andb_true_r.
      destruct (w - p <=? i) eqn:E'; b2p; [rewrite Z.ones_spec_low by lia; done|by apply Z.testbit_neg_r; lia].
    + rewrite Z.mod_pow2_bits_high by lia. by rewrite andb_false_r.
Qed.

Lemma land_prefix_mask w p x :
  0 <= p <= w -> 0 <= x < 2 ^ w -> Z.land x (prefix_mask w p) = Z.shiftl (Z.shiftr x (w - p)) (w - p).
Proof.
  intros Hp Hx. apply Z.bits_inj'. intros i Hi. rewrite Z.land_spec, prefix_mask_testbit, Z.shiftl_spec by lia.
  destruct (w - p <=? i) eqn:E; b2p.
  - rewrite Z.shiftr_spec by lia. replace (i - (w - p) + (w - p)) with i by lia.
    destruct (i <? w) eqn:E'; b2p; [by rewrite andb_true_r|]. rewrite andb_false_r. symmetry.
    destruct (decide (x = 0)) as [->|]; [apply Z.bits_0|].
    apply Z.bits_above_log2; [lia|]. apply Z.log2_lt_pow2; [lia|].
    apply Z.lt_le_trans with (2 ^ w); [lia|]. apply Z.pow_le_mono_r; lia.
  - rewrite andb_false_r. symmetry. apply Z.testbit_neg_r. lia.
Qed.

Lemma masked_eq w p x y :
  0 <= p <= w -> 0 <= x < 2 ^ w -> 0 <= y < 2 ^ w ->
  Z.land x (prefix_mask w p) = Z.land y (prefix_mask w p) <-> same_prefix w p x y.
Proof.
  intros Hp Hx Hy. unfold same_prefix. rewrite !land_prefix_mask by done. split; [|by intros ->].
  intros E. apply (f_equal (fun z => Z.shiftr z (w - p))) in E.
  rewrite !Z.shiftr_shiftl_l, Z.sub_diag, !Z.shiftl_0_r in E by lia. done.
Qed.

Lemma mask_idem w p x : Z.land (Z.land x (prefix_mask w p)) (prefix_mask w p) = Z.land x (prefix_mask w p).
Proof. by rewrite <- Z.land_assoc, Z.land_diag. Qed.

Lemma mask_addr_eq a p :
  0 <= p <= width a ->
  mask_addr a p = match a with V4 b => V4 (Z.land b (prefix_mask 32 p)) | V6 b => V6 (Z.land b (prefix_mask 128 p)) end.
Proof.
  intros Hp. destruct a; cbn in Hp; unfold mask_addr, prefix_mask, checked_shl;
    (destruct (p =? 0) eqn:E; [done|]; b2p).
  - by take_true (32 - p <? 32).
  - by take_true (128 - p <? 128).
Qed.

(** ** Trusted networks *)

(** A trusted network contains exactly the addresses of its own family
    that agree with it on the first [prefix] bits, for every prefix length
    from 0 to the full width; a longer prefix is refused. *)
Lemma trusted_net_spec ip p addr :
  ip_ok ip -> ip_ok addr -> 0 <= p ->
  match net_new ip p with
  | None => width ip < p
  | Some n =>
      p <= width ip /\
      (contains n addr = true <->
       is_ipv4 ip = is_ipv4 addr /\ same_prefix (width ip) p (bits_of ip) (bits_of addr))
  end.
Proof.
  intros Hip Haddr Hp. unfold net_new. replace (match ip with V4 _ => 32 | V6 _ => 128 end) with (width ip) by by destruct ip.
  case_test; b2p; [done|]. split; [done|]. unfold contains. cbn [network prefix].
  rewrite mask_addr_eq by lia. destruct ip as [x|x], addr as [y|y]; try (by split; [|intros [? _]]);
    (rewrite bool_decide_eq_true, mask_addr_eq by done); unfold ip_ok in *; cbn in *;
    (rewrite <- (masked_eq _ p x y) by lia); (split; [intros [= E]; by rewrite E|intros [_ E]; by rewrite E]).
Qed.

(** ** Parsed addresses fit their family *)

Lemma to_digit_range radix b d : 0 <= radix <= 36 -> to_digit radix b = Some d -> 0 <= d < radix.
Proof. unfold to_digit, is_digit. intros Hr Hd. repeat case_test; simplify_eq; b2p; lia. Qed.

Lemma read_number_range radix max_digits zero hi s v r :
  0 <= radix <= 36 -> read_number radix max_digits zero hi s = Some (v, r) -> 0 <= v <= hi.
Proof.
  intros Hr. unfold read_number. set (ds := prefix_while _ _ _). intros E. repeat case_test. injection E as <- _. b2p.
  split; [|done]. assert (forall acc, 0 <= acc -> 0 <= fold_left (fun acc b => acc * radix + default 0 (to_digit radix b)) ds acc)
    as Hf; [|by apply Hf].
  clear -Hr. induction ds as [|b ds IH]; intros acc Hacc; cbn [fold_left]; [done|]. apply IH.
  destruct (to_digit radix b) as [d|] eqn:Ed; cbn; [apply to_digit_range in Ed; lia|nia].
Qed.

Lemma read_separator_Some {A} sep i (inner : reader A) s v r :
  read_separator sep i inner s = Some (v, r) -> exists s', inner s' = Some (v, r).
Proof. unfold read_separator. intros E. repeat case_match; simplify_eq; eauto. Qed.

Lemma read_octet_range i s v r : read_octet i s = Some (v, r) -> 0 <= v <= 255.
Proof. intros E. apply read_separator_Some in E as [s' E]. by apply read_number_range in E; [|lia]. Qed.

Lemma read_ipv4_range s v r : read_ipv4_addr s = Some (v, r) -> 0 <= v <= u32_max.
Proof.
  unfold read_ipv4_addr. intros E.
  apply bind_Some in E as ([a sa] & Ha & E). apply bind_Some in E as ([b sb] & Hb & E).
  apply bind_Some in E as ([c sc] & Hc & E). apply bind_Some in E as ([d sd] & Hd & E). injection E as <- _.
  apply read_octet_range in Ha, Hb, Hc, Hd. unfold u32_max. lia.
Qed.

Lemma read_groups_range n i s gs v4 r :
  read_groups n i s = (gs, v4, r) -> Forall (fun g => 0 <= g < 65536) gs /\ (length gs <= n)%nat.
Proof.
  revert i s gs v4 r. induction n as [|n IH]; intros i s gs v4 r; cbn [read_groups]; [intros [= <- _ _]; by split|].
  destruct (if (0 <? n)%nat then _ else None) as [[v s']|] eqn:E4.
  - case_test. b2p. apply read_separator_Some in E4 as [s'' E4]. apply read_ipv4_range in E4. unfold u32_max in E4.
    intros [= <- _ _]. split; [|cbn; lia].
    repeat constructor; try (apply Z.div_pos; lia); try (apply Z.div_lt_upper_bound; lia); apply Z.mod_pos_bound; lia.
  - destruct (read_separator 58 i (read_number 16 4 true 65535) s) as [[g s']|] eqn:Eg; [|intros E; simplify_eq; split; [constructor|cbn; lia]].
    apply read_separator_Some in Eg as [s'' Eg]. apply read_number_range in Eg; [|lia].
    destruct (read_groups n (S i) s') as [[gs' b] r'] eqn:Er. apply IH in Er as [Hg Hl]. intros [= <- _ _].
    split; [constructor; [lia|done]|cbn; lia].
Qed.

Lemma of_groups_range gs : Forall (fun g => 0 <= g < 65536) gs -> 0 <= of_groups gs < 65536 ^ Z.of_nat (length gs).
Proof.
  unfold of_groups. intros H. rewrite <- (rev_involutive gs) in *. induction (rev gs) as [|g l IH]; [cbn; lia|].
  cbn [rev] in *. apply Forall_app in H as [Hl Hg]. inversion_clear Hg. specialize (IH Hl).
  rewrite fold_left_app, length_app. cbn [fold_left length]. rewrite Nat2Z.inj_add, Z.pow_add_r by lia.
  change (65536 ^ Z.of_nat 1) with 65536. nia.
Qed.

Lemma parse_ip_ok s a : parse_ip s = Some a -> ip_ok a.
Proof.
  unfold parse_ip, ip_ok. destruct (read_ipv4_addr s) as [[b r]|] eqn:E4.
  - apply read_ipv4_range in E4. unfold u32_max in E4. destruct r; [|done]. intros [= <-]. cbn. lia.
  - destruct (read_ipv6_addr s) as [[b r]|] eqn:E6; [|done]. destruct r; [|done]. intros [= <-]. cbn [bits_of width is_ipv4].
    unfold read_ipv6_addr in E6. destruct (read_groups 8 0 s) as [[hd hv4] s1] eqn:Eh.
    apply read_groups_range in Eh as [Hh Hhl]. case_test; b2p.
    + injection E6 as <- _. pose proof (of_groups_range _ Hh) as Hr. by rewrite Hb in Hr.
    + destruct hv4; [done|]. apply bind_Some in E6 as ([? s2] & _ & E6). apply bind_Some in E6 as ([? s3] & _ & E6).
      destruct (read_groups (8 - (length hd + 1)) 0 s3) as [[tl ?] s4] eqn:Et. apply read_groups_range in Et as [Ht Htl].
      injection E6 as <- _. set (gs := hd ++ _).
      assert (Forall (fun g => 0 <= g < 65536) gs /\ length gs = 8%nat) as [Hg Hl].
      { split; [|unfold gs; rewrite !length_app, length_replicate; lia].
        repeat apply Forall_app_2; [done|apply Forall_replicate; lia|done]. }
      pose proof (of_groups_range _ Hg) as Hr. by rewrite Hl in Hr.
Qed.

(** ** Printed addresses are visible text *)

Lemma show_v4_visible b : forallb is_visible (show_v4 b) = true /\ show_v4 b <> [].
Proof.
  assert (forall o, o ∈ octets b -> forallb is_visible (dec o) = true /\ dec o <> []) as Ho.
  { intros o Hin. pose proof (to_be_ok 4 b) as Hok. fold (octets b) in Hok. rewrite Forall_forall in Hok.
    specialize (Hok o Hin). unfold byte_ok in Hok. destruct (dec_spec o) as (_ & Hd & Hn & _); [unfold dec_bound; lia|].
    split; [by apply digits_visible|done]. }
  unfold show_v4. split.
  - apply join_visible; [done|]. apply Forall_fmap, Forall_forall. intros o Hin. by apply Ho.
  - destruct (octets b) as [|o os] eqn:E; [by apply (f_equal length) in E; vm_compute in E|].
    rewrite fmap_cons. apply join_nonempty. apply Ho. left.
Qed.

Lemma hex_fuel_visible fuel v : forallb is_visible (hex_fuel fuel v) = true.
Proof.
  revert v. induction fuel as [|f IH]; intros v; [done|]. cbn [hex_fuel]. rewrite forallb_app. cbn [forallb].
  assert (is_visible (hex_digit (v mod 16)) = true) as ->.
  { pose proof (Z.mod_pos_bound v 16). unfold hex_digit, is_visible. case_test; b2p; bdec. }
  case_test; [done|]. by rewrite IH.
Qed.

Lemma show_segments_visible segs : forallb is_visible (show_segments segs) = true.
Proof. apply join_visible; [done|]. apply Forall_fmap, Forall_forall. intros v _. apply hex_fuel_visible. Qed.

Lemma ip_to_string_visible a : forallb is_visible (ip_to_string a) = true /\ ip_to_string a <> [].
Proof.
  destruct a as [b|b]; [apply show_v4_visible|]. cbn [ip_to_string]. unfold show_v6. case_test.
  - split; [|done]. rewrite forallb_app. by rewrite (proj1 (show_v4_visible _)).
  - destruct (zero_span _ _ _ _) as [st len]. case_test.
    + split; [by rewrite !forallb_app, !show_segments_visible|]. by destruct (show_segments (take st _)).
    + split; [apply show_segments_visible|]. unfold show_segments, segments. rewrite fmap_cons, fmap_cons.
      apply join_nonempty. cbn [hex_fuel]. intros E. by apply app_nil in E as [_ ?].
Qed.

(** ** Body caps *)

Lemma mask_to_prefix_eq a p :
  mask_to_prefix a p = match a with V4 b => V4 (Z.land b (prefix_mask 32 p)) | V6 b => V6 (Z.land b (prefix_mask 128 p)) end.
Proof. by destruct a. Qed.

(** What a rule written as [addr/prefix=cap] matches. *)
Lemma rule_matches_spec addr p c ip :
  ip_ok addr -> ip_ok ip -> 0 <= p <= width addr ->
  rule_matches (mk_rule (mask_to_prefix addr p) p c) ip = true <->
  is_ipv4 addr = is_ipv4 ip /\ same_prefix (width addr) p (bits_of addr) (bits_of ip).
Proof.
  intros Ha Hi Hp. unfold rule_matches. rewrite mask_to_prefix_eq. cbn [net prefix_len].
  destruct addr as [x|x], ip as [y|y]; try (by split; [|intros [? _]]); unfold ip_ok in *; cbn in Ha, Hi, Hp;
    cbn [width is_ipv4 bits_of]; rewrite Z.eqb_eq.
  - change (v4_mask p) with (prefix_mask 32 p). rewrite mask_idem. rewrite masked_eq by lia. tauto.
  - change (v6_mask p) with (prefix_mask 128 p). rewrite mask_idem. rewrite masked_eq by lia. tauto.
Qed.

(** The rule that decides for [ip] in a list in written order: the first of
    the matching rules with the longest prefix. *)
Definition decides (ip : IpAddr) (written : list Rule) (r : Rule) : Prop :=
  exists before after, written = before ++ r :: after /\ rule_matches r ip = true /\
    Forall (fun q => rule_matches q ip = true -> prefix_len q < prefix_len r) before /\
    Forall (fun q => rule_matches q ip = true -> prefix_len q <= prefix_len r) after.

Definition unmatched (ip : IpAddr) (written : list Rule) : Prop :=
  Forall (fun q => rule_matches q ip = false) written.

Definition winner (ip : IpAddr) (rules : list Rule) : option Rule := find (fun q => rule_matches q ip) rules.

Lemma lookup_cap_winner rules ip : lookup_cap rules ip = cap <$> winner ip rules.
Proof. induction rules as [|r rules IH]; [done|]. cbn. by destruct (rule_matches r ip). Qed.

Lemma winner_elem ip rules r : winner ip rules = Some r -> r ∈ rules /\ rule_matches r ip = true.
Proof. intros E. apply find_some in E as [Hin Hm]. split; [by apply list_elem_of_In|done]. Qed.

Definition descending : list Rule -> Prop := StronglySorted (fun p q => prefix_len q <= prefix_len p).

Lemma insert_rule_elem r rules q : q ∈ insert_rule r rules <-> q = r \/ q ∈ rules.
Proof.
  induction rules as [|p rules IH]; cbn [insert_rule]; [rewrite list_elem_of_singleton, elem_of_nil; tauto|].
  case_test; rewrite !elem_of_cons; [done|]. rewrite IH. tauto.
Qed.

Lemma insert_rule_descending r rules : descending rules -> descending (insert_rule r rules).
Proof.
  induction 1 as [|q rules Hs IH Hq]; cbn [insert_rule]; [repeat constructor|].
  case_test; b2p; (constructor; [done || by constructor|]).
  - constructor; [done|]. eapply Forall_impl; [exact Hq|]. cbn. lia.
  - apply Forall_forall. intros x Hx. apply insert_rule_elem in Hx as [->|Hx]; [lia|].
    rewrite Forall_forall in Hq. by apply Hq.
Qed.

Lemma sort_rules_descending rules : descending (sort_rules rules).
Proof. induction rules; [constructor|]. by apply insert_rule_descending. Qed.

Lemma insert_rule_winner r rules ip :
  descending rules ->
  winner ip (insert_rule r rules) =
    if rule_matches r ip
    then match winner ip rules with Some q => if prefix_len q <=? prefix_len r then Some r else Some q | None => Some r end
    else winner ip rules.
Proof.
  induction 1 as [|q rules Hs IH Hq]; cbn [insert_rule]; [done|]. destruct (prefix_len q <=? prefix_len r) eqn:E; b2p.
  - cbn [winner find]. fold (winner ip rules). destruct (rule_matches r ip) eqn:Er; [|done].
    destruct (rule_matches q ip); [by take_true (prefix_len q <=? prefix_len r)|].
    destruct (winner ip rules) as [x|] eqn:Ex; [|done]. apply winner_elem in Ex as [Hx _].
    rewrite Forall_forall in Hq. specialize (Hq x Hx).
    by take_true (prefix_len x <=? prefix_len r).
  - cbn [winner find]. fold (winner ip (insert_rule r rules)) (winner ip rules). rewrite IH.
    destruct (rule_matches q ip); [|done]. take_false (prefix_len q <=? prefix_len r). by destruct (rule_matches r ip).
Qed.

Lemma decides_cons ip w ws r :
  decides ip ws r -> (rule_matches w ip = true -> prefix_len w < prefix_len r) -> decides ip (w :: ws) r.
Proof. intros (b & a & -> & Hm & Hb & Ha) Hw. exists (w :: b), a. split_and!; [done..| |done]. by constructor. Qed.

Lemma decides_longest ip ws r : decides ip ws r -> Forall (fun q => rule_matches q ip = true -> prefix_len q <= prefix_len r) ws.
Proof.
  intros (b & a & -> & Hm & Hb & Ha). apply Forall_app. split; [|by constructor].
  eapply Forall_impl; [exact Hb|]. cbn. intros x Hx Hx'. specialize (Hx Hx'). lia.
Qed.

Lemma sort_rules_winner ip ws :
  match winner ip (sort_rules ws) with Some r => decides ip ws r | None => unmatched ip ws end.
Proof.
  induction ws as [|w ws IH]; [by constructor|]. change (sort_rules (w :: ws)) with (insert_rule w (sort_rules ws)).
  rewrite insert_rule_winner by apply sort_rules_descending.
  destruct (rule_matches w ip) eqn:Ew; destruct (winner ip (sort_rules ws)) as [q|].
  - destruct (prefix_len q <=? prefix_len w) eqn:E; b2p; [|by apply decides_cons].
    exists [], ws. split_and!; [done..|constructor|]. apply decides_longest in IH.
    eapply Forall_impl; [exact IH|]. cbn. intros x Hx Hx'. specialize (Hx Hx'). lia.
  - exists [], ws. split_and!; [done..|constructor|]. eapply Forall_impl; [exact IH|]. cbn. congruence.
  - by apply decides_cons; [|congruence].
  - by constructor.
Qed.

Lemma blank_split input : trim input = [] -> split 44 input = [input].
Proof.
  intros Ht. assert (44 ∉ input) as Hn.
  { intros Hin. pose proof (trim_blank _ Ht) as Hb. rewrite Forall_forall in Hb. apply Hb in Hin.
    revert Hin. apply (bool_decide_unpack _). by vm_compute. }
  clear Ht. induction input as [|b input IH]; [done|]. rewrite not_elem_of_cons in Hn. destruct Hn as [Hb Hn].
  cbn [split]. take_false (b =? 44). by rewrite IH.
Qed.

(** The cap of a peer is decided by longest-prefix match over the rules
    as the operator wrote them: among the rules whose network contains the
    address the longest prefix wins, the first one written if several are
    equally long, and the global default applies when none matches; a
    request is refused exactly when it declares a body above that cap, and
    is otherwise forwarded with its body limited to it. *)
Lemma body_cap_longest_prefix input rs written dflt peer len :
  parse_rules input = Ok rs -> parse_fragments (split 44 input) = Ok written ->
  exists c, ((unmatched peer written /\ c = dflt) \/ (exists r, decides peer written r /\ c = cap r)) /\
    body_cap_middleware (mk_caps dflt rs) peer len =
      match len ≫= parse_u64 with
      | Some n => if c <? n then PayloadTooLarge c else Forwarded c
      | None => Forwarded c
      end.
Proof.
  intros Hp Hw. exists (cap_for (mk_caps dflt rs) peer). split; [|done]. unfold cap_for. cbn [rules default_cap].
  rewrite lookup_cap_winner. unfold parse_rules in Hp. rewrite Hw in Hp. cbn in Hp.
  pose proof (sort_rules_winner peer written) as Hs.
  case_bool_decide as Et; [|injection Hp as <-; destruct (winner peer (sort_rules written)); [right; eauto|by left]].
  injection Hp as <-. left. split; [|done].
  rewrite blank_split in Hw by done. cbn in Hw. rewrite bool_decide_true in Hw by done. injection Hw as <-. constructor.
Qed.

Module NetExamples.
Example parse_samples :
  parse_ip <$> [str "10.0.0.1"; str "010.0.0.1"; str "2001:db8::7"; str "::ffff:1.2.3.4"; str "1:2:3:4:5:6:7:8"; str "::";
                str "1::2::3"; str "256.1.1.1"; str "1.2.3.4.5"] =
  [Some (V4 167772161); None; Some (V6 42540766411282592856903984951653826567);
   Some (V6 281470698652420); Some (V6 5192455318486707404433266433261576); Some (V6 0); None; None; None].
Proof. vm_compute. reflexivity. Qed.

Example show_samples :
  (fun o => ip_to_string <$> o) <$> (parse_ip <$> [str "10.0.0.1"; str "2001:DB8:0:0:0:0:0:7"; str "::ffff:1.2.3.4"; str "1:0:0:4:0:0:7:8"; str "1:2:3:4:5:6:0:8"; str "::"; str "::1"]) =
  Some <$> [str "10.0.0.1"; str "2001:db8::7"; str "::ffff:1.2.3.4"; str "1::4:0:0:7:8"; str "1:2:3:4:5:6:0:8"; str "::"; str "::1"].
Proof. vm_compute. reflexivity. Qed.

Lemma trusted_net_spec_witness :
  contains (mk_net (V4 167772160) 8) (V4 167837953) = true <->
  is_ipv4 (V4 167772161) = is_ipv4 (V4 167837953) /\
  same_prefix 32 8 167772161 167837953.
Proof.
  pose proof (trusted_net_spec (V4 167772161) 8 (V4 167837953)) as Hs.
  apply Hs; unfold ip_ok; cbn; lia.
Defined.

Definition table : bytes := str " 10.0.0.0/8=100M, ,10.1.0.0/16=50k,10.1.2.3/16=7,2001:db8::/32=16M".
Definition table_rules : list Rule :=
  [ mk_rule (V4 167772160) 8 104857600; mk_rule (V4 167837696) 16 51200; mk_rule (V4 167837696) 16 7;
    mk_rule (V6 42540766411282592856903984951653826560) 32 16777216 ].

Lemma body_cap_longest_prefix_witness :
  exists c, ((unmatched (V4 167837953) table_rules /\ c = 8388608) \/
             (exists r, decides (V4 167837953) table_rules r /\ c = cap r)) /\
    body_cap_middleware (mk_caps 8388608 (sort_rules table_rules)) (V4 167837953) (Some (str "60000")) =
      (if c <? 60000 then PayloadTooLarge c else Forwarded c).
Proof.
  apply (body_cap_longest_prefix table (sort_rules table_rules) table_rules 8388608 (V4 167837953) (Some (str "60000")));
    vm_compute; reflexivity.
Defined.

(** The longer prefix wins although it is written later, and the first of the
    two rules for [10.1.0.0/16] wins over the second. *)
Example table_cap : cap_for (mk_caps 8388608 (sort_rules table_rules)) (V4 167837953) = 51200.
Proof. reflexivity. Qed.
End NetExamples.
