(* ===== verification/Crates.v ===== *)
(** * Interfaces of the third-party crates

    What the sources rely on of code that is not in the repository, as type
    classes whose laws state the crates' documented behaviour: winnow's
    [take_while]/[take] combinators, the base64 engines, HMAC-SHA-256,
    SHA-256, the hex codec, serde_json and http's header map.  The components are proved against these interfaces; the
    module [Reference] gives one executable instance of each, which shows
    that the laws can hold together and lets witnesses evaluate. *)

From S2P Require Import Prelude Machine Text.

Local Open Scope Z_scope.

(** ** winnow

    [take_while(m..=n, p)] takes the longest prefix of at most [n] bytes
    that satisfy [p] and fails when it is shorter than [m]; [take(n)] takes
    exactly [n] bytes and fails when fewer remain. *)
Class Winnow := {
  take_while_m_n : nat -> nat -> (Z -> bool) -> bytes -> option (bytes * bytes);
  take_while_m_n_spec m n p input :
    take_while_m_n m n p input =
    let pre := prefix_while n p input in
    if (m <=? length pre)%nat then Some (pre, drop (length pre) input) else None;
  take_n : nat -> bytes -> option (bytes * bytes);
  take_n_spec n input :
    take_n n input = if (n <=? length input)%nat then Some (take n input, drop n input) else None
}.

(** ** base64 *)
Record b64_engine := {
  b64_encode : bytes -> bytes;
  b64_decode : bytes -> option bytes;
  b64_decode_encode bs : bytes_ok bs -> b64_decode (b64_encode bs) = Some bs;
  b64_decode_ok cs bs : b64_decode cs = Some bs -> bytes_ok bs;
  b64_encode_visible bs : bytes_ok bs -> forallb is_visible (b64_encode bs) = true;
  b64_encode_length bs : (length (b64_encode bs) <= 4 * ((length bs + 2) / 3))%nat
}.

Lemma b64_encode_ascii e bs : bytes_ok bs -> forallb is_ascii (b64_encode e bs) = true.
Proof. intros Hb. by apply visible_ascii, b64_encode_visible. Qed.

(** The two engines the sources use, and [base64::decoded_len_estimate], an
    upper bound on the decoded length of so many characters. *)
Class Base64 := {
  STANDARD : b64_engine;
  URL_SAFE_NO_PAD : b64_engine;
  decoded_len_estimate : nat -> nat;
  decoded_len_estimate_spec cs bs :
    b64_decode STANDARD cs = Some bs -> (length bs <= decoded_len_estimate (length cs))%nat
}.

(** ** hmac

    [verify_slice] compares the whole tag. *)
Class HmacSha256 := {
  hmac : bytes -> bytes -> bytes;
  hmac_length key msg : length (hmac key msg) = 32%nat;
  hmac_ok key msg : bytes_ok (hmac key msg);
  verify_slice : bytes -> bytes -> bytes -> bool;
  verify_slice_spec key msg tag : verify_slice key msg tag = true <-> tag = hmac key msg
}.

Lemma verify_slice_refl `{HmacSha256} key msg : verify_slice key msg (hmac key msg) = true.
Proof. by apply verify_slice_spec. Qed.

Lemma verify_slice_false `{HmacSha256} key msg tag :
  tag <> hmac key msg -> verify_slice key msg tag = false.
Proof. intros. apply not_true_iff_false. by rewrite verify_slice_spec. Qed.

(** Two messages with one tag under one key. *)
Definition mac_collision `{HmacSha256} (key : bytes) : Prop :=
  exists m1 m2, m1 <> m2 /\ hmac key m1 = hmac key m2.

(** ** sha2 *)
Class Sha256 := {
  sha256 : bytes -> bytes;
  sha256_length msg : length (sha256 msg) = 32%nat;
  sha256_ok msg : bytes_ok (sha256 msg)
}.

(** Two messages with one digest. *)
Definition sha_collision `{Sha256} : Prop := exists m1 m2, m1 <> m2 /\ sha256 m1 = sha256 m2.

(** ** hex

    [hex::encode] and PostgreSQL's [encode(_, 'hex')] both write two
    lower-case digits per byte; [hex::decode] reads an even number of digits
    of either case. *)
Definition hex_digit (v : Z) : Z := if v <? 10 then 48 + v else 87 + v.
Definition hex_text (bs : bytes) : bytes := concat ((fun b => [hex_digit (b / 16); hex_digit (b mod 16)]) <$> bs).

Class Hex := {
  hex_encode : bytes -> bytes;
  hex_encode_spec bs : bytes_ok bs -> hex_encode bs = hex_text bs;
  hex_decode : bytes -> option bytes;
  hex_decode_text bs : bytes_ok bs -> hex_decode (hex_text bs) = Some bs;
  hex_decode_ok cs bs : hex_decode cs = Some bs -> bytes_ok bs
}.

Lemma hex_decode_encode `{Hex} bs : bytes_ok bs -> hex_decode (hex_encode bs) = Some bs.
Proof. intros Hb. by rewrite hex_encode_spec, hex_decode_text. Qed.

Lemma hex_encode_inj `{Hex} a b : bytes_ok a -> bytes_ok b -> hex_encode a = hex_encode b -> a = b.
Proof. intros Ha Hb E. apply (f_equal hex_decode) in E. rewrite !hex_decode_encode in E by done. by injection E. Qed.

Lemma hex_text_length bs : length (hex_text bs) = (2 * length bs)%nat.
Proof. unfold hex_text. induction bs as [|b bs IH]; [done|]. rewrite fmap_cons. cbn [concat app length] in *. lia. Qed.

Lemma hex_text_visible bs : bytes_ok bs -> forallb is_visible (hex_text bs) = true.
Proof.
  unfold hex_text. induction 1 as [|b bs Hb _ IH]; [done|]. rewrite fmap_cons. cbn [concat app forallb]. rewrite IH.
  apply (byte_forall (fun b => is_visible (hex_digit (b / 16)) && (is_visible (hex_digit (b mod 16)) && true))); [|done].
  by vm_compute.
Qed.

(** ** serde_json

    Serialising the derived types of the handshake cannot fail, and
    deserialising what was serialised gives the value back. *)
Class Json (T : Type) := {
  json_to_vec : T -> option bytes;
  json_from_slice : bytes -> option T;
  json_ok t bs : json_to_vec t = Some bs -> bytes_ok bs;
  json_roundtrip t bs : json_to_vec t = Some bs -> json_from_slice bs = Some t
}.

(** [serde_json::to_vec] writes compact UTF-8 text: control characters inside
    strings are escaped, so it holds no line break, and it is never empty. *)
Class JsonText (T : Type) `{Json T} := {
  json_text_utf8 t bs : json_to_vec t = Some bs -> utf8_valid bs = true;
  json_text_line t bs : json_to_vec t = Some bs -> (10 ∉ bs) /\ (13 ∉ bs);
  json_text_shown t bs : json_to_vec t = Some bs -> trim bs <> []
}.

(** ** http

    A [HeaderMap] keeps a list of values per name: [get_all] returns them,
    [get] the first one, [insert] replaces all of them by one, [remove] drops
    them, and iterating yields each name once per value.  [HeaderValue::to_str]
    yields the text of a value that consists of the accepted characters,
    which include visible ASCII, and [HeaderValue::from_str] makes such a
    value of such a text. *)
Class Http (hm hv : Type) := {
  hv_from_str : bytes -> option hv;
  hv_to_str : hv -> option bytes;
  hm_get_all : hm -> bytes -> list hv;
  hm_insert : bytes -> hv -> hm -> hm;
  hm_remove : bytes -> hm -> hm;
  hm_iter : hm -> list (bytes * hv);
  header_char : Z -> bool;
  header_char_visible b : is_visible b = true -> header_char b = true;
  hv_to_str_chars v s : hv_to_str v = Some s -> forallb header_char s = true;
  hv_text s : forallb header_char s = true -> exists v, hv_from_str s = Some v /\ hv_to_str v = Some s;
  hm_get_all_insert n v m n' : hm_get_all (hm_insert n v m) n' = if bool_decide (n = n') then [v] else hm_get_all m n';
  hm_get_all_remove n m n' : hm_get_all (hm_remove n m) n' = if bool_decide (n = n') then [] else hm_get_all m n';
  hm_iter_get_all m n : (snd <$> filter (fun e => fst e = n) (hm_iter m)) ≡ₚ hm_get_all m n
}.

Definition hm_get `{Http hm hv} (m : hm) (n : bytes) : option hv := head (hm_get_all m n).

(** ** Reference instances *)
Module Reference.
#[export] Instance winnow : Winnow :=
  Build_Winnow
    (fun m n p input =>
       let pre := prefix_while n p input in
       if (m <=? length pre)%nat then Some (pre, drop (length pre) input) else None)
    (fun _ _ _ _ => eq_refl)
    (fun n input => if (n <=? length input)%nat then Some (take n input, drop n input) else None)
    (fun _ _ => eq_refl).

(** Base64 with a 64-character table [t] and optional padding. *)
Definition alphabet (url : bool) : bytes :=
  str (if url then "ABCDEFGHIJKLMNOPQRSTUVWXYZabcdefghijklmnopqrstuvwxyz0123456789-_"
       else "ABCDEFGHIJKLMNOPQRSTUVWXYZabcdefghijklmnopqrstuvwxyz0123456789+/")%string.

Definition digit (url : bool) (v : Z) : Z := nth (Z.to_nat v) (alphabet url) 0.

Fixpoint index (c : Z) (l : bytes) (i : Z) : option Z :=
  match l with
  | [] => None
  | x :: r => if x =? c then Some i else index c r (i + 1)
  end.

Definition value (url : bool) (c : Z) : option Z := index c (alphabet url) 0.

Fixpoint encode (url : bool) (bs : bytes) : bytes :=
  let d := digit url in
  match bs with
  | a :: b :: c :: r =>
      [d (a / 4); d (a mod 4 * 16 + b / 16); d (b mod 16 * 4 + c / 64); d (c mod 64)] ++ encode url r
  | [a; b] =>
      [d (a / 4); d (a mod 4 * 16 + b / 16); d (b mod 16 * 4)] ++ (if url then [] else [61])
  | [a] => [d (a / 4); d (a mod 4 * 16)] ++ (if url then [] else [61; 61])
  | [] => []
  end.

Fixpoint values (url : bool) (cs : bytes) : option bytes :=
  match cs with
  | [] => Some []
  | c :: r => if (c =? 61) && negb url then Some [] else
      v ← value url c; vs ← values url r; Some (v :: vs)
  end.

Fixpoint regroup (vs : bytes) : option bytes :=
  match vs with
  | a :: b :: c :: d :: r =>
      rest ← regroup r;
      Some ([a * 4 + b / 16; b mod 16 * 16 + c / 4; c mod 4 * 64 + d] ++ rest)
  | [a; b; c] => Some [a * 4 + b / 16; b mod 16 * 16 + c / 4]
  | [a; b] => Some [a * 4 + b / 16]
  | [_] => None
  | [] => Some []
  end.

Definition decode (url : bool) (cs : bytes) : option bytes := values url cs ≫= regroup.
Ltac zdiv := Z.to_euclidean_division_equations; lia.

Lemma digit_spec url v :
  0 <= v < 64 -> value url (digit url v) = Some v /\ (digit url v =? 61) = false /\
    is_visible (digit url v) = true.
Proof.
  intros Hv.
  assert (forallb (fun v => bool_decide (value url (digit url v) = Some v) &&
    negb (digit url v =? 61) && is_visible (digit url v)) (Z.of_nat <$> seq 0 64) = true) as H
    by (destruct url; vm_compute; reflexivity).
  rewrite forallb_forall in H. specialize (H v).
  assert (In v (Z.of_nat <$> seq 0 64)) as Hin.
  { apply list_elem_of_In, list_elem_of_fmap. exists (Z.to_nat v). rewrite elem_of_seq. lia. }
  specialize (H Hin). b2p. split_and!; [done|by apply Z.eqb_neq|done].
Qed.

Lemma values_digit url v r : 0 <= v < 64 -> values url (digit url v :: r) = (cons v) <$> values url r.
Proof.
  intros Hv. destruct (digit_spec url v Hv) as (Hval & Hpad & _). cbn [values].
  rewrite Hpad, Hval. by destruct (values url r).
Qed.

(** Induction three bytes at a time. *)
Lemma groups_ind (P : bytes -> Prop) :
  P [] -> (forall a, P [a]) -> (forall a b, P [a; b]) ->
  (forall a b c r, P r -> P (a :: b :: c :: r)) -> forall bs, P bs.
Proof.
  intros H0 H1 H2 H3 bs. induction bs as [bs IH] using (induction_ltof1 _ (@length Z)).
  unfold ltof in IH. destruct bs as [|a [|b [|c r]]]; auto. apply H3, IH. simpl. lia.
Qed.

Lemma decode_encode url bs : bytes_ok bs -> decode url (encode url bs) = Some bs.
Proof.
  unfold decode. induction bs as [|a|a b|a b c r IH] using groups_ind; intros Hok;
    [done|..]; rewrite ?Forall_cons in Hok; unfold byte_ok in Hok; destruct_and!; cbn [encode app].
  - rewrite !values_digit by zdiv. destruct url; simpl; repeat f_equal; zdiv.
  - rewrite !values_digit by zdiv. destruct url; simpl; repeat f_equal; zdiv.
  - rewrite !values_digit by zdiv. destruct (values url (encode url r)) as [vs|]; simpl in *;
      [|by discriminate IH]. rewrite IH by done. simpl. repeat f_equal; zdiv.
Qed.

Lemma encode_visible url bs : bytes_ok bs -> forallb is_visible (encode url bs) = true.
Proof.
  induction bs as [|a|a b|a b c r IH] using groups_ind; intros Hok;
    [done|..]; rewrite ?Forall_cons in Hok; unfold byte_ok in Hok; destruct_and!;
    cbn [encode app forallb];
    rewrite !(fun v H => proj2 (proj2 (digit_spec url v H))) by zdiv; [by destruct url..|].
  simpl. auto.
Qed.

Lemma encode_length url bs : (length (encode url bs) <= 4 * ((length bs + 2) / 3))%nat.
Proof.
  induction bs as [|a|a b|a b c r IH] using groups_ind; cbn [encode app length];
    [by vm_compute; lia|by destruct url; vm_compute; lia|by destruct url; vm_compute; lia|].
  replace (S (S (S (length r))) + 2)%nat with (length r + 2 + 1 * 3)%nat by lia.
  rewrite Nat.div_add by lia. lia.
Qed.

Lemma index_range c l i v : index c l i = Some v -> i <= v < i + Z.of_nat (length l).
Proof.
  revert i. induction l as [|x l IH]; intros i E; [done|]. cbn [index] in E. case_test.
  - injection E as <-. simpl. lia.
  - apply IH in E. simpl. lia.
Qed.

Lemma values_range url cs vs : values url cs = Some vs -> Forall (fun v => 0 <= v < 64) vs.
Proof.
  revert vs. induction cs as [|c cs IH]; intros vs E; cbn [values] in E; [by injection E as <-|].
  case_test; [by injection E as <-|]. apply bind_Some in E as (v & Ev & E).
  apply bind_Some in E as (vs' & Evs & [= <-]). constructor; [|by apply IH].
  apply index_range in Ev. destruct url; change (Z.of_nat (length (alphabet _))) with 64 in Ev; lia.
Qed.

Lemma regroup_ok vs : forall bs,
  Forall (fun v => 0 <= v < 64) vs -> regroup vs = Some bs -> bytes_ok bs.
Proof.
  induction vs as [vs IH] using (induction_ltof1 _ (@length Z)). unfold ltof in IH. intros bs Hv E.
  destruct vs as [|a [|b [|c [|d r]]]]; cbn [regroup] in E; rewrite ?Forall_cons in Hv; destruct_and?;
    try done; [by injection E as <-|..].
  1,2: injection E as <-; rewrite ?Forall_cons; unfold byte_ok; split_and!; try done; zdiv.
  apply bind_Some in E as (rest & Er & [= <-]). cbn [app]. rewrite !Forall_cons. unfold byte_ok.
  split_and!; try zdiv. apply (IH r); [simpl; lia|done..].
Qed.

Lemma decode_ok url cs bs : decode url cs = Some bs -> bytes_ok bs.
Proof.
  unfold decode. intros E. apply bind_Some in E as (vs & Ev & E). eapply regroup_ok; [|done].
  by eapply values_range.
Qed.

Definition engine (url : bool) : b64_engine :=
  Build_b64_engine (encode url) (decode url) (decode_encode url) (decode_ok url) (encode_visible url) (encode_length url).

Lemma values_length url cs vs : values url cs = Some vs -> (length vs <= length cs)%nat.
Proof.
  revert vs. induction cs as [|c cs IH]; intros vs E; cbn [values] in E; [by injection E as <-|].
  case_test; [injection E as <-; simpl; lia|]. apply bind_Some in E as (v & Ev & E).
  apply bind_Some in E as (vs' & Evs & [= <-]). apply IH in Evs. simpl. lia.
Qed.

Lemma regroup_length vs : forall bs, regroup vs = Some bs -> (4 * length bs <= 3 * length vs)%nat.
Proof.
  induction vs as [vs IH] using (induction_ltof1 _ (@length Z)). unfold ltof in IH. intros bs E.
  destruct vs as [|a [|b [|c [|d r]]]]; cbn [regroup] in E; try done; try (injection E as <-; simpl; lia).
  apply bind_Some in E as (rest & Er & [= <-]). apply IH in Er; simpl in *; lia.
Qed.

Definition estimate (n : nat) : nat := (n + 3) / 4 * 3.

Lemma estimate_spec cs bs : decode false cs = Some bs -> (length bs <= estimate (length cs))%nat.
Proof.
  unfold decode, estimate. intros E. apply bind_Some in E as (vs & Ev & E).
  apply values_length in Ev. apply regroup_length in E.
  pose proof (Nat.div_mod (length cs + 3) 4). pose proof (Nat.mod_upper_bound (length cs + 3) 4). lia.
Qed.

#[export] Instance base64 : Base64 := Build_Base64 (engine false) (engine true) estimate estimate_spec.

(** Any function to 32 bytes satisfies the laws of a tag. *)
Definition checksum (key msg : bytes) : bytes :=
  to_be 32 (fold_left (fun acc b => (acc * 65599 + b + 1) mod (2 ^ 255 - 19)) (key ++ [256] ++ msg) 0).

Lemma checksum_verify key msg tag :
  bool_decide (tag = checksum key msg) = true <-> tag = checksum key msg.
Proof. apply bool_decide_eq_true. Qed.

#[export] Instance hmac_sha256 : HmacSha256 :=
  Build_HmacSha256 checksum (fun _ _ => to_be_length _ _) (fun _ _ => to_be_ok _ _)
    (fun key msg tag => bool_decide (tag = checksum key msg)) checksum_verify.

(** A self-delimiting codec of lists of byte strings, from which a [Json]
    instance is made for any type that is a list of fields. *)
Definition field_ok (f : bytes) : bool :=
  forallb (fun b => (0 <=? b) && (b <? 256)) f && (Z.of_nat (length f) <=? u32_max).

Fixpoint fields_decode (fuel : nat) (bs : bytes) : option (list bytes) :=
  match fuel, bs with
  | _, [] => Some []
  | O, _ => None
  | S f, _ =>
      let n := Z.to_nat (from_be (take 4 bs)) in
      if (4 + n <=? length bs)%nat then
        fs ← fields_decode f (drop (4 + n) bs); Some (take n (drop 4 bs) :: fs)
      else None
  end.

Lemma field_ok_spec f : field_ok f = true -> bytes_ok f /\ short f.
Proof.
  unfold field_ok, short. intros Hf. apply andb_prop in Hf as [Hb Hl]. split; [|by apply Z.leb_le].
  apply Forall_forall. intros b Hin. rewrite forallb_forall in Hb. specialize (Hb b).
  rewrite list_elem_of_In in Hin. specialize (Hb Hin). b2p. unfold byte_ok. lia.
Qed.

Lemma len_prefixed_ok f : field_ok f = true -> bytes_ok (len_prefixed f).
Proof. intros Hf. apply Forall_app. split; [apply to_be_ok|by apply field_ok_spec]. Qed.

Lemma fields_decode_encode fs fuel :
  forallb field_ok fs = true -> (length fs <= fuel)%nat ->
  fields_decode fuel (concat (len_prefixed <$> fs)) = Some fs.
Proof.
  revert fuel. induction fs as [|f fs IH]; intros fuel Hok Hf; [by destruct fuel|].
  cbn [forallb] in Hok. apply andb_prop in Hok as [Hf1 Hok]. apply field_ok_spec in Hf1 as [_ Hs].
  unfold short, u32_max in Hs. destruct fuel as [|fuel]; [simpl in Hf; lia|]. rewrite fmap_cons. cbn [concat].
  unfold len_prefixed at 1. unfold wrap_u. rewrite Z.mod_small, <- (assoc_L (++)) by lia.
  set (hd := u32_to_be (Z.of_nat (length f))). set (rest := concat _) in *.
  assert (length hd = 4%nat) as Hhd by apply to_be_length_4.
  assert (from_be hd = Z.of_nat (length f)) as Hv by (apply u32_from_to_be; unfold in_range, u32_max; lia).
  destruct (hd ++ f ++ rest) as [|b l] eqn:E; [destruct hd; simpl in *; try done; lia|].
  cbn [fields_decode]. rewrite <- E. rewrite (take_app_length' hd) by done. rewrite Hv, Nat2Z.id.
  assert (4 + length f <= length (hd ++ f ++ rest))%nat by (rewrite !length_app; lia).
  take_true (4 + length f <=? length (hd ++ f ++ rest))%nat.
  rewrite <- drop_drop, (drop_app_length' hd), take_app_length, drop_app_length by done.
  unfold rest. rewrite IH by (done || simpl in Hf; lia). done.
Qed.

Section fields_json.
Context {T : Type} (to_fields : T -> list bytes) (from_fields : list bytes -> option T).

(** Values that do not read back from their own fields are not encoded. *)
Definition fields_to_vec `{EqDecision T} (t : T) : option bytes :=
  let fs := to_fields t in
  if forallb field_ok fs && bool_decide (from_fields fs = Some t)
  then Some (concat (len_prefixed <$> fs)) else None.

Definition fields_from_slice (bs : bytes) : option T := fields_decode (length bs) bs ≫= from_fields.

Lemma fields_json_ok `{EqDecision T} t bs : fields_to_vec t = Some bs -> bytes_ok bs.
Proof.
  unfold fields_to_vec. case_test. intros [= <-]. b2p.
  match goal with H : forallb _ _ = true |- _ => revert H end. generalize (to_fields t).
  induction l as [|f l IH]; intros Hl; [constructor|]. cbn [forallb] in Hl. apply andb_prop in Hl as [? ?].
  rewrite fmap_cons. cbn [concat]. apply Forall_app. split; [by apply len_prefixed_ok|auto].
Qed.

Lemma fields_count fs : (length fs <= length (concat (len_prefixed <$> fs)))%nat.
Proof.
  induction fs as [|f fs IH]; [done|]. rewrite fmap_cons. cbn [concat]. unfold len_prefixed at 1.
  rewrite !length_app, to_be_length_4. simpl. lia.
Qed.

Lemma fields_json_roundtrip `{EqDecision T} t bs :
  fields_to_vec t = Some bs -> fields_from_slice bs = Some t.
Proof.
  unfold fields_to_vec. case_test. intros [= <-]. b2p. unfold fields_from_slice.
  rewrite fields_decode_encode by (done || apply fields_count). done.
Qed.

Definition fields_json `{EqDecision T} : Json T :=
  Build_Json T fields_to_vec fields_from_slice fields_json_ok fields_json_roundtrip.
End fields_json.

(** A JSON string. *)
#[export] Instance bytes_json : Json bytes :=
  fields_json (fun b => [b]) (fun fs => match fs with [b] => Some b | _ => None end).

(** The digest of the reference tag under an empty key. *)
#[export] Instance sha_256 : Sha256 :=
  Build_Sha256 (checksum []) (fun _ => to_be_length _ _) (fun _ => to_be_ok _ _).

Definition hex_value (c : Z) : option Z :=
  if (48 <=? c) && (c <=? 57) then Some (c - 48)
  else if (97 <=? c) && (c <=? 102) then Some (c - 87)
  else if (65 <=? c) && (c <=? 70) then Some (c - 55) else None.

Fixpoint unhex (cs : bytes) : option bytes :=
  match cs with
  | [] => Some []
  | a :: b :: r => x ← hex_value a; y ← hex_value b; rest ← unhex r; Some (x * 16 + y :: rest)
  | _ => None
  end.

Lemma hex_value_range c v : hex_value c = Some v -> 0 <= v < 16.
Proof. unfold hex_value. intros E. repeat case_test; injection E as <-; b2p; lia. Qed.

Lemma unhex_text bs : bytes_ok bs -> unhex (hex_text bs) = Some bs.
Proof.
  unfold hex_text. induction 1 as [|b bs Hb _ IH]; [done|]. rewrite fmap_cons. cbn [concat app unhex].
  assert (hex_value (hex_digit (b / 16)) = Some (b / 16) /\ hex_value (hex_digit (b mod 16)) = Some (b mod 16)) as [-> ->].
  { split; apply (bool_decide_unpack _), Is_true_eq_left; revert b Hb.
    - apply (byte_forall (fun b => bool_decide (hex_value (hex_digit (b / 16)) = Some (b / 16)))). by vm_compute.
    - apply (byte_forall (fun b => bool_decide (hex_value (hex_digit (b mod 16)) = Some (b mod 16)))). by vm_compute. }
  cbn [mbind option_bind]. rewrite IH. cbn [mbind option_bind]. repeat f_equal. zdiv.
Qed.

Lemma unhex_ok cs bs : unhex cs = Some bs -> bytes_ok bs.
Proof.
  revert bs. induction cs as [cs IH] using (induction_ltof1 _ (@length Z)). unfold ltof in IH. intros bs E.
  destruct cs as [|a [|b r]]; cbn [unhex] in E; [by injection E as <-|done|].
  apply bind_Some in E as (x & Ex & E). apply bind_Some in E as (y & Ey & E). apply bind_Some in E as (rest & Er & [= <-]).
  apply hex_value_range in Ex, Ey. constructor; [unfold byte_ok; lia|]. apply (IH r); [simpl; lia|done].
Qed.

#[export] Instance hex : Hex := Build_Hex hex_text (fun _ _ => eq_refl) unhex unhex_text unhex_ok.

(** The hexadecimal text of the field codec is a [JsonText]. *)
Section hex_json.
Context {T : Type} `{EqDecision T} (to_fields : T -> list bytes) (from_fields : list bytes -> option T).

Definition hex_to_vec (t : T) : option bytes :=
  bs ← fields_to_vec to_fields from_fields t; Some (123 :: hex_text bs).

Definition hex_from_slice (cs : bytes) : option T :=
  match cs with
  | 123 :: r => unhex r ≫= fields_from_slice from_fields
  | _ => None
  end.

Lemma hex_to_vec_visible t bs : hex_to_vec t = Some bs -> forallb is_visible bs = true.
Proof.
  unfold hex_to_vec. intros E. apply bind_Some in E as (fs & E & [= <-]). cbn [forallb].
  rewrite hex_text_visible; [done|]. by eapply fields_json_ok.
Qed.

Lemma visible_bytes bs : forallb is_visible bs = true -> bytes_ok bs.
Proof.
  intros Hv. apply Forall_forall. intros b Hb. rewrite forallb_forall in Hv. apply list_elem_of_In in Hb.
  apply Hv in Hb. unfold is_visible in Hb. b2p. unfold byte_ok. lia.
Qed.

Lemma hex_json_roundtrip t bs : hex_to_vec t = Some bs -> hex_from_slice bs = Some t.
Proof.
  unfold hex_to_vec. intros E. apply bind_Some in E as (fs & E & [= <-]). cbn [hex_from_slice].
  rewrite unhex_text by (by eapply fields_json_ok). cbn [mbind option_bind]. by eapply fields_json_roundtrip.
Qed.

Definition hex_json : Json T :=
  Build_Json T hex_to_vec hex_from_slice (fun t bs E => visible_bytes _ (hex_to_vec_visible t bs E)) hex_json_roundtrip.

Lemma visible_line bs : forallb is_visible bs = true -> (10 ∉ bs) /\ (13 ∉ bs).
Proof.
  intros Hv. rewrite forallb_forall in Hv. split; intros Hin; apply list_elem_of_In, Hv in Hin; by vm_compute in Hin.
Qed.

Lemma hex_to_vec_shown t bs : hex_to_vec t = Some bs -> trim bs <> [].
Proof.
  unfold hex_to_vec. intros E. apply bind_Some in E as (fs & E & [= <-]). intros Ht%trim_blank.
  apply Forall_cons in Ht as [Ht _]. revert Ht. apply (bool_decide_unpack _). by vm_compute.
Qed.

Definition hex_json_text : @JsonText T hex_json :=
  @Build_JsonText T hex_json (fun t bs E => ascii_utf8 _ (visible_ascii _ (hex_to_vec_visible t bs E)))
    (fun t bs E => visible_line _ (hex_to_vec_visible t bs E)) hex_to_vec_shown.
End hex_json.

(** A header map as the list of its entries. *)
Abbreviation entries := (list (bytes * bytes)).

Definition entries_get (m : entries) (n : bytes) : list bytes := snd <$> filter (fun e => fst e = n) m.
Definition entries_remove (n : bytes) (m : entries) : entries := filter (fun e => fst e <> n) m.
Definition entries_insert (n v : bytes) (m : entries) : entries := entries_remove n m ++ [(n, v)].
Definition text_value (s : bytes) : option bytes := if forallb is_visible s then Some s else None.

Lemma entries_get_remove n m n' :
  entries_get (entries_remove n m) n' = if bool_decide (n = n') then [] else entries_get m n'.
Proof.
  unfold entries_get, entries_remove. induction m as [|[k v] m IH]; [by case_bool_decide|].
  destruct (decide (k = n)) as [->|Hn].
  - rewrite (filter_cons_False (fun e : bytes * bytes => fst e <> n)) by (cbn; tauto). rewrite IH.
    case_bool_decide; [done|]. by rewrite filter_cons_False.
  - rewrite (filter_cons_True (fun e : bytes * bytes => fst e <> n)) by done.
    destruct (decide (k = n')) as [->|Hn'].
    + rewrite !(filter_cons_True (fun e : bytes * bytes => fst e = n')) by done. rewrite !fmap_cons, IH.
      by rewrite bool_decide_false.
    + by rewrite !(filter_cons_False (fun e : bytes * bytes => fst e = n')) by done.
Qed.

Lemma entries_get_insert n v m n' :
  entries_get (entries_insert n v m) n' = if bool_decide (n = n') then [v] else entries_get m n'.
Proof.
  unfold entries_insert. unfold entries_get at 1. rewrite filter_app, fmap_app.
  fold (entries_get (entries_remove n m) n'). rewrite entries_get_remove, filter_cons. cbn [fst filter list_filter].
  case_bool_decide; [by rewrite decide_True|]. by rewrite decide_False, app_nil_r.
Qed.

Lemma text_value_chars v s : text_value v = Some s -> forallb is_visible s = true.
Proof. unfold text_value. intros E. case_test. by injection E as <-. Qed.

Lemma text_value_text s : forallb is_visible s = true -> exists v, text_value s = Some v /\ text_value v = Some s.
Proof. intros E. exists s. unfold text_value. by rewrite E. Qed.

#[export] Instance http : Http entries bytes :=
  Build_Http entries bytes text_value text_value entries_get entries_insert entries_remove id is_visible
    (fun _ Hb => Hb) text_value_chars text_value_text entries_get_insert entries_get_remove (fun _ _ => reflexivity _).
End Reference.
