(* ===== verification/Guacamole.v ===== *)
(** * The Guacamole wire codec

    [crates/strata-session/src/protocol/guacamole.rs]: the instruction
    encoder, the length-prefixed parser and its streaming wrapper.  Text is
    UTF-8 bytes; winnow's combinators come from the [Winnow] interface. *)

From S2P Require Import Prelude Machine Text Crates.

Local Open Scope Z_scope.

Definition MAX_INSTRUCTION_ELEMENTS : nat := 64.
Definition MAX_ELEMENT_CHARS : Z := 8 * 1024 * 1024.
Definition MAX_LENGTH_DIGITS : nat := 9.

(** [error::WireError]. *)
Inductive WireError : Type :=
| Malformed
| BufferOverflow (limit : nat)
| MissingArgument (opcode : bytes) (index : nat)
| BadArgument (opcode : bytes) (index : nat).

#[export] Instance WireError_eq_dec : EqDecision WireError.
Proof. solve_decision. Defined.

Record GuacInstruction : Type := mk_instruction { opcode : bytes; args : list bytes }.

#[export] Instance GuacInstruction_eq_dec : EqDecision GuacInstruction.
Proof. solve_decision. Defined.

Definition arg (i : GuacInstruction) (index : nat) : option bytes := args i !! index.

(** [arg_int]: [parse] is the [FromStr] of the requested integer type. *)
Definition arg_int (parse : bytes -> option Z) (i : GuacInstruction) (index : nat) : result WireError Z :=
  s ← ok_or (arg i index) (MissingArgument (opcode i) index);
  ok_or (parse s) (BadArgument (opcode i) index).

(** ** Encoding *)

Definition itoa_buf : bytes := replicate 20 0.

(** The [loop] of [write_usize]; [None] is the panic of writing before the
    start of the buffer. *)
Fixpoint write_usize_loop (buf : bytes) (i : nat) (value : Z) : option (bytes * nat) :=
  match i with
  | O => None
  | S i' =>
      let buf' := <[i' := 48 + value mod 10]> buf in
      if value / 10 =? 0 then Some (buf', i') else write_usize_loop buf' i' (value / 10)
  end.

Definition write_usize (buf : bytes) (value : Z) : option (bytes * nat) :=
  write_usize_loop buf (length buf) value.

(** The [None] branch is dead code: see [write_usize_spec]. *)
Definition push_element (out : bytes) (value : bytes) : bytes :=
  match write_usize itoa_buf (Z.of_nat (char_count value)) with
  | Some (digits, len) => out ++ drop len digits ++ [46] ++ value
  | None => out
  end.

Definition encode_instruction (out : bytes) (op : bytes) (args : list bytes) : bytes :=
  let out := push_element out op in
  let out := fold_left (fun out a => push_element (out ++ [44]) a) args out in
  out ++ [59].

(** [GuacInstruction::encode]. *)
Definition instruction_encode (i : GuacInstruction) (out : bytes) : bytes :=
  encode_instruction out (opcode i) (args i).

(** ** Parsing *)

(** winnow's two failure modes: [incomplete()] and [malformed()]. *)
Inductive ErrMode : Type := Backtrack | Cut.

#[export] Instance ErrMode_eq_dec : EqDecision ErrMode.
Proof. solve_decision. Defined.

(** The width announced by a lead byte. *)
Definition utf8_width (lead : Z) : option nat :=
  if (0 <=? lead) && (lead <=? 127) then Some 1%nat
  else if (194 <=? lead) && (lead <=? 223) then Some 2%nat
  else if (224 <=? lead) && (lead <=? 239) then Some 3%nat
  else if (240 <=? lead) && (lead <=? 244) then Some 4%nat
  else None.

Fixpoint utf8_prefix_loop (input : bytes) (chars : nat) (idx : nat) : result unit (option nat) :=
  match chars with
  | O => Ok (Some idx)
  | S n =>
      match input !! idx with
      | None => Ok None
      | Some lead =>
          match utf8_width lead with
          | None => Err tt
          | Some width =>
              if (length input <? idx + width)%nat then Ok None
              else if forallb is_cont (take (width - 1) (drop (idx + 1) input))
              then utf8_prefix_loop input n (idx + width)
              else Err tt
          end
      end
  end.

Definition utf8_prefix_len (input : bytes) (chars : nat) : result unit (option nat) :=
  utf8_prefix_loop input chars 0.

Section parser.
Context `{Winnow}.

Definition parse_element (input : bytes) : result ErrMode (bytes * bytes) :=
  match input with
  | [] => Err Backtrack
  | b :: _ =>
      if negb (is_digit b) then Err Cut
      else match take_while_m_n 1 MAX_LENGTH_DIGITS is_digit input with
      | None => Err Cut
      | Some (digits, input) =>
          match input with
          | [] => Err Backtrack
          | 46 :: input =>
              let char_len := digits_value digits in
              if MAX_ELEMENT_CHARS <? char_len then Err Cut
              else match utf8_prefix_len input (Z.to_nat char_len) with
              | Err _ => Err Cut
              | Ok None => Err Backtrack
              | Ok (Some byte_len) =>
                  match take_n byte_len input with
                  | None => Err Backtrack
                  | Some (raw, input) => if utf8_valid raw then Ok (raw, input) else Err Cut
                  end
              end
          | _ => Err Cut
          end
      end
  end.

(** The [loop] of [parse_instruction].  The guard on [args.len()] ends it
    after at most [MAX_INSTRUCTION_ELEMENTS] rounds, so that much fuel is
    enough ([parse_args_fuel]). *)
Fixpoint parse_args (fuel : nat) (op : bytes) (args : list bytes) (input : bytes)
  : result ErrMode (GuacInstruction * bytes) :=
  match fuel with
  | O => Err Cut
  | S fuel =>
      match input with
      | [] => Err Backtrack
      | 59 :: input => Ok (mk_instruction op args, input)
      | 44 :: input =>
          if (MAX_INSTRUCTION_ELEMENTS <=? length args + 1)%nat then Err Cut
          else '(a, input) ← parse_element input; parse_args fuel op (args ++ [a]) input
      | _ => Err Cut
      end
  end.

Definition parse_instruction (input : bytes) : result ErrMode (GuacInstruction * bytes) :=
  '(op, input) ← parse_element input;
  parse_args MAX_INSTRUCTION_ELEMENTS op [] input.

Definition try_parse_instruction (buf : bytes) : result WireError (option (GuacInstruction * nat)) :=
  match parse_instruction buf with
  | Ok (i, input) => Ok (Some (i, (length buf - length input)%nat))
  | Err Backtrack => Ok None
  | Err Cut => Err Malformed
  end.
End parser.

(** ** Well-formed instructions *)

Definition wf_element (v : bytes) : Prop :=
  utf8_valid v = true /\ Z.of_nat (char_count v) <= MAX_ELEMENT_CHARS.

Definition wf_instruction (i : GuacInstruction) : Prop :=
  wf_element (opcode i) /\ Forall wf_element (args i) /\
  (length (args i) < MAX_INSTRUCTION_ELEMENTS)%nat.

(** The wire form as a closed expression. *)
Definition element (v : bytes) : bytes := dec (Z.of_nat (char_count v)) ++ [46] ++ v.

Definition wire (op : bytes) (args : list bytes) : bytes :=
  element op ++ concat ((fun a => 44 :: element a) <$> args) ++ [59].

(** ** Encoder lemmas *)

Lemma write_usize_loop_spec i buf v :
  (i <= length buf)%nat -> (i <> 0)%nat -> 0 <= v < 10 ^ Z.of_nat i ->
  exists buf' j, write_usize_loop buf i v = Some (buf', j) /\ (j < i)%nat /\
    length buf' = length buf /\ drop j buf' = dec_fuel i v ++ drop i buf.
Proof.
  revert buf v. induction i as [|i IH]; intros buf v Hi Hi0 Hv; [done|].
  cbn [write_usize_loop dec_fuel]. rewrite Nat2Z.inj_succ, Z.pow_succ_r in Hv by lia.
  assert (drop i (<[i:=48 + v mod 10]> buf) = (48 + v mod 10) :: drop (S i) buf) as Hdrop.
  { rewrite (drop_S _ (48 + v mod 10) i) by (apply list_lookup_insert_eq; lia).
    by rewrite drop_insert_lt by lia. }
  destruct (v / 10 =? 0) eqn:E; b2p.
  - assert (v < 10) by (apply Z.div_small_iff in E; lia). take_true (v <? 10).
    eexists _, i. split; [done|]. rewrite length_insert. split_and!; [lia|done|].
    by rewrite Hdrop.
  - assert (10 <= v) by (destruct (Z_lt_le_dec v 10); [rewrite Z.div_small in E; lia|done]).
    take_false (v <? 10).
    assert (i <> 0)%nat by (intros ->; simpl in *; lia).
    destruct (IH (<[i:=48 + v mod 10]> buf) (v / 10)) as (buf' & j & E1 & Hj & Hl & Hd).
    { rewrite length_insert. lia. } { done. }
    { split; [apply Z.div_pos; lia|apply Z.div_lt_upper_bound; lia]. }
    exists buf', j. rewrite E1, Hl, length_insert, Hd, Hdrop. split_and!; [done|lia|done|].
    by rewrite <- (assoc_L (++)).
Qed.

(** [write_usize] renders every [usize] in decimal without running off its
    buffer. *)
Lemma write_usize_spec v :
  is_u64 v -> exists buf j, write_usize itoa_buf v = Some (buf, j) /\ drop j buf = dec v.
Proof.
  intros [Hlo Hhi]. destruct (write_usize_loop_spec 20 itoa_buf v) as (buf & j & E & _ & _ & Hd);
    [done|done|unfold u64_max in *; simpl; lia|].
  exists buf, j. split; [done|]. rewrite Hd. by rewrite (drop_ge itoa_buf), app_nil_r.
Qed.

Definition addressable (v : bytes) : Prop := Z.of_nat (length v) <= u64_max.

Lemma push_element_eq out v : addressable v -> push_element out v = out ++ element v.
Proof.
  intros Hv. unfold push_element, element, addressable in *.
  destruct (write_usize_spec (Z.of_nat (char_count v))) as (buf & j & -> & ->); [|done].
  pose proof (char_count_le v). unfold in_range. lia.
Qed.

Lemma encode_args_eq args out :
  Forall addressable args ->
  fold_left (fun out a => push_element (out ++ [44]) a) args out =
  out ++ concat ((fun a => 44 :: element a) <$> args).
Proof.
  intros Hargs. revert out. induction Hargs as [|a args Ha Hargs IH]; intros out; simpl.
  - by rewrite app_nil_r.
  - rewrite push_element_eq, IH by done. by rewrite <- !(assoc_L (++)).
Qed.

(** The encoder writes the wire form. *)
Lemma encode_instruction_eq out op args :
  addressable op -> Forall addressable args ->
  encode_instruction out op args = out ++ wire op args.
Proof.
  intros. unfold encode_instruction, wire.
  by rewrite push_element_eq, encode_args_eq, <- !(assoc_L (++)) by done.
Qed.

(** ** UTF-8 scanning lemmas *)

Lemma utf8_width_char c :
  utf8_char c = true -> exists lead tl, c = lead :: tl /\ utf8_width lead = Some (length c) /\
    forallb is_cont tl = true.
Proof.
  intros Hc. destruct (utf8_char_shape c Hc) as (lead & tl & -> & _ & _ & _ & Htl).
  exists lead, tl. split_and!; [done| |].
  - apply utf8_char_cases in Hc as [(b & E & ?)|[(b & c1 & E & ? & _)|[(b & c1 & c2 & E & ? & _)|
      (b & c1 & c2 & c3 & E & ? & _)]]]; injection E as -> ->; unfold utf8_width; simpl;
    repeat (case_test; b2p); try done; lia.
  - clear -Htl. induction Htl; simpl; [done|]. by rewrite IHHtl, andb_true_r.
Qed.

Lemma utf8_prefix_loop_valid v : utf8_valid v = true -> forall pre rest,
  utf8_prefix_loop (pre ++ v ++ rest) (char_count v) (length pre) = Ok (Some (length pre + length v)%nat).
Proof.
  revert v. apply (utf8_valid_ind (fun v => forall pre rest,
    utf8_prefix_loop (pre ++ v ++ rest) (char_count v) (length pre) = Ok (Some (length pre + length v)%nat))).
  - intros. cbn. by rewrite Nat.add_0_r.
  - intros c r Hc Hr IH pre rest. rewrite char_count_app, (char_count_char c) by done.
    destruct (utf8_width_char c Hc) as (lead & tl & -> & Hw & Htl).
    specialize (IH (pre ++ lead :: tl) rest). rewrite length_app in IH.
    replace ((pre ++ lead :: tl) ++ r ++ rest) with (pre ++ ((lead :: tl) ++ r) ++ rest) in IH
      by (by rewrite <- !(assoc_L (++))).
    set (input := pre ++ ((lead :: tl) ++ r) ++ rest) in *.
    assert (input !! length pre = Some lead) as Hl
      by (unfold input; by rewrite lookup_app_r, Nat.sub_diag by lia).
    assert (drop (length pre + 1) input = tl ++ r ++ rest) as Hd.
    { unfold input. rewrite drop_app_ge, <- (assoc_L (++)) by lia.
      by replace (length pre + 1 - length pre)%nat with 1%nat by lia. }
    assert (length pre + length (lead :: tl) <= length input)%nat by (unfold input; rewrite !length_app; simpl; lia).
    cbn [Nat.add utf8_prefix_loop]. rewrite Hl, Hw, Hd.
    take_false (length input <? length pre + length (lead :: tl))%nat.
    rewrite take_app_length', Htl, IH by (simpl; lia). f_equal. f_equal. len.
Qed.

Lemma utf8_prefix_loop_extend input k chars idx :
  match utf8_prefix_loop input chars idx with
  | Ok None => True
  | r => utf8_prefix_loop (input ++ k) chars idx = r
  end.
Proof.
  revert idx. induction chars as [|n IH]; intros idx; simpl; [done|].
  destruct (input !! idx) as [lead|] eqn:El; [|done].
  rewrite (lookup_app_l_Some _ _ _ _ El).
  destruct (utf8_width lead) as [w|] eqn:Ew; [|done].
  destruct (length input <? idx + w)%nat eqn:Eb; b2p; [done|].
  assert (length input <= length (input ++ k))%nat by len.
  take_false (length (input ++ k) <? idx + w)%nat.
  assert (take (w - 1) (drop (idx + 1) (input ++ k)) = take (w - 1) (drop (idx + 1) input)) as ->.
  { apply lookup_lt_Some in El. rewrite drop_app_le by lia.
    apply take_app_le. rewrite length_drop. lia. }
  destruct (forallb _ _); [apply IH|done].
Qed.

Lemma utf8_width_lead lead w : utf8_width lead = Some w -> is_cont lead = false /\ (0 < w)%nat.
Proof.
  unfold utf8_width. repeat case_test; intros [= <-]; b2p; (split; [apply lead_not_cont|]); lia.
Qed.

Lemma utf8_prefix_loop_count input chars idx n :
  utf8_prefix_loop input chars idx = Ok (Some n) -> (idx <= length input)%nat ->
  (idx <= n <= length input)%nat /\ char_count (take (n - idx) (drop idx input)) = chars.
Proof.
  revert idx. induction chars as [|c IH]; intros idx; simpl.
  - intros [= <-] ?. rewrite Nat.sub_diag. done.
  - destruct (input !! idx) as [lead|] eqn:El; [|done].
    destruct (utf8_width lead) as [w|] eqn:Ew; [|done].
    apply utf8_width_lead in Ew as [Hlead Hw0].
    destruct (length input <? idx + w)%nat eqn:Eb; b2p; [done|].
    destruct (forallb is_cont _) eqn:Ef; [|done]. intros E Hidx.
    destruct (IH _ E) as [Hn Hcnt]; [lia|]. split; [lia|].
    rewrite (drop_S input lead idx) by done.
    replace (n - idx)%nat with (S ((w - 1) + (n - (idx + w))))%nat by lia. cbn [take].
    change (lead :: ?x) with ([lead] ++ x).
    rewrite char_count_app, <- take_take_drop, char_count_app, drop_drop.
    replace (S idx + (w - 1))%nat with (idx + w)%nat by lia. rewrite Hcnt.
    rewrite Nat.add_1_r in Ef.
    assert (char_count (take (w - 1) (drop (S idx) input)) = 0%nat) as ->.
    { clear -Ef. unfold char_count. induction (take _ _) as [|x l IHl]; [done|]. simpl in Ef. b2p.
      rewrite filter_cons_False by congruence. auto. }
    unfold char_count. by rewrite filter_singleton_True.
Qed.

(** ** Parser lemmas *)

Section parser_lemmas.
Context `{Winnow}.

(** Parsing an encoded element gives it back, whatever follows. *)
Lemma parse_element_element v rest :
  wf_element v -> parse_element (element v ++ rest) = Ok (v, rest).
Proof.
  intros [Hv Hc]. assert (Z.of_nat (char_count v) <= 8388608) by done.
  destruct (dec_spec (Z.of_nat (char_count v))) as (Hval & Hd & Hne & _); [unfold dec_bound; lia|].
  assert (length (dec (Z.of_nat (char_count v))) <= 9)%nat as Hlen
    by (apply dec_fuel_length; [done|simpl; lia]).
  unfold element, parse_element. rewrite <- !(assoc_L (++)).
  set (ds := dec _) in *. destruct ds as [|d ds'] eqn:Eds; [done|]. rewrite <- Eds in *.
  replace (ds ++ [46] ++ v ++ rest) with (d :: ds' ++ [46] ++ v ++ rest) by (by rewrite Eds).
  cbn [app]. replace (d :: ds' ++ 46 :: v ++ rest) with (ds ++ 46 :: v ++ rest) by (by rewrite Eds).
  assert (is_digit d = true) as -> by (rewrite Eds in Hd; by inversion Hd). cbn [negb].
  rewrite take_while_m_n_spec. cbn zeta.
  rewrite prefix_while_app; [|done|done|intros x k' [= <- _]; done].
  assert (1 <= length ds)%nat by (rewrite Eds; simpl; lia).
  take_true (1 <=? length ds)%nat. rewrite drop_length_app, Hval.
  take_false (MAX_ELEMENT_CHARS <? Z.of_nat (char_count v)).
  rewrite Nat2Z.id. unfold utf8_prefix_len.
  pose proof (utf8_prefix_loop_valid v Hv [] rest) as Hu. cbn [length Nat.add app] in Hu.
  rewrite Hu, take_n_spec.
  assert (length v <= length (v ++ rest))%nat by len.
  take_true (length v <=? length (v ++ rest))%nat. by rewrite take_app_length, drop_app_length, Hv.
Qed.

(** More input never changes a verdict: a parsed element stays parsed, with
    the new bytes left over, and a malformed one stays malformed. *)
Lemma parse_element_extend input k :
  match parse_element input with
  | Ok (v, r) => parse_element (input ++ k) = Ok (v, r ++ k)
  | Err Cut => parse_element (input ++ k) = Err Cut
  | Err Backtrack => True
  end.
Proof.
  unfold parse_element. destruct input as [|b input]; [done|]. cbn [app].
  change (b :: input ++ k) with ((b :: input) ++ k). destruct (negb (is_digit b)) eqn:Eb; [done|].
  rewrite !take_while_m_n_spec. cbn zeta. set (l := b :: input) in *.
  destruct (decide (length (prefix_while MAX_LENGTH_DIGITS is_digit l) < length l)%nat) as [Hlt|Hge].
  2: { rewrite (drop_ge l) by lia. by destruct (_ <=? _)%nat eqn:E1;
       [|b2p; destruct (prefix_while MAX_LENGTH_DIGITS is_digit l) eqn:E2; [|simpl in *; lia];
         unfold l in E2; simpl in E2; rewrite Eb in E2]. }
  rewrite prefix_while_extend by done. set (ds := prefix_while MAX_LENGTH_DIGITS is_digit l) in *.
  destruct (1 <=? length ds)%nat; [|done].
  rewrite drop_app_le by lia. destruct (drop (length ds) l) as [|c r] eqn:Ed; [done|]. cbn [app].
  destruct (decide (c = 46)) as [->|Hc]; [|by repeat case_match; simplify_eq].
  destruct (MAX_ELEMENT_CHARS <? digits_value ds); [done|].
  pose proof (utf8_prefix_loop_extend r k (Z.to_nat (digits_value ds)) 0) as Hext.
  unfold utf8_prefix_len. destruct (utf8_prefix_loop r _ 0) as [[n|]|] eqn:Eu; [..|by rewrite Hext]; [|done].
  rewrite Hext, !take_n_spec. apply utf8_prefix_loop_count in Eu as [[_ Hn] _]; [|lia].
  assert (length r <= length (r ++ k))%nat by len.
  take_true (n <=? length r)%nat. take_true (n <=? length (r ++ k))%nat.
  rewrite take_app_le, drop_app_le by done. by destruct (utf8_valid _).
Qed.

(** A parsed element is a prefix of the input, is valid text within the
    size limit, and consumes something. *)
Lemma parse_element_sound input v r :
  parse_element input = Ok (v, r) ->
  wf_element v /\ (length r < length input)%nat /\ exists pre, input = pre ++ r.
Proof.
  unfold parse_element. destruct input as [|b input]; [done|]. destruct (negb (is_digit b)); [done|].
  rewrite take_while_m_n_spec. cbn zeta. set (l := b :: input) in *.
  set (ds := prefix_while _ _ l). destruct (1 <=? length ds)%nat; [|done].
  destruct (drop (length ds) l) as [|c rest] eqn:Er; [done|].
  destruct (decide (c = 46)) as [->|Hc]; [|by repeat case_match; simplify_eq].
  destruct (MAX_ELEMENT_CHARS <? digits_value ds) eqn:Em; [done|]. b2p.
  unfold utf8_prefix_len. destruct (utf8_prefix_loop rest _ 0) as [[n|]|] eqn:Eu; [|done..].
  apply utf8_prefix_loop_count in Eu as [[_ Hn] Hcnt]; [|lia]. rewrite Nat.sub_0_r, drop_0 in Hcnt.
  rewrite take_n_spec. take_true (n <=? length rest)%nat.
  destruct (utf8_valid (take n rest)) eqn:Ev; [|done]. intros [= <- <-].
  assert (l = (take (length ds) l ++ [46] ++ take n rest) ++ drop n rest) as El.
  { rewrite <- !(assoc_L (++)), take_drop. cbn [app]. by rewrite <- Er, take_drop. }
  split_and!; [by split; [done|rewrite Hcnt; unfold MAX_ELEMENT_CHARS in *; lia]| |by eauto].
  rewrite El at 1. rewrite !length_app, !length_drop, length_take. simpl. lia.
Qed.

(** ** The argument loop *)

Lemma parse_args_cons fuel op args b r :
  parse_args (S fuel) op args (b :: r) =
  if b =? 59 then Ok (mk_instruction op args, r)
  else if b =? 44 then
    if (MAX_INSTRUCTION_ELEMENTS <=? length args + 1)%nat then Err Cut
    else '(a, r) ← parse_element r; parse_args fuel op (args ++ [a]) r
  else Err Cut.
Proof.
  destruct (b =? 59) eqn:E1; [b2p; by subst|]. destruct (b =? 44) eqn:E2; [b2p; by subst|].
  b2p. cbn [parse_args]. repeat case_match; by simplify_eq.
Qed.

(** [MAX_INSTRUCTION_ELEMENTS] rounds are enough: from there on the amount
    of fuel does not matter. *)
Lemma parse_args_fuel op args input f1 f2 :
  (MAX_INSTRUCTION_ELEMENTS <= length args + f1)%nat ->
  (MAX_INSTRUCTION_ELEMENTS <= length args + f2)%nat ->
  (length args < MAX_INSTRUCTION_ELEMENTS)%nat ->
  parse_args f1 op args input = parse_args f2 op args input.
Proof.
  revert args input f2. induction f1 as [|f1 IH]; intros args input f2 H1 H2 Ha; [lia|].
  destruct f2 as [|f2]; [lia|]. destruct input as [|b r]; [done|].
  rewrite !parse_args_cons. destruct (b =? 59); [done|]. destruct (b =? 44); [|done].
  destruct (MAX_INSTRUCTION_ELEMENTS <=? length args + 1)%nat eqn:E; b2p; [done|].
  destruct (parse_element r) as [[a r']|]; [|done]. simpl. apply IH; len.
Qed.

Lemma parse_args_wire op rest : forall new args fuel,
  Forall wf_element new -> (length args + length new < MAX_INSTRUCTION_ELEMENTS)%nat ->
  (length new < fuel)%nat ->
  parse_args fuel op args (concat ((fun a => 44 :: element a) <$> new) ++ 59 :: rest) =
  Ok (mk_instruction op (args ++ new), rest).
Proof.
  induction new as [|a new IH]; intros args fuel Hw Hn Hf; (destruct fuel as [|fuel]; [lia|]).
  - simpl. by rewrite app_nil_r.
  - apply Forall_cons in Hw as [Ha Hw]. simpl in Hn, Hf. cbn [fmap list_fmap concat app].
    rewrite parse_args_cons. cbn [Z.eqb Pos.eqb].
    take_false (MAX_INSTRUCTION_ELEMENTS <=? length args + 1)%nat.
    rewrite <- (assoc_L (++)), parse_element_element by done. cbn [mbind result_bind].
    change (list_fmap bytes bytes ?f ?l) with (f <$> l).
    rewrite IH by (done || len). by rewrite <- (assoc_L (++)).
Qed.

Lemma parse_args_extend k : forall fuel op args input,
  match parse_args fuel op args input with
  | Ok (i, r) => parse_args fuel op args (input ++ k) = Ok (i, r ++ k)
  | Err Cut => parse_args fuel op args (input ++ k) = Err Cut
  | Err Backtrack => True
  end.
Proof.
  induction fuel as [|fuel IH]; intros op args input; [done|].
  destruct input as [|b r]; [done|]. cbn [app]. rewrite !parse_args_cons.
  destruct (b =? 59); [done|]. destruct (b =? 44); [|done]. destruct (_ <=? _)%nat; [done|].
  pose proof (parse_element_extend r k) as He.
  destruct (parse_element r) as [[a r']|[]]; cbn; [|done|by rewrite He].
  rewrite He. apply IH.
Qed.

Lemma parse_args_sound : forall fuel op args input i r,
  parse_args fuel op args input = Ok (i, r) ->
  wf_element op -> Forall wf_element args -> (length args < MAX_INSTRUCTION_ELEMENTS)%nat ->
  wf_instruction i /\ (length r < length input)%nat /\ exists pre, input = pre ++ r.
Proof.
  induction fuel as [|fuel IH]; intros op args input i r E Hop Hargs Hlen; [done|].
  destruct input as [|b inp]; [done|]. rewrite parse_args_cons in E.
  destruct (b =? 59); [injection E as <- <-; split_and!; [done|simpl; lia|by exists [b]]|].
  destruct (b =? 44); [|done].
  destruct (MAX_INSTRUCTION_ELEMENTS <=? length args + 1)%nat eqn:En; b2p; [done|].
  apply result_bind_Ok in E as ([a inp'] & Ea & E).
  apply parse_element_sound in Ea as (Ha & Hl & pre & ->).
  apply IH in E as (? & ? & pre' & ->); [|done| |len].
  2: { apply Forall_app; split; [done|by apply Forall_singleton]. }
  split_and!; [done|len|]. exists (b :: pre ++ pre'). simpl. by rewrite (assoc_L (++)).
Qed.
End parser_lemmas.

#[global] Arguments parse_args : simpl never.

(** A character takes at most four bytes, so a well-formed element fits in
    memory and its character count fits in a [usize]. *)
Lemma utf8_length_bound v : utf8_valid v = true -> (length v <= 4 * char_count v)%nat.
Proof.
  revert v. apply utf8_valid_ind; [simpl; lia|]. intros c r Hc _ IH.
  rewrite char_count_app, length_app, (char_count_char c) by done.
  apply utf8_char_cases in Hc as [(? & -> & _)|[(? & ? & -> & _)|[(? & ? & ? & -> & _)|
    (? & ? & ? & ? & -> & _)]]]; simpl; lia.
Qed.

Lemma wf_element_addressable v : wf_element v -> addressable v.
Proof.
  intros [Hv Hc]. apply utf8_length_bound in Hv.
  unfold addressable, MAX_ELEMENT_CHARS, u64_max in *. lia.
Qed.

Lemma instruction_encode_wire i out :
  wf_instruction i -> instruction_encode i out = out ++ wire (opcode i) (args i).
Proof.
  intros (Hop & Hargs & _). unfold instruction_encode.
  rewrite encode_instruction_eq; [done|by apply wf_element_addressable|].
  eapply Forall_impl; [exact Hargs|apply wf_element_addressable].
Qed.

(** ** The codec's properties *)

Section codec.
Context `{Winnow}.

Lemma parse_instruction_wire i rest :
  wf_instruction i -> parse_instruction (wire (opcode i) (args i) ++ rest) = Ok (i, rest).
Proof.
  intros (Hop & Hargs & Hlen). unfold parse_instruction, wire.
  rewrite <- !(assoc_L (++)), parse_element_element by done. cbn [mbind result_bind app].
  rewrite parse_args_wire by done. by destruct i.
Qed.

Lemma parse_instruction_extend input k :
  match parse_instruction input with
  | Ok (i, r) => parse_instruction (input ++ k) = Ok (i, r ++ k)
  | Err Cut => parse_instruction (input ++ k) = Err Cut
  | Err Backtrack => True
  end.
Proof.
  unfold parse_instruction. pose proof (parse_element_extend input k) as He.
  destruct (parse_element input) as [[op r]|[]]; cbn [mbind result_bind]; [|done|by rewrite He].
  rewrite He. cbn [mbind result_bind]. apply (parse_args_extend k _ op [] r).
Qed.

Lemma parse_instruction_sound input i r :
  parse_instruction input = Ok (i, r) ->
  wf_instruction i /\ (length r < length input)%nat /\ exists pre, input = pre ++ r.
Proof.
  unfold parse_instruction. intros E. apply result_bind_Ok in E as ([op inp] & Eo & E).
  apply parse_element_sound in Eo as (Hop & Hl & pre & ->).
  apply parse_args_sound in E as (? & ? & pre' & ->); [|done|constructor|unfold MAX_INSTRUCTION_ELEMENTS; simpl; lia].
  split_and!; [done|len|]. exists (pre ++ pre'). by rewrite <- (assoc_L (++)).
Qed.

Lemma wire_parse_Ok i rest :
  wf_instruction i ->
  try_parse_instruction (wire (opcode i) (args i) ++ rest) =
    Ok (Some (i, length (wire (opcode i) (args i)))).
Proof.
  intros Hi. unfold try_parse_instruction. rewrite parse_instruction_wire by done.
  do 3 f_equal. len.
Qed.

(** C36: encoding any well-formed instruction (valid UTF-8 elements of at
    most [MAX_ELEMENT_CHARS] characters, fewer than 64 of them) and parsing
    the bytes gives the instruction back and consumes exactly its own
    bytes, whatever follows on the stream. *)
Theorem encode_parse_roundtrip i rest :
  wf_instruction i ->
  try_parse_instruction (instruction_encode i [] ++ rest) =
    Ok (Some (i, length (instruction_encode i []))).
Proof. intros Hi. rewrite instruction_encode_wire by done. by apply wire_parse_Ok. Qed.

(** Every strict prefix of an encoded instruction is reported as
    incomplete, never as malformed and never as a shorter instruction. *)
Lemma encode_prefix_incomplete i pre suf :
  wf_instruction i -> instruction_encode i [] = pre ++ suf -> suf <> [] ->
  try_parse_instruction pre = Ok None.
Proof.
  intros Hi E Hs. rewrite instruction_encode_wire in E by done.
  pose proof (parse_instruction_wire i [] Hi) as Hw. rewrite app_nil_r in Hw.
  rewrite app_nil_l in E. rewrite E in Hw.
  pose proof (parse_instruction_extend pre suf) as Hx. unfold try_parse_instruction.
  destruct (parse_instruction pre) as [[j r]|[]]; [|done|congruence].
  rewrite Hw in Hx. injection Hx as _ Hx. by destruct r, suf.
Qed.

Lemma try_parse_more buf more r :
  try_parse_instruction buf = r -> r <> Ok None -> try_parse_instruction (buf ++ more) = r.
Proof.
  unfold try_parse_instruction. intros <- Hr. pose proof (parse_instruction_extend buf more) as Hx.
  destruct (parse_instruction buf) as [[i rest]|[]] eqn:E; [|done|by rewrite Hx].
  rewrite Hx. do 3 f_equal. apply parse_instruction_sound in E as (_ & _ & pre & ->).
  rewrite !length_app. lia.
Qed.

(** The verdict on a buffer is stable under more input: a parsed
    instruction is parsed again with the same length, and a malformed buffer
    stays malformed, so reading in chunks cannot change what is parsed. *)
Lemma try_parse_extend buf more r :
  try_parse_instruction buf = r -> r <> Ok None -> try_parse_instruction (buf ++ more) = r.
Proof. apply try_parse_more. Qed.

Lemma try_parse_bounds buf i n :
  try_parse_instruction buf = Ok (Some (i, n)) -> (0 < n <= length buf)%nat.
Proof.
  unfold try_parse_instruction. destruct (parse_instruction buf) as [[j r]|[]] eqn:E; [|done..].
  intros [= _ <-]. apply parse_instruction_sound in E as (_ & ? & _). lia.
Qed.

(** What the parser accepts is well formed, and it consumes at least one
    byte and no more than the buffer holds, so the decode loop always
    progresses and never slices out of range. *)
Lemma try_parse_sound buf i n :
  try_parse_instruction buf = Ok (Some (i, n)) ->
  wf_instruction i /\ (0 < n <= length buf)%nat.
Proof.
  unfold try_parse_instruction. destruct (parse_instruction buf) as [[j r]|[]] eqn:E; [|done..].
  intros [= <- <-]. apply parse_instruction_sound in E as (? & ? & _). split; [done|lia].
Qed.
End codec.

(** ** Witnesses *)

Module Examples.
Import Reference.
Definition mouse : GuacInstruction := mk_instruction (str "mouse") [str "512"; str "384"; str "1"].
Definition cafe : GuacInstruction := mk_instruction (str "clipboard") [str "café"; str "a,b;c"].

Lemma cafe_wf : wf_instruction cafe.
Proof.
  split_and!; [split; [done|vm_compute; done]|repeat apply Forall_cons_2; [split; vm_compute; done..|constructor]|].
  unfold MAX_INSTRUCTION_ELEMENTS. simpl. lia.
Qed.

Lemma encode_parse_roundtrip_witness :
  instruction_encode cafe [] = str "9.clipboard,4.café,5.a,b;c;" /\
  try_parse_instruction (instruction_encode cafe [] ++ str "3.nop;") =
    Ok (Some (cafe, length (instruction_encode cafe []))).
Proof. split; [by vm_compute|]. apply (encode_parse_roundtrip cafe), cafe_wf. Defined.

Lemma encode_prefix_incomplete_witness :
  try_parse_instruction (str "9.clipboard,4.caf") = Ok None.
Proof.
  apply (encode_prefix_incomplete cafe _ (drop 17 (str "9.clipboard,4.café,5.a,b;c;")));
    [apply cafe_wf|by vm_compute|done].
Defined.

Lemma try_parse_extend_witness :
  try_parse_instruction (str "3.nop;" ++ str "5.mou") =
    Ok (Some (mk_instruction (str "nop") [], 6%nat)).
Proof. apply (try_parse_extend (str "3.nop;")); [by vm_compute|done]. Defined.

Lemma try_parse_sound_witness :
  wf_instruction mouse /\ (0 < 24 <= length (str "5.mouse,3.512,3.384,1.1;3.nop;"))%nat.
Proof. apply (try_parse_sound (str "5.mouse,3.512,3.384,1.1;3.nop;")). by vm_compute. Defined.
End Examples.
