(* ===== verification/Instruction.v ===== *)
(** * Typed instructions

    [crates/strata-session/src/protocol/instruction.rs]: the enums the
    session engine acts on, [ClientInstruction::from_wire] and
    [ServerInstruction::encode]. *)

From S2P Require Import Prelude Machine Text Crates Guacamole.

Local Open Scope Z_scope.

(** ** Client instructions *)

Inductive ClientInstruction : Type :=
| CSize (width height : Z) (dpi : option Z)
| CMouse (x y mask : Z)
| CKey (keysym : Z) (pressed : bool)
| CClipboard (stream : Z) (mimetype : bytes)
| CBlob (stream : Z) (data : bytes)
| CEnd (stream : Z)
| CSync (timestamp : Z)
| CGet (object : Z) (name : bytes)
| CPut (object stream : Z) (mimetype name : bytes)
| CAck (stream : Z) (message : bytes) (status : Z)
| CNop
| CDisconnect
| CUnhandled (opcode : bytes).

#[export] Instance ClientInstruction_eq_dec : EqDecision ClientInstruction.
Proof. solve_decision. Defined.

(** [required_arg], also written out in the [clipboard] and [blob] arms. *)
Definition required_arg (i : GuacInstruction) (op : bytes) (index : nat) : result WireError bytes :=
  ok_or (arg i index) (MissingArgument op index).

Definition from_wire (i : GuacInstruction) : result WireError ClientInstruction :=
  let op := opcode i in
  if decide (op = str "size") then
    width ← arg_int parse_u32 i 0;
    height ← arg_int parse_u32 i 1;
    Ok (CSize width height (arg i 2 ≫= parse_u32))
  else if decide (op = str "mouse") then
    x ← arg_int parse_i32 i 0;
    y ← arg_int parse_i32 i 1;
    mask ← arg_int parse_u8 i 2;
    Ok (CMouse x y mask)
  else if decide (op = str "key") then
    keysym ← arg_int parse_u32 i 0;
    pressed ← arg_int parse_u8 i 1;
    Ok (CKey keysym (negb (pressed =? 0)))
  else if decide (op = str "clipboard") then
    stream ← arg_int parse_i32 i 0;
    mimetype ← required_arg i (str "clipboard") 1;
    Ok (CClipboard stream mimetype)
  else if decide (op = str "blob") then
    stream ← arg_int parse_i32 i 0;
    data ← required_arg i (str "blob") 1;
    Ok (CBlob stream data)
  else if decide (op = str "end") then
    stream ← arg_int parse_i32 i 0;
    Ok (CEnd stream)
  else if decide (op = str "sync") then
    timestamp ← arg_int parse_i64 i 0;
    Ok (CSync timestamp)
  else if decide (op = str "get") then
    object ← arg_int parse_i32 i 0;
    name ← required_arg i (str "get") 1;
    Ok (CGet object name)
  else if decide (op = str "put") then
    object ← arg_int parse_i32 i 0;
    stream ← arg_int parse_i32 i 1;
    mimetype ← required_arg i (str "put") 2;
    name ← required_arg i (str "put") 3;
    Ok (CPut object stream mimetype name)
  else if decide (op = str "ack") then
    stream ← arg_int parse_i32 i 0;
    let message := default [] (arg i 1) in
    let status := match arg_int parse_i32 i 2 with Ok v => v | Err _ => 0 end in
    Ok (CAck stream message status)
  else if decide (op = str "nop") then Ok CNop
  else if decide (op = str "disconnect") then Ok CDisconnect
  else Ok (CUnhandled op).

(** The opcodes [from_wire] interprets. *)
Definition client_opcodes : list bytes :=
  str <$> ["size"; "mouse"; "key"; "clipboard"; "blob"; "end"; "sync"; "get"; "put"; "ack"; "nop";
           "disconnect"]%string.

(** Every integer field is in the range of its Rust type. *)
Definition client_typed (c : ClientInstruction) : Prop :=
  match c with
  | CSize w h d => is_u32 w /\ is_u32 h /\ from_option is_u32 True d
  | CMouse x y m => is_i32 x /\ is_i32 y /\ is_u8 m
  | CKey k _ => is_u32 k
  | CClipboard s _ | CBlob s _ | CEnd s => is_i32 s
  | CSync t => is_i64 t
  | CGet o _ => is_i32 o
  | CPut o s _ _ => is_i32 o /\ is_i32 s
  | CAck s _ st => is_i32 s /\ is_i32 st
  | CNop | CDisconnect | CUnhandled _ => True
  end.

(** ** Server instructions *)

Inductive ServerInstruction : Type :=
| SSize (layer width height : Z)
| SRect (layer x y width height : Z)
| SCfill (mask layer r g b a : Z)
| SImg (stream mask layer : Z) (mimetype : bytes) (x y : Z)
| SBlob (stream : Z) (data : bytes)
| SEnd (stream : Z)
| SSync (timestamp : Z)
| SCursor (hotspot_x hotspot_y src_layer src_x src_y src_width src_height : Z)
| SMsg (code : Z) (margs : list bytes)
| SError (text : bytes) (status : Z)
| SClipboard (stream : Z) (mimetype : bytes)
| SAudio (stream : Z) (mimetype : bytes)
| SCopy (src_layer src_x src_y width height mask dst_layer dst_x dst_y : Z)
| SFilesystem (object : Z) (name : bytes)
| SBody (object stream : Z) (mimetype name : bytes)
| SAck (stream : Z) (message : bytes) (status : Z)
| SUndefine (object : Z)
| SH264 (stream layer : Z) (keyframe : bool) (x y width height : Z).

#[export] Instance ServerInstruction_eq_dec : EqDecision ServerInstruction.
Proof. solve_decision. Defined.

(** The opcode and rendered arguments of each arm of [encode]. *)
Definition server_parts (s : ServerInstruction) : bytes * list bytes :=
  let n := int_to_string in
  match s with
  | SSize layer width height => (str "size", [n layer; n width; n height])
  | SRect layer x y width height => (str "rect", [n layer; n x; n y; n width; n height])
  | SCfill mask layer r g b a => (str "cfill", [n mask; n layer; n r; n g; n b; n a])
  | SImg stream mask layer mimetype x y =>
      (str "img", [n stream; n mask; n layer; mimetype; n x; n y])
  | SBlob stream data => (str "blob", [n stream; data])
  | SEnd stream => (str "end", [n stream])
  | SSync timestamp => (str "sync", [n timestamp])
  | SCursor hx hy sl sx sy sw sh => (str "cursor", [n hx; n hy; n sl; n sx; n sy; n sw; n sh])
  | SMsg code margs => (str "msg", n code :: margs)
  | SError text status => (str "error", [text; n status])
  | SClipboard stream mimetype => (str "clipboard", [n stream; mimetype])
  | SAudio stream mimetype => (str "audio", [n stream; mimetype])
  | SCopy sl sx sy w h mask dl dx dy =>
      (str "copy", [n sl; n sx; n sy; n w; n h; n mask; n dl; n dx; n dy])
  | SFilesystem object name => (str "filesystem", [n object; name])
  | SBody object stream mimetype name => (str "body", [n object; n stream; mimetype; name])
  | SAck stream message status => (str "ack", [n stream; message; n status])
  | SUndefine object => (str "undefine", [n object])
  | SH264 stream layer keyframe x y w h =>
      (str "h264", [n stream; n layer; str (if keyframe then "1" else "0"); n x; n y; n w; n h])
  end.

(** [encode_str_args]. *)
Definition encode_str_args (out : bytes) (op : bytes) (args : list bytes) : bytes :=
  encode_instruction out op args.

(** [ServerInstruction::encode]. *)
Definition server_encode (s : ServerInstruction) (out : bytes) : bytes :=
  let '(op, args) := server_parts s in encode_str_args out op args.

(** [ServerInstruction::to_bytes]. *)
Definition server_to_bytes (s : ServerInstruction) : bytes := server_encode s [].

(** Fields in range and text within the element limit. *)
Definition server_wf (s : ServerInstruction) : Prop :=
  match s with
  | SSize l w h => is_i32 l /\ is_u32 w /\ is_u32 h
  | SRect l x y w h => is_i32 l /\ is_i32 x /\ is_i32 y /\ is_u32 w /\ is_u32 h
  | SCfill m l r g b a => is_u8 m /\ is_i32 l /\ is_u8 r /\ is_u8 g /\ is_u8 b /\ is_u8 a
  | SImg s m l mt x y => is_i32 s /\ is_u8 m /\ is_i32 l /\ wf_element mt /\ is_i32 x /\ is_i32 y
  | SBlob s d => is_i32 s /\ wf_element d
  | SEnd s => is_i32 s
  | SSync t => is_i64 t
  | SCursor hx hy sl sx sy sw sh =>
      is_i32 hx /\ is_i32 hy /\ is_i32 sl /\ is_i32 sx /\ is_i32 sy /\ is_u32 sw /\ is_u32 sh
  | SMsg c a => is_i32 c /\ Forall wf_element a /\ (length a < 63)%nat
  | SError t s => wf_element t /\ is_i32 s
  | SClipboard s m | SAudio s m => is_i32 s /\ wf_element m
  | SCopy sl sx sy w h m dl dx dy =>
      is_i32 sl /\ is_i32 sx /\ is_i32 sy /\ is_u32 w /\ is_u32 h /\ is_u8 m /\
      is_i32 dl /\ is_i32 dx /\ is_i32 dy
  | SFilesystem o n => is_i32 o /\ wf_element n
  | SBody o s m n => is_i32 o /\ is_i32 s /\ wf_element m /\ wf_element n
  | SAck s m st => is_i32 s /\ wf_element m /\ is_i32 st
  | SUndefine o => is_i32 o
  | SH264 s l _ x y w h => is_i32 s /\ is_i32 l /\ is_i32 x /\ is_i32 y /\ is_u32 w /\ is_u32 h
  end.

(** The generic instruction a server instruction is on the wire. *)
Definition server_instruction (s : ServerInstruction) : GuacInstruction :=
  mk_instruction (server_parts s).1 (server_parts s).2.

(** What a client-side reader makes of a server instruction: the shared
    stream instructions keep their meaning, everything else is unhandled. *)
Definition client_view (s : ServerInstruction) : ClientInstruction :=
  match s with
  | SBlob stream data => CBlob stream data
  | SEnd stream => CEnd stream
  | SSync timestamp => CSync timestamp
  | SClipboard stream mimetype => CClipboard stream mimetype
  | SAck stream message status => CAck stream message status
  | s => CUnhandled (server_parts s).1
  end.

(** ** Lemmas *)

Lemma int_to_string_wf z : - dec_bound < z < dec_bound -> wf_element (int_to_string z).
Proof.
  intros Hz. split; [by apply int_to_string_utf8|].
  pose proof (int_to_string_length z Hz). pose proof (char_count_le (int_to_string z)).
  unfold MAX_ELEMENT_CHARS. lia.
Qed.

Lemma str_wf (b : bytes) : utf8_valid b = true -> (length b < 1000)%nat -> wf_element b.
Proof.
  intros. split; [done|]. pose proof (char_count_le b). unfold MAX_ELEMENT_CHARS. lia.
Qed.

Ltac wf_elements :=
  repeat match goal with
  | |- Forall wf_element [] => constructor
  | |- Forall wf_element (_ :: _) => apply Forall_cons_2
  | |- wf_element (int_to_string _) => apply int_to_string_wf, i64_dec_bound; tauto
  | |- wf_element (str _) => apply str_wf; [by vm_compute|by vm_compute; lia]
  end; try done.

Lemma server_instruction_wf s : server_wf s -> wf_instruction (server_instruction s).
Proof.
  intros Hs. unfold wf_instruction, server_instruction, MAX_INSTRUCTION_ELEMENTS.
  destruct s; cbn in Hs |- *; split_and!; wf_elements; try (simpl; lia); destruct_and?; wf_elements;
    try (simpl; lia).
  all: try by destruct keyframe; wf_elements.
Qed.

Lemma server_to_bytes_eq s :
  server_to_bytes s = instruction_encode (server_instruction s) [].
Proof. unfold server_to_bytes, server_encode. by destruct (server_parts s) eqn:E; unfold server_instruction; rewrite E. Qed.

Lemma arg_int_ok parse i index z s :
  arg i index = Some s -> parse s = Some z -> arg_int parse i index = Ok z.
Proof. unfold arg_int. intros -> Hp. simpl. by rewrite Hp. Qed.

Lemma arg_int_range lo hi i index z : arg_int (parse_int lo hi) i index = Ok z -> in_range lo hi z.
Proof.
  unfold arg_int. intros E. apply result_bind_Ok in E as (s & _ & E).
  apply ok_or_Ok in E. by apply parse_int_range in E.
Qed.

Lemma arg_int_err parse i index e :
  arg_int parse i index = Err e -> e = MissingArgument (opcode i) index \/ e = BadArgument (opcode i) index.
Proof.
  unfold arg_int, ok_or. destruct (arg i index); simpl; [|by intros [= <-]; left].
  destruct (parse l); [done|]. intros [= <-]. by right.
Qed.

Lemma required_arg_err i op index e :
  required_arg i op index = Err e -> e = MissingArgument op index.
Proof. unfold required_arg. destruct (arg i index); simpl; by intros [= <-]. Qed.

(** Step through the error monad of a hypothesis. *)
Ltac inv_result :=
  repeat match goal with
  | H : (_ ≫= _) = Ok _ |- _ => apply result_bind_Ok in H as (? & ? & H)
  | H : Ok _ = Ok _ |- _ => injection H as <-
  end.

(** ** Properties *)


(** [from_wire] refuses an instruction only for a missing or unreadable
    argument of that same instruction; an opcode it does not know is passed
    through as unhandled instead of ending the session. *)
Lemma from_wire_errors i :
  (opcode i ∉ client_opcodes -> from_wire i = Ok (CUnhandled (opcode i))) /\
  (forall e, from_wire i = Err e -> opcode i ∈ client_opcodes /\
     exists index, e = MissingArgument (opcode i) index \/ e = BadArgument (opcode i) index).
Proof.
  unfold from_wire. split.
  - intros Hn. repeat case_decide; try done; exfalso; apply Hn;
      match goal with H : opcode i = _ |- _ => rewrite H end; by vm_compute; set_solver.
  - intros e E.
    repeat case_decide; try done;
      (split; [match goal with H : opcode i = _ |- _ => rewrite H end; by vm_compute; set_solver|]);
    repeat match goal with
    | H : (?m ≫= _) = Err _ |- _ => let Em := fresh "Em" in destruct m eqn:Em; cbn [mbind result_bind] in H
    | H : arg_int _ _ _ = Err _ |- _ => apply arg_int_err in H
    | H : required_arg _ _ _ = Err _ |- _ => apply required_arg_err in H
    | H : Err _ = Err _ |- _ => injection H as <-
    end; try done; subst; eauto;
    match goal with H : opcode i = _ |- _ => rewrite H; eauto end.
Qed.

Section roundtrip.
Context `{Winnow}.

Lemma server_parse s rest :
  server_wf s ->
  try_parse_instruction (server_to_bytes s ++ rest) =
    Ok (Some (server_instruction s, length (server_to_bytes s))).
Proof.
  intros Hs. rewrite server_to_bytes_eq. rewrite instruction_encode_wire by by apply server_instruction_wf.
  apply wire_parse_Ok. by apply server_instruction_wf.
Qed.

(** Every server instruction with in-range fields and element-sized text
    reaches the reader exactly: its bytes parse to its opcode and rendered
    arguments, delimiters in text included, and nothing else is consumed. *)
Lemma server_encode_parse s rest :
  server_wf s ->
  try_parse_instruction (server_to_bytes s ++ rest) =
    Ok (Some (server_instruction s, length (server_to_bytes s))).
Proof. apply server_parse. Qed.
End roundtrip.

Lemma from_wire_int_i32 z s : is_i32 z -> s = int_to_string z -> parse_i32 s = Some z.
Proof. intros Hz ->. apply parse_int_to_string; [done|]. apply i64_dec_bound; tauto. Qed.

Lemma from_wire_int_i64 z s : is_i64 z -> s = int_to_string z -> parse_i64 s = Some z.
Proof. intros Hz ->. apply parse_int_to_string; [done|]. apply i64_dec_bound; tauto. Qed.

(** The stream instructions both directions share ([blob], [end], [sync],
    [clipboard], [ack]) mean the same to the client reader with the same
    fields, and no other server instruction is mistaken for input. *)
Lemma server_client_view s :
  server_wf s -> (forall l w h, s <> SSize l w h) ->
  from_wire (server_instruction s) = Ok (client_view s).
Proof.
  intros Hs Hns. destruct s; simpl in Hs; unfold from_wire, server_instruction;
    cbn [server_parts opcode args fst snd]; repeat (case_decide as Hd; [try discriminate Hd|]); try done.
  all: try by exfalso; eapply Hns.
  all: rewrite ?(arg_int_ok parse_i32 _ 0 stream (int_to_string stream)), ?(arg_int_ok parse_i64 _ 0 timestamp (int_to_string timestamp));
    simpl; try done; try (apply from_wire_int_i32; tauto); try (apply from_wire_int_i64; tauto).
  rewrite (arg_int_ok parse_i32 _ 2 status (int_to_string status)); [done|done|].
  apply from_wire_int_i32; tauto.
Qed.

Module InstructionExamples.
Import Reference.


Definition refusal : ServerInstruction := SError (str "target said: no; try again, later.") 519.

Lemma refusal_wf : server_wf refusal.
Proof. split; [apply str_wf; [by vm_compute|by vm_compute; lia]|by vm_compute]. Qed.

Lemma server_encode_parse_witness :
  try_parse_instruction (server_to_bytes refusal ++ str "3.nop;") =
    Ok (Some (server_instruction refusal, length (server_to_bytes refusal))).
Proof. apply (server_encode_parse refusal), refusal_wf. Defined.

Lemma server_client_view_witness :
  from_wire (server_instruction (SAck 3 (str "no") 768)) = Ok (CAck 3 (str "no") 768).
Proof.
  apply (server_client_view (SAck 3 (str "no") 768)); [|done].
  split; [by vm_compute|]. split; [apply str_wf; [by vm_compute|by vm_compute; lia]|by vm_compute].
Defined.
End InstructionExamples.
