(* ===== verification/Decoder.v ===== *)
(** * The buffered client decoder

    [crates/strata-session/src/transport/decoder.rs]: [GuacDecoder] turns a
    byte stream, read in arbitrary chunks, into client instructions. *)

From S2P Require Import Prelude Machine Text Crates Guacamole Instruction.

Definition DEFAULT_DECODE_LIMIT : nat := Z.to_nat (16 * 1024 * 1024).

Record GuacDecoder : Type := mk_decoder { buf : bytes; limit : nat }.

(** [GuacDecoder::new]. *)
Definition decoder_new (limit : nat) : GuacDecoder := mk_decoder [] limit.

(** [GuacDecoder::default]. *)
Definition decoder_default : GuacDecoder := decoder_new DEFAULT_DECODE_LIMIT.

Definition extend (d : GuacDecoder) (bs : bytes) : GuacDecoder := mk_decoder (buf d ++ bs) (limit d).

Definition buffered (d : GuacDecoder) : nat := length (buf d).

Section decoder.
Context `{Winnow}.

(** [next_instruction]: the result and the decoder after the call.  A failed
    call leaves the buffer as it was. *)
Definition next_instruction (d : GuacDecoder)
  : result WireError (option ClientInstruction) * GuacDecoder :=
  match try_parse_instruction (buf d) with
  | Err e => (Err e, d)
  | Ok None => if limit d <? length (buf d) then (Err (BufferOverflow (limit d)), d) else (Ok None, d)
  | Ok (Some (raw, consumed)) =>
      match from_wire raw with
      | Err e => (Err e, d)
      | Ok decoded => (Ok (Some decoded), mk_decoder (drop consumed (buf d)) (limit d))
      end
  end.

(** The caller's [while let Some(instruction) = decoder.next_instruction()?]:
    the instructions, the error that stopped the loop if any, and the decoder
    it leaves. *)
Fixpoint drain (fuel : nat) (d : GuacDecoder)
  : list ClientInstruction * option WireError * GuacDecoder :=
  match fuel with
  | O => ([], None, d)
  | S fuel =>
      match next_instruction d with
      | (Ok None, d') => ([], None, d')
      | (Err e, d') => ([], Some e, d')
      | (Ok (Some c), d') => let '(cs, e, d'') := drain fuel d' in (c :: cs, e, d'')
      end
  end.

(** Every instruction takes at least one byte, so this much fuel is enough
    ([drain_all_stops]). *)
Definition drain_all (d : GuacDecoder) : list ClientInstruction * option WireError * GuacDecoder :=
  drain (S (length (buf d))) d.

(** Read chunks one after the other, draining after each. *)
Fixpoint feed (d : GuacDecoder) (chunks : list bytes)
  : list ClientInstruction * option WireError * GuacDecoder :=
  match chunks with
  | [] => ([], None, d)
  | c :: chunks =>
      match drain_all (extend d c) with
      | (cs, Some e, d') => (cs, Some e, d')
      | (cs, None, d') => let '(cs', e, d'') := feed d' chunks in (cs ++ cs', e, d'')
      end
  end.

(** ** Lemmas *)

Lemma next_instruction_progress d c d' :
  next_instruction d = (Ok (Some c), d') ->
  (length (buf d') < length (buf d)) /\ limit d' = limit d.
Proof.
  unfold next_instruction. destruct (try_parse_instruction (buf d)) as [[[raw n]|]|] eqn:E; [|by case_match|done].
  destruct (from_wire raw); [|done]. intros [= <- <-]. apply try_parse_bounds in E. len.
Qed.

(** Bytes that arrive later do not change the instruction that is already
    complete. *)
Lemma next_instruction_extend d c d' more :
  next_instruction d = (Ok (Some c), d') ->
  next_instruction (extend d more) = (Ok (Some c), extend d' more).
Proof.
  unfold next_instruction. destruct (try_parse_instruction (buf d)) as [[[raw n]|]|] eqn:E; [|by case_match|done].
  destruct (from_wire raw) eqn:Ef; [|done]. intros [= <- <-]. pose proof E as E'.
  apply try_parse_more with (more := more) in E'; [|done]. unfold extend at 1; cbn [buf].
  rewrite E', Ef. apply try_parse_bounds in E. unfold extend. cbn. by rewrite drop_app_le by lia.
Qed.

Lemma drain_fuel f1 : forall f2 d, length (buf d) < f1 -> length (buf d) < f2 -> drain f1 d = drain f2 d.
Proof.
  induction f1 as [|f1 IH]; intros f2 d H1 H2; [lia|]. destruct f2 as [|f2]; [lia|]. cbn [drain].
  destruct (next_instruction d) as [[[c|]|e] d'] eqn:E; [|done..].
  apply next_instruction_progress in E as [? _]. by rewrite (IH f2) by lia.
Qed.

Lemma drain_all_step d :
  drain_all d =
  match next_instruction d with
  | (Ok None, d') => ([], None, d')
  | (Err e, d') => ([], Some e, d')
  | (Ok (Some c), d') => let '(cs, e, d'') := drain_all d' in (c :: cs, e, d'')
  end.
Proof.
  unfold drain_all at 1. cbn [drain]. destruct (next_instruction d) as [[[c|]|e] d'] eqn:E; [|done..].
  apply next_instruction_progress in E as [? _]. unfold drain_all. by rewrite (drain_fuel _ (S (length (buf d')))) by lia.
Qed.

Lemma drain_all_ind (P : GuacDecoder -> Prop) :
  (forall d, (forall c d', next_instruction d = (Ok (Some c), d') -> P d') -> P d) -> forall d, P d.
Proof.
  intros Hstep d. induction d as [d IH] using (induction_ltof1 _ (fun d => length (buf d))). unfold ltof in IH.
  apply Hstep. intros c d' E. apply IH. apply next_instruction_progress in E. tauto.
Qed.

Lemma next_instruction_None d d' :
  next_instruction d = (Ok None, d') -> d' = d /\ length (buf d) <= limit d.
Proof.
  unfold next_instruction. destruct (try_parse_instruction (buf d)) as [[[raw n]|]|]; [by case_match| |done].
  destruct (limit d <? length (buf d)) eqn:E; [done|]. intros [= <-]. by b2p.
Qed.

Lemma next_instruction_Err d e d' : next_instruction d = (Err e, d') -> d' = d.
Proof.
  unfold next_instruction. destruct (try_parse_instruction (buf d)) as [[[raw n]|]|]; [..|by intros [=]];
  case_match; by intros [=].
Qed.

(** Draining a buffer and then the rest is draining both together. *)
Lemma drain_all_extend more : forall d cs d',
  drain_all d = (cs, None, d') ->
  drain_all (extend d more) = let '(cs', e, d'') := drain_all (extend d' more) in (cs ++ cs', e, d'').
Proof.
  apply (drain_all_ind (fun d => forall cs d', drain_all d = (cs, None, d') ->
    drain_all (extend d more) = let '(cs', e, d'') := drain_all (extend d' more) in (cs ++ cs', e, d''))).
  intros d IH cs d' E. rewrite drain_all_step in E.
  destruct (next_instruction d) as [[[c|]|e] d1] eqn:En; [|injection E as <- <-|done].
  - destruct (drain_all d1) as [[cs1 e1] d2] eqn:E1. injection E as <- -> ->.
    rewrite drain_all_step, (next_instruction_extend _ _ _ _ En), (IH _ _ eq_refl _ _ E1).
    by destruct (drain_all (extend d' more)) as [[??]?].
  - apply next_instruction_None in En as [-> _]. by destruct (drain_all (extend d more)) as [[??]?].
Qed.

(** A drained decoder has nothing more to give. *)
Lemma drain_all_idle : forall d cs d', drain_all d = (cs, None, d') -> drain_all d' = ([], None, d').
Proof.
  apply (drain_all_ind (fun d => forall cs d', drain_all d = (cs, None, d') -> drain_all d' = ([], None, d'))).
  intros d IH cs d' E. rewrite drain_all_step in E.
  destruct (next_instruction d) as [[[c|]|e] d2] eqn:En; [|injection E as <- <-|done].
  - destruct (drain_all d2) as [[??]?] eqn:E2. injection E as <- -> ->. by eapply IH.
  - pose proof En as [-> _]%next_instruction_None. by rewrite drain_all_step, En.
Qed.

(** ** Properties *)

(** Chunking does not matter: when reading a stream in pieces decodes
    without an error, reading it in one piece decodes the same instructions
    and leaves the same decoder. *)
Lemma decoder_chunking d chunks cs d' :
  feed d chunks = (cs, None, d') -> chunks <> [] -> feed d [concat chunks] = (cs, None, d').
Proof.
  revert d cs d'. induction chunks as [|c chunks IH]; intros d cs d' E Hne; [done|].
  cbn [feed concat] in *. destruct (drain_all (extend d c)) as [[cs1 [e1|]] d1] eqn:E1; [done|].
  assert (extend d (c ++ concat chunks) = extend (extend d c) (concat chunks)) as ->
    by (unfold extend; cbn; by rewrite (assoc_L (++))).
  rewrite (drain_all_extend _ _ _ _ E1).
  destruct (feed d1 chunks) as [[cs2 e2] d2] eqn:E2. injection E as <- -> ->.
  destruct (decide (chunks = [])) as [->|Hc].
  - cbn in E2. injection E2 as <- <-. cbn [concat].
    assert (extend d1 [] = d1) as -> by (destruct d1; unfold extend; cbn; by rewrite app_nil_r).
    rewrite (drain_all_idle _ _ _ E1). by rewrite !app_nil_r.
  - pose proof (IH _ _ _ E2 Hc) as E3.
    destruct (drain_all (extend d1 (concat chunks))) as [[cs3 [e3|]] d3]; [done|].
    injection E3 as <- <-. by rewrite !app_nil_r.
Qed.

(** The loop always ends: after draining, either an error stopped it or
    the decoder has no complete instruction left and holds at most [limit]
    unparsed bytes. *)
Lemma drain_all_stops d :
  let '(_, e, d') := drain_all d in
  match e with
  | Some e => next_instruction d' = (Err e, d')
  | None => next_instruction d' = (Ok None, d') /\ buffered d' <= limit d'
  end.
Proof.
  revert d. apply drain_all_ind. intros d IH. rewrite drain_all_step.
  destruct (next_instruction d) as [[[c|]|e] d1] eqn:En.
  - specialize (IH _ _ eq_refl). by destruct (drain_all d1) as [[??]?].
  - pose proof En as [-> ?]%next_instruction_None. done.
  - by pose proof En as ->%next_instruction_Err.
Qed.

(** A refused instruction is never skipped: after an error every later
    call reports that same error again, even when more bytes arrive, unless
    the error was only that the buffer limit was reached. *)
Lemma decoder_error_sticks d e d' more :
  next_instruction d = (Err e, d') -> e <> BufferOverflow (limit d) ->
  next_instruction (extend d' more) = (Err e, extend d' more).
Proof.
  intros E He. pose proof E as ->%next_instruction_Err. unfold next_instruction in *.
  destruct (try_parse_instruction (buf d)) as [[[raw n]|]|e'] eqn:Ep.
  - apply try_parse_more with (more := more) in Ep; [|done]. cbn [buf extend]. rewrite Ep.
    destruct (from_wire raw); [done|]. by injection E as <-.
  - by destruct (limit d <? length (buf d)); [injection E as <-|].
  - apply try_parse_more with (more := more) in Ep; [|done]. cbn [buf extend]. rewrite Ep. by injection E as <-.
Qed.
End decoder.

Module DecoderExamples.
Import Reference.

Lemma decoder_chunking_witness :
  feed (decoder_new 64) [str "5.mouse,3.512,3.384,1.1;3.nop;"] =
    ([CMouse 512 384 1; CNop], None, decoder_new 64).
Proof.
  apply (decoder_chunking (decoder_new 64) [str "5.mou"; str "se,3.512,3.384,1.1;3.n"; str "op;"]);
    [by vm_compute|done].
Defined.

Lemma decoder_error_sticks_witness :
  next_instruction (extend (mk_decoder (str "5.mouse,1.x,1.0,1.0;") 64) (str "3.nop;")) =
    (Err (BadArgument (str "mouse") 0), extend (mk_decoder (str "5.mouse,1.x,1.0,1.0;") 64) (str "3.nop;")).
Proof.
  apply (decoder_error_sticks (mk_decoder (str "5.mouse,1.x,1.0,1.0;") 64)); [by vm_compute|done].
Defined.
End DecoderExamples.
