(* ===== verification/Protocol.v ===== *)
(** * strata-protocol: errors, version, handshake frames and media envelopes

    [crates/strata-protocol/src/errors.rs], [versioning.rs], [frame.rs] and
    [media.rs].  An error carries the fixed part of its message; values
    interpolated into messages are left out. *)

From S2P Require Import Prelude Machine Text Crates.

Local Open Scope Z_scope.

Inductive ProtocolError : Type :=
| PMalformed (what : string)
| VersionMismatch (peer ours : bytes)
| BadMac
| AuthFailed (why : bytes)
| Skew
| Replay
| InvalidResumeToken.

#[export] Instance ProtocolError_eq_dec : EqDecision ProtocolError.
Proof. solve_decision. Defined.

Definition PROTOCOL_VERSION_STR : bytes := str "strata-link/1.0".

(** ** Length-prefixed JSON frames *)

Definition MAX_FRAME_PAYLOAD : nat := Z.to_nat (64 * 1024).

(** The outcome of each I/O step of a writer; the bytes of a failed step are
    not tracked. *)
Record WriteIO : Type := { len_ok : bool; body_ok : bool; flush_ok : bool }.

Definition write_ok : WriteIO := {| len_ok := true; body_ok := true; flush_ok := true |}.

(** [AsyncReadExt::read_exact]: the bytes read and the rest of the stream;
    [None] when the stream ends first. *)
Definition read_exact (n : nat) (stream : bytes) : option (bytes * bytes) :=
  if (n <=? length stream)%nat then Some (take n stream, drop n stream) else None.

Section frames.
Context {T : Type} `{Json T}.

(** [write_frame]: the result and what was appended to the stream [w]. *)
Definition write_frame (io : WriteIO) (w : bytes) (msg : T) : result ProtocolError unit * bytes :=
  match json_to_vec msg with
  | None => (Err (PMalformed "serialize"), w)
  | Some body =>
      if (MAX_FRAME_PAYLOAD <? length body)%nat then (Err (PMalformed "frame too large"), w)
      else
        let len := u32_to_be (wrap_u 32 (Z.of_nat (length body))) in
        if negb (len_ok io) then (Err (PMalformed "write len"), w)
        else if negb (body_ok io) then (Err (PMalformed "write body"), w ++ len)
        else if negb (flush_ok io) then (Err (PMalformed "flush"), w ++ len ++ body)
        else (Ok tt, w ++ len ++ body)
  end.

(** [read_frame]: the message and the rest of the stream [r]. *)
Definition read_frame (r : bytes) : result ProtocolError T * bytes :=
  match read_exact 4 r with
  | None => (Err (PMalformed "read len"), [])
  | Some (len_buf, r) =>
      let len := u32_from_be len_buf in
      if Z.of_nat MAX_FRAME_PAYLOAD <? len then (Err (PMalformed "incoming frame too large"), r)
      else match read_exact (Z.to_nat len) r with
      | None => (Err (PMalformed "read body"), [])
      | Some (body, r) => (ok_or (json_from_slice body) (PMalformed "deserialize"), r)
      end
  end.

(** The bytes of one frame. *)
Definition frame (body : bytes) : bytes := u32_to_be (Z.of_nat (length body)) ++ body.

Lemma frame_length_u32 (body : bytes) : (length body <= MAX_FRAME_PAYLOAD)%nat -> is_u32 (Z.of_nat (length body)).
Proof. unfold in_range, u32_max, MAX_FRAME_PAYLOAD. lia. Qed.

Lemma write_frame_ok w msg body :
  json_to_vec msg = Some body -> (length body <= MAX_FRAME_PAYLOAD)%nat ->
  write_frame write_ok w msg = (Ok tt, w ++ frame body).
Proof.
  intros Hb Hl. unfold write_frame. rewrite Hb. take_false (MAX_FRAME_PAYLOAD <? length body)%nat.
  cbn [negb len_ok body_ok flush_ok write_ok]. unfold frame, wrap_u. do 3 f_equal.
  apply frame_length_u32 in Hl. unfold in_range, u32_max in Hl. by rewrite Z.mod_small by lia.
Qed.

Lemma read_frame_ok msg body rest :
  json_to_vec msg = Some body -> (length body <= MAX_FRAME_PAYLOAD)%nat ->
  read_frame (frame body ++ rest) = (Ok msg, rest).
Proof.
  intros Hb Hl. pose proof (frame_length_u32 _ Hl) as Hu. unfold read_frame, frame, read_exact.
  rewrite <- (assoc_L (++)). assert (4 <= length (u32_to_be (Z.of_nat (length body)) ++ body ++ rest))%nat by len.
  take_true (4 <=? length (u32_to_be (Z.of_nat (length body)) ++ body ++ rest))%nat.
  rewrite take_app_length', drop_app_length' by (by rewrite to_be_length_4).
  rewrite u32_from_to_be by done.
  take_false (Z.of_nat MAX_FRAME_PAYLOAD <? Z.of_nat (length body)). rewrite Nat2Z.id.
  assert (length body <= length (body ++ rest))%nat by len.
  take_true (length body <=? length (body ++ rest))%nat.
  rewrite take_app_length, drop_app_length. by rewrite (json_roundtrip msg body Hb).
Qed.

(** A handshake message whose serialisation fits the cap is written as
    one frame, and reading a stream that starts with that frame gives the
    message back and leaves exactly the bytes that follow. *)
Lemma frame_roundtrip msg body w rest :
  json_to_vec msg = Some body -> (length body <= MAX_FRAME_PAYLOAD)%nat ->
  exists f, write_frame write_ok w msg = (Ok tt, w ++ f) /\ read_frame (f ++ rest) = (Ok msg, rest).
Proof. intros. exists (frame body). split; [by apply write_frame_ok|by apply read_frame_ok]. Qed.

(** The cap holds in both directions: an oversized message writes
    nothing, and a length prefix above the cap is refused before a single
    body byte is read, whatever follows it. *)
Lemma frame_cap io w msg body len rest :
  json_to_vec msg = Some body -> (MAX_FRAME_PAYLOAD < length body)%nat ->
  is_u32 len -> Z.of_nat MAX_FRAME_PAYLOAD < len ->
  write_frame io w msg = (Err (PMalformed "frame too large"), w) /\
  read_frame (u32_to_be len ++ rest) = (Err (PMalformed "incoming frame too large"), rest).
Proof.
  intros Hb Hl Hu Hlen. split.
  - unfold write_frame. rewrite Hb. by take_true (MAX_FRAME_PAYLOAD <? length body)%nat.
  - unfold read_frame, read_exact. assert (4 <= length (u32_to_be len ++ rest))%nat by len.
    take_true (4 <=? length (u32_to_be len ++ rest))%nat.
    rewrite take_app_length', drop_app_length', u32_from_to_be by (done || by rewrite to_be_length_4).
    by take_true (Z.of_nat MAX_FRAME_PAYLOAD <? len).
Qed.
End frames.

(** ** Media envelopes *)

Definition MEDIA_MAGIC : Z := 170.
Definition MEDIA_HEADER_LEN : nat := 14.
Definition MAX_MEDIA_PAYLOAD : Z := 16 * 1024 * 1024.

Inductive StreamType : Type := H264Video | OpusAudio | RawTerminal | ClipboardSync.

#[export] Instance StreamType_eq_dec : EqDecision StreamType.
Proof. solve_decision. Defined.

Definition as_u8 (t : StreamType) : Z :=
  match t with H264Video => 1 | OpusAudio => 2 | RawTerminal => 3 | ClipboardSync => 4 end.

Definition from_u8 (v : Z) : result ProtocolError StreamType :=
  match v with
  | 1 => Ok H264Video
  | 2 => Ok OpusAudio
  | 3 => Ok RawTerminal
  | 4 => Ok ClipboardSync
  | _ => Err (PMalformed "unknown media stream type")
  end.

Record MediaEnvelope : Type := mk_envelope {
  stream_type : StreamType;
  timestamp_ms : Z;
  payload : bytes
}.

#[export] Instance MediaEnvelope_eq_dec : EqDecision MediaEnvelope.
Proof. solve_decision. Defined.

(** [MediaEnvelope::new]. *)
Definition media_new (t : StreamType) (ts : Z) (payload : bytes) : result ProtocolError MediaEnvelope :=
  if MAX_MEDIA_PAYLOAD <? Z.of_nat (length payload) then Err (PMalformed "media payload too large")
  else Ok (mk_envelope t ts payload).

Definition encoded_len (e : MediaEnvelope) : nat := (MEDIA_HEADER_LEN + length (payload e))%nat.

(** [MediaEnvelope::encode]. *)
Definition media_encode (e : MediaEnvelope) (out : bytes) : bytes :=
  out ++ [MEDIA_MAGIC] ++ [as_u8 (stream_type e)] ++ u64_to_be (timestamp_ms e) ++
  u32_to_be (wrap_u 32 (Z.of_nat (length (payload e)))) ++ payload e.

(** [MediaEnvelope::to_bytes]. *)
Definition media_to_bytes (e : MediaEnvelope) : bytes := media_encode e [].

(** [MediaEnvelope::decode].  The indexing is in range because the header
    length is checked first. *)
Definition media_decode (buf : bytes) : result ProtocolError (option (MediaEnvelope * nat)) :=
  if (length buf <? MEDIA_HEADER_LEN)%nat then Ok None
  else if negb (nth 0 buf 0 =? MEDIA_MAGIC) then Err (PMalformed "bad media magic")
  else
    t ← from_u8 (nth 1 buf 0);
    let ts := u64_from_be (take 8 (drop 2 buf)) in
    let len := u32_from_be (take 4 (drop 10 buf)) in
    if MAX_MEDIA_PAYLOAD <? len then Err (PMalformed "declared media payload too large")
    else
      let end_ := (MEDIA_HEADER_LEN + Z.to_nat len)%nat in
      if (length buf <? end_)%nat then Ok None
      else Ok (Some (mk_envelope t ts (take (Z.to_nat len) (drop MEDIA_HEADER_LEN buf)), end_)).

Definition media_wf (e : MediaEnvelope) : Prop :=
  is_u64 (timestamp_ms e) /\ Z.of_nat (length (payload e)) <= MAX_MEDIA_PAYLOAD.

Lemma from_as_u8 t : from_u8 (as_u8 t) = Ok t.
Proof. by destruct t. Qed.

Lemma as_from_u8 v t : from_u8 v = Ok t -> as_u8 t = v.
Proof. unfold from_u8. repeat case_match; by intros [= <-]. Qed.

Lemma media_len_u32 e : media_wf e -> is_u32 (Z.of_nat (length (payload e))).
Proof. unfold media_wf, in_range, u32_max, MAX_MEDIA_PAYLOAD. lia. Qed.

(** The header of an encoded envelope, followed by [k]: the verdict depends
    on how much of the payload [k] holds. *)
Lemma media_header e k :
  media_wf e ->
  media_decode (MEDIA_MAGIC :: as_u8 (stream_type e) :: u64_to_be (timestamp_ms e) ++
                u32_to_be (Z.of_nat (length (payload e))) ++ k) =
    if (length k <? length (payload e))%nat then Ok None
    else Ok (Some (mk_envelope (stream_type e) (timestamp_ms e) (take (length (payload e)) k),
                   encoded_len e)).
Proof.
  intros He. pose proof (media_len_u32 e He) as Hu. destruct He as [Hts Hp].
  set (ts := u64_to_be (timestamp_ms e)). set (ln := u32_to_be (Z.of_nat (length (payload e)))).
  assert (length ts = 8%nat) as Ht by (unfold ts; len).
  assert (length ln = 4%nat) as Hn by (unfold ln; len).
  unfold media_decode, MEDIA_HEADER_LEN, encoded_len, MEDIA_HEADER_LEN.
  set (buf := MEDIA_MAGIC :: _).
  assert (length buf = 14 + length k)%nat as Hlen by (unfold buf; len).
  take_false (length buf <? 14)%nat. change (nth 0 buf 0) with MEDIA_MAGIC.
  change (nth 1 buf 0) with (as_u8 (stream_type e)). cbn [Z.eqb Pos.eqb MEDIA_MAGIC negb].
  rewrite from_as_u8. cbn [mbind result_bind].
  change (drop 2 buf) with (ts ++ ln ++ k). change (drop 10 buf) with (drop 8 (ts ++ ln ++ k)).
  change (drop 14 buf) with (drop (8 + 4) (ts ++ ln ++ k)). rewrite <- drop_drop.
  rewrite (take_app_length' ts), !(drop_app_length' ts), (take_app_length' ln), (drop_app_length' ln) by done.
  unfold ts, ln. rewrite u64_from_to_be, u32_from_to_be by done.
  take_false (MAX_MEDIA_PAYLOAD <? Z.of_nat (length (payload e))). rewrite Nat2Z.id, Hlen.
  destruct (length k <? length (payload e))%nat eqn:E; b2p.
  - by take_true (14 + length k <? 14 + length (payload e))%nat.
  - by take_false (14 + length k <? 14 + length (payload e))%nat.
Qed.

Lemma media_to_bytes_eq e :
  media_wf e ->
  media_to_bytes e = MEDIA_MAGIC :: as_u8 (stream_type e) :: u64_to_be (timestamp_ms e) ++
    u32_to_be (Z.of_nat (length (payload e))) ++ payload e.
Proof.
  intros He. apply media_len_u32 in He. unfold in_range, u32_max in He.
  unfold media_to_bytes, media_encode, wrap_u. by rewrite Z.mod_small by lia.
Qed.

Lemma media_to_bytes_length e : length (media_to_bytes e) = encoded_len e.
Proof. unfold media_to_bytes, media_encode, encoded_len, MEDIA_HEADER_LEN. len. Qed.

Lemma media_decode_encode e rest :
  media_wf e -> media_decode (media_to_bytes e ++ rest) = Ok (Some (e, encoded_len e)).
Proof.
  intros He. rewrite media_to_bytes_eq by done. cbn [app].
  rewrite <- !(assoc_L (++)), media_header by done.
  assert (length (payload e) <= length (payload e ++ rest))%nat by len.
  take_false (length (payload e ++ rest) <? length (payload e))%nat. rewrite take_app_length. by destruct e.
Qed.

(** An envelope built by the constructor encodes to exactly
    [encoded_len] bytes, and decoding a buffer that starts with them gives
    the envelope back, whatever follows. *)
Lemma media_roundtrip t ts p e rest :
  media_new t ts p = Ok e -> is_u64 ts ->
  length (media_to_bytes e) = encoded_len e /\
  media_decode (media_to_bytes e ++ rest) = Ok (Some (e, encoded_len e)).
Proof.
  unfold media_new. case_test. intros [= <-] Hts. b2p.
  split; [apply media_to_bytes_length|]. by apply media_decode_encode.
Qed.

(** A longer buffer with the same beginning gets the same verdict once the
    verdict is not "need more". *)
Lemma media_decode_app buf k r :
  media_decode buf = r -> r <> Ok None -> media_decode (buf ++ k) = r.
Proof.
  unfold media_decode, MEDIA_HEADER_LEN. intros <-.
  destruct (length buf <? 14)%nat eqn:E; [done|]. b2p.
  assert (14 <= length (buf ++ k))%nat by len. take_false (length (buf ++ k) <? 14)%nat.
  rewrite !app_nth1, !drop_app_le, !take_app_le by len.
  destruct (negb _); [done|]. destruct (from_u8 _) as [t|]; [|done]. cbn [mbind result_bind].
  case_test; [done|]. set (len := u32_from_be _) in *.
  destruct (length buf <? 14 + Z.to_nat len)%nat eqn:E2; [done|]. b2p. intros _.
  assert (14 + Z.to_nat len <= length (buf ++ k))%nat by len.
  take_false (length (buf ++ k) <? 14 + Z.to_nat len)%nat.
  by rewrite take_app_le by len.
Qed.

(** Every strict prefix of an encoded envelope asks for more bytes and
    is never an error, so a reader that accumulates the stream cannot fail
    on a frame boundary. *)
Lemma media_prefix_incomplete e pre suf :
  media_wf e -> media_to_bytes e = pre ++ suf -> suf <> [] -> media_decode pre = Ok None.
Proof.
  intros He E Hs. destruct (media_decode pre) as [[[e' n]|]|err] eqn:Ed; [|done|];
    pose proof (media_decode_app pre suf _ Ed ltac:(done)) as Hd; rewrite <- E, media_to_bytes_eq,
    media_header in Hd by done; rewrite Nat.ltb_irrefl in Hd; [|done].
  injection Hd as He' Hn. assert (n <= length pre)%nat as Hle.
  { clear -Ed. unfold media_decode in Ed. do 2 case_test. apply result_bind_Ok in Ed as (? & _ & Ed).
    do 2 case_test. injection Ed as _ <-. b2p. unfold MEDIA_HEADER_LEN in *. lia. }
  pose proof (media_to_bytes_length e) as Hl. rewrite E in Hl. destruct suf; [done|]. len.
Qed.

(** What the decoder accepts is well formed and is exactly what the
    encoder would have written: re-encoding reproduces the consumed bytes,
    so decoding is canonical. *)
Lemma media_decode_canonical buf e n :
  bytes_ok buf -> media_decode buf = Ok (Some (e, n)) ->
  media_wf e /\ (n <= length buf)%nat /\ media_to_bytes e = take n buf.
Proof.
  intros Hok Ed. unfold media_decode, MEDIA_HEADER_LEN in Ed. case_test.
  destruct (negb _) eqn:Em; [done|]. apply result_bind_Ok in Ed as (t & Et & Ed). case_test.
  case_test. b2p. injection Ed as <- Hn. apply as_from_u8 in Et.
  destruct buf as [|m [|ty buf]]; [simpl in *; lia..|]. simpl in Em, Et.
  rewrite !Forall_cons in Hok. destruct Hok as (_ & _ & Hok).
  change (drop 2 (m :: ty :: buf)) with buf in *. change (drop 10 (m :: ty :: buf)) with (drop 8 buf) in *.
  change (drop 14 (m :: ty :: buf)) with (drop 12 buf) in *.
  assert (12 <= length buf)%nat by len.
  set (tsb := take 8 buf) in *. set (lnb := take 4 (drop 8 buf)) in *.
  assert (length tsb = 8%nat) as Htl by (unfold tsb; rewrite length_take; lia).
  assert (length lnb = 4%nat) as Hll by (unfold lnb; rewrite length_take, length_drop; lia).
  assert (bytes_ok tsb) as Hts by by apply Forall_take.
  assert (bytes_ok lnb) as Hln by by apply Forall_take, Forall_drop.
  pose proof (from_be_bound _ Hts) as Bt. pose proof (from_be_bound _ Hln) as Bl.
  rewrite Htl in Bt. rewrite Hll in Bl. unfold u32_from_be, u64_from_be in *.
  assert (length (take (Z.to_nat (from_be lnb)) (drop 12 buf)) = Z.to_nat (from_be lnb)) as Hpl
    by (rewrite length_take, length_drop; simpl in *; lia).
  assert (n = 2 + (8 + (4 + Z.to_nat (from_be lnb))))%nat as -> by (rewrite <- Hn; reflexivity).
  assert (media_wf (mk_envelope t (from_be tsb) (take (Z.to_nat (from_be lnb)) (drop 12 buf)))) as Hwf.
  { split; cbn [timestamp_ms payload]; [unfold in_range, u64_max; simpl in Bt; lia|rewrite Hpl; lia]. }
  split_and!; [done|simpl in *; lia|]. rewrite media_to_bytes_eq by done. cbn [payload stream_type timestamp_ms].
  rewrite Hpl, Z2Nat.id by lia. subst m ty.
  assert (u64_to_be (from_be tsb) = tsb) as -> by (unfold u64_to_be; rewrite <- Htl; by apply to_from_be).
  assert (u32_to_be (from_be lnb) = lnb) as -> by (unfold u32_to_be; rewrite <- Hll; by apply to_from_be).
  change (take (2 + ?x) (?a :: ?b :: ?l)) with (a :: b :: take x l). do 2 f_equal.
  rewrite take_add. f_equal. by rewrite take_add, drop_drop.
Qed.

(** ** Witnesses *)

Module ProtocolExamples.
Import Reference.
Definition video : MediaEnvelope := mk_envelope H264Video 1700000000000 (str "frame").

Lemma frame_roundtrip_witness :
  exists f, write_frame write_ok [] (str "hello") = (Ok tt, [] ++ f) /\
    read_frame (f ++ str "rest") = (Ok (str "hello"), str "rest").
Proof.
  apply (frame_roundtrip (str "hello") (u32_to_be 5 ++ str "hello")); [by vm_compute|].
  change (length (u32_to_be 5 ++ str "hello")) with 9%nat. unfold MAX_FRAME_PAYLOAD. lia.
Defined.

(** A message of 64 KiB: with its own length prefix it is over the cap. *)
Definition big : bytes := repeat 0 MAX_FRAME_PAYLOAD.

Lemma big_length : length big = MAX_FRAME_PAYLOAD.
Proof. apply repeat_length. Qed.

Lemma big_json : json_to_vec big = Some (len_prefixed big).
Proof.
  assert (field_ok big = true) as Hok by (vm_compute; reflexivity). revert Hok. generalize big as b. intros b Hok.
  cbn [json_to_vec bytes_json fields_json]. unfold fields_to_vec. cbn [forallb]. rewrite Hok. cbn [andb].
  rewrite bool_decide_true by done. cbn [fmap list_fmap concat]. by rewrite app_nil_r.
Qed.

Lemma frame_cap_witness :
  write_frame write_ok [] big = (Err (PMalformed "frame too large"), []) /\
  read_frame (T:=bytes) (u32_to_be 65537 ++ [1; 2]) = (Err (PMalformed "incoming frame too large"), [1; 2]).
Proof.
  apply (frame_cap write_ok [] big (len_prefixed big)); [exact big_json| |by vm_compute|].
  - unfold len_prefixed. rewrite length_app, to_be_length_4, big_length. lia.
  - unfold MAX_FRAME_PAYLOAD. lia.
Defined.

Lemma media_roundtrip_witness :
  length (media_to_bytes video) = encoded_len video /\
  media_decode (media_to_bytes video ++ [170]) = Ok (Some (video, encoded_len video)).
Proof. apply (media_roundtrip H264Video 1700000000000 (str "frame")); by vm_compute. Defined.

Lemma video_wf : media_wf video.
Proof. split; by vm_compute. Qed.

Lemma media_prefix_incomplete_witness : media_decode (take 16 (media_to_bytes video)) = Ok None.
Proof.
  apply (media_prefix_incomplete video _ (drop 16 (media_to_bytes video)));
    [apply video_wf|by rewrite take_drop|done].
Defined.

Lemma media_decode_canonical_witness :
  media_wf video /\ (19 <= length (media_to_bytes video ++ [7%Z]))%nat /\
  media_to_bytes video = take 19 (media_to_bytes video ++ [7]).
Proof.
  apply (media_decode_canonical (media_to_bytes video ++ [7])); [|by vm_compute].
  repeat apply Forall_cons_2; try apply Forall_nil_2; by vm_compute.
Defined.
End ProtocolExamples.
