(* ===== verification/EdgeHeader.v ===== *)
(** * strata-protocol: trusted edge headers

    [crates/strata-protocol/src/edge_header.rs]: the canonical MAC input of
    the [x-strata-edge-*] bundle, signing, verification under any of several
    keys, and the timestamp check.  A [HashMap<String, String>] is a [gmap]
    from the name's bytes to the value's. *)

From S2P Require Import Prelude Machine Text Crates Protocol.

Local Open Scope Z_scope.

Abbreviation headers := (gmap bytes bytes).

Definition EDGE_HEADERS_CANONICAL : list bytes :=
  [ str "x-strata-edge-client-ip"; str "x-strata-edge-tls-version";
    str "x-strata-edge-tls-cipher"; str "x-strata-edge-tls-ja3";
    str "x-strata-edge-user-agent"; str "x-strata-edge-request-id";
    str "x-strata-edge-link-id"; str "x-strata-edge-timestamp-ms" ].

Definition EDGE_HEADER_MAC : bytes := str "x-strata-edge-trusted-mac".

Definition MAX_TIMESTAMP_SKEW_MS : Z := 60000.

(** An absent header counts as the empty value. *)
Definition header_value (h : headers) (name : bytes) : bytes := default [] (h !! name).

(** One round of the loop of [canonical_input]. *)
Definition canonical_push (h : headers) (buf name : bytes) : bytes :=
  let value := header_value h name in
  buf ++ u32_to_be (wrap_u 32 (Z.of_nat (length name))) ++ name
      ++ u32_to_be (wrap_u 32 (Z.of_nat (length value))) ++ value.

Definition canonical_input (h : headers) : bytes :=
  fold_left (canonical_push h) EDGE_HEADERS_CANONICAL [].

Section edge.
Context `{Base64} `{HmacSha256}.

(** [edge_header::sign]. *)
Definition sign (h : headers) (key : bytes) : bytes :=
  b64_encode STANDARD (hmac key (canonical_input h)).

(** [edge_header::verify]. *)
Definition verify (h : headers) (mac_b64 : bytes) (keys : list bytes) : result ProtocolError unit :=
  match keys with
  | [] => Err (AuthFailed (str "no edge-hmac keys configured"))
  | _ =>
      tag ← ok_or (b64_decode STANDARD mac_b64) (PMalformed "edge mac is not valid base64");
      let input := canonical_input h in
      if existsb (fun key => verify_slice key input tag) keys then Ok tt else Err BadMac
  end.
End edge.

(** [edge_header::check_timestamp]. *)
Definition check_timestamp (h : headers) (now_ms : Z) : result ProtocolError unit :=
  ts ← ok_or (h !! str "x-strata-edge-timestamp-ms" ≫= parse_i64)
         (PMalformed "x-strata-edge-timestamp-ms missing or not a number");
  if skewed MAX_TIMESTAMP_SKEW_MS now_ms ts then Err Skew else Ok tt.

(** ** The canonical input determines the canonical fields *)

(** The names and values in the order they enter the MAC. *)
Definition canonical_fields (h : headers) : list bytes :=
  concat ((fun name => [name; header_value h name]) <$> EDGE_HEADERS_CANONICAL).

Lemma canonical_push_eq h buf name :
  canonical_push h buf name = buf ++ len_prefixed name ++ len_prefixed (header_value h name).
Proof. unfold canonical_push, len_prefixed. by rewrite <- !(assoc_L (++)). Qed.

Lemma canonical_fold h names buf :
  fold_left (canonical_push h) names buf =
  buf ++ concat (len_prefixed <$> concat ((fun name => [name; header_value h name]) <$> names)).
Proof.
  revert buf. induction names as [|n names IH]; intros buf.
  - symmetry. apply app_nil_r.
  - change (fold_left (canonical_push h) (n :: names) buf)
      with (fold_left (canonical_push h) names (canonical_push h buf n)).
    rewrite IH, canonical_push_eq, fmap_cons. cbn [concat]. rewrite fmap_app, concat_app.
    cbn [fmap list_fmap concat]. by rewrite app_nil_r, <- !(assoc_L (++)).
Qed.

Lemma canonical_input_eq h : canonical_input h = concat (len_prefixed <$> canonical_fields h).
Proof. unfold canonical_input. by rewrite canonical_fold. Qed.

Definition values_short (h : headers) : Prop :=
  Forall (fun name => short (header_value h name)) EDGE_HEADERS_CANONICAL.

Lemma names_short : Forall short EDGE_HEADERS_CANONICAL.
Proof. repeat apply Forall_cons_2; try apply Forall_nil_2; by vm_compute. Qed.

Lemma canonical_fields_short h : values_short h -> Forall short (canonical_fields h).
Proof.
  unfold values_short, canonical_fields. generalize names_short. generalize EDGE_HEADERS_CANONICAL.
  induction l; intros Hn Hv; simpl; [constructor|]. apply Forall_cons in Hn as [? Hn], Hv as [? Hv].
  repeat apply Forall_cons_2; auto.
Qed.

Lemma canonical_input_inj h1 h2 :
  values_short h1 -> values_short h2 -> canonical_input h1 = canonical_input h2 ->
  forall name, name ∈ EDGE_HEADERS_CANONICAL -> header_value h1 name = header_value h2 name.
Proof.
  intros H1 H2 E. rewrite !canonical_input_eq in E.
  apply concat_len_prefixed_inj in E; [|done|by apply canonical_fields_short..].
  unfold canonical_fields in E. clear H1 H2. revert E. generalize EDGE_HEADERS_CANONICAL as ns.
  induction ns as [|n ns IH]; intros E name Hin; [by apply not_elem_of_nil in Hin|].
  simpl in E. injection E as Ev E. apply elem_of_cons in Hin as [->|Hin]; [done|]. by apply IH.
Qed.

(** Two header maps that agree on the canonical names have one MAC input:
    nothing else in the map is authenticated. *)
Lemma canonical_input_ext h1 h2 :
  (forall name, name ∈ EDGE_HEADERS_CANONICAL -> header_value h1 name = header_value h2 name) ->
  canonical_input h1 = canonical_input h2.
Proof.
  intros E. rewrite !canonical_input_eq. unfold canonical_fields. f_equal. f_equal. f_equal.
  revert E. generalize EDGE_HEADERS_CANONICAL as ns.
  induction ns as [|n ns IH]; intros E; [done|]. simpl.
  rewrite E by apply list_elem_of_here. f_equal. apply IH. intros. apply E. by right.
Qed.

Section edge_properties.
Context `{Base64} `{HmacSha256}.

Lemma verify_iff h mac keys :
  verify h mac keys = Ok tt <->
  exists key, key ∈ keys /\ b64_decode STANDARD mac = Some (hmac key (canonical_input h)).
Proof.
  destruct keys as [|k0 keys'].
  { split; [done|]. intros (? & Hin & _). by apply not_elem_of_nil in Hin. }
  cbn [verify]. destruct (b64_decode STANDARD mac) as [tag|]; cbn [ok_or mbind result_bind].
  - destruct (existsb _ _) eqn:E; split; try done; intros Hk.
    + apply existsb_exists in E as (key & Hin & Hv). apply verify_slice_spec in Hv as ->.
      exists key. split; [by apply list_elem_of_In|done].
    + destruct Hk as (key & Hin & [= ->]). exfalso. apply not_true_iff_false in E. apply E.
      apply existsb_exists. exists key. split; [by apply list_elem_of_In|apply verify_slice_refl].
  - split; [done|]. by intros (? & _ & ?).
Qed.

Lemma b64_tag key msg : b64_decode STANDARD (b64_encode STANDARD (hmac key msg)) = Some (hmac key msg).
Proof. apply b64_decode_encode, hmac_ok. Qed.

(** A bundle signed with one of the verifier's keys verifies, in any
    position of the key list (key rotation), and on any header map that
    agrees with the signed one on the eight canonical names. *)
Lemma edge_sign_verify h h' key keys :
  key ∈ keys ->
  (forall name, name ∈ EDGE_HEADERS_CANONICAL -> header_value h' name = header_value h name) ->
  verify h' (sign h key) keys = Ok tt.
Proof.
  intros Hin E. apply verify_iff. exists key. split; [done|]. unfold sign. rewrite b64_tag.
  by rewrite (canonical_input_ext h' h E).
Qed.

(** Two different (key, message) pairs of the given keys with one tag. *)
Definition tag_collision (keys : list bytes) (key : bytes) : Prop :=
  exists k m1 m2, k ∈ keys /\ (k, m1) <> (key, m2) /\ hmac k m1 = hmac key m2.

(** Whoever presents a tag that was issued for [h'] together with a
    header map [h] is accepted only if every canonical field of [h] is the
    signed one, unless HMAC-SHA-256 itself collides.  Values are bounded by
    the [u32] length prefix. *)
Lemma edge_tamper h h' key keys :
  values_short h -> values_short h' -> verify h (sign h' key) keys = Ok tt ->
  (forall name, name ∈ EDGE_HEADERS_CANONICAL -> header_value h name = header_value h' name) \/
  tag_collision keys key.
Proof.
  intros Hs Hs' Hv. apply verify_iff in Hv as (k & Hin & Hd). unfold sign in Hd. rewrite b64_tag in Hd.
  injection Hd as Hd. destruct (decide ((k, canonical_input h) = (key, canonical_input h'))) as [E|Hne].
  - left. apply (canonical_input_inj h h' Hs Hs'). exact (f_equal snd E).
  - right. exists k, (canonical_input h), (canonical_input h'). split_and!; congruence || done.
Qed.

(** The three ways verification fails, and that it never fails otherwise. *)
Lemma verify_errors h mac keys :
  verify h mac keys =
  if bool_decide (keys = []) then Err (AuthFailed (str "no edge-hmac keys configured"))
  else match b64_decode STANDARD mac with
  | None => Err (PMalformed "edge mac is not valid base64")
  | Some tag => if existsb (fun key => verify_slice key (canonical_input h) tag) keys
                then Ok tt else Err BadMac
  end.
Proof. destruct keys; [done|]. cbn. by destruct (b64_decode STANDARD mac). Qed.
End edge_properties.

(** The timestamp check accepts exactly the headers whose timestamp
    parses as an [i64] and lies within sixty seconds of the clock, with one
    exception, the timestamp [now - 2^63], which overflows the subtraction
    and is accepted too. *)
Lemma check_timestamp_spec h now ts :
  0 <= now < 2 ^ 62 -> h !! str "x-strata-edge-timestamp-ms" = Some (int_to_string ts) -> is_i64 ts ->
  check_timestamp h now = Ok tt <-> Z.abs (now - ts) <= MAX_TIMESTAMP_SKEW_MS \/ ts = now - 2 ^ 63.
Proof.
  intros Hnow Hh Hts. unfold check_timestamp. rewrite Hh. cbn [mbind option_bind].
  unfold parse_i64. rewrite parse_int_to_string by auto with strata. cbn [ok_or mbind result_bind].
  rewrite <- skewed_spec by (done || unfold MAX_TIMESTAMP_SKEW_MS; lia). by destruct (skewed _ _ _).
Qed.

(** ** Witnesses *)

Module EdgeExamples.
Import Reference.
Definition h1 : headers :=
  <[str "x-strata-edge-client-ip" := str "203.0.113.42"]>
  (<[str "x-strata-edge-tls-version" := str "1.3"]>
  (<[str "x-strata-edge-timestamp-ms" := str "1700000000000"]> ∅)).
Definition h2 : headers := <[str "x-strata-edge-client-ip" := str "10.0.0.1"]> h1.

Lemma values_short_check h : forallb (fun n => Z.of_nat (length (header_value h n)) <=? u32_max)
  EDGE_HEADERS_CANONICAL = true -> values_short h.
Proof.
  intros Hb. apply Forall_forall. intros n Hin. rewrite forallb_forall in Hb.
  apply Z.leb_le, Hb. by apply list_elem_of_In.
Qed.

Lemma edge_sign_verify_witness : verify h1 (sign h1 (str "old")) [str "new"; str "old"] = Ok tt.
Proof. apply (edge_sign_verify h1 h1); [right; left|done]. Defined.

Lemma edge_tamper_witness :
  verify h1 (sign h1 (str "k")) [str "k"] = Ok tt /\
  verify h2 (sign h1 (str "k")) [str "k"] = Err BadMac /\
  ((forall name, name ∈ EDGE_HEADERS_CANONICAL -> header_value h1 name = header_value h1 name) \/
   tag_collision [str "k"] (str "k")).
Proof.
  split_and!; [by vm_compute..|].
  apply (edge_tamper h1 h1); [by apply values_short_check; vm_compute..|by vm_compute].
Defined.

Lemma check_timestamp_spec_witness :
  check_timestamp h1 1700000030000 = Ok tt <->
  Z.abs (1700000030000 - 1700000000000) <= MAX_TIMESTAMP_SKEW_MS \/ 1700000000000 = 1700000030000 - 2 ^ 63.
Proof. apply check_timestamp_spec; [lia|by vm_compute|by vm_compute]. Defined.

(** The accepted overflow. *)
Example check_timestamp_overflow :
  check_timestamp (<[str "x-strata-edge-timestamp-ms" := int_to_string (1700000000000 - 2 ^ 63)]> ∅)
    1700000000000 = Ok tt.
Proof. by vm_compute. Qed.
End EdgeExamples.
