(* ===== verification/EdgeTrust.v ===== *)
(** * The trusted edge: the DMZ's signer and the backend's verifier

    [crates/strata-dmz/src/edge_signer.rs] ([HmacEdgeSigner::sign] and
    [resolve_client_ip]), [backend/src/services/edge_header.rs] (the
    [verify_edge_headers] middleware) and
    [backend/src/services/client_ip.rs] (the resolved client address).  A
    request is its header map and its socket peer; the clock and the minted
    request id are arguments. *)

From S2P Require Import Prelude Machine Text Net Crates Protocol EdgeHeader.

Local Open Scope Z_scope.

(** ** The signer *)

Definition MAX_UA_LEN : nat := 1024.
Definition MAX_REQUEST_ID_LEN : nat := 128.

Definition EDGE_PREFIX : bytes := str "x-strata-edge-".

Definition starts_with (p s : bytes) : bool := bool_decide (take (length p) s = p).

Definition STRIPPED_EXACT : list bytes :=
  [ str "x-real-ip"; str "x-forwarded-for"; str "x-forwarded-host"; str "x-forwarded-proto";
    str "x-forwarded-port"; str "forwarded" ].

(** The names the signer removes from a public request. *)
Definition stripped_at_edge (n : bytes) : bool :=
  starts_with EDGE_PREFIX n || starts_with (str "x-strata-admin") n || bool_decide (n ∈ STRIPPED_EXACT).

(** A valid UTF-8 string is cut at the last character boundary within
    [MAX_UA_LEN]. *)
Fixpoint cut_at (cut : nat) (s : bytes) : nat :=
  match cut with
  | O => O
  | S c =>
      match s !! cut with
      | Some b => if is_cont b then cut_at c s else cut
      | None => cut
      end
  end.

Definition truncate_ua (s : bytes) : bytes :=
  if (MAX_UA_LEN <? length s)%nat then take (cut_at MAX_UA_LEN s) s else s.

Definition request_id_char (b : Z) : bool :=
  is_digit b || ((65 <=? b) && (b <=? 90)) || ((97 <=? b) && (b <=? 122)) || (b =? 45) || (b =? 95).

Definition request_id_ok (s : bytes) : bool :=
  negb (bool_decide (s = [])) && (length s <=? MAX_REQUEST_ID_LEN)%nat && forallb request_id_char s.

Section edge_trust.
Context `{Base64} `{HmacSha256} {hm hv : Type} `{Http hm hv}.

Definition trusted_by (nets : list TrustedNet) (ip : IpAddr) : bool := existsb (fun n => contains n ip) nets.

(** The text of the first value of a header. *)
Definition header_text (h : hm) (n : bytes) : option bytes := hm_get h n ≫= hv_to_str.

(** Walk the hops from the right: skip empty, unparsable and trusted ones. *)
Fixpoint first_untrusted (nets : list TrustedNet) (hops : list bytes) : option IpAddr :=
  match hops with
  | [] => None
  | hop :: r =>
      let hop := trim hop in
      if bool_decide (hop = []) then first_untrusted nets r
      else
        let hop_no_zone := default hop (head (split 37 hop)) in
        match parse_ip hop_no_zone with
        | Some ip => if trusted_by nets ip then first_untrusted nets r else Some ip
        | None => first_untrusted nets r
        end
  end.

(** [headers.get(FORWARDED).or_else(|| headers.get("x-forwarded-for"))]. *)
Definition forwarded_chain (h : hm) : option bytes :=
  match hm_get h (str "forwarded") with
  | Some v => hv_to_str v
  | None => header_text h (str "x-forwarded-for")
  end.

(** [edge_signer::resolve_client_ip]. *)
Definition resolve_client_ip (h : hm) (peer : option IpAddr) (nets : list TrustedNet) : bytes :=
  let from_chain :=
    match peer with
    | Some pip =>
        if trusted_by nets pip
        then chain ← forwarded_chain h; first_untrusted nets (rev (split 44 chain))
        else None
    | None => None
    end in
  match from_chain with
  | Some ip => ip_to_string ip
  | None => match peer with Some ip => ip_to_string ip | None => str "0.0.0.0" end
  end.

(** Remove every header whose name satisfies [p]. *)
Definition strip_headers (p : bytes -> bool) (h : hm) : hm :=
  fold_left (fun h n => hm_remove n h) (filter (fun n => p n = true) (fst <$> hm_iter h)) h.

Record HmacEdgeSigner : Type := mk_signer { s_key : bytes; s_link_id : bytes; trusted_proxies : list TrustedNet }.

(** [HmacEdgeSigner::from_config]: entries that do not parse are dropped. *)
Definition signer_from_config (key link_id : bytes) (trust_forwarded_from : list bytes) : HmacEdgeSigner :=
  mk_signer key link_id (omap net_parse trust_forwarded_from).

(** The canonical bundle before sanitising: [h] is already stripped, [uuid]
    is the minted request id. *)
Definition bundle (s : HmacEdgeSigner) (client_ip : bytes) (now_ms : Z) (uuid : bytes) (h : hm) : headers :=
  let user_agent := default [] (truncate_ua <$> header_text h (str "user-agent")) in
  let request_id :=
    match header_text h (str "x-request-id") with
    | Some id => if request_id_ok id then id else uuid
    | None => uuid
    end in
  <[str "x-strata-edge-timestamp-ms" := int_to_string now_ms]>
  (<[str "x-strata-edge-link-id" := s_link_id s]>
  (<[str "x-strata-edge-request-id" := request_id]>
  (<[str "x-strata-edge-user-agent" := user_agent]>
  (<[str "x-strata-edge-tls-ja3" := []]>
  (<[str "x-strata-edge-tls-cipher" := []]>
  (<[str "x-strata-edge-tls-version" := []]>
  (<[str "x-strata-edge-client-ip" := client_ip]> ∅))))))).

(** A value [HeaderValue::from_str] rejects keeps its printable ASCII. *)
Definition sanitise_one (canon : headers) (name : bytes) : headers :=
  let v := header_value canon name in
  if bool_decide (v = []) then canon
  else match hv_from_str v with
  | Some _ => canon
  | None => <[name := filter (fun b => is_visible b = true) v]> canon
  end.

Definition sanitise (canon : headers) : headers := fold_left sanitise_one EDGE_HEADERS_CANONICAL canon.

Definition emit_one (canon : headers) (h : hm) (name : bytes) : hm :=
  match canon !! name with
  | Some v =>
      if bool_decide (v = []) then h
      else match hv_from_str v with Some x => hm_insert name x h | None => h end
  | None => h
  end.

(** [HmacEdgeSigner::sign]; [None] is the panic of the final [expect], which
    [sign_request_total] excludes. *)
Definition sign_request (s : HmacEdgeSigner) (peer : option IpAddr) (now_ms : Z) (uuid : bytes) (h : hm) : option hm :=
  let client_ip := resolve_client_ip h peer (trusted_proxies s) in
  let h := strip_headers stripped_at_edge h in
  let canon := sanitise (bundle s client_ip now_ms uuid h) in
  let mac := sign canon (s_key s) in
  let h := fold_left (emit_one canon) EDGE_HEADERS_CANONICAL h in
  v ← hv_from_str mac; Some (hm_insert EDGE_HEADER_MAC v h).

(** ** The verifier *)

Record TrustedEdgeContext : Type := mk_context {
  c_client_ip : bytes; c_tls_version : option bytes; c_tls_cipher : option bytes; c_tls_ja3 : option bytes;
  c_user_agent : option bytes; c_request_id : option bytes; c_link_id : option bytes
}.

(** [load_keys]. *)
Definition load_keys (env : option bytes) : list bytes :=
  match env with
  | Some raw =>
      if bool_decide (trim raw = []) then []
      else omap (b64_decode STANDARD) (filter (fun s => s <> []) (trim <$> split 44 raw))
  | None => []
  end.

Definition to_ascii_lowercase (s : bytes) : bytes :=
  (fun b => if (65 <=? b) && (b <=? 90) then b + 32 else b) <$> s.

Definition extract_one (out : headers) (e : bytes * hv) : headers :=
  if starts_with EDGE_PREFIX (fst e)
  then match hv_to_str (snd e) with Some t => <[to_ascii_lowercase (fst e) := t]> out | None => out end
  else out.

Definition extract_edge_headers (h : hm) : headers := fold_left extract_one (hm_iter h) ∅.

Definition strip_edge_headers (h : hm) : hm := strip_headers (starts_with EDGE_PREFIX) h.

Definition build_context (h : headers) : option TrustedEdgeContext :=
  client_ip ← h !! str "x-strata-edge-client-ip";
  Some (mk_context client_ip (h !! str "x-strata-edge-tls-version") (h !! str "x-strata-edge-tls-cipher")
    (h !! str "x-strata-edge-tls-ja3") (h !! str "x-strata-edge-user-agent") (h !! str "x-strata-edge-request-id")
    (h !! str "x-strata-edge-link-id")).

(** [signed.remove(EDGE_HEADER_MAC)] and [signed.retain(..)]. *)
Definition signed_part (h : headers) : headers :=
  filter (fun '(n, _) => n ∈ EDGE_HEADERS_CANONICAL) (delete EDGE_HEADER_MAC h).

(** [verify_edge_headers]: the context attached to the request, if any, and
    the headers the next handler sees. *)
Definition verify_edge_headers (keys : list bytes) (now_ms : Z) (h : hm) : option TrustedEdgeContext * hm :=
  match keys with
  | [] => (None, strip_edge_headers h)
  | _ =>
      let hs := extract_edge_headers h in
      match hs !! EDGE_HEADER_MAC with
      | None => (None, strip_edge_headers h)
      | Some mac =>
          let signed := signed_part hs in
          match verify signed mac keys with
          | Err _ => (None, strip_edge_headers h)
          | Ok _ =>
              match check_timestamp signed now_ms with
              | Err _ => (None, strip_edge_headers h)
              | Ok _ => (build_context signed, strip_edge_headers h)
              end
          end
      end
  end.

(** ** The client address the backend attributes a request to *)

Definition CLIENT_IP_HEADER : bytes := str "x-strata-client-ip".
Definition MAX_XFF_HOPS : nat := 20.

(** [ipnet]'s networks are a parameter: how a network is parsed, made of one
    address, and tested. *)
Section client_ip.
Context {ipnet : Type} (ipnet_parse : bytes -> option ipnet) (ipnet_from : IpAddr -> ipnet)
  (ipnet_contains : ipnet -> IpAddr -> bool).

(** [parse_trusted_proxies]: [Err] quotes the first bad entry. *)
Fixpoint parse_entries (l : list bytes) : result bytes (list ipnet) :=
  match l with
  | [] => Ok []
  | e :: r =>
      n ← ok_or (match ipnet_parse e with Some n => Some n | None => ipnet_from <$> parse_ip e end) e;
      ns ← parse_entries r; Ok (n :: ns)
  end.
Definition parse_trusted_proxies (raw : bytes) : result bytes (list ipnet) :=
  parse_entries (filter (fun s => s <> []) (trim <$> split 44 raw)).

Definition is_trusted (ip : IpAddr) (trusted : list ipnet) : bool := existsb (fun n => ipnet_contains n ip) trusted.

(** The loop of [resolve]: a malformed hop ends the part of the chain that
    can be vouched for. *)
Fixpoint walk_chain (trusted : list ipnet) (client : IpAddr) (hops : list bytes) : IpAddr :=
  match hops with
  | [] => client
  | hop :: r =>
      let hop := trim hop in
      if bool_decide (hop = []) then walk_chain trusted client r
      else match parse_ip hop with
      | None => client
      | Some ip => if is_trusted ip trusted then walk_chain trusted ip r else ip
      end
  end.

Definition resolve (peer : IpAddr) (xff : option bytes) (trust_xff : bool) (trusted : list ipnet) : IpAddr :=
  if negb trust_xff || negb (is_trusted peer trusted) then peer
  else match xff with
  | None => peer
  | Some xff => walk_chain trusted peer (take MAX_XFF_HOPS (rev (split 44 xff)))
  end.

(** [resolve_client_ip], the middleware after [verify_edge_headers]. *)
Definition stamp_client_ip (edge : option TrustedEdgeContext) (peer : option IpAddr) (trust_xff : bool)
    (trusted : list ipnet) (h : hm) : hm :=
  let resolved :=
    match edge with
    | Some c => Some (c_client_ip c)
    | None => (fun ip => ip_to_string (resolve ip (header_text h (str "x-forwarded-for")) trust_xff trusted)) <$> peer
    end in
  let h := hm_remove CLIENT_IP_HEADER h in
  match resolved ≫= hv_from_str with
  | Some v => hm_insert CLIENT_IP_HEADER v h
  | None => h
  end.
End client_ip.

(** ** Stripping *)

Lemma remove_all_get ns h n :
  hm_get_all (fold_left (fun h n => hm_remove n h) ns h) n = if bool_decide (n ∈ ns) then [] else hm_get_all h n.
Proof.
  revert h. induction ns as [|m ns IH]; intros h; [done|]. cbn [fold_left]. rewrite IH, hm_get_all_remove.
  destruct (decide (n ∈ ns)) as [Hin|Hn].
  - rewrite !bool_decide_true; [done|by right|done].
  - rewrite (bool_decide_false (n ∈ ns)) by done. destruct (decide (m = n)) as [->|Hm].
    + rewrite !bool_decide_true; [done|left|done].
    + rewrite !bool_decide_false; [done|by rewrite not_elem_of_cons|done].
Qed.

Lemma iter_elem h n v : (n, v) ∈ hm_iter h <-> v ∈ hm_get_all h n.
Proof.
  rewrite <- (hm_iter_get_all h n), list_elem_of_fmap. split.
  - intros Hin. exists (n, v). rewrite list_elem_of_filter. done.
  - intros ([k w] & -> & Hin). apply list_elem_of_filter in Hin as [Hk Hin]. cbn in Hk. by subst.
Qed.

Lemma not_in_iter h n : n ∉ fst <$> hm_iter h -> hm_get_all h n = [].
Proof.
  intros Hn. destruct (hm_get_all h n) as [|v l] eqn:E; [done|]. exfalso. apply Hn.
  apply list_elem_of_fmap. exists (n, v). split; [done|]. apply iter_elem. rewrite E. left.
Qed.

Lemma strip_headers_get p h n : hm_get_all (strip_headers p h) n = if p n then [] else hm_get_all h n.
Proof.
  unfold strip_headers. rewrite remove_all_get. case_bool_decide as Hin; rewrite list_elem_of_filter in Hin.
  - by destruct Hin as [-> _].
  - destruct (p n) eqn:Ep; [|done]. apply not_in_iter. tauto.
Qed.

(** Downstream handlers never see an [x-strata-edge-] header, whoever
    sent it and whatever the verdict, every other header reaches them
    unchanged, and without configured keys no request is ever attributed to
    the edge. *)
Lemma edge_headers_never_pass keys now h :
  let '(c, h') := verify_edge_headers keys now h in
  (forall n, hm_get_all h' n = if starts_with EDGE_PREFIX n then [] else hm_get_all h n) /\
  (keys = [] -> c = None).
Proof.
  pose proof (strip_headers_get (starts_with EDGE_PREFIX) h) as Hs.
  unfold verify_edge_headers, strip_edge_headers. destruct keys; [done|].
  destruct (_ !! EDGE_HEADER_MAC); [|done]. destruct (verify _ _ _); [|done]. by destruct (check_timestamp _ _).
Qed.

(** ** Sanitising and emitting *)

(** What a value becomes on its way to the wire. *)
Definition clean (v : bytes) : bytes :=
  if bool_decide (v = []) then v
  else match hv_from_str v with Some _ => v | None => filter (fun b => is_visible b = true) v end.

Lemma sanitise_one_lookup canon m n :
  sanitise_one canon m !! n = if bool_decide (n = m) then clean <$> canon !! n else canon !! n.
Proof.
  unfold sanitise_one, header_value, clean. destruct (canon !! m) as [v|] eqn:E; cbn [default from_option id].
  - destruct (decide (n = m)) as [->|Hn].
    + rewrite (bool_decide_true (m = m)) by done. rewrite E. cbn. case_bool_decide; [done|].
      destruct (hv_from_str v); [done|]. by rewrite lookup_insert_eq.
    + rewrite (bool_decide_false (n = m)) by done. case_bool_decide; [done|].
      destruct (hv_from_str v); [done|]. by rewrite lookup_insert_ne.
  - rewrite bool_decide_true by done. case_bool_decide; [by subst; rewrite E|done].
Qed.

Lemma sanitise_fold ns canon n :
  NoDup ns ->
  fold_left sanitise_one ns canon !! n = if bool_decide (n ∈ ns) then clean <$> canon !! n else canon !! n.
Proof.
  intros Hd. revert canon. induction Hd as [|m ns Hm _ IH]; intros canon; [done|]. cbn [fold_left].
  rewrite IH, sanitise_one_lookup. destruct (decide (n = m)) as [->|Hn].
  - rewrite (bool_decide_false (m ∈ ns)), !bool_decide_true; [done|left|done|done].
  - rewrite (bool_decide_false (n = m)) by done. rewrite (bool_decide_ext (n ∈ m :: ns) (n ∈ ns)); [done|]. rewrite elem_of_cons. tauto.
Qed.

Lemma emit_one_get canon h m n :
  hm_get_all (emit_one canon h m) n =
    if bool_decide (n = m)
    then match canon !! n with
         | Some v => if bool_decide (v = []) then hm_get_all h n
                     else match hv_from_str v with Some x => [x] | None => hm_get_all h n end
         | None => hm_get_all h n
         end
    else hm_get_all h n.
Proof.
  unfold emit_one. destruct (decide (n = m)) as [->|Hn].
  - rewrite (bool_decide_true (m = m)) by done. destruct (canon !! m) as [v|]; [|done].
    case_bool_decide; [done|]. destruct (hv_from_str v); [|done]. by rewrite hm_get_all_insert, bool_decide_true.
  - rewrite (bool_decide_false (n = m)) by done. destruct (canon !! m) as [v|]; [|done].
    case_bool_decide; [done|]. destruct (hv_from_str v); [|done]. by rewrite hm_get_all_insert, bool_decide_false.
Qed.

Lemma emit_fold canon ns h n :
  NoDup ns ->
  hm_get_all (fold_left (emit_one canon) ns h) n =
    hm_get_all (if bool_decide (n ∈ ns) then emit_one canon h n else h) n.
Proof.
  intros Hd. revert h. induction Hd as [|m ns Hm _ IH]; intros h; [done|]. cbn [fold_left]. rewrite IH.
  destruct (decide (n = m)) as [->|Hn].
  - by rewrite (bool_decide_false (m ∈ ns)), bool_decide_true; [|left|].
  - destruct (decide (n ∈ ns)) as [Hin|Hnin].
    + rewrite !bool_decide_true; [|by right|done]. rewrite !emit_one_get.
      rewrite (bool_decide_true (n = n)), (bool_decide_false (n = m)) by done. done.
    + rewrite !bool_decide_false; [|by rewrite not_elem_of_cons|done]. by rewrite emit_one_get, bool_decide_false.
Qed.

(** ** What the verifier reads *)

Lemma extract_fold (n : bytes) (l : list (bytes * hv)) (acc : headers) :
  starts_with EDGE_PREFIX n = true ->
  (forall k v, (k, v) ∈ l -> starts_with EDGE_PREFIX k = true -> to_ascii_lowercase k = k) ->
  (length (filter (fun e => fst e = n) l) <= 1)%nat ->
  fold_left extract_one l acc !! n =
  match head (snd <$> filter (fun e => fst e = n) l) ≫= hv_to_str with Some t => Some t | None => acc !! n end.
Proof.
  intros Hn. revert acc. induction l as [|[k v] l IH]; intros acc Hlow Hlen; [done|]. cbn [fold_left].
  assert (forall k v, (k, v) ∈ l -> starts_with EDGE_PREFIX k = true -> to_ascii_lowercase k = k) as Hlow'
    by (intros; eapply Hlow; [by right|done]).
  destruct (decide (k = n)) as [->|Hk].
  - rewrite (filter_cons_True (fun e : bytes * hv => fst e = n)) in Hlen |- * by done. cbn [length] in Hlen.
    rewrite IH by (done || lia). unfold extract_one. cbn [fst snd]. rewrite Hn, (Hlow n v) by (done || left).
    assert (filter (fun e : bytes * hv => fst e = n) l = []) as -> by (apply length_zero_iff_nil; lia). cbn.
    destruct (hv_to_str v); [apply lookup_insert_eq|done].
  - rewrite (filter_cons_False (fun e : bytes * hv => fst e = n)) in Hlen |- * by done. rewrite IH by done.
    unfold extract_one. cbn [fst snd]. destruct (starts_with EDGE_PREFIX k) eqn:Ek; [|done]. rewrite (Hlow k v) by (done || left).
    destruct (hv_to_str v); [|done]. by rewrite lookup_insert_ne.
Qed.

Lemma extract_lookup h n :
  (forall k, starts_with EDGE_PREFIX k = true -> hm_get_all h k <> [] -> to_ascii_lowercase k = k) ->
  starts_with EDGE_PREFIX n = true -> (length (hm_get_all h n) <= 1)%nat ->
  extract_edge_headers h !! n = hm_get h n ≫= hv_to_str.
Proof.
  intros Hlow Hn Hlen. unfold extract_edge_headers, hm_get. pose proof (hm_iter_get_all h n) as Hp.
  rewrite extract_fold; [|done| |].
  - assert (snd <$> filter (fun e => fst e = n) (hm_iter h) = hm_get_all h n) as ->.
    { destruct (hm_get_all h n) as [|x [|y l]]; [by apply Permutation_nil|by apply Permutation_length_1_inv|cbn in Hlen; lia]. }
    rewrite lookup_empty. by destruct (head _ ≫= _).
  - intros k v Hin Hk. apply Hlow; [done|]. apply iter_elem in Hin. intros E. rewrite E in Hin. by apply not_elem_of_nil in Hin.
  - apply Permutation_length in Hp. rewrite length_fmap in Hp. lia.
Qed.

Ltac in_canonical := apply (bool_decide_unpack _); by vm_compute.

Lemma canonical_nodup : NoDup EDGE_HEADERS_CANONICAL.
Proof. apply (bool_decide_unpack _). by vm_compute. Qed.

Lemma canonical_names n :
  n ∈ EDGE_HEADERS_CANONICAL \/ n = EDGE_HEADER_MAC ->
  starts_with EDGE_PREFIX n = true /\ to_ascii_lowercase n = n.
Proof.
  intros [Hin| ->]; [|by vm_compute]. revert n Hin. apply Forall_forall.
  repeat apply Forall_cons_2; try apply Forall_nil_2; by vm_compute.
Qed.

Lemma mac_not_canonical : EDGE_HEADER_MAC ∉ EDGE_HEADERS_CANONICAL.
Proof. apply (bool_decide_unpack _). by vm_compute. Qed.

Definition nonempty (v : bytes) : option bytes := if bool_decide (v = []) then None else Some v.

(** The header map a signer leaves, for a canonical map of text values. *)
Definition emitted (canon : headers) (mac : hv) (h : hm) : hm :=
  hm_insert EDGE_HEADER_MAC mac (fold_left (emit_one canon) EDGE_HEADERS_CANONICAL h).

Definition all_text (canon : headers) : Prop :=
  forall n, n ∈ EDGE_HEADERS_CANONICAL -> exists v, canon !! n = Some v /\ forallb header_char v = true.

Lemma emitted_get canon mac h n :
  all_text canon -> (forall n, starts_with EDGE_PREFIX n = true -> hm_get_all h n = []) ->
  hm_get_all (emitted canon mac h) n =
    if bool_decide (n = EDGE_HEADER_MAC) then [mac]
    else if bool_decide (n ∈ EDGE_HEADERS_CANONICAL)
    then match canon !! n ≫= nonempty with
         | Some v => match hv_from_str v with Some x => [x] | None => [] end
         | None => []
         end
    else hm_get_all h n.
Proof.
  intros Ht Hh. unfold emitted. rewrite hm_get_all_insert.
  rewrite (bool_decide_ext (EDGE_HEADER_MAC = n) (n = EDGE_HEADER_MAC)) by done.
  case_bool_decide; [done|]. rewrite emit_fold by apply canonical_nodup. case_bool_decide as Hin; [|done].
  rewrite emit_one_get, bool_decide_true, Hh by (done || by apply canonical_names; left).
  destruct (Ht n Hin) as (v & -> & Hv). cbn. unfold nonempty. by case_bool_decide.
Qed.

Lemma emitted_extract canon mac m h n :
  all_text canon -> (forall n, starts_with EDGE_PREFIX n = true -> hm_get_all h n = []) -> hv_to_str mac = Some m ->
  n ∈ EDGE_HEADERS_CANONICAL \/ n = EDGE_HEADER_MAC ->
  extract_edge_headers (emitted canon mac h) !! n =
    if bool_decide (n = EDGE_HEADER_MAC) then Some m else canon !! n ≫= nonempty.
Proof.
  intros Ht Hh Hm Hn. pose proof (emitted_get canon mac h) as Hg. destruct (canonical_names n Hn) as [Hpre Hlow].
  rewrite extract_lookup; [|intros k Hk Hne|done|].
  - unfold hm_get. rewrite Hg by done. case_bool_decide; [done|]. destruct Hn as [Hn|]; [|done].
    rewrite bool_decide_true by done. destruct (Ht n Hn) as (v & -> & Hv). cbn. unfold nonempty.
    case_bool_decide; [done|]. destruct (hv_text v Hv) as (x & -> & Hx). done.
  - apply canonical_names. rewrite Hg in Hne by done. case_bool_decide; [by right|].
    case_bool_decide; [by left|]. by rewrite Hh in Hne.
  - rewrite Hg by done. repeat case_match; cbn; try lia. rewrite Hh by done. cbn. lia.
Qed.

Lemma signed_lookup hs n :
  signed_part hs !! n = if bool_decide (n ∈ EDGE_HEADERS_CANONICAL) then hs !! n else None.
Proof.
  unfold signed_part. case_bool_decide as Hin.
  - destruct (hs !! n) as [v|] eqn:E.
    + apply map_lookup_filter_Some. split; [|done]. rewrite lookup_delete_ne; [done|]. intros <-. by apply mac_not_canonical.
    + apply map_lookup_filter_None. left. apply lookup_delete_None. by right.
  - apply map_lookup_filter_None. right. intros v _ Hn. done.
Qed.

(** ** From the edge to the backend *)

(** A value [HeaderValue::from_str] does not let through as opaque bytes. *)
Definition wire_text (v : bytes) : Prop := hv_from_str v = None \/ forallb header_char v = true.

Lemma visible_text v : forallb is_visible v = true -> forallb header_char v = true.
Proof.
  rewrite !forallb_forall. intros Hv b Hb. by apply header_char_visible, Hv.
Qed.

Lemma clean_text v : wire_text v -> forallb header_char (clean v) = true.
Proof.
  unfold clean. intros [Hn|Ht]; case_bool_decide; subst; try done.
  - rewrite Hn. apply visible_text, forallb_forall. intros b Hb.
    apply list_elem_of_In, list_elem_of_filter in Hb. tauto.
  - destruct (hv_text v Ht) as (x & -> & _). done.
Qed.

Lemma clean_id v : forallb header_char v = true -> clean v = v.
Proof. intros Ht. unfold clean. case_bool_decide; [done|]. by destruct (hv_text v Ht) as (x & -> & _). Qed.

Lemma header_text_chars h n s : header_text h n = Some s -> forallb header_char s = true.
Proof. unfold header_text. intros E. apply bind_Some in E as (v & _ & E). by eapply hv_to_str_chars. Qed.

Lemma truncate_chars p s : forallb p s = true -> forallb p (truncate_ua s) = true.
Proof.
  intros Hs. unfold truncate_ua. case_test; [|done]. rewrite <- (take_drop (cut_at MAX_UA_LEN s) s), forallb_app in Hs.
  by apply andb_prop in Hs as [? _].
Qed.

Lemma resolve_visible h peer nets :
  forallb is_visible (resolve_client_ip h peer nets) = true /\ resolve_client_ip h peer nets <> [].
Proof.
  unfold resolve_client_ip. set (c := match peer with Some _ => _ | None => _ end).
  destruct c as [ip|]; [apply ip_to_string_visible|]. destruct peer; [apply ip_to_string_visible|done].
Qed.

(** The user agent and request id the signer chooses. *)
Definition chosen_ua (h : hm) : bytes := default [] (truncate_ua <$> header_text h (str "user-agent")).
Definition chosen_id (uuid : bytes) (h : hm) : bytes :=
  match header_text h (str "x-request-id") with
  | Some id => if request_id_ok id then id else uuid
  | None => uuid
  end.

Lemma chosen_ua_text h : forallb header_char (chosen_ua h) = true.
Proof.
  unfold chosen_ua. destruct (header_text h (str "user-agent")) as [s|] eqn:E; [|done].
  by apply truncate_chars, (header_text_chars _ _ _ E).
Qed.

Lemma chosen_id_text uuid h :
  forallb header_char uuid = true -> uuid <> [] ->
  forallb header_char (chosen_id uuid h) = true /\ chosen_id uuid h <> [].
Proof.
  intros Hu Hn. unfold chosen_id. destruct (header_text h (str "x-request-id")) as [s|] eqn:E; [|done].
  case_test; [|done]. split; [by apply (header_text_chars _ _ _ E)|]. unfold request_id_ok in Hb. b2p. done.
Qed.

Ltac canon_lookup := rewrite ?lookup_insert_ne by (by vm_compute); by rewrite lookup_insert_eq.

Lemma bundle_lookups s ip now uuid h :
  let b := bundle s ip now uuid h in
  b !! str "x-strata-edge-client-ip" = Some ip /\ b !! str "x-strata-edge-tls-version" = Some [] /\
  b !! str "x-strata-edge-tls-cipher" = Some [] /\ b !! str "x-strata-edge-tls-ja3" = Some [] /\
  b !! str "x-strata-edge-user-agent" = Some (chosen_ua h) /\
  b !! str "x-strata-edge-request-id" = Some (chosen_id uuid h) /\
  b !! str "x-strata-edge-link-id" = Some (s_link_id s) /\
  b !! str "x-strata-edge-timestamp-ms" = Some (int_to_string now).
Proof. intros b. unfold b, bundle. fold (chosen_ua h) (chosen_id uuid h). split_and!; canon_lookup. Qed.

Lemma sanitise_lookup canon n :
  n ∈ EDGE_HEADERS_CANONICAL -> sanitise canon !! n = clean <$> canon !! n.
Proof. intros Hin. unfold sanitise. rewrite sanitise_fold by apply canonical_nodup. by rewrite bool_decide_true. Qed.

Lemma canonical_cases (P : bytes -> Prop) :
  P (str "x-strata-edge-client-ip") -> P (str "x-strata-edge-tls-version") -> P (str "x-strata-edge-tls-cipher") ->
  P (str "x-strata-edge-tls-ja3") -> P (str "x-strata-edge-user-agent") -> P (str "x-strata-edge-request-id") ->
  P (str "x-strata-edge-link-id") -> P (str "x-strata-edge-timestamp-ms") ->
  forall n, n ∈ EDGE_HEADERS_CANONICAL -> P n.
Proof. intros ? ? ? ? ? ? ? ? n Hin. revert n Hin. apply Forall_forall. unfold EDGE_HEADERS_CANONICAL. by repeat apply Forall_cons_2. Qed.

Lemma sanitised_text s ip now uuid h :
  forallb is_visible ip = true -> forallb header_char uuid = true -> uuid <> [] -> wire_text (s_link_id s) -> is_i64 now ->
  all_text (sanitise (bundle s ip now uuid h)).
Proof.
  intros Hip Hu Hun Hl Hnow n Hin. rewrite sanitise_lookup by done.
  assert (exists v, bundle s ip now uuid h !! n = Some v /\ wire_text v) as (v & -> & Hv);
    [|exists (clean v); split; [done|by apply clean_text]].
  destruct (bundle_lookups s ip now uuid h) as (L1&L2&L3&L4&L5&L6&L7&L8).
  revert n Hin. apply canonical_cases; [exists ip|exists []|exists []|exists []|exists (chosen_ua h)
    |exists (chosen_id uuid h)|exists (s_link_id s)|exists (int_to_string now)]; (split; [done|]); try done; right; try done.
  - by apply visible_text.
  - apply chosen_ua_text.
  - by apply chosen_id_text.
  - apply visible_text, int_to_string_visible, i64_dec_bound. tauto.
Qed.

(** The signer never panics: its MAC is always a valid header value. *)
Lemma sign_request_total s peer now uuid h :
  exists mac, hv_to_str mac = Some (sign (sanitise (bundle s (resolve_client_ip h peer (trusted_proxies s)) now uuid
      (strip_headers stripped_at_edge h))) (s_key s)) /\
    sign_request s peer now uuid h =
      Some (emitted (sanitise (bundle s (resolve_client_ip h peer (trusted_proxies s)) now uuid
        (strip_headers stripped_at_edge h))) mac (strip_headers stripped_at_edge h)).
Proof.
  unfold sign_request, sign. set (tag := hmac _ _).
  destruct (hv_text (b64_encode STANDARD tag)) as (mac & Hf & Ht); [|exists mac; by rewrite Hf].
  apply visible_text, b64_encode_visible, hmac_ok.
Qed.

Definition unprefixed (h : hm) : Prop := forall n, starts_with EDGE_PREFIX n = true -> hm_get_all h n = [].

Lemma emitted_signed canon mac m h n :
  all_text canon -> unprefixed h -> hv_to_str mac = Some m -> n ∈ EDGE_HEADERS_CANONICAL ->
  signed_part (extract_edge_headers (emitted canon mac h)) !! n = canon !! n ≫= nonempty.
Proof.
  intros Ht Hh Hm Hin. rewrite signed_lookup, bool_decide_true by done.
  rewrite (emitted_extract canon mac m h n Ht Hh Hm (or_introl Hin)).
  rewrite bool_decide_false; [done|]. intros ->. by apply mac_not_canonical.
Qed.

Lemma nonempty_value o : default [] (o ≫= nonempty) = default [] o.
Proof. destruct o as [v|]; [|done]. cbn. unfold nonempty. case_bool_decide; by subst. Qed.

(** A bundle emitted with a tag of one of the keys is believed. *)
Lemma emitted_verified canon mac key h keys now now' :
  all_text canon -> unprefixed h -> hv_to_str mac = Some (sign canon key) -> key ∈ keys ->
  canon !! str "x-strata-edge-timestamp-ms" = Some (int_to_string now) -> is_i64 now ->
  0 <= now' < 2 ^ 62 -> Z.abs (now' - now) <= MAX_TIMESTAMP_SKEW_MS ->
  verify_edge_headers keys now' (emitted canon mac h) =
    (build_context (signed_part (extract_edge_headers (emitted canon mac h))), strip_edge_headers (emitted canon mac h)).
Proof.
  intros Ht Hh Hm Hkey Hts Hnow Hnow' Hskew. pose proof (fun n => emitted_signed canon mac (sign canon key) h n Ht Hh Hm) as Hs. unfold verify_edge_headers.
  destruct keys as [|k0 keys]; [by apply not_elem_of_nil in Hkey|].
  rewrite (emitted_extract canon mac _ h _ Ht Hh Hm (or_intror eq_refl)), bool_decide_true by done.
  rewrite (proj2 (verify_iff _ _ _)).
  - unfold check_timestamp. rewrite Hs by (apply (bool_decide_unpack _); by vm_compute). rewrite Hts. cbn [mbind option_bind].
    unfold nonempty. rewrite bool_decide_false by by apply int_to_string_visible, i64_dec_bound; tauto.
    unfold parse_i64. cbn [mbind option_bind]. rewrite parse_int_to_string by auto with strata. cbn [ok_or mbind result_bind].
    destruct (skewed _ _ _) eqn:Esk; [|done]. exfalso. apply not_false_iff_true in Esk. apply Esk.
    apply skewed_spec; [done|unfold MAX_TIMESTAMP_SKEW_MS; lia|done|by left].
  - exists key. split; [done|]. unfold sign. rewrite b64_tag. do 2 f_equal. apply canonical_input_ext. intros n Hin.
    unfold header_value. by rewrite (Hs n Hin), nonempty_value.
Qed.

(** What the next handler sees of a signed request. *)
Lemma passed_on canon mac h n :
  all_text canon -> unprefixed (strip_headers stripped_at_edge h) ->
  hm_get_all (strip_edge_headers (emitted canon mac (strip_headers stripped_at_edge h))) n =
    if stripped_at_edge n then [] else hm_get_all h n.
Proof.
  intros Ht Hh. unfold strip_edge_headers. rewrite strip_headers_get.
  destruct (starts_with EDGE_PREFIX n) eqn:Ep; [unfold stripped_at_edge; by rewrite Ep|].
  rewrite emitted_get by done.
  assert (~ (n ∈ EDGE_HEADERS_CANONICAL \/ n = EDGE_HEADER_MAC)) as Hn by (intros Hn; apply canonical_names in Hn; destruct Hn; congruence).
  rewrite !bool_decide_false by tauto. apply strip_headers_get.
Qed.

Lemma kept_text h n : stripped_at_edge n = false -> header_text (strip_headers stripped_at_edge h) n = header_text h n.
Proof. intros Hn. unfold header_text, hm_get. by rewrite strip_headers_get, Hn. Qed.

Lemma nonempty_Some v : v <> [] -> nonempty v = Some v.
Proof. intros Hv. unfold nonempty. by rewrite bool_decide_false. Qed.

(** The edge and the backend agree end to end.  Whatever headers a public
    client sends, a request signed at the edge with one of the backend's keys
    and received within sixty seconds is attributed: the backend's context
    carries the client address the edge resolved, the (truncated) user agent,
    the request id and the node id, and nothing a client injected; every
    header outside the stripped name spaces arrives unchanged, and the
    stripped ones are gone. *)
Lemma edge_end_to_end s peer now uuid h keys now' :
  s_key s ∈ keys -> wire_text (s_link_id s) -> forallb header_char uuid = true -> uuid <> [] ->
  is_i64 now -> 0 <= now' < 2 ^ 62 -> Z.abs (now' - now) <= MAX_TIMESTAMP_SKEW_MS ->
  exists signed passed,
    sign_request s peer now uuid h = Some signed /\
    verify_edge_headers keys now' signed =
      (Some (mk_context (resolve_client_ip h peer (trusted_proxies s)) None None None
               (nonempty (chosen_ua h)) (Some (chosen_id uuid h)) (nonempty (clean (s_link_id s)))), passed) /\
    forall n, hm_get_all passed n = if stripped_at_edge n then [] else hm_get_all h n.
Proof.
  intros Hkey Hlink Hu Hun Hnow Hnow' Hskew. set (hs := strip_headers stripped_at_edge h).
  set (ip := resolve_client_ip h peer (trusted_proxies s)). set (canon := sanitise (bundle s ip now uuid hs)).
  destruct (sign_request_total s peer now uuid h) as (mac & Hmac & ->). fold hs ip canon in Hmac |- *.
  destruct (resolve_visible h peer (trusted_proxies s)) as [Hip Hipn]. fold ip in Hip, Hipn.
  assert (all_text canon) as Ht by (by apply sanitised_text).
  assert (unprefixed hs) as Hh.
  { intros n Hn. unfold hs. rewrite strip_headers_get. unfold stripped_at_edge. by rewrite Hn. }
  assert (forall n, n ∈ EDGE_HEADERS_CANONICAL ->
    signed_part (extract_edge_headers (emitted canon mac hs)) !! n =
      (clean <$> bundle s ip now uuid hs !! n) ≫= nonempty) as Hs.
  { intros n Hin. rewrite (emitted_signed canon mac _ hs n Ht Hh Hmac Hin). unfold canon. by rewrite sanitise_lookup. }
  destruct (bundle_lookups s ip now uuid hs) as (L1&L2&L3&L4&L5&L6&L7&L8).
  eexists _, _. split; [done|]. rewrite (emitted_verified canon mac (s_key s) hs keys now now'); try done.
  - split; [|intros n; by apply passed_on]. f_equal. unfold build_context.
    rewrite !Hs by in_canonical. rewrite L1, L2, L3, L4, L5, L6, L7. cbn [fmap option_fmap option_map mbind option_bind].
    rewrite (clean_id ip), (clean_id (chosen_ua hs)), (clean_id (chosen_id uuid hs))
      by first [by apply visible_text|apply chosen_ua_text|by apply chosen_id_text].
    rewrite (nonempty_Some ip), (nonempty_Some (chosen_id uuid hs)) by first [done|by apply chosen_id_text].
    cbn [mbind option_bind]. unfold chosen_ua, chosen_id, hs. by rewrite !kept_text by done.
  - unfold canon. rewrite sanitise_lookup by in_canonical. rewrite L8. cbn [fmap option_fmap option_map].
    rewrite clean_id; [done|]. apply visible_text, int_to_string_visible, i64_dec_bound. tauto.
Qed.

(** What a context says about a canonical bundle. *)
Definition context_matches (c : TrustedEdgeContext) (canon : headers) : Prop :=
  c_client_ip c = header_value canon (str "x-strata-edge-client-ip") /\
  default [] (c_tls_version c) = header_value canon (str "x-strata-edge-tls-version") /\
  default [] (c_tls_cipher c) = header_value canon (str "x-strata-edge-tls-cipher") /\
  default [] (c_tls_ja3 c) = header_value canon (str "x-strata-edge-tls-ja3") /\
  default [] (c_user_agent c) = header_value canon (str "x-strata-edge-user-agent") /\
  default [] (c_request_id c) = header_value canon (str "x-strata-edge-request-id") /\
  default [] (c_link_id c) = header_value canon (str "x-strata-edge-link-id").

Lemma build_context_matches hs c canon :
  build_context hs = Some c ->
  (forall n, n ∈ EDGE_HEADERS_CANONICAL -> header_value hs n = header_value canon n) -> context_matches c canon.
Proof.
  unfold build_context. intros E Hv. apply bind_Some in E as (ip & Eip & [= <-]). unfold context_matches.
  cbn [c_client_ip c_tls_version c_tls_cipher c_tls_ja3 c_user_agent c_request_id c_link_id].
  rewrite <- !Hv by in_canonical. unfold header_value. by rewrite Eip.
Qed.


(** ** Client addresses *)

(** A hop the walk passes over. *)
Definition skipped (nets : list TrustedNet) (hop : bytes) : Prop :=
  trim hop = [] \/
  match parse_ip (default (trim hop) (head (split 37 (trim hop)))) with
  | Some ip => trusted_by nets ip = true
  | None => True
  end.

Definition hop_is (nets : list TrustedNet) (hop : bytes) (ip : IpAddr) : Prop :=
  trim hop <> [] /\ parse_ip (default (trim hop) (head (split 37 (trim hop)))) = Some ip /\ trusted_by nets ip = false.

Lemma first_untrusted_spec nets hops :
  match first_untrusted nets hops with
  | Some ip => exists before hop after, hops = before ++ hop :: after /\ hop_is nets hop ip /\ Forall (skipped nets) before
  | None => Forall (skipped nets) hops
  end.
Proof.
  induction hops as [|hop hops IH]; [by constructor|]. cbn [first_untrusted].
  assert (skipped nets hop ->
    match first_untrusted nets hops with
    | Some ip => exists before hop' after, hop :: hops = before ++ hop' :: after /\ hop_is nets hop' ip /\ Forall (skipped nets) before
    | None => Forall (skipped nets) (hop :: hops)
    end) as Hskip.
  { intros Hs. destruct (first_untrusted nets hops) as [ip|]; [|by constructor].
    destruct IH as (b & x & a & -> & Hx & Hb). exists (hop :: b), x, a. split_and!; [done..|by constructor]. }
  case_bool_decide as Hempty; [by apply Hskip; left|].
  destruct (parse_ip _) as [ip|] eqn:Ep; [|apply Hskip; right; by rewrite Ep].
  destruct (trusted_by nets ip) eqn:Et; [apply Hskip; right; by rewrite Ep|].
  exists [], hop, hops. split_and!; [done| |constructor]. by split_and!.
Qed.

(** The address the edge attributes a request to.  Unless the socket peer
    is a trusted proxy it is the peer's own, whatever the headers say; behind
    a trusted proxy it is the rightmost hop of the forwarding chain that
    parses and is not itself trusted, or the peer when there is none. *)
Lemma edge_client_ip_spec h p nets :
  if trusted_by nets p then
    match forwarded_chain h with
    | None => resolve_client_ip h (Some p) nets = ip_to_string p
    | Some chain =>
        (Forall (skipped nets) (rev (split 44 chain)) /\ resolve_client_ip h (Some p) nets = ip_to_string p) \/
        exists before hop after ip, rev (split 44 chain) = before ++ hop :: after /\ Forall (skipped nets) before /\
          hop_is nets hop ip /\ resolve_client_ip h (Some p) nets = ip_to_string ip
    end
  else resolve_client_ip h (Some p) nets = ip_to_string p.
Proof.
  unfold resolve_client_ip. destruct (trusted_by nets p); [|done]. destruct (forwarded_chain h) as [chain|]; [|done].
  cbn [mbind option_bind]. pose proof (first_untrusted_spec nets (rev (split 44 chain))) as Hf.
  destruct (first_untrusted _ _) as [ip|]; [|by left]. right. destruct Hf as (b & x & a & E & Hx & Hb). by exists b, x, a, ip.
Qed.

(** The internal client-address header cannot be forged: whatever the
    request carried under that name is replaced by exactly one value, the
    address of the verified edge context if there is one, and otherwise the
    socket peer's own unless forwarding headers are trusted and the peer is a
    trusted proxy; all other headers are left alone. *)
Lemma client_ip_stamped {ipnet} (ipnet_contains : ipnet -> IpAddr -> bool) edge p trust_xff trusted h :
  match edge with Some c => forallb header_char (c_client_ip c) = true | None => True end ->
  let h' := stamp_client_ip ipnet_contains edge (Some p) trust_xff trusted h in
  (exists v, hm_get_all h' CLIENT_IP_HEADER = [v] /\
     hv_to_str v = Some match edge with
       | Some c => c_client_ip c
       | None => ip_to_string (resolve ipnet_contains p (header_text h (str "x-forwarded-for")) trust_xff trusted)
       end) /\
  (trust_xff && is_trusted ipnet_contains p trusted = false ->
   resolve ipnet_contains p (header_text h (str "x-forwarded-for")) trust_xff trusted = p) /\
  forall n, n <> CLIENT_IP_HEADER -> hm_get_all h' n = hm_get_all h n.
Proof.
  intros He h'. set (a := match edge with Some c => c_client_ip c | None => _ end).
  assert (exists v, hv_from_str a = Some v /\ hv_to_str v = Some a) as (v & Hf & Hv).
  { apply hv_text. unfold a. destruct edge; [done|]. apply visible_text, ip_to_string_visible. }
  assert (h' = hm_insert CLIENT_IP_HEADER v (hm_remove CLIENT_IP_HEADER h)) as ->.
  { unfold h', stamp_client_ip. unfold a in Hf.
    destruct edge; cbn [fmap option_fmap option_map mbind option_bind]; by rewrite Hf. }
  split_and!.
  - exists v. by rewrite hm_get_all_insert, bool_decide_true.
  - intros Ht. unfold resolve. by destruct trust_xff, (is_trusted ipnet_contains p trusted).
  - intros n Hn. by rewrite hm_get_all_insert, hm_get_all_remove, !bool_decide_false.
Qed.
End edge_trust.

(** ** Witnesses *)

Module EdgeTrustExamples.
Import Reference.

Definition proxy : IpAddr := V4 167772161.
Definition node : HmacEdgeSigner := signer_from_config (str "edge-key") (str "dmz-1") [str "10.0.0.0/24"; str "bogus"].
Definition minted : bytes := str "1b4e28ba-2fa1-4d3b-a3f5-ef19b5a7633b".

(** A hostile public request: forged edge headers and an address header. *)
Definition public : entries :=
  [ (str "host", str "strata.example"); (str "user-agent", str "curl/8"); (str "x-strata-edge-client-ip", str "1.1.1.1");
    (str "x-strata-edge-trusted-mac", str "AAAA"); (str "x-request-id", str "id=1");
    (str "x-forwarded-for", str "6.6.6.6, 203.0.113.9, 10.0.0.7") ].

Lemma edge_end_to_end_witness :
  exists signed passed,
    sign_request node (Some proxy) 1700000000000 minted public = Some signed /\
    verify_edge_headers [str "old-key"; str "edge-key"] 1700000000500 signed =
      (Some (mk_context (resolve_client_ip public (Some proxy) (trusted_proxies node)) None None None
               (nonempty (chosen_ua public)) (Some (chosen_id minted public)) (nonempty (clean (s_link_id node)))), passed) /\
    forall n, hm_get_all passed n = if stripped_at_edge n then [] else hm_get_all public n.
Proof.
  apply (edge_end_to_end node (Some proxy) 1700000000000 minted public [str "old-key"; str "edge-key"] 1700000000500).
  - right. left.
  - by right.
  - reflexivity.
  - done.
  - unfold in_range, i64_min, i64_max. lia.
  - lia.
  - unfold MAX_TIMESTAMP_SKEW_MS. lia.
Defined.

(** What the backend learns of that request. *)
Example hostile_request_attributed :
  resolve_client_ip public (Some proxy) (trusted_proxies node) = str "203.0.113.9" /\
  chosen_id minted public = minted.
Proof. vm_compute. done. Qed.

Definition recorded : headers :=
  <[str "x-strata-edge-client-ip" := str "203.0.113.9"]> (<[str "x-strata-edge-timestamp-ms" := str "1700000000000"]> ∅).
Definition replayed : entries :=
  [ (str "x-strata-edge-client-ip", str "203.0.113.9"); (str "x-strata-edge-timestamp-ms", str "1700000000000");
    (str "x-strata-edge-unsigned", str "anything"); (EDGE_HEADER_MAC, sign recorded (str "edge-key")) ].
Definition replayed_context : TrustedEdgeContext := mk_context (str "203.0.113.9") None None None None None None.


Lemma client_ip_stamped_witness :
  exists v, hm_get_all (stamp_client_ip (fun (n : IpAddr) ip => bool_decide (n = ip)) None (Some (V4 3405803785)) true []
      [(CLIENT_IP_HEADER, str "127.0.0.1"); (str "x-forwarded-for", str "6.6.6.6")]) CLIENT_IP_HEADER = [v] /\
    hv_to_str v = Some (ip_to_string (V4 3405803785)).
Proof.
  destruct (client_ip_stamped (fun (n : IpAddr) ip => bool_decide (n = ip)) None (V4 3405803785) true []
    [(CLIENT_IP_HEADER, str "127.0.0.1"); (str "x-forwarded-for", str "6.6.6.6")] I) as ((v & Hg & Hv) & _).
  exact (ex_intro _ v (conj Hg Hv)).
Defined.

(** The edge prefers a [Forwarded] header over [X-Forwarded-For] and reads it
    as a list of addresses: a client behind a trusted proxy that only sets
    [X-Forwarded-For] chooses its own address by sending [Forwarded]. *)
Example forwarded_header_spoofs :
  let sent := [(str "forwarded", str "6.6.6.6"); (str "x-forwarded-for", str "203.0.113.9")] in
  resolve_client_ip sent (Some proxy) (trusted_proxies node) = str "6.6.6.6".
Proof. vm_compute. reflexivity. Qed.
End EdgeTrustExamples.
