(* ===== verification/RateLimit.v ===== *)
(** * The public rate limiter

    [crates/strata-dmz/src/limits.rs]: the striped per-address token bucket
    and the middleware that consults it.  Instants are nanoseconds; the
    hasher that picks a stripe is an argument. *)

From S2P Require Import Prelude Machine Net.

Local Open Scope Z_scope.

#[export] Program Instance IpAddr_countable : Countable IpAddr :=
  inj_countable' (fun a => (is_ipv4 a, bits_of a)) (fun '(f, b) => if (f : bool) then V4 b else V6 b) _.
Next Obligation. by intros []. Qed.

Definition NUM_STRIPES : nat := 16.
(** Ten minutes. *)
Definition IDLE_EVICT_AFTER : Z := 600 * 1000000000.

Record Bucket : Type := mk_bucket { tokens_milli : Z; last_refill : Z }.

Abbreviation stripe := (gmap IpAddr Bucket).

Record PerIpRateLimiter : Type := mk_limiter { stripes : list stripe; rate_rps : Z; burst : Z }.

(** [PerIpRateLimiter::new]. *)
Definition limiter_new (rate burst : Z) : PerIpRateLimiter := mk_limiter (replicate NUM_STRIPES ∅) rate burst.

(** [duration.as_millis() as i64]. *)
Definition as_millis_i64 (ns : Z) : Z := wrap_i 64 (ns / 1000000).

(** [now.saturating_duration_since(t)]. *)
Definition since (now t : Z) : Z := Z.max 0 (now - t).

Definition refill (rate burst_milli now : Z) (b : Bucket) : Bucket :=
  let elapsed := since now (last_refill b) in
  if negb (elapsed =? 0) then
    let add := i64_saturating_mul (as_millis_i64 elapsed) rate in
    mk_bucket (Z.min (i64_saturating_add (tokens_milli b) add) burst_milli) now
  else b.

Definition take_token (b : Bucket) : bool * Bucket :=
  if 1000 <=? tokens_milli b then (true, mk_bucket (tokens_milli b - 1000) (last_refill b)) else (false, b).

(** [map.retain(..)]. *)
Definition evict (now : Z) (m : stripe) : stripe :=
  filter (fun '(_, b) => since now (last_refill b) < IDLE_EVICT_AFTER) m.

(** The body of [check] on the caller's stripe. *)
Definition check_stripe (rate burst now : Z) (ip : IpAddr) (m : stripe) : bool * stripe :=
  let burst_milli := burst * 1000 in
  let entry := default (mk_bucket burst_milli now) (m !! ip) in
  let '(allow, entry) := take_token (refill rate burst_milli now entry) in
  (allow, evict now (<[ip := entry]> m)).

Section limiter.
Context (hash : IpAddr -> Z).

(** [stripe_for]: the index. *)
Definition stripe_for (ip : IpAddr) : nat := Z.to_nat (hash ip mod Z.of_nat NUM_STRIPES).

(** [PerIpRateLimiter::check] at time [now]. *)
Definition check (now : Z) (ip : IpAddr) (l : PerIpRateLimiter) : bool * PerIpRateLimiter :=
  if rate_rps l =? 0 then (true, l)
  else
    let i := stripe_for ip in
    let '(allow, m) := check_stripe (rate_rps l) (burst l) now ip (default ∅ (stripes l !! i)) in
    (allow, mk_limiter (<[i := m]> (stripes l)) (rate_rps l) (burst l)).

(** [PerIpRateLimiter::len]. *)
Definition limiter_len (l : PerIpRateLimiter) : nat := sum_list (size <$> stripes l).

(** [rate_limit_middleware]. *)
Inductive limited : Type := TooManyRequests (retry_after : Z) | Next.

Definition rate_limit_middleware (now : Z) (peer : IpAddr) (l : PerIpRateLimiter) : limited * PerIpRateLimiter :=
  let '(allowed, l) := check now peer l in
  (if allowed then Next else TooManyRequests 1, l).

(** A history of requests: how many of [ip]'s passed, and the limiter after. *)
Fixpoint serve (reqs : list (Z * IpAddr)) (ip : IpAddr) (l : PerIpRateLimiter) : Z * PerIpRateLimiter :=
  match reqs with
  | [] => (0, l)
  | (now, from) :: r =>
      let '(allow, l) := check now from l in
      let '(n, l) := serve r ip l in
      ((if allow && bool_decide (from = ip) then 1 else 0) + n, l)
  end.

(** The clock does not go back from [t], nor past [t']. *)
Fixpoint ordered (t t' : Z) (reqs : list (Z * IpAddr)) : Prop :=
  match reqs with
  | [] => t <= t'
  | (now, _) :: r => t <= now /\ ordered now t' r
  end.

(** ** The bound *)

(** What [ip] could still spend at time [t], in billionths of a token. *)
Definition level (rate burst t : Z) (b : option Bucket) : Z :=
  match b with
  | Some b => Z.min (burst * 1000000000) (tokens_milli b * 1000000 + rate * (t - last_refill b))
  | None => burst * 1000000000
  end.

Definition bucket_of (l : PerIpRateLimiter) (ip : IpAddr) : option Bucket :=
  m ← stripes l !! stripe_for ip; m !! ip.

Definition bucket_ok (burst t : Z) (b : Bucket) : Prop :=
  0 <= tokens_milli b <= burst * 1000 /\ 0 <= last_refill b <= t.

Definition limiter_ok (t : Z) (l : PerIpRateLimiter) : Prop :=
  length (stripes l) = NUM_STRIPES /\ is_u32 (rate_rps l) /\ is_u32 (burst l) /\
  Forall (map_Forall (fun _ b => bucket_ok (burst l) t b)) (stripes l).

Lemma refill_spec rate bst t b :
  is_u32 rate -> is_u32 bst -> 0 <= t <= i64_max -> bucket_ok bst t b ->
  bucket_ok bst t (refill rate (bst * 1000) t b) /\ last_refill (refill rate (bst * 1000) t b) = t /\
  tokens_milli (refill rate (bst * 1000) t b) * 1000000 <= level rate bst t (Some b).
Proof.
  unfold in_range, u32_max, i64_max. intros Hr Hb Ht [Hk Hl]. unfold refill, since, level.
  destruct (Z.max 0 (t - last_refill b) =? 0) eqn:E; b2p; cbn [negb].
  - unfold bucket_ok. split_and!; try lia. assert (last_refill b = t) by lia. subst. nia.
  - assert (0 < t - last_refill b) as Hd by lia. rewrite Z.max_r by lia. unfold as_millis_i64.
    set (ms := (t - last_refill b) / 1000000).
    assert (0 <= ms /\ ms * 1000000 <= t - last_refill b /\ ms <= t - last_refill b) as (Hm & Hm' & Hm'').
    { unfold ms. split; [apply Z.div_pos; lia|]. pose proof (Z.mul_div_le (t - last_refill b) 1000000).
      split; [lia|apply Z.div_le_upper_bound; lia]. }
    rewrite wrap_i64_id by (unfold in_range, i64_min, i64_max; lia). clearbody ms.
    unfold i64_saturating_mul, i64_saturating_add, i64_min, i64_max, bucket_ok. cbn [tokens_milli last_refill].
    assert (0 <= ms * rate) by nia. assert (ms * rate * 1000000 <= rate * (t - last_refill b)) by nia.
    split_and!; try lia.
Qed.

Lemma level_later rate bst t t' b : 0 <= rate -> t <= t' -> level rate bst t' b <= level rate bst t b + rate * (t' - t).
Proof. intros Hr Ht. destruct b; cbn; [|nia]. assert (rate * (t' - last_refill b) = rate * (t - last_refill b) + rate * (t' - t)) by ring. nia. Qed.

Lemma level_nonneg rate bst t b :
  0 <= rate -> 0 <= bst -> match b with Some b => bucket_ok bst t b | None => True end -> 0 <= level rate bst t b.
Proof. intros Hr Hb Hok. destruct b as [b|]; cbn; [|lia]. destruct Hok. nia. Qed.

(** Evicting an idle bucket gives nothing away as long as ten minutes refill
    it anyway. *)
Lemma evict_level rate bst t m q :
  0 <= rate -> bst <= 600 * rate -> map_Forall (fun _ b => bucket_ok bst t b) m ->
  level rate bst t (evict t m !! q) <= level rate bst t (m !! q).
Proof.
  intros Hr Hb Hm. destruct (evict t m !! q) as [b|] eqn:E; unfold evict in E.
  - apply map_lookup_filter_Some in E as [-> _]. done.
  - destruct (m !! q) as [b|] eqn:Eq; [|done]. apply map_lookup_filter_None in E as [E|E]; [congruence|].
    specialize (E b Eq). pose proof (Hm q b Eq) as [Hk Hl]. unfold since, IDLE_EVICT_AFTER in E. cbn [level].
    assert (600 * 1000000000 <= t - last_refill b) by lia. nia.
Qed.

Lemma take_token_spec b :
  let '(allow, b') := take_token b in
  last_refill b' = last_refill b /\ tokens_milli b' = tokens_milli b - (if allow then 1000 else 0) /\
  (0 <= tokens_milli b -> 0 <= tokens_milli b').
Proof. unfold take_token. case_test; b2p; cbn; lia. Qed.

Lemma check_stripe_spec rate bst t t0 ip m :
  is_u32 rate -> is_u32 bst -> bst <= 600 * rate -> 0 <= t0 <= t -> t <= i64_max ->
  map_Forall (fun _ b => bucket_ok bst t0 b) m ->
  let '(allow, m') := check_stripe rate bst t ip m in
  map_Forall (fun _ b => bucket_ok bst t b) m' /\
  forall q, (if allow && bool_decide (ip = q) then 1000000000 else 0) + level rate bst t (m' !! q) <=
            level rate bst t (m !! q).
Proof.
  intros Hr Hb Hbr Ht0 Ht Hm.
  assert (forall b, bucket_ok bst t0 b -> bucket_ok bst t b) as Hlater by (unfold bucket_ok; lia).
  set (entry := default (mk_bucket (bst * 1000) t) (m !! ip)).
  assert (bucket_ok bst t entry /\ level rate bst t (Some entry) <= level rate bst t (m !! ip)) as [He Hel].
  { unfold entry. destruct (m !! ip) as [b|] eqn:E; cbn [default from_option id].
    - split; [|done]. apply Hlater. exact (Hm ip b E).
    - unfold bucket_ok, in_range in *. cbn. lia. }
  destruct (refill_spec rate bst t entry Hr Hb ltac:(lia) He) as (Hok & Hlast & Htok).
  unfold check_stripe. fold entry. pose proof (take_token_spec (refill rate (bst * 1000) t entry)) as Hk.
  destruct (take_token _) as [allow e']. destruct Hk as (Hk1 & Hk2 & Hk3). destruct Hok as [Hok1 Hok2]. specialize (Hk3 ltac:(lia)).
  assert (map_Forall (fun _ b => bucket_ok bst t b) (<[ip := e']> m)) as Hins.
  { apply map_Forall_insert_2; [unfold bucket_ok; case_match; lia|]. intros q b Hq. apply Hlater. exact (Hm q b Hq). }
  split.
  - intros q b Hq. apply map_lookup_filter_Some in Hq as [Hq _]. exact (Hins q b Hq).
  - intros q. pose proof (evict_level rate bst t _ q ltac:(unfold in_range in *; lia) Hbr Hins) as Hev.
    destruct (decide (ip = q)) as [<-|Hne].
    + rewrite bool_decide_true, andb_true_r by done. rewrite lookup_insert_eq in Hev.
      assert (level rate bst t (Some e') <= tokens_milli e' * 1000000).
      { cbn [level]. rewrite Hk1, Hlast. nia. }
      destruct allow; lia.
    + rewrite bool_decide_false, andb_false_r by done. rewrite lookup_insert_ne in Hev by done. lia.
Qed.

Lemma check_spec l t0 t from ip :
  limiter_ok t0 l -> 0 < rate_rps l -> burst l <= 600 * rate_rps l -> 0 <= t0 <= t -> t <= i64_max ->
  let '(allow, l') := check t from l in
  limiter_ok t l' /\ rate_rps l' = rate_rps l /\ burst l' = burst l /\
  (if allow && bool_decide (from = ip) then 1000000000 else 0) + level (rate_rps l) (burst l) t (bucket_of l' ip) <=
    level (rate_rps l) (burst l) t (bucket_of l ip).
Proof.
  intros (Hlen & Hr & Hb & Hall) Hrate Hbr Ht0 Ht. unfold check. take_false (rate_rps l =? 0).
  assert (forall i, (i < NUM_STRIPES)%nat -> is_Some (stripes l !! i)) as Hidx by (intros i Hi; apply lookup_lt_is_Some; lia).
  assert (forall a, (stripe_for a < NUM_STRIPES)%nat) as Hst.
  { intros a. unfold stripe_for. pose proof (Z.mod_pos_bound (hash a) (Z.of_nat NUM_STRIPES)). unfold NUM_STRIPES in *. lia. }
  destruct (Hidx _ (Hst from)) as [m Hm]. rewrite Hm. cbn [default from_option id].
  assert (map_Forall (fun _ b => bucket_ok (burst l) t0 b) m) as Hmok by (by apply (Forall_lookup_1 _ _ _ _ Hall Hm)).
  pose proof (check_stripe_spec _ _ t t0 from m Hr Hb Hbr Ht0 Ht Hmok) as Hc.
  destruct (check_stripe _ _ _ _ _) as [allow m']. destruct Hc as [Hm' Hlev].
  split_and!; [|done|done|].
  - unfold limiter_ok. cbn [stripes rate_rps burst]. rewrite length_insert. split_and!; [done..|]. apply Forall_insert; [|done].
    eapply Forall_impl; [exact Hall|]. cbn. intros x Hx k b Hk. specialize (Hx k b Hk). unfold bucket_ok in *. lia.
  - unfold bucket_of. cbn [stripes]. destruct (decide (stripe_for from = stripe_for ip)) as [E|E].
    + rewrite <- E, list_lookup_insert_eq, Hm by (apply lookup_lt_Some in Hm; done). apply Hlev.
    + rewrite list_lookup_insert_ne by done. rewrite bool_decide_false, andb_false_r by congruence. lia.
Qed.

Lemma serve_spec reqs ip l t t' :
  limiter_ok t l -> 0 < rate_rps l -> burst l <= 600 * rate_rps l -> 0 <= t -> t' <= i64_max -> ordered t t' reqs ->
  fst (serve reqs ip l) * 1000000000 <=
    level (rate_rps l) (burst l) t (bucket_of l ip) + rate_rps l * (t' - t).
Proof.
  revert l t. induction reqs as [|[now from] reqs IH]; intros l t Hok Hr Hb Ht Ht' Ho; cbn [ordered serve] in *.
  - cbn [fst]. assert (0 <= level (rate_rps l) (burst l) t (bucket_of l ip)); [|nia].
    destruct Hok as (_ & Hr' & Hb' & Hall). unfold in_range in *. apply level_nonneg; [lia..|].
    unfold bucket_of. destruct (stripes l !! stripe_for ip) as [m|] eqn:Em; [|done]. cbn.
    destruct (m !! ip) as [b|] eqn:Eb; [|done]. exact (Forall_lookup_1 _ _ _ _ Hall Em ip b Eb).
  - destruct Ho as [Hle Ho]. assert (now <= t') as Hnow.
    { clear -Ho. revert now Ho. induction reqs as [|[n f] r IHr]; intros now Ho; cbn in Ho; [done|]. destruct Ho as [? Ho].
      specialize (IHr n Ho). lia. }
    pose proof (check_spec l t now from ip Hok Hr Hb ltac:(lia) ltac:(lia)) as Hc.
    destruct (check now from l) as [allow l']. destruct Hc as (Hok' & Er & Eb & Hlev).
    specialize (IH l' now Hok' ltac:(lia) ltac:(lia) ltac:(lia) Ht' Ho). destruct (serve reqs ip l') as [n l'']. cbn [fst] in *.
    rewrite Er, Eb in IH. pose proof (level_later (rate_rps l) (burst l) t now (bucket_of l ip) ltac:(lia) Hle).
    destruct (allow && bool_decide (from = ip)); nia.
Qed.

Lemma limiter_new_ok rate bst t : is_u32 rate -> is_u32 bst -> limiter_ok t (limiter_new rate bst).
Proof. intros Hr Hb. split_and!; [done..|]. apply Forall_replicate. apply map_Forall_empty. Qed.

Lemma limiter_new_bucket rate bst ip : bucket_of (limiter_new rate bst) ip = None.
Proof.
  unfold bucket_of, limiter_new. cbn [stripes]. destruct (replicate _ _ !! _) as [m|] eqn:E; [|done].
  apply lookup_replicate in E as [-> _]. apply lookup_empty.
Qed.

(** The limiter enforces its rate: over any interval and against any mix
    of other clients, an address gets at most [burst] requests through plus
    [rate] per second of the interval, in spite of refills being counted in
    whole milliseconds, of eviction of idle buckets and of the stripes being
    shared, provided the burst is at most ten minutes' worth of refill. *)
Lemma rate_limit_bound rate bst reqs ip t t' :
  is_u32 rate -> is_u32 bst -> 0 < rate -> bst <= 600 * rate -> 0 <= t -> t' <= i64_max -> ordered t t' reqs ->
  fst (serve reqs ip (limiter_new rate bst)) * 1000000000 <= bst * 1000000000 + rate * (t' - t).
Proof.
  intros Hr Hb Hpos Hbr Ht Ht' Ho.
  pose proof (serve_spec reqs ip (limiter_new rate bst) t t' (limiter_new_ok _ _ _ Hr Hb) Hpos Hbr Ht Ht' Ho) as Hs.
  rewrite limiter_new_bucket in Hs. exact Hs.
Qed.

(** Requests of one address, each less than a millisecond after the one
    before, the first less than a millisecond after [t]. *)
Fixpoint rapid (t : Z) (ip : IpAddr) (reqs : list (Z * IpAddr)) : Prop :=
  match reqs with
  | [] => True
  | (now, from) :: r => from = ip /\ t <= now < t + 1000000 /\ rapid now ip r
  end.

Lemma refill_nothing rate bm now b :
  0 <= now - last_refill b < 1000000 -> tokens_milli b <= bm -> in_range i64_min i64_max (tokens_milli b) ->
  refill rate bm now b = mk_bucket (tokens_milli b) now.
Proof.
  unfold in_range. intros Hn Hb Hk. unfold refill, since. rewrite Z.max_r by lia.
  destruct (now - last_refill b =? 0) eqn:E; b2p; cbn [negb].
  - replace now with (last_refill b) by lia. by destruct b.
  - unfold as_millis_i64. rewrite Z.div_small by lia. change (wrap_i 64 0) with 0.
    unfold i64_saturating_mul, i64_saturating_add. f_equal. unfold i64_min, i64_max in *. lia.
Qed.

Lemma rapid_denied reqs ip l b :
  rate_rps l <> 0 -> bucket_of l ip = Some b -> 0 <= tokens_milli b < 1000 -> tokens_milli b <= burst l * 1000 ->
  rapid (last_refill b) ip reqs -> fst (serve reqs ip l) = 0.
Proof.
  revert l b. induction reqs as [|[now from] reqs IH]; intros l b Hrate Hbk Hk Hcap Hrapid; cbn [serve rapid] in *; [done|].
  destruct Hrapid as (-> & Hnow & Hrapid). unfold bucket_of in Hbk. apply bind_Some in Hbk as (m & Hm & Hmb).
  unfold check. take_false (rate_rps l =? 0). rewrite Hm. cbn [default from_option id].
  unfold check_stripe. rewrite Hmb. cbn [default from_option id].
  rewrite refill_nothing by (unfold in_range, i64_min, i64_max; lia). unfold take_token. cbn [tokens_milli].
  take_false (1000 <=? tokens_milli b). cbn [andb]. set (l' := mk_limiter _ _ _).
  assert (bucket_of l' ip = Some (mk_bucket (tokens_milli b) now)) as Hbk'.
  { unfold bucket_of, l'. cbn [stripes]. rewrite list_lookup_insert_eq by (by apply lookup_lt_Some in Hm). cbn [mbind option_bind].
    apply map_lookup_filter_Some. rewrite lookup_insert_eq. split; [done|]. cbn. unfold since, IDLE_EVICT_AFTER. lia. }
  specialize (IH l' _ Hrate Hbk' Hk Hcap Hrapid). destruct (serve reqs ip l'). cbn in *. lia.
Qed.

(** But refills in whole milliseconds starve a client that is faster than
    that: once its bucket is empty, an address whose requests arrive less
    than a millisecond apart gets nothing through, for as long as it keeps
    going, although the bucket is meant to fill by [rate] tokens per second
    whatever the arrivals. *)
Lemma rapid_requests_starve reqs ip l b t :
  limiter_ok t l -> rate_rps l <> 0 -> bucket_of l ip = Some b -> tokens_milli b < 1000 ->
  rapid (last_refill b) ip reqs -> fst (serve reqs ip l) = 0.
Proof.
  intros (Hlen & Hr & Hb & Hall) Hrate Hbk Hk Hrapid. pose proof Hbk as Hbk'.
  unfold bucket_of in Hbk'. apply bind_Some in Hbk' as (m & Hm & Hmb).
  pose proof (Forall_lookup_1 _ _ _ _ Hall Hm ip b Hmb) as [Hk0 _]. apply (rapid_denied _ _ _ b); lia || done.
Qed.
End limiter.

(** ** Witnesses *)

Module RateExamples.
Definition by_bits (ip : IpAddr) : Z := bits_of ip.
Definition one : IpAddr := V4 1.
(** Three requests in the first millisecond, then one a second later; the
    stripe is shared with another client. *)
Definition traffic : list (Z * IpAddr) :=
  [(0, one); (1, V4 17); (200, one); (700, one); (1000000700, one); (1000000800, one)].

Lemma rate_limit_bound_witness :
  fst (serve by_bits traffic one (limiter_new 1 2)) * 1000000000 <= 2 * 1000000000 + 1 * (1000000800 - 0).
Proof.
  apply (rate_limit_bound by_bits 1 2 traffic one 0 1000000800); unfold in_range, u32_max, i64_max; cbn; lia.
Defined.

Example traffic_served : fst (serve by_bits traffic one (limiter_new 1 2)) = 3.
Proof. vm_compute. reflexivity. Qed.

(** A bucket emptied at time 0, and four requests half a millisecond apart
    although the rate is a million per second. *)
Definition drained : PerIpRateLimiter := snd (check by_bits 0 one (limiter_new 1000000 1)).

Lemma rapid_requests_starve_witness :
  fst (serve by_bits [(500000, one); (1000000, one); (1500000, one); (2000000, one)] one drained) = 0.
Proof.
  apply (rapid_requests_starve by_bits _ _ drained (mk_bucket 0 0) 0).
  - split_and!; [vm_compute; reflexivity|vm_compute; split; discriminate|vm_compute; split; discriminate|].
    apply (bool_decide_unpack _). vm_compute. reflexivity.
  - done.
  - vm_compute. reflexivity.
  - cbn. lia.
  - cbn. split_and!; done || lia.
Defined.
End RateExamples.
