(* ===== verification/Handshake.v ===== *)
(** * strata-protocol: the link handshake messages and their MAC

    [crates/strata-protocol/src/handshake.rs]: the four messages, the
    transcript they are bound to, and the computation and verification of
    the response.  [fresh_nonce_b64] takes the 32 random bytes as an
    argument. *)

From S2P Require Import Prelude Machine Text Crates Protocol.

Local Open Scope Z_scope.

Definition NONCE_LEN : nat := 32.

Definition HANDSHAKE_MAX_SKEW_MS : Z := 30000.

Record AuthHello : Type := {
  protocol_version : bytes;
  cluster_id : bytes;
  node_id : bytes;
  software_version : bytes;
  client_nonce_b64 : bytes;
  hello_timestamp_ms : Z
}.

Record AuthChallenge : Type := {
  server_nonce_b64 : bytes;
  psk_id : bytes
}.

Record AuthResponse : Type := { mac_b64 : bytes }.

Inductive AuthOutcome : Type :=
| Accept (link_id : bytes) (software_version : option bytes)
| Reject (reason : bytes).

#[export] Instance AuthHello_eq_dec : EqDecision AuthHello.
Proof. solve_decision. Defined.
#[export] Instance AuthChallenge_eq_dec : EqDecision AuthChallenge.
Proof. solve_decision. Defined.
#[export] Instance AuthResponse_eq_dec : EqDecision AuthResponse.
Proof. solve_decision. Defined.
#[export] Instance AuthOutcome_eq_dec : EqDecision AuthOutcome.
Proof. solve_decision. Defined.

(** [push] of [transcript]. *)
Definition transcript_push (buf b : bytes) : bytes :=
  buf ++ u32_to_be (wrap_u 32 (Z.of_nat (length b))) ++ b.

Definition transcript (client_nonce server_nonce cluster_id node_id : bytes) (timestamp_ms : Z)
    (psk_id : bytes) : bytes :=
  let buf := [] in
  let buf := transcript_push buf PROTOCOL_VERSION_STR in
  let buf := transcript_push buf client_nonce in
  let buf := transcript_push buf server_nonce in
  let buf := transcript_push buf cluster_id in
  let buf := transcript_push buf node_id in
  let buf := transcript_push buf (i64_to_be timestamp_ms) in
  let buf := transcript_push buf psk_id in
  buf.

Section handshake.
Context `{Base64} `{HmacSha256}.

Definition fresh_nonce_b64 (random : bytes) : bytes := b64_encode STANDARD random.

(** [compute_response]. *)
Definition compute_response (hello : AuthHello) (challenge : AuthChallenge) (psk : bytes) :
    result ProtocolError AuthResponse :=
  client_nonce ← ok_or (b64_decode STANDARD (client_nonce_b64 hello)) (PMalformed "client_nonce_b64");
  server_nonce ← ok_or (b64_decode STANDARD (server_nonce_b64 challenge)) (PMalformed "server_nonce_b64");
  if negb (length client_nonce =? NONCE_LEN)%nat || negb (length server_nonce =? NONCE_LEN)%nat
  then Err (PMalformed "nonce length")
  else
    let input := transcript client_nonce server_nonce (cluster_id hello) (node_id hello)
                   (hello_timestamp_ms hello) (psk_id challenge) in
    Ok {| mac_b64 := b64_encode STANDARD (hmac psk input) |}.

(** [verify_response]. *)
Definition verify_response (hello : AuthHello) (challenge : AuthChallenge) (response : AuthResponse)
    (psk : bytes) (now_ms : Z) : result ProtocolError unit :=
  if negb (bool_decide (protocol_version hello = PROTOCOL_VERSION_STR))
  then Err (VersionMismatch (protocol_version hello) PROTOCOL_VERSION_STR)
  else if skewed HANDSHAKE_MAX_SKEW_MS now_ms (hello_timestamp_ms hello) then Err Skew
  else
    client_nonce ← ok_or (b64_decode STANDARD (client_nonce_b64 hello)) (PMalformed "client_nonce_b64");
    server_nonce ← ok_or (b64_decode STANDARD (server_nonce_b64 challenge)) (PMalformed "server_nonce_b64");
    if negb (length client_nonce =? NONCE_LEN)%nat || negb (length server_nonce =? NONCE_LEN)%nat
    then Err (PMalformed "nonce length")
    else
      tag ← ok_or (b64_decode STANDARD (mac_b64 response)) (PMalformed "mac_b64");
      let input := transcript client_nonce server_nonce (cluster_id hello) (node_id hello)
                     (hello_timestamp_ms hello) (psk_id challenge) in
      if verify_slice psk input tag then Ok tt
      else Err (AuthFailed (str "response mac mismatch")).
End handshake.

#[global] Arguments transcript : simpl never.

(** ** The transcript determines its fields *)

Definition transcript_fields (cn sn cl nd : bytes) (ts : Z) (pid : bytes) : list bytes :=
  [PROTOCOL_VERSION_STR; cn; sn; cl; nd; i64_to_be ts; pid].

Lemma transcript_eq cn sn cl nd ts pid :
  transcript cn sn cl nd ts pid = concat (len_prefixed <$> transcript_fields cn sn cl nd ts pid).
Proof.
  unfold transcript, transcript_fields, transcript_push, len_prefixed.
  rewrite !fmap_cons, fmap_nil. cbn [concat app]. by rewrite app_nil_r, <- !(assoc_L (++)).
Qed.

Lemma short_small (b : bytes) : (length b <= 1000)%nat -> short b.
Proof. unfold short, u32_max. lia. Qed.

Lemma transcript_inj cn sn cl nd ts pid cn' sn' cl' nd' ts' pid' :
  Forall short [cn; sn; cl; nd; pid] -> Forall short [cn'; sn'; cl'; nd'; pid'] -> is_i64 ts -> is_i64 ts' ->
  transcript cn sn cl nd ts pid = transcript cn' sn' cl' nd' ts' pid' ->
  cn = cn' /\ sn = sn' /\ cl = cl' /\ nd = nd' /\ ts = ts' /\ pid = pid'.
Proof.
  intros Hs Hs' Ht Ht' E. rewrite !transcript_eq in E. rewrite !Forall_cons in Hs, Hs'.
  destruct_and! Hs. destruct_and! Hs'.
  assert (forall v, short (i64_to_be v)) as Hi by (intros; apply short_small; rewrite i64_to_be_length; lia).
  apply concat_len_prefixed_inj in E; [|done|by repeat apply Forall_cons_2; try apply Forall_nil_2..].
  pose proof (fun i => f_equal (fun l => nth i l []) E) as Ei.
  split_and!; [exact (Ei 1%nat)|exact (Ei 2%nat)|exact (Ei 3%nat)|exact (Ei 4%nat)| |exact (Ei 6%nat)].
  apply i64_to_be_inj; [done..|exact (Ei 5%nat)].
Qed.

Section handshake_properties.
Context `{Base64} `{HmacSha256}.

(** What a response is bound to. *)
Record binding : Type := {
  b_client_nonce : bytes; b_server_nonce : bytes; b_cluster : bytes; b_node : bytes;
  b_timestamp : Z; b_psk_id : bytes
}.

Definition binding_of (hello : AuthHello) (challenge : AuthChallenge) : option binding :=
  cn ← b64_decode STANDARD (client_nonce_b64 hello);
  sn ← b64_decode STANDARD (server_nonce_b64 challenge);
  if (length cn =? NONCE_LEN)%nat && (length sn =? NONCE_LEN)%nat then
    Some {| b_client_nonce := cn; b_server_nonce := sn; b_cluster := cluster_id hello;
            b_node := node_id hello; b_timestamp := hello_timestamp_ms hello;
            b_psk_id := psk_id challenge |}
  else None.

Definition binding_input (b : binding) : bytes :=
  transcript (b_client_nonce b) (b_server_nonce b) (b_cluster b) (b_node b) (b_timestamp b) (b_psk_id b).

Definition binding_wf (b : binding) : Prop :=
  short (b_cluster b) /\ short (b_node b) /\ short (b_psk_id b) /\ is_i64 (b_timestamp b).

Lemma binding_nonces hello challenge b :
  binding_of hello challenge = Some b ->
  length (b_client_nonce b) = NONCE_LEN /\ length (b_server_nonce b) = NONCE_LEN.
Proof.
  unfold binding_of. intros E. apply bind_Some in E as (cn & _ & E). apply bind_Some in E as (sn & _ & E).
  case_test. injection E as <-. by b2p.
Qed.

Lemma binding_input_inj h1 c1 h2 c2 b1 b2 :
  binding_of h1 c1 = Some b1 -> binding_of h2 c2 = Some b2 -> binding_wf b1 -> binding_wf b2 ->
  binding_input b1 = binding_input b2 -> b1 = b2.
Proof.
  intros E1 E2 (? & ? & ? & ?) (? & ? & ? & ?) E.
  apply binding_nonces in E1 as [??], E2 as [??].
  assert (forall n : bytes, length n = NONCE_LEN -> short n) as Hn
    by (intros n Hl; apply short_small; rewrite Hl; unfold NONCE_LEN; lia).
  unfold binding_input in E.
  apply transcript_inj in E as (? & ? & ? & ? & ? & ?);
    [|rewrite !Forall_cons; split_and!; auto..|assumption|assumption].
  destruct b1, b2. simpl in *. congruence.
Qed.

Lemma compute_response_Ok hello challenge psk r :
  compute_response hello challenge psk = Ok r <->
  exists b, binding_of hello challenge = Some b /\
    r = {| mac_b64 := b64_encode STANDARD (hmac psk (binding_input b)) |}.
Proof.
  unfold compute_response, binding_of.
  destruct (b64_decode _ (client_nonce_b64 _)) as [cn|]; cbn; [|by split; [|intros (? & ? & _)]].
  destruct (b64_decode _ (server_nonce_b64 _)) as [sn|]; cbn; [|by split; [|intros (? & ? & _)]].
  rewrite <- negb_andb. destruct (_ && _); cbn [negb].
  - split; [intros [= <-]; eauto|]. by intros (? & [= <-] & ->).
  - by split; [|intros (? & ? & _)].
Qed.

Lemma verify_response_Ok hello challenge r psk now :
  verify_response hello challenge r psk now = Ok tt <->
  protocol_version hello = PROTOCOL_VERSION_STR /\
  skewed HANDSHAKE_MAX_SKEW_MS now (hello_timestamp_ms hello) = false /\
  exists b, binding_of hello challenge = Some b /\
    b64_decode STANDARD (mac_b64 r) = Some (hmac psk (binding_input b)).
Proof.
  unfold verify_response, binding_of. destruct (bool_decide _) eqn:Ev; b2p; cbn [negb];
    [|by split; [|intros (? & _)]].
  destruct (skewed _ _ _); [by split; [|intros (_ & ? & _)]|].
  destruct (b64_decode _ (client_nonce_b64 _)) as [cn|]; cbn; [|by split; [|intros (_ & _ & ? & ? & _)]].
  destruct (b64_decode _ (server_nonce_b64 _)) as [sn|]; cbn; [|by split; [|intros (_ & _ & ? & ? & _)]].
  rewrite <- negb_andb. destruct (_ && _); cbn [negb]; [|by split; [|intros (_ & _ & ? & ? & _)]].
  destruct (b64_decode _ (mac_b64 _)) as [tag|]; cbn.
  - destruct (verify_slice _ _ _) eqn:Evs.
    + apply verify_slice_spec in Evs as ->. split; [eauto 10|done].
    + split; [done|]. intros (_ & _ & b & [= <-] & [= ->]). by rewrite verify_slice_refl in Evs.
  - split; [done|]. by intros (_ & _ & b & _ & ?).
Qed.

(** The response the internal node computes is the response the DMZ
    accepts: same messages, same key, same protocol version, clocks within
    the skew.  Any two 32-byte nonces do. *)
Lemma handshake_complete hello challenge psk cn sn now :
  protocol_version hello = PROTOCOL_VERSION_STR ->
  client_nonce_b64 hello = fresh_nonce_b64 cn -> server_nonce_b64 challenge = fresh_nonce_b64 sn ->
  bytes_ok cn -> bytes_ok sn -> length cn = NONCE_LEN -> length sn = NONCE_LEN ->
  skewed HANDSHAKE_MAX_SKEW_MS now (hello_timestamp_ms hello) = false ->
  exists r, compute_response hello challenge psk = Ok r /\
    verify_response hello challenge r psk now = Ok tt.
Proof.
  intros Hv Hc Hs Hcn Hsn Lc Ls Hsk.
  assert (exists b, binding_of hello challenge = Some b) as [b Hb].
  { unfold binding_of, fresh_nonce_b64 in *. rewrite Hc, Hs, !b64_decode_encode by done. cbn.
    rewrite Lc, Ls. eauto. }
  eexists. rewrite compute_response_Ok, verify_response_Ok. split; [by eauto|].
  split_and!; [done..|]. exists b. split; [done|]. cbn. by rewrite b64_decode_encode by apply hmac_ok.
Qed.


(** The clock check of the handshake, at machine precision: with a clock
    in the representable era a hello is accepted only within thirty seconds
    of it or at the single overflowing timestamp [now - 2^63], and outside
    both the reply is [Skew] whatever the MAC says. *)
Lemma handshake_skew hello challenge r psk now :
  0 <= now < 2 ^ 62 -> is_i64 (hello_timestamp_ms hello) ->
  protocol_version hello = PROTOCOL_VERSION_STR ->
  (verify_response hello challenge r psk now = Err Skew <->
   HANDSHAKE_MAX_SKEW_MS < Z.abs (now - hello_timestamp_ms hello) /\
   hello_timestamp_ms hello <> now - 2 ^ 63).
Proof.
  intros Hnow Hts Hv. assert (0 <= HANDSHAKE_MAX_SKEW_MS < 2 ^ 62) as Hl by (unfold HANDSHAKE_MAX_SKEW_MS; lia).
  pose proof (skewed_spec _ _ _ Hnow Hl Hts) as Hs. unfold verify_response.
  rewrite bool_decide_true by done. cbn [negb]. destruct (skewed _ _ _).
  - split; [intros _|done]. split.
    + apply Z.nle_gt. intros Hle. by discriminate (proj2 Hs (or_introl Hle)).
    + intros Heq. by discriminate (proj2 Hs (or_intror Heq)).
  - split; [|intros [? ?]; exfalso; destruct Hs as [Hs _]; destruct (Hs eq_refl); lia].
    intros E. exfalso. revert E. clear. repeat (case_match || destruct (b64_decode _ _); cbn); congruence.
Qed.
End handshake_properties.

(** ** Witnesses *)

Module HandshakeExamples.
Import Reference.
#[export] Instance hello_json : Json AuthHello :=
  fields_json
    (fun h => [protocol_version h; cluster_id h; node_id h; software_version h; client_nonce_b64 h;
               int_to_string (hello_timestamp_ms h)])
    (fun fs => match fs with
      | [a; b; c; d; e; t] =>
          ts ← parse_i64 t;
          Some {| protocol_version := a; cluster_id := b; node_id := c; software_version := d;
                  client_nonce_b64 := e; hello_timestamp_ms := ts |}
      | _ => None
      end).

#[export] Instance challenge_json : Json AuthChallenge :=
  fields_json (fun c => [server_nonce_b64 c; psk_id c])
    (fun fs => match fs with
      | [a; b] => Some {| server_nonce_b64 := a; psk_id := b |}
      | _ => None
      end).

#[export] Instance response_json : Json AuthResponse :=
  fields_json (fun r => [mac_b64 r])
    (fun fs => match fs with [a] => Some {| mac_b64 := a |} | _ => None end).

#[export] Instance outcome_json : Json AuthOutcome :=
  fields_json
    (fun o => match o with
      | Accept l None => [str "accept"; l]
      | Accept l (Some v) => [str "accept"; l; v]
      | Reject r => [str "reject"; r]
      end)
    (fun fs => match fs with
      | [tag; x] => if bool_decide (tag = str "accept") then Some (Accept x None) else Some (Reject x)
      | [_; l; v] => Some (Accept l (Some v))
      | _ => None
      end).

Definition hello : AuthHello :=
  {| protocol_version := PROTOCOL_VERSION_STR; cluster_id := str "production";
     node_id := str "internal-1"; software_version := str "1.5.0";
     client_nonce_b64 := fresh_nonce_b64 (replicate 32 7); hello_timestamp_ms := 1700000000000 |}.
Definition challenge : AuthChallenge :=
  {| server_nonce_b64 := fresh_nonce_b64 (replicate 32 9); psk_id := str "current" |}.
Definition psk : bytes := str "shared-link-psk".
Definition response : AuthResponse :=
  match compute_response hello challenge psk with Ok r => r | Err _ => {| mac_b64 := [] |} end.
Definition hello_binding : binding :=
  {| b_client_nonce := replicate 32 7; b_server_nonce := replicate 32 9; b_cluster := str "production";
     b_node := str "internal-1"; b_timestamp := 1700000000000; b_psk_id := str "current" |}.

Lemma nonce_ok b : byte_ok b -> bytes_ok (replicate 32 b).
Proof. intros Hb. by apply (Forall_replicate byte_ok 32 b). Qed.

Lemma handshake_complete_witness :
  exists r, compute_response hello challenge psk = Ok r /\
    verify_response hello challenge r psk 1700000030000 = Ok tt.
Proof.
  apply (handshake_complete _ _ _ (replicate 32 7) (replicate 32 9)); try done; apply nonce_ok; unfold byte_ok; lia.
Defined.

Lemma hello_binding_wf : binding_wf hello_binding.
Proof. split_and!; by vm_compute. Qed.


Lemma handshake_skew_witness :
  verify_response hello challenge response psk 1700000030001 = Err Skew <->
  HANDSHAKE_MAX_SKEW_MS < Z.abs (1700000030001 - hello_timestamp_ms hello) /\
  hello_timestamp_ms hello <> 1700000030001 - 2 ^ 63.
Proof. apply handshake_skew; [lia|by vm_compute|done]. Defined.
End HandshakeExamples.
