(* ===== verification/Link.v ===== *)
(** * strata-protocol: the link handshake drivers

    [crates/strata-protocol/src/link.rs].  Each driver is a program over a
    duplex stream whose only effects are writing and reading one frame.  Two
    semantics are given to such programs: [step], the composition of the two
    peers over a pair of byte channels, and [exec], one peer against an
    arbitrary environment (any incoming bytes, any write failure, any
    deadline). *)

From S2P Require Import Prelude Machine Text Crates Protocol Handshake.

Local Open Scope Z_scope.

(** ** Programs over a framed stream *)

Inductive proc (A : Type) : Type :=
| Done (a : A)
| Put (w : WriteIO -> bytes -> result ProtocolError unit * bytes)
      (k : result ProtocolError unit -> proc A)
| Get (T : Type) (r : bytes -> result ProtocolError T * bytes)
      (k : result ProtocolError T -> proc A).
Arguments Done {A} _.
Arguments Put {A} _ _.
Arguments Get {A} _ _ _.

Fixpoint pbind {A B} (p : proc A) (f : A -> proc B) : proc B :=
  match p with
  | Done a => f a
  | Put w k => Put w (fun r => pbind (k r) f)
  | Get T r k => Get T r (fun x => pbind (k x) f)
  end.

(** A fallible program; binding is Rust's [?]. *)
Definition prog (A : Type) : Type := proc (result ProtocolError A).

#[global] Instance prog_bind : MBind prog := fun A B f p =>
  pbind (p : proc (result ProtocolError A))
    (fun r => match r with Ok a => f a | Err e => Done (Err e) end).

Definition put {T} `{Json T} (msg : T) : prog unit :=
  Put (fun io w => write_frame io w msg) Done.

Definition get (T : Type) `{Json T} : prog T := Get T read_frame Done.

Definition lift {A} (r : result ProtocolError A) : prog A := Done r.

(** [let _ = write_frame(..).await;] *)
Definition put_ignore {T} `{Json T} (msg : T) : prog unit :=
  Put (fun io w => write_frame io w msg) (fun _ => Done (Ok tt)).

(** ** The two drivers *)

Record ClientHandshakeConfig : Type := {
  c_cluster_id : bytes; c_node_id : bytes; c_software_version : bytes; c_psks : gmap bytes bytes
}.

Record LinkAccepted : Type := { a_link_id : bytes; remote_software_version : option bytes }.

Record ServerHandshakeConfig : Type := {
  s_psk_id : bytes; s_psks : gmap bytes bytes; s_link_id : bytes; s_software_version : bytes
}.

Record LinkPeer : Type := { p_cluster_id : bytes; p_node_id : bytes; p_software_version : bytes }.

Section drivers.
Context `{Base64} `{HmacSha256} `{Json AuthHello} `{Json AuthChallenge} `{Json AuthResponse} `{Json AuthOutcome}.

(** The hello the client sends, from its random nonce and its clock. *)
Definition client_hello (cfg : ClientHandshakeConfig) (nonce : bytes) (now_ms : Z) : AuthHello :=
  {| protocol_version := PROTOCOL_VERSION_STR; cluster_id := c_cluster_id cfg; node_id := c_node_id cfg;
     software_version := c_software_version cfg; client_nonce_b64 := fresh_nonce_b64 nonce;
     hello_timestamp_ms := now_ms |}.

Definition client_handshake (cfg : ClientHandshakeConfig) (nonce : bytes) (now_ms : Z) : prog LinkAccepted :=
  let hello := client_hello cfg nonce now_ms in
  _ ← put hello;
  challenge ← get AuthChallenge;
  psk ← lift (ok_or (c_psks cfg !! psk_id challenge) (AuthFailed (str "requested psk_id not configured")));
  response ← lift (compute_response hello challenge psk);
  _ ← put response;
  outcome ← get AuthOutcome;
  match outcome with
  | Accept link_id software_version =>
      lift (Ok {| a_link_id := link_id; remote_software_version := software_version |})
  | Reject reason => lift (Err (AuthFailed reason))
  end.

Definition server_challenge (cfg : ServerHandshakeConfig) (nonce : bytes) : AuthChallenge :=
  {| server_nonce_b64 := fresh_nonce_b64 nonce; psk_id := s_psk_id cfg |}.

Definition server_handshake (cfg : ServerHandshakeConfig) (nonce : bytes) (now_ms : Z) : prog LinkPeer :=
  hello ← get AuthHello;
  psk ← lift (ok_or (s_psks cfg !! s_psk_id cfg) (AuthFailed (str "configured psk_id missing from psk map")));
  let challenge := server_challenge cfg nonce in
  _ ← put challenge;
  response ← get AuthResponse;
  match verify_response hello challenge response psk now_ms with
  | Ok _ =>
      _ ← put (Accept (s_link_id cfg) (Some (s_software_version cfg)));
      lift (Ok {| p_cluster_id := cluster_id hello; p_node_id := node_id hello;
                  p_software_version := software_version hello |})
  | Err e =>
      _ ← put_ignore (Reject (str "authentication failed"));
      lift (Err e)
  end.
End drivers.

(** ** One peer against any environment

    [deadline] is how many stream operations complete before
    [HANDSHAKE_TIMEOUT]; [ios] are the outcomes of the writes. *)
Fixpoint exec {A} (deadline : nat) (p : prog A) (ios : list WriteIO) (inbox outbox : bytes) :
    result ProtocolError A * bytes :=
  match p, deadline with
  | Done r, _ => (r, outbox)
  | _, O => (Err (AuthFailed (str "handshake timed out")), outbox)
  | Put w k, S d =>
      let '(r, outbox) := w (hd write_ok ios) outbox in exec d (k r) (tl ios) inbox outbox
  | Get T rd k, S d => let '(x, inbox) := rd inbox in exec d (k x) ios inbox outbox
  end.

(** ** The two peers over a duplex stream *)

Record link (A B : Type) : Type := mk_link {
  client : prog A; server : prog B; c2s : bytes; s2c : bytes
}.
Arguments mk_link {A B} _ _ _ _.
Arguments client {A B} _. Arguments server {A B} _. Arguments c2s {A B} _. Arguments s2c {A B} _.

(** A read returns once its frame is complete or its length prefix is
    refused. *)
Definition frame_ready (ch : bytes) : bool :=
  (4 <=? length ch)%nat &&
  ((Z.of_nat MAX_FRAME_PAYLOAD <? u32_from_be (take 4 ch)) ||
   (4 + Z.to_nat (u32_from_be (take 4 ch)) <=? length ch)%nat).

(** The step of one peer that reads from [inp] and writes to [out]. *)
Definition peer_step {A} (p : prog A) (inp out : bytes) : option (prog A * bytes * bytes) :=
  match p with
  | Done _ => None
  | Put w k => let '(r, out) := w write_ok out in Some (k r, inp, out)
  | Get T rd k => if frame_ready inp then let '(x, inp) := rd inp in Some (k x, inp, out) else None
  end.

Inductive step {A B} : link A B -> link A B -> Prop :=
| client_step p p' q cs cs' sc sc' :
    peer_step p sc cs = Some (p', sc', cs') -> step (mk_link p q cs sc) (mk_link p' q cs' sc')
| server_step p q q' cs cs' sc sc' :
    peer_step q cs sc = Some (q', cs', sc') -> step (mk_link p q cs sc) (mk_link p q' cs' sc').

(** Every run from [a] takes at most [n] steps, and every run of [m] steps
    goes on to [z] in exactly [n - m] more. *)
Definition runs_to {A B} (n : nat) (a z : link A B) : Prop :=
  forall m c, nsteps step m a c -> (m <= n)%nat /\ nsteps step (n - m) c z.

Lemma runs_to_0 {A B} (z : link A B) : (forall c, ~ step z c) -> runs_to 0 z z.
Proof. intros Hz m c Hs. inversion Hs; subst; [|by exfalso; eapply Hz]. split; [lia|constructor]. Qed.

Lemma runs_to_S {A B} n (a b z : link A B) :
  (forall c, step a c <-> c = b) -> runs_to n b z -> runs_to (S n) a z.
Proof.
  intros Ha Hb m c Hs. inversion Hs as [|m' ? y ? Hy Hs']; subst.
  - split; [lia|]. rewrite Nat.sub_0_r. apply nsteps_l with b; [by apply Ha|].
    destruct (Hb 0%nat b) as [_ Hz]; [constructor|]. by rewrite Nat.sub_0_r in Hz.
  - apply Ha in Hy as ->. apply Hb in Hs' as [? ?]. split; [lia|]. by rewrite Nat.sub_succ.
Qed.

(** When one peer is blocked, the other one's step is the only one. *)
Lemma step_client_only {A B} (p p' : prog A) (q : prog B) cs cs' sc sc' :
  peer_step q cs sc = None -> peer_step p sc cs = Some (p', sc', cs') ->
  forall c, step (mk_link p q cs sc) c <-> c = mk_link p' q cs' sc'.
Proof.
  intros Hq Hp c. split; [|intros ->; by constructor]. inversion 1; subst; [by simplify_eq|].
  by simplify_eq.
Qed.

Lemma step_server_only {A B} (p : prog A) (q q' : prog B) cs cs' sc sc' :
  peer_step p sc cs = None -> peer_step q cs sc = Some (q', cs', sc') ->
  forall c, step (mk_link p q cs sc) c <-> c = mk_link p q' cs' sc'.
Proof.
  intros Hp Hq c. split; [|intros ->; by apply server_step]. inversion 1; subst; by simplify_eq.
Qed.

Lemma step_none {A B} (p : prog A) (q : prog B) cs sc :
  peer_step p sc cs = None -> peer_step q cs sc = None -> forall c, ~ step (mk_link p q cs sc) c.
Proof. intros Hp Hq c. inversion 1; by simplify_eq. Qed.

(** The message serialises and fits in one frame. *)
Definition sendable {T} `{Json T} (msg : T) : Prop :=
  exists body, json_to_vec msg = Some body /\ (length body <= MAX_FRAME_PAYLOAD)%nat.

Lemma frame_ready_frame body : (length body <= MAX_FRAME_PAYLOAD)%nat -> frame_ready (frame body) = true.
Proof.
  intros Hl. unfold frame_ready, frame. rewrite take_app_length' by (by rewrite to_be_length_4).
  rewrite u32_from_to_be, Nat2Z.id, length_app, to_be_length_4 by (by apply frame_length_u32).
  apply andb_true_intro. split; [bdec|]. apply orb_true_iff. right. bdec.
Qed.

(** A healthy write of a sendable message puts one frame on an empty
    channel, which the peer's read takes off whole. *)
Lemma sendable_frame {T} `{Json T} (msg : T) :
  sendable msg ->
  exists f, write_frame write_ok [] msg = (Ok tt, f) /\ frame_ready f = true /\ read_frame f = (Ok msg, []).
Proof.
  intros (body & Hb & Hl). exists (frame body). split_and!.
  - by apply (write_frame_ok []).
  - by apply frame_ready_frame.
  - rewrite <- (app_nil_r (frame body)). by apply read_frame_ok.
Qed.

(** One round of a run in which only one peer can move: [tac] computes its
    step. *)
Ltac client_moves tac :=
  eapply runs_to_S; [eapply step_client_only; [done|cbn [peer_step]; tac; reflexivity]|];
  cbn [pbind mbind prog_bind lift].
Ltac server_moves tac :=
  eapply runs_to_S; [eapply step_server_only; [done|cbn [peer_step]; tac; reflexivity]|];
  cbn [pbind mbind prog_bind lift].

Section link_properties.
Context `{Base64} `{HmacSha256} `{Json AuthHello} `{Json AuthChallenge} `{Json AuthResponse} `{Json AuthOutcome}.
Variables (ccfg : ClientHandshakeConfig) (scfg : ServerHandshakeConfig).
Variables (cn sn : bytes) (now_c now_s : Z).

Let hello := client_hello ccfg cn now_c.
Let challenge := server_challenge scfg sn.

(** Where the handshake ends, from the server's verdict. *)
Definition link_final (psk : bytes) (r : AuthResponse) : link LinkAccepted LinkPeer :=
  match verify_response hello challenge r psk now_s with
  | Ok _ =>
      mk_link (Done (Ok {| a_link_id := s_link_id scfg;
                           remote_software_version := Some (s_software_version scfg) |}))
              (Done (Ok {| p_cluster_id := c_cluster_id ccfg; p_node_id := c_node_id ccfg;
                           p_software_version := c_software_version ccfg |})) [] []
  | Err e =>
      mk_link (Done (Err (AuthFailed (str "authentication failed")))) (Done (Err e)) [] []
  end.


Local Ltac exec_case E :=
  match type of E with
  | context [exec ?d _ _ _ _] => destruct d as [|d]; cbn [exec] in E; try discriminate E
  end.

(** Whatever bytes a peer sends, whatever writes fail and whenever the
    deadline strikes, the DMZ reports a link only if it read a hello and a
    response and that response verified, under the PSK it chose, against
    its own challenge and clock; and the identity it reports is the one in
    the authenticated hello. *)
Lemma server_accepts_authentic d ios inbox outbox peer out :
  exec d (server_handshake scfg sn now_s) ios inbox outbox = (Ok peer, out) ->
  exists h r psk i1 i2,
    read_frame inbox = (Ok h, i1) /\ read_frame i1 = (Ok r, i2) /\
    s_psks scfg !! s_psk_id scfg = Some psk /\
    verify_response h challenge r psk now_s = Ok tt /\
    peer = {| p_cluster_id := cluster_id h; p_node_id := node_id h; p_software_version := software_version h |}.
Proof.
  unfold server_handshake, put, put_ignore, get. fold challenge. cbn [pbind mbind prog_bind].
  intros E. exec_case E.
  destruct (read_frame inbox) as [[h|] i1] eqn:Eh; cbn [exec pbind mbind prog_bind] in E; [|by destruct d].
  destruct (s_psks scfg !! s_psk_id scfg) as [psk|] eqn:Ep; cbn [ok_or lift exec pbind mbind prog_bind] in E;
    [|by destruct d].
  exec_case E. destruct (write_frame (hd write_ok ios) outbox challenge) as [[u|] o1];
    cbn [exec pbind mbind prog_bind] in E; [|by destruct d].
  exec_case E. destruct (read_frame i1) as [[r|] i2] eqn:Er; cbn [exec pbind mbind prog_bind] in E;
    [|by destruct d].
  destruct (verify_response h challenge r psk now_s) as [[]|] eqn:Ev; cbn [exec pbind mbind prog_bind] in E;
    exec_case E; destruct (write_frame _ o1 _) as [[[]|] o2]; cbn [exec lift pbind mbind prog_bind] in E;
    destruct d; cbn [exec lift] in E; try discriminate E; injection E as <- _; eauto 15.
Qed.

(** The internal node reports a link up only after it read a challenge
    naming a PSK it has, sent a response computed for it, and read an
    [Accept]; every other outcome (a missing PSK, a bad nonce, a rejection,
    an I/O error, the deadline) is an error. *)
Lemma client_accepts_only_accept d ios inbox outbox acc out :
  exec d (client_handshake ccfg cn now_c) ios inbox outbox = (Ok acc, out) ->
  exists ch psk r i1 i2,
    read_frame inbox = (Ok ch, i1) /\ c_psks ccfg !! psk_id ch = Some psk /\
    compute_response hello ch psk = Ok r /\
    read_frame i1 = (Ok (Accept (a_link_id acc) (remote_software_version acc)), i2).
Proof.
  unfold client_handshake, put, get. fold hello. cbn [pbind mbind prog_bind].
  intros E. exec_case E. destruct (write_frame _ outbox hello) as [[u|] o1];
    cbn [exec pbind mbind prog_bind] in E; [|by destruct d].
  exec_case E. destruct (read_frame inbox) as [[ch|] i1] eqn:Eh;
    cbn [exec pbind mbind prog_bind] in E; [|by destruct d].
  destruct (c_psks ccfg !! psk_id ch) as [psk|] eqn:Ep; cbn [ok_or lift exec pbind mbind prog_bind] in E;
    [|by destruct d].
  destruct (compute_response hello ch psk) as [r|] eqn:Er; cbn [lift exec pbind mbind prog_bind] in E;
    [|by destruct d].
  exec_case E. destruct (write_frame _ o1 r) as [[u2|] o2]; cbn [exec pbind mbind prog_bind] in E;
    [|by destruct d].
  exec_case E. destruct (read_frame i1) as [[[l v|why]|] i2] eqn:Eo;
    cbn [exec lift pbind mbind prog_bind] in E; destruct d; cbn [exec lift] in E; try discriminate E;
    injection E as <- _; eauto 15.
Qed.
End link_properties.

(** ** Witnesses *)

Module LinkExamples.
Import Reference HandshakeExamples.
Definition ccfg : ClientHandshakeConfig :=
  {| c_cluster_id := str "production"; c_node_id := str "internal-1"; c_software_version := str "1.5.0";
     c_psks := {[ str "current" := psk ]} |}.
Definition scfg : ServerHandshakeConfig :=
  {| s_psk_id := str "current"; s_psks := {[ str "current" := psk ]}; s_link_id := str "dmz-1";
     s_software_version := str "1.5.0" |}.
Definition now : Z := 1700000000000.
Definition cn : bytes := replicate 32 7.
Definition sn : bytes := replicate 32 9.

Definition sendable_b {T} `{Json T} (msg : T) : bool :=
  match json_to_vec msg with Some b => Z.of_nat (length b) <=? 65536 | None => false end.

Lemma sendable_check {T} `{Json T} (msg : T) : sendable_b msg = true -> sendable msg.
Proof.
  unfold sendable_b, sendable. destruct (json_to_vec msg) as [b|]; [|done]. intros Hb. b2p.
  exists b. split; [done|]. unfold MAX_FRAME_PAYLOAD. lia.
Qed.

Definition accepted : link LinkAccepted LinkPeer :=
  mk_link (Done (Ok {| a_link_id := str "dmz-1"; remote_software_version := Some (str "1.5.0") |}))
    (Done (Ok {| p_cluster_id := str "production"; p_node_id := str "internal-1";
                 p_software_version := str "1.5.0" |})) [] [].

Lemma final_accept : link_final ccfg scfg cn sn now now psk response = accepted.
Proof. by vm_compute. Qed.


(** The bytes the other side of an honest run sends. *)
Definition sent {T} `{Json T} (msg : T) : bytes := snd (write_frame write_ok [] msg).

Lemma server_accepts_authentic_witness :
  exists h r psk i1 i2,
    read_frame (sent hello ++ sent response) = (Ok h, i1) /\ read_frame i1 = (Ok r, i2) /\
    s_psks scfg !! s_psk_id scfg = Some psk /\
    verify_response h (server_challenge scfg sn) r psk now = Ok tt /\
    {| p_cluster_id := str "production"; p_node_id := str "internal-1"; p_software_version := str "1.5.0" |} =
    {| p_cluster_id := cluster_id h; p_node_id := node_id h; p_software_version := software_version h |}.
Proof.
  eapply (server_accepts_authentic scfg sn now 4 [] (sent hello ++ sent response) []). by vm_compute.
Defined.

Lemma client_accepts_only_accept_witness :
  exists ch psk r i1 i2,
    read_frame (sent challenge ++ sent (Accept (str "dmz-1") None)) = (Ok ch, i1) /\
    c_psks ccfg !! psk_id ch = Some psk /\ compute_response (client_hello ccfg cn now) ch psk = Ok r /\
    read_frame i1 = (Ok (Accept (str "dmz-1") None), i2).
Proof.
  eapply (client_accepts_only_accept ccfg cn now 4 [] _ []
    {| a_link_id := str "dmz-1"; remote_software_version := None |}). by vm_compute.
Defined.

(** A peer that goes silent before its response, a write that fails, and a
    deadline that strikes early. *)
Example server_times_out :
  fst (exec 3 (server_handshake scfg sn now) [] (sent hello ++ sent response) []) =
    Err (AuthFailed (str "handshake timed out")).
Proof. by vm_compute. Qed.

Example server_wrong_psk :
  fst (exec 4 (server_handshake {| s_psk_id := str "current"; s_psks := {[ str "current" := str "other" ]};
     s_link_id := str "dmz-1"; s_software_version := str "1.5.0" |} sn now) [] (sent hello ++ sent response) []) =
    Err (AuthFailed (str "response mac mismatch")).
Proof. by vm_compute. Qed.
End LinkExamples.
