(* ===== verification/Resume.v ===== *)
(** * Resume tokens and the registry of suspended sessions

    [crates/strata-protocol/src/resume_token.rs] ([seal], [unseal]) and
    [backend/src/services/dmz_link/resume.rs] ([ResumeRegistry]).  The random
    token id and the wall clock are arguments.  The registry's methods run
    under one mutex, so a concurrent history is a sequence of operations:
    [Inductive reg_op] and [reg_run]. *)

From S2P Require Import Prelude Machine Text Crates Protocol.

Local Open Scope Z_scope.

Definition TOKEN_ID_LEN : nat := 16.
Definition MAC_LEN : nat := 32.
Definition TOKEN_RAW_LEN : nat := TOKEN_ID_LEN + 8 + MAC_LEN.

(** Thirty seconds, in milliseconds. *)
Definition DEFAULT_RESUME_WINDOW : Z := 30000.

Record ResumeToken : Type := mk_token { token_id : bytes; expiry_ms : Z }.

#[export] Instance ResumeToken_eq_dec : EqDecision ResumeToken.
Proof. solve_decision. Defined.

Section tokens.
Context `{Base64} `{HmacSha256}.

Definition seal (token_id : bytes) (expiry_ms : Z) (key : bytes) : ResumeToken * bytes :=
  let buf := token_id ++ i64_to_be expiry_ms in
  let tag := hmac key buf in
  (mk_token token_id expiry_ms, b64_encode URL_SAFE_NO_PAD (buf ++ tag)).

Definition unseal (token : bytes) (key : bytes) (now_ms : Z) : result ProtocolError ResumeToken :=
  raw ← ok_or (b64_decode URL_SAFE_NO_PAD token) InvalidResumeToken;
  if negb (length raw =? TOKEN_RAW_LEN)%nat then Err InvalidResumeToken
  else if negb (verify_slice key (take (TOKEN_ID_LEN + 8) raw) (drop (TOKEN_ID_LEN + 8) raw))
  then Err InvalidResumeToken
  else
    let token_id := take TOKEN_ID_LEN raw in
    let expiry_ms := i64_from_be (take 8 (drop TOKEN_ID_LEN raw)) in
    if expiry_ms <? now_ms then Err InvalidResumeToken
    else Ok (mk_token token_id expiry_ms).

(** The 56 bytes of a token. *)
Definition token_raw (t : ResumeToken) (key : bytes) : bytes :=
  (token_id t ++ i64_to_be (expiry_ms t)) ++ hmac key (token_id t ++ i64_to_be (expiry_ms t)).

Definition token_wf (t : ResumeToken) : Prop :=
  length (token_id t) = TOKEN_ID_LEN /\ bytes_ok (token_id t) /\ is_i64 (expiry_ms t).

Lemma token_raw_length t key : token_wf t -> length (token_raw t key) = TOKEN_RAW_LEN.
Proof.
  intros (Hl & _ & _). unfold token_raw. by rewrite !length_app, Hl, i64_to_be_length, hmac_length.
Qed.

Lemma token_raw_ok t key : token_wf t -> bytes_ok (token_raw t key).
Proof.
  intros (_ & Hok & _). unfold token_raw. rewrite !Forall_app.
  split_and!; [done|apply to_be_ok|apply hmac_ok].
Qed.

Lemma unseal_raw t key now w :
  token_wf t -> b64_decode URL_SAFE_NO_PAD w = Some (token_raw t key) ->
  unseal w key now = if expiry_ms t <? now then Err InvalidResumeToken else Ok t.
Proof.
  intros Hw Hd. unfold unseal. rewrite Hd. cbn [ok_or mbind result_bind].
  rewrite token_raw_length by done. change (TOKEN_RAW_LEN =? TOKEN_RAW_LEN)%nat with true. cbn [negb].
  destruct Hw as (Hl & _ & Hi). unfold token_raw.
  assert (length (token_id t ++ i64_to_be (expiry_ms t)) = TOKEN_ID_LEN + 8)%nat as Hb
    by (by rewrite length_app, Hl, i64_to_be_length).
  rewrite take_app_length', drop_app_length' by done. rewrite verify_slice_refl. cbn [negb].
  rewrite <- !(assoc_L (++)). rewrite (take_app_length' (token_id t)), (drop_app_length' (token_id t)) by done.
  rewrite take_app_length' by (by rewrite i64_to_be_length). rewrite i64_from_to_be by done. by destruct t.
Qed.

Lemma unseal_inv w key now t :
  unseal w key now = Ok t ->
  token_wf t /\ b64_decode URL_SAFE_NO_PAD w = Some (token_raw t key) /\ now <= expiry_ms t.
Proof.
  intros E. unfold unseal in E. apply result_bind_Ok in E as (raw & Er & E). apply ok_or_Ok in Er.
  do 3 case_test. b2p. injection E as <-. apply verify_slice_spec in Hb0.
  pose proof (b64_decode_ok _ _ _ Er) as Hok. unfold TOKEN_RAW_LEN, TOKEN_ID_LEN, MAC_LEN in *.
  set (id := take 16 raw) in *. set (tb := take 8 (drop 16 raw)) in *.
  assert (length tb = 8%nat) as Ht by (unfold tb; rewrite length_take, length_drop; lia).
  assert (take (16 + 8) raw = id ++ tb) as Hsplit by apply take_add.
  assert (i64_to_be (i64_from_be tb) = tb) as Hts.
  { assert (bytes_ok tb) as Htok by by apply Forall_take, Forall_drop.
    pose proof (from_be_bound tb Htok) as Hbd. rewrite Ht in Hbd. unfold i64_to_be, i64_from_be, wrap_i, wrap_u.
    rewrite Zminus_mod_idemp_l, Z.add_simpl_r, Z.mod_small by (simpl in Hbd; lia).
    rewrite <- Ht. by apply to_from_be. }
  assert (token_wf (mk_token id (i64_from_be tb))) as Hwf.
  { split_and!; cbn [token_id expiry_ms]; [unfold id; rewrite length_take, Hb; done|by apply Forall_take
    |apply wrap_i64_range]. }
  split_and!; [done| |by cbn [expiry_ms]]. rewrite Er. f_equal. unfold token_raw.
  cbn [token_id expiry_ms]. rewrite Hts, <- Hsplit, <- Hb0. by rewrite take_drop.
Qed.

Lemma unseal_seal id expiry key now :
  length id = TOKEN_ID_LEN -> bytes_ok id -> is_i64 expiry ->
  unseal (snd (seal id expiry key)) key now =
    if expiry <? now then Err InvalidResumeToken else Ok (fst (seal id expiry key)).
Proof.
  intros Hl Hok Hi. assert (token_wf (mk_token id expiry)) as Hw by done.
  rewrite (unseal_raw (mk_token id expiry) key now); [done..|]. cbn [seal snd fst].
  apply b64_decode_encode. by apply (token_raw_ok (mk_token id expiry)).
Qed.

(** A freshly sealed token unseals under the same key to exactly the
    token that was minted, up to and including its expiry instant, and to
    the one opaque error after it. *)
Lemma resume_token_roundtrip id expiry key now :
  length id = TOKEN_ID_LEN -> bytes_ok id -> is_i64 expiry ->
  unseal (snd (seal id expiry key)) key now =
    if expiry <? now then Err InvalidResumeToken else Ok (fst (seal id expiry key)).
Proof. apply unseal_seal. Qed.

(** Only sealed tokens unseal: an accepted string decodes to the 56
    bytes of the reported token with the tag that the key gives it, its
    expiry has not passed, and every refusal is the one error
    [InvalidResumeToken] whatever its cause. *)
Lemma resume_token_authentic w key now :
  match unseal w key now with
  | Ok t => token_wf t /\ b64_decode URL_SAFE_NO_PAD w = Some (token_raw t key) /\ now <= expiry_ms t
  | Err e => e = InvalidResumeToken
  end.
Proof.
  destruct (unseal w key now) as [t|e] eqn:E; [by apply unseal_inv|].
  unfold unseal in E. destruct (b64_decode _ _) as [raw|]; cbn in E; [|congruence].
  repeat case_test; congruence.
Qed.
End tokens.

(** ** The registry *)

Inductive ResumeError : Type := Invalid | NotFound.

#[export] Instance ResumeError_eq_dec : EqDecision ResumeError.
Proof. solve_decision. Defined.

Record Entry (T : Type) : Type := mk_entry { e_payload : T; e_expiry_ms : Z }.
Arguments mk_entry {T} _ _.
Arguments e_payload {T} _.
Arguments e_expiry_ms {T} _.

Record ResumeRegistry (T : Type) : Type := mk_registry {
  reg_map : gmap bytes (Entry T); reg_key : bytes; reg_window : Z
}.
Arguments mk_registry {T} _ _ _.
Arguments reg_map {T} _.
Arguments reg_key {T} _.
Arguments reg_window {T} _.

Section registry.
Context `{Base64} `{HmacSha256} {T : Type}.
Implicit Types (st : ResumeRegistry T) (m : gmap bytes (Entry T)).

(** [ResumeRegistry::new]; the window is [Duration::as_millis]. *)
Definition registry_new (key : bytes) (window : Z) : ResumeRegistry T := mk_registry ∅ key window.

Definition with_default_window (key : bytes) : ResumeRegistry T := registry_new key DEFAULT_RESUME_WINDOW.

Definition with_map st m : ResumeRegistry T := mk_registry m (reg_key st) (reg_window st).

(** [put]: the wire token, and the registry that holds the payload. *)
Definition put st (now_ms : Z) (id : bytes) (payload : T) : bytes * ResumeRegistry T :=
  let expiry_ms := wrap_i 64 (now_ms + wrap_i 64 (reg_window st)) in
  let '(rt, wire) := seal id expiry_ms (reg_key st) in
  (wire, with_map st (<[token_id rt := mk_entry payload expiry_ms]> (reg_map st))).

(** [take]: the entry is removed whether or not it is still in time. *)
Definition take_entry st (now_ms : Z) (token : bytes) : result ResumeError T * ResumeRegistry T :=
  match unseal token (reg_key st) now_ms with
  | Err _ => (Err Invalid, st)
  | Ok rt =>
      match reg_map st !! token_id rt with
      | Some entry =>
          let st' := with_map st (delete (token_id rt) (reg_map st)) in
          if now_ms <=? e_expiry_ms entry then (Ok (e_payload entry), st') else (Err NotFound, st')
      | None => (Err NotFound, st)
      end
  end.

Definition reg_len st : nat := size (reg_map st).

Definition reg_is_empty st : bool := (reg_len st =? 0)%nat.

(** [sweep]: how many entries were evicted, and what is left. *)
Definition sweep st (now_ms : Z) : nat * ResumeRegistry T :=
  let before := reg_len st in
  let st' := with_map st (filter (fun '(_, e) => now_ms <= e_expiry_ms e) (reg_map st)) in
  ((before - reg_len st')%nat, st').

(** *** Histories *)

Inductive reg_op : Type :=
| OpPut (now : Z) (id : bytes) (payload : T)
| OpTake (now : Z) (token : bytes)
| OpSweep (now : Z).

Definition op_time (o : reg_op) : Z :=
  match o with OpPut now _ _ | OpTake now _ | OpSweep now => now end.

Definition reg_step st (o : reg_op) : ResumeRegistry T :=
  match o with
  | OpPut now id payload => snd (put st now id payload)
  | OpTake now token => snd (take_entry st now token)
  | OpSweep now => snd (sweep st now)
  end.

Definition reg_run st (ops : list reg_op) : ResumeRegistry T := fold_left reg_step ops st.

(** The results of the [take]s of a history, in order. *)
Fixpoint reg_results st (ops : list reg_op) : list (result ResumeError T) :=
  match ops with
  | [] => []
  | OpTake now token :: r =>
      fst (take_entry st now token) :: reg_results (reg_step st (OpTake now token)) r
  | o :: r => reg_results (reg_step st o) r
  end.

Lemma reg_step_key st o : reg_key (reg_step st o) = reg_key st.
Proof. destruct o; cbn; [done| |done]. unfold take_entry. by repeat case_match. Qed.

Lemma reg_run_key st ops : reg_key (reg_run st ops) = reg_key st.
Proof.
  revert st. induction ops as [|o ops IH]; intros st; [done|]. cbn. unfold reg_run in IH.
  by rewrite IH, reg_step_key.
Qed.

Lemma sweep_lookup st now id :
  reg_map (snd (sweep st now)) !! id =
    (e ← reg_map st !! id; if decide (now <= e_expiry_ms e) then Some e else None).
Proof.
  cbn. rewrite map_lookup_filter. destruct (reg_map st !! id) as [e|]; cbn; [|done].
  destruct (decide (now <= e_expiry_ms e)); [by rewrite option_guard_True|by rewrite option_guard_False].
Qed.

(** Whether the operation may remove or replace the entry [id]. *)
Definition leaves key id (o : reg_op) : Prop :=
  match o with
  | OpPut _ id' _ => id' <> id
  | OpTake now tok => forall t, unseal tok key now = Ok t -> token_id t <> id
  | OpSweep _ => True
  end.

Definition no_put id (o : reg_op) : Prop := match o with OpPut _ id' _ => id' <> id | _ => True end.

Lemma take_entry_lookup_ne st now tok id :
  (forall t, unseal tok (reg_key st) now = Ok t -> token_id t <> id) ->
  reg_map (snd (take_entry st now tok)) !! id = reg_map st !! id.
Proof.
  intros Hne. unfold take_entry. destruct (unseal tok (reg_key st) now) as [t|]; [|done].
  specialize (Hne t eq_refl). repeat case_match; cbn; try done; by rewrite lookup_delete_ne.
Qed.

Lemma absent_stays st ops id :
  Forall (no_put id) ops -> reg_map st !! id = None -> reg_map (reg_run st ops) !! id = None.
Proof.
  revert st. induction ops as [|o ops IH]; intros st Hops Hn; [done|].
  apply Forall_cons in Hops as [Ho Hops]. apply IH; [done|]. destruct o as [now id' p|now tok|now]; cbn.
  - by rewrite lookup_insert_ne.
  - unfold take_entry. repeat case_match; cbn; try done; rewrite lookup_delete_None; auto.
  - change (reg_map (snd (sweep st now)) !! id = None). rewrite sweep_lookup, Hn. done.
Qed.

Lemma present_stays st ops id e :
  Forall (leaves (reg_key st) id) ops ->
  Forall (fun o => op_time o <= e_expiry_ms e) ops -> reg_map st !! id = Some e ->
  reg_map (reg_run st ops) !! id = Some e.
Proof.
  revert st. induction ops as [|o ops IH]; intros st Hops Ht Hs; [done|].
  apply Forall_cons in Hops as [Ho Hops], Ht as [Ht1 Ht]. apply IH; [by rewrite reg_step_key|done|].
  destruct o as [now id' p|now tok|now]; cbn in *.
  - by rewrite lookup_insert_ne.
  - by rewrite take_entry_lookup_ne.
  - change (reg_map (snd (sweep st now)) !! id = Some e). rewrite sweep_lookup, Hs. cbn.
    by rewrite decide_True.
Qed.

(** A token string names one id, whenever it is presented. *)
Lemma unseal_same_id w key now now' t t' :
  unseal w key now = Ok t -> unseal w key now' = Ok t' -> token_id t = token_id t'.
Proof.
  intros Et Et'. apply unseal_inv in Et as ((Hl & _) & Hd & _), Et' as ((Hl' & _) & Hd' & _).
  rewrite Hd in Hd'. injection Hd' as E. unfold token_raw in E. rewrite <- !(assoc_L (++)) in E.
  apply app_eq_length_inv in E as [E _]; [done|congruence].
Qed.

(** A token is redeemed at most once: after a successful [take], every
    later [take] of the same string fails, whatever operations happen in
    between, unless the random id is drawn again by a later [put]. *)
Lemma resume_single_shot st now w p st' t ops now' :
  take_entry st now w = (Ok p, st') -> unseal w (reg_key st) now = Ok t ->
  Forall (no_put (token_id t)) ops ->
  exists e, fst (take_entry (reg_run st' ops) now' w) = Err e.
Proof.
  intros Ht Hu Hops. unfold take_entry in Ht. rewrite Hu in Ht.
  destruct (reg_map st !! token_id t) as [en|] eqn:Em; [|done]. case_test. injection Ht as _ <-.
  assert (reg_map (with_map st (delete (token_id t) (reg_map st))) !! token_id t = None) as Hn
    by apply lookup_delete_eq.
  pose proof (absent_stays _ ops _ Hops Hn) as Hn'. unfold take_entry at 1.
  rewrite reg_run_key. cbn [reg_key with_map].
  destruct (unseal w (reg_key st) now') as [t'|] eqn:Hu'; [|by eexists].
  rewrite <- (unseal_same_id _ _ _ _ _ _ Hu Hu'), Hn'. by eexists.
Qed.

(** Within its window a suspended payload can be redeemed: after any
    history of other suspensions, other redemptions and sweeps that stays
    within the window, [take] of the token returned by [put] gives exactly
    that payload and removes the entry. *)
Lemma resume_redeem st now id p ops now' :
  length id = TOKEN_ID_LEN -> bytes_ok id ->
  is_i64 (reg_window st) -> is_i64 (now + reg_window st) ->
  Forall (leaves (reg_key st) id) ops ->
  Forall (fun o => op_time o <= now + reg_window st) ops -> now' <= now + reg_window st ->
  let '(w, st1) := put st now id p in
  let '(r, st2) := take_entry (reg_run st1 ops) now' w in
  r = Ok p /\ reg_map st2 !! id = None.
Proof.
  intros Hl Hok Hwin Hexp Hops Ht Hnow'. unfold put. cbn [seal].
  rewrite (wrap_i64_id (reg_window st)), wrap_i64_id by done. set (ex := now + reg_window st) in *.
  set (st1 := with_map st _).
  assert (reg_map (reg_run st1 ops) !! id = Some (mk_entry p ex)) as Hm.
  { apply present_stays; [done|done|]. apply lookup_insert_eq. }
  unfold take_entry. rewrite reg_run_key. cbn [reg_key with_map st1].
  pose proof (unseal_seal id ex (reg_key st) now' Hl Hok Hexp) as Hu. cbn [seal fst snd] in Hu.
  rewrite Hu. take_false (ex <? now'). cbn [token_id]. rewrite Hm. cbn [e_expiry_ms].
  take_true (now' <=? ex). split; [done|]. apply lookup_delete_eq.
Qed.

(** *** The sweeper is invisible *)

(** Two registries that hold the same entries among those still in time. *)
Definition same_live (now : Z) st1 st2 : Prop :=
  reg_key st1 = reg_key st2 /\ reg_window st1 = reg_window st2 /\
  forall id e, now <= e_expiry_ms e -> reg_map st1 !! id = Some e <-> reg_map st2 !! id = Some e.

Lemma same_live_later now now' st1 st2 : now <= now' -> same_live now st1 st2 -> same_live now' st1 st2.
Proof. intros ? (? & ? & Hm). split_and!; [done..|]. intros. apply Hm. lia. Qed.

Lemma same_live_sweep now st1 st2 : same_live now st1 st2 -> same_live now (snd (sweep st1 now)) st2.
Proof.
  intros (Hk & Hw & Hm). split_and!; [done..|]. intros id e He. rewrite sweep_lookup, <- (Hm id e He).
  destruct (reg_map st1 !! id) as [e'|]; cbn; [|done]. case_decide; [done|].
  split; [done|]. intros [= ->]. lia.
Qed.

Lemma same_live_put now st1 st2 id p :
  same_live now st1 st2 -> same_live now (snd (put st1 now id p)) (snd (put st2 now id p)).
Proof.
  intros (Hk & Hw & Hm). unfold put. cbn. split_and!; [done..|]. intros i e He. rewrite Hw. cbn [reg_map with_map].
  destruct (decide (i = id)) as [->|Hne]; [by rewrite !lookup_insert_eq|].
  rewrite !lookup_insert_ne by done. by apply Hm.
Qed.

Lemma with_map_id st : with_map st (reg_map st) = st.
Proof. by destruct st. Qed.

Lemma take_entry_eq st now tok t :
  unseal tok (reg_key st) now = Ok t ->
  take_entry st now tok =
    (match reg_map st !! token_id t with
     | Some e => if now <=? e_expiry_ms e then Ok (e_payload e) else Err NotFound
     | None => Err NotFound
     end, with_map st (delete (token_id t) (reg_map st))).
Proof.
  intros Hu. unfold take_entry. rewrite Hu. destruct (reg_map st !! token_id t) as [e|] eqn:Em; [by case_test|].
  rewrite delete_id by done. by rewrite with_map_id.
Qed.

Lemma same_live_take now st1 st2 tok :
  same_live now st1 st2 ->
  fst (take_entry st1 now tok) = fst (take_entry st2 now tok) /\
  same_live now (snd (take_entry st1 now tok)) (snd (take_entry st2 now tok)).
Proof.
  intros Hs. pose proof Hs as (Hk & Hw & Hm).
  destruct (unseal tok (reg_key st2) now) as [t|] eqn:Hu;
    [|by unfold take_entry; rewrite Hk, Hu].
  rewrite (take_entry_eq st1 now tok t), (take_entry_eq st2 now tok t) by (done || by rewrite Hk). split; cbn [fst snd].
  - specialize (Hm (token_id t)).
    destruct (reg_map st1 !! token_id t) as [e1|], (reg_map st2 !! token_id t) as [e2|]; try done;
      repeat case_test; b2p; try done.
    all: match goal with
    | H : _ <= e_expiry_ms ?e |- _ =>
        first [pose proof (proj1 (Hm e H) eq_refl) as Hx | pose proof (proj2 (Hm e H) eq_refl) as Hx];
        simplify_eq; lia || done
    end.
  - split_and!; [done..|]. intros id e He. cbn [reg_map with_map].
    destruct (decide (id = token_id t)) as [->|Hne]; [by rewrite !lookup_delete_eq|].
    rewrite !lookup_delete_ne by done. by apply Hm.
Qed.

Definition is_sweep (o : reg_op) : bool := match o with OpSweep _ => true | _ => false end.

(** Times do not go backwards, from [t] on. *)
Fixpoint clock_from (t : Z) (ops : list reg_op) : Prop :=
  match ops with
  | [] => True
  | o :: r => t <= op_time o /\ clock_from (op_time o) r
  end.

Lemma same_live_results now st1 st2 ops :
  clock_from now ops -> same_live now st1 st2 ->
  reg_results st1 ops = reg_results st2 (List.filter (fun o => negb (is_sweep o)) ops).
Proof.
  revert now st1 st2. induction ops as [|o ops IH]; intros now st1 st2 Hc Hs; [done|].
  destruct Hc as [Hle Hc]. apply (same_live_later _ _ _ _ Hle) in Hs.
  destruct o as [t id p|t tok|t]; cbn [op_time] in *; cbn [List.filter is_sweep negb reg_results reg_step].
  - eapply IH; [done|]. by apply same_live_put.
  - apply (same_live_take t st1 st2 tok) in Hs as [-> Hs]. f_equal. by eapply IH.
  - eapply IH; [done|]. by apply same_live_sweep.
Qed.

(** The background sweeper is unobservable: in any history with a
    monotone clock, every [take] answers as it would if no sweep had ever
    run, so eviction cannot lose a session that is still in its window. *)
Lemma sweeper_unobservable st now ops :
  clock_from now ops ->
  reg_results st ops = reg_results st (List.filter (fun o => negb (is_sweep o)) ops).
Proof. intros Hc. by eapply same_live_results. Qed.

(** A sweep keeps exactly the entries whose window has not passed and
    reports how many it dropped. *)
Lemma sweep_exact st now :
  let '(n, st') := sweep st now in
  (forall id e, reg_map st' !! id = Some e <-> reg_map st !! id = Some e /\ now <= e_expiry_ms e) /\
  (reg_len st' + n = reg_len st)%nat.
Proof.
  cbn. split; [intros; by rewrite map_lookup_filter_Some|].
  assert (reg_len (snd (sweep st now)) <= reg_len st)%nat as Hle
    by (unfold reg_len; apply map_subseteq_size, map_filter_subseteq).
  cbn in Hle. lia.
Qed.
End registry.
Arguments OpPut {T} _ _ _.
Arguments OpTake {T} _ _.
Arguments OpSweep {T} _.

(** ** Witnesses *)

Module ResumeExamples.
Import Reference.
Definition key : bytes := str "resume-key-resume-key-resume-key".
Definition id1 : bytes := replicate 16 1.
Definition id2 : bytes := replicate 16 2.
Definition reg0 : ResumeRegistry string := with_default_window key.
Definition put1 := put reg0 1000 id1 "session"%string.

Lemma id_ok b : byte_ok b -> bytes_ok (replicate 16 b).
Proof. intros Hb. by apply Forall_replicate. Qed.

Lemma resume_token_roundtrip_witness :
  unseal (snd (seal id1 5000 key)) key 5000 = Ok (mk_token id1 5000).
Proof. apply (resume_token_roundtrip id1 5000 key 5000); [done|by apply id_ok|by vm_compute]. Defined.

Lemma resume_single_shot_witness :
  exists e, fst (take_entry (reg_run (snd (take_entry (snd put1) 2000 (fst put1)))
                               [OpPut 2500 id2 "other"%string; OpSweep 2600]) 3000 (fst put1)) = Err e.
Proof.
  apply (resume_single_shot (snd put1) 2000 (fst put1) "session"%string _ (mk_token id1 31000));
    [by vm_compute|by vm_compute|]. repeat constructor; cbn; by intros [=].
Defined.

Lemma resume_redeem_witness :
  let '(w, st1) := put reg0 1000 id1 "session"%string in
  let '(r, st2) := take_entry (reg_run st1 [OpPut 2500 id2 "other"%string; OpSweep 31000]) 31000 w in
  r = Ok "session"%string /\ reg_map st2 !! id1 = None.
Proof.
  apply (resume_redeem reg0 1000 id1 "session"%string [OpPut 2500 id2 "other"%string; OpSweep 31000] 31000);
    [done|by apply id_ok|by vm_compute|by vm_compute| | |done].
  - repeat constructor; cbn. by intros [=].
  - repeat apply Forall_cons_2; [by vm_compute|by vm_compute|by apply Forall_nil_2].
Defined.

Lemma sweeper_unobservable_witness :
  reg_results (snd put1) [OpSweep 30000; OpTake 30500 (fst put1); OpTake 30600 (fst put1)] =
  reg_results (snd put1) [OpTake 30500 (fst put1); OpTake 30600 (fst put1)].
Proof.
  apply (sweeper_unobservable (snd put1) 0 [OpSweep 30000; OpTake 30500 (fst put1); OpTake 30600 (fst put1)]).
  cbn. lia.
Defined.
End ResumeExamples.
