(* ===== verification/Resilience.v ===== *)
(** * Reconnect backoff, circuit breaker and retry loop

    [crates/strata-protocol/src/backoff.rs] (module [LinkBackoff]),
    [backend/src/services/circuit_breaker.rs] (module [Breaker]) and the loop
    of [backend/src/services/retry.rs] (module [Retry]).  Clocks, random
    draws and the protected operation are arguments; the breaker's methods
    each run under its mutex, so concurrent use is an interleaving of
    [gate], [on_success] and [on_failure]. *)

From S2P Require Import Prelude Machine.

Local Open Scope Z_scope.

(** ** Decorrelated-jitter backoff *)

Module LinkBackoff.
(** A [Duration] is its number of nanoseconds. *)
Definition as_millis (d : Z) : Z := d / 1000000.
Definition from_millis (ms : Z) : Z := ms * 1000000.

Record Backoff : Type := mk_backoff { base : Z; max : Z; prev : Z }.

Definition backoff_new (base max : Z) : Backoff := mk_backoff base max base.

Definition reset (b : Backoff) : Backoff := mk_backoff (base b) (max b) (base b).

(** [rng.random_range(lo..hi)], which panics on an empty range. *)
Definition random_range (draw : Z -> Z -> Z) (lo hi : Z) : option Z :=
  if lo <? hi then Some (draw lo hi) else None.

(** [next_delay]; [None] is a panic. *)
Definition next_delay (draw : Z -> Z -> Z) (b : Backoff) : option (Z * Backoff) :=
  let lo := wrap_u 64 (as_millis (base b)) in
  let hi := u64_saturating_mul (wrap_u 64 (as_millis (prev b))) 3 in
  let hi := Z.max hi (wrap_u 64 (lo + 1)) in
  pick ← random_range draw lo hi;
  let pick := Z.min pick (wrap_u 64 (as_millis (max b))) in
  let next := from_millis pick in
  Some (next, mk_backoff (base b) (max b) next).

Definition default_link_backoff : Backoff := backoff_new (from_millis 250) (from_millis 30000).

(** What the [rand] crate documents of a half-open range. *)
Definition draws_in_range (draw : Z -> Z -> Z) : Prop := forall lo hi, lo < hi -> lo <= draw lo hi < hi.

(** The delays of consecutive failures, one random draw each. *)
Fixpoint delays (draws : list (Z -> Z -> Z)) (b : Backoff) : option (list Z) :=
  match draws with
  | [] => Some []
  | d :: r => '(next, b) ← next_delay d b; ds ← delays r b; Some (next :: ds)
  end.

(** Both parameters fit in [u64] milliseconds, with room for [lo + 1]. *)
Definition backoff_wf (b : Backoff) : Prop :=
  0 <= as_millis (base b) < u64_max /\ 0 <= as_millis (max b) <= u64_max /\
  0 <= as_millis (prev b) <= u64_max.

Lemma wrap_u64_id z : 0 <= z <= u64_max -> wrap_u 64 z = z.
Proof. unfold wrap_u, u64_max. intros. apply Z.mod_small. lia. Qed.

Lemma as_from_millis ms : as_millis (from_millis ms) = ms.
Proof. unfold as_millis, from_millis. by rewrite Z.div_mul. Qed.

Lemma next_delay_spec draw b :
  draws_in_range draw -> backoff_wf b ->
  exists pick, next_delay draw b = Some (from_millis pick, mk_backoff (base b) (max b) (from_millis pick)) /\
    Z.min (as_millis (base b)) (as_millis (max b)) <= pick <= as_millis (max b) /\
    pick <= Z.max (as_millis (base b)) (3 * as_millis (prev b)).
Proof.
  intros Hd (Hb & Hm & Hp). unfold next_delay.
  rewrite !wrap_u64_id by lia. set (lo := as_millis (base b)) in *. set (hi := Z.max _ _).
  assert (lo < hi) as Hlt by lia. unfold random_range. take_true (lo <? hi). cbn [mbind option_bind].
  eexists. split; [done|]. specialize (Hd lo hi Hlt).
  assert (hi <= Z.max (3 * as_millis (prev b)) (lo + 1)) by (unfold hi, u64_saturating_mul; lia). lia.
Qed.

(** The reconnect loop's delay never panics and stays between the base
    (or the cap, when that is smaller) and the cap; and the [n]-th delay
    since the last reset is at most [base * 3^n], whatever is drawn. *)
Lemma backoff_bounded base0 max0 draws :
  Forall draws_in_range draws -> 0 <= as_millis base0 < u64_max -> 0 <= as_millis max0 <= u64_max ->
  exists ds, delays draws (backoff_new base0 max0) = Some ds /\
    forall n d, ds !! n = Some d ->
      Z.min (as_millis base0) (as_millis max0) <= as_millis d <= as_millis max0 /\
      as_millis d <= as_millis base0 * 3 ^ Z.of_nat (S n).
Proof.
  intros Hd Hb Hm.
  assert (forall b k, base b = base0 -> max b = max0 -> backoff_wf b ->
    as_millis (prev b) <= as_millis base0 * 3 ^ Z.of_nat k ->
    exists ds, delays draws b = Some ds /\ forall n d, ds !! n = Some d ->
      Z.min (as_millis base0) (as_millis max0) <= as_millis d <= as_millis max0 /\
      as_millis d <= as_millis base0 * 3 ^ Z.of_nat (S (k + n))) as Hgen.
  { induction Hd as [|draw draws Hdraw Hd IH]; intros b k <- <- Hw Hp; [by exists []|].
    destruct (next_delay_spec draw b Hdraw Hw) as (pick & E & Hr & Hle). cbn [delays]. rewrite E.
    cbn [mbind option_bind].
    assert (pick <= as_millis (base b) * 3 ^ Z.of_nat (S k)) as Hpk.
    { rewrite Nat2Z.inj_succ, Z.pow_succ_r by lia.
      assert (1 <= 3 ^ Z.of_nat k) by (apply Z.pow_le_mono_r with (b := 0); lia). nia. }
    destruct (IH (mk_backoff (base b) (max b) (from_millis pick)) (S k)) as (ds & Eds & Hds); [done..| | |].
    { destruct Hw as (? & ? & ?). split_and!; cbn [base max prev]; rewrite ?as_from_millis; lia. }
    { cbn [prev]. by rewrite as_from_millis. }
    rewrite Eds. eexists. split; [done|]. intros [|n] d Hn; cbn in Hn.
    - injection Hn as <-. rewrite as_from_millis, Nat.add_0_r. done.
    - apply Hds in Hn. by rewrite <- plus_n_Sm. }
  destruct (Hgen (backoff_new base0 max0) 0%nat) as (ds & E & Hds); [done..| | |by exists ds].
  - split_and!; cbn; lia.
  - cbn. lia.
Qed.

(** After a reset the delays start over: nothing of the past survives. *)
Lemma backoff_reset draws b : delays draws (reset b) = delays draws (backoff_new (base b) (max b)).
Proof. done. Qed.

Definition lowest : Z -> Z -> Z := fun lo _ => lo.
Definition highest : Z -> Z -> Z := fun _ hi => hi - 1.

Lemma backoff_bounded_witness :
  exists ds, delays [highest; lowest; highest] default_link_backoff = Some ds /\
    forall n d, ds !! n = Some d ->
      Z.min (as_millis (from_millis 250)) (as_millis (from_millis 30000)) <= as_millis d
        <= as_millis (from_millis 30000) /\
      as_millis d <= as_millis (from_millis 250) * 3 ^ Z.of_nat (S n).
Proof.
  apply backoff_bounded; [|by vm_compute..].
  repeat apply Forall_cons_2; try apply Forall_nil_2; unfold draws_in_range, highest, lowest; lia.
Defined.
End LinkBackoff.

(** ** Circuit breaker *)

Module Breaker.
Inductive State : Type := Closed | Open (until : Z) | HalfOpen.

#[export] Instance State_eq_dec : EqDecision State.
Proof. solve_decision. Defined.

Record Inner : Type := mk_inner { state : State; consecutive_failures : Z }.

Record Config : Type := mk_config { failure_threshold : Z; cooldown : Z }.

Definition breaker_new : Inner := mk_inner Closed 0.

(** [gate]: whether the call is rejected, and the new state. *)
Definition gate (g : Inner) (now : Z) : bool * Inner :=
  match state g with
  | Closed | HalfOpen => (false, g)
  | Open until =>
      if until <=? now then (false, mk_inner HalfOpen (consecutive_failures g)) else (true, g)
  end.

Definition on_success (g : Inner) : Inner := mk_inner Closed 0.

Definition on_failure (cfg : Config) (g : Inner) (now : Z) : Inner :=
  let consecutive_failures := u32_saturating_add (consecutive_failures g) 1 in
  let threshold_hit := failure_threshold cfg <=? consecutive_failures in
  let was_half_open := bool_decide (state g = HalfOpen) in
  if was_half_open || threshold_hit
  then mk_inner (Open (now + cooldown cfg)) consecutive_failures
  else mk_inner (state g) consecutive_failures.

Inductive CircuitError (E : Type) : Type := COpen | CInner (e : E).
Arguments COpen {E}.
Arguments CInner {E} _.

(** [call] when nothing else runs: the operation, which ends at [now'], is
    invoked only if the gate lets it through. *)
Definition call {T E} (cfg : Config) (g : Inner) (now now' : Z) (op : result E T) :
    result (CircuitError E) T * Inner :=
  let '(rejected, g) := gate g now in
  if rejected then (Err COpen, g)
  else match op with
  | Ok v => (Ok v, on_success g)
  | Err e => (Err (CInner e), on_failure cfg g now')
  end.

(** *** Interleaved callers *)

(** [in_flight] counts calls past the gate whose operation has not ended. *)
Record Shared : Type := mk_shared { inner : Inner; in_flight : nat; clock : Z }.

Inductive event : Type := Tick | Admit | Reject | Succeed | Fails.

Inductive step (cfg : Config) : event -> Shared -> Shared -> Prop :=
| tick g n t t' : t <= t' -> step cfg Tick (mk_shared g n t) (mk_shared g n t')
| pass_gate g g' n t : gate g t = (false, g') -> step cfg Admit (mk_shared g n t) (mk_shared g' (S n) t)
| reject g g' n t : gate g t = (true, g') -> step cfg Reject (mk_shared g n t) (mk_shared g' n t)
| succeed g n t : step cfg Succeed (mk_shared g (S n) t) (mk_shared (on_success g) n t)
| failed g n t : step cfg Fails (mk_shared g (S n) t) (mk_shared (on_failure cfg g t) n t).

Definition any_step cfg (s s' : Shared) : Prop := exists e, step cfg e s s'.

Definition step_without_success cfg (s s' : Shared) : Prop := exists e, e <> Succeed /\ step cfg e s s'.

Definition initial (t : Z) : Shared := mk_shared breaker_new 0 t.

(** The counter and the state say the same thing. *)
Definition breaker_inv (cfg : Config) (g : Inner) : Prop :=
  0 <= consecutive_failures g <= u32_max /\
  (state g = Closed <-> consecutive_failures g < Z.max 1 (failure_threshold cfg)).

Lemma gate_inv cfg g t r g' : breaker_inv cfg g -> gate g t = (r, g') -> breaker_inv cfg g'.
Proof.
  intros Hi E. unfold gate in E. destruct (state g) as [|until|] eqn:Est; [by injection E as <- <-| |by injection E as <- <-].
  case_test; injection E as <- <-; [|done]. destruct Hi as [Hr Hs]. split; cbn; [done|]. split; [done|]. intros Hlt.
  apply Hs in Hlt. congruence.
Qed.

Lemma on_failure_inv cfg g t :
  0 <= failure_threshold cfg <= u32_max -> breaker_inv cfg g -> breaker_inv cfg (on_failure cfg g t).
Proof.
  intros Hth [Hr Hs]. unfold on_failure, u32_saturating_add.
  assert (1 <= u32_max) by (unfold u32_max; lia).
  destruct (bool_decide (state g = HalfOpen)) eqn:Eh; cbn [orb]; b2p.
  - split; cbn; [lia|]. split; [done|]. rewrite Eh in Hs.
    destruct (decide (consecutive_failures g < Z.max 1 (failure_threshold cfg))) as [Hl|]; [|lia].
    apply Hs in Hl. done.
  - case_test; b2p; split; cbn; try lia; split; try done; try lia.
    intros Hlt. apply Hs. lia.
Qed.

(** However calls interleave, the breaker is closed exactly while the
    consecutive failures are below the threshold; in particular it opens on
    the failure that reaches the threshold and on no earlier one, and a
    half-open or open breaker has at least [threshold] failures behind it. *)
Lemma breaker_invariant cfg t s :
  0 <= failure_threshold cfg <= u32_max ->
  rtc (any_step cfg) (initial t) s -> breaker_inv cfg (inner s).
Proof.
  intros Hth Hr. assert (breaker_inv cfg (inner (initial t))) as H0.
  { split; cbn; [unfold u32_max; lia|]. split; [lia|done]. }
  revert H0. induction Hr as [|s1 s2 s3 [ev Hs] _ IH]; [done|]. intros Hi. apply IH. clear IH.
  inversion Hs; subst; cbn [inner] in *; [done|by eapply gate_inv|by eapply gate_inv| |by apply on_failure_inv].
  split; cbn; [unfold u32_max; lia|]. split; [lia|done].
Qed.

Lemma step_clock cfg e s s' : step cfg e s s' -> clock s <= clock s'.
Proof. by inversion 1; cbn; try lia. Qed.

Lemma run_clock cfg s s' : rtc (step_without_success cfg) s s' -> clock s <= clock s'.
Proof. induction 1 as [|? ? ? (? & _ & Hs) _ IH]; [done|]. apply step_clock in Hs. lia. Qed.

Lemma open_stays cfg until s s' :
  rtc (step_without_success cfg) s s' ->
  (exists u, state (inner s) = Open u /\ until <= u) -> until <= clock s + cooldown cfg -> clock s' < until ->
  exists u, state (inner s') = Open u /\ until <= u.
Proof.
  induction 1 as [|s1 s2 s3 (ev & Hne & Hs) Hrest IH]; [done|]. intros (u & Hu & Hle) Hcd Hc.
  pose proof (step_clock _ _ _ _ Hs). pose proof (run_clock _ _ _ Hrest).
  apply IH; [|lia|done]. inversion Hs; subst; cbn [inner clock] in *; [by eauto|..|done|].
  1, 2: unfold gate in *; rewrite Hu in *; case_test; b2p; simplify_eq; try lia; by eauto.
  unfold on_failure. rewrite Hu. destruct (_ || _); cbn; eauto.
Qed.

(** An open breaker protects the dependency: until its cool-down ends,
    or an operation that was already running succeeds, no call gets past
    the gate, however many calls and late failures interleave. *)
Lemma breaker_open_blocks cfg g until n t s s' :
  state g = Open until -> until <= t + cooldown cfg ->
  rtc (step_without_success cfg) (mk_shared g n t) s -> clock s < until ->
  ~ step cfg Admit s s'.
Proof.
  intros Hg Hcd Hr Hc. destruct (open_stays cfg until _ _ Hr) as (u & Hu & Hle); [by exists until|done..|].
  inversion 1 as [|g0 g' n0 t0 Hgate| | |]; subst. cbn [inner clock] in *. unfold gate in Hgate.
  rewrite Hu in Hgate. case_test. b2p. lia.
Qed.

(** *** Sequential use refines the documented automaton *)

(** The automaton of the module documentation: between calls it is either
    counting failures or cooling down; after the cool-down exactly one probe
    decides. *)
Inductive spec : Type := SClosed (failures : Z) | SOpen (until : Z).

Definition spec_call {T E} (cfg : Config) (s : spec) (now now' : Z) (op : result E T) :
    result (CircuitError E) T * spec :=
  match s with
  | SClosed n =>
      match op with
      | Ok v => (Ok v, SClosed 0)
      | Err e => (Err (CInner e),
          if failure_threshold cfg <=? n + 1 then SOpen (now' + cooldown cfg) else SClosed (n + 1))
      end
  | SOpen until =>
      if now <? until then (Err COpen, s)
      else match op with
      | Ok v => (Ok v, SClosed 0)
      | Err e => (Err (CInner e), SOpen (now' + cooldown cfg))
      end
  end.

Section histories.
Context {T E : Type}.

(** A history of calls: when each starts, when its operation ends, and what
    the operation would return. *)
Fixpoint calls {S : Type} (f : S -> Z -> Z -> result E T -> result (CircuitError E) T * S) (s : S)
    (h : list (Z * Z * result E T)) : list (result (CircuitError E) T) :=
  match h with
  | [] => []
  | (now, now', op) :: r => let '(res, s) := f s now now' op in res :: calls f s r
  end.

Definition refines cfg (g : Inner) (s : spec) : Prop :=
  match s with
  | SClosed n => g = mk_inner Closed n /\ 0 <= n < Z.max 1 (failure_threshold cfg)
  | SOpen until => state g = Open until
  end.

Lemma call_refines cfg g s now now' (op : result E T) :
  0 <= failure_threshold cfg <= u32_max -> refines cfg g s ->
  fst (call cfg g now now' op) = fst (spec_call cfg s now now' op) /\
  refines cfg (snd (call cfg g now now' op)) (snd (spec_call cfg s now now' op)).
Proof.
  intros Hth Hr. assert (1 <= u32_max) by (unfold u32_max; lia).
  destruct s as [n|until]; cbn [refines] in Hr; unfold call, gate, spec_call.
  - destruct Hr as [-> Hn]. cbn. destruct op as [v|e]; cbn; [split; [done|]; split; [done|lia]|].
    unfold on_failure, u32_saturating_add. cbn [state consecutive_failures].
    rewrite bool_decide_false by done. cbn [orb]. rewrite Z.min_l by lia.
    case_test; b2p; cbn; split; try done. split; [done|lia].
  - rewrite Hr. destruct (until <=? now) eqn:E1; b2p.
    + take_false (now <? until). destruct op as [v|e]; cbn; [split; [done|]; split; [done|lia]|].
      unfold on_failure. cbn [state consecutive_failures]. by rewrite bool_decide_true.
    + by take_true (now <? until).
Qed.

(** Used by one caller at a time, the breaker answers every history of
    calls exactly as the documented closed / open / one-probe automaton. *)
Lemma breaker_refines cfg h :
  0 <= failure_threshold cfg <= u32_max ->
  calls (call (T:=T) (E:=E) cfg) breaker_new h = calls (spec_call cfg) (SClosed 0) h.
Proof.
  intros Hth. assert (refines cfg breaker_new (SClosed 0)) as Hr by (split; [done|lia]).
  revert Hr. generalize breaker_new (SClosed 0). induction h as [|[[now now'] op] h IH]; intros g s Hr; [done|].
  cbn [calls]. destruct (call_refines cfg g s now now' op Hth Hr) as [Eres Hr'].
  destruct (call cfg g now now' op), (spec_call cfg s now now' op). cbn in *. subst. f_equal. by apply IH.
Qed.
End histories.

(** Concurrent callers are not limited to one probe: in [HalfOpen] the gate
    admits every call. *)
Lemma half_open_admits cfg f n t :
  step cfg Admit (mk_shared (mk_inner HalfOpen f) n t) (mk_shared (mk_inner HalfOpen f) (S n) t).
Proof. by constructor. Qed.

Definition cfg3 : Config := mk_config 3 1000.

Lemma breaker_invariant_witness : breaker_inv cfg3 (mk_inner Closed 1).
Proof.
  apply (breaker_invariant cfg3 0 (mk_shared (mk_inner Closed 1) 0 0)); [by vm_compute|].
  apply rtc_l with (mk_shared breaker_new 1 0); [exists Admit; by constructor|].
  apply rtc_once. exists Fails. exact (failed cfg3 breaker_new 0 0).
Defined.

Lemma breaker_open_blocks_witness :
  ~ step cfg3 Admit (mk_shared (mk_inner (Open 1500) 3) 0 1499) (mk_shared (mk_inner HalfOpen 3) 1 1499).
Proof.
  apply (breaker_open_blocks cfg3 (mk_inner (Open 1500) 3) 1500 0 500); [done|done| |done].
  apply rtc_once. exists Tick. split; [done|]. by constructor.
Defined.

Lemma breaker_refines_witness :
  calls (call cfg3) breaker_new
    [(0, 0, Err 1); (10, 10, Err 2); (20, 20, Err 3); (30, 30, Ok 4); (1020, 1020, Ok 5)] =
  calls (spec_call cfg3) (SClosed 0)
    [(0, 0, Err 1); (10, 10, Err 2); (20, 20, Err 3); (30, 30, Ok 4); (1020, 1020, Ok 5)].
Proof. apply breaker_refines. by vm_compute. Defined.
End Breaker.

(** ** Retry with jitter *)

Module Retry.
Section retry.
Context {T E : Type} (is_transient : E -> bool).

(** The pause before attempt [attempt] in milliseconds; [scale] is the
    random jitter factor, applied in floating point. *)
Definition pause (scale : Z -> Z) (base_ms : Z) (attempt : nat) : Z :=
  let exp := u64_saturating_mul base_ms (wrap_u 64 (2 ^ (Z.of_nat attempt - 2))) in
  scale exp.

(** The loop from [attempt] on, [left] rounds remaining: the result, the
    attempts made and the pauses slept. *)
Fixpoint retry_loop (op : nat -> result E T) (scale : Z -> Z) (base_ms : Z) (attempts attempt left : nat) :
    option (result E T * nat * list Z) :=
  match left with
  | O => None
  | S l =>
      let slept := if (1 <? attempt)%nat then [pause scale base_ms attempt] else [] in
      match op attempt with
      | Ok v => Some (Ok v, attempt, slept)
      | Err e =>
          if negb (is_transient e) || (attempt =? attempts)%nat then Some (Err e, attempt, slept)
          else '(r, n, s) ← retry_loop op scale base_ms attempts (S attempt) l; Some (r, n, slept ++ s)
      end
  end.

(** [retry_transient_with_jitter]; [op n] is what the [n]-th invocation
    returns. *)
Definition retry_transient_with_jitter (op : nat -> result E T) (scale : Z -> Z) (max_attempts : nat)
    (base_ms : Z) : option (result E T * nat * list Z) :=
  let attempts := Nat.max max_attempts 1 in
  retry_loop op scale base_ms attempts 1 attempts.

Definition retryable (r : result E T) : bool := match r with Ok _ => false | Err e => is_transient e end.

Lemma retry_loop_spec op scale base_ms attempts left : forall attempt,
  (attempt + left = S attempts)%nat -> (1 <= attempt)%nat -> (0 < left)%nat ->
  exists n slept, retry_loop op scale base_ms attempts attempt left = Some (op n, n, slept) /\
    (attempt <= n <= attempts)%nat /\
    (forall k, (attempt <= k < n)%nat -> retryable (op k) = true) /\
    (n = attempts \/ retryable (op n) = false) /\
    (attempt <> 1%nat -> length slept = n - attempt + 1)%nat /\
    (attempt = 1%nat -> length slept = n - 1)%nat.
Proof.
  induction left as [|l IH]; intros attempt Hsum H1 Hl; [lia|]. cbn [retry_loop].
  set (slept := if (1 <? attempt)%nat then _ else _).
  assert (length slept = if (1 <? attempt)%nat then 1 else 0)%nat as Hsl by (unfold slept; by case_match).
  assert (forall r, op attempt = r -> retryable r = false \/ attempt = attempts ->
    exists n sl, Some (r, attempt, slept) = Some (op n, n, sl) /\ (attempt <= n <= attempts)%nat /\
    (forall k, (attempt <= k < n)%nat -> retryable (op k) = true) /\ (n = attempts \/ retryable (op n) = false) /\
    (attempt <> 1%nat -> length sl = n - attempt + 1)%nat /\ (attempt = 1%nat -> length sl = n - 1)%nat) as Hstop.
  { intros r <- Hstop. exists attempt, slept. rewrite Hsl. split_and!; try done; try lia; try tauto;
      intros; [take_true (1 <? attempt)%nat|take_false (1 <? attempt)%nat]; lia. }
  destruct (op attempt) as [v|e] eqn:Eop; [apply Hstop; auto|].
  destruct (negb (is_transient e) || (attempt =? attempts)%nat) eqn:Eb.
  { apply Hstop; [done|]. apply orb_true_iff in Eb as [Eb|Eb]; b2p; [by left|by right]. }
  b2p. destruct (IH (S attempt)) as (n & sl & E1 & Hn & Hk & Hend & Hlen & _); [lia..|]. rewrite E1.
  exists n, (slept ++ sl). split_and!; [done|lia|lia| |done|..].
  - intros k Hk'. destruct (decide (k = attempt)) as [->|]; [by rewrite Eop|apply Hk; lia].
  - intros Ha. rewrite length_app, Hsl, Hlen by lia. take_true (1 <? attempt)%nat. lia.
  - intros ->. rewrite length_app, Hsl, Hlen by lia. cbn [Nat.ltb Nat.leb]. lia.
Qed.

(** The retry loop always returns: it makes at least one and at most
    [max(max_attempts, 1)] attempts, returns what the last one returned,
    retried only transient errors, stopped at the first success or terminal
    error or at the limit, and slept exactly once between two attempts. *)
Lemma retry_spec op scale max_attempts base_ms :
  exists n slept,
    retry_transient_with_jitter op scale max_attempts base_ms = Some (op n, n, slept) /\
    (1 <= n <= Nat.max max_attempts 1)%nat /\
    (forall k, (1 <= k < n)%nat -> retryable (op k) = true) /\
    (n = Nat.max max_attempts 1 \/ retryable (op n) = false) /\
    length slept = (n - 1)%nat.
Proof.
  destruct (retry_loop_spec op scale base_ms (Nat.max max_attempts 1) (Nat.max max_attempts 1) 1)
    as (n & slept & E1 & Hn & Hk & Hend & _ & Hlen); [lia..|].
  exists n, slept. split_and!; auto; lia.
Qed.
End retry.
End Retry.
