(* ===== verification/Engine.v ===== *)
(** * The engine boundary

    [crates/strata-session/src/engine/mod.rs] (the events that cross between
    a protocol engine and the session actor) and
    [crates/strata-session/src/transport/mod.rs] (frames, and the
    [FrameEncoder] trait with the law its users rely on). *)

From S2P Require Import Prelude Machine Text.

Local Open Scope Z_scope.

Inductive Protocol : Type := Rdp | Ssh | Vnc | KubeExec.

#[export] Instance Protocol_eq_dec : EqDecision Protocol.
Proof. solve_decision. Defined.

(** [Protocol::as_str]. *)
Definition protocol_as_str (p : Protocol) : bytes :=
  str match p with Rdp => "rdp" | Ssh => "ssh" | Vnc => "vnc" | KubeExec => "kubernetes" end.

Inductive FileRequest : Type :=
| FGet (object : Z) (name : bytes)
| FPut (object stream : Z) (mimetype name : bytes)
| FReqData (stream : Z) (data : bytes)
| FReqEnd (stream : Z)
| FReqAck (stream status : Z).

#[export] Instance FileRequest_eq_dec : EqDecision FileRequest.
Proof. solve_decision. Defined.

(** User interaction travelling towards the target. *)
Inductive InputEvent : Type :=
| IMouse (x y mask : Z)
| IKey (keysym : Z) (pressed : bool)
| IResize (width height : Z) (dpi : option Z)
| IClipboard (data : bytes)
| IText (data : bytes)
| IFile (req : FileRequest)
| IDisconnect.

#[export] Instance InputEvent_eq_dec : EqDecision InputEvent.
Proof. solve_decision. Defined.

Inductive VideoCodec : Type := H264 | Av1.

Inductive DisconnectCause : Type :=
| Ended | IdleTimeout | Conflict | Refused | Unauthorized | ConnectionLost | Failed.

#[export] Instance VideoCodec_eq_dec : EqDecision VideoCodec.
Proof. solve_decision. Defined.
#[export] Instance DisconnectCause_eq_dec : EqDecision DisconnectCause.
Proof. solve_decision. Defined.

Inductive FileEvent : Type :=
| FFilesystem (object : Z) (name : bytes)
| FBody (object stream : Z) (mimetype name : bytes)
| FData (stream : Z) (data : bytes)
| FEnd (stream : Z)
| FAck (stream : Z) (message : bytes) (status : Z)
| FNotice (message : bytes) (ok : bool).

Definition TRANSFER_NOTICE_MSG : Z := 21332.

(** Something that happened on the target. *)
Inductive TargetEvent : Type :=
| ImageUpdate (x y : Z) (mimetype data : bytes)
| VideoSlice (codec : VideoCodec) (keyframe : bool) (x y width height timestamp_ms : Z) (data : bytes)
| TerminalOutput (data : bytes)
| Audio (data : bytes)
| CopyRegion (src_x src_y width height dst_x dst_y : Z)
| Clipboard (data : bytes)
| Resized (width height : Z)
| CursorImage (hotspot_x hotspot_y width height : Z) (mimetype data : bytes)
| CursorHidden
| File (ev : FileEvent)
| Disconnected (reason : bytes) (cause : DisconnectCause).

#[export] Instance FileEvent_eq_dec : EqDecision FileEvent.
Proof. solve_decision. Defined.
#[export] Instance TargetEvent_eq_dec : EqDecision TargetEvent.
Proof. solve_decision. Defined.

(** ** Frames and encoders *)

Inductive StreamingMode : Type := GuacWire | Direct.

#[export] Instance StreamingMode_eq_dec : EqDecision StreamingMode.
Proof. solve_decision. Defined.

Inductive ClientFrame : Type := TextFrame (b : bytes) | BinaryFrame (b : bytes).

#[export] Instance ClientFrame_eq_dec : EqDecision ClientFrame.
Proof. solve_decision. Defined.

Definition frame_payload (f : ClientFrame) : bytes := match f with TextFrame b | BinaryFrame b => b end.

Definition frame_len (f : ClientFrame) : nat := length (frame_payload f).

Definition frame_is_empty (f : ClientFrame) : bool := match frame_payload f with [] => true | _ => false end.

(** [trait FrameEncoder].  [encode] returns [None] where the code panics;
    the law says that an implementation never does and only appends to the
    frames it is given. *)
Class FrameEncoder (S : Type) := {
  mode : S -> StreamingMode;
  encode : S -> TargetEvent -> list ClientFrame -> option (list ClientFrame * S);
  sync : S -> Z -> list ClientFrame -> list ClientFrame * S;
  encode_appends s ev out : exists fs s', encode s ev out = Some (out ++ fs, s');
  sync_appends s t out : exists fs s', sync s t out = (out ++ fs, s')
}.

(** A run of events. *)
Fixpoint encode_all {S} `{FrameEncoder S} (s : S) (evs : list TargetEvent) (out : list ClientFrame) :
    option (list ClientFrame * S) :=
  match evs with
  | [] => Some (out, s)
  | ev :: r => '(out, s) ← encode s ev out; encode_all s r out
  end.

Lemma encode_all_appends {S} `{FrameEncoder S} evs : forall (s : S) out,
  exists fs s', encode_all s evs out = Some (out ++ fs, s').
Proof.
  induction evs as [|ev evs IH]; intros s out; cbn [encode_all].
  - exists [], s. by rewrite app_nil_r.
  - destruct (encode_appends s ev out) as (f1 & s1 & ->). cbn [mbind option_bind].
    destruct (IH s1 (out ++ f1)) as (f2 & s2 & ->). exists (f1 ++ f2), s2. by rewrite (assoc_L (++)).
Qed.
