(* ===== verification/GuacWire.v ===== *)
(** * The two frame encoders

    [crates/strata-session/src/transport/guac_wire.rs] (Guacamole text
    instructions) and [transport/binary.rs] (binary media envelopes with the
    text encoder for control traffic).  Each method appends to the frames it
    is given and returns the new encoder state. *)

From S2P Require Import Prelude Machine Text Crates Guacamole Instruction Protocol Engine.

Local Open Scope Z_scope.

Definition MAX_BLOB_BYTES : nat := 4536.
Definition COMPOSITE_OVER : Z := 14.
Definition COMPOSITE_SRC : Z := 12.
Definition DEFAULT_LAYER : Z := 0.
Definition CURSOR_LAYER : Z := -1.
Definition AUDIO_MIMETYPE : bytes := str "audio/L16;rate=44100,channels=2".

Definition SERVER_ERROR : Z := 512.
Definition UPSTREAM_ERROR : Z := 515.
Definition UPSTREAM_UNAVAILABLE : Z := 520.
Definition SESSION_CONFLICT : Z := 521.
Definition SESSION_TIMEOUT : Z := 522.
Definition SESSION_CLOSED : Z := 523.
Definition CLIENT_UNAUTHORIZED : Z := 769.

Definition disconnect_status (cause : DisconnectCause) : Z :=
  match cause with
  | Ended => SESSION_CLOSED
  | IdleTimeout => SESSION_TIMEOUT
  | Conflict => SESSION_CONFLICT
  | Refused => UPSTREAM_UNAVAILABLE
  | Unauthorized => CLIENT_UNAUTHORIZED
  | ConnectionLost => UPSTREAM_ERROR
  | Failed => SERVER_ERROR
  end.

Record GuacWireEncoder : Type := mk_encoder {
  next_stream : Z; unsupported : Z; audio_stream : option Z
}.

(** [GuacWireEncoder::new]. *)
Definition encoder_new : GuacWireEncoder := mk_encoder 1 0 None.

Definition LAST_STREAM : Z := 2147483646.

Definition allocate_stream (e : GuacWireEncoder) : Z * GuacWireEncoder :=
  let stream := next_stream e in
  let next := if LAST_STREAM <=? next_stream e then 1 else next_stream e + 1 in
  (stream, mk_encoder next (unsupported e) (audio_stream e)).

Section encoder.
Context `{Base64}.

(** [for chunk in data.chunks(MAX_BLOB_BYTES)]: one [blob] appended per
    chunk. *)
Definition push_blobs (stream : Z) (data : bytes) (buf : bytes) : bytes :=
  fold_left (fun buf chunk => server_encode (SBlob stream (b64_encode STANDARD chunk)) buf)
    (chunks MAX_BLOB_BYTES data) buf.

(** The same loop where each [blob] is a frame of its own. *)
Definition blob_frames (stream : Z) (data : bytes) (out : list ClientFrame) : list ClientFrame :=
  fold_left (fun out chunk => out ++ [TextFrame (server_to_bytes (SBlob stream (b64_encode STANDARD chunk)))])
    (chunks MAX_BLOB_BYTES data) out.

Definition push_image (e : GuacWireEncoder) (buf : bytes) (mask layer x y : Z) (mimetype data : bytes) :
    bytes * GuacWireEncoder :=
  let '(stream, e) := allocate_stream e in
  let buf := server_encode (SImg stream mask layer mimetype x y) buf in
  let buf := push_blobs stream data buf in
  (server_encode (SEnd stream) buf, e).

Definition encode_image (e : GuacWireEncoder) (x y : Z) (mimetype data : bytes) (out : list ClientFrame) :
    list ClientFrame * GuacWireEncoder :=
  let '(buf, e) := push_image e [] COMPOSITE_OVER DEFAULT_LAYER x y mimetype data in
  (out ++ [TextFrame buf], e).

Definition encode_clipboard (e : GuacWireEncoder) (data : bytes) (out : list ClientFrame) :
    list ClientFrame * GuacWireEncoder :=
  let '(stream, e) := allocate_stream e in
  let out := out ++ [TextFrame (server_encode (SClipboard stream (str "text/plain")) [])] in
  let out := blob_frames stream data out in
  (out ++ [TextFrame (server_encode (SEnd stream) [])], e).

Definition encode_audio (e : GuacWireEncoder) (data : bytes) (out : list ClientFrame) :
    list ClientFrame * GuacWireEncoder :=
  let '(stream, e, out) :=
    match audio_stream e with
    | Some stream => (stream, e, out)
    | None =>
        let '(stream, e) := allocate_stream e in
        let e := mk_encoder (next_stream e) (unsupported e) (Some stream) in
        (stream, e, out ++ [TextFrame (server_encode (SAudio stream AUDIO_MIMETYPE) [])])
    end in
  (blob_frames stream data out, e).

Definition encode_file (e : GuacWireEncoder) (ev : FileEvent) (out : list ClientFrame) :
    list ClientFrame * GuacWireEncoder :=
  let emit instruction := (out ++ [TextFrame (server_encode instruction [])], e) in
  match ev with
  | FFilesystem object name => emit (SFilesystem object name)
  | FBody object stream mimetype name => emit (SBody object stream mimetype name)
  | FData stream data => (blob_frames stream data out, e)
  | FEnd stream => emit (SEnd stream)
  | FAck stream message status => emit (SAck stream message status)
  | FNotice message ok =>
      emit (SMsg TRANSFER_NOTICE_MSG [if ok then str "ok" else str "warning"; message])
  end.

Definition encode_h264 (e : GuacWireEncoder) (keyframe : bool) (x y width height : Z) (data : bytes)
    (out : list ClientFrame) : list ClientFrame * GuacWireEncoder :=
  let '(stream, e) := allocate_stream e in
  let out := out ++ [TextFrame (server_encode (SH264 stream DEFAULT_LAYER keyframe x y width height) [])] in
  let out := blob_frames stream data out in
  (out ++ [TextFrame (server_encode (SEnd stream) [])], e).

(** [encode_control]: [None] when the event is not a control event
    ([false]).  The hotspot is cast from [u32] to [i32]. *)
Definition encode_control (e : GuacWireEncoder) (ev : TargetEvent) (out : list ClientFrame) :
    option (list ClientFrame * GuacWireEncoder) :=
  match ev with
  | CopyRegion sx sy w h dx dy =>
      Some (out ++ [TextFrame (server_to_bytes
        (SCopy DEFAULT_LAYER sx sy w h COMPOSITE_OVER DEFAULT_LAYER dx dy))], e)
  | Resized w h => Some (out ++ [TextFrame (server_to_bytes (SSize DEFAULT_LAYER w h))], e)
  | Disconnected reason cause =>
      Some (out ++ [TextFrame (server_to_bytes (SError reason (disconnect_status cause)))], e)
  | CursorImage hx hy w h mimetype data =>
      let buf := server_encode (SSize CURSOR_LAYER w h) [] in
      let '(buf, e) := push_image e buf COMPOSITE_SRC CURSOR_LAYER 0 0 mimetype data in
      let buf := server_encode (SCursor (wrap_i 32 hx) (wrap_i 32 hy) CURSOR_LAYER 0 0 w h) buf in
      Some (out ++ [TextFrame buf], e)
  | CursorHidden =>
      let buf := server_encode (SSize CURSOR_LAYER 1 1) [] in
      let buf := server_encode (SCursor 0 0 CURSOR_LAYER 0 0 1 1) buf in
      Some (out ++ [TextFrame buf], e)
  | _ => None
  end.

(** [FrameEncoder::encode] for [GuacWireEncoder]; [None] is
    [unreachable!]. *)
Definition guac_encode (e : GuacWireEncoder) (ev : TargetEvent) (out : list ClientFrame) :
    option (list ClientFrame * GuacWireEncoder) :=
  match encode_control e ev out with
  | Some r => Some r
  | None =>
      match ev with
      | ImageUpdate x y mimetype data => Some (encode_image e x y mimetype data out)
      | Clipboard data => Some (encode_clipboard e data out)
      | Audio data => Some (encode_audio e data out)
      | File ev => Some (encode_file e ev out)
      | VideoSlice H264 keyframe x y width height _ data =>
          Some (encode_h264 e keyframe x y width height data out)
      | VideoSlice Av1 _ _ _ _ _ _ _ | TerminalOutput _ =>
          Some (out, mk_encoder (next_stream e) (wrap_u 64 (unsupported e + 1)) (audio_stream e))
      | CopyRegion _ _ _ _ _ _ => Some (out, e)
      | Resized _ _ | Disconnected _ _ | CursorImage _ _ _ _ _ _ | CursorHidden => None
      end
  end.

Definition guac_sync (e : GuacWireEncoder) (timestamp_ms : Z) (out : list ClientFrame) :
    list ClientFrame * GuacWireEncoder :=
  (out ++ [TextFrame (server_to_bytes (SSync timestamp_ms))], e).
End encoder.

#[global] Arguments push_blobs : simpl never.
#[global] Arguments blob_frames : simpl never.

(** ** The instruction-level plan

    What each event means as instructions, one inner list per frame.  The
    encoder is shown to write exactly the wire form of its plan. *)

Section plan.
Context `{Base64}.

Definition blobs (stream : Z) (data : bytes) : list ServerInstruction :=
  (fun c => SBlob stream (b64_encode STANDARD c)) <$> chunks MAX_BLOB_BYTES data.

Definition singles (ins : list ServerInstruction) : list (list ServerInstruction) := (fun i => [i]) <$> ins.

Definition plan (e : GuacWireEncoder) (ev : TargetEvent) : list (list ServerInstruction) * GuacWireEncoder :=
  let '(s, e1) := allocate_stream e in
  match ev with
  | ImageUpdate x y mt d =>
      ([SImg s COMPOSITE_OVER DEFAULT_LAYER mt x y :: blobs s d ++ [SEnd s]], e1)
  | VideoSlice H264 kf x y w h _ d => (singles (SH264 s DEFAULT_LAYER kf x y w h :: blobs s d ++ [SEnd s]), e1)
  | VideoSlice Av1 _ _ _ _ _ _ _ | TerminalOutput _ =>
      ([], mk_encoder (next_stream e) (wrap_u 64 (unsupported e + 1)) (audio_stream e))
  | Audio d =>
      match audio_stream e with
      | Some a => (singles (blobs a d), e)
      | None => (singles (SAudio s AUDIO_MIMETYPE :: blobs s d), mk_encoder (next_stream e1) (unsupported e1) (Some s))
      end
  | CopyRegion sx sy w h dx dy => ([[SCopy DEFAULT_LAYER sx sy w h COMPOSITE_OVER DEFAULT_LAYER dx dy]], e)
  | Clipboard d => (singles (SClipboard s (str "text/plain") :: blobs s d ++ [SEnd s]), e1)
  | Resized w h => ([[SSize DEFAULT_LAYER w h]], e)
  | CursorImage hx hy w h mt d =>
      ([SSize CURSOR_LAYER w h :: SImg s COMPOSITE_SRC CURSOR_LAYER mt 0 0 :: blobs s d ++
        [SEnd s; SCursor (wrap_i 32 hx) (wrap_i 32 hy) CURSOR_LAYER 0 0 w h]], e1)
  | CursorHidden => ([[SSize CURSOR_LAYER 1 1; SCursor 0 0 CURSOR_LAYER 0 0 1 1]], e)
  | File (FData s d) => (singles (blobs s d), e)
  | File (FFilesystem o n) => ([[SFilesystem o n]], e)
  | File (FBody o s mt n) => ([[SBody o s mt n]], e)
  | File (FEnd s) => ([[SEnd s]], e)
  | File (FAck s m st) => ([[SAck s m st]], e)
  | File (FNotice m ok) => ([[SMsg TRANSFER_NOTICE_MSG [if ok then str "ok" else str "warning"; m]]], e)
  | Disconnected r c => ([[SError r (disconnect_status c)]], e)
  end.

Definition wire_all (ins : list ServerInstruction) : bytes := concat (server_to_bytes <$> ins).

Definition frames_of (fs : list (list ServerInstruction)) : list ClientFrame := (fun ins => TextFrame (wire_all ins)) <$> fs.

Lemma push_element_app out v : push_element out v = out ++ push_element [] v.
Proof. unfold push_element. destruct (write_usize _ _) as [[digits len]|]; [done|by rewrite app_nil_r]. Qed.

Lemma encode_instruction_app out op args : encode_instruction out op args = out ++ encode_instruction [] op args.
Proof.
  unfold encode_instruction. rewrite push_element_app.
  enough (forall acc, fold_left (fun out a => push_element (out ++ [44]) a) args (out ++ acc) =
    out ++ fold_left (fun out a => push_element (out ++ [44]) a) args acc) as -> by by rewrite (assoc_L (++)).
  induction args as [|a args IH]; intros acc; [done|]. cbn [fold_left].
  rewrite (push_element_app ((out ++ acc) ++ [44])), (push_element_app (acc ++ [44])).
  by rewrite <- IH, !(assoc_L (++)).
Qed.

Lemma server_encode_app s out : server_encode s out = out ++ server_to_bytes s.
Proof.
  unfold server_to_bytes, server_encode, encode_str_args. destruct (server_parts s).
  apply encode_instruction_app.
Qed.

Lemma wire_all_cons i ins : wire_all (i :: ins) = server_to_bytes i ++ wire_all ins.
Proof. done. Qed.

Lemma wire_all_app ins js : wire_all (ins ++ js) = wire_all ins ++ wire_all js.
Proof. unfold wire_all. by rewrite fmap_app, concat_app. Qed.

Lemma wire_all_one i : wire_all [i] = server_to_bytes i.
Proof. apply app_nil_r. Qed.

Lemma push_blobs_eq stream data buf : push_blobs stream data buf = buf ++ wire_all (blobs stream data).
Proof.
  unfold push_blobs, blobs. revert buf. generalize (chunks MAX_BLOB_BYTES data).
  induction l as [|c l IH]; intros buf; cbn [fold_left]; [by rewrite app_nil_r|].
  rewrite IH, server_encode_app, fmap_cons, wire_all_cons. by rewrite (assoc_L (++)).
Qed.

Lemma frames_of_app fs gs : frames_of (fs ++ gs) = frames_of fs ++ frames_of gs.
Proof. apply fmap_app. Qed.

Lemma frames_of_singles_cons i ins : frames_of (singles (i :: ins)) = TextFrame (server_to_bytes i) :: frames_of (singles ins).
Proof. unfold frames_of, singles. rewrite !fmap_cons. by rewrite wire_all_one. Qed.

Lemma singles_app ins js : singles (ins ++ js) = singles ins ++ singles js.
Proof. apply fmap_app. Qed.

Lemma blob_frames_eq stream data out : blob_frames stream data out = out ++ frames_of (singles (blobs stream data)).
Proof.
  unfold blob_frames, blobs. revert out. generalize (chunks MAX_BLOB_BYTES data).
  induction l as [|c l IH]; intros out; cbn [fold_left]; [by rewrite app_nil_r|].
  rewrite IH, fmap_cons, frames_of_singles_cons. by rewrite <- (assoc_L (++)).
Qed.

Lemma server_encode_nil s : server_encode s [] = server_to_bytes s.
Proof. done. Qed.

Create Rewrite HintDb wire.
Hint Rewrite frames_of_app wire_all_app singles_app frames_of_singles_cons wire_all_cons wire_all_one push_blobs_eq
  blob_frames_eq server_encode_app : wire.

(** The encoder never reaches its [unreachable!], and writes its plan. *)
Lemma guac_encode_plan e ev out :
  guac_encode e ev out = Some (out ++ frames_of (fst (plan e ev)), snd (plan e ev)).
Proof.
  unfold guac_encode, plan. destruct (allocate_stream e) as [s e1] eqn:Ea.
  destruct ev as [x y mt d|[] kf x y w h ts d|d|d|sx sy w h dx dy|d|w h|hx hy w h mt d| |fe|r c];
    cbn [encode_control]; unfold encode_image, encode_clipboard, encode_audio, encode_h264, push_image.
  all: try rewrite Ea.
  all: try (destruct fe; cbn [encode_file]).
  all: try destruct (audio_stream e) as [a|] eqn:Eau.
  all: cbn [fst snd]; autorewrite with wire; cbn [frames_of fmap list_fmap]; autorewrite with wire;
    rewrite <- ?(assoc_L (++)), ?app_nil_r; try done.
Qed.
End plan.

(** ** Every frame can be read back *)

(** What an encoder may be asked to send: fields in the range of their Rust
    types, text within the element limit, and file-transfer streams below
    zero, which is where the SFTP engine allocates them. *)
Definition event_ok (ev : TargetEvent) : Prop :=
  match ev with
  | ImageUpdate x y mt d => is_i32 x /\ is_i32 y /\ wf_element mt /\ bytes_ok d
  | VideoSlice _ _ x y w h ts d =>
      is_i32 x /\ is_i32 y /\ is_u32 w /\ is_u32 h /\ is_u64 ts /\ bytes_ok d
  | TerminalOutput d | Audio d | Clipboard d => bytes_ok d
  | CopyRegion sx sy w h dx dy => is_i32 sx /\ is_i32 sy /\ is_u32 w /\ is_u32 h /\ is_i32 dx /\ is_i32 dy
  | Resized w h => is_u32 w /\ is_u32 h
  | CursorImage hx hy w h mt d => is_u32 w /\ is_u32 h /\ wf_element mt /\ bytes_ok d
  | CursorHidden => True
  | File (FFilesystem o n) => is_i32 o /\ wf_element n
  | File (FBody o s mt n) => is_i32 o /\ is_i32 s /\ s < 0 /\ wf_element mt /\ wf_element n
  | File (FData s d) => is_i32 s /\ s < 0 /\ bytes_ok d
  | File (FEnd s) => is_i32 s /\ s < 0
  | File (FAck s m st) => is_i32 s /\ wf_element m /\ is_i32 st
  | File (FNotice m _) => wf_element m
  | Disconnected r _ => wf_element r
  end.

(** Stream indices stay positive and within [i32]. *)
Definition encoder_wf (e : GuacWireEncoder) : Prop :=
  1 <= next_stream e <= LAST_STREAM /\ from_option (fun a => 1 <= a <= LAST_STREAM) True (audio_stream e).

Lemma allocate_wf e : encoder_wf e -> 1 <= fst (allocate_stream e) <= LAST_STREAM /\ encoder_wf (snd (allocate_stream e)).
Proof.
  intros [Hn Ha]. unfold allocate_stream. cbn. split; [done|]. split; [|done]. cbn.
  case_test; b2p; unfold LAST_STREAM in *; lia.
Qed.

Lemma wrap_i32_range z : is_i32 (wrap_i 32 z).
Proof.
  unfold in_range, wrap_i, i32_min, i32_max.
  pose proof (Z.mod_pos_bound (z + 2 ^ (32 - 1)) (2 ^ 32)). lia.
Qed.

Lemma stream_i32 s : 1 <= s <= LAST_STREAM -> is_i32 s.
Proof. unfold in_range, LAST_STREAM, i32_min, i32_max. lia. Qed.

Lemma Forall_chunks data : bytes_ok data -> Forall bytes_ok (chunks MAX_BLOB_BYTES data).
Proof.
  intros Hd. rewrite <- (chunks_concat MAX_BLOB_BYTES data) in Hd by (unfold MAX_BLOB_BYTES; lia).
  revert Hd. generalize (chunks MAX_BLOB_BYTES data). induction l as [|c l IH]; [constructor|].
  cbn [concat]. rewrite Forall_app. intros [? ?]. constructor; auto.
Qed.

(** Case on the audio stream where the plan does. *)
Ltac case_audio e :=
  match goal with
  | |- context [match audio_stream e with Some _ => _ | None => _ end] =>
      let Ea := fresh "Eau" in destruct (audio_stream e) eqn:Ea
  end.

Section wire.
Context `{Base64}.

Lemma blob_wf_element c :
  bytes_ok c -> (length c <= MAX_BLOB_BYTES)%nat ->
  wf_element (b64_encode STANDARD c) /\ Z.of_nat (length (b64_encode STANDARD c)) <= 6048.
Proof.
  intros Hok Hl. assert (Z.of_nat (length (b64_encode STANDARD c)) <= 6048) as Hlen.
  { pose proof (b64_encode_length STANDARD c) as Hb. unfold MAX_BLOB_BYTES in Hl.
    apply Nat2Z.inj_le in Hb, Hl. rewrite Nat2Z.inj_mul, Nat2Z.inj_div, Nat2Z.inj_add in Hb.
    change (Z.of_nat 4536) with 4536 in Hl. Z.to_euclidean_division_equations. lia. }
  split; [|done]. split; [by apply ascii_utf8, b64_encode_ascii|].
  pose proof (char_count_le (b64_encode STANDARD c)). unfold MAX_ELEMENT_CHARS. lia.
Qed.

Lemma blobs_wf s d : is_i32 s -> bytes_ok d -> Forall server_wf (blobs s d).
Proof.
  intros Hs Hd. unfold blobs. apply Forall_fmap. pose proof (Forall_chunks d Hd) as H1.
  assert (Forall (fun c => 0 < length c <= MAX_BLOB_BYTES)%nat (chunks MAX_BLOB_BYTES d)) as H2
    by (apply chunks_bounded; unfold MAX_BLOB_BYTES; lia).
  revert H1 H2. generalize (chunks MAX_BLOB_BYTES d). induction l as [|c l IH]; [constructor|].
  rewrite !Forall_cons. intros [Hc ?] [Hl ?]. split; [|auto]. split; [done|].
  by apply blob_wf_element; [|lia].
Qed.

Lemma Forall_singles (P : ServerInstruction -> Prop) ins : Forall P ins -> Forall (Forall P) (singles ins).
Proof. intros Hi. apply Forall_fmap. eapply Forall_impl; [exact Hi|]. intros i Hp. by apply Forall_singleton. Qed.

Ltac plan_goals :=
  repeat match goal with
  | |- Forall _ (singles _) => apply Forall_singles
  | |- Forall _ [] => apply Forall_nil_2
  | |- Forall _ (_ :: _) => apply Forall_cons_2
  | |- Forall _ (_ ++ _) => apply Forall_app; split
  | |- Forall _ (blobs _ _) => apply blobs_wf
  | |- server_wf _ => cbn [server_wf]
  | |- _ /\ _ => split
  | |- in_range _ _ (wrap_i 32 _) => apply wrap_i32_range
  | |- in_range _ _ (disconnect_status ?c) => is_var c; destruct c
  | H : ?P |- ?Q => constr_eq P Q; exact H
  | |- in_range _ _ _ =>
      cbv [in_range u8_max u32_max i32_min i32_max COMPOSITE_OVER COMPOSITE_SRC DEFAULT_LAYER CURSOR_LAYER
           TRANSFER_NOTICE_MSG disconnect_status SERVER_ERROR UPSTREAM_ERROR UPSTREAM_UNAVAILABLE SESSION_CONFLICT
           SESSION_TIMEOUT SESSION_CLOSED CLIENT_UNAUTHORIZED]; lia
  end.

Lemma plan_encoder_wf e ev : encoder_wf e -> encoder_wf (snd (plan e ev)).
Proof.
  intros He. pose proof (allocate_wf e He) as [Hs He1]. unfold plan.
  destruct (allocate_stream e) as [s e1]. cbn [fst snd] in Hs, He1.
  destruct ev as [| [] |d|d| | | | | |fe|]; try destruct fe; try (case_audio e);
    cbn [snd]; first [exact He|exact He1|split; [exact (proj1 He)|exact (proj2 He)]|split; [exact (proj1 He1)|exact Hs]].
Qed.

Lemma plan_wf e ev : encoder_wf e -> event_ok ev -> Forall (Forall server_wf) (fst (plan e ev)).
Proof.
  intros He Hev. pose proof (allocate_wf e He) as [Hs _]. pose proof He as [_ Ha]. unfold plan.
  destruct (allocate_stream e) as [s e1]. cbn [fst snd] in Hs. pose proof (stream_i32 s Hs) as Hsi.
  assert (forall z, is_i32 (wrap_i 32 z)) by apply wrap_i32_range.
  assert (wf_element (str "text/plain")) as Htp by wf_elements.
  assert (wf_element AUDIO_MIMETYPE) as Ham by (apply str_wf; [by vm_compute|by vm_compute; lia]).
  destruct ev as [x y mt d|[] kf x y w h ts d|d|d|sx sy w h dx dy|d|w h|hx hy w h mt d| |fe|r c];
    try destruct fe; try (case_audio e); cbn [fst]; cbn [event_ok] in Hev;
    destruct_and?; plan_goals.
  - by apply stream_i32.
  - destruct ok; wf_elements.
  - cbn. lia.
Qed.
End wire.

Section read_back.
Context `{Base64} `{Winnow}.

(** Reading a frame instruction by instruction. *)
Fixpoint read_frame_instructions (fuel : nat) (b : bytes) : option (list GuacInstruction) :=
  match b, fuel with
  | [], _ => Some []
  | _, O => None
  | _, S f =>
      match try_parse_instruction b with
      | Ok (Some (i, n)) => (cons i) <$> read_frame_instructions f (drop n b)
      | _ => None
      end
  end.

Lemma server_to_bytes_nonempty s : server_wf s -> (0 < length (server_to_bytes s))%nat.
Proof.
  intros Hs. pose proof (server_parse s [] Hs) as Hp. apply try_parse_bounds in Hp. lia.
Qed.

Lemma read_wire_all ins fuel :
  Forall server_wf ins -> (length ins <= fuel)%nat ->
  read_frame_instructions fuel (wire_all ins) = Some (server_instruction <$> ins).
Proof.
  revert fuel. induction ins as [|i ins IH]; intros fuel Hw Hf; [by destruct fuel|].
  apply Forall_cons in Hw as [Hi Hw]. destruct fuel as [|fuel]; [cbn in Hf; lia|].
  rewrite wire_all_cons. pose proof (server_to_bytes_nonempty i Hi) as Hne.
  destruct (server_to_bytes i ++ wire_all ins) as [|b l] eqn:E.
  { apply app_nil in E as [E _]. rewrite E in Hne. cbn in Hne. lia. }
  cbn [read_frame_instructions]. rewrite <- E, server_parse by done.
  rewrite drop_app_length, IH by (done || cbn in Hf; lia). done.
Qed.

Lemma wire_all_length ins : Forall server_wf ins -> (length ins <= length (wire_all ins))%nat.
Proof.
  induction 1 as [|i ins Hi Hw IH]; [done|]. rewrite wire_all_cons, length_app. cbn.
  pose proof (server_to_bytes_nonempty i Hi). lia.
Qed.
End read_back.

(** ** What the client reassembles *)

(** A completed stream carries its opening instruction, with the stream
    index dropped, and the bytes of its blobs. *)
Inductive delivered : Type :=
| DInstr (i : ServerInstruction)
| DStream (opened_by : ServerInstruction) (data : bytes).

(** A client of the stream protocol: the streams open now and what was
    delivered.  [None] is a protocol violation: opening an open stream, data
    or an end on a closed one, or data that is not base64. *)
Record receiver : Type := mk_receiver {
  open_streams : gmap Z (ServerInstruction * bytes); delivered_log : list delivered
}.

Definition opens (i : ServerInstruction) : option (Z * ServerInstruction) :=
  match i with
  | SImg s m l mt x y => Some (s, SImg 0 m l mt x y)
  | SClipboard s mt => Some (s, SClipboard 0 mt)
  | SAudio s mt => Some (s, SAudio 0 mt)
  | SH264 s l kf x y w h => Some (s, SH264 0 l kf x y w h)
  | _ => None
  end.

Section receiver.
Context `{Base64}.

Definition deliver (r : receiver) (d : delivered) : receiver :=
  mk_receiver (open_streams r) (delivered_log r ++ [d]).

Definition receive (r : receiver) (i : ServerInstruction) : option receiver :=
  match opens i with
  | Some (s, h) =>
      match open_streams r !! s with
      | Some _ => None
      | None => Some (mk_receiver (<[s := (h, [])]> (open_streams r)) (delivered_log r))
      end
  | None =>
      match i with
      | SBlob s d =>
          if s <? 0 then Some (deliver r (DInstr i))
          else
            '(h, acc) ← open_streams r !! s;
            bs ← b64_decode STANDARD d;
            Some (mk_receiver (<[s := (h, acc ++ bs)]> (open_streams r)) (delivered_log r))
      | SEnd s =>
          if s <? 0 then Some (deliver r (DInstr i))
          else
            '(h, acc) ← open_streams r !! s;
            Some (mk_receiver (delete s (open_streams r)) (delivered_log r ++ [DStream h acc]))
      | i => Some (deliver r (DInstr i))
      end
  end.

Fixpoint receive_all (r : receiver) (ins : list ServerInstruction) : option receiver :=
  match ins with
  | [] => Some r
  | i :: rest => r ← receive r i; receive_all r rest
  end.

Lemma receive_all_app r a b : receive_all r (a ++ b) = (r ← receive_all r a; receive_all r b).
Proof. revert r. induction a as [|i a IH]; intros r; [done|]. cbn. destruct (receive r i); cbn; [apply IH|done]. Qed.

Lemma receive_blobs s h acc m log data :
  0 <= s -> bytes_ok data ->
  receive_all (mk_receiver (<[s := (h, acc)]> m) log) (blobs s data) =
    Some (mk_receiver (<[s := (h, acc ++ data)]> m) log).
Proof.
  intros Hs Hd. unfold blobs. pose proof (Forall_chunks data Hd) as Hc.
  rewrite <- (chunks_concat MAX_BLOB_BYTES data) at 2 by (unfold MAX_BLOB_BYTES; lia).
  revert Hc acc. generalize (chunks MAX_BLOB_BYTES data).
  induction l as [|c l IH]; intros Hc acc; [by rewrite app_nil_r|].
  apply Forall_cons in Hc as [Hc1 Hc]. rewrite fmap_cons. cbn [receive_all receive opens open_streams delivered_log].
  take_false (s <? 0). rewrite lookup_insert_eq. cbn [mbind option_bind].
  rewrite b64_decode_encode by done. cbn [mbind option_bind]. rewrite insert_insert_eq.
  rewrite IH by done. cbn [concat]. by rewrite (assoc_L (++)).
Qed.

Lemma receive_file_blobs s m log data :
  s < 0 -> receive_all (mk_receiver m log) (blobs s data) = Some (mk_receiver m (log ++ (DInstr <$> blobs s data))).
Proof.
  intros Hs. unfold blobs. generalize (chunks MAX_BLOB_BYTES data). intros l. revert log.
  induction l as [|c l IH]; intros log; [by rewrite app_nil_r|].
  rewrite !fmap_cons. cbn [receive_all receive opens]. take_true (s <? 0). unfold deliver. cbn [mbind option_bind open_streams delivered_log].
  rewrite IH. by rewrite <- (assoc_L (++)).
Qed.

(** A stream from its opening to its end. *)
Lemma receive_stream i s h m log data rest :
  opens i = Some (s, h) -> 0 <= s -> m !! s = None -> bytes_ok data ->
  receive_all (mk_receiver m log) (i :: blobs s data ++ SEnd s :: rest) =
    receive_all (mk_receiver m (log ++ [DStream h data])) rest.
Proof.
  intros Hi Hs Hm Hd. cbn [receive_all]. unfold receive at 1. rewrite Hi. cbn [open_streams delivered_log].
  rewrite Hm. cbn [mbind option_bind]. rewrite receive_all_app, receive_blobs by done. cbn [mbind option_bind].
  cbn [receive_all receive opens]. take_false (s <? 0). cbn [open_streams delivered_log].
  rewrite lookup_insert_eq. cbn [mbind option_bind]. by rewrite delete_insert_id.
Qed.

(** What an event should deliver. *)
Definition expected (ev : TargetEvent) : list delivered :=
  match ev with
  | ImageUpdate x y mt d => [DStream (SImg 0 COMPOSITE_OVER DEFAULT_LAYER mt x y) d]
  | VideoSlice H264 kf x y w h _ d => [DStream (SH264 0 DEFAULT_LAYER kf x y w h) d]
  | VideoSlice Av1 _ _ _ _ _ _ _ | TerminalOutput _ | Audio _ => []
  | CopyRegion sx sy w h dx dy => [DInstr (SCopy DEFAULT_LAYER sx sy w h COMPOSITE_OVER DEFAULT_LAYER dx dy)]
  | Clipboard d => [DStream (SClipboard 0 (str "text/plain")) d]
  | Resized w h => [DInstr (SSize DEFAULT_LAYER w h)]
  | CursorImage hx hy w h mt d =>
      [DInstr (SSize CURSOR_LAYER w h); DStream (SImg 0 COMPOSITE_SRC CURSOR_LAYER mt 0 0) d;
       DInstr (SCursor (wrap_i 32 hx) (wrap_i 32 hy) CURSOR_LAYER 0 0 w h)]
  | CursorHidden => [DInstr (SSize CURSOR_LAYER 1 1); DInstr (SCursor 0 0 CURSOR_LAYER 0 0 1 1)]
  | File (FData s d) => DInstr <$> blobs s d
  | File (FFilesystem o n) => [DInstr (SFilesystem o n)]
  | File (FBody o s mt n) => [DInstr (SBody o s mt n)]
  | File (FEnd s) => [DInstr (SEnd s)]
  | File (FAck s m st) => [DInstr (SAck s m st)]
  | File (FNotice m ok) => [DInstr (SMsg TRANSFER_NOTICE_MSG [if ok then str "ok" else str "warning"; m])]
  | Disconnected r c => [DInstr (SError r (disconnect_status c))]
  end.

Definition audio_of (ev : TargetEvent) : bytes := match ev with Audio d => d | _ => [] end.

(** Between events only the audio stream, if any, is open, and it holds the
    sound so far. *)
Definition open_between (e : GuacWireEncoder) (sound : bytes) : gmap Z (ServerInstruction * bytes) :=
  match audio_stream e with Some a => {[ a := (SAudio 0 AUDIO_MIMETYPE, sound) ]} | None => ∅ end.

(** No stream index was reused yet. *)
Definition fresh_streams (e : GuacWireEncoder) : Prop :=
  1 <= next_stream e <= LAST_STREAM /\ from_option (fun a => 1 <= a < next_stream e) True (audio_stream e).

Lemma concat_singles ins : concat (singles ins) = ins.
Proof. induction ins as [|i ins IH]; [done|]. cbn. f_equal. exact IH. Qed.

Lemma allocate_fresh e :
  next_stream e < LAST_STREAM ->
  allocate_stream e = (next_stream e, mk_encoder (next_stream e + 1) (unsupported e) (audio_stream e)).
Proof. intros Hl. unfold allocate_stream. by take_false (LAST_STREAM <=? next_stream e). Qed.

Lemma open_between_fresh e sound : fresh_streams e -> open_between e sound !! next_stream e = None.
Proof.
  intros [Hn Ha]. unfold open_between. destruct (audio_stream e) as [a|]; cbn in Ha; [|done].
  apply lookup_singleton_ne. lia.
Qed.

Lemma receive_plan e ev sound log :
  event_ok ev -> fresh_streams e -> next_stream e < LAST_STREAM -> (audio_stream e = None -> sound = []) ->
  receive_all (mk_receiver (open_between e sound) log) (concat (fst (plan e ev))) =
    Some (mk_receiver (open_between (snd (plan e ev)) (sound ++ audio_of ev)) (log ++ expected ev)).
Proof.
  intros Hev Hf Hl Hsound. pose proof (open_between_fresh e sound Hf) as Hfree.
  assert (0 <= next_stream e) as Hpos by (destruct Hf; lia).
  unfold plan. rewrite allocate_fresh by done.
  destruct ev as [x y mt d|[] kf x y w h ts d|d|d|sx sy w h dx dy|d|w h|hx hy w h mt d| |fe|r c];
    try destruct fe; cbn [event_ok] in Hev; destruct_and?; cbn [fst snd audio_of expected]; rewrite ?app_nil_r.
  all: try (cbn [concat app receive_all receive opens mbind option_bind]; rewrite ?app_nil_r;
            first [reflexivity|unfold deliver; cbn [open_streams delivered_log]; by rewrite <- ?(assoc_L (++))]).
  1, 2, 4: rewrite ?concat_singles; cbn [concat]; rewrite ?app_nil_r; by erewrite receive_stream.
  - destruct (audio_stream e) as [a|] eqn:Ea; cbn [fst snd]; rewrite concat_singles; unfold open_between.
    + rewrite Ea. apply receive_blobs; [|done]. destruct Hf as [_ Hf]. rewrite Ea in Hf. cbn in Hf. lia.
    + rewrite Ea, Hsound by done. cbn [receive_all receive opens open_streams]. rewrite lookup_empty.
      cbn [mbind option_bind audio_stream delivered_log]. by rewrite receive_blobs.
  - cbn [concat]. rewrite app_nil_r.
    change (receive_all (mk_receiver ?m ?l) (SSize ?x ?y ?z :: ?r))
      with (receive_all (mk_receiver m (l ++ [DInstr (SSize x y z)])) r).
    erewrite receive_stream by done.
    cbn [receive_all receive opens mbind option_bind]. unfold deliver. cbn [open_streams delivered_log].
    by rewrite <- !(assoc_L (++)).
  - rewrite concat_singles. by apply receive_file_blobs.
  - cbn [concat app receive_all receive opens]. by take_true (stream <? 0).
Qed.

Lemma plan_fresh e ev :
  fresh_streams e -> next_stream e < LAST_STREAM ->
  fresh_streams (snd (plan e ev)) /\ next_stream (snd (plan e ev)) <= next_stream e + 1.
Proof.
  intros [Hn Ha] Hl. unfold plan. rewrite allocate_fresh by done.
  assert (from_option (fun a => 1 <= a < next_stream e + 1) True (audio_stream e)) as Ha'
    by (destruct (audio_stream e); cbn in *; lia).
  destruct ev as [| [] |d|d| | | | | |fe|]; try destruct fe; try (case_audio e); unfold fresh_streams;
    cbn [snd next_stream audio_stream from_option] in *; rewrite ?Eau; split_and!; try done; lia.
Qed.

Lemma plan_silent e ev :
  audio_stream (snd (plan e ev)) = None -> audio_stream e = None /\ audio_of ev = [].
Proof.
  unfold plan, allocate_stream.
  destruct ev as [| [] |d|d| | | | | |fe|]; try destruct fe; try (case_audio e); cbn; try done; congruence.
Qed.
End receiver.

#[export] Instance guac_frame_encoder `{Base64} : FrameEncoder GuacWireEncoder.
Proof.
  refine {| mode := fun _ => GuacWire; encode := guac_encode; sync := guac_sync |}.
  - intros e ev out. rewrite guac_encode_plan. by eexists _, _.
  - intros e t out. by eexists _, _.
Defined.

Section guac_properties.
Context `{Base64} `{Winnow}.

(** For every encoder state with positive stream indices and every
    well-formed event, encoding does not panic, only appends, keeps the
    indices positive and within [i32] even after the counter wraps, and each
    appended frame reads back, to the last byte, as well-formed instructions
    (whose blobs are at most 6048 characters, by [blob_wf_element]). *)
Lemma guac_encode_readable e ev out :
  encoder_wf e -> event_ok ev ->
  exists fs e', encode e ev out = Some (out ++ frames_of fs, e') /\ encoder_wf e' /\
    Forall (fun ins => read_frame_instructions (length (wire_all ins)) (wire_all ins) =
                        Some (server_instruction <$> ins)) fs.
Proof.
  intros He Hev. exists (fst (plan e ev)), (snd (plan e ev)). split_and!.
  - apply guac_encode_plan.
  - by apply plan_encoder_wf.
  - eapply Forall_impl; [by apply plan_wf|]. intros ins Hins. apply read_wire_all; [done|].
    by apply wire_all_length.
Qed.

Lemma encode_all_plan evs : forall e out sound log,
  Forall event_ok evs -> fresh_streams e -> next_stream e + Z.of_nat (length evs) <= LAST_STREAM ->
  (audio_stream e = None -> sound = []) ->
  exists fs e', encode_all e evs out = Some (out ++ frames_of fs, e') /\
    receive_all (mk_receiver (open_between e sound) log) (concat fs) =
      Some (mk_receiver (open_between e' (sound ++ concat (audio_of <$> evs)))
                        (log ++ concat (expected <$> evs))).
Proof.
  induction evs as [|ev evs IH]; intros e out sound log Hok Hf Hn Hs.
  - exists [], e. cbn. by rewrite !app_nil_r.
  - apply Forall_cons in Hok as [Hev Hok]. cbn [length] in Hn. assert (next_stream e < LAST_STREAM) as Hl by lia.
    pose proof (receive_plan e ev sound log Hev Hf Hl Hs) as Hr.
    destruct (plan_fresh e ev Hf Hl) as [Hf' Hn'].
    destruct (IH (snd (plan e ev)) (out ++ frames_of (fst (plan e ev))) (sound ++ audio_of ev) (log ++ expected ev))
      as (fs & e' & Ee & Er); [done|done|lia| |].
    { intros Ha. apply plan_silent in Ha as [Ha Hd]. by rewrite Hs, Hd. }
    exists (fst (plan e ev) ++ fs), e'. split.
    + cbn [encode_all encode guac_frame_encoder]. rewrite guac_encode_plan. cbn [mbind option_bind].
      rewrite Ee, frames_of_app. by rewrite (assoc_L (++)).
    + rewrite concat_app, receive_all_app, Hr. cbn [mbind option_bind]. rewrite Er. cbn [fmap list_fmap concat].
      by rewrite <- !(assoc_L (++)).
Qed.

End guac_properties.

(** ** Direct streaming *)

Record BinaryEncoder : Type := mk_binary { control : GuacWireEncoder; dropped : Z }.

Definition binary_new : BinaryEncoder := mk_binary encoder_new 0.

Definition drop_payload (b : BinaryEncoder) : BinaryEncoder := mk_binary (control b) (wrap_u 64 (dropped b + 1)).

Definition push_envelope (b : BinaryEncoder) (t : StreamType) (timestamp_ms : Z) (payload : bytes)
    (out : list ClientFrame) : list ClientFrame * BinaryEncoder :=
  match media_new t timestamp_ms payload with
  | Ok envelope => (out ++ [BinaryFrame (media_encode envelope [])], b)
  | Err _ => (out, drop_payload b)
  end.

Section binary.
Context `{Base64}.

(** Hand the event to the text encoder. *)
Definition via_control (b : BinaryEncoder) (ev : TargetEvent) (out : list ClientFrame) :
    option (list ClientFrame * BinaryEncoder) :=
  '(out, c) ← guac_encode (control b) ev out; Some (out, mk_binary c (dropped b)).

Definition binary_encode (b : BinaryEncoder) (ev : TargetEvent) (out : list ClientFrame) :
    option (list ClientFrame * BinaryEncoder) :=
  match encode_control (control b) ev out with
  | Some (out, c) => Some (out, mk_binary c (dropped b))
  | None =>
      match ev with
      | VideoSlice H264 _ _ _ _ _ timestamp_ms data => Some (push_envelope b H264Video timestamp_ms data out)
      | VideoSlice Av1 _ _ _ _ _ _ _ => Some (out, drop_payload b)
      | TerminalOutput data => Some (push_envelope b RawTerminal 0 data out)
      | Clipboard data => Some (push_envelope b ClipboardSync 0 data out)
      | Audio _ => via_control b ev out
      | File _ => via_control b ev out
      | CopyRegion _ _ _ _ _ _ => Some (out, b)
      | ImageUpdate _ _ _ _ => via_control b ev out
      | Resized _ _ | Disconnected _ _ | CursorImage _ _ _ _ _ _ | CursorHidden => None
      end
  end.

Definition binary_sync (b : BinaryEncoder) (timestamp_ms : Z) (out : list ClientFrame) :
    list ClientFrame * BinaryEncoder :=
  let '(out, c) := guac_sync (control b) timestamp_ms out in (out, mk_binary c (dropped b)).

(** The payloads that travel as envelopes, with their type and time. *)
Definition envelope_of (ev : TargetEvent) : option MediaEnvelope :=
  match ev with
  | VideoSlice H264 _ _ _ _ _ ts d => Some (mk_envelope H264Video ts d)
  | TerminalOutput d => Some (mk_envelope RawTerminal 0 d)
  | Clipboard d => Some (mk_envelope ClipboardSync 0 d)
  | _ => None
  end.

Definition is_av1 (ev : TargetEvent) : bool := match ev with VideoSlice Av1 _ _ _ _ _ _ _ => true | _ => false end.

(** Everything without an envelope, AV1 apart, takes the text path. *)
Lemma binary_text b ev out :
  envelope_of ev = None -> is_av1 ev = false ->
  binary_encode b ev out = Some (out ++ frames_of (fst (plan (control b) ev)),
                                 mk_binary (snd (plan (control b) ev)) (dropped b)).
Proof.
  intros He Ha. pose proof (guac_encode_plan (control b) ev out) as Hg. unfold binary_encode.
  unfold guac_encode in Hg. destruct (encode_control (control b) ev out) as [[o c]|] eqn:Ec.
  - by injection Hg as -> ->.
  - destruct ev as [| [] |d|d| | | | | |fe|]; try discriminate; unfold via_control, guac_encode; rewrite Ec;
      cbn [mbind option_bind]; apply (inj Some) in Hg; by rewrite Hg.
Qed.

Lemma binary_envelope b ev env out :
  envelope_of ev = Some env ->
  binary_encode b ev out =
    Some (match media_new (stream_type env) (timestamp_ms env) (payload env) with
          | Ok e => (out ++ [BinaryFrame (media_to_bytes e)], b)
          | Err _ => (out, drop_payload b)
          end).
Proof. destruct ev as [| [] |d|d| | | | | |fe|]; try discriminate; by intros [= <-]. Qed.

#[export] Instance binary_frame_encoder : FrameEncoder BinaryEncoder.
Proof.
  refine {| mode := fun _ => Direct; encode := binary_encode; sync := binary_sync |}.
  - intros b ev out. destruct (envelope_of ev) as [env|] eqn:Ee.
    + rewrite (binary_envelope b ev env) by done. destruct (media_new _ _ _); [by eexists _, _|].
      exists [], (drop_payload b). by rewrite app_nil_r.
    + destruct (is_av1 ev) eqn:Ea; [|rewrite binary_text by done; by eexists _, _].
      destruct ev as [| [] | | | | | | | | |]; try done. exists [], (drop_payload b). by rewrite app_nil_r.
  - intros b t out. by eexists _, _.
Defined.

(** In direct mode, every H.264 slice, terminal chunk and clipboard of at
    most 16 MiB leaves as one binary frame that decodes to exactly its type,
    timestamp and bytes; a larger payload is dropped and counted, never sent
    truncated; an AV1 slice is dropped and counted; and every other event is
    encoded exactly as in text mode. *)
Lemma binary_encode_spec b ev out :
  event_ok ev ->
  match envelope_of ev with
  | Some env =>
      if bool_decide (Z.of_nat (length (payload env)) <= MAX_MEDIA_PAYLOAD) then
        exists frame, encode b ev out = Some (out ++ [BinaryFrame frame], b) /\
          media_decode frame = Ok (Some (env, length frame))
      else encode b ev out = Some (out, drop_payload b)
  | None =>
      if is_av1 ev then encode b ev out = Some (out, drop_payload b)
      else encode b ev out =
        ('(out, c) ← guac_encode (control b) ev out; Some (out, mk_binary c (dropped b)))
  end.
Proof.
  intros Hev. destruct (envelope_of ev) as [env|] eqn:Ee.
  - cbn [encode binary_frame_encoder]. rewrite (binary_envelope b ev env out Ee). unfold media_new.
    destruct (bool_decide _) eqn:Eb; b2p.
    + take_false (MAX_MEDIA_PAYLOAD <? Z.of_nat (length (payload env))).
      assert (is_u64 (timestamp_ms env)) as Hts.
      { destruct ev as [| [] | | | | | | | | |]; try discriminate; injection Ee as <-; cbn in *; try tauto;
          unfold in_range, u64_max; lia. }
      pose proof (media_decode_encode env [] (conj Hts Eb)) as Hdec. rewrite app_nil_r in Hdec.
      replace (mk_envelope (stream_type env) (timestamp_ms env) (payload env)) with env by by destruct env.
      eexists. split; [done|]. by rewrite media_to_bytes_length.
    + by take_true (MAX_MEDIA_PAYLOAD <? Z.of_nat (length (payload env))).
  - destruct (is_av1 ev) eqn:Ea; [by destruct ev as [| [] | | | | | | | | |]|].
    cbn [encode binary_frame_encoder]. rewrite binary_text, guac_encode_plan by done. done.
Qed.
End binary.

(** [terminal_envelope]. *)
Definition terminal_envelope (timestamp_ms : Z) (data : bytes) : option bytes :=
  match media_new RawTerminal timestamp_ms data with
  | Ok e => Some (media_to_bytes e)
  | Err _ => None
  end.

(** ** Witnesses *)

Module WireExamples.
Import Reference.
Definition evs : list TargetEvent :=
  [ Resized 1024 768; ImageUpdate 10 20 (str "image/webp") (str "pixels"); Audio (str "beep");
    VideoSlice H264 true 0 0 640 480 7 (str "slice"); TerminalOutput (str "lost"); Clipboard (str "copied");
    File (FData (-1) (str "chunk")); Audio (str "boop"); Disconnected (str "bye, now;") Ended ].

Lemma ascii_ok (b : bytes) : forallb (fun x => (0 <=? x) && (x <? 256)) b = true -> bytes_ok b.
Proof.
  intros Hb. apply Forall_forall. intros x Hx. rewrite forallb_forall in Hb.
  specialize (Hb x (proj1 (list_elem_of_In _ _) Hx)). b2p. unfold byte_ok. lia.
Qed.

Ltac closed_event :=
  cbn [event_ok]; split_and?;
  first [done|by apply ascii_ok|by apply str_wf; [vm_compute|vm_compute; lia]
        |unfold in_range, i32_min, i32_max, u32_max, u64_max; lia].

Lemma evs_ok : Forall event_ok evs.
Proof. unfold evs. repeat apply Forall_cons_2; try apply Forall_nil_2; closed_event. Qed.

Lemma guac_encode_readable_witness :
  exists fs e', Engine.encode encoder_new (CursorImage 1 2 16 16 (str "image/png") (str "arrow")) [] =
      Some ([] ++ frames_of fs, e') /\ encoder_wf e' /\
    Forall (fun ins => read_frame_instructions (length (wire_all ins)) (wire_all ins) =
                        Some (server_instruction <$> ins)) fs.
Proof.
  apply (guac_encode_readable encoder_new (CursorImage 1 2 16 16 (str "image/png") (str "arrow")) []).
  - by split; [unfold LAST_STREAM; cbn; lia|].
  - closed_event.
Defined.


Lemma binary_encode_spec_witness :
  exists frame, Engine.encode binary_new (TerminalOutput (str "$ ls")) [] =
      Some ([] ++ [BinaryFrame frame], binary_new) /\
    media_decode frame = Ok (Some (mk_envelope RawTerminal 0 (str "$ ls"), length frame)).
Proof. apply (binary_encode_spec binary_new (TerminalOutput (str "$ ls")) []). closed_event. Defined.
End WireExamples.
