(* ===== verification/Actor.v ===== *)
(** * The session actor

    [crates/strata-session/src/actor/session.rs] (the whole actor: client and
    guest input, target events, the recording tap, winding down) with the
    error types of [error.rs].  A handler is a function on [Actor] that
    threads Rust's [?]; what the outside world answers to each effect (the
    clocks, the audit sink, the engine, the operator's queue, the float
    token bucket of [OpenRate]) comes from [Env], indexed by a counter of
    effects so that no two answers are confused. *)

From S2P Require Import Prelude Machine Text Crates Guacamole Instruction Engine.

Local Open Scope Z_scope.

(** ** Errors *)

Inductive EngineError : Type :=
| AuthRejected
| Transport (timed_out : bool)
| ProtocolViolation (why : bytes)
| Unsupported (what : bytes)
| ClosedByTarget (why : bytes).

Inductive SessionError : Type :=
| EWire (e : WireError)
| EEngine (e : EngineError)
| EEdgeAuth (why : bytes)
| EUnknownSession (id : bytes)
| EPipelineClosed (what : string)
| EAudit (why : bytes).

#[export] Instance EngineError_eq_dec : EqDecision EngineError.
Proof. solve_decision. Defined.
#[export] Instance SessionError_eq_dec : EqDecision SessionError.
Proof. solve_decision. Defined.

(** ** Limits *)

Definition MAX_CLIPBOARD_BYTES : Z := 8 * 1024 * 1024.
Definition MAX_CLIPBOARD_STREAMS : nat := 4.
Definition MAX_CLIPBOARD_SESSION_BYTES : Z := 2 * MAX_CLIPBOARD_BYTES.
Definition MAX_UPLOAD_STREAMS : nat := 16.
(** Thirty seconds, in nanoseconds. *)
Definition CLIPBOARD_IDLE : Z := 30 * 1000000000.
Definition MAX_CLIPBOARD_PROCESS_BYTES : Z := 256 * 1024 * 1024.
Definition MAX_GUEST_CLIPBOARD_STREAMS : nat := 1.
Definition STATUS_BAD_REQUEST : Z := 768.
Definition STATUS_OVERRUN : Z := 781.
Definition STATUS_BAD_TYPE : Z := 783.
Definition STATUS_TOO_MANY : Z := 797.

(** ** Data *)

Record Refusal : Type := mk_refusal { r_status : Z; r_message : string }.

Record PendingClipboard : Type := mk_pending { p_data : bytes; p_touched : Z }.

Record SessionFrame : Type := mk_frame { f_seq : Z; f_timestamp_ms : Z; f_frame : ClientFrame }.

Inductive Moderation : Type := Allow | Deny (reason : bytes).

Record RecordingPolicy : Type := mk_policy { exclude_output : bool; include_keys : bool }.

Inductive SessionCommand : Type :=
| ClientInput (i : ClientInstruction)
| GuestInput (i : ClientInstruction)
| AttachObserver
| Terminate (reason : string).

(** Answers of the outside world to the [n]-th effect. *)
Record Env : Type := mk_env {
  now_ms : nat -> Z;
  instant : nat -> Z;
  audit_failure : nat -> option bytes;
  engine_failure : nat -> option EngineError;
  queue_full : nat -> bool;
  queue_closed : nat -> bool;
  open_rate_take : nat -> bool;
  closing_event : nat -> option TargetEvent;
  review : option (nat -> InputEvent -> Moderation)
}.

(** The actor, with what it has produced so far: the records accepted by the
    audit sink, the frames broadcast to observers, the frames queued to the
    operator, the inputs handed to the engine; [process_bytes] is the static
    [CLIPBOARD_PROCESS_BYTES]. *)
Record Actor (E : Type) : Type := mk_actor {
  encoder : E;
  recording : RecordingPolicy;
  seq : Z;
  dropped_frames : Z;
  clipboard_streams : gmap Z PendingClipboard;
  guest_clipboard_streams : gmap Z PendingClipboard;
  upload_streams : gset Z;
  process_bytes : Z;
  effects : nat;
  recorded : list SessionFrame;
  observed : list SessionFrame;
  sent : list ClientFrame;
  to_engine : list InputEvent
}.
Arguments mk_actor {E} _ _ _ _ _ _ _ _ _ _ _ _ _.
Arguments encoder {E} _. Arguments recording {E} _. Arguments seq {E} _. Arguments dropped_frames {E} _.
Arguments clipboard_streams {E} _. Arguments guest_clipboard_streams {E} _. Arguments upload_streams {E} _.
Arguments process_bytes {E} _. Arguments effects {E} _. Arguments recorded {E} _. Arguments observed {E} _.
Arguments sent {E} _. Arguments to_engine {E} _.

Section actor.
Context `{Base64} {E : Type} `{FrameEncoder E} (env : Env).
Implicit Types a : Actor E.

(** *** Setters *)
Definition with_encoder a e : Actor E :=
  mk_actor e (recording a) (seq a) (dropped_frames a) (clipboard_streams a) (guest_clipboard_streams a)
    (upload_streams a) (process_bytes a) (effects a) (recorded a) (observed a) (sent a) (to_engine a).
Definition with_seq a s : Actor E :=
  mk_actor (encoder a) (recording a) s (dropped_frames a) (clipboard_streams a) (guest_clipboard_streams a)
    (upload_streams a) (process_bytes a) (effects a) (recorded a) (observed a) (sent a) (to_engine a).
Definition with_dropped a d : Actor E :=
  mk_actor (encoder a) (recording a) (seq a) d (clipboard_streams a) (guest_clipboard_streams a)
    (upload_streams a) (process_bytes a) (effects a) (recorded a) (observed a) (sent a) (to_engine a).
(** Replace the operator's or the guest's clipboard streams. *)
Definition with_clipboard (guest : bool) a m : Actor E :=
  if guest
  then mk_actor (encoder a) (recording a) (seq a) (dropped_frames a) (clipboard_streams a) m
    (upload_streams a) (process_bytes a) (effects a) (recorded a) (observed a) (sent a) (to_engine a)
  else mk_actor (encoder a) (recording a) (seq a) (dropped_frames a) m (guest_clipboard_streams a)
    (upload_streams a) (process_bytes a) (effects a) (recorded a) (observed a) (sent a) (to_engine a).
Definition with_uploads a u : Actor E :=
  mk_actor (encoder a) (recording a) (seq a) (dropped_frames a) (clipboard_streams a) (guest_clipboard_streams a)
    u (process_bytes a) (effects a) (recorded a) (observed a) (sent a) (to_engine a).
Definition with_process_bytes a b : Actor E :=
  mk_actor (encoder a) (recording a) (seq a) (dropped_frames a) (clipboard_streams a) (guest_clipboard_streams a)
    (upload_streams a) b (effects a) (recorded a) (observed a) (sent a) (to_engine a).
Definition next_effect a : Actor E :=
  mk_actor (encoder a) (recording a) (seq a) (dropped_frames a) (clipboard_streams a) (guest_clipboard_streams a)
    (upload_streams a) (process_bytes a) (S (effects a)) (recorded a) (observed a) (sent a) (to_engine a).
Definition add_recorded a r : Actor E :=
  mk_actor (encoder a) (recording a) (seq a) (dropped_frames a) (clipboard_streams a) (guest_clipboard_streams a)
    (upload_streams a) (process_bytes a) (effects a) (recorded a ++ [r]) (observed a) (sent a) (to_engine a).
Definition add_observed a r : Actor E :=
  mk_actor (encoder a) (recording a) (seq a) (dropped_frames a) (clipboard_streams a) (guest_clipboard_streams a)
    (upload_streams a) (process_bytes a) (effects a) (recorded a) (observed a ++ [r]) (sent a) (to_engine a).
Definition add_sent a f : Actor E :=
  mk_actor (encoder a) (recording a) (seq a) (dropped_frames a) (clipboard_streams a) (guest_clipboard_streams a)
    (upload_streams a) (process_bytes a) (effects a) (recorded a) (observed a) (sent a ++ [f]) (to_engine a).
Definition add_input a i : Actor E :=
  mk_actor (encoder a) (recording a) (seq a) (dropped_frames a) (clipboard_streams a) (guest_clipboard_streams a)
    (upload_streams a) (process_bytes a) (effects a) (recorded a) (observed a) (sent a) (to_engine a ++ [i]).

(** *** Fallible steps *)
Definition act (A : Type) : Type := Actor E -> result SessionError A * Actor E.

(** [m?; k] *)
Definition and_then {A B} (m : act A) (k : act B) : act B := fun a =>
  match m a with
  | (Ok _, a) => k a
  | (Err e, a) => (Err e, a)
  end.

Definition ok {A} (x : A) : act A := fun a => (Ok x, a).
Definition fail {A} (e : SessionError) : act A := fun a => (Err e, a).

(** [SessionActor::spawn]. *)
Definition spawn (enc : E) (policy : RecordingPolicy) (process_bytes : Z) : Actor E :=
  mk_actor enc policy 0 0 ∅ ∅ ∅ process_bytes 0 [] [] [] [].

(** *** The recording tap and the frame fan-out *)

(** [is_graphical_output]. *)
Definition is_graphical_output (ev : TargetEvent) : bool :=
  match ev with
  | ImageUpdate _ _ _ _ | VideoSlice _ _ _ _ _ _ _ _ | TerminalOutput _ | CopyRegion _ _ _ _ _ _
  | Resized _ _ | CursorImage _ _ _ _ _ _ | CursorHidden => true
  | Audio _ | Clipboard _ | File _ | Disconnected _ _ => false
  end.

(** [self.audit.record(..).await]. *)
Definition audit_record (r : SessionFrame) : act unit := fun a =>
  match audit_failure env (effects a) with
  | Some why => (Err (EAudit why), next_effect a)
  | None => (Ok tt, next_effect (add_recorded a r))
  end.

Definition emit (frame : ClientFrame) (droppable output : bool) : act unit := fun a =>
  let record := mk_frame (seq a) (now_ms env (effects a)) frame in
  let a := with_seq a (wrap_u 64 (seq a + 1)) in
  and_then (if negb (output && exclude_output (recording a)) then audit_record record else ok tt)
   (fun a =>
     let a := add_observed a record in
     if droppable then
       if queue_full env (effects a) || queue_closed env (effects a)
       then (Ok tt, next_effect (with_dropped a (wrap_u 64 (dropped_frames a + 1))))
       else (Ok tt, next_effect (add_sent a frame))
     else
       if queue_closed env (effects a) then (Err (EPipelineClosed "client writer"), next_effect a)
       else (Ok tt, next_effect (add_sent a frame))) a.

Fixpoint emit_all (frames : list ClientFrame) (droppable output : bool) : act unit :=
  match frames with
  | [] => ok tt
  | f :: r => and_then (emit f droppable output) (emit_all r droppable output)
  end.

(** The encoder's frames for an event.  The [None] branch is dead: see
    [encode_appends]. *)
Definition encode_frames (e : E) (ev : TargetEvent) : list ClientFrame * E :=
  match encode e ev [] with Some r => r | None => ([], e) end.

Definition emit_sync : act unit := fun a =>
  let '(frames, e) := sync (encoder a) (Z.min (now_ms env (effects a)) i64_max) [] in
  emit_all frames false false (next_effect (with_encoder a e)).

Definition is_droppable (ev : TargetEvent) : bool :=
  match ev with VideoSlice _ keyframe _ _ _ _ _ _ => negb keyframe | _ => false end.

Definition on_target_event (ev : TargetEvent) : act unit := fun a =>
  let a :=
    match ev with
    | File (FAck stream _ status) =>
        if negb (status =? 0) then with_uploads a (upload_streams a ∖ {[stream]}) else a
    | _ => a
    end in
  let '(frames, e) := encode_frames (encoder a) ev in
  and_then (emit_all frames (is_droppable ev) (is_graphical_output ev)) emit_sync (with_encoder a e).

(** *** Client streams *)

(** [stream_in_use]. *)
Definition stream_in_use a (stream : Z) : bool :=
  bool_decide (is_Some (clipboard_streams a !! stream)) || bool_decide (stream ∈ upload_streams a).

Definition streams_of (guest : bool) a : gmap Z PendingClipboard :=
  if guest then guest_clipboard_streams a else clipboard_streams a.

(** Bytes held by a set of pending streams. *)
Definition pending_bytes (m : gmap Z PendingClipboard) : nat :=
  map_fold (fun _ p acc => (length (p_data p) + acc)%nat) 0%nat m.

(** Replace the streams; those that go give their bytes back
    ([Drop for PendingClipboard]). *)
Definition drop_streams (guest : bool) a (m : gmap Z PendingClipboard) : Actor E :=
  with_process_bytes (with_clipboard guest a m)
    (process_bytes a - Z.of_nat (pending_bytes (streams_of guest a) - pending_bytes m)).

(** [open_clipboard]: [None] means accepted. *)
Definition open_clipboard (stream : Z) (guest : bool) (a : Actor E) : option Refusal * Actor E :=
  if negb guest && stream_in_use a stream then
    (Some (mk_refusal STATUS_BAD_REQUEST "stream already in use"), a)
  else
    let limit := if guest then MAX_GUEST_CLIPBOARD_STREAMS else MAX_CLIPBOARD_STREAMS in
    let now := instant env (effects a) in
    let a := next_effect (drop_streams guest a
               (filter (fun '(_, p) => now - p_touched p < CLIPBOARD_IDLE) (streams_of guest a))) in
    if bool_decide (is_Some (streams_of guest a !! stream)) then
      (Some (mk_refusal STATUS_BAD_REQUEST "stream already in use"), a)
    else if (limit <=? size (streams_of guest a))%nat then
      (Some (mk_refusal STATUS_TOO_MANY "too many clipboard streams"), a)
    else if negb (open_rate_take env (effects a)) then
      (Some (mk_refusal STATUS_TOO_MANY "opening streams too fast"), next_effect a)
    else
      let a := next_effect a in
      (None, next_effect (with_clipboard guest a
               (<[stream := mk_pending [] (instant env (effects a))]> (streams_of guest a)))).

(** [append_clipboard]. *)
Definition append_clipboard (stream : Z) (data : bytes) (guest : bool) (a : Actor E) : option Refusal * Actor E :=
  let buffered := (pending_bytes (clipboard_streams a) + pending_bytes (guest_clipboard_streams a))%nat in
  match streams_of guest a !! stream with
  | None => (None, a)
  | Some pending =>
      let incoming := decoded_len_estimate (length data) in
      let removed := drop_streams guest a (delete stream (streams_of guest a)) in
      if (MAX_CLIPBOARD_BYTES <? Z.of_nat (length (p_data pending) + incoming))
         || (MAX_CLIPBOARD_SESSION_BYTES <? Z.of_nat (buffered + incoming)) then
        (Some (mk_refusal STATUS_OVERRUN "clipboard content too large"), removed)
      else if MAX_CLIPBOARD_PROCESS_BYTES <? process_bytes a + Z.of_nat incoming then
        (Some (mk_refusal STATUS_TOO_MANY "the server is busy; try again"), removed)
      else
        match b64_decode STANDARD data with
        | None => (Some (mk_refusal STATUS_BAD_REQUEST "malformed clipboard data"), removed)
        | Some decoded =>
            let pending := mk_pending (p_data pending ++ decoded) (instant env (effects a)) in
            (None, next_effect (with_process_bytes
               (with_clipboard guest a (<[stream := pending]> (streams_of guest a)))
               (process_bytes a + Z.of_nat (length decoded))))
        end
  end.

(** A finished clipboard stream: [remove], then [mem::take] of its data, so
    that [Drop] runs on an empty buffer and gives nothing back. *)
Definition take_clipboard (stream : Z) (guest : bool) (a : Actor E) : option bytes * Actor E :=
  match streams_of guest a !! stream with
  | None => (None, a)
  | Some pending => (Some (p_data pending), with_clipboard guest a (delete stream (streams_of guest a)))
  end.

(** [refuse]. *)
Definition refuse (stream : Z) (r : Refusal) : act unit := fun a =>
  if stream_in_use a stream then (Ok tt, a)
  else on_target_event (File (FAck stream (str (r_message r)) (r_status r))) a.

(** *** Input *)

(** [record_key]. *)
Definition record_key (keysym : Z) (pressed : bool) : act unit := fun a =>
  let frame := TextFrame (encode_instruction [] (str "key") [int_to_string keysym; str (if pressed then "1" else "0")]) in
  let record := mk_frame (seq a) (now_ms env (effects a)) frame in
  audit_record record (with_seq a (wrap_u 64 (seq a + 1))).

(** [self.engine.handle_input(input).await]. *)
Definition handle_input (input : InputEvent) : act unit := fun a =>
  let a' := next_effect (add_input a input) in
  match engine_failure env (effects a) with
  | Some e => (Err (EEngine e), a')
  | None => (Ok tt, a')
  end.

(** Whether the dual-control review blocks an input. *)
Definition denied (input : InputEvent) (a : Actor E) : bool :=
  match review env with
  | Some r => match r (effects a) input with Deny _ => true | Allow => false end
  | None => false
  end.

Definition deliver (input : InputEvent) : act unit := fun a =>
  if denied input a then (Ok tt, a)
  else
    and_then
      (match input with
       | IKey keysym pressed => if include_keys (recording a) then record_key keysym pressed else ok tt
       | _ => ok tt
       end)
      (handle_input input) a.

(** [mimetype.starts_with("text/")]. *)
Definition is_text (mimetype : bytes) : bool := bool_decide (take 5 mimetype = str "text/").

(** [deliver(input).await?; Ok(None)]. *)
Definition deliver_and_continue (input : InputEvent) : act (option string) := and_then (deliver input) (ok None).

(** [on_client_input]: [Some reason] ends the session. *)
Definition on_client_input (i : ClientInstruction) : act (option string) := fun a =>
  match i with
  | CMouse x y mask => deliver_and_continue (IMouse x y mask) a
  | CKey keysym pressed => deliver_and_continue (IKey keysym pressed) a
  | CSize width height dpi => deliver_and_continue (IResize width height dpi) a
  | CDisconnect => ok (Some "client requested disconnect"%string) a
  | CClipboard stream mimetype =>
      let '(refusal, a) :=
        if is_text mimetype then open_clipboard stream false a
        else (Some (mk_refusal STATUS_BAD_TYPE "only text can be pasted"), a) in
      match refusal with
      | Some r => and_then (refuse stream r) (ok None) a
      | None => ok None a
      end
  | CBlob stream data =>
      if bool_decide (stream ∈ upload_streams a) then
        match b64_decode STANDARD data with
        | None => ok None a
        | Some decoded => deliver_and_continue (IFile (FReqData stream decoded)) a
        end
      else
        let '(refusal, a) := append_clipboard stream data false a in
        match refusal with
        | Some r => and_then (refuse stream r) (ok None) a
        | None => ok None a
        end
  | CEnd stream =>
      if bool_decide (stream ∈ upload_streams a) then
        deliver_and_continue (IFile (FReqEnd stream)) (with_uploads a (upload_streams a ∖ {[stream]}))
      else
        let '(data, a) := take_clipboard stream false a in
        match data with
        | None => ok None a
        | Some d => deliver_and_continue (IClipboard d) a
        end
  | CGet object name =>
      if negb (open_rate_take env (effects a)) then ok None (next_effect a)
      else deliver_and_continue (IFile (FGet object name)) (next_effect a)
  | CPut object stream mimetype name =>
      let '(refusal, a) :=
        if stream_in_use a stream then (Some (mk_refusal STATUS_BAD_REQUEST "stream already in use"), a)
        else if (MAX_UPLOAD_STREAMS <=? size (upload_streams a))%nat then
          (Some (mk_refusal STATUS_TOO_MANY "too many uploads in progress"), a)
        else if negb (open_rate_take env (effects a)) then
          (Some (mk_refusal STATUS_TOO_MANY "opening transfers too fast"), next_effect a)
        else (None, next_effect a) in
      match refusal with
      | Some r => and_then (refuse stream r) (ok None) a
      | None =>
          deliver_and_continue (IFile (FPut object stream mimetype name))
            (with_uploads a ({[stream]} ∪ upload_streams a))
      end
  | CAck stream _ status => deliver_and_continue (IFile (FReqAck stream status)) a
  | CSync _ | CNop | CUnhandled _ => ok None a
  end.

(** [on_guest_input]. *)
Definition on_guest_input (i : ClientInstruction) : act unit := fun a =>
  match i with
  | CMouse x y mask => deliver (IMouse x y mask) a
  | CKey keysym pressed => deliver (IKey keysym pressed) a
  | CSize width height dpi => deliver (IResize width height dpi) a
  | CClipboard stream mimetype =>
      if is_text mimetype then ok tt (snd (open_clipboard stream true a)) else ok tt a
  | CBlob stream data => ok tt (snd (append_clipboard stream data true a))
  | CEnd stream =>
      let '(data, a) := take_clipboard stream true a in
      match data with
      | None => ok tt a
      | Some d => deliver (IClipboard d) a
      end
  | _ => ok tt a
  end.

(** *** Winding down *)

(** [describe_engine_failure]. *)
Definition describe_engine_failure (e : EngineError) : bytes * DisconnectCause :=
  match e with
  | Transport true =>
      (str "The remote computer stopped responding, so the connection was dropped.", ConnectionLost)
  | Transport false => (str "The network connection to the remote computer was lost.", ConnectionLost)
  | ClosedByTarget _ => (str "The remote computer closed the connection unexpectedly.", ConnectionLost)
  | AuthRejected => (str "The remote computer rejected the credentials.", Unauthorized)
  | ProtocolViolation _ | Unsupported _ =>
      (str "The session ended because of an unexpected response from the remote computer.", Failed)
  end.

(** [notify_end]: best effort. *)
Definition notify_end (reason : bytes) (cause : DisconnectCause) (a : Actor E) : Actor E :=
  snd (on_target_event (Disconnected reason cause) a).

(** [let _ = self.to_client.try_send(frame)] for each frame. *)
Fixpoint try_send_all (frames : list ClientFrame) (a : Actor E) : Actor E :=
  match frames with
  | [] => a
  | f :: r =>
      try_send_all r (next_effect
        (if queue_full env (effects a) || queue_closed env (effects a) then a else add_sent a f))
  end.

Definition recording_failed : TargetEvent :=
  Disconnected (str "The session recording failed, so the session was closed.") Failed.

Definition end_after_failure (e : SessionError) (a : Actor E) : Actor E :=
  match e with
  | EAudit _ =>
      let '(frames, enc) := encode_frames (encoder a) recording_failed in
      try_send_all frames (with_encoder a enc)
  | _ => a
  end.

Definition end_after_input_failure (e : EngineError) (a : Actor E) : Actor E :=
  match closing_event env (effects a) with
  | Some (Disconnected reason cause) => snd (on_target_event (Disconnected reason cause) (next_effect a))
  | _ => let '(reason, cause) := describe_engine_failure e in notify_end reason cause (next_effect a)
  end.

(** *** The select loop *)

Inductive happening : Type :=
| Command (c : option SessionCommand)
| SyncTick
| EngineEvent (r : result EngineError (option TargetEvent)).

Inductive end_reason : Type :=
| AskedTo (reason : string) | ClientGone | TargetDisconnected | TargetClosed
| FailedWith (e : SessionError) | EngineFailed (e : EngineError).

(** One branch of [select!]: [Some reason] breaks the loop. *)
Definition on_happening (h : happening) (a : Actor E) : option end_reason * Actor E :=
  let failed e a :=
    match e with
    | EEngine err => (Some (EngineFailed err), end_after_input_failure err a)
    | e => (Some (FailedWith e), end_after_failure e a)
    end in
  match h with
  | Command (Some (ClientInput i)) =>
      match on_client_input i a with
      | (Ok (Some reason), a) => (Some (AskedTo reason), a)
      | (Ok None, a) => (None, a)
      | (Err e, a) => failed e a
      end
  | Command (Some (GuestInput i)) =>
      match on_guest_input i a with
      | (Ok _, a) => (None, a)
      | (Err e, a) => failed e a
      end
  | Command (Some AttachObserver) => (None, a)
  | Command (Some (Terminate reason)) => (Some (AskedTo reason), a)
  | Command None => (Some ClientGone, a)
  | SyncTick =>
      match emit_sync a with
      | (Err e, a) => (Some (FailedWith e), end_after_failure e a)
      | (Ok _, a) =>
          match audit_failure env (effects a) with
          | None => (None, next_effect a)
          | Some why => (Some (FailedWith (EAudit why)), end_after_failure (EAudit why) (next_effect a))
          end
      end
  | EngineEvent (Ok (Some ev)) =>
      match on_target_event ev a with
      | (Err e, a) => (Some (FailedWith e), end_after_failure e a)
      | (Ok _, a) =>
          match ev with Disconnected _ _ => (Some TargetDisconnected, a) | _ => (None, a) end
      end
  | EngineEvent (Ok None) => (Some TargetClosed, notify_end (str "The remote session has ended.") Ended a)
  | EngineEvent (Err e) =>
      let '(reason, cause) := describe_engine_failure e in
      (Some (EngineFailed e), notify_end reason cause a)
  end.

(** The loop until it breaks or the happenings run out. *)
Fixpoint run_loop (hs : list happening) (a : Actor E) : option end_reason * Actor E :=
  match hs with
  | [] => (None, a)
  | h :: r =>
      match on_happening h a with
      | (Some reason, a) => (Some reason, a)
      | (None, a) => run_loop r a
      end
  end.
End actor.

(** ** Teardown

    Each step's outcome is what it returned, or [None] when it exceeded
    [TEARDOWN_STEP]. *)

Inductive teardown_step : Type := ShutdownEngine | FinalizeAudit | RevokeCredential.

Definition bounded {A} (outcome : option A) (timed_out : A) : A := default timed_out outcome.

(** [teardown]: the result and the steps that ran. *)
Definition teardown (engine : option (result EngineError unit)) (audit : option (result SessionError unit))
    (credential : option (option (result SessionError unit))) : result SessionError unit * list teardown_step :=
  let engine := bounded engine (Err (Transport true)) in
  let audit := bounded audit (Err (EAudit (str "recording finalise timed out"))) in
  let '(credential, revoked) :=
    match credential with
    | Some outcome => (bounded outcome (Err (EPipelineClosed "credential revoke timed out")), [RevokeCredential])
    | None => (Ok tt, [])
    end in
  (match credential with Err e => Err e | Ok _ => audit end, [ShutdownEngine; FinalizeAudit] ++ revoked).
