(* ===== verification/ActorProps.v ===== *)
(** * Properties of the session actor

    Resource bounds, guest isolation, the recording and backpressure of the
    actor modelled in [Actor], for every behaviour of its environment. *)

From S2P Require Import Prelude Machine Text Crates Guacamole Instruction Engine GuacWire Actor.

Local Open Scope Z_scope.

Section actor_properties.
Context `{Base64} {E : Type} `{FrameEncoder E} (env : Env).
Implicit Types a : Actor E.

(** ** What each step leaves alone *)

(** The streams a client holds and the shared counter. *)
Definition streams a : gmap Z PendingClipboard * gmap Z PendingClipboard * gset Z * Z :=
  (clipboard_streams a, guest_clipboard_streams a, upload_streams a, process_bytes a).

Lemma audit_record_spec r a :
  (exists why, audit_record env r a = (Err (EAudit why), next_effect a)) \/
  audit_record env r a = (Ok tt, next_effect (add_recorded a r)).
Proof. unfold audit_record. destruct (audit_failure env (effects a)); eauto. Qed.

(** The frame an [emit] numbers. *)
Definition numbered a (f : ClientFrame) : SessionFrame := mk_frame (seq a) (now_ms env (effects a)) f.

(** Everything [emit] can do: it may fail before anyone sees the frame (the
    record was refused), fail after it (the operator is gone), drop it for
    the operator, or send it. *)
Inductive emitted a (f : ClientFrame) (droppable output : bool) : result SessionError unit -> Actor E -> Prop :=
| emit_unrecorded why a' :
    recorded a' = recorded a -> observed a' = observed a -> sent a' = sent a ->
    (output && exclude_output (recording a))%bool = false ->
    emitted a f droppable output (Err (EAudit why)) a'
| emit_gone a' :
    recorded a' = recorded a ++ (if (output && exclude_output (recording a))%bool then [] else [numbered a f]) ->
    observed a' = observed a ++ [numbered a f] -> sent a' = sent a -> droppable = false ->
    emitted a f droppable output (Err (EPipelineClosed "client writer")) a'
| emit_dropped a' :
    recorded a' = recorded a ++ (if (output && exclude_output (recording a))%bool then [] else [numbered a f]) ->
    observed a' = observed a ++ [numbered a f] -> sent a' = sent a -> droppable = true ->
    emitted a f droppable output (Ok tt) a'
| emit_sent a' :
    recorded a' = recorded a ++ (if (output && exclude_output (recording a))%bool then [] else [numbered a f]) ->
    observed a' = observed a ++ [numbered a f] -> sent a' = sent a ++ [f] ->
    emitted a f droppable output (Ok tt) a'.

Lemma emit_spec f d o a :
  let '(r, a') := emit env f d o a in
  emitted a f d o r a' /\ streams a' = streams a /\ recording a' = recording a /\
  encoder a' = encoder a /\ to_engine a' = to_engine a.
Proof.
  unfold emit, and_then. fold (numbered a f).
  change (recording (with_seq a (wrap_u 64 (seq a + 1)))) with (recording a).
  destruct (o && exclude_output (recording a)) eqn:Eo; cbn [negb].
  - cbn [ok]. destruct d.
    + destruct (_ || _); (split; [|done]); [apply emit_dropped|apply emit_sent]; cbn; rewrite ?Eo, ?app_nil_r; done.
    + destruct (queue_closed env _); (split; [|done]); [apply emit_gone|apply emit_sent]; cbn; rewrite ?Eo, ?app_nil_r; done.
  - unfold audit_record. destruct (audit_failure env _) as [why|].
    { split; [|done]. apply emit_unrecorded; try done. }
    destruct d.
    + destruct (_ || _); (split; [|done]); [apply emit_dropped|apply emit_sent]; cbn; rewrite ?Eo; done.
    + destruct (queue_closed env _); (split; [|done]); [apply emit_gone|apply emit_sent]; cbn; rewrite ?Eo; done.
Qed.

Lemma emit_all_streams fs d o a :
  let '(r, a') := emit_all env fs d o a in
  streams a' = streams a /\ recording a' = recording a /\ encoder a' = encoder a /\ to_engine a' = to_engine a.
Proof.
  revert a. induction fs as [|f fs IH]; intros a; [done|]. cbn [emit_all]. unfold and_then.
  pose proof (emit_spec f d o a) as Hs. destruct (emit env f d o a) as [[[]|e] a1]; [|by destruct Hs as [_ ?]].
  specialize (IH a1). destruct (emit_all env fs d o a1) as [r a2].
  destruct Hs as (_ & ? & ? & ? & ?), IH as (? & ? & ? & ?). split_and!; congruence.
Qed.

Lemma emit_sync_streams a :
  let '(r, a') := emit_sync env a in
  streams a' = streams a /\ recording a' = recording a /\ to_engine a' = to_engine a.
Proof.
  unfold emit_sync. destruct (sync _ _ _) as [fs e].
  pose proof (emit_all_streams fs false false (next_effect (with_encoder a e))) as Hs.
  destruct (emit_all env fs _ _ _) as [r a']. destruct Hs as (S1 & S2 & _ & S3). split_and!; [exact S1|exact S2|exact S3].
Qed.

(** The only stream a target event touches is an upload it refuses. *)
Definition uploads_after (ev : TargetEvent) (u : gset Z) : gset Z :=
  match ev with
  | File (FAck stream _ status) => if negb (status =? 0) then u ∖ {[stream]} else u
  | _ => u
  end.

Lemma on_target_event_streams ev a :
  let '(r, a') := on_target_event env ev a in
  streams a' = (clipboard_streams a, guest_clipboard_streams a, uploads_after ev (upload_streams a), process_bytes a) /\
  recording a' = recording a /\ to_engine a' = to_engine a.
Proof.
  unfold on_target_event. set (a0 := match ev with File _ => _ | _ => _ end).
  assert (streams a0 = (clipboard_streams a, guest_clipboard_streams a, uploads_after ev (upload_streams a), process_bytes a)
    /\ recording a0 = recording a /\ to_engine a0 = to_engine a) as (H1 & H2 & H3).
  { unfold a0. destruct ev as [| | | | | | | | |fe|]; try done. destruct fe; try done. cbn. by destruct (negb _). }
  destruct (encode_frames (encoder a0) ev) as [fs e]. unfold and_then.
  pose proof (emit_all_streams fs (is_droppable ev) (is_graphical_output ev) (with_encoder a0 e)) as Hs.
  destruct (emit_all env fs _ _ _) as [[[]|err] a1]; destruct Hs as (S1 & S2 & _ & S3).
  - pose proof (emit_sync_streams a1) as Hy. destruct (emit_sync env a1) as [r a2]. destruct Hy as (Y1 & Y2 & Y3).
    split_and!; [by rewrite Y1, S1|by rewrite Y2, S2|by rewrite Y3, S3].
  - split_and!; [by rewrite S1|by rewrite S2|by rewrite S3].
Qed.

Lemma deliver_streams input a :
  let '(r, a') := deliver env input a in
  streams a' = streams a /\ recording a' = recording a /\ encoder a' = encoder a /\
  observed a' = observed a /\ sent a' = sent a /\
  (to_engine a' = to_engine a \/ to_engine a' = to_engine a ++ [input]).
Proof.
  unfold deliver. destruct (denied env input a); [by auto 10|].
  unfold and_then. set (m := match input with IKey _ _ => _ | _ => _ end).
  assert (let '(r, a1) := m a in streams a1 = streams a /\ recording a1 = recording a /\ encoder a1 = encoder a /\
    observed a1 = observed a /\ sent a1 = sent a /\ to_engine a1 = to_engine a) as Hm.
  { unfold m. destruct input; try done. destruct (include_keys _); [|done]. unfold record_key.
    destruct (audit_record_spec (mk_frame (seq a) (now_ms env (effects a))
      (TextFrame (encode_instruction [] (str "key") [int_to_string keysym; str (if pressed then "1" else "0")])))
      (with_seq a (wrap_u 64 (seq a + 1)))) as [[why ->]| ->]; done. }
  destruct (m a) as [[[]|e] a1]; destruct Hm as (H1 & H2 & H3 & H4 & H5 & H6); [|by auto 10].
  unfold handle_input. destruct (engine_failure env (effects a1)); cbn -[streams];
    (split_and!; [done|done|done|done|done|right; by rewrite H6]).
Qed.
(** ** Properties closed under the primitive steps

    A property of the actor that every primitive step keeps is kept by every
    handler and by the whole loop, whatever the environment answers. *)

Record closed (P : Actor E -> Prop) : Prop := {
  cl_effect a : P a -> P (next_effect a);
  cl_encoder a e : P a -> P (with_encoder a e);
  cl_emit f d o a : P a -> P (snd (emit env f d o a));
  cl_record_key k b a : P a -> P (snd (record_key env k b a));
  cl_input i a : P a -> P (add_input a i);
  cl_open s g a : P a -> P (snd (open_clipboard env s g a));
  cl_append s d g a : P a -> P (snd (append_clipboard env s d g a));
  cl_take s g a : P a -> P (snd (take_clipboard s g a));
  cl_remove_upload s a : P a -> P (with_uploads a (upload_streams a ∖ {[s]}));
  cl_add_upload s a :
    P a -> stream_in_use a s = false -> (size (upload_streams a) < MAX_UPLOAD_STREAMS)%nat ->
    P (with_uploads a ({[s]} ∪ upload_streams a))
}.

Section closed_lemmas.
Context {P : Actor E -> Prop} (HP : closed P).

Lemma closed_then {A B} (m : act A) (k : act B) a :
  (forall a, P a -> P (snd (m a))) -> (forall a, P a -> P (snd (k a))) -> P a -> P (snd (and_then (E:=E) m k a)).
Proof. intros Hm Hk Ha. unfold and_then. specialize (Hm a Ha). destruct (m a) as [[]]; [by apply Hk|done]. Qed.

Lemma closed_emit_all fs d o a : P a -> P (snd (emit_all env fs d o a)).
Proof.
  revert a. induction fs as [|f fs IH]; intros a Ha; [done|]. cbn [emit_all].
  apply closed_then; [intros; by apply (cl_emit P HP)|done|done].
Qed.

Lemma closed_emit_sync a : P a -> P (snd (emit_sync env a)).
Proof.
  intros Ha. unfold emit_sync. destruct (sync _ _ _) as [fs e].
  by apply closed_emit_all, (cl_effect P HP), (cl_encoder P HP).
Qed.

Lemma closed_target_event ev a : P a -> P (snd (on_target_event env ev a)).
Proof.
  intros Ha. unfold on_target_event. set (a0 := match ev with File _ => _ | _ => _ end).
  assert (P a0) as Ha0.
  { unfold a0. destruct ev as [| | | | | | | | |fe|]; try done. destruct fe; try done. destruct (negb _); [|done].
    by apply (cl_remove_upload P HP). }
  destruct (encode_frames (encoder a0) ev) as [fs e].
  apply closed_then; [intros; by apply closed_emit_all|intros; by apply closed_emit_sync|].
  by apply (cl_encoder P HP).
Qed.

Lemma closed_handle_input i a : P a -> P (snd (handle_input env i a)).
Proof.
  intros Ha. unfold handle_input. destruct (engine_failure env _); by apply (cl_effect P HP), (cl_input P HP).
Qed.

Lemma closed_deliver i a : P a -> P (snd (deliver env i a)).
Proof.
  intros Ha. unfold deliver. destruct (denied env _ a); [done|].
  apply closed_then; [|intros; by apply closed_handle_input|done].
  intros a1 Ha1. destruct i; try done. destruct (include_keys (recording a)); [by apply (cl_record_key P HP)|done].
Qed.

Lemma closed_deliver_continue i a : P a -> P (snd (deliver_and_continue env i a)).
Proof. apply closed_then; [intros; by apply closed_deliver|done]. Qed.

Lemma closed_refuse stream r a :
  P a -> P (snd (and_then (refuse env stream r) (ok (None : option string)) a)).
Proof.
  apply closed_then; [|done]. intros a1 Ha1. unfold refuse. destruct (stream_in_use a1 stream); [done|].
  by apply closed_target_event.
Qed.

Lemma closed_client_input i a : P a -> P (snd (on_client_input env i a)).
Proof.
  intros Ha. destruct i; cbn [on_client_input]; try done; try by apply closed_deliver_continue.
  - destruct (is_text mimetype); [|by apply closed_refuse].
    pose proof (cl_open P HP stream false a Ha) as Ho. destruct (open_clipboard env stream false a) as [[r|] a1]; [|done].
    by apply closed_refuse.
  - destruct (bool_decide _); [destruct (b64_decode _ _); [by apply closed_deliver_continue|done]|].
    pose proof (cl_append P HP stream data false a Ha) as Ho.
    destruct (append_clipboard env stream data false a) as [[r|] a1]; [|done]. by apply closed_refuse.
  - destruct (bool_decide _); [by apply closed_deliver_continue, (cl_remove_upload P HP)|].
    pose proof (cl_take P HP stream false a Ha) as Ho. destruct (take_clipboard stream false a) as [[d|] a1]; [|done].
    by apply closed_deliver_continue.
  - destruct (negb _); [by apply (cl_effect P HP)|]. by apply closed_deliver_continue, (cl_effect P HP).
  - destruct (stream_in_use a stream) eqn:Eu; [by apply closed_refuse|].
    destruct (_ <=? _)%nat eqn:Es; [by apply closed_refuse|]. b2p. pose proof (cl_effect P HP a Ha) as Hn.
    destruct (negb _); [by apply closed_refuse|]. apply closed_deliver_continue. by apply (cl_add_upload P HP).
Qed.

Lemma closed_guest_input i a : P a -> P (snd (on_guest_input env i a)).
Proof.
  intros Ha. destruct i; cbn [on_guest_input]; try done; try by apply closed_deliver.
  - destruct (is_text mimetype); [by apply (cl_open P HP)|done].
  - by apply (cl_append P HP).
  - pose proof (cl_take P HP stream true a Ha) as Ho. destruct (take_clipboard stream true a) as [[d|] a1]; [|done].
    by apply closed_deliver.
Qed.

Lemma closed_input_failure e a : P a -> P (end_after_input_failure env e a).
Proof.
  intros Ha. unfold end_after_input_failure, notify_end. destruct (describe_engine_failure e).
  destruct (closing_event env _) as [[]|]; by apply closed_target_event, (cl_effect P HP).
Qed.

(** The one step that is not covered: the notice sent past the recording
    after the recording failed. *)
Definition recording_broke (r : option end_reason) : bool :=
  match r with Some (FailedWith (EAudit _)) => true | _ => false end.

Lemma closed_happening h a :
  P a -> (forall why b, P b -> P (end_after_failure env (EAudit why) b)) \/
         recording_broke (fst (on_happening env h a)) = false ->
  P (snd (on_happening env h a)).
Proof.
  intros Ha Hend. destruct h as [[[i|i| |reason]|]| |[[ev|]|e]]; cbn [on_happening] in *; try done.
  - pose proof (closed_client_input i a Ha) as Ho. destruct (on_client_input env i a) as [[[r|]|[]] a1]; try done;
      [by apply closed_input_failure|]. destruct Hend as [Hend|?]; [by apply Hend|done].
  - pose proof (closed_guest_input i a Ha) as Ho. destruct (on_guest_input env i a) as [[[]|[]] a1]; try done;
      [by apply closed_input_failure|]. destruct Hend as [Hend|?]; [by apply Hend|done].
  - pose proof (closed_emit_sync a Ha) as Ho. destruct (emit_sync env a) as [[[]|e] a1]; cbn [snd] in Ho.
    + destruct (audit_failure env _); [|by apply (cl_effect P HP)].
      destruct Hend as [Hend|?]; [by apply Hend, (cl_effect P HP)|done].
    + destruct e; try done. destruct Hend as [Hend|?]; [by apply Hend|done].
  - pose proof (closed_target_event ev a Ha) as Ho. destruct (on_target_event env ev a) as [[[]|e] a1]; cbn [snd] in Ho.
    + by destruct ev.
    + destruct e; try done. destruct Hend as [Hend|?]; [by apply Hend|done].
  - by apply closed_target_event.
  - destruct (describe_engine_failure e). by apply closed_target_event.
Qed.

Lemma closed_run hs a :
  P a -> (forall why b, P b -> P (end_after_failure env (EAudit why) b)) \/
         recording_broke (fst (run_loop env hs a)) = false ->
  P (snd (run_loop env hs a)).
Proof.
  revert a. induction hs as [|h hs IH]; intros a Ha Hend; [done|]. cbn [run_loop] in *.
  pose proof (closed_happening h a Ha) as Ho. destruct (on_happening env h a) as [[r|] a1]; cbn [fst snd] in *; auto.
Qed.
End closed_lemmas.

(** ** Pending clipboard bytes *)

Lemma pending_insert m s p :
  m !! s = None -> pending_bytes (<[s := p]> m) = (length (p_data p) + pending_bytes m)%nat.
Proof. intros Hs. unfold pending_bytes. rewrite map_fold_insert_L; [done| |done]. intros. lia. Qed.

Lemma pending_delete m s p :
  m !! s = Some p -> pending_bytes m = (length (p_data p) + pending_bytes (delete s m))%nat.
Proof.
  intros Hs. rewrite <- (insert_delete_id m s p) at 1 by done. apply pending_insert, lookup_delete_eq.
Qed.

Lemma pending_update m s p p' :
  m !! s = Some p ->
  (pending_bytes (<[s := p']> m) + length (p_data p) = pending_bytes m + length (p_data p'))%nat.
Proof.
  intros Hs. rewrite (pending_delete m s p) by done. rewrite <- (insert_delete_eq m).
  rewrite pending_insert by apply lookup_delete_eq. lia.
Qed.

Lemma pending_subseteq m1 m2 : m1 ⊆ m2 -> (pending_bytes m1 <= pending_bytes m2)%nat.
Proof.
  revert m2. induction m1 as [|i x m1 Hi IH] using map_ind; intros m2 Hsub; [apply Nat.le_0_l|].
  assert (m2 !! i = Some x) as Hx by (eapply lookup_weaken; [apply lookup_insert_eq|done]).
  rewrite pending_insert, (pending_delete m2 i x) by done. apply Nat.add_le_mono_l, IH.
  apply map_subseteq_spec. intros j y Hj. assert (j <> i) by congruence.
  rewrite lookup_delete_ne by done. eapply lookup_weaken; [|done]. by rewrite lookup_insert_ne.
Qed.

(** ** Resource bounds *)

(** What a client can hold at any one time. *)
Record streams_ok (c g : gmap Z PendingClipboard) (u : gset Z) : Prop := {
  ok_clip : (size c <= MAX_CLIPBOARD_STREAMS)%nat;
  ok_guest : (size g <= MAX_GUEST_CLIPBOARD_STREAMS)%nat;
  ok_uploads : (size u <= MAX_UPLOAD_STREAMS)%nat;
  ok_disjoint : forall s, is_Some (c !! s) -> s ∉ u;
  ok_each s p : c !! s = Some p \/ g !! s = Some p -> Z.of_nat (length (p_data p)) <= MAX_CLIPBOARD_BYTES;
  ok_total : Z.of_nat (pending_bytes c + pending_bytes g) <= MAX_CLIPBOARD_SESSION_BYTES
}.

Definition actor_ok a : Prop := streams_ok (clipboard_streams a) (guest_clipboard_streams a) (upload_streams a).

Lemma streams_eq a a' :
  streams a' = streams a -> actor_ok a -> actor_ok a'.
Proof. unfold streams, actor_ok. intros [= -> -> -> _]. done. Qed.

(** Fewer streams are fine. *)
Lemma streams_ok_sub c g u c' g' u' :
  streams_ok c g u -> c' ⊆ c -> g' ⊆ g -> u' ⊆ u -> streams_ok c' g' u'.
Proof.
  intros [Hc Hg Hu Hd He Ht] Sc Sg Su.
  pose proof (map_subseteq_size _ _ Sc). pose proof (map_subseteq_size _ _ Sg).
  pose proof (subseteq_size _ _ Su). pose proof (pending_subseteq _ _ Sc). pose proof (pending_subseteq _ _ Sg).
  split; try lia.
  - intros s [p Hp] Hin. apply (Hd s); [exists p; by eapply lookup_weaken|by apply Su].
  - intros s p [Hp|Hp]; apply (He s p); [left|right]; by eapply lookup_weaken.
Qed.

Lemma drop_streams_ok guest a m :
  actor_ok a -> m ⊆ streams_of guest a -> actor_ok (drop_streams guest a m).
Proof. intros Ha Hm. destruct guest; eapply streams_ok_sub; try exact Ha; done. Qed.

Lemma open_clipboard_ok stream guest a : actor_ok a -> actor_ok (snd (open_clipboard env stream guest a)).
Proof.
  intros Ha. unfold open_clipboard. destruct (negb guest && stream_in_use a stream) eqn:Euse; [done|].
  set (m := filter _ _). set (a1 := next_effect (drop_streams guest a m)).
  assert (actor_ok a1) as Ha1 by (apply (drop_streams_ok guest a m Ha), map_filter_subseteq).
  assert (streams_of guest a1 = m) as Hm by (by destruct guest).
  destruct (bool_decide _) eqn:Eb; [done|]. b2p. destruct (_ <=? _)%nat eqn:El; [done|]. b2p.
  destruct (negb (open_rate_take env (effects a1))); [done|]. cbn [snd].
  rewrite Hm in *. rewrite <- eq_None_not_Some in Eb. destruct Ha1 as [Hc Hg Hu Hd He Ht]. destruct guest.
  - change (streams_of true (next_effect a1)) with (streams_of true a1). rewrite Hm.
    change (guest_clipboard_streams a1) with m in *. split; cbn; try done.
    + rewrite map_size_insert_None by done. lia.
    + intros s p [Hp|Hp]; [by apply (He s p); left|].
      destruct (decide (s = stream)) as [->|Hne].
      * rewrite lookup_insert_eq in Hp. injection Hp as <-. cbn. unfold MAX_CLIPBOARD_BYTES. lia.
      * rewrite lookup_insert_ne in Hp by done. apply (He s p). by right.
    + rewrite pending_insert by done. done.
  - change (streams_of false (next_effect a1)) with (streams_of false a1). rewrite Hm.
    change (clipboard_streams a1) with m in *. cbn [negb andb] in Euse. unfold stream_in_use in Euse. b2p.
    split; cbn; try done.
    + rewrite map_size_insert_None by done. lia.
    + intros s Hs. destruct (decide (s = stream)) as [->|Hne]; [done|]. rewrite lookup_insert_ne in Hs by done. auto.
    + intros s p [Hp|Hp]; [|by apply (He s p); right].
      destruct (decide (s = stream)) as [->|Hne].
      * rewrite lookup_insert_eq in Hp. injection Hp as <-. cbn. unfold MAX_CLIPBOARD_BYTES. lia.
      * rewrite lookup_insert_ne in Hp by done. apply (He s p). by left.
    + rewrite pending_insert by done. done.
Qed.

Lemma append_clipboard_ok stream data guest a :
  actor_ok a -> actor_ok (snd (append_clipboard env stream data guest a)).
Proof.
  intros Ha. unfold append_clipboard. destruct (streams_of guest a !! stream) as [p|] eqn:Ep; [|done].
  set (inc := decoded_len_estimate (length data)).
  assert (actor_ok (drop_streams guest a (delete stream (streams_of guest a)))) as Hdel
    by (apply drop_streams_ok; [done|apply delete_subseteq]).
  destruct (_ || _) eqn:Eb; [done|]. b2p. destruct (_ <? _) eqn:Epb; [done|].
  destruct (b64_decode STANDARD data) as [d|] eqn:Ed; [|done]. cbn [snd].
  pose proof (decoded_len_estimate_spec data d Ed) as Hinc. fold inc in Hinc.
  set (p' := mk_pending _ _).
  assert (length (p_data p') = length (p_data p) + length d)%nat as Hp' by (unfold p'; cbn; apply length_app).
  pose proof (pending_update _ _ p p' Ep) as Hup. destruct Ha as [Hc Hg Hu Hd He Ht].
  destruct guest; cbn [streams_of] in *; split; cbn; try done.
  - by rewrite map_size_insert_Some.
  - intros s q [Hq|Hq]; [by apply (He s q); left|]. destruct (decide (s = stream)) as [->|Hne].
    + rewrite lookup_insert_eq in Hq. injection Hq as <-. lia.
    + rewrite lookup_insert_ne in Hq by done. apply (He s q). by right.
  - lia.
  - by rewrite map_size_insert_Some.
  - intros s Hs. apply Hd. destruct (decide (s = stream)) as [->|Hne]; [by eexists|].
    by rewrite lookup_insert_ne in Hs.
  - intros s q [Hq|Hq]; [|by apply (He s q); right]. destruct (decide (s = stream)) as [->|Hne].
    + rewrite lookup_insert_eq in Hq. injection Hq as <-. lia.
    + rewrite lookup_insert_ne in Hq by done. apply (He s q). by left.
  - lia.
Qed.

Lemma take_clipboard_ok stream guest a : actor_ok a -> actor_ok (snd (take_clipboard stream guest a)).
Proof.
  intros Ha. unfold take_clipboard. destruct (streams_of guest a !! stream) as [p|]; [|done]. cbn [snd].
  destruct guest; eapply streams_ok_sub; try exact Ha; try done; apply delete_subseteq.
Qed.

Lemma add_upload_ok stream a :
  actor_ok a -> stream_in_use a stream = false -> (size (upload_streams a) < MAX_UPLOAD_STREAMS)%nat ->
  actor_ok (with_uploads a ({[stream]} ∪ upload_streams a)).
Proof.
  intros [Hc Hg Hu Hd He Ht] Huse Hsz. unfold stream_in_use in Huse. b2p. split; cbn; try done.
  - rewrite size_union, size_singleton by set_solver. lia.
  - intros s Hs Hin. apply elem_of_union in Hin as [Hin|Hin]; [|by eapply Hd].
    apply elem_of_singleton in Hin as ->. done.
Qed.

Lemma remove_upload_ok stream a : actor_ok a -> actor_ok (with_uploads a (upload_streams a ∖ {[stream]})).
Proof.
  intros Ha. apply (streams_ok_sub _ _ (upload_streams a) _ _ (upload_streams a ∖ {[stream]}) Ha); [done..|].
  by apply subseteq_difference_l.
Qed.

Lemma record_key_streams k b a : streams (snd (record_key env k b a)) = streams a.
Proof. unfold record_key, audit_record. by destruct (audit_failure env _). Qed.

Lemma emit_streams f d o a : streams (snd (emit env f d o a)) = streams a.
Proof. pose proof (emit_spec f d o a) as Hs. destruct (emit env f d o a). by destruct Hs as (_ & ? & _). Qed.

Lemma actor_ok_closed : closed actor_ok.
Proof.
  split; try done.
  - intros f d o a. apply streams_eq, emit_streams.
  - intros k b a. apply streams_eq, record_key_streams.
  - apply open_clipboard_ok.
  - apply append_clipboard_ok.
  - apply take_clipboard_ok.
  - apply remove_upload_ok.
  - apply add_upload_ok.
Qed.

Lemma try_send_all_streams fs a : streams (try_send_all env fs a) = streams a.
Proof. revert a. induction fs as [|f fs IH]; intros a; [done|]. cbn. rewrite IH. by destruct (_ || _). Qed.

Lemma end_after_failure_streams e a : streams (end_after_failure env e a) = streams a.
Proof. destruct e; try done. cbn. destruct (encode_frames _ _) as [fs enc]. by rewrite try_send_all_streams. Qed.

Lemma spawn_ok enc policy bytes0 : actor_ok (spawn enc policy bytes0).
Proof.
  split; cbn.
  1, 2, 3: apply Nat.le_0_l.
  - by intros s [? ?].
  - by intros s p [Hp|Hp].
  - done.
Qed.

(** C12: whatever the client, a shared-control guest and the target do, and
    however the sinks, queues and clocks answer, at every moment of a
    session the client holds at most four clipboard streams and sixteen
    uploads, the guest one clipboard stream; no index is both a clipboard
    and an upload; each clipboard holds at most 8 MiB and all of them
    together at most 16 MiB. *)
Theorem session_bounded enc policy bytes0 hs :
  actor_ok (snd (run_loop env hs (spawn enc policy bytes0))).
Proof.
  apply (closed_run actor_ok_closed); [apply spawn_ok|]. left. intros why b.
  apply streams_eq, end_after_failure_streams.
Qed.

(** ** Guests *)

(** What a shared-control guest may make the target see: pointer, keys,
    resizes and the contents of one of its own clipboard streams. *)
Definition guest_may a (i : InputEvent) : Prop :=
  match i with
  | IMouse _ _ _ | IKey _ _ | IResize _ _ _ => True
  | IClipboard d => exists s p, guest_clipboard_streams a !! s = Some p /\ d = p_data p
  | IText _ | IFile _ | IDisconnect => False
  end.

Lemma guest_deliver i a0 a :
  guest_may a0 i ->
  let '(r, a') := deliver env i a in
  clipboard_streams a' = clipboard_streams a /\ upload_streams a' = upload_streams a /\ encoder a' = encoder a /\
  sent a' = sent a /\ observed a' = observed a /\
  exists l, to_engine a' = to_engine a ++ l /\ (length l <= 1)%nat /\ Forall (guest_may a0) l.
Proof.
  intros Hi. pose proof (deliver_streams i a) as Hs. destruct (deliver env i a) as [r a'].
  destruct Hs as (Hs & _ & He & Ho & Hse & Hin). unfold streams in Hs. injection Hs as Hc _ Hu _.
  split_and!; [done..|]. destruct Hin as [->| ->].
  - exists []. rewrite app_nil_r. split_and!; [done|simpl; lia|done].
  - exists [i]. split_and!; [done|simpl; lia|by apply Forall_singleton].
Qed.

(** Steps on the guest's own clipboard streams. *)
Definition guest_quiet a a' : Prop :=
  clipboard_streams a' = clipboard_streams a /\ upload_streams a' = upload_streams a /\ encoder a' = encoder a /\
  sent a' = sent a /\ observed a' = observed a /\ to_engine a' = to_engine a.

Lemma open_guest s a : guest_quiet a (snd (open_clipboard env s true a)).
Proof. unfold open_clipboard. cbn [negb andb]. repeat (case_match; cbn [snd]); done. Qed.

Lemma append_guest s d a : guest_quiet a (snd (append_clipboard env s d true a)).
Proof. unfold append_clipboard. repeat (case_match; cbn [snd]); done. Qed.

(** C26: a shared-control guest is confined: whatever it sends, the
    operator's clipboard streams, uploads, screen, observers and encoder are
    untouched, the session does not end by its wish, and the target receives
    at most one input, which is pointer, key or resize input or the contents
    of the guest's own clipboard; never file transfer, an acknowledgement or
    a disconnect. *)
Theorem guest_confined i a :
  let '(r, a') := on_guest_input env i a in
  clipboard_streams a' = clipboard_streams a /\ upload_streams a' = upload_streams a /\ encoder a' = encoder a /\
  sent a' = sent a /\ observed a' = observed a /\
  exists l, to_engine a' = to_engine a ++ l /\ (length l <= 1)%nat /\ Forall (guest_may a) l.
Proof.
  assert (forall a', clipboard_streams a' = clipboard_streams a -> upload_streams a' = upload_streams a ->
    encoder a' = encoder a -> sent a' = sent a -> observed a' = observed a -> to_engine a' = to_engine a ->
    clipboard_streams a' = clipboard_streams a /\ upload_streams a' = upload_streams a /\ encoder a' = encoder a /\
    sent a' = sent a /\ observed a' = observed a /\
    exists l, to_engine a' = to_engine a ++ l /\ (length l <= 1)%nat /\ Forall (guest_may a) l) as Hquiet.
  { intros a' ? ? ? ? ? Ht. split_and!; [done..|]. exists []. rewrite app_nil_r. split_and!; [done|simpl; lia|done]. }
  destruct i; cbn [on_guest_input ok]; try (by apply Hquiet); try (by apply guest_deliver).
  - destruct (is_text mimetype); [|by apply Hquiet]. destruct (open_guest stream a) as (?&?&?&?&?&?). by apply Hquiet.
  - destruct (append_guest stream data a) as (?&?&?&?&?&?). by apply Hquiet.
  - unfold take_clipboard. destruct (streams_of true a !! stream) as [p|] eqn:Ep; [|by apply Hquiet].
    pose proof (guest_deliver (IClipboard (p_data p)) a
      (with_clipboard true a (delete stream (streams_of true a)))) as Hd. apply Hd. by exists stream, p.
Qed.

(** ** The recording *)

(** Everything the operator was sent went to the observers, and everything
    the observers saw is in the recording, unless output is excluded from
    it. *)
Definition tapped a : Prop :=
  sent a `sublist_of` (f_frame <$> observed a) /\
  (exclude_output (recording a) = false -> observed a `sublist_of` recorded a).

Lemma emit_tapped f d o a : tapped a -> tapped (snd (emit env f d o a)).
Proof.
  intros [Hs Hr]. pose proof (emit_spec f d o a) as He. destruct (emit env f d o a) as [r a'].
  destruct He as (He & _ & Hp & _). cbn [snd].
  assert (observed a' = observed a ++ [numbered a f] ->
    recorded a' = recorded a ++ (if (o && exclude_output (recording a))%bool then [] else [numbered a f]) ->
    exclude_output (recording a') = false -> observed a' `sublist_of` recorded a') as Hrec.
  { intros -> -> Hx. rewrite Hp in Hx. rewrite Hx, andb_false_r. apply sublist_app; [by apply Hr|done]. }
  destruct He as [why a' H1 H2 H3|a' H1 H2 H3|a' H1 H2 H3|a' H1 H2 H3]; split; try (by apply Hrec).
  - by rewrite H3, H2.
  - rewrite H2, H1, Hp. done.
  - rewrite H3, H2, fmap_app. by apply sublist_inserts_r.
  - rewrite H3, H2, fmap_app. by apply sublist_inserts_r.
  - rewrite H3, H2, fmap_app. by apply sublist_app.
Qed.

Lemma record_key_tapped k b a : tapped a -> tapped (snd (record_key env k b a)).
Proof.
  intros [Hs Hr]. unfold record_key, audit_record. destruct (audit_failure env _); [by split|]. cbn [snd].
  split; [done|]. intros Hx. cbn. apply sublist_inserts_r, Hr, Hx.
Qed.

Lemma same_tap a a' :
  recording a' = recording a -> sent a' = sent a -> observed a' = observed a -> recorded a' = recorded a ->
  tapped a -> tapped a'.
Proof. unfold tapped. by intros -> -> -> ->. Qed.

Lemma tapped_closed : closed tapped.
Proof.
  split; try (intros; by eapply same_tap).
  - apply emit_tapped.
  - apply record_key_tapped.
  - intros s g a. apply same_tap; unfold open_clipboard; destruct g; repeat (case_match; cbn [snd]); done.
  - intros s d g a. apply same_tap; unfold append_clipboard; destruct g; repeat (case_match; cbn [snd]); done.
  - intros s g a. apply same_tap; unfold take_clipboard; destruct g; repeat (case_match; cbn [snd]); done.
Qed.

(** C4: the recording is complete by construction: at every point of a
    session, and after any end other than a failed recording, every frame
    queued to the operator was seen by the observers, in order, and every
    frame the observers saw is in the recording, in order, unless the policy
    excludes output.  A frame that cannot be recorded is never sent. *)
Theorem nothing_unrecorded enc policy bytes0 hs :
  recording_broke (fst (run_loop env hs (spawn enc policy bytes0))) = false ->
  tapped (snd (run_loop env hs (spawn enc policy bytes0))).
Proof.
  intros Hb. apply (closed_run tapped_closed); [|by right]. by split.
Qed.

(** ** The process-wide clipboard budget *)

(** The part of [CLIPBOARD_PROCESS_BYTES] that no open stream of this session
    accounts for. *)
Definition leaked a : Z :=
  process_bytes a - Z.of_nat (pending_bytes (clipboard_streams a) + pending_bytes (guest_clipboard_streams a)).

Lemma leaked_streams a a' : streams a' = streams a -> leaked a' = leaked a.
Proof. unfold streams, leaked. by intros [= -> -> _ ->]. Qed.

Lemma drop_streams_leaked guest a m : m ⊆ streams_of guest a -> leaked (drop_streams guest a m) = leaked a.
Proof.
  intros Hm. apply pending_subseteq in Hm. unfold leaked, drop_streams. destruct guest; cbn in *; lia.
Qed.

Lemma open_clipboard_leaked s g a : leaked (snd (open_clipboard env s g a)) = leaked a.
Proof.
  unfold open_clipboard. destruct (negb g && _); [done|]. set (m := filter _ _).
  set (a1 := next_effect (drop_streams g a m)).
  assert (leaked a1 = leaked a) as H1 by (apply (drop_streams_leaked g a m), map_filter_subseteq).
  destruct (bool_decide _) eqn:Eb; [done|]. b2p. rewrite <- eq_None_not_Some in Eb.
  destruct (_ <=? _)%nat; [done|]. destruct (negb _); [done|]. rewrite <- H1. unfold leaked. clear H1. clearbody a1.
  destruct g; cbn in *; rewrite pending_insert by done; cbn; lia.
Qed.

Lemma append_clipboard_leaked s d g a : leaked (snd (append_clipboard env s d g a)) = leaked a.
Proof.
  unfold append_clipboard. destruct (streams_of g a !! s) as [p|] eqn:Ep; [|done].
  assert (leaked (drop_streams g a (delete s (streams_of g a))) = leaked a) as Hd
    by (apply drop_streams_leaked, delete_subseteq).
  destruct (_ || _); [done|]. destruct (_ <? _); [done|]. destruct (b64_decode STANDARD d) as [bs|]; [|done].
  cbn [snd]. pose proof (pending_update _ _ p (mk_pending (p_data p ++ bs) (instant env (effects a))) Ep) as Hu.
  cbn [p_data] in Hu. rewrite length_app in Hu. unfold leaked. destruct g; cbn in *; lia.
Qed.

Lemma take_clipboard_leaked s g a d a' :
  take_clipboard s g a = (Some d, a') -> leaked a' = leaked a + Z.of_nat (length d).
Proof.
  unfold take_clipboard. destruct (streams_of g a !! s) as [p|] eqn:Ep; [|done]. intros [= <- <-].
  pose proof (pending_delete _ _ p Ep). unfold leaked. destruct g; cbn in *; lia.
Qed.

Lemma leaked_closed l : closed (fun a => l <= leaked a).
Proof.
  split; try done.
  - intros f d o a Ha. rewrite (leaked_streams a _ (emit_streams f d o a)). done.
  - intros k b a Ha. rewrite (leaked_streams a _ (record_key_streams k b a)). done.
  - intros s g a. by rewrite open_clipboard_leaked.
  - intros s d g a. by rewrite append_clipboard_leaked.
  - intros s g a Ha. destruct (take_clipboard s g a) as [[d|] a'] eqn:Et.
    + apply take_clipboard_leaked in Et. cbn. lia.
    + unfold take_clipboard in Et. destruct (streams_of g a !! s); [done|]. by injection Et as <-.
Qed.

(** A completed paste is never given back to the process-wide clipboard
    budget: finishing a stream raises the unaccounted part of the counter by
    the length of the pasted data, no later event of any kind lowers it, and
    once that part and a blob's size exceed the 256 MiB budget, no clipboard
    blob of that size is accepted again, however long the session lives and
    however few streams are open (in a process that serves this session). *)
Lemma clipboard_budget_leaks s g a d a' hs stream guest data :
  take_clipboard s g a = (Some d, a') ->
  MAX_CLIPBOARD_PROCESS_BYTES <
    leaked a + Z.of_nat (length d) + Z.of_nat (decoded_len_estimate (length data)) ->
  leaked a' = leaked a + Z.of_nat (length d) /\
  let b := snd (run_loop env hs a') in
  leaked a' <= leaked b /\
  (is_Some (streams_of guest b !! stream) ->
   exists r, fst (append_clipboard env stream data guest b) = Some r).
Proof.
  intros Ht Hmax. pose proof (take_clipboard_leaked _ _ _ _ _ Ht) as Hl. split; [done|]. intros b.
  assert (leaked a' <= leaked b) as Hb.
  { apply (closed_run (leaked_closed (leaked a'))); [done|]. left. intros why c Hc.
    rewrite (leaked_streams c _ (end_after_failure_streams (EAudit why) c)). done. }
  split; [done|]. intros [p Hp]. unfold append_clipboard. rewrite Hp.
  destruct (_ || _); [by eexists|].
  assert (MAX_CLIPBOARD_PROCESS_BYTES < process_bytes b + Z.of_nat (decoded_len_estimate (length data)))
    by (unfold leaked in *; lia).
  take_true (MAX_CLIPBOARD_PROCESS_BYTES <? process_bytes b + Z.of_nat (decoded_len_estimate (length data))).
  by eexists.
Qed.

(** ** Keystrokes *)

(** The recorded form of a keystroke. *)
Definition key_frame (keysym : Z) (pressed : bool) : ClientFrame :=
  TextFrame (encode_instruction [] (str "key") [int_to_string keysym; str (if pressed then "1" else "0")]).

Lemma key_frame_reads `{Winnow} keysym pressed :
  is_u32 keysym ->
  exists i n, try_parse_instruction (frame_payload (key_frame keysym pressed)) = Ok (Some (i, n)) /\
    from_wire i = Ok (CKey keysym pressed).
Proof.
  intros Hk. set (i := mk_instruction (str "key") [int_to_string keysym; str (if pressed then "1" else "0")]).
  assert (wf_instruction i) as Hi.
  { split_and!; [apply str_wf; [by vm_compute|by vm_compute; lia]| |cbn; unfold MAX_INSTRUCTION_ELEMENTS; lia].
    repeat apply Forall_cons_2; try apply Forall_nil_2; [apply int_to_string_wf, i64_dec_bound; tauto|].
    destruct pressed; apply str_wf; by vm_compute; lia. }
  exists i, (length (wire (str "key") (args i))). split.
  - change (frame_payload (key_frame keysym pressed)) with (instruction_encode i []).
    rewrite instruction_encode_wire by done. rewrite <- (app_nil_r ([] ++ _)). by apply wire_parse_Ok.
  - unfold from_wire, i. cbn [opcode]. repeat (case_decide as Hd; [try discriminate Hd|]); try done.
    rewrite (arg_int_ok parse_u32 _ 0 keysym (int_to_string keysym)); [|done|].
    + destruct pressed; reflexivity.
    + apply parse_int_to_string; [done|apply i64_dec_bound; tauto].
Qed.

(** C25: when keystrokes are recorded, the recording fails closed: a key
    blocked by dual control changes nothing; a key the audit sink refuses ends
    the session and never reaches the target; any other key reaches the
    target after its [key] instruction was recorded, and the client parser
    reads that instruction back as the same key. *)
Theorem keys_recorded_first `{Winnow} keysym pressed a :
  is_u32 keysym -> include_keys (recording a) = true ->
  let '(r, a') := deliver env (IKey keysym pressed) a in
  if denied env (IKey keysym pressed) a then r = Ok tt /\ a' = a
  else match audit_failure env (effects a) with
  | Some why => r = Err (EAudit why) /\ to_engine a' = to_engine a /\ recorded a' = recorded a
  | None =>
      to_engine a' = to_engine a ++ [IKey keysym pressed] /\
      recorded a' = recorded a ++ [mk_frame (seq a) (now_ms env (effects a)) (key_frame keysym pressed)] /\
      exists i n, try_parse_instruction (frame_payload (key_frame keysym pressed)) = Ok (Some (i, n)) /\
        from_wire i = Ok (CKey keysym pressed)
  end.
Proof.
  intros Hk Hinc. unfold deliver. destruct (denied env _ a); [done|].
  rewrite Hinc. unfold and_then, record_key. fold (key_frame keysym pressed).
  unfold audit_record. cbn [effects with_seq]. destruct (audit_failure env (effects a)); [done|]. unfold handle_input.
  destruct (engine_failure env _); (split_and!; [done..|by apply key_frame_reads]).
Qed.

(** ** Backpressure *)

Lemma emit_all_essential fs o a :
  (forall n, audit_failure env n = None) -> (forall n, queue_closed env n = false) ->
  exists a', emit_all env fs false o a = (Ok tt, a') /\ sent a' = sent a ++ fs /\ encoder a' = encoder a.
Proof.
  intros Hau Hq. revert a. induction fs as [|f fs IH]; intros a; [exists a; by rewrite app_nil_r|].
  cbn [emit_all]. unfold and_then. unfold emit, and_then.
  set (first_step := if negb _ then audit_record env _ else ok tt).
  assert (exists a1, first_step (with_seq a (wrap_u 64 (seq a + 1))) = (Ok tt, a1) /\ sent a1 = sent a /\ encoder a1 = encoder a)
    as (a1 & -> & Hs & He).
  { unfold first_step. destruct (negb _); [|by eexists]. unfold audit_record. rewrite Hau. by eexists. }
  rewrite Hq. destruct (IH (next_effect (add_sent (add_observed a1 (mk_frame (seq a) (now_ms env (effects a)) f)) f)))
    as (a' & -> & Hs' & He'). exists a'. split; [done|]. rewrite Hs', He'. cbn. rewrite Hs, He.
  by rewrite <- (assoc_L (++)).
Qed.

(** The frames of an event followed by the frame boundary stamped [t]. *)
Definition whole_update a (ev : TargetEvent) (t : Z) : list ClientFrame :=
  let '(fs, e) := encode_frames (encoder a) ev in fs ++ fst (sync e t []).

(** Only non-key video slices may be sacrificed: for every other event,
    as long as the recording works and the operator is connected, all of its
    frames and the frame boundary that follows reach the operator's queue,
    in order, however full the queue gets. *)
Lemma essential_frames_sent ev a :
  is_droppable ev = false ->
  (forall n, audit_failure env n = None) -> (forall n, queue_closed env n = false) ->
  exists a' t, on_target_event env ev a = (Ok tt, a') /\ sent a' = sent a ++ whole_update a ev t.
Proof.
  intros Hd Hau Hq. unfold on_target_event. rewrite Hd. set (a0 := match ev with File _ => _ | _ => _ end).
  assert (encoder a0 = encoder a /\ sent a0 = sent a) as [He Hs].
  { unfold a0. destruct ev as [| | | | | | | | |fe|]; try done. destruct fe; try done. by destruct (negb _). }
  rewrite He. destruct (encode_frames (encoder a) ev) as [fs e] eqn:Eenc. unfold and_then.
  destruct (emit_all_essential fs (is_graphical_output ev) (with_encoder a0 e) Hau Hq) as (a1 & -> & Hs1 & He1).
  unfold emit_sync. rewrite He1. cbn [encoder with_encoder].
  destruct (sync e (Z.min (now_ms env (effects a1)) i64_max) []) as [fs' e'] eqn:Esync.
  destruct (emit_all_essential fs' false (next_effect (with_encoder a1 e')) Hau Hq) as (a2 & -> & Hs2 & _).
  exists a2, (Z.min (now_ms env (effects a1)) i64_max). split; [done|].
  unfold whole_update. rewrite Eenc, Esync. cbn [fst]. rewrite Hs2. cbn [sent next_effect with_encoder]. rewrite Hs1. cbn [sent with_encoder]. rewrite Hs.
  by rewrite <- (assoc_L (++)).
Qed.

(** Refusing an upload frees its index: after an error [ack] for a
    stream, whoever sent it, the stream is no longer an upload, and no other
    upload is affected. *)
Lemma refused_upload_freed stream message status a :
  status <> 0 ->
  upload_streams (snd (on_target_event env (File (FAck stream message status)) a)) =
    upload_streams a ∖ {[stream]}.
Proof.
  intros Hst. pose proof (on_target_event_streams (File (FAck stream message status)) a) as Hs.
  destruct (on_target_event env _ a) as [r a']. destruct Hs as (Hs & _). unfold streams in Hs.
  injection Hs as _ _ Hu _. cbn [snd]. rewrite Hu. cbn. by take_false (status =? 0).
Qed.
End actor_properties.

(** Everything teardown has to do. *)
Definition all_steps (has_credential : bool) : list teardown_step :=
  [ShutdownEngine; FinalizeAudit] ++ (if has_credential then [RevokeCredential] else []).

(** Teardown always runs every step (engine shutdown, finalising the
    recording and, when there is a credential, revoking it) whatever the
    others return or however long they hang; it succeeds only if the
    recording was finalised and the credential revoked, and a failure to
    revoke outranks a failure to finalise. *)
Lemma teardown_complete engine audit credential :
  let '(r, steps) := teardown engine audit credential in
  steps = all_steps (bool_decide (is_Some credential)) /\
  (r = Ok tt <-> audit = Some (Ok tt) /\ (credential = None \/ credential = Some (Some (Ok tt)))) /\
  (forall e, credential = Some (Some (Err e)) -> r = Err e).
Proof.
  unfold teardown, bounded. destruct credential as [[[[]|ce]|]|]; destruct audit as [[[]|ae]|]; cbn;
    (split_and!; [done| |intros ? E; congruence]);
    (split; [try done; intros _; tauto|intros [? [?|?]]; congruence]).
Qed.

(** ** Examples *)

Module ActorExamples.
Import Reference.

(** A world in which nothing fails and the [n]-th effect happens at time
    [n]; [full] says when the operator's queue is full. *)
Definition world (full : nat -> bool) : Env :=
  mk_env Z.of_nat Z.of_nat (fun _ => None) (fun _ => None) full (fun _ => false) (fun _ => true)
    (fun _ => None) None.

Definition fresh : Actor GuacWireEncoder := spawn encoder_new (mk_policy false true) 0.

Definition script : list happening :=
  [ Command (Some (ClientInput (CKey 65 true))); EngineEvent (Ok (Some (Resized 800 600))); SyncTick;
    Command (Some (ClientInput (CClipboard 3 (str "text/plain")))); EngineEvent (Ok None) ].

Lemma nothing_unrecorded_witness :
  tapped (snd (run_loop (world (fun _ => false)) script (spawn encoder_new (mk_policy false true) 0))).
Proof. apply (nothing_unrecorded (world (fun _ => false))). vm_compute. reflexivity. Defined.

(** A paste of three bytes with almost all of the budget spent. *)
Definition pasting : Actor GuacWireEncoder :=
  with_process_bytes (with_clipboard false fresh {[ 3 := mk_pending (str "abc") 0 ]}) MAX_CLIPBOARD_PROCESS_BYTES.
Definition pasted : Actor GuacWireEncoder := with_clipboard false pasting ∅.

Lemma clipboard_budget_leaks_witness :
  let b := snd (run_loop (world (fun _ => false)) [Command (Some (ClientInput (CClipboard 3 (str "text/plain"))))] pasted) in
  leaked pasted = leaked pasting + 3 /\
  (is_Some (streams_of false b !! 3) ->
   exists r, fst (append_clipboard (world (fun _ => false)) 3 (str "YWJj") false b) = Some r).
Proof.
  destruct (clipboard_budget_leaks (world (fun _ => false)) 3 false pasting (str "abc") pasted
    [Command (Some (ClientInput (CClipboard 3 (str "text/plain"))))] 3 false (str "YWJj")) as (Hl & _ & Hr).
  - vm_compute. reflexivity.
  - vm_compute. reflexivity.
  - exact (conj Hl Hr).
Defined.

(** The stream is open after all, so the blob really is refused. *)
Example paste_refused :
  fst (append_clipboard (world (fun _ => false)) 3 (str "YWJj") false
    (snd (run_loop (world (fun _ => false)) [Command (Some (ClientInput (CClipboard 3 (str "text/plain"))))] pasted))) =
  Some (mk_refusal STATUS_TOO_MANY "the server is busy; try again").
Proof. vm_compute. reflexivity. Qed.

Lemma keys_recorded_first_witness :
  let '(r, a') := deliver (world (fun _ => false)) (IKey 65 true) fresh in
  to_engine a' = [IKey 65 true] /\ recorded a' = [mk_frame 0 0 (key_frame 65 true)].
Proof.
  pose proof (keys_recorded_first (world (fun _ => false)) 65 true fresh) as Hk.
  destruct (deliver _ _ fresh) as [r a'] eqn:Ed. cbn in Hk.
  destruct Hk as (H1 & H2 & _); [unfold is_u32, in_range, u32_max; lia|done|]. exact (conj H1 H2).
Defined.

Lemma essential_frames_sent_witness :
  exists a' t, on_target_event (world (fun _ => true)) (Resized 800 600) fresh = (Ok tt, a') /\
    sent a' = sent fresh ++ whole_update fresh (Resized 800 600) t.
Proof. apply (essential_frames_sent (world (fun _ => true)) (Resized 800 600) fresh); reflexivity. Defined.

Lemma refused_upload_freed_witness :
  upload_streams (snd (on_target_event (world (fun _ => false)) (File (FAck 4 (str "denied") 519))
    (with_uploads fresh {[4; 5]}))) = upload_streams (with_uploads fresh {[4; 5]}) ∖ {[4]}.
Proof. apply (refused_upload_freed (world (fun _ => false)) 4 (str "denied") 519 (with_uploads fresh {[4; 5]})). lia. Defined.

(** The stream instructions among the frames queued to the operator. *)
Definition sent_text (fs : list ClientFrame) : bytes := concat (frame_payload <$> fs).

(** A dropped frame does not take the rest of its slice with it: with the
    queue full at the first frame of a non-key slice only, the operator is
    sent a [blob] and an [end] for a stream that was never opened, which the
    display rejects. *)
Example partial_drop_breaks_stream :
  let a := snd (on_target_event (world (fun n => (n =? 1)%nat))
    (VideoSlice H264 false 0 0 640 480 7 (str "slice")) fresh) in
  dropped_frames a = 1 /\
  sent_text (sent a) =
    server_to_bytes (SBlob 1 (b64_encode STANDARD (str "slice"))) ++ server_to_bytes (SEnd 1) ++
    server_to_bytes (SSync 6) /\
  receive_all (mk_receiver ∅ []) [SBlob 1 (b64_encode STANDARD (str "slice")); SEnd 1] = None.
Proof. vm_compute. split_and!; reflexivity. Qed.
End ActorExamples.
