(* ===== verification/AuditChain.v ===== *)
(** * The audit chain and its verifier's walk

    [backend/src/services/audit_verify.rs], first half, with the SQL functions
    it calls ([migrations/098_audit_chain_v2.sql]): the rows of [audit_logs],
    the canonical encoding and digest of a row, [audit_append], the batched
    walk [verify], checkpoints and their MAC.

    A text column is its UTF-8 bytes; [created_at], [user_id] and [details]
    are kept as the texts that enter the digest ([to_char], [::text]), so the
    theorems hold up to that rendering.  The table is the list of its rows in
    the order of the primary key.  [verify] runs outside a transaction: its
    [k]-th query reads the table as it is at that moment, [tables k]. *)

From Stdlib Require Import Sorted.
From S2P Require Import Prelude Machine Text Crates.

Local Open Scope Z_scope.

(** ** Rows *)

Record audit_row := mk_row {
  row_id : Z;
  created_at : bytes;
  user_id : option bytes;
  action_type : bytes;
  details : bytes;
  previous_hash : bytes;
  current_hash : bytes;
  hash_version : Z
}.

#[export] Instance audit_row_eq_dec : EqDecision audit_row.
Proof. solve_decision. Defined.

Abbreviation table := (list audit_row).

(** [octet_length(x) || ':' || x]. *)
Definition audit_field (x : bytes) : bytes := int_to_string (Z.of_nat (length x)) ++ [58] ++ x.

(** The fields of a row in the order of [audit_canonical_v2]. *)
Definition row_fields (id : Z) (at_ : bytes) (user : option bytes) (action details previous : bytes) : list bytes :=
  [int_to_string id; at_; default [] user; action; details; previous].

Definition audit_canonical_v2 (id : Z) (at_ : bytes) (user : option bytes) (action details previous : bytes) : bytes :=
  str "strata-audit-v2" ++ concat (audit_field <$> row_fields id at_ user action details previous).

Section digest.
Context `{Sha256} `{Hex}.

Definition audit_hash_v2 (id : Z) (at_ : bytes) (user : option bytes) (action details previous : bytes) : bytes :=
  hex_encode (sha256 (audit_canonical_v2 id at_ user action details previous)).

Definition row_hash (r : audit_row) : bytes :=
  audit_hash_v2 (row_id r) (created_at r) (user_id r) (action_type r) (details r) (previous_hash r).

(** [audit_append]: under the advisory lock, the row is hashed over the
    newest row's digest; [seq] is the sequence value and [at_] the clock. *)
Definition audit_append (seq : Z) (at_ : bytes) (user : option bytes) (action details : bytes) (t : table) : table :=
  let previous := from_option current_hash [] (last t) in
  t ++ [mk_row seq at_ user action details previous (audit_hash_v2 seq at_ user action details previous) 2].

(** ** The walk *)

Definition BATCH : nat := 1000.
Definition MAX_BREAKS : nat := 20.

Record Head := mk_head { head_id : Z; head_hash : bytes }.

Inductive Break :=
| LinkBreak (id : Z)
| DigestBreak (id : Z)
| LegacyBreak (id : Z).

Record Report := mk_report {
  r_head : option Head;
  r_rows : Z;
  r_breaks : list Break;
  r_legacy_link_breaks : Z
}.

(** [Report::push]. *)
Definition report_push (b : Break) (r : Report) : Report :=
  if (length (r_breaks r) <? MAX_BREAKS)%nat
  then mk_report (r_head r) (r_rows r) (r_breaks r ++ [b]) (r_legacy_link_breaks r) else r.

(** [SELECT min(id) FROM audit_logs WHERE hash_version = 2]. *)
Definition first_v2 (t : table) : option Z :=
  row_id <$> head (filter (fun r => hash_version r = 2) t).

(** [SELECT ... WHERE id > $1 ORDER BY id LIMIT $2]. *)
Definition select_after (after : Z) (t : table) : table := take BATCH (filter (fun r => after < row_id r) t).

(** [CASE WHEN hash_version = 2 THEN current_hash = audit_hash_v2(...) END]. *)
Definition digest_ok (r : audit_row) : option bool :=
  if hash_version r =? 2 then Some (bool_decide (current_hash r = row_hash r)) else None.

(** [first_v2.is_none_or(|v2| id < v2)]. *)
Definition is_legacy (v2 : option Z) (id : Z) : bool :=
  match v2 with None => true | Some b => id <? b end.

Definition check_link (v2 : option Z) (expected_previous : bytes) (r : audit_row) (rep : Report) : Report :=
  if bool_decide (previous_hash r = expected_previous) then rep
  else if is_legacy v2 (row_id r)
  then mk_report (r_head rep) (r_rows rep) (r_breaks rep) (r_legacy_link_breaks rep + 1)
  else report_push (LinkBreak (row_id r)) rep.

Definition check_digest (v2 : option Z) (r : audit_row) (rep : Report) : Report :=
  match hash_version r, digest_ok r with
  | 2, Some true => rep
  | 1, _ => if is_legacy v2 (row_id r) then rep else report_push (LegacyBreak (row_id r)) rep
  | _, _ => report_push (DigestBreak (row_id r)) rep
  end.

(** The body of the loop over a batch; the state is [expected_previous] and
    the report. *)
Definition verify_row (v2 : option Z) (st : bytes * Report) (r : audit_row) : bytes * Report :=
  let rep := check_digest v2 r (check_link v2 (fst st) r (snd st)) in
  (current_hash r,
   mk_report (Some (mk_head (row_id r) (current_hash r))) (r_rows rep + 1) (r_breaks rep) (r_legacy_link_breaks rep)).

Definition verify_rows (v2 : option Z) (st : bytes * Report) (rows : table) : bytes * Report :=
  fold_left (verify_row v2) rows st.

(** The outer loop; [None] when the fuel runs out, otherwise the number of
    the query that came back empty and the report. *)
Fixpoint verify_loop (fuel : nat) (tables : nat -> table) (k : nat) (v2 : option Z) (after : Z)
    (st : bytes * Report) : option (nat * Report) :=
  match fuel with
  | O => None
  | S f =>
      let rows := select_after after (tables k) in
      match last rows with
      | None => Some (k, snd st)
      | Some r => verify_loop f tables (S k) v2 (row_id r) (verify_rows v2 st rows)
      end
  end.

Definition verify_init (from : option Head) : bytes * Report :=
  (from_option head_hash [] from, mk_report from 0 [] 0).

Definition verify_after (from : option Head) : Z := from_option head_id 0 from.

Definition verify (fuel : nat) (tables : nat -> table) (from : option Head) (v2 : option Z) : option (nat * Report) :=
  verify_loop fuel tables 0 v2 (verify_after from) (verify_init from).
End digest.

(** ** Sorted tables *)

Definition sorted (t : table) : Prop := StronglySorted (fun r s => row_id r < row_id s) t.

Lemma sorted_app t u :
  sorted (t ++ u) <-> sorted t /\ sorted u /\ (forall r s, r ∈ t -> s ∈ u -> row_id r < row_id s).
Proof.
  unfold sorted. induction t as [|r t IH]; cbn [app].
  - split; [intros Hs; split_and!; [constructor|done|by intros ?? ?%not_elem_of_nil]|]. tauto.
  - split.
    + inversion_clear 1 as [|? ? Hs Hf]. apply IH in Hs as (Ht & Hu & Hlt). apply Forall_app in Hf as [Hf1 Hf2].
      split_and!; [by constructor|done|]. intros x y Hx Hy. apply elem_of_cons in Hx as [->|Hx]; [|by apply Hlt].
      rewrite Forall_forall in Hf2. by apply Hf2.
    + intros (Ht & Hu & Hlt). inversion_clear Ht as [|? ? Hs Hf]. constructor.
      * apply IH. split_and!; [done..|]. intros x y Hx Hy. apply Hlt; [by right|done].
      * apply Forall_app. split; [done|]. apply Forall_forall. intros y Hy. apply Hlt; [left|done].
Qed.

Lemma sorted_filter (P : audit_row -> Prop) `{forall r, Decision (P r)} t : sorted t -> sorted (filter P t).
Proof.
  unfold sorted. induction 1 as [|r t Hs IH Hf]; [constructor|]. rewrite filter_cons. case_decide; [|done].
  constructor; [done|]. apply Forall_forall. intros s [_ Hin]%list_elem_of_filter. rewrite Forall_forall in Hf. by apply Hf.
Qed.

Lemma sorted_prefix t u : sorted u -> t `prefix_of` u -> sorted t.
Proof. intros Hs [k ->]. by apply sorted_app in Hs as (? & _). Qed.

(** A filter by a range of ids is a contiguous stretch. *)
Lemma filter_split (P Q R : audit_row -> Prop) `{forall r, Decision (P r)} `{forall r, Decision (Q r)}
    `{forall r, Decision (R r)} t :
  sorted t ->
  (forall r, P r <-> Q r \/ R r) -> (forall r s, Q s -> R r -> row_id r < row_id s -> False) ->
  (forall r, Q r -> R r -> False) ->
  filter P t = filter Q t ++ filter R t.
Proof.
  intros Hs HP Hord Hdis. induction Hs as [|r t Hs IH Hf]; [done|].
  rewrite !filter_cons. destruct (decide (Q r)) as [HQ|HQ].
  - rewrite decide_True by (apply HP; by left). rewrite (decide_False (P:=R r)) by eauto. by rewrite IH.
  - destruct (decide (R r)) as [HR|HR].
    + rewrite decide_True by (apply HP; by right).
      assert (filter Q t = []) as EQ; [|by rewrite IH, EQ].
      apply filter_none. intros s Hin Hq. rewrite Forall_forall in Hf. eapply Hord; eauto.
    + rewrite decide_False by (rewrite HP; tauto). done.
Qed.

Lemma last_cut t p r :
  sorted t -> p `prefix_of` t -> last p = Some r -> t = p ++ filter (fun s => row_id r < row_id s) t.
Proof.
  intros Hs [k ->] Hl. apply last_Some in Hl as [p' ->]. f_equal. rewrite filter_app.
  apply sorted_app in Hs as (Hp & Hk & Hlt). apply sorted_app in Hp as (_ & _ & Hp).
  assert (filter (fun s => row_id r < row_id s) (p' ++ [r]) = []) as ->.
  { apply filter_none. intros s Hin. apply elem_of_app in Hin as [Hin|Hin].
    - specialize (Hp s r Hin ltac:(by left)). lia.
    - apply list_elem_of_singleton in Hin as ->. lia. }
  symmetry. apply filter_all. intros s Hin. apply (Hlt r s); [|done]. apply elem_of_app. right. by left.
Qed.

(** ** What the walk accepts *)

Section walk.
Context `{Sha256} `{Hex}.

(** A row in its place: after the first v2 row it must follow the row before
    it and carry a valid digest. *)
Definition row_ok (v2 : option Z) (expected : bytes) (r : audit_row) : Prop :=
  (is_legacy v2 (row_id r) = true \/ previous_hash r = expected) /\
  (hash_version r = 2 /\ current_hash r = row_hash r \/ hash_version r = 1 /\ is_legacy v2 (row_id r) = true).

Fixpoint chain_ok (v2 : option Z) (expected : bytes) (rows : table) : Prop :=
  match rows with
  | [] => True
  | r :: rs => row_ok v2 expected r /\ chain_ok v2 (current_hash r) rs
  end.

Definition chain_end (expected : bytes) (rows : table) : bytes := from_option current_hash expected (last rows).

Lemma chain_end_cons e r rows : chain_end e (r :: rows) = chain_end (current_hash r) rows.
Proof. unfold chain_end. destruct rows as [|s rows]; [done|]. rewrite last_cons_cons. by destruct (last_is_Some (s :: rows)) as [_ [? ->]]. Qed.

Lemma chain_ok_app v2 e l1 l2 : chain_ok v2 e (l1 ++ l2) <-> chain_ok v2 e l1 /\ chain_ok v2 (chain_end e l1) l2.
Proof.
  revert e. induction l1 as [|r l1 IH]; intros e; cbn [app chain_ok]; [tauto|].
  rewrite IH, chain_end_cons. tauto.
Qed.

Lemma report_push_nonempty b r : r_breaks (report_push b r) <> [].
Proof.
  unfold report_push, MAX_BREAKS. case_test; cbn [r_breaks]; [by destruct (r_breaks r)|].
  b2p. by destruct (r_breaks r); simpl in *; try lia.
Qed.

Lemma report_push_fst b r : r_head (report_push b r) = r_head r /\ r_rows (report_push b r) = r_rows r.
Proof. unfold report_push. by case_test. Qed.

(** One row adds no break exactly when it is in its place. *)
Lemma verify_row_breaks v2 st r :
  r_breaks (snd (verify_row v2 st r)) = [] <-> r_breaks (snd st) = [] /\ row_ok v2 (fst st) r.
Proof.
  unfold verify_row. cbn [snd r_breaks].
  assert (r_breaks (check_link v2 (fst st) r (snd st)) = [] <->
    r_breaks (snd st) = [] /\ (is_legacy v2 (row_id r) = true \/ previous_hash r = fst st)) as Hlink.
  { unfold check_link. case_bool_decide; [tauto|]. destruct (is_legacy v2 (row_id r)); cbn [r_breaks]; [tauto|].
    split; [by intros ?%report_push_nonempty|]. intros [_ [?|?]]; done. }
  revert Hlink. generalize (check_link v2 (fst st) r (snd st)) as rep. intros rep Hlink.
  assert (r_breaks (check_digest v2 r rep) = [] <-> r_breaks rep = [] /\
    (hash_version r = 2 /\ current_hash r = row_hash r \/ hash_version r = 1 /\ is_legacy v2 (row_id r) = true)) as ->;
    [|unfold row_ok; tauto].
  unfold check_digest, digest_ok. destruct (decide (hash_version r = 2)) as [E2|E2].
  { rewrite E2. cbn [Z.eqb Pos.eqb]. case_bool_decide; [tauto|].
    split; [by intros ?%report_push_nonempty|]. intros [_ [[_ ?]|[? _]]]; done. }
  destruct (decide (hash_version r = 1)) as [E1|E1].
  { rewrite E1. cbn [Z.eqb]. destruct (is_legacy v2 (row_id r)); [tauto|].
    split; [by intros ?%report_push_nonempty|]. intros [_ [[? _]|[_ ?]]]; done. }
  take_false (hash_version r =? 2).
  assert (forall A (x y z : A), match hash_version r with 2 => x | 1 => y | _ => z end = z) as Hm.
  { intros. repeat case_match; done. }
  transitivity (r_breaks (report_push (DigestBreak (row_id r)) rep) = []).
  { f_equiv. repeat case_match; done. }
  split; [by intros ?%report_push_nonempty|]. intros [_ [[? _]|[? _]]]; done.
Qed.

Lemma verify_rows_app v2 st l1 l2 : verify_rows v2 st (l1 ++ l2) = verify_rows v2 (verify_rows v2 st l1) l2.
Proof. apply fold_left_app. Qed.

Lemma verify_rows_spec v2 st rows :
  (r_breaks (snd (verify_rows v2 st rows)) = [] <-> r_breaks (snd st) = [] /\ chain_ok v2 (fst st) rows) /\
  fst (verify_rows v2 st rows) = chain_end (fst st) rows /\
  r_rows (snd (verify_rows v2 st rows)) = r_rows (snd st) + Z.of_nat (length rows) /\
  r_head (snd (verify_rows v2 st rows)) =
    from_option (fun r => Some (mk_head (row_id r) (current_hash r))) (r_head (snd st)) (last rows).
Proof.
  revert st. induction rows as [|r rows IH]; intros st.
  { cbn. split_and!; [tauto|done|lia|done]. }
  change (verify_rows v2 st (r :: rows)) with (verify_rows v2 (verify_row v2 st r) rows).
  destruct (IH (verify_row v2 st r)) as (Hb & He & Hn & Hh). rewrite Hb, He, Hn, Hh, verify_row_breaks, chain_end_cons.
  cbn [chain_ok]. split_and!; [tauto|done| |].
  - assert (forall rep, r_rows (check_digest v2 r rep) = r_rows rep) as Hd.
    { intros rep. unfold check_digest. repeat case_match; try done; apply report_push_fst. }
    assert (r_rows (check_link v2 (fst st) r (snd st)) = r_rows (snd st)) as Hl.
    { unfold check_link. repeat case_match; try done; apply report_push_fst. }
    unfold verify_row. cbn [snd r_rows]. rewrite Hd, Hl. cbn [length]. lia.
  - destruct rows as [|s rows]; [done|]. rewrite last_cons_cons. by destruct (last_is_Some (s :: rows)) as [_ [? ->]].
Qed.

(** ** Batches *)

(** The table only grows while the walk runs. *)
Definition grows (tables : nat -> table) : Prop :=
  (forall k, sorted (tables k)) /\ (forall k, tables k `prefix_of` tables (S k)).

Lemma grows_le tables j k : grows tables -> (j <= k)%nat -> tables j `prefix_of` tables k.
Proof. intros [_ Hg]. induction 1 as [|k Hle IH]; [done|]. by etrans. Qed.

Lemma filter_prefix (P : audit_row -> Prop) `{forall r, Decision (P r)} t u :
  t `prefix_of` u -> filter P t `prefix_of` filter P u.
Proof. intros [k ->]. rewrite filter_app. by eexists. Qed.

Lemma select_after_nil after t : select_after after t = [] -> filter (fun r => after < row_id r) t = [].
Proof. unfold select_after, BATCH. by destruct (filter _ t). Qed.

Lemma select_cut after t u r :
  sorted u -> t `prefix_of` u -> last (select_after after t) = Some r ->
  filter (fun s => after < row_id s) u = select_after after t ++ filter (fun s => row_id r < row_id s) u.
Proof.
  intros Hs Hp Hl. assert (select_after after t `prefix_of` filter (fun s => after < row_id s) u) as Hpre.
  { etrans; [|by apply filter_prefix]. exists (drop BATCH (filter (fun s => after < row_id s) t)). symmetry. apply take_drop. }
  rewrite (last_cut _ _ r (sorted_filter _ _ Hs) Hpre Hl) at 1. f_equal. rewrite list_filter_filter_l; [done|].
  intros s Hlt. assert (after < row_id r); [|lia]. apply last_Some in Hl as [l Hl].
  assert (r ∈ select_after after t) as Hin by (rewrite Hl; apply elem_of_app; right; by left).
  unfold select_after in Hin. apply elem_of_take in Hin as (i & Hi & _). apply list_elem_of_lookup_2 in Hi.
  by apply list_elem_of_filter in Hi as [? _].
Qed.

Lemma verify_loop_pass fuel tables k v2 after st k' rep :
  grows tables -> verify_loop fuel tables k v2 after st = Some (k', rep) ->
  (k <= k')%nat /\ rep = snd (verify_rows v2 st (filter (fun r => after < row_id r) (tables k'))).
Proof.
  intros Hg. revert k after st. induction fuel as [|f IH]; intros k after st; cbn [verify_loop]; [done|].
  destruct (last (select_after after (tables k))) as [r|] eqn:El.
  - intros Hv. apply IH in Hv as [Hle ->]. split; [lia|].
    rewrite (select_cut after (tables k) (tables k') r), verify_rows_app; [done|apply Hg| |done].
    apply grows_le; [done|lia].
  - intros [= <- <-]. split; [done|]. apply last_None in El. by rewrite (select_after_nil _ _ El).
Qed.

Lemma verify_loop_fuel tables T (k : nat) v2 (after : Z) st (fuel : nat) :
  grows tables -> sorted T -> (forall k, tables k `prefix_of` T) ->
  (length (filter (fun r => (after < row_id r)%Z) T) < fuel)%nat ->
  is_Some (verify_loop fuel tables k v2 after st).
Proof.
  intros Hg HT Hp. revert k after st. induction fuel as [|f IH]; intros k after st Hf; [lia|]. cbn [verify_loop].
  destruct (last (select_after after (tables k))) as [r|] eqn:El; [|done]. apply IH.
  rewrite (select_cut after (tables k) T r) in Hf by (done || apply Hp). rewrite length_app in Hf.
  destruct (select_after after (tables k)); [done|]. simpl in Hf. lia.
Qed.

(** The batched walk is one pass.  While rows are being appended between
    its queries, up to at most the rows of [T], the walk ends after at most
    one query more than [T] has rows; its report is that of one pass over
    the table as its last query saw it, so no row is skipped or read twice
    at a batch boundary; and the report has a break exactly when some row
    after the starting point is out of its place in the chain. *)
Lemma verify_batches fuel tables T from v2 :
  grows tables -> sorted T -> (forall k, tables k `prefix_of` T) -> (length T < fuel)%nat ->
  exists k rep, verify fuel tables from v2 = Some (k, rep) /\
    let rows := filter (fun r => verify_after from < row_id r) (tables k) in
    rep = snd (verify_rows v2 (verify_init from) rows) /\
    r_rows rep = Z.of_nat (length rows) /\
    (r_breaks rep = [] <-> chain_ok v2 (from_option head_hash [] from) rows).
Proof.
  intros Hg HT Hp Hf. destruct (verify_loop_fuel tables T 0 v2 (verify_after from) (verify_init from) fuel) as [[k rep] Hv]; try done.
  { eapply Nat.le_lt_trans; [apply length_filter|done]. }
  exists k, rep. split; [exact Hv|]. pose proof Hv as Hs. apply verify_loop_pass in Hs as [_ ->]; [|done].
  destruct (verify_rows_spec v2 (verify_init from) (filter (fun r => verify_after from < row_id r) (tables k))) as (Hb & _ & Hn & _).
  split_and!; [done|by rewrite Hn|]. rewrite Hb. cbn. tauto.
Qed.

(** Rows with an id below one are never read. *)
Lemma low_rows_unseen fuel low tables from v2 :
  Forall (fun r => row_id r <= 0) low -> 0 <= verify_after from ->
  verify fuel (fun k => low ++ tables k) from v2 = verify fuel tables from v2.
Proof.
  intros Hlow. unfold verify. generalize (verify_init from) as st, 0%nat as k, (verify_after from) as after.
  revert from. induction fuel as [|f IH]; intros from st k after Ha; [done|]. cbn [verify_loop].
  assert (select_after after (low ++ tables k) = select_after after (tables k)) as ->.
  { unfold select_after. rewrite filter_app, (filter_none _ low); [done|]. intros r Hr. rewrite Forall_forall in Hlow.
    specialize (Hlow r Hr). cbn. lia. }
  destruct (last (select_after after (tables k))) as [r|] eqn:El; [|done]. apply (IH from).
  apply last_Some in El as [l El]. assert (r ∈ select_after after (tables k)) as Hr by (rewrite El; apply elem_of_app; right; left).
  unfold select_after in Hr. apply elem_of_take in Hr as (i & Hi & _). apply list_elem_of_lookup_2 in Hi.
  apply list_elem_of_filter in Hi as [? _]. lia.
Qed.
End walk.

(** ** Appending *)

Section append.
Context `{Sha256} `{Hex}.

(** A table in order whose chain is intact. *)
Definition intact (t : table) : Prop :=
  sorted t /\ Forall (fun r => 0 < row_id r) t /\ chain_ok (first_v2 t) [] t.

Lemma chain_ok_ext v w e rows :
  Forall (fun r => is_legacy v (row_id r) = is_legacy w (row_id r)) rows -> chain_ok v e rows -> chain_ok w e rows.
Proof.
  intros Hf. revert e. induction Hf as [|r rows Hr _ IH]; intros e; cbn [chain_ok]; [done|].
  unfold row_ok. rewrite Hr. intros [? ?]. auto.
Qed.

Lemma first_v2_app t u : first_v2 (t ++ u) = match first_v2 t with Some b => Some b | None => first_v2 u end.
Proof. unfold first_v2. rewrite filter_app. by destruct (filter _ t). Qed.

(** Every append to an intact table, with a sequence value above its ids,
    leaves it intact. *)
Lemma audit_append_intact seq at_ user action details t :
  intact t -> 0 < seq -> Forall (fun r => row_id r < seq) t ->
  intact (audit_append seq at_ user action details t).
Proof.
  intros (Hs & Hpos & Hok) Hseq Hlt. unfold audit_append. set (r := mk_row _ _ _ _ _ _ _ _).
  assert (filter (fun s => hash_version s = 2) [r] = [r]) as Hr by done.
  split_and!.
  - apply sorted_app. split_and!; [done|repeat constructor|]. intros x y Hx Hy. apply list_elem_of_singleton in Hy as ->.
    rewrite Forall_forall in Hlt. by apply Hlt.
  - apply Forall_app. split; [done|]. by repeat constructor.
  - apply chain_ok_app. split.
    + revert Hok. apply chain_ok_ext. rewrite first_v2_app. destruct (first_v2 t) as [b|]; [by apply Forall_true|].
      eapply Forall_impl; [exact Hlt|]. intros x Hx. unfold first_v2. rewrite Hr. cbn. symmetry. by apply Z.ltb_lt.
    + cbn [chain_ok]. split; [|done]. split; [by right|]. by left.
Qed.

Lemma select_constant t : sorted t -> grows (fun _ => t).
Proof. by split. Qed.

Lemma filter_pos t : Forall (fun r => 0 < row_id r) t -> filter (fun r => 0 < row_id r) t = t.
Proof. intros Hf. apply filter_all. intros r Hr. rewrite Forall_forall in Hf. by apply Hf. Qed.

(** The walk over a table that does not change. *)
Lemma verify_constant t from v2 :
  sorted t -> verify (S (length t)) (fun _ => t) from v2 =
    Some (default 0%nat (fst <$> verify (S (length t)) (fun _ => t) from v2),
          snd (verify_rows v2 (verify_init from) (filter (fun r => verify_after from < row_id r) t))).
Proof.
  intros Hs. assert (is_Some (verify (S (length t)) (fun _ => t) from v2)) as [[k rep] Hv].
  { apply (verify_loop_fuel _ t); [by apply select_constant|done|done|]. pose proof (length_filter (fun r => verify_after from < row_id r) t). lia. }
  rewrite Hv. pose proof Hv as Hp. apply verify_loop_pass in Hp as [_ ->]; [done|by apply select_constant].
Qed.
End append.

(** ** The canonical encoding is injective *)

Section tamper.
Context `{Sha256} `{Hex}.

(** What the columns' types ensure of a stored row. *)
Definition row_wf (r : audit_row) : Prop :=
  is_i64 (row_id r) /\ user_id r <> Some [] /\
  Forall short [created_at r; default [] (user_id r); action_type r; details r; previous_hash r].

Lemma length_no_colon x : short x -> 58 ∉ int_to_string (Z.of_nat (length x)).
Proof.
  unfold short, u32_max. intros Hx Hin. apply int_to_string_chars in Hin as [?|?]; [done..|]. unfold dec_bound. lia.
Qed.

Lemma audit_field_inj x y r s :
  short x -> short y -> audit_field x ++ r = audit_field y ++ s -> x = y /\ r = s.
Proof.
  unfold audit_field. intros Hx Hy. rewrite <- !(assoc_L (++)). cbn [app]. intros E.
  apply split_unique_l in E as [El Er]; [|by apply length_no_colon..]. unfold short, u32_max in *.
  apply int_to_string_inj in El; [|unfold in_range, i64_min, i64_max; lia..].
  apply app_eq_length_inv in Er as [-> ->]; [done|lia].
Qed.

Lemma concat_audit_field_inj fs gs :
  length fs = length gs -> Forall short fs -> Forall short gs ->
  concat (audit_field <$> fs) = concat (audit_field <$> gs) -> fs = gs.
Proof.
  intros Hlen Hf. revert gs Hlen. induction Hf as [|f fs Hsf Hf IH]; intros [|g gs] Hlen Hg E; try done.
  apply Forall_cons in Hg as [Hsg Hg]. rewrite !fmap_cons in E. cbn [concat] in E.
  apply audit_field_inj in E as [-> E]; [|done..]. f_equal. apply IH; [by injection Hlen|done..].
Qed.

Lemma int_to_string_short z : is_i64 z -> short (int_to_string z).
Proof. intros Hz. pose proof (int_to_string_length z (i64_dec_bound z ltac:(by left))). unfold short, u32_max. lia. Qed.

(** Rows with one digest are one row, but for the columns the digest leaves
    out, or SHA-256 collides. *)
Lemma row_hash_inj r s :
  row_wf r -> row_wf s -> row_hash r = row_hash s ->
  current_hash r = current_hash s -> hash_version r = hash_version s -> r = s \/ sha_collision.
Proof.
  intros (Hri & Hru & Hrs) (Hsi & Hsu & Hss) E Ec Ev. unfold row_hash, audit_hash_v2 in E.
  apply hex_encode_inj in E; [|apply sha256_ok..].
  match type of E with sha256 ?m1 = sha256 ?m2 => destruct (decide (m1 = m2)) as [Em|Em] end; [left|by right; eexists _, _].
  unfold audit_canonical_v2 in Em. apply app_inv_head, concat_audit_field_inj in Em; [|done|..].
  2,3: apply Forall_cons; split; [by apply int_to_string_short|done].
  unfold row_fields in Em. injection Em as E1 E2 E3 E4 E5 E6. apply int_to_string_inj in E1; [|done..].
  assert (user_id r = user_id s) as Eu.
  { destruct (user_id r) as [u|], (user_id s) as [v|]; cbn in *; congruence. }
  destruct r, s; cbn in *; congruence.
Qed.

(** ** Tamper evidence *)

(** Stretches of v2 rows that start at one id and end in one digest. *)
Lemma chains_agree b e1 e2 p1 p2 r1 r2 :
  sorted p1 -> sorted p2 -> Forall row_wf p1 -> Forall row_wf p2 ->
  Forall (fun r => b <= row_id r) p1 -> Forall (fun r => b <= row_id r) p2 ->
  chain_ok (Some b) e1 p1 -> chain_ok (Some b) e2 p2 ->
  row_id <$> head p1 = Some b -> row_id <$> head p2 = Some b ->
  last p1 = Some r1 -> last p2 = Some r2 -> current_hash r1 = current_hash r2 ->
  p1 = p2 \/ sha_collision.
Proof.
  revert p2 r1 r2. induction p1 as [|x1 q1 IH] using rev_ind; [done|].
  intros p2 r1 r2 Hs1 Hs2 Hw1 Hw2 Hb1 Hb2 Hc1 Hc2 Hh1 Hh2 Hl1 Hl2 Ecur.
  rewrite last_snoc in Hl1. injection Hl1 as ->. apply last_Some in Hl2 as [q2 ->].
  apply chain_ok_app in Hc1 as [Hc1 [Ho1 _]], Hc2 as [Hc2 [Ho2 _]].
  apply Forall_app in Hw1 as [Hw1 [Hwr1 _]%Forall_cons], Hw2 as [Hw2 [Hwr2 _]%Forall_cons].
  apply Forall_app in Hb1 as [Hb1 [Hbr1 _]%Forall_cons], Hb2 as [Hb2 [Hbr2 _]%Forall_cons].
  apply sorted_app in Hs1 as (Hs1 & _ & Hlt1), Hs2 as (Hs2 & _ & Hlt2).
  assert (forall r e, b <= row_id r -> row_ok (Some b) e r ->
    previous_hash r = e /\ hash_version r = 2 /\ current_hash r = row_hash r) as Hrow.
  { intros r e Hr. unfold row_ok. cbn [is_legacy]. take_false (row_id r <? b). intuition congruence. }
  apply Hrow in Ho1 as (Hp1 & Hv1 & Hd1); [|done]. apply Hrow in Ho2 as (Hp2 & Hv2 & Hd2); [|done].
  destruct (row_hash_inj r1 r2) as [->|?]; [done..|congruence|done|congruence| |by right].
  assert (forall (q : table) (r : audit_row), row_id <$> head (q ++ [r]) = Some b ->
    (forall x y, x ∈ q -> y ∈ [r] -> row_id x < row_id y) -> row_id r = b -> q = []) as Hnil.
  { intros [|x q] r Hh Hlt Hr; [done|]. cbn in Hh. injection Hh as Hh. specialize (Hlt x r ltac:(left) ltac:(left)). lia. }
  destruct q1 as [|x1 q1].
  { left. cbn in Hh1. injection Hh1 as Hh1. by rewrite (Hnil q2 r2). }
  destruct q2 as [|x2 q2].
  { left. cbn in Hh2. injection Hh2 as Hh2. by rewrite (Hnil (x1 :: q1) r2). }
  destruct (last_is_Some (x1 :: q1)) as [_ [y1 Hy1]], (last_is_Some (x2 :: q2)) as [_ [y2 Hy2]]; try done.
  unfold chain_end in Hp1, Hp2. rewrite Hy1 in Hp1. rewrite Hy2 in Hp2. cbn in Hp1, Hp2.
  destruct (IH (x2 :: q2) y1 y2) as [->|?]; try done; [congruence|by left|by right].
Qed.

(** The rows an intact table holds between its first v2 row and row [n]. *)
Definition v2_rows (b n : Z) (t : table) : table := filter (fun r => b <= row_id r <= n) t.

Lemma v2_rows_chain b n r e t :
  sorted t -> 0 < b -> first_v2 t = Some b ->
  chain_ok (Some b) e (filter (fun r => 0 < row_id r) t) ->
  r ∈ t -> row_id r = n -> b <= n ->
  exists e', chain_ok (Some b) e' (v2_rows b n t) /\ row_id <$> head (v2_rows b n t) = Some b /\
    last (v2_rows b n t) = Some r.
Proof.
  intros Hs Hb Hf Hc Hin Hn Hbn.
  rewrite (filter_split _ (fun r => 0 < row_id r < b) (fun r => b <= row_id r)) in Hc by (done || (intros; cbn beta in *; lia)).
  apply chain_ok_app in Hc as [_ Hc].
  rewrite (filter_split (fun r => b <= row_id r) (fun r => b <= row_id r <= n) (fun r => n < row_id r)) in Hc by (done || (intros; cbn beta in *; lia)).
  apply chain_ok_app in Hc as [Hc _]. eexists. split; [exact Hc|]. unfold v2_rows in *.
  pose proof (sorted_filter (fun r => b <= row_id r <= n) t Hs) as Hs'. split.
  - unfold first_v2 in Hf. destruct (filter (fun r => hash_version r = 2) t) as [|f fs] eqn:Ef; [done|].
    cbn in Hf. injection Hf as Hf. assert (f ∈ t /\ hash_version f = 2) as [Hft _].
    { assert (f ∈ filter (fun r => hash_version r = 2) t) as Hi by (rewrite Ef; left). apply list_elem_of_filter in Hi as [? ?]. done. }
    destruct (filter (fun r => b <= row_id r <= n) t) as [|x xs] eqn:Ex.
    { exfalso. eapply filter_nil_not_elem_of; [exact Ex| |exact Hft]. cbn. lia. }
    cbn. f_equal. assert (f ∈ x :: xs) as Hfx by (rewrite <- Ex; apply list_elem_of_filter; split; [lia|done]).
    assert (b <= row_id x). { assert (x ∈ x :: xs) as Hx by left. rewrite <- Ex in Hx. apply list_elem_of_filter in Hx as [? _]. lia. }
    apply elem_of_cons in Hfx as [->|Hfx]; [done|]. inversion_clear Hs' as [|? ? _ Hlt]. rewrite Forall_forall in Hlt.
    apply Hlt in Hfx. lia.
  - assert (r ∈ filter (fun r => b <= row_id r <= n) t) as Hr by (apply list_elem_of_filter; split; [lia|done]).
    destruct (last (filter (fun r => b <= row_id r <= n) t)) as [x|] eqn:El; [|apply last_None in El; rewrite El in Hr; by apply not_elem_of_nil in Hr].
    apply last_Some in El as [l El]. rewrite El in Hr, Hs'. f_equal.
    apply elem_of_app in Hr as [Hr|Hr]; [|by apply list_elem_of_singleton in Hr].
    apply sorted_app in Hs' as (_ & _ & Hlt). specialize (Hlt r x Hr ltac:(left)).
    assert (x ∈ filter (fun r => b <= row_id r <= n) t) as Hx by (rewrite El; apply elem_of_app; right; left).
    apply list_elem_of_filter in Hx as [? _]. lia.
Qed.

Lemma v2_rows_agree b n t1 t2 r1 r2 :
  sorted t1 -> sorted t2 -> Forall row_wf t1 -> Forall row_wf t2 -> 0 < b -> b <= n ->
  first_v2 t1 = Some b -> first_v2 t2 = Some b ->
  chain_ok (Some b) [] (filter (fun r => 0 < row_id r) t1) ->
  chain_ok (Some b) [] (filter (fun r => 0 < row_id r) t2) ->
  r1 ∈ t1 -> r2 ∈ t2 -> row_id r1 = n -> row_id r2 = n -> current_hash r1 = current_hash r2 ->
  v2_rows b n t1 = v2_rows b n t2 \/ sha_collision.
Proof.
  intros Hs1 Hs2 Hw1 Hw2 Hb Hbn Hf1 Hf2 Hc1 Hc2 Hi1 Hi2 Hn1 Hn2 Ecur.
  destruct (v2_rows_chain b n r1 [] t1) as (e1 & Hk1 & Hh1 & Hl1); [done..|].
  destruct (v2_rows_chain b n r2 [] t2) as (e2 & Hk2 & Hh2 & Hl2); [done..|].
  assert (forall (P : audit_row -> Prop) t, Forall P t -> Forall P (v2_rows b n t)) as Hsub.
  { intros P t HP. apply Forall_forall. intros r Hr. apply list_elem_of_filter in Hr as [_ Hr].
    rewrite Forall_forall in HP. by apply HP. }
  assert (forall t, Forall (fun r => b <= row_id r) (v2_rows b n t)) as Hge.
  { intros t. apply Forall_forall. intros r Hr. apply list_elem_of_filter in Hr as [? _]. lia. }
  apply (chains_agree b e1 e2 _ _ r1 r2); auto; by apply sorted_filter.
Qed.
End tamper.

(** ** Examples *)

Module ChainExamples.
Import Reference.

Definition t1 : table := audit_append 1 (str "2026-01-01T00:00:00.000000Z") None (str "auth.login") (str "{}") [].
Definition t2 : table := audit_append 4 (str "2026-01-01T00:00:01.000000Z") (Some (str "u1")) (str "tunnel.connected") (str "{}") t1.

Lemma t1_intact : intact t1.
Proof. apply audit_append_intact; [|lia|constructor]. split_and!; constructor. Qed.

Lemma t2_intact : intact t2.
Proof. apply audit_append_intact; [apply t1_intact|lia|]. by repeat constructor. Qed.

Definition growing (k : nat) : table := match k with O => t1 | _ => t2 end.

Lemma verify_batches_witness :
  exists k rep, verify 3 growing None (Some 1) = Some (k, rep) /\
    let rows := filter (fun r => verify_after None < row_id r) (growing k) in
    rep = snd (verify_rows (Some 1) (verify_init None) rows) /\
    r_rows rep = Z.of_nat (length rows) /\
    (r_breaks rep = [] <-> chain_ok (Some 1) (from_option head_hash [] None) rows).
Proof.
  apply (verify_batches 3 growing t2 None (Some 1)).
  - split; intros [|k]; [apply t1_intact|apply t2_intact|by eexists|done].
  - apply t2_intact.
  - intros [|k]; [by eexists|done].
  - cbn [length t2 t1 audit_append app]. lia.
Defined.
End ChainExamples.
