(* ===== verification/AuditVerify.v ===== *)
(** * The audit verifier: checkpoints, anchors and the periodic run

    [backend/src/services/audit_verify.rs], second half: [Checkpoint] and its
    MAC under [CheckpointKey], the anchor file ([append_anchor],
    [last_anchor]), [check_checkpoint], [check_anchor], and [run], the body of
    the periodic task, on [VerifierState] and the published status.

    The database is [db]; each query of [run] has a [site], and [Env] says
    what the database is at that query ([None] when the query fails), what
    the anchor file holds, what Vault answers and what the clocks show.
    Writes are returned as [effect]s in order; [e_append] is [Some n] when the
    append fails after [n] bytes.  A walk that a query error or the task's
    timeout ends is [e_walk_ok = false] or a lack of [e_fuel]. *)

From stdpp Require Import relations.
From S2P Require Import Prelude Machine Text Crates AuditChain.

Local Open Scope Z_scope.

(** Milliseconds. *)
Definition FULL_SCAN_EVERY : Z := 24 * 3600 * 1000.

Record Checkpoint := mk_checkpoint { cp_head : Head; cp_first_v2 : option Z }.

#[export] Instance Head_eq_dec : EqDecision Head.
Proof. solve_decision. Defined.

#[export] Instance Checkpoint_eq_dec : EqDecision Checkpoint.
Proof. solve_decision. Defined.

Record CheckpointKey := mk_key { ck_key : bytes; ck_id : bytes }.

(** A stored checkpoint, [audit_checkpoints], in the order of its id. *)
Record cp_row := mk_cp_row {
  c_last_id : Z; c_last_hash : bytes; c_first_v2 : option Z; c_key_id : bytes; c_mac : bytes
}.

Record db := mk_db { audit_logs : table; audit_checkpoints : list cp_row }.

Record Anchor := mk_anchor {
  a_v : Z;
  a_at : bytes;
  a_last_id : Z;
  a_last_hash : bytes;
  a_first_v2_id : option Z;
  a_key_id : bytes;
  a_mac : bytes;
  a_signature : option bytes
}.

#[export] Instance Anchor_eq_dec : EqDecision Anchor.
Proof. solve_decision. Defined.

(** [Anchor::checkpoint]. *)
Definition anchor_checkpoint (a : Anchor) : Checkpoint :=
  mk_checkpoint (mk_head (a_last_id a) (a_last_hash a)) (a_first_v2_id a).

Definition checkpoint_message (cp : Checkpoint) : bytes :=
  str "strata-audit-checkpoint-v1" ++ [10] ++ int_to_string (head_id (cp_head cp)) ++ [10] ++
  head_hash (cp_head cp) ++ [10] ++ from_option int_to_string [] (cp_first_v2 cp).

(** ** Texts of the problems *)

(** [{:?}] of an [Option<i64>]. *)
Definition debug_option (o : option Z) : bytes :=
  match o with None => str "None" | Some z => str "Some(" ++ int_to_string z ++ str ")" end.

(** [Display for Break]. *)
Definition break_text (b : Break) : bytes :=
  match b with
  | LinkBreak id => str "row " ++ int_to_string id ++ str " does not follow the row before it"
  | DigestBreak id => str "row " ++ int_to_string id ++ str " does not match its digest"
  | LegacyBreak id => str "row " ++ int_to_string id ++ str " is in the legacy format after the v2 switch"
  end.

Definition bad_mac_text (id : Z) : bytes := str "the checkpoint at row " ++ int_to_string id ++ str " fails its MAC".
Definition missing_text (id : Z) : bytes := str "row " ++ int_to_string id ++ str ", the last checkpoint, is missing".
Definition changed_text (id : Z) : bytes := str "row " ++ int_to_string id ++ str " no longer matches the last checkpoint".
Definition boundary_text (was now : option Z) : bytes :=
  str "v2 rows began at " ++ debug_option was ++ str " at the last checkpoint and now begin at " ++ debug_option now.
Definition bad_signature_text (id : Z) : bytes :=
  str "the anchored checkpoint at row " ++ int_to_string id ++ str " fails its Vault signature".
Definition unreadable_text (e : bytes) : bytes := str "the audit anchor file cannot be read: " ++ e.
Definition removed_text (known : Z) : bytes := str "checkpoints up to row " ++ int_to_string known ++ str " have been removed".

(** ** Keys *)

Section keys.
Context `{HmacSha256} `{Sha256} `{Hex}.

(** [CheckpointKey::new]. *)
Definition key_new (secret : bytes) : CheckpointKey :=
  let key := hmac secret (str "strata-audit-checkpoint-key-v1") in
  mk_key key (hex_encode (take 8 (sha256 key))).

(** [CheckpointKey::from_env]: the variable unless unset or blank, else the
    JWT secret. *)
Definition key_from_env (var jwt_secret : option bytes) : option CheckpointKey :=
  let secret := match var with
    | Some k => if bool_decide (trim k = []) then jwt_secret else Some k
    | None => jwt_secret
    end in
  key_new <$> secret.

(** [CheckpointKey::sign]. *)
Definition key_sign (key : CheckpointKey) (cp : Checkpoint) : bytes :=
  hex_encode (hmac (ck_key key) (checkpoint_message cp)).

(** [CheckpointKey::verify]. *)
Definition key_verify (key : CheckpointKey) (cp : Checkpoint) (mac : bytes) : bool :=
  match hex_decode mac with
  | Some m => verify_slice (ck_key key) (checkpoint_message cp) m
  | None => false
  end.

(** [latest_checkpoint]: the newest one under this key. *)
Definition latest_checkpoint (d : db) (key : CheckpointKey) : option (Checkpoint * bytes) :=
  c ← last (filter (fun c => c_key_id c = ck_id key) (audit_checkpoints d));
  Some (mk_checkpoint (mk_head (c_last_id c) (c_last_hash c)) (c_first_v2 c), c_mac c).

(** ** The environment of a run *)

Inductive site := SFirstV2 | SLatest | SAnchorRow | SAnchorV2 | SCheckpointRow | SCheckpointV2 | SInsert.

Inductive file_read :=
| NotFound
| IoError (e : bytes)
| Contents (content : bytes).

Record Vault := mk_vault {
  vault_verify : bytes -> bytes -> result unit bool;
  vault_sign : bytes -> result unit bytes
}.

Record Env := mk_env {
  e_key_var : option bytes;
  e_jwt_secret : option bytes;
  e_acquired : bool;
  e_db : site -> option db;
  e_tables : nat -> table;
  e_walk_ok : bool;
  e_fuel : nat;
  e_anchor_path : option bytes;
  e_anchor_file : file_read;
  e_bad_json : bytes -> bytes;
  e_append : option nat;
  e_vault : option Vault;
  e_instant : Z;
  e_instant_end : Z;
  e_utc : bytes
}.

Inductive run_error := NoKey | Sql.

(** [check_checkpoint_rows]; the two queries see [row_db] and [v2_db]. *)
Definition check_checkpoint_rows (row_db v2_db : option db) (cp : Checkpoint) : result run_error (list bytes) :=
  let id := head_id (cp_head cp) in
  d ← ok_or row_db Sql;
  let problems :=
    match current_hash <$> head (filter (fun r => row_id r = id) (audit_logs d)) with
    | None => [missing_text id]
    | Some hash => if bool_decide (hash = head_hash (cp_head cp)) then [] else [changed_text id]
    end in
  match cp_first_v2 cp with
  | None => Ok problems
  | Some _ =>
      d' ← ok_or v2_db Sql;
      let now := first_v2 (audit_logs d') in
      if bool_decide (now = cp_first_v2 cp) then Ok problems
      else Ok (problems ++ [boundary_text (cp_first_v2 cp) now])
  end.

Definition check_checkpoint (row_db v2_db : option db) (key : CheckpointKey) (cp : Checkpoint) (mac : bytes) :
    result run_error (list bytes) :=
  if key_verify key cp mac then check_checkpoint_rows row_db v2_db cp
  else Ok [bad_mac_text (head_id (cp_head cp))].

Definition check_anchor (e : Env) (key : CheckpointKey) (a : Anchor) : result run_error (list bytes) :=
  let cp := anchor_checkpoint a in
  let signature :=
    match e_vault e, a_signature a with
    | Some v, Some sig =>
        match vault_verify v (checkpoint_message cp) sig with
        | Ok true => []
        | Ok false => [bad_signature_text (head_id (cp_head cp))]
        | Err _ => []
        end
    | _, _ => []
    end in
  checked ← if bool_decide (a_key_id a = ck_id key)
            then check_checkpoint (e_db e SAnchorRow) (e_db e SAnchorV2) key cp (a_mac a)
            else check_checkpoint_rows (e_db e SAnchorRow) (e_db e SAnchorV2) cp;
  Ok (signature ++ ((app (str "anchor: ")) <$> checked)).

(** ** The anchor file *)

Section anchors.
Context `{Json Anchor}.

(** What [append_anchor] adds to the file. *)
Definition anchor_line (a : Anchor) : option bytes := (fun l => l ++ [10]) <$> json_to_vec a.

(** [last_anchor]: the last non-blank line of the last 64 KiB. *)
Definition last_anchor (bad_json : bytes -> bytes) (f : file_read) : result bytes (option Anchor) :=
  match f with
  | NotFound => Ok None
  | IoError e => Err e
  | Contents content =>
      let tail := utf8_lossy (drop (length content - 64 * 1024) content) in
      match head (filter (fun l => trim l <> []) (rev (lines tail))) with
      | None => Ok None
      | Some line => match json_from_slice line with Some a => Ok (Some a) | None => Err (bad_json line) end
      end
  end.

(** ** The state and one run *)

Record VerifierState := mk_vstate { last_full : option Z; known_checkpoint : option Z; alarm : list bytes }.

Record VerifierStatus := mk_vstatus {
  vs_last_run : option bytes;
  vs_problems : list bytes;
  vs_anchor_path : option bytes;
  vs_last_anchor : option Anchor
}.

Inductive effect :=
| InsertCheckpoint (c : cp_row)
| AppendAnchor (line : bytes)
| LogIntegrityFailed (problems : list bytes).

Record outcome := mk_outcome {
  o_state : VerifierState;
  o_status : VerifierStatus;
  o_effects : list effect;
  o_result : result run_error unit
}.

(** [record_status]. *)
Definition record_status (e : Env) (problems : list bytes) (anchor : option Anchor) (s : VerifierStatus) : VerifierStatus :=
  mk_vstatus (Some (e_utc e)) problems (e_anchor_path e)
    (match anchor with Some a => Some a | None => vs_last_anchor s end).

(** [Option::max]: [None] is below every [Some]. *)
Definition option_max (a b : option Z) : option Z :=
  match a, b with
  | Some x, Some y => Some (Z.max x y)
  | Some x, None => Some x
  | None, b => b
  end.

Definition set_known (k : option Z) (st : VerifierState) : VerifierState := mk_vstate (last_full st) k (alarm st).

(** The anchor, and the problem of an unreadable file. *)
Definition read_anchor (e : Env) : option Anchor * list bytes :=
  match e_anchor_path e with
  | None => (None, [])
  | Some _ =>
      match last_anchor (e_bad_json e) (e_anchor_file e) with
      | Ok a => (a, [])
      | Err m => (None, [unreadable_text m])
      end
  end.

(** The block under [if let Some(anchor)]. *)
Definition anchor_phase (e : Env) (key : CheckpointKey) (anchor : option Anchor) (st : VerifierState) :
    result run_error (VerifierState * list bytes) :=
  match anchor with
  | None => Ok (st, [])
  | Some a =>
      found ← check_anchor e key a;
      Ok (if bool_decide (a_key_id a = ck_id key)
          then set_known (option_max (known_checkpoint st) (Some (a_last_id a))) st else st, found)
  end.

(** The block under [if let Some((cp, mac))]: where the walk may start, the
    boundary, the state and the problems. *)
Definition checkpoint_phase (e : Env) (key : CheckpointKey) (latest : option (Checkpoint * bytes))
    (boundary : option Z) (st : VerifierState) :
    result run_error (option Head * option Z * VerifierState * list bytes) :=
  match latest with
  | None => Ok (None, boundary, st, [])
  | Some (cp, mac) =>
      found ← check_checkpoint (e_db e SCheckpointRow) (e_db e SCheckpointV2) key cp mac;
      match found with
      | [] => Ok (Some (cp_head cp), (match cp_first_v2 cp with Some b => Some b | None => boundary end),
                  set_known (option_max (known_checkpoint st) (Some (head_id (cp_head cp)))) st, [])
      | _ => Ok (None, boundary, st, found)
      end
  end.

Definition removed_problem (latest : option (Checkpoint * bytes)) (st : VerifierState) : list bytes :=
  match known_checkpoint st with
  | None => []
  | Some known =>
      match latest with
      | None => [removed_text known]
      | Some (cp, _) => if head_id (cp_head cp) <? known then [removed_text known] else []
      end
  end.

(** Whether this run walks the whole chain. *)
Definition is_full (e : Env) (problems : list bytes) (st : VerifierState) : bool :=
  negb (bool_decide (problems = [])) || negb (bool_decide (alarm st = [])) ||
  match last_full st with None => true | Some t => FULL_SCAN_EVERY <=? Z.max 0 (e_instant e - t) end.

(** [write_anchor]: the anchor when it was appended, and the write. *)
Definition write_anchor (e : Env) (key : CheckpointKey) (cp : Checkpoint) (mac : bytes) : option Anchor * list effect :=
  let signature :=
    match e_vault e with
    | Some v => match vault_sign v (checkpoint_message cp) with Ok sig => Some sig | Err _ => None end
    | None => None
    end in
  let entry := mk_anchor 1 (e_utc e) (head_id (cp_head cp)) (head_hash (cp_head cp)) (cp_first_v2 cp) (ck_id key) mac signature in
  match anchor_line entry with
  | Some line =>
      match e_append e with
      | None => (Some entry, [AppendAnchor line])
      | Some n => (None, [AppendAnchor (take n line)])
      end
  | None => (None, [])
  end.

(** [run] from the report on. *)
Definition conclude (e : Env) (key : CheckpointKey) (latest : option (Checkpoint * bytes)) (anchor : option Anchor)
    (boundary : option Z) (full : bool) (report : Report) (problems0 : list bytes)
    (st : VerifierState) (status : VerifierStatus) : outcome :=
  let problems := problems0 ++ (break_text <$> r_breaks report) in
  match problems with
  | _ :: _ =>
      let effects := if bool_decide (problems = alarm st) then [] else [LogIntegrityFailed problems] in
      mk_outcome (mk_vstate (last_full st) (known_checkpoint st) problems)
        (record_status e problems anchor status) effects (Ok tt)
  | [] =>
      let st' := mk_vstate (if full then Some (e_instant_end e) else last_full st) (known_checkpoint st) [] in
      let quiet := mk_outcome st' (record_status e [] anchor status) [] (Ok tt) in
      match r_head report with
      | None => quiet
      | Some h =>
          if match latest with Some (cp, _) => head_id h <=? head_id (cp_head cp) | None => false end then quiet
          else
            let cp := mk_checkpoint h boundary in
            let mac := key_sign key cp in
            match e_db e SInsert with
            | None => mk_outcome st' status [] (Err Sql)
            | Some _ =>
                let insert := InsertCheckpoint (mk_cp_row (head_id h) (head_hash h) boundary (ck_id key) mac) in
                let '(written, writes) :=
                  match e_anchor_path e with Some _ => write_anchor e key cp mac | None => (None, []) end in
                mk_outcome (set_known (Some (head_id h)) st')
                  (record_status e [] (match written with Some a => Some a | None => anchor end) status)
                  (insert :: writes) (Ok tt)
            end
      end
  end.

(** [run]. *)
Definition run (e : Env) (st : VerifierState) (status : VerifierStatus) : outcome :=
  let fail st err := mk_outcome st status [] (Err err) in
  match key_from_env (e_key_var e) (e_jwt_secret e) with
  | None => fail st NoKey
  | Some key =>
      match e_acquired e, e_db e SFirstV2, e_db e SLatest with
      | true, Some d0, Some d1 =>
          let latest := latest_checkpoint d1 key in
          let '(anchor, unreadable) := read_anchor e in
          match anchor_phase e key anchor st with
          | Err err => fail st err
          | Ok (st1, anchored) =>
              match checkpoint_phase e key latest (first_v2 (audit_logs d0)) st1 with
              | Err err => fail st1 err
              | Ok (start, boundary, st2, found) =>
                  let problems := unreadable ++ anchored ++ found ++ removed_problem latest st2 in
                  let full := is_full e problems st2 in
                  match e_walk_ok e, verify (e_fuel e) (e_tables e) (if full then None else start) boundary with
                  | true, Some (_, report) => conclude e key latest anchor boundary full report problems st2 status
                  | _, _ => fail st2 Sql
                  end
              end
          end
      | _, _, _ => fail st Sql
      end
  end.
End anchors.
End keys.

(** ** Checkpoint messages and MACs *)

Definition cp_wf (cp : Checkpoint) : Prop :=
  is_i64 (head_id (cp_head cp)) /\ from_option is_i64 True (cp_first_v2 cp).

Lemma int_no_newline z : is_i64 z -> 10 ∉ int_to_string z.
Proof. intros Hz Hin. apply int_to_string_chars in Hin as [?|?]; [done..|]. apply i64_dec_bound. by left. Qed.

Lemma checkpoint_message_inj a b :
  cp_wf a -> cp_wf b -> checkpoint_message a = checkpoint_message b -> a = b.
Proof.
  destruct a as [[ia ha] va], b as [[ib hb] vb]. unfold cp_wf, checkpoint_message. cbn [cp_head head_id head_hash cp_first_v2].
  intros [Hia Hva] [Hib Hvb] E. apply app_inv_head in E. cbn [app] in E. injection E as E.
  apply split_unique_l in E as [Ei E]; [|by apply int_no_newline..]. apply int_to_string_inj in Ei as ->; [|done..].
  assert (forall v, from_option is_i64 True v -> 10 ∉ from_option int_to_string [] v) as Hn.
  { intros [v|] Hv; [by apply int_no_newline|apply not_elem_of_nil]. }
  apply split_unique_r in E as [-> Ev]; [|by apply Hn..]. f_equal.
  assert (forall v, is_i64 v -> int_to_string v <> []) as Hne by (intros; apply int_to_string_nonempty, i64_dec_bound; by left).
  destruct va as [va|], vb as [vb|]; cbn in *; [f_equal; by apply int_to_string_inj|by apply Hne in Ev|by symmetry in Ev; apply Hne in Ev|done].
Qed.

Section verifier.
Context `{HmacSha256} `{Sha256} `{Hex}.

Lemma key_sign_verify key cp cp0 :
  key_verify key cp (key_sign key cp0) = true <->
  hmac (ck_key key) (checkpoint_message cp0) = hmac (ck_key key) (checkpoint_message cp).
Proof. unfold key_verify, key_sign. rewrite hex_decode_encode by apply hmac_ok. apply verify_slice_spec. Qed.

(** A MAC the verifier made for one checkpoint is accepted for that
    checkpoint, and for another one only if HMAC-SHA-256 collides: nobody can
    move a MAC to another row id, another digest (even one with line breaks
    in it) or another v2 boundary. *)
Lemma checkpoint_authentic key cp cp0 :
  cp_wf cp -> cp_wf cp0 ->
  key_verify key cp0 (key_sign key cp0) = true /\
  (key_verify key cp (key_sign key cp0) = true -> cp = cp0 \/ mac_collision (ck_key key)).
Proof.
  intros Hw Hw0. rewrite !key_sign_verify. split; [done|]. intros E.
  destruct (decide (checkpoint_message cp0 = checkpoint_message cp)) as [Em|Em]; [left|right; by eexists _, _].
  by apply checkpoint_message_inj.
Qed.

(** ** Anchors *)

Context `{Json Anchor}.

Lemma lossy_lines content line :
  utf8_valid line = true -> (content = [] \/ exists c, content = c ++ [10]) ->
  exists c', utf8_lossy (content ++ line) = c' ++ line /\ (c' = [] \/ exists c, c' = c ++ [10]).
Proof.
  intros Hv [->|[c ->]]; [exists []; split; [by apply utf8_lossy_valid|by left]|].
  exists (utf8_lossy c ++ [10]). split; [|by right; eexists].
  rewrite <- !(assoc_L (++)). cbn [app]. by rewrite utf8_lossy_newline, (utf8_lossy_valid line).
Qed.

Lemma anchor_line_read `{!JsonText Anchor} bad_json a line content :
  anchor_line a = Some line -> (length line <= 64 * 1024)%nat ->
  (content = [] \/ exists c, content = c ++ [10]) ->
  last_anchor bad_json (Contents (content ++ line)) = Ok (Some a).
Proof.
  unfold anchor_line. intros Hl Hlen Hc. apply fmap_Some in Hl as (js & Hjs & ->).
  cbn [last_anchor]. rewrite drop_app_le by (rewrite length_app; lia).
  set (m := (length (content ++ js ++ [10%Z]) - 64 * 1024)%nat). set (s := drop m content).
  assert (s = [] \/ exists c, s = c ++ [10]) as Hs.
  { destruct Hc as [->|[c ->]]; [left; by unfold s; rewrite drop_nil|]. unfold s.
    destruct (decide (m <= length c)%nat); [right; exists (drop m c); by rewrite drop_app_le|].
    left. apply drop_ge. rewrite length_app. simpl. lia. }
  pose proof (json_text_utf8 _ _ Hjs) as Hu. destruct (json_text_line _ _ Hjs) as [Hn Hr].
  destruct (lossy_lines s (js ++ [10])) as (s' & -> & Hs'); [by rewrite utf8_valid_app|done|].
  destruct (lines_last s' js) as [ls ->]; [done..|]. rewrite rev_app_distr. cbn [rev app].
  rewrite filter_cons_True by (by eapply json_text_shown). cbn [head].
  by rewrite (json_roundtrip _ _ Hjs).
Qed.

(** The newest anchor is read back: after any sequence of [append_anchor]s
    to a file that is empty or ends a line, whatever its earlier bytes (even
    invalid UTF-8, or more than the 64 KiB the reader looks at), [last_anchor]
    returns the last one appended, provided each line fits in those 64 KiB. *)
Lemma anchor_roundtrip `{!JsonText Anchor} bad_json content anchors ls a :
  mapM anchor_line anchors = Some ls -> last anchors = Some a ->
  Forall (fun line => (length line <= 64 * 1024)%nat) ls ->
  (content = [] \/ exists c, content = c ++ [10]) ->
  last_anchor bad_json (Contents (content ++ concat ls)) = Ok (Some a).
Proof.
  intros Hm Hl Hf Hc. apply last_Some in Hl as [as' ->]. apply mapM_Some in Hm.
  apply Forall2_app_inv_l in Hm as (ls1 & ls2 & H1' & H2' & ->). apply Forall2_cons_inv_l in H2' as (line & ls3 & Hline & Hnil & ->).
  apply Forall2_nil_inv_l in Hnil as ->. apply Forall_app in Hf as [_ [Hlen _]%Forall_cons].
  rewrite concat_app. cbn [concat]. rewrite app_nil_r, (assoc_L (++)). apply anchor_line_read; [done..|].
  clear Hline Hlen. revert content Hc. induction H1' as [|x l xs ls Hx Hxs IH]; intros content Hc; cbn [concat]; [by rewrite app_nil_r|].
  rewrite (assoc_L (++)). apply IH. right. apply fmap_Some in Hx as (js & _ & ->). exists (content ++ js). by rewrite (assoc_L (++)).
Qed.

(** ** What a silent run has established *)

(** A run that completes and reports nothing. *)
Definition silent (o : outcome) : Prop := o_result o = Ok tt /\ vs_problems (o_status o) = [].

Lemma option_max_ge_l a b : match a with Some x => exists y, option_max a b = Some y /\ x <= y | None => True end.
Proof. destruct a as [x|], b as [y|]; cbn; eauto with lia. Qed.

(** What [conclude] needs to report nothing. *)
Lemma conclude_silent e key latest anchor boundary full report problems st status :
  silent (conclude e key latest anchor boundary full report problems st status) ->
  problems = [] /\ r_breaks report = [].
Proof.
  unfold conclude, silent. destruct (problems ++ (break_text <$> r_breaks report)) as [|x l] eqn:E; [|by intros [_ ?]].
  intros _. apply app_nil in E as [-> E]. split; [done|]. by apply fmap_nil_inv in E.
Qed.

(** The checkpoint that a silent run accepted, and the walk it made. *)
Lemma run_silent_inv e st status :
  silent (run e st status) ->
  exists key d0 d1 anchor st1 start boundary st2 k report,
    key_from_env (e_key_var e) (e_jwt_secret e) = Some key /\
    e_db e SFirstV2 = Some d0 /\ e_db e SLatest = Some d1 /\
    anchor_phase e key anchor st = Ok (st1, []) /\
    checkpoint_phase e key (latest_checkpoint d1 key) (first_v2 (audit_logs d0)) st1 = Ok (start, boundary, st2, []) /\
    removed_problem (latest_checkpoint d1 key) st2 = [] /\
    verify (e_fuel e) (e_tables e) (if is_full e [] st2 then None else start) boundary = Some (k, report) /\
    r_breaks report = [].
Proof.
  unfold run, silent. destruct (key_from_env _ _) as [key|]; [|by intros [? _]].
  destruct (e_acquired e); [|by intros [? _]]. destruct (e_db e SFirstV2) as [d0|]; [|by intros [? _]].
  destruct (e_db e SLatest) as [d1|]; [|by intros [? _]]. destruct (read_anchor e) as [anchor unreadable].
  destruct (anchor_phase e key anchor st) as [[st1 anchored]|] eqn:Ea; [|by intros [? _]].
  destruct (checkpoint_phase _ _ _ _ _) as [[[[start boundary] st2] found]|] eqn:Ec; [|by intros [? _]].
  destruct (e_walk_ok e); [|by intros [? _]].
  destruct (verify _ _ _ _) as [[k report]|] eqn:Ev; [|by intros [? _]].
  intros Hs. apply conclude_silent in Hs as [Hp Hb]. rewrite Hp in Ev.
  apply app_nil in Hp as [_ Hp]. apply app_nil in Hp as [-> Hp]. apply app_nil in Hp as [-> Hp].
  by exists key, d0, d1, anchor, st1, start, boundary, st2, k, report.
Qed.

(** ** Tampering is reported *)

(** Every query of the run sees the one database. *)
Definition reads (e : Env) (d : db) : Prop :=
  (forall s, e_db e s = Some d) /\ (forall k, e_tables e k = audit_logs d).

(** A checkpoint of the true history [T], whose v2 rows begin at [b]. *)
Definition genuine (T : table) (b : Z) (cp : Checkpoint) : Prop :=
  (exists r, r ∈ T /\ row_id r = head_id (cp_head cp) /\ current_hash r = head_hash (cp_head cp)) /\
  (cp_first_v2 cp = Some b \/ cp_first_v2 cp = None /\ head_id (cp_head cp) < b).

Lemma anchor_phase_state e key anchor st st1 ps :
  anchor_phase e key anchor st = Ok (st1, ps) ->
  alarm st1 = alarm st /\ last_full st1 = last_full st /\
  match known_checkpoint st with Some k => exists k', known_checkpoint st1 = Some k' /\ k <= k' | None => True end.
Proof.
  unfold anchor_phase. destruct anchor as [a|]; [|intros [= <- <-]; split_and!; [done..|destruct (known_checkpoint st); eauto with lia]].
  intros E. apply result_bind_Ok in E as (found & _ & [= <- <-]). case_bool_decide; split_and!; try done.
  - apply option_max_ge_l.
  - destruct (known_checkpoint st); eauto with lia.
Qed.

Lemma checkpoint_phase_inv e key latest boundary0 st start boundary st2 :
  checkpoint_phase e key latest boundary0 st = Ok (start, boundary, st2, []) ->
  alarm st2 = alarm st /\ last_full st2 = last_full st /\
  match known_checkpoint st with Some k => exists k', known_checkpoint st2 = Some k' /\ k <= k' | None => True end /\
  match latest with
  | None => start = None /\ boundary = boundary0 /\ st2 = st
  | Some (cp, mac) =>
      check_checkpoint (e_db e SCheckpointRow) (e_db e SCheckpointV2) key cp mac = Ok [] /\ start = Some (cp_head cp) /\
      boundary = (match cp_first_v2 cp with Some b => Some b | None => boundary0 end) /\
      st2 = set_known (option_max (known_checkpoint st) (Some (head_id (cp_head cp)))) st
  end.
Proof.
  unfold checkpoint_phase. destruct latest as [[cp mac]|].
  - intros E. apply result_bind_Ok in E as (found & Hf & E). destruct found; [|done]. injection E as <- <- <-.
    split_and!; try done; apply option_max_ge_l.
  - intros [= <- <- <-]. split_and!; try done. destruct (known_checkpoint st); eauto with lia.
Qed.

Lemma removed_problem_nil latest st k :
  removed_problem latest st = [] -> known_checkpoint st = Some k ->
  exists cp mac, latest = Some (cp, mac) /\ k <= head_id (cp_head cp).
Proof.
  unfold removed_problem. intros E Hk. rewrite Hk in E. destruct latest as [[cp mac]|]; [|done].
  case_test. b2p. eauto with lia.
Qed.

Lemma check_checkpoint_nil d key cp mac :
  check_checkpoint (Some d) (Some d) key cp mac = Ok [] ->
  key_verify key cp mac = true /\
  (exists r, r ∈ audit_logs d /\ row_id r = head_id (cp_head cp) /\ current_hash r = head_hash (cp_head cp)) /\
  (cp_first_v2 cp = None \/ first_v2 (audit_logs d) = cp_first_v2 cp).
Proof.
  unfold check_checkpoint. destruct (key_verify key cp mac); [|done]. intros E. split; [done|].
  unfold check_checkpoint_rows in E. cbn [ok_or mbind result_bind] in E.
  destruct (filter _ (audit_logs d)) as [|r l] eqn:Ef; cbn [head fmap option_fmap option_map] in E.
  { destruct (cp_first_v2 cp); [|done]. by case_bool_decide. }
  assert (r ∈ audit_logs d /\ row_id r = head_id (cp_head cp)) as [Hin Hid].
  { assert (r ∈ filter (fun r => row_id r = head_id (cp_head cp)) (audit_logs d)) as Hr by (rewrite Ef; left).
    apply list_elem_of_filter in Hr as [? ?]. done. }
  destruct (decide (current_hash r = head_hash (cp_head cp))) as [Hh|Hh]; [rewrite (bool_decide_true _ Hh) in E|rewrite (bool_decide_false _ Hh) in E].
  2:{ destruct (cp_first_v2 cp); [by case_bool_decide|done]. }
  split; [by exists r|]. destruct (cp_first_v2 cp); [|by left]. right. by case_bool_decide.
Qed.

Lemma v2_rows_shrink b k n t : k <= n -> v2_rows b k t = filter (fun r => row_id r <= k) (v2_rows b n t).
Proof. intros Hk. unfold v2_rows. rewrite list_filter_filter. apply list_filter_iff. intros r. lia. Qed.


(** ** Known checkpoints only advance *)

Lemma conclude_known e key latest anchor boundary full report problems st status k :
  known_checkpoint st = Some k -> (removed_problem latest st = [] \/ problems <> []) ->
  exists k', known_checkpoint (o_state (conclude e key latest anchor boundary full report problems st status)) = Some k' /\ k <= k'.
Proof.
  intros Hk Hrem. unfold conclude. destruct (problems ++ _) as [|x l] eqn:E; [|cbn; eauto with lia].
  apply app_nil in E as [-> _]. destruct Hrem as [Hrem|?]; [|done].
  destruct (removed_problem_nil _ _ _ Hrem Hk) as (cp & mac & -> & Hle).
  destruct (r_head report) as [h|]; [|cbn; eauto with lia].
  destruct (head_id h <=? head_id (cp_head cp)) eqn:Eh; b2p; [cbn; eauto with lia|].
  destruct (e_db e SInsert); [|cbn; eauto with lia].
  destruct (match e_anchor_path e with Some _ => _ | None => _ end). cbn. eauto with lia.
Qed.

(** What the process remembers of checkpoints is never forgotten:
    whatever the database, the anchor file and the failing queries, a run
    leaves [known_checkpoint] at or above its value; and when the database
    holds no checkpoint under the key as new as the remembered one, the run
    fails or reports a problem. *)
Lemma known_checkpoint_kept e st status k :
  known_checkpoint st = Some k ->
  (exists k', known_checkpoint (o_state (run e st status)) = Some k' /\ k <= k') /\
  ((forall key d cp mac, key_from_env (e_key_var e) (e_jwt_secret e) = Some key -> e_db e SLatest = Some d ->
      latest_checkpoint d key = Some (cp, mac) -> head_id (cp_head cp) < k) ->
   ~ silent (run e st status)).
Proof.
  intros Hk. split.
  - unfold run. destruct (key_from_env _ _) as [key|]; [|cbn; eauto with lia].
    destruct (e_acquired e); [|cbn; eauto with lia]. destruct (e_db e SFirstV2) as [d0|]; [|cbn; eauto with lia].
    destruct (e_db e SLatest) as [d1|]; [|cbn; eauto with lia]. destruct (read_anchor e) as [anchor unreadable].
    destruct (anchor_phase e key anchor st) as [[st1 anchored]|] eqn:Ea; [|cbn; eauto with lia].
    apply anchor_phase_state in Ea as (_ & _ & Hk1). rewrite Hk in Hk1. destruct Hk1 as (k1 & Hk1 & Hle1).
    destruct (checkpoint_phase _ _ _ _ _) as [[[[start boundary] st2] found]|] eqn:Ec; [|cbn; eauto with lia].
    assert (exists k2, known_checkpoint st2 = Some k2 /\ k1 <= k2) as (k2 & Hk2 & Hle2).
    { unfold checkpoint_phase in Ec. destruct (latest_checkpoint d1 key) as [[cp mac]|]; [|injection Ec as <- <- <- <-; eauto with lia].
      apply result_bind_Ok in Ec as (f & _ & Ec). destruct f; injection Ec as <- <- <- <-; [|eauto with lia].
      cbn [set_known known_checkpoint]. rewrite Hk1. cbn. eauto with lia. }
    assert (exists k', Some k2 = Some k' /\ k <= k') as Hdone by eauto with lia. rewrite <- Hk2 in Hdone.
    destruct (e_walk_ok e); [|done]. destruct (verify _ _ _ _) as [[q report]|]; [|done].
    edestruct (conclude_known e key (latest_checkpoint d1 key) anchor boundary) as (k' & -> & ?); [exact Hk2| |eauto with lia].
    destruct (removed_problem (latest_checkpoint d1 key) st2) as [|x l]; [by left|right].
    intros Hnil. apply app_nil in Hnil as [_ Hnil]. apply app_nil in Hnil as [_ Hnil]. by apply app_nil in Hnil as [_ ?].
  - intros Hold Hsil. apply run_silent_inv in Hsil as (key & d0 & d1 & anchor & st1 & start & boundary & st2 & q & report &
      Hkey & _ & Hd1 & Ha & Hc & Hrem & _ & _).
    apply anchor_phase_state in Ha as (_ & _ & Hk1). rewrite Hk in Hk1. destruct Hk1 as (k1 & Hk1 & Hle1).
    apply checkpoint_phase_inv in Hc as (_ & _ & Hk2 & _). rewrite Hk1 in Hk2. destruct Hk2 as (k2 & Hk2 & Hle2).
    destruct (removed_problem_nil _ _ _ Hrem Hk2) as (cp & mac & Hl & Hle3).
    specialize (Hold key d1 cp mac Hkey Hd1 Hl). lia.
Qed.

(** ** No false alarm *)

(** Rows appended by [audit_append]. *)
Inductive appended (t : table) : table -> Prop :=
| appended_none : appended t t
| appended_one u seq at_ user action details :
    appended t u -> 0 < seq -> Forall (fun r => row_id r < seq) u ->
    appended t (audit_append seq at_ user action details u).

Lemma appended_spec t u : appended t u -> intact t -> intact u /\ t `prefix_of` u.
Proof.
  induction 1 as [|u seq at_ user action details Ha IH Hseq Hlt]; intros Hi; [done|].
  destruct (IH Hi) as [Hu Hp]. split; [by apply audit_append_intact|]. etrans; [done|]. by eexists.
Qed.

(** The database, the anchor file and the process. *)
Record world := mk_world { w_db : db; w_file : bytes; w_state : VerifierState; w_status : VerifierStatus }.

Definition apply_effect (d : db * bytes) (f : effect) : db * bytes :=
  match f with
  | InsertCheckpoint c => (mk_db (audit_logs (fst d)) (audit_checkpoints (fst d) ++ [c]), snd d)
  | AppendAnchor line => (fst d, snd d ++ line)
  | LogIntegrityFailed _ => d
  end.

(** A run of the process while the table grows from [w]'s to [u]: each query
    fails or sees some moment in between, Vault never rejects a signature,
    and an append to the anchor file succeeds or writes nothing. *)
Record honest (key : CheckpointKey) (w : world) (u : table) (e : Env) : Prop := {
  h_key : key_from_env (e_key_var e) (e_jwt_secret e) = Some key;
  h_db s d : e_db e s = Some d -> audit_logs (w_db w) `prefix_of` audit_logs d /\ audit_logs d `prefix_of` u /\
    audit_checkpoints d = audit_checkpoints (w_db w);
  h_tables k : audit_logs (w_db w) `prefix_of` e_tables e k /\ e_tables e k `prefix_of` u /\
    e_tables e k `prefix_of` e_tables e (S k);
  h_file : e_anchor_file e = Contents (w_file w) \/ e_anchor_file e = NotFound /\ w_file w = [];
  h_vault v m sig : e_vault e = Some v -> vault_verify v m sig <> Ok false;
  h_append : e_append e = None \/ e_append e = Some 0%nat;
  h_lines line : AppendAnchor line ∈ o_effects (run e (w_state w) (w_status w)) -> (length line <= 64 * 1024)%nat
}.

Inductive wstep (key : CheckpointKey) (w : world) : world -> Prop :=
| WAppend u : appended (audit_logs (w_db w)) u ->
    wstep key w (mk_world (mk_db u (audit_checkpoints (w_db w))) (w_file w) (w_state w) (w_status w))
| WRun u e : appended (audit_logs (w_db w)) u -> honest key w u e ->
    let o := run e (w_state w) (w_status w) in
    let d := fold_left apply_effect (o_effects o) (mk_db u (audit_checkpoints (w_db w)), w_file w) in
    wstep key w (mk_world (fst d) (snd d) (o_state o) (o_status o)).

Definition row_checkpoint (c : cp_row) : Checkpoint := mk_checkpoint (mk_head (c_last_id c) (c_last_hash c)) (c_first_v2 c).

(** A checkpoint names a row of the table and its v2 boundary, if it had one. *)
Definition names_row (t : table) (cp : Checkpoint) : Prop :=
  (exists r, r ∈ t /\ row_id r = head_id (cp_head cp) /\ current_hash r = head_hash (cp_head cp)) /\
  (cp_first_v2 cp = None \/ cp_first_v2 cp = first_v2 t).

Definition latest_id (key : CheckpointKey) (d : db) : option Z :=
  (fun c => head_id (cp_head (fst c))) <$> latest_checkpoint d key.

Definition anchor_good (key : CheckpointKey) (d : db) (a : Anchor) : Prop :=
  names_row (audit_logs d) (anchor_checkpoint a) /\ a_key_id a = ck_id key /\
  a_mac a = key_sign key (anchor_checkpoint a) /\
  exists n, latest_id key d = Some n /\ a_last_id a <= n.

Definition file_good (key : CheckpointKey) (d : db) (file : bytes) : Prop :=
  (file = [] \/ exists c, file = c ++ [10]) /\
  forall bad_json, match last_anchor bad_json (Contents file) with
    | Ok None => True
    | Ok (Some a) => anchor_good key d a
    | Err _ => False
    end.

Record world_ok (key : CheckpointKey) (w : world) : Prop := {
  ok_intact : intact (audit_logs (w_db w));
  ok_checkpoints : Forall (fun c => c_key_id c = ck_id key -> names_row (audit_logs (w_db w)) (row_checkpoint c) /\
    c_mac c = key_sign key (row_checkpoint c)) (audit_checkpoints (w_db w));
  ok_known k : known_checkpoint (w_state w) = Some k -> exists n, latest_id key (w_db w) = Some n /\ k <= n;
  ok_file : file_good key (w_db w) (w_file w);
  ok_alarm : alarm (w_state w) = [];
  ok_problems : vs_problems (w_status w) = []
}.

Lemma first_v2_prefix t u b : t `prefix_of` u -> first_v2 t = Some b -> first_v2 u = Some b.
Proof. intros [k ->] Hf. by rewrite first_v2_app, Hf. Qed.

Lemma names_row_mono t u cp : t `prefix_of` u -> names_row t cp -> names_row u cp.
Proof.
  intros Hp [(r & Hr & Hid) Hv]. split.
  - exists r. split; [|done]. destruct Hp as [k ->]. apply elem_of_app. by left.
  - destruct Hv as [Hv|Hv]; [by left|]. destruct (first_v2 t) as [b|] eqn:Eb; [right|by left].
    by rewrite (first_v2_prefix t u b).
Qed.

Lemma lookup_row t r : sorted t -> r ∈ t -> head (filter (fun s => row_id s = row_id r) t) = Some r.
Proof.
  intros Hs Hin. destruct (filter (fun s => row_id s = row_id r) t) as [|x l] eqn:E.
  { exfalso. by eapply filter_nil_not_elem_of. }
  assert (x ∈ x :: l) as Hx by left. rewrite <- E in Hx. apply list_elem_of_filter in Hx as [Hxid Hx]. cbn. f_equal.
  apply list_elem_of_split in Hin as (l1 & l2 & ->). apply sorted_app in Hs as (_ & Hs & Hlt).
  apply elem_of_app in Hx as [Hx|Hx]; [specialize (Hlt x r Hx ltac:(left)); lia|].
  apply elem_of_cons in Hx as [->|Hx]; [done|]. inversion_clear Hs as [|? ? _ Hf]. rewrite Forall_forall in Hf.
  apply Hf in Hx. lia.
Qed.

(** A query result that extends the table of [w]. *)
Definition extends (t : table) (o : option db) : Prop :=
  forall d, o = Some d -> t `prefix_of` audit_logs d /\ sorted (audit_logs d).

Lemma rows_good t o1 o2 cp :
  extends t o1 -> extends t o2 -> names_row t cp ->
  check_checkpoint_rows o1 o2 cp = Ok [] \/ check_checkpoint_rows o1 o2 cp = Err Sql.
Proof.
  intros Ho1 Ho2 Hn. unfold check_checkpoint_rows. destruct o1 as [d|]; [|by right]. cbn [ok_or mbind result_bind].
  destruct (Ho1 d eq_refl) as [Hp Hs]. destruct (names_row_mono _ _ _ Hp Hn) as [(r & Hr & Hid & Hh) _].
  rewrite <- Hid, (lookup_row _ _ Hs Hr). cbn [fmap option_fmap option_map]. rewrite bool_decide_true by done.
  destruct (cp_first_v2 cp) as [b|] eqn:Eb; [|by left]. destruct o2 as [d2|]; [|by right]. cbn [ok_or mbind result_bind].
  destruct (Ho2 d2 eq_refl) as [Hp2 Hs2]. destruct (names_row_mono _ _ _ Hp2 Hn) as [_ [Hv|Hv]]; [congruence|].
  rewrite bool_decide_true by congruence. by left.
Qed.

Lemma checkpoint_good t o1 o2 key cp :
  extends t o1 -> extends t o2 -> names_row t cp ->
  check_checkpoint o1 o2 key cp (key_sign key cp) = Ok [] \/ check_checkpoint o1 o2 key cp (key_sign key cp) = Err Sql.
Proof.
  intros. unfold check_checkpoint. rewrite (proj2 (key_sign_verify key cp cp)) by done. by eapply rows_good.
Qed.

Lemma chain_ok_forget v e rows : chain_ok v e rows -> chain_ok None e rows.
Proof.
  revert e. induction rows as [|r rows IH]; intros e; [done|]. intros [Hr Hc]. split; [|by apply IH].
  destruct Hr as [_ Hd]. split; [by left|]. destruct Hd as [?|[? _]]; [by left|by right].
Qed.

(** A walk over the growing table finds nothing, from the start or from a
    checkpointed row. *)
Lemma walk_clean tables t u fuel from v k rep :
  intact u -> grows tables -> (forall k, t `prefix_of` tables k /\ tables k `prefix_of` u) ->
  (v = None \/ v = first_v2 u) ->
  (from = None \/ exists h, from = Some h /\ exists r, r ∈ t /\ row_id r = head_id h /\ current_hash r = head_hash h) ->
  verify fuel tables from v = Some (k, rep) ->
  r_breaks rep = [] /\
  (forall h, r_head rep = Some h -> from = Some h \/ exists r, r ∈ u /\ row_id r = head_id h /\ current_hash r = head_hash h).
Proof.
  intros (Hsu & Hpu & Hcu) Hg Hbetween Hv Hfrom Hrun. apply verify_loop_pass in Hrun as [_ ->]; [|done].
  destruct (Hbetween k) as [Htk Hku]. pose proof (sorted_prefix _ _ Hsu Hku) as Hsk.
  assert (chain_ok v [] (tables k)) as Hck.
  { destruct Hku as [x Hx]. rewrite Hx in Hcu. apply chain_ok_app in Hcu as [Hcu _]. rewrite <- Hx in Hcu.
    destruct Hv as [->| ->]; [by eapply chain_ok_forget|done]. }
  set (rows := filter (fun r => verify_after from < row_id r) (tables k)) in *.
  destruct (verify_rows_spec v (verify_init from) rows) as (Hb & _ & _ & Hh). split.
  - apply Hb. split; [done|]. destruct Hfrom as [->|(h & -> & r & Hr & Hid & Hhash)].
    + unfold rows, verify_after, verify_init. cbn [from_option fst]. rewrite filter_pos; [done|].
      apply Forall_forall. intros r Hr. rewrite Forall_forall in Hpu. apply Hpu. destruct Hku as [x ->]. apply elem_of_app. by left.
    + assert (r ∈ tables k) as Hrk by (destruct Htk as [x ->]; apply elem_of_app; by left).
      apply list_elem_of_split in Hrk as (l1 & l2 & Hl).
      assert (tables k = (l1 ++ [r]) ++ rows) as Hsplit.
      { unfold rows, verify_after. cbn [from_option]. rewrite <- Hid. apply (last_cut _ (l1 ++ [r]) r); [done| |apply last_snoc].
        exists l2. rewrite Hl, <- (assoc_L (++)). done. }
      rewrite Hsplit in Hck. apply chain_ok_app in Hck as [_ Hck]. unfold chain_end in Hck. rewrite last_snoc in Hck.
      cbn in *. by rewrite <- Hhash.
  - intros h. rewrite Hh. destruct (last rows) as [r|] eqn:El; cbn; [|by left]. intros [= <-]. right. exists r. cbn.
    split; [|done]. apply last_Some in El as [l El]. assert (r ∈ rows) as Hr by (rewrite El; apply elem_of_app; right; left).
    apply list_elem_of_filter in Hr as [_ Hr]. destruct Hku as [x ->]. apply elem_of_app. by left.
Qed.

Lemma latest_checkpoint_ext d d' key :
  audit_checkpoints d = audit_checkpoints d' -> latest_checkpoint d key = latest_checkpoint d' key.
Proof. unfold latest_checkpoint. by intros ->. Qed.

Lemma latest_checkpoint_snoc t cs c key :
  c_key_id c = ck_id key -> latest_checkpoint (mk_db t (cs ++ [c])) key = Some (row_checkpoint c, c_mac c).
Proof.
  intros Hc. unfold latest_checkpoint. cbn [audit_checkpoints]. rewrite filter_app, filter_cons_True, filter_nil by done.
  by rewrite last_snoc.
Qed.

Lemma latest_good key w cp mac :
  world_ok key w -> latest_checkpoint (w_db w) key = Some (cp, mac) ->
  names_row (audit_logs (w_db w)) cp /\ mac = key_sign key cp.
Proof.
  intros Hok Hl. unfold latest_checkpoint in Hl. apply bind_Some in Hl as (c & Hc & [= <- <-]).
  apply last_Some in Hc as [l Hc].
  assert (c ∈ filter (fun c => c_key_id c = ck_id key) (audit_checkpoints (w_db w))) as Hin by (rewrite Hc; apply elem_of_app; right; left).
  apply list_elem_of_filter in Hin as [Hk Hin]. pose proof (ok_checkpoints _ _ Hok) as Hf. rewrite Forall_forall in Hf.
  by apply Hf.
Qed.

Lemma file_good_mono key d d' file :
  audit_logs d `prefix_of` audit_logs d' ->
  (forall n, latest_id key d = Some n -> exists n', latest_id key d' = Some n' /\ n <= n') ->
  file_good key d file -> file_good key d' file.
Proof.
  intros Hp Hid [He Ha]. split; [done|]. intros bj. specialize (Ha bj).
  destruct (last_anchor bj (Contents file)) as [[a|]|]; [|done..].
  destruct Ha as (Hn & Hk & Hm & n & Hl & Hle). destruct (Hid n Hl) as (n' & Hl' & ?).
  split_and!; [by eapply names_row_mono|done..|]. exists n'. split; [done|lia].
Qed.

(** Rows were appended and nothing else was written. *)
Lemma world_frame key w u st status :
  world_ok key w -> appended (audit_logs (w_db w)) u -> alarm st = [] -> vs_problems status = [] ->
  (forall k, known_checkpoint st = Some k -> exists n, latest_id key (w_db w) = Some n /\ k <= n) ->
  world_ok key (mk_world (mk_db u (audit_checkpoints (w_db w))) (w_file w) st status).
Proof.
  intros Hok Ha Hal Hpr Hk. destruct (appended_spec _ _ Ha (ok_intact _ _ Hok)) as [Hi Hp].
  assert (latest_id key (mk_db u (audit_checkpoints (w_db w))) = latest_id key (w_db w)) as Hlat
    by (unfold latest_id; by rewrite (latest_checkpoint_ext _ (w_db w))).
  constructor; cbn [w_db w_file w_state w_status audit_logs audit_checkpoints]; try done.
  - eapply Forall_impl; [exact (ok_checkpoints _ _ Hok)|]. cbn beta. intros c Hc Hid. destruct (Hc Hid).
    split; [by eapply names_row_mono|done].
  - eapply file_good_mono; [exact Hp| |exact (ok_file _ _ Hok)]. intros n Hn. exists n. rewrite Hlat. done.
Qed.

(** A checkpoint of a row of [u] was inserted, and perhaps anchored. *)
Lemma world_insert `{!JsonText Anchor} key w u st status cp line :
  world_ok key w -> appended (audit_logs (w_db w)) u -> alarm st = [] -> vs_problems status = [] ->
  names_row u cp -> (forall n, latest_id key (w_db w) = Some n -> n <= head_id (cp_head cp)) ->
  (forall k, known_checkpoint st = Some k -> k <= head_id (cp_head cp)) ->
  (line = [] \/ (length line <= 64 * 1024)%nat /\ exists a, anchor_line a = Some line /\ anchor_checkpoint a = cp /\
     a_key_id a = ck_id key /\ a_mac a = key_sign key cp) ->
  let c := mk_cp_row (head_id (cp_head cp)) (head_hash (cp_head cp)) (cp_first_v2 cp) (ck_id key) (key_sign key cp) in
  world_ok key (mk_world (mk_db u (audit_checkpoints (w_db w) ++ [c])) (w_file w ++ line) st status).
Proof.
  intros Hok Ha Hal Hpr Hn Hlat Hk Hline c. destruct (appended_spec _ _ Ha (ok_intact _ _ Hok)) as [Hi Hp].
  assert (row_checkpoint c = cp) as Hc by (by destruct cp as [[]]).
  assert (latest_id key (mk_db u (audit_checkpoints (w_db w) ++ [c])) = Some (head_id (cp_head cp))) as Hnew
    by (unfold latest_id; rewrite latest_checkpoint_snoc by done; by rewrite Hc).
  constructor; cbn [w_db w_file w_state w_status audit_logs audit_checkpoints]; try done.
  - apply Forall_app. split.
    + eapply Forall_impl; [exact (ok_checkpoints _ _ Hok)|]. cbn beta. intros x Hx Hid. destruct (Hx Hid).
      split; [by eapply names_row_mono|done].
    + constructor; [|constructor]. intros _. by rewrite Hc.
  - intros k Hk'. rewrite Hnew. eexists. split; [done|]. by apply Hk.
  - destruct Hline as [->|(Hlen & a & Hl & Hcp & Hid & Hm)].
    + rewrite app_nil_r. eapply file_good_mono; [exact Hp| |exact (ok_file _ _ Hok)].
      intros n Hn'. rewrite Hnew. eexists. split; [done|]. by apply Hlat.
    + split.
      * right. apply fmap_Some in Hl as (js & _ & ->). exists (w_file w ++ js). by rewrite (assoc_L (++)).
      * intros bj. rewrite (anchor_line_read bj a) by (done || apply (ok_file _ _ Hok)).
        split_and!; [by rewrite Hcp|done|by rewrite Hcp|]. rewrite Hnew. eexists. split; [done|]. by rewrite <- Hcp.
Qed.

Lemma conclude_honest `{!JsonText Anchor} key w u e st anchor boundary full report status :
  world_ok key w -> appended (audit_logs (w_db w)) u -> alarm st = [] ->
  (forall k, known_checkpoint st = Some k -> exists n, latest_id key (w_db w) = Some n /\ k <= n) ->
  (boundary = None \/ boundary = first_v2 u) -> r_breaks report = [] -> vs_problems status = [] ->
  (forall h, r_head report = Some h -> (exists cp mac, latest_checkpoint (w_db w) key = Some (cp, mac) /\ h = cp_head cp) \/
     exists r, r ∈ u /\ row_id r = head_id h /\ current_hash r = head_hash h) ->
  (e_append e = None \/ e_append e = Some 0%nat) ->
  let o := conclude e key (latest_checkpoint (w_db w) key) anchor boundary full report [] st status in
  (forall line, AppendAnchor line ∈ o_effects o -> (length line <= 64 * 1024)%nat) ->
  let d := fold_left apply_effect (o_effects o) (mk_db u (audit_checkpoints (w_db w)), w_file w) in
  world_ok key (mk_world (fst d) (snd d) (o_state o) (o_status o)).
Proof.
  intros Hok Ha Hal Hk Hbd Hbr Hst Hh Happ. unfold conclude. rewrite Hbr. cbn [fmap list_fmap app].
  destruct (r_head report) as [h|] eqn:Er; [|intros _; by apply world_frame].
  destruct (match latest_checkpoint (w_db w) key with Some (cp, _) => _ | None => false end) eqn:Enew;
    [intros _; by apply world_frame|].
  destruct (e_db e SInsert); [|intros _; by apply world_frame].
  assert (forall n, latest_id key (w_db w) = Some n -> n <= head_id h) as Hlat.
  { intros n. unfold latest_id. destruct (latest_checkpoint (w_db w) key) as [[cp mac]|]; [|done]. cbn.
    intros [= <-]. b2p. lia. }
  assert (names_row u (mk_checkpoint h boundary)) as Hn.
  { split; [|done]. destruct (Hh h eq_refl) as [(cp & mac & Hl & ->)|?]; [|done]. exfalso. rewrite Hl in Enew. b2p. lia. }
  assert (forall k, known_checkpoint (set_known (Some (head_id h))
    (mk_vstate (if full then Some (e_instant_end e) else last_full st) (known_checkpoint st) [])) = Some k -> k <= head_id h) as Hk'
    by (cbn; intros k [= <-]; lia).
  set (cp := mk_checkpoint h boundary). fold cp in Hn.
  pose proof (fun status line => world_insert key w u
    (set_known (Some (head_id h)) (mk_vstate (if full then Some (e_instant_end e) else last_full st) (known_checkpoint st) []))
    status cp line Hok Ha eq_refl) as Hins. cbn [cp cp_head cp_first_v2] in Hins.
  destruct (e_anchor_path e) as [path|] eqn:Ep.
  2:{ intros _. cbn. rewrite <- (app_nil_r (w_file w)). apply Hins; try done. by left. }
  unfold write_anchor. set (entry := mk_anchor _ _ _ _ _ _ _ _). destruct (anchor_line entry) as [line|] eqn:El.
  2:{ intros _. cbn. rewrite <- (app_nil_r (w_file w)). apply Hins; try done. by left. }
  destruct Happ as [-> | ->]; intros Hlen; cbn.
  - apply Hins; try done. right. split; [apply Hlen; right; left|]. exists entry. by destruct h.
  - rewrite take_0. apply Hins; try done. by left.
Qed.

Lemma anchor_honest key w e anchor st :
  world_ok key w -> (forall s, extends (audit_logs (w_db w)) (e_db e s)) ->
  (forall v m sig, e_vault e = Some v -> vault_verify v m sig <> Ok false) ->
  (forall a, anchor = Some a -> anchor_good key (w_db w) a) -> alarm st = [] ->
  (forall k, known_checkpoint st = Some k -> exists n, latest_id key (w_db w) = Some n /\ k <= n) ->
  anchor_phase e key anchor st = Err Sql \/
  exists st1, anchor_phase e key anchor st = Ok (st1, []) /\ alarm st1 = [] /\
    (forall k, known_checkpoint st1 = Some k -> exists n, latest_id key (w_db w) = Some n /\ k <= n).
Proof.
  intros Hok Hext Hvault Ha Hal Hk. unfold anchor_phase. destruct anchor as [a|]; [|right; by exists st].
  destruct (Ha a eq_refl) as (Hn & Hid & Hm & n & Hl & Hle). unfold check_anchor.
  rewrite bool_decide_true, Hm by done.
  destruct (checkpoint_good (audit_logs (w_db w)) (e_db e SAnchorRow) (e_db e SAnchorV2) key (anchor_checkpoint a)) as [-> | ->]; try done;
    [right|by left]. cbn [mbind result_bind fmap list_fmap]. rewrite app_nil_r.
  assert (match e_vault e, a_signature a with
    | Some v, Some sig => match vault_verify v (checkpoint_message (anchor_checkpoint a)) sig with
      | Ok true => [] | Ok false => [bad_signature_text (head_id (cp_head (anchor_checkpoint a)))] | Err _ => [] end
    | _, _ => [] end = []) as ->.
  { destruct (e_vault e) as [v|] eqn:Ev; [|done]. destruct (a_signature a) as [sig|]; [|done].
    specialize (Hvault v (checkpoint_message (anchor_checkpoint a)) sig eq_refl).
    by destruct (vault_verify v _ sig) as [[]|]. }
  eexists. split; [done|]. split; [done|]. cbn. intros k. destruct (known_checkpoint st) as [k0|] eqn:Ek; cbn.
  - destruct (Hk k0 eq_refl) as (n' & Hl' & Hle'). rewrite Hl in Hl'. injection Hl' as <-. intros [= <-]. exists n. split; [done|lia].
  - intros [= <-]. by exists n.
Qed.

Lemma checkpoint_honest key w u e st boundary0 :
  world_ok key w -> audit_logs (w_db w) `prefix_of` u -> (forall s, extends (audit_logs (w_db w)) (e_db e s)) ->
  (boundary0 = None \/ boundary0 = first_v2 u) -> alarm st = [] ->
  (forall k, known_checkpoint st = Some k -> exists n, latest_id key (w_db w) = Some n /\ k <= n) ->
  checkpoint_phase e key (latest_checkpoint (w_db w) key) boundary0 st = Err Sql \/
  exists start boundary st2,
    checkpoint_phase e key (latest_checkpoint (w_db w) key) boundary0 st = Ok (start, boundary, st2, []) /\
    (start = None \/ exists cp mac, latest_checkpoint (w_db w) key = Some (cp, mac) /\ start = Some (cp_head cp) /\
       exists r, r ∈ audit_logs (w_db w) /\ row_id r = head_id (cp_head cp) /\ current_hash r = head_hash (cp_head cp)) /\
    (boundary = None \/ boundary = first_v2 u) /\ alarm st2 = [] /\
    (forall k, known_checkpoint st2 = Some k -> exists n, latest_id key (w_db w) = Some n /\ k <= n) /\
    removed_problem (latest_checkpoint (w_db w) key) st2 = [].
Proof.
  intros Hok Hp Hext Hb0 Hal Hk. unfold checkpoint_phase.
  destruct (latest_checkpoint (w_db w) key) as [[cp mac]|] eqn:El.
  - destruct (latest_good _ _ _ _ Hok El) as [Hn ->].
    destruct (checkpoint_good (audit_logs (w_db w)) (e_db e SCheckpointRow) (e_db e SCheckpointV2) key cp) as [-> | ->]; try done;
      [right|by left]. cbn [mbind result_bind].
    assert (latest_id key (w_db w) = Some (head_id (cp_head cp))) as Hlat by (unfold latest_id; by rewrite El).
    assert (option_max (known_checkpoint st) (Some (head_id (cp_head cp))) = Some (head_id (cp_head cp))) as Hmax.
    { destruct (known_checkpoint st) as [k|] eqn:Ek; [|done]. destruct (Hk k eq_refl) as (n & Hl & Hle).
      rewrite Hlat in Hl. injection Hl as <-. cbn. f_equal. lia. }
    rewrite Hmax. do 3 eexists. split; [done|]. split_and!.
    + right. exists cp, (key_sign key cp). split_and!; [done..|]. apply Hn.
    + destruct (cp_first_v2 cp) as [b|] eqn:Eb; [|done]. right. destruct (names_row_mono _ _ _ Hp Hn) as [_ [Hv|Hv]]; congruence.
    + done.
    + cbn. intros k [= <-]. rewrite Hlat. eauto with lia.
    + unfold removed_problem. cbn [set_known known_checkpoint]. by take_false (head_id (cp_head cp) <? head_id (cp_head cp)).
  - right. do 3 eexists. split; [done|]. split_and!; try done; [by left|].
    unfold removed_problem. destruct (known_checkpoint st) as [k|] eqn:Ek; [|done].
    destruct (Hk k eq_refl) as (n & Hl & _). unfold latest_id in Hl. by rewrite El in Hl.
Qed.

Lemma checkpoint_good_db d key cp :
  names_row (audit_logs d) cp -> sorted (audit_logs d) ->
  check_checkpoint (Some d) (Some d) key cp (key_sign key cp) = Ok [].
Proof.
  intros Hn Hs. assert (extends (audit_logs d) (Some d)) as He by (intros ? [= <-]; done).
  destruct (checkpoint_good (audit_logs d) (Some d) (Some d) key cp) as [?|Hbad]; [done..|]. exfalso. revert Hbad.
  unfold check_checkpoint. case_match; [|done]. unfold check_checkpoint_rows. cbn [ok_or mbind result_bind].
  repeat case_match; done.
Qed.

Lemma read_anchor_honest key w u e anchor unreadable :
  world_ok key w -> honest key w u e -> read_anchor e = (anchor, unreadable) ->
  unreadable = [] /\ (forall a, anchor = Some a -> anchor_good key (w_db w) a).
Proof.
  intros Hok Hh Era. unfold read_anchor in Era. destruct (e_anchor_path e); [|injection Era as <- <-; done].
  destruct (ok_file _ _ Hok) as [_ Hf]. specialize (Hf (e_bad_json e)).
  destruct (h_file _ _ _ _ Hh) as [Hfile|[Hfile _]]; rewrite Hfile in Era; [|injection Era as <- <-; done].
  destruct (last_anchor (e_bad_json e) (Contents (w_file w))) as [[a|]|]; injection Era as <- <-; try done.
  split; [done|]. by intros a' [= <-].
Qed.

Lemma run_honest `{!JsonText Anchor} key w u e :
  world_ok key w -> appended (audit_logs (w_db w)) u -> honest key w u e ->
  let o := run e (w_state w) (w_status w) in
  let d := fold_left apply_effect (o_effects o) (mk_db u (audit_checkpoints (w_db w)), w_file w) in
  world_ok key (mk_world (fst d) (snd d) (o_state o) (o_status o)).
Proof.
  intros Hok Ha Hh. pose proof (h_lines _ _ _ _ Hh) as Hlines. revert Hlines. unfold run.
  destruct (appended_spec _ _ Ha (ok_intact _ _ Hok)) as [Hi Hp].
  assert (forall s, extends (audit_logs (w_db w)) (e_db e s)) as Hext.
  { intros s d Hd. destruct (h_db _ _ _ _ Hh s d Hd) as (? & ? & _). split; [done|]. eapply sorted_prefix; [apply Hi|done]. }
  rewrite (h_key _ _ _ _ Hh).
  assert (forall st, alarm st = [] -> (forall k, known_checkpoint st = Some k -> exists n, latest_id key (w_db w) = Some n /\ k <= n) ->
    world_ok key (mk_world (mk_db u (audit_checkpoints (w_db w))) (w_file w) st (w_status w))) as Hframe.
  { intros st Hal Hk. apply world_frame; try done. apply Hok. }
  assert (world_ok key (mk_world (mk_db u (audit_checkpoints (w_db w))) (w_file w) (w_state w) (w_status w))) as Hsame
    by (apply Hframe; apply Hok).
  destruct (e_acquired e); [|done]. destruct (e_db e SFirstV2) as [d0|] eqn:E0; [|done].
  destruct (e_db e SLatest) as [d1|] eqn:E1; [|done].
  destruct (h_db _ _ _ _ Hh _ _ E0) as (_ & Hd0 & _). destruct (h_db _ _ _ _ Hh _ _ E1) as (_ & _ & Hd1).
  rewrite (latest_checkpoint_ext d1 (w_db w) key Hd1). destruct (read_anchor e) as [anchor unreadable] eqn:Era.
  destruct (read_anchor_honest key w u e anchor unreadable) as [-> Hanchor]; [done..|].
  destruct (anchor_honest key w e anchor (w_state w)) as [Hap|(st1 & Hap & Hal1 & Hk1)]; try done; [apply Hh|apply Hok|apply Hok|rewrite Hap|rewrite Hap]; [done|].
  destruct (checkpoint_honest key w u e st1 (first_v2 (audit_logs d0))) as [Hcp|(start & boundary & st2 & Hcp & Hst & Hbd & Hal2 & Hk2 & Hrem)];
    try done; [|rewrite Hcp|rewrite Hcp].
  { destruct (first_v2 (audit_logs d0)) as [b|] eqn:Eb; [right|by left]. symmetry. by eapply first_v2_prefix. }
  { intros _. by apply Hframe. }
  rewrite Hrem. cbn [app].
  destruct (e_walk_ok e); [|intros _; by apply Hframe].
  destruct (verify _ _ _ _) as [[k report]|] eqn:Ev; [|intros _; by apply Hframe].
  intros Hlen. apply walk_clean with (t := audit_logs (w_db w)) (u := u) in Ev as [Hb Hhead]; try done.
  - apply conclude_honest; try done; [apply Hok| |apply Hh].
    intros h Hr. destruct (Hhead h Hr) as [Hs|?]; [left|by right].
    destruct (is_full e [] st2); [done|]. destruct Hst as [->|(cp & mac & Hl & -> & _)]; [done|]. injection Hs as <-. eauto.
  - split; intros j; destruct (h_tables _ _ _ _ Hh j) as (_ & ? & ?); [|done]. eapply sorted_prefix; [apply Hi|done].
  - intros j. by destruct (h_tables _ _ _ _ Hh j) as (? & ? & _).
  - destruct (is_full e [] st2); [by left|]. destruct Hst as [->|(cp & mac & Hl & -> & Hr)]; [by left|right]. by eexists.
Qed.

Definition fresh_status : VerifierStatus := mk_vstatus None [] None None.

(** A process started on an intact table, before the first checkpoint. *)
Definition fresh (t : table) : world := mk_world (mk_db t []) [] (mk_vstate None None []) fresh_status.

Lemma fresh_ok key t : intact t -> world_ok key (fresh t).
Proof. intros Hi. constructor; try done. split; [by left|]. done. Qed.

Lemma wsteps_ok `{!JsonText Anchor} key w w' : rtc (wstep key) w w' -> world_ok key w -> world_ok key w'.
Proof.
  induction 1 as [|w1 w2 w3 Hs _ IH]; intros Hok; [done|]. apply IH. destruct Hs as [u Ha|u e Ha Hh].
  - apply world_frame; try done; apply Hok.
  - by apply run_honest.
Qed.

(** C27: no false alarm.  From an intact table (legacy rows included), let
    events be appended and the verifier run in any order and any number of
    times, incremental and full, with appends landing between any two queries
    of a run, queries failing, the anchor file and Vault in use or not.
    Then no run ever reports a problem, the alarm stays clear, and the
    table stays intact. *)
Theorem no_false_alarm `{!JsonText Anchor} key t w :
  intact t -> rtc (wstep key) (fresh t) w ->
  alarm (w_state w) = [] /\ vs_problems (w_status w) = [] /\ intact (audit_logs (w_db w)).
Proof. intros Hi Hs. assert (world_ok key w) as Hok; [|split_and!; apply Hok]. eapply wsteps_ok; [done|by apply fresh_ok]. Qed.

(** A walk over the whole table, or from a row of it, ends at the newest row. *)
Lemma walk_head tables t fuel from v k rep :
  intact t -> (forall k, tables k = t) ->
  (from = None \/ exists h r, from = Some h /\ r ∈ t /\ row_id r = head_id h) ->
  verify fuel tables from v = Some (k, rep) ->
  forall r, r ∈ t -> exists h, r_head rep = Some h /\ row_id r <= head_id h.
Proof.
  intros (Hs & Hpos & _) Htab Hfrom Hrun r Hr. apply verify_loop_pass in Hrun as [_ ->].
  2:{ split; intros j; rewrite !Htab; done. }
  rewrite Htab. set (rows := filter (fun r => verify_after from < row_id r) t) in *.
  destruct (verify_rows_spec v (verify_init from) rows) as (_ & _ & _ & ->).
  destruct (last rows) as [x|] eqn:El; cbn.
  - eexists. split; [done|]. cbn. destruct (decide (verify_after from < row_id r)) as [Hlt|Hge].
    + assert (r ∈ rows) as Hin by (by apply list_elem_of_filter). apply last_Some in El as [l El]. rewrite El in Hin.
      apply elem_of_app in Hin as [Hin|Hin%list_elem_of_singleton]; [|subst; lia].
      assert (sorted rows) as Hsr by by apply sorted_filter. rewrite El in Hsr. apply sorted_app in Hsr as (_ & _ & Hlt').
      specialize (Hlt' r x Hin ltac:(left)). lia.
    + assert (x ∈ rows) as Hx by (apply last_Some in El as [l ->]; apply elem_of_app; right; left).
      apply list_elem_of_filter in Hx as [? _]. lia.
  - apply last_None in El. assert (row_id r <= verify_after from) as Hle.
    { destruct (decide (verify_after from < row_id r)); [|lia]. assert (r ∈ rows) as Hin by (by apply list_elem_of_filter). rewrite El in Hin. by apply not_elem_of_nil in Hin. }
    destruct Hfrom as [->|(h & r' & -> & _)]; [|eexists; split; [done|exact Hle]].
    rewrite Forall_forall in Hpos. specialize (Hpos r Hr). cbn in Hle. lia.
Qed.

Lemma conclude_covers key latest anchor boundary full report st status e d cs file :
  r_breaks report = [] -> is_Some (e_db e SInsert) -> latest_checkpoint (mk_db d cs) key = latest ->
  forall h, r_head report = Some h ->
  let o := conclude e key latest anchor boundary full report [] st status in
  exists n, latest_id key (fst (fold_left apply_effect (o_effects o) (mk_db d cs, file))) = Some n /\ head_id h <= n.
Proof.
  intros Hbr [x Hx] Hl h Hh. unfold conclude. rewrite Hbr, Hh, Hx. cbn [fmap list_fmap app].
  destruct (match latest with Some (cp, _) => _ | None => false end) eqn:Enew.
  - destruct latest as [[cp mac]|]; [|done]. b2p. exists (head_id (cp_head cp)). split; [|done].
    unfold latest_id. cbn [o_effects fold_left fst]. by rewrite Hl.
  - exists (head_id h). split; [|done].
    assert (forall writes f, Forall (fun g => exists line, g = AppendAnchor line) writes -> forall c, c_key_id c = ck_id key ->
      latest_id key (fst (fold_left apply_effect (InsertCheckpoint c :: writes) (mk_db d cs, f))) = Some (c_last_id c)) as Hw.
    { intros writes f Hws c Hc. cbn [fold_left apply_effect fst snd audit_logs audit_checkpoints].
      assert (forall f D, fst (fold_left apply_effect writes (D, f)) = D) as ->.
      { induction Hws as [|g writes [line ->] _ IH]; intros f' D; [done|]. apply IH. }
      unfold latest_id. by rewrite latest_checkpoint_snoc. }
    destruct (e_anchor_path e) as [path|]; [|by apply Hw].
    unfold write_anchor. destruct (anchor_line _) as [line|]; [|by apply Hw].
    destruct (e_append e); apply Hw; try done; repeat constructor; by eexists.
Qed.

(** Every run makes progress: when the queries succeed and the walk is
    allowed at least one query more than there are rows, a run leaves a
    checkpoint under the key at or above every row of the table. *)
Lemma run_covers `{!JsonText Anchor} key w e r :
  world_ok key w -> honest key w (audit_logs (w_db w)) e -> reads e (w_db w) -> e_acquired e = true -> e_walk_ok e = true ->
  (length (audit_logs (w_db w)) < e_fuel e)%nat -> r ∈ audit_logs (w_db w) ->
  let o := run e (w_state w) (w_status w) in
  exists n, latest_id key (fst (fold_left apply_effect (o_effects o) (w_db w, w_file w))) = Some n /\ row_id r <= n.
Proof.
  intros Hok Hh [Hdb Htab] Hacq Hwalk Hfuel Hr. cbv zeta. unfold run. rewrite (h_key _ _ _ _ Hh), Hacq, !Hdb, Hwalk.
  assert (forall s, extends (audit_logs (w_db w)) (e_db e s)) as Hext.
  { intros s d. rewrite Hdb. intros [= <-]. split; [done|]. apply (ok_intact _ _ Hok). }
  pose proof (ok_intact _ _ Hok) as Hi.
  destruct (read_anchor e) as [anchor unreadable] eqn:Era.
  destruct (read_anchor_honest key w (audit_logs (w_db w)) e anchor unreadable) as [-> Hanchor]; [done..|].
  destruct (anchor_honest key w e anchor (w_state w)) as [Hap|(st1 & Hap & Hal1 & Hk1)]; try done; [apply Hh|apply Hok|apply Hok|..].
  { exfalso. destruct anchor as [a|]; [|done]. cbn in Hap. destruct (Hanchor a eq_refl) as (Hn & Hid & Hm & _).
    unfold check_anchor in Hap. rewrite bool_decide_true, Hm, !Hdb in Hap by done.
    rewrite (checkpoint_good_db (w_db w)) in Hap by (done || apply Hi). discriminate. }
  rewrite Hap.
  destruct (checkpoint_honest key w (audit_logs (w_db w)) e st1 (first_v2 (audit_logs (w_db w)))) as
    [Hcp|(start & boundary & st2 & Hcp & Hst & Hbd & Hal2 & Hk2 & Hrem)]; try done; [by right|..].
  { exfalso. unfold checkpoint_phase in Hcp. destruct (latest_checkpoint (w_db w) key) as [[cp mac]|] eqn:El; [|done].
    destruct (latest_good _ _ _ _ Hok El) as [Hn ->]. rewrite !Hdb, (checkpoint_good_db (w_db w)) in Hcp by (done || apply Hi). discriminate. }
  rewrite Hcp, Hrem. cbn [app].
  destruct (verify _ _ _ _) as [[k report]|] eqn:Ev.
  2:{ exfalso. destruct (verify_loop_fuel (e_tables e) (audit_logs (w_db w)) 0 boundary
        (verify_after (if is_full e [] st2 then None else start)) (verify_init (if is_full e [] st2 then None else start)) (e_fuel e)) as [x Hx].
      - split; intros j; rewrite !Htab; [apply Hi|done].
      - apply Hi.
      - intros j. by rewrite Htab.
      - eapply Nat.le_lt_trans; [apply length_filter|done].
      - unfold verify in Ev. by rewrite Hx in Ev. }
  assert ((if is_full e [] st2 then None else start) = None \/ exists h x, (if is_full e [] st2 then None else start) = Some h /\
    x ∈ audit_logs (w_db w) /\ row_id x = head_id h /\ current_hash x = head_hash h) as Hfrom.
  { destruct (is_full e [] st2); [by left|]. destruct Hst as [->|(cp & mac & Hl & -> & x & Hx)]; [by left|right]. by eexists _, x. }
  pose proof Ev as Ev'. apply walk_clean with (t := audit_logs (w_db w)) (u := audit_logs (w_db w)) in Ev as [Hb _]; try done.
  2:{ split; intros j; rewrite !Htab; [apply Hi|done]. }
  2:{ intros j. by rewrite Htab. }
  2:{ destruct Hfrom as [?|(h & x & ? & ?)]; [by left|right; eauto]. }
  apply walk_head with (t := audit_logs (w_db w)) (r := r) in Ev' as (h & Hhd & Hle); try done.
  2:{ destruct Hfrom as [?|(h & x & ? & ? & ? & _)]; [by left|right; eauto]. }
  destruct (w_db w) as [logs cs] eqn:Ew.
  destruct (conclude_covers key (latest_checkpoint (mk_db logs cs) key) anchor boundary (is_full e [] st2) report st2 (w_status w) e logs cs
    (w_file w) Hb) with (h := h) as (n & Hn & Hle'); [by rewrite Hdb|done..|].
  exists n. split; [exact Hn|lia].
Qed.
End verifier.

(** ** Examples *)

Module VerifyExamples.
Import Reference ChainExamples.

Definition opt_field (o : option bytes) : bytes := match o with Some b => 1 :: b | None => [] end.
Definition field_opt (b : bytes) : option bytes := match b with 1 :: r => Some r | _ => None end.

Definition anchor_fields (a : Anchor) : list bytes :=
  [int_to_string (a_v a); a_at a; int_to_string (a_last_id a); a_last_hash a; opt_field (int_to_string <$> a_first_v2_id a);
   a_key_id a; a_mac a; opt_field (a_signature a)].

Definition fields_anchor (fs : list bytes) : option Anchor :=
  match fs with
  | [v; at_; id; hash; v2; key; mac; sig] =>
      v' ← parse_u8 v; id' ← parse_i64 id;
      Some (mk_anchor v' at_ id' hash (field_opt v2 ≫= parse_i64) key mac (field_opt sig))
  | _ => None
  end.

#[local] Instance anchor_json : Json Anchor := hex_json anchor_fields fields_anchor.
#[local] Instance anchor_json_text : JsonText Anchor := hex_json_text anchor_fields fields_anchor.

Definition key : CheckpointKey := key_new (str "secret").
Definition hash4 : bytes := from_option current_hash [] (last t2).
Definition cp4 : Checkpoint := mk_checkpoint (mk_head 4 hash4) (Some 1).
Definition cp5 : Checkpoint := mk_checkpoint (mk_head 5 hash4) (Some 1).
Definition c4 : cp_row := mk_cp_row 4 hash4 (Some 1) (ck_id key) (key_sign key cp4).
Definition d2 : db := mk_db t2 ([] ++ [c4]).
Definition st4 : VerifierState := mk_vstate None (Some 4) [].

Definition env_on (d : db) (t : table) (file : file_read) : Env :=
  mk_env (Some (str "secret")) None true (fun _ => Some d) (fun _ => t) true 10 (Some (str "anchors")) file (fun _ => []) None
    None 0 0 (str "now").

Lemma checkpoint_authentic_witness :
  key_verify key cp4 (key_sign key cp4) = true /\
  (key_verify key cp5 (key_sign key cp4) = true -> cp5 = cp4 \/ mac_collision (ck_key key)).
Proof. apply (checkpoint_authentic key cp5 cp4); split; cbn; unfold in_range, i64_min, i64_max; lia. Defined.

Definition a4 : Anchor := mk_anchor 1 (str "now") 4 hash4 (Some 1) (ck_id key) (key_sign key cp4) None.
Definition a5 : Anchor := mk_anchor 1 (str "now") 5 hash4 None (ck_id key) (key_sign key cp5) (Some (str "vault:v1:x")).

Definition two_lines : list bytes := default [] (mapM anchor_line [a4; a5]).

Lemma anchor_roundtrip_witness :
  last_anchor (fun _ => []) (Contents ([255; 10] ++ concat two_lines)) = Ok (Some a5).
Proof.
  apply (anchor_roundtrip (fun _ => []) [255; 10] [a4; a5] two_lines a5).
  - by vm_compute.
  - reflexivity.
  - apply (bool_decide_unpack _). by vm_compute.
  - right. by exists [255].
Defined.

Lemma t2_wf : Forall row_wf t2.
Proof.
  repeat apply Forall_cons_2; try apply Forall_nil_2;
    (split; [vm_compute; split; discriminate|split; [done|apply (bool_decide_unpack _); by vm_compute]]).
Qed.


Lemma known_checkpoint_kept_witness :
  (exists k', known_checkpoint (o_state (run (env_on (mk_db t2 []) t2 NotFound) st4 fresh_status)) = Some k' /\ 4 <= k') /\
  ~ silent (run (env_on (mk_db t2 []) t2 NotFound) st4 fresh_status).
Proof.
  destruct (known_checkpoint_kept (env_on (mk_db t2 []) t2 NotFound) st4 fresh_status 4 eq_refl) as [Hk Hs].
  split; [exact Hk|]. apply Hs. intros k d cp mac Hkey Hd Hl. injection Hd as <-. done.
Defined.

(** One event is appended to an empty table and the verifier runs. *)
Definition w1 : world :=
  mk_world (mk_db t1 (audit_checkpoints (w_db (fresh [])))) (w_file (fresh [])) (w_state (fresh [])) (w_status (fresh [])).
Definition e1 : Env := env_on (w_db w1) t1 NotFound.

Lemma t1_appended : appended (audit_logs (w_db (fresh []))) t1.
Proof. unfold t1. apply appended_one; [constructor|lia|constructor]. Qed.

Definition append_lengths (o : outcome) : list nat :=
  omap (fun f => match f with AppendAnchor l => Some (length l) | _ => None end) (o_effects o).

Lemma e1_honest : honest key w1 t1 e1.
Proof.
  constructor; try done.
  - intros s d [= <-]. split_and!; done.
  - by right.
  - by left.
  - intros line Hin. assert (length line ∈ append_lengths (run e1 (w_state w1) (w_status w1))) as Hl
      by (apply list_elem_of_omap; eauto).
    assert (append_lengths (run e1 (w_state w1) (w_status w1)) = [368%nat]) as E by (by vm_compute).
    rewrite E in Hl. apply list_elem_of_singleton in Hl. lia.
Qed.

Lemma two_steps : exists w, rtc (wstep key) (fresh []) w.
Proof.
  eexists. eapply rtc_l; [exact (WAppend key (fresh []) t1 t1_appended)|].
  eapply rtc_l; [exact (WRun key w1 t1 e1 (appended_none t1) e1_honest)|apply rtc_refl].
Qed.

Lemma no_false_alarm_witness :
  exists w, rtc (wstep key) (fresh []) w /\
    alarm (w_state w) = [] /\ vs_problems (w_status w) = [] /\ intact (audit_logs (w_db w)).
Proof.
  destruct two_steps as [w Hs]. exists w. split; [exact Hs|].
  apply (no_false_alarm key [] w); [|exact Hs]. split_and!; constructor.
Defined.

Lemma run_covers_witness :
  exists n, latest_id key (fst (fold_left apply_effect (o_effects (run e1 (w_state w1) (w_status w1))) (w_db w1, w_file w1))) = Some n /\
    1 <= n.
Proof.
  refine (run_covers key w1 e1 (mk_row 1 (str "2026-01-01T00:00:00.000000Z") None (str "auth.login") (str "{}") [] _ 2) _ e1_honest _ _ _ _ _).
  - apply (fresh_ok key t1), t1_intact.
  - by split.
  - reflexivity.
  - reflexivity.
  - cbn [length t1 audit_append app audit_logs w_db w1 e_fuel e1 env_on]. lia.
  - left.
Defined.
End VerifyExamples.
