(* ===== verification/CoPilot.v ===== *)
(** * Co-pilot rooms

    [backend/src/services/co_pilot.rs] (the envelope and its validation) and
    [backend/src/services/co_pilot/room.rs] ([CoPilotRoom]: the roster, the
    display names and colours, the single-holder input token).  Every method
    of the room runs under one lock, so a history is a sequence of operations
    ([room_op], [room_step]).  Participant ids are numbers; fresh ids and tags
    and the monotonic clock (milliseconds) are arguments; the iteration order
    of a [HashMap] is any order ([HashIter]). *)

From S2P Require Import Prelude Machine Text.

Local Open Scope Z_scope.

Definition MAX_DISPLAY_NAME_LEN : nat := 40.
Definition MAX_CHAT_LEN : nat := 500.
Definition MAX_COLOR_LEN : nat := 9.
Definition MAX_SDP_LEN : nat := Z.to_nat 8192.
Definition MAX_ICE_CANDIDATE_LEN : nat := 1024.
Definition MAX_REVOKE_REASON_LEN : nat := 120.
Definition MAX_PARTICIPANTS : nat := 6.

(** Milliseconds. *)
Definition INPUT_IDLE_GRANT_AFTER : Z := 2000.

Definition COLOR_PALETTE : list bytes :=
  [str "#3b82f6"; str "#10b981"; str "#f59e0b"; str "#ef4444"; str "#8b5cf6"; str "#ec4899"; str "#14b8a6"; str "#f97316"].

(** ** Envelopes *)

Inductive CoPilotError :=
| FieldTooLong (field : string) (max : nat)
| FieldEmpty (field : string)
| FieldHasControlChars (field : string).

Record RosterEntry := mk_entry {
  re_pid : Z; re_display_name : bytes; re_color : bytes; re_has_input : bool; re_is_owner : bool
}.

Inductive CoPilotMsg :=
| Hello (display_name : bytes) (want_audio : bool) (protocol_version : Z)
| Welcome (pid : Z) (allow_chat allow_audio : bool) (max_participants : Z)
| Roster (participants : list RosterEntry)
| Cursor (pid x y ts : Z)
| Chat (pid : Z) (text : bytes) (ts : Z)
| InputClaim (pid : Z)
| InputRelease (pid : Z)
| InputGrant (pid by_ : Z)
| InputRevoke (by_ : Z) (reason : bytes)
| AudioOffer (pid to : Z) (sdp : bytes)
| AudioAnswer (pid to : Z) (sdp : bytes)
| Ice (pid to : Z) (candidate : bytes)
| Leave (pid : Z)
| SessionEnded (reason : bytes).

#[export] Instance RosterEntry_eq_dec : EqDecision RosterEntry.
Proof. solve_decision. Defined.

#[export] Instance CoPilotMsg_eq_dec : EqDecision CoPilotMsg.
Proof. solve_decision. Defined.

(** The characters of a text: a continuation byte belongs to the character
    before it. *)
Fixpoint chars (bs : bytes) : list bytes :=
  match bs with
  | [] => []
  | b :: r =>
      match chars r with
      | (c :: _) as ch :: cs => if is_cont c then (b :: ch) :: cs else [b] :: ch :: cs
      | _ => [[b]]
      end
  end.

(** [char::is_control]: C0, DEL and C1. *)
Definition is_control (c : bytes) : bool :=
  match c with
  | [b] => (b <? 32) || (b =? 127)
  | [194; b] => (128 <=? b) && (b <=? 159)
  | _ => false
  end.

(** [char::is_whitespace]. *)
Definition is_whitespace (c : bytes) : bool := bool_decide (c ∈ white_space).

Definition check_nonempty (field : string) (s : bytes) : result CoPilotError unit :=
  match s with [] => Err (FieldEmpty field) | _ => Ok tt end.

Definition check_len (field : string) (s : bytes) (max : nat) : result CoPilotError unit :=
  if (max <? length s)%nat then Err (FieldTooLong field max) else Ok tt.

Definition check_no_control (field : string) (s : bytes) : result CoPilotError unit :=
  if existsb is_control (chars s) then Err (FieldHasControlChars field) else Ok tt.

Definition check_no_control_except_newline (field : string) (s : bytes) : result CoPilotError unit :=
  if existsb (fun c => is_control c && negb (bool_decide (c = [10])) && negb (bool_decide (c = [13]))) (chars s)
  then Err (FieldHasControlChars field) else Ok tt.

Fixpoint validate_roster (ps : list RosterEntry) : result CoPilotError unit :=
  match ps with
  | [] => Ok tt
  | p :: r =>
      _ ← check_nonempty "display_name" (re_display_name p);
      _ ← check_len "display_name" (re_display_name p) MAX_DISPLAY_NAME_LEN;
      _ ← check_len "color" (re_color p) MAX_COLOR_LEN;
      validate_roster r
  end.

(** [CoPilotMsg::validate]. *)
Definition validate (m : CoPilotMsg) : result CoPilotError unit :=
  match m with
  | Hello display_name _ _ =>
      _ ← check_nonempty "display_name" display_name;
      _ ← check_len "display_name" display_name MAX_DISPLAY_NAME_LEN;
      check_no_control "display_name" display_name
  | Roster participants => validate_roster participants
  | Chat _ text _ =>
      _ ← check_nonempty "text" text;
      _ ← check_len "text" text MAX_CHAT_LEN;
      check_no_control_except_newline "text" text
  | InputRevoke _ reason | SessionEnded reason =>
      _ ← check_len "reason" reason MAX_REVOKE_REASON_LEN;
      check_no_control "reason" reason
  | AudioOffer _ _ sdp | AudioAnswer _ _ sdp =>
      _ ← check_nonempty "sdp" sdp;
      check_len "sdp" sdp MAX_SDP_LEN
  | Ice _ _ candidate =>
      _ ← check_nonempty "candidate" candidate;
      check_len "candidate" candidate MAX_ICE_CANDIDATE_LEN
  | Welcome _ _ _ _ | Cursor _ _ _ _ | InputClaim _ | InputRelease _ | InputGrant _ _ | Leave _ => Ok tt
  end.

(** [CoPilotMsg::looks_like_envelope]. *)
Definition looks_like_envelope (frame : bytes) : bool := bool_decide (head frame = Some 123).

(** ** Display names *)

(** The loop of [sanitise_display_name]: [out] as its characters. *)
Fixpoint sanitise_loop (raw : list bytes) (out : list bytes) (prev_was_ws : bool) : list bytes :=
  match raw with
  | [] => out
  | c :: r =>
      if is_whitespace c then
        if prev_was_ws || bool_decide (out = []) then sanitise_loop r out prev_was_ws
        else
          let out := out ++ [[32]] in
          if (MAX_DISPLAY_NAME_LEN <=? length (concat out))%nat then out else sanitise_loop r out true
      else if is_control c then sanitise_loop r out prev_was_ws
      else
        let out := out ++ [c] in
        if (MAX_DISPLAY_NAME_LEN <=? length (concat out))%nat then out else sanitise_loop r out false
  end.

(** [while p(out) { out.pop() }], on the reversed characters. *)
Fixpoint pop_while (p : list bytes -> bool) (rev_out : list bytes) : list bytes :=
  match rev_out with
  | [] => []
  | _ :: r => if p rev_out then pop_while p r else rev_out
  end.

Definition ends_with_space (rev_out : list bytes) : bool := bool_decide (head rev_out = Some [32]).
Definition over_cap (rev_out : list bytes) : bool := (MAX_DISPLAY_NAME_LEN <? length (concat rev_out))%nat.

Definition sanitise_chars (raw : list bytes) : list bytes :=
  rev (pop_while over_cap (pop_while ends_with_space (rev (sanitise_loop raw [] false)))).

Definition sanitise_display_name (raw : bytes) : bytes := concat (sanitise_chars (chars raw)).

(** [format!("{base} ({n})")]. *)
Definition suffixed (base : bytes) (n : Z) : bytes := base ++ str " (" ++ int_to_string n ++ str ")".

(** [2..=99]. *)
Definition suffixes : list Z := Z.of_nat <$> seq 2 98.

(** [disambiguate]; [tag] is the random last resort. *)
Definition disambiguate (base : bytes) (used : list bytes) (tag : bytes) : bytes :=
  if bool_decide (base ∈ used) then
    match head (filter (fun c => c ∉ used) (suffixed base <$> suffixes)) with
    | Some c => c
    | None => base ++ str " (" ++ take 8 tag ++ str ")"
    end
  else base.

Definition pick_color (used : list bytes) (index : nat) : bytes :=
  match head (filter (fun c => c ∉ used) COLOR_PALETTE) with
  | Some c => c
  | None => nth (index mod length COLOR_PALETTE) COLOR_PALETTE []
  end.

(** ** The room *)

Record Participant := mk_participant {
  p_pid : Z; p_display_name : bytes; p_color : bytes; p_is_owner : bool; p_joined_at : Z
}.

Inductive InputClaimResult :=
| Granted (previous : option Z)
| Denied (current_holder : Z)
| AlreadyHeld
| UnknownParticipant.

Inductive JoinError := RoomFull | EmptyDisplayName.

Record RoomState := mk_room {
  participants : gmap Z Participant;
  join_order : list Z;
  input_holder : option Z;
  input_last_activity : Z
}.

(** The order in which a [HashMap]'s values are visited. *)
Class HashIter := {
  map_values : gmap Z Participant -> list Participant;
  map_values_perm m : map_values m ≡ₚ (snd <$> map_to_list m)
}.

Definition room_new (now : Z) : RoomState := mk_room ∅ [] None now.

Section room.
Context `{HashIter}.

(** [join]; [pid] and [tag] are the random draws. *)
Definition join (display_name : bytes) (is_owner : bool) (pid : Z) (tag : bytes) (now : Z) (st : RoomState) :
    RoomState * result JoinError Participant :=
  if negb is_owner && (MAX_PARTICIPANTS <=? size (participants st))%nat then (st, Err RoomFull)
  else
    let cleaned := sanitise_display_name display_name in
    match cleaned with
    | [] => (st, Err EmptyDisplayName)
    | _ =>
        let values := map_values (participants st) in
        let final_name := disambiguate cleaned (p_display_name <$> values) tag in
        let color := pick_color (p_color <$> values) (size (participants st)) in
        let p := mk_participant pid final_name color is_owner now in
        let take := is_owner && bool_decide (input_holder st = None) in
        (mk_room (<[pid := p]> (participants st)) (join_order st ++ [pid])
           (if take then Some pid else input_holder st)
           (if take then now else input_last_activity st), Ok p)
    end.

(** [join_order.retain(|p| *p != pid)]. *)
Definition order_without (pid : Z) (order : list Z) : list Z := filter (fun p => p <> pid) order.

Definition leave (pid now : Z) (st : RoomState) : RoomState * bool :=
  match participants st !! pid with
  | None => (st, false)
  | Some _ =>
      let ps := delete pid (participants st) in
      let order := order_without pid (join_order st) in
      if bool_decide (input_holder st = Some pid) then
        (mk_room ps order (p_pid <$> head (filter (fun p => p_is_owner p = true) (map_values ps))) now, true)
      else (mk_room ps order (input_holder st) (input_last_activity st), true)
  end.

Definition roster (st : RoomState) : list RosterEntry :=
  omap (fun pid => (fun p => mk_entry pid (p_display_name p) (p_color p) (bool_decide (input_holder st = Some pid)) (p_is_owner p))
                   <$> participants st !! pid) (join_order st).

Definition current_holder (st : RoomState) : option Z := input_holder st.
Definition contains (pid : Z) (st : RoomState) : bool := bool_decide (is_Some (participants st !! pid)).
Definition room_is_owner (pid : Z) (st : RoomState) : bool := from_option p_is_owner false (participants st !! pid).
Definition participant_count (st : RoomState) : nat := size (participants st).

Definition try_claim_input (pid now : Z) (st : RoomState) : RoomState * InputClaimResult :=
  match participants st !! pid with
  | None => (st, UnknownParticipant)
  | Some p =>
      let grant := (mk_room (participants st) (join_order st) (Some pid) now, Granted (input_holder st)) in
      match input_holder st with
      | Some current =>
          if current =? pid then (st, AlreadyHeld)
          else if negb (p_is_owner p) && (Z.max 0 (now - input_last_activity st) <? INPUT_IDLE_GRANT_AFTER)
          then (st, Denied current)
          else grant
      | None => grant
      end
  end.

Definition release_input (pid now : Z) (st : RoomState) : RoomState * bool :=
  if bool_decide (input_holder st = Some pid)
  then (mk_room (participants st) (join_order st) None now, true) else (st, false).

Definition revoke_input (now : Z) (st : RoomState) : RoomState * option Z :=
  (mk_room (participants st) (join_order st) None now, input_holder st).

Definition force_grant (to now : Z) (st : RoomState) : RoomState * result JoinError (option Z) :=
  match participants st !! to with
  | None => (st, Err EmptyDisplayName)
  | Some _ => (mk_room (participants st) (join_order st) (Some to) now, Ok (input_holder st))
  end.

Definition note_input_activity (pid now : Z) (st : RoomState) : RoomState * bool :=
  if bool_decide (input_holder st = Some pid)
  then (mk_room (participants st) (join_order st) (input_holder st) now, true) else (st, false).

(** ** Histories *)

Inductive room_op :=
| OpJoin (display_name : bytes) (is_owner : bool) (pid : Z) (tag : bytes)
| OpLeave (pid : Z)
| OpClaim (pid : Z)
| OpRelease (pid : Z)
| OpRevoke
| OpForceGrant (to : Z)
| OpInput (pid : Z).

Definition room_step (now : Z) (o : room_op) (st : RoomState) : RoomState :=
  match o with
  | OpJoin n ow pid tag => fst (join n ow pid tag now st)
  | OpLeave pid => fst (leave pid now st)
  | OpClaim pid => fst (try_claim_input pid now st)
  | OpRelease pid => fst (release_input pid now st)
  | OpRevoke => fst (revoke_input now st)
  | OpForceGrant to => fst (force_grant to now st)
  | OpInput pid => fst (note_input_activity pid now st)
  end.

Fixpoint room_run (ops : list (Z * room_op)) (st : RoomState) : RoomState :=
  match ops with
  | [] => st
  | (now, o) :: r => room_run r (room_step now o st)
  end.
End room.

(** ** Names *)

Lemma concat_chars bs : concat (chars bs) = bs.
Proof.
  induction bs as [|b bs IH]; [done|]. cbn [chars].
  destruct (chars bs) as [|[|c ch] cs] eqn:E; cbn [concat app] in *.
  - by rewrite <- IH.
  - destruct bs as [|b' bs]; [done|]. exfalso. revert E. cbn [chars]. by repeat case_match.
  - destruct (is_cont c); cbn [concat app]; by rewrite <- IH.
Qed.

(** The loop appends only spaces and characters that are neither white space
    nor control characters, never a space first or after a space. *)
Definition name_char (c : bytes) : Prop := c = [32] \/ is_whitespace c = false /\ is_control c = false.

Fixpoint spaced (prev : bool) (cs : list bytes) : Prop :=
  match cs with
  | [] => True
  | c :: r => (c = [32] -> prev = false) /\ spaced (bool_decide (c = [32])) r
  end.

Lemma spaced_snoc prev cs c :
  spaced prev (cs ++ [c]) <-> spaced prev cs /\ (c = [32] -> from_option (fun l => bool_decide (l = [32])) prev (last cs) = false).
Proof.
  revert prev. induction cs as [|x cs IH]; intros prev; cbn [app spaced]; [cbn; tauto|].
  rewrite IH. destruct cs as [|y cs]; [cbn; tauto|]. rewrite last_cons_cons.
  destruct (last_is_Some (y :: cs)) as [_ [z Hz]]; [done|]. rewrite Hz. cbn. tauto.
Qed.

Lemma whitespace_space : is_whitespace [32] = true.
Proof. by vm_compute. Qed.

Lemma sanitise_loop_spec raw out prev :
  Forall name_char out -> spaced true out -> prev = from_option (fun l => bool_decide (l = [32])) false (last out) ->
  Forall name_char (sanitise_loop raw out prev) /\ spaced true (sanitise_loop raw out prev).
Proof.
  revert out prev. induction raw as [|c raw IH]; intros out prev Hf Hs Hp; cbn [sanitise_loop]; [done|].
  assert (forall d, name_char d -> (d = [32] -> out <> [] /\ prev = false) ->
    Forall name_char (out ++ [d]) /\ spaced true (out ++ [d])) as Hpush.
  { intros d Hd Hsp. split; [by apply Forall_app; split; [|apply Forall_singleton]|]. apply spaced_snoc. split; [done|].
    intros Ed. destruct (Hsp Ed) as [Hne Hpf]. rewrite Hpf in Hp. destruct (last out) eqn:El; [done|].
    by apply last_None in El. }
  destruct (is_whitespace c) eqn:Ew.
  - destruct (prev || bool_decide (out = [])) eqn:Eo; [by apply IH|].
    apply orb_false_elim in Eo as [Ep Eo]. apply bool_decide_eq_false in Eo.
    destruct (Hpush [32]) as [H1 H2]; [by left|done|]. case_test; [done|]. apply IH; [done..|]. by rewrite last_snoc.
  - destruct (is_control c) eqn:Ec; [by apply IH|].
    assert (c <> [32]) as Hc by (intros ->; by rewrite whitespace_space in Ew).
    destruct (Hpush c) as [H1 H2]; [by right|done|]. case_test; [done|]. apply IH; [done..|]. rewrite last_snoc. cbn.
    by rewrite bool_decide_false.
Qed.

Lemma pop_while_suffix p l : exists k, l = k ++ pop_while p l.
Proof.
  induction l as [|x l [k IH]]; [by exists []|]. cbn [pop_while]. destruct (p (x :: l)); [|by exists []].
  exists (x :: k). by rewrite <- app_comm_cons, <- IH.
Qed.

Lemma pop_while_stops p l : pop_while p l = [] \/ p (pop_while p l) = false.
Proof. induction l as [|x l IH]; [by left|]. cbn [pop_while]. destruct (p (x :: l)) eqn:E; [done|by right]. Qed.

Lemma sanitise_prefix raw : exists k, sanitise_loop raw [] false = sanitise_chars raw ++ k.
Proof.
  unfold sanitise_chars. destruct (pop_while_suffix ends_with_space (rev (sanitise_loop raw [] false))) as [k1 H1].
  destruct (pop_while_suffix over_cap (pop_while ends_with_space (rev (sanitise_loop raw [] false)))) as [k2 H2].
  exists (rev k2 ++ rev k1). apply (f_equal (rev (A:=bytes))) in H1, H2. rewrite rev_involutive, rev_app_distr in H1.
  rewrite rev_app_distr in H2. rewrite H2 in H1. by rewrite (assoc_L (++)).
Qed.

(** A sanitised name fits the cap, holds only spaces and characters that are
    neither white space nor control characters, and has no leading or
    doubled space. *)
Lemma sanitise_spec raw :
  (length (sanitise_display_name raw) <= MAX_DISPLAY_NAME_LEN)%nat /\
  Forall name_char (sanitise_chars (chars raw)) /\ spaced true (sanitise_chars (chars raw)).
Proof.
  split.
  - unfold sanitise_display_name, sanitise_chars.
    set (l := pop_while ends_with_space (rev (sanitise_loop (chars raw) [] false))).
    destruct (pop_while_stops over_cap l) as [-> |Hs]; [cbn; unfold MAX_DISPLAY_NAME_LEN; lia|].
    unfold over_cap in Hs at 1. b2p. revert Hs. generalize (pop_while over_cap l) as k. intros k Hk.
    assert (length (concat (rev k)) = length (concat k)) as ->; [|lia].
    clear. induction k as [|x k IH]; [done|]. cbn [rev concat]. rewrite concat_app, !length_app, IH. cbn. rewrite app_nil_r. lia.
  - destruct (sanitise_prefix (chars raw)) as [k Hk].
    destruct (sanitise_loop_spec (chars raw) [] false) as [Hf Hs]; [constructor|done|done|]. rewrite Hk in Hf, Hs.
    split; [by apply Forall_app in Hf as [? _]|]. clear Hk Hf. revert Hs. generalize (sanitise_chars (chars raw)) as l, true as b.
    induction l as [|x l IH]; intros b Hs; [done|]. destruct Hs as [? ?]. split; [done|]. by apply IH.
Qed.

Lemma suffixed_inj base m n : is_i64 m -> is_i64 n -> suffixed base m = suffixed base n -> m = n.
Proof. unfold suffixed. intros Hm Hn E. apply app_inv_head, app_inv_head, app_inv_tail in E. by apply int_to_string_inj. Qed.

(** With fewer than 99 names in use the chosen name is new. *)
Lemma disambiguate_fresh base used tag : (length used < 99)%nat -> disambiguate base used tag ∉ used.
Proof.
  intros Hlen. unfold disambiguate. case_bool_decide as Hb; [|done].
  destruct (filter (fun c => c ∉ used) (suffixed base <$> suffixes)) as [|c cs] eqn:E; cbn [head].
  2:{ assert (c ∈ c :: cs) as Hc by left. rewrite <- E in Hc. by apply list_elem_of_filter in Hc as [? _]. }
  exfalso. set (all := base :: (suffixed base <$> suffixes)).
  assert (forall c, c ∈ suffixed base <$> suffixes -> c ∈ used) as Hall.
  { intros c Hc. destruct (decide (c ∈ used)) as [|Hn]; [done|]. exfalso. eapply filter_nil_not_elem_of; [exact E|exact Hn|done]. }
  assert (NoDup all) as Hnd.
  { constructor.
    - intros (n & Hn & _)%list_elem_of_fmap. apply (f_equal length) in Hn. unfold suffixed in Hn.
      rewrite !length_app in Hn. simpl in Hn. lia.
    - apply NoDup_fmap_2_strong; [|apply (bool_decide_unpack _); by vm_compute].
      intros m n Hm Hn. apply suffixed_inj; unfold suffixes in *;
        apply list_elem_of_fmap in Hm as (i & -> & Hi%elem_of_seq), Hn as (j & -> & Hj%elem_of_seq);
        unfold in_range, i64_min, i64_max; lia. }
  assert (all ⊆+ used) as Hsub.
  { apply NoDup_submseteq; [done|]. intros c Hc. apply elem_of_cons in Hc as [->|Hc]; [done|by apply Hall]. }
  apply submseteq_length in Hsub. unfold all in Hsub. cbn [length] in Hsub. rewrite length_fmap in Hsub.
  change (length suffixes) with 98%nat in Hsub. lia.
Qed.

(** While a palette colour is free, the chosen colour is new. *)
Lemma pick_color_fresh used index : (length used < length COLOR_PALETTE)%nat -> pick_color used index ∉ used.
Proof.
  intros Hlen. unfold pick_color. destruct (filter (fun c => c ∉ used) COLOR_PALETTE) as [|c cs] eqn:E; cbn [head].
  2:{ assert (c ∈ c :: cs) as Hc by left. rewrite <- E in Hc. by apply list_elem_of_filter in Hc as [? _]. }
  exfalso. assert (COLOR_PALETTE ⊆+ used) as Hsub; [|apply submseteq_length in Hsub; lia].
  apply NoDup_submseteq; [apply (bool_decide_unpack _); by vm_compute|]. intros c Hc.
  destruct (decide (c ∈ used)) as [|Hn]; [done|]. exfalso. eapply filter_nil_not_elem_of; [exact E|exact Hn|done].
Qed.

(** ** The room's invariant *)

Section room_props.
Context `{HashIter}.

(** Random ids are new, and the random name suffix is never reached. *)
Definition op_fresh (o : room_op) (st : RoomState) : Prop :=
  match o with
  | OpJoin _ _ pid _ => participants st !! pid = None /\ (size (participants st) < 99)%nat
  | _ => True
  end.

Inductive reachable : RoomState -> Prop :=
| reach_new now : reachable (room_new now)
| reach_step now o st : reachable st -> op_fresh o st -> reachable (room_step now o st).

Definition guests (m : gmap Z Participant) : gmap Z Participant := filter (fun kp => p_is_owner (snd kp) = false) m.

Record room_ok (st : RoomState) : Prop := {
  ok_nodup : NoDup (join_order st);
  ok_order pid : pid ∈ join_order st <-> is_Some (participants st !! pid);
  ok_pid pid p : participants st !! pid = Some p -> p_pid p = pid;
  ok_holder h : input_holder st = Some h -> is_Some (participants st !! h);
  ok_guests : (size (guests (participants st)) <= MAX_PARTICIPANTS)%nat;
  ok_names a b p q : participants st !! a = Some p -> participants st !! b = Some q ->
    p_display_name p = p_display_name q -> a = b
}.

Lemma elem_of_values m p : p ∈ map_values m <-> exists pid, m !! pid = Some p.
Proof.
  rewrite map_values_perm, list_elem_of_fmap. split.
  - intros ([pid q] & -> & Hin%elem_of_map_to_list). by exists pid.
  - intros [pid Hp]. exists (pid, p). by rewrite elem_of_map_to_list.
Qed.

Lemma length_values m : length (map_values m) = size m.
Proof. rewrite map_values_perm, length_fmap. by rewrite length_map_to_list. Qed.

(** Operations that only move the token, to nobody or to a participant. *)
Lemma token_ok st st' :
  room_ok st -> participants st' = participants st -> join_order st' = join_order st ->
  (forall h, input_holder st' = Some h -> is_Some (participants st !! h)) -> room_ok st'.
Proof. intros [] Hp Ho Hh. constructor; rewrite ?Hp, ?Ho; try done. Qed.

Lemma join_ok name ow pid tag now st :
  room_ok st -> participants st !! pid = None -> (size (participants st) < 99)%nat ->
  room_ok (fst (join name ow pid tag now st)).
Proof.
  intros [Hnd Hord Hpid Hhold Hg Hn] Hnew Hsz. unfold join.
  destruct (negb ow && (MAX_PARTICIPANTS <=? size (participants st))%nat) eqn:Ecap; [done|].
  destruct (sanitise_display_name name) as [|b r]; [done|]. cbn [fst].
  set (final := disambiguate _ _ _). set (p := mk_participant _ _ _ _ _).
  constructor; cbn [participants join_order input_holder].
  - apply NoDup_app. split_and!; [done| |apply NoDup_singleton]. intros x Hx ->%list_elem_of_singleton.
    apply Hord in Hx as [? Hx]. congruence.
  - intros x. rewrite elem_of_app, list_elem_of_singleton, Hord. destruct (decide (x = pid)) as [->|Hne].
    + rewrite lookup_insert_eq. split; [by eexists|by right].
    + rewrite lookup_insert_ne by done. tauto.
  - intros x q. destruct (decide (x = pid)) as [->|Hne]; [rewrite lookup_insert_eq; by intros [= <-]|].
    rewrite lookup_insert_ne by done. apply Hpid.
  - intros h Hh. destruct (decide (h = pid)) as [->|Hne]; [by rewrite lookup_insert_eq; eexists|].
    rewrite lookup_insert_ne by done. destruct (ow && _); [congruence|by apply Hhold].
  - unfold guests. destruct ow.
    + rewrite map_filter_insert_False by done. rewrite delete_id by done. exact Hg.
    + cbn [negb andb] in Ecap. b2p. rewrite map_filter_insert_True by done.
      rewrite map_size_insert_None.
      * pose proof (map_size_filter (fun kp : Z * Participant => p_is_owner (snd kp) = false) (participants st)). lia.
      * apply map_lookup_filter_None. by left.
  - assert (final ∉ (p_display_name <$> map_values (participants st))) as Hfresh
      by (apply disambiguate_fresh; by rewrite length_fmap, length_values).
    assert (forall x q, participants st !! x = Some q -> p_display_name q <> final) as Hne.
    { intros x q Hq Ef. apply Hfresh. rewrite <- Ef. apply list_elem_of_fmap. exists q. split; [done|].
      apply elem_of_values. by exists x. }
    intros x y q q' Hx Hy En. destruct (decide (x = pid)) as [->|Hxp], (decide (y = pid)) as [->|Hyp]; [done|..].
    + rewrite lookup_insert_eq in Hx. rewrite lookup_insert_ne in Hy by done. injection Hx as <-. by apply Hne in Hy.
    + rewrite lookup_insert_eq in Hy. rewrite lookup_insert_ne in Hx by done. injection Hy as <-. by apply Hne in Hx.
    + rewrite lookup_insert_ne in Hx, Hy by done. by eapply Hn.
Qed.

Lemma leave_ok pid now st : room_ok st -> room_ok (fst (leave pid now st)).
Proof.
  intros [Hnd Hord Hpid Hhold Hg Hn]. unfold leave. destruct (participants st !! pid) as [p|] eqn:Ep; [|done].
  assert (room_ok (mk_room (delete pid (participants st)) (order_without pid (join_order st)) None now)) as Hok.
  { constructor; cbn [participants join_order input_holder].
    - by apply NoDup_filter.
    - intros x. unfold order_without. rewrite list_elem_of_filter, Hord. destruct (decide (x = pid)) as [->|Hne].
      + rewrite lookup_delete_eq. split; [tauto|by intros [? ?]].
      + rewrite lookup_delete_ne by done. tauto.
    - intros x q Hq. apply lookup_delete_Some in Hq as [_ Hq]. by apply Hpid.
    - done.
    - unfold guests. rewrite map_filter_delete. etrans; [|exact Hg]. apply map_subseteq_size, delete_subseteq.
    - intros x y q q' Hx Hy. apply lookup_delete_Some in Hx as [_ Hx], Hy as [_ Hy]. by eapply Hn. }
  case_bool_decide as Hh; (eapply token_ok; [exact Hok|reflexivity..|]); cbn [fst participants input_holder]; intros h.
  - intros (q & Hq & ->)%fmap_Some. destruct (filter _ (map_values _)) as [|q' qs] eqn:Eq; [done|]. cbn in Hq. injection Hq as ->.
    assert (q ∈ map_values (delete pid (participants st))) as Hq.
    { assert (q ∈ q :: qs) as Hq by left. rewrite <- Eq in Hq. by apply list_elem_of_filter in Hq as [_ ?]. }
    apply elem_of_values in Hq as [x Hx]. pose proof Hx as Hx'. apply lookup_delete_Some in Hx' as [_ Hx'].
    rewrite (Hpid x q Hx'). by eexists.
  - intros Eh. rewrite lookup_delete_ne by congruence. by apply Hhold.
Qed.

Lemma room_step_ok now o st : room_ok st -> op_fresh o st -> room_ok (room_step now o st).
Proof.
  intros Hok Hf. assert (forall h, input_holder st = Some h -> is_Some (participants st !! h)) as Hhold by apply Hok.
  destruct o; cbn [room_step op_fresh] in *.
  - apply join_ok; tauto.
  - by apply leave_ok.
  - unfold try_claim_input. destruct (participants st !! pid) as [p|] eqn:Ep; [|done].
    repeat case_match; try done; apply (token_ok st); try done; cbn; intros h' [= <-]; by rewrite Ep; eexists.
  - unfold release_input. case_bool_decide; [|done]. by apply (token_ok st).
  - by apply (token_ok st).
  - unfold force_grant. destruct (participants st !! to) eqn:Et; [|done]. apply (token_ok st); try done. cbn.
    intros h [= <-]. by rewrite Et; eexists.
  - unfold note_input_activity. case_bool_decide as Hh; [|done]. by apply (token_ok st).
Qed.

Lemma reachable_ok st : reachable st -> room_ok st.
Proof.
  induction 1 as [now|now o st _ IH Hf]; [|by apply room_step_ok].
  constructor; cbn [room_new participants join_order input_holder]; try done.
  - apply NoDup_nil_2.
  - intros pid. rewrite lookup_empty. split; [by intros ?%not_elem_of_nil|by intros [? ?]].
  - unfold guests. rewrite map_filter_empty, map_size_empty. lia.
Qed.

Lemma roster_pids st : room_ok st -> re_pid <$> roster st = join_order st.
Proof.
  intros Hok. unfold roster. assert (Forall (fun pid => is_Some (participants st !! pid)) (join_order st)) as Hf.
  { apply Forall_forall. intros pid Hp. by apply (ok_order _ Hok). }
  induction Hf as [|pid l [p Hp] _ IH]; [done|]. cbn [omap list_omap]. rewrite Hp. cbn. by rewrite IH.
Qed.

Lemma roster_entry st e : e ∈ roster st -> exists p, participants st !! re_pid e = Some p /\
  re_display_name e = p_display_name p /\ re_has_input e = bool_decide (input_holder st = Some (re_pid e)).
Proof.
  unfold roster. rewrite list_elem_of_omap. intros (pid & _ & He). apply fmap_Some in He as (p & Hp & ->). by exists p.
Qed.

(** C28: in every reachable room the roster lists exactly the participants,
    once each and in the order they joined, under pairwise different names;
    at most one entry has the input token, and the token is never held by
    someone who is not in the room; and at most six guests are present,
    however often the owner joins. *)
Theorem room_invariant st :
  reachable st ->
  re_pid <$> roster st = join_order st /\ NoDup (join_order st) /\
  (forall pid, pid ∈ join_order st <-> is_Some (participants st !! pid)) /\
  NoDup (re_display_name <$> roster st) /\
  (forall e e', e ∈ roster st -> e' ∈ roster st -> re_has_input e = true -> re_has_input e' = true -> re_pid e = re_pid e') /\
  (forall h, input_holder st = Some h -> is_Some (participants st !! h)) /\
  (size (guests (participants st)) <= MAX_PARTICIPANTS)%nat.
Proof.
  intros Hr. apply reachable_ok in Hr as Hok. pose proof (roster_pids st Hok) as Hp. split_and!; try apply Hok; [done| |].
  - assert (NoDup (re_pid <$> roster st)) as Hnd by (rewrite Hp; apply Hok).
    assert (forall e, e ∈ roster st -> exists p, participants st !! re_pid e = Some p /\ re_display_name e = p_display_name p) as He.
    { intros e (p & ? & ? & _)%roster_entry. eauto. }
    revert Hnd He. clear Hp. generalize (roster st) as l. induction l as [|e l IH]; intros Hnd He; [apply NoDup_nil_2|].
    change (NoDup (re_pid e :: (re_pid <$> l))) in Hnd. change (NoDup (re_display_name e :: (re_display_name <$> l))).
    apply NoDup_cons in Hnd as [Hni Hnd]. apply NoDup_cons. split; [|apply IH; [done|]; intros; apply He; by right].
    intros (e' & En & Hin)%list_elem_of_fmap. destruct (He e) as (p & Hpe & Hpn); [left|].
    destruct (He e') as (q & Hqe & Hqn); [by right|].
    apply Hni, list_elem_of_fmap. exists e'. split; [|done]. eapply (ok_names _ Hok); [done..|congruence].
  - intros e e' (p & _ & _ & ->)%roster_entry (p' & _ & _ & ->)%roster_entry. rewrite !bool_decide_eq_true. congruence.
Qed.

(** ** The token *)

(** What may happen while [h] keeps typing: nobody with authority takes the
    token away and [h] does not give it up. *)
Definition polite (h : Z) (o : room_op) (st : RoomState) : Prop :=
  match o with
  | OpJoin _ _ pid _ => participants st !! pid = None
  | OpLeave pid | OpRelease pid => pid <> h
  | OpClaim pid => pid = h \/ room_is_owner pid st = false
  | OpRevoke => False
  | OpForceGrant to => to = h
  | OpInput _ => True
  end.

(** Every operation comes less than two seconds after [h]'s last activity. *)
Fixpoint active (h : Z) (ops : list (Z * room_op)) (st : RoomState) : Prop :=
  match ops with
  | [] => True
  | (now, o) :: r => now - input_last_activity st < INPUT_IDLE_GRANT_AFTER /\ polite h o st /\ active h r (room_step now o st)
  end.

Lemma polite_step h now o st :
  input_holder st = Some h -> now - input_last_activity st < INPUT_IDLE_GRANT_AFTER -> polite h o st ->
  input_holder (room_step now o st) = Some h.
Proof.
  intros Hh Ht Hp. destruct o; cbn [room_step polite] in *.
  - unfold join. destruct (negb is_owner && _); [done|]. destruct (sanitise_display_name display_name); [done|]. cbn [fst input_holder].
    by rewrite (bool_decide_false (input_holder st = None)), andb_false_r by congruence.
  - unfold leave. destruct (participants st !! pid); [|done]. rewrite bool_decide_false by congruence. done.
  - unfold try_claim_input. destruct (participants st !! pid) as [p|] eqn:Ep; [|done]. rewrite Hh.
    destruct (h =? pid) eqn:E; b2p; [done|]. destruct Hp as [->|Hp]; [done|].
    unfold room_is_owner in Hp. rewrite Ep in Hp. cbn in Hp. rewrite Hp. cbn [negb andb].
    unfold INPUT_IDLE_GRANT_AFTER in *. by take_true (Z.max 0 (now - input_last_activity st) <? 2000).
  - unfold release_input. rewrite bool_decide_false by congruence. done.
  - done.
  - subst. unfold force_grant. by destruct (participants st !! h).
  - unfold note_input_activity. by case_bool_decide.
Qed.

(** An active holder keeps the input token.  As long as the holder's
    last input is less than two seconds old at every operation, no sequence
    of joins, leaves, claims by guests, releases and inputs of others takes
    the token away: afterwards the holder's input is forwarded and nobody
    else's is.  (Only an owner's claim, a force-grant or a revoke can.) *)
Lemma active_holder_keeps_token h ops st :
  input_holder st = Some h -> active h ops st ->
  forall now pid, snd (note_input_activity pid now (room_run ops st)) = bool_decide (pid = h).
Proof.
  revert st. induction ops as [|[t o] ops IH]; intros st Hh Ha now pid.
  - cbn [room_run]. unfold note_input_activity. rewrite Hh. repeat case_bool_decide; simplify_eq; done.
  - destruct Ha as (Ht & Hp & Ha). cbn [room_run]. apply IH; [|done]. by apply polite_step.
Qed.

(** The claim's answer on every branch. *)
Lemma claim_spec pid now st p :
  participants st !! pid = Some p ->
  try_claim_input pid now st =
    if bool_decide (input_holder st = Some pid) then (st, AlreadyHeld)
    else match input_holder st with
         | Some h => if p_is_owner p || (INPUT_IDLE_GRANT_AFTER <=? now - input_last_activity st)
                     then (mk_room (participants st) (join_order st) (Some pid) now, Granted (Some h))
                     else (st, Denied h)
         | None => (mk_room (participants st) (join_order st) (Some pid) now, Granted None)
         end.
Proof.
  intros Hp. unfold try_claim_input. rewrite Hp. destruct (input_holder st) as [h|] eqn:Eh; [|by rewrite bool_decide_false].
  destruct (h =? pid) eqn:E; b2p; [subst; by rewrite bool_decide_true|]. rewrite bool_decide_false by congruence.
  destruct (p_is_owner p); cbn [negb andb orb]; [done|]. unfold INPUT_IDLE_GRANT_AFTER.
  destruct (2000 <=? now - input_last_activity st) eqn:E2; b2p.
  - by take_false (Z.max 0 (now - input_last_activity st) <? 2000).
  - by take_true (Z.max 0 (now - input_last_activity st) <? 2000).
Qed.
End room_props.

(** ** Examples *)

Module RoomExamples.
#[local] Instance by_key : HashIter := Build_HashIter (fun m => snd <$> map_to_list m) (fun _ => reflexivity _).

(** An owner and a guest with one name; the owner types, the guest claims. *)
Definition two : RoomState :=
  room_step 20 (OpJoin (str " Alex ") false 2 (str "tag")) (room_step 10 (OpJoin (str "Alex") true 1 (str "tag")) (room_new 0)).

Example two_roster :
  roster two = [mk_entry 1 (str "Alex") (str "#3b82f6") true true; mk_entry 2 (str "Alex (2)") (str "#10b981") false false].
Proof. by vm_compute. Qed.

Lemma two_reachable : reachable two.
Proof.
  apply reach_step; [apply reach_step; [apply reach_new|]|]; split; try (by vm_compute); apply (bool_decide_unpack _); by vm_compute.
Qed.

Lemma room_invariant_witness :
  re_pid <$> roster two = join_order two /\ NoDup (join_order two) /\
  (forall pid, pid ∈ join_order two <-> is_Some (participants two !! pid)) /\
  NoDup (re_display_name <$> roster two) /\
  (forall e e', e ∈ roster two -> e' ∈ roster two -> re_has_input e = true -> re_has_input e' = true -> re_pid e = re_pid e') /\
  (forall h, input_holder two = Some h -> is_Some (participants two !! h)) /\
  (size (guests (participants two)) <= MAX_PARTICIPANTS)%nat.
Proof. apply (room_invariant two). apply two_reachable. Defined.

Definition contest : list (Z * room_op) := [(500, OpClaim 2); (1500, OpInput 1); (3000, OpClaim 2); (3100, OpInput 2)].

Lemma active_holder_keeps_token_witness :
  snd (note_input_activity 2 2000 (room_run contest two)) = bool_decide (2 = 1).
Proof.
  apply (active_holder_keeps_token 1 contest two); [by vm_compute|].
  cbn [active contest polite]. split_and!; try done; try (by vm_compute); right; by vm_compute.
Defined.

(** A suffix takes a long name over the cap, so the roster that holds it
    would not pass the validation of envelopes. *)
Definition long_name : bytes := replicate 40 97.
Definition long_room : RoomState :=
  room_step 20 (OpJoin long_name false 2 (str "tag")) (room_step 10 (OpJoin long_name true 1 (str "tag")) (room_new 0)).

Lemma suffix_exceeds_cap :
  (length <$> (re_display_name <$> roster long_room)) = [40; 44]%nat /\
  validate (Roster (roster long_room)) = Err (FieldTooLong "display_name" 40).
Proof. split; by vm_compute. Qed.

(** A wide character at the cap leaves the space before it. *)
Lemma sanitise_keeps_space :
  sanitise_display_name (replicate 38 97 ++ [32; 195; 164]) = replicate 38 97 ++ [32].
Proof. by vm_compute. Qed.

(** With three owner sockets and six guests the palette runs out. *)
Definition crowd : RoomState :=
  room_run ((fun i => (Z.of_nat i, OpJoin (str "A") (6 <=? i)%nat (Z.of_nat i) (str "tag"))) <$> seq 0 9) (room_new 0).

Lemma palette_runs_out : size (participants crowd) = 9%nat /\ ~ NoDup (re_color <$> roster crowd).
Proof. split; [by vm_compute|]. apply (bool_decide_unpack _). by vm_compute. Qed.
End RoomExamples.
