(* ===== verification/ShareGuest.v ===== *)
(** * Shared sessions: what a guest can do

    [backend/src/routes/share.rs] and the guest path of
    [backend/src/session_engine.rs]: the opcode filter on a viewer's frames,
    the gate of the tunnel socket on the room's input token, the dispatch of
    co-pilot envelopes, the settings of a new share and the attempt limiter
    of share links.  A [&str] is its UTF-8 bytes; instants are milliseconds. *)

From stdpp Require Import sorting.
From S2P Require Import Prelude Machine Text Crates Guacamole Instruction Decoder CoPilot.

Local Open Scope Z_scope.

(** ** The opcode filter *)

Definition GUEST_INPUT_OPCODE_ALLOWLIST : list bytes :=
  str <$> ["mouse"; "key"; "pointer"; "size"; "clipboard"; "blob"; "end"; "ack"; "pipe"; "nop"; "argv"; ""]%string.

(** [char_indices().nth(n)]: the offset of the [n]-th character; [i] counts
    the bytes before. *)
Fixpoint nth_char (n : Z) (i : nat) (bs : bytes) : option nat :=
  match bs with
  | [] => None
  | b :: r => if is_cont b then nth_char n (S i) r else if n =? 0 then Some i else nth_char (n - 1) (S i) r
  end.

(** The loop of [first_disallowed_guest_opcode]; every round consumes a
    terminator, so the length is enough fuel ([scan_fuel]). *)
Fixpoint scan_opcodes (fuel : nat) (rem : bytes) : option bytes :=
  match fuel with
  | O => Some []
  | S f =>
      match rem with
      | [] => None
      | _ =>
          match trim_start rem with
          | [] => None
          | rem =>
              match split_once 46 rem with
              | None => Some (str "<malformed>")
              | Some (digits, value_pool) =>
                  match parse_u64 digits with
                  | None => Some (str "<malformed>")
                  | Some len =>
                      let byte_offset := default (length value_pool) (nth_char len 0 value_pool) in
                      if (length value_pool <? byte_offset)%nat then Some (str "<truncated>")
                      else
                        let opcode := take byte_offset value_pool in
                        if bool_decide (opcode ∈ GUEST_INPUT_OPCODE_ALLOWLIST) then
                          match split_once 59 (drop byte_offset value_pool) with
                          | Some (_, rem) => scan_opcodes f rem
                          | None => Some (str "<no terminator>")
                          end
                        else Some opcode
                  end
              end
          end
      end
  end.

Definition first_disallowed_guest_opcode (frame : bytes) : option bytes := scan_opcodes (S (length frame)) frame.

Section guest.
Context `{Winnow}.

(** [forward_guest_instructions]: a decoder of its own for each frame; what
    is handed to the session, which stops taking after [accepted]. *)
Definition forward_guest_instructions (frame : bytes) (accepted : nat) : list ClientInstruction :=
  take accepted (fst (fst (drain_all (extend decoder_default frame)))).

(** ** The tunnel socket *)

(** The arm for a viewer's text message: the room, and the frame when it is
    sent on. *)
Definition viewer_text (is_control multiplayer : bool) (pid_opt : option Z) (text : bytes) (now : Z) (room : RoomState) :
    RoomState * option bytes :=
  if negb is_control then (room, None)
  else
    let '(room, should_forward) :=
      if multiplayer then
        match pid_opt with Some pid => note_input_activity pid now room | None => (room, false) end
      else (room, true) in
    if should_forward then
      match first_disallowed_guest_opcode text with
      | Some _ => (room, None)
      | None => (room, Some text)
      end
    else (room, None).

(** ** The co-pilot socket *)

Record ShareFlags := mk_flags { sh_allow_chat : bool; sh_allow_audio : bool }.

(** [handle_client_envelope]: the room and what is broadcast. *)
Definition handle_client_envelope (env : CoPilotMsg) (pid : Z) (share : ShareFlags) (now : Z) (room : RoomState) :
    RoomState * list CoPilotMsg :=
  match env with
  | Cursor _ x y ts => (room, [Cursor pid x y ts])
  | Chat _ text ts => if sh_allow_chat share then (room, [Chat pid text ts]) else (room, [])
  | InputClaim _ =>
      match try_claim_input pid now room with
      | (room', Granted _) => (room', [InputGrant pid pid; Roster (roster room')])
      | (room', _) => (room', [])
      end
  | InputRelease _ =>
      let '(room', released) := release_input pid now room in
      (room', if released then [Roster (roster room')] else [])
  | AudioOffer _ to sdp => if sh_allow_audio share then (room, [AudioOffer pid to sdp]) else (room, [])
  | AudioAnswer _ to sdp => if sh_allow_audio share then (room, [AudioAnswer pid to sdp]) else (room, [])
  | Ice _ to candidate => if sh_allow_audio share then (room, [Ice pid to candidate]) else (room, [])
  | _ => (room, [])
  end.

(** The arm for a text message in [copilot_room_loop]. *)
Definition copilot_text `{Json CoPilotMsg} (text : bytes) (pid : Z) (share : ShareFlags) (now : Z) (room : RoomState) :
    RoomState * list CoPilotMsg :=
  if looks_like_envelope text then
    match json_from_slice text with
    | None => (room, [])
    | Some env =>
        match validate env with
        | Err _ => (room, [])
        | Ok _ => handle_client_envelope env pid share now room
        end
    end
  else (room, []).
End guest.

(** ** The life of a co-pilot socket *)

(** What the loop's [select!] can see: the host's session ended, an envelope
    of the room or a lag (and whether sending it on worked), the client's
    messages, a keep-alive tick with the outcome of the ping and of the
    share lookup that every second tick makes ([Some true]: still active),
    and in between what other sockets do to the room. *)
Inductive loop_event :=
| EvEnded
| EvFanout (sent : bool)
| EvFanoutClosed
| EvText (text : bytes)
| EvOtherMessage
| EvClosed
| EvSocketError
| EvTick (ping_sent : bool) (lookup : option bool)
| EvForeign (o : room_op).

Definition revoke_check_every : Z := 2.

(** Phase 4 of [copilot_room_loop]: the room, what was broadcast, and whether
    the loop was left. *)
Fixpoint copilot_events `{HashIter} `{Json CoPilotMsg} (evs : list (Z * loop_event)) (pid : Z) (share : ShareFlags)
    (ticks_since_check : Z) (room : RoomState) : RoomState * list CoPilotMsg * bool :=
  match evs with
  | [] => (room, [], false)
  | (now, ev) :: r =>
      let continue ticks room out :=
        let '(room', out', left_) := copilot_events r pid share ticks room in (room', out ++ out', left_) in
      match ev with
      | EvEnded | EvClosed | EvSocketError => (room, [], true)
      | EvFanout sent => if sent then continue ticks_since_check room [] else (room, [], true)
      | EvFanoutClosed | EvOtherMessage => continue ticks_since_check room []
      | EvText text => let '(room', out) := copilot_text text pid share now room in continue ticks_since_check room' out
      | EvTick ping_sent lookup =>
          if negb ping_sent then (room, [], true)
          else if revoke_check_every <=? ticks_since_check + 1 then
            match lookup with
            | Some false => (room, [], true)
            | _ => continue 0 room []
            end
          else continue (ticks_since_check + 1) room []
      | EvForeign o => continue ticks_since_check (room_step now o room) []
      end
  end.

Inductive loop_end :=
| JoinRefused (e : JoinError)
| WelcomeFailed
| Left
| Running.

(** [copilot_room_loop]; the welcome goes out at [t_welcome], the participant
    leaves at [t_leave]. *)
Definition copilot_room_loop `{HashIter} `{Json CoPilotMsg} (display_name : bytes) (is_owner : bool) (pid : Z) (tag : bytes)
    (t_join t_welcome t_leave : Z) (welcome_sent : bool) (share : ShareFlags) (evs : list (Z * loop_event)) (room : RoomState) :
    RoomState * list CoPilotMsg * loop_end :=
  match join display_name is_owner pid tag t_join room with
  | (room, Err e) => (room, [], JoinRefused e)
  | (room, Ok _) =>
      if negb welcome_sent then (fst (leave pid t_welcome room), [], WelcomeFailed)
      else
        let hello := Roster (roster room) in
        let '(room, out, left_) := copilot_events evs pid share 0 room in
        if negb left_ then (room, hello :: out, Running)
        else
          let '(room, removed) := leave pid t_leave room in
          (room, hello :: out ++ (if removed then [Leave pid; Roster (roster room)] else []), Left)
  end.

(** [copilot_force_grant] once the share was found to belong to the caller:
    [None] is the 404 for a participant who is not there; the first owner of
    the roster, or the nil id, is named as the origin. *)
Definition copilot_force_grant (target_pid now : Z) (room : RoomState) : RoomState * option (list CoPilotMsg) :=
  let by_pid := from_option re_pid 0 (head (filter (fun r => re_is_owner r = true) (roster room))) in
  match force_grant target_pid now room with
  | (room', Err _) => (room', None)
  | (room', Ok _) => (room', Some [InputGrant target_pid by_pid; Roster (roster room')])
  end.

(** ** Creating a share *)

Definition MAX_MULTIPLAYER_PARTICIPANTS : Z := 6.

(** The settings [create_share] stores: multiplayer, participants, chat and
    audio. *)
Definition share_settings (mode : bytes) (multiplayer enabled : bool) (max_participants : Z) (allow_chat allow_audio : bool) :
    bool * Z * bool * bool :=
  let multiplayer := multiplayer && bool_decide (mode = str "control") && enabled in
  (multiplayer, if multiplayer then Z.max 1 (Z.min max_participants MAX_MULTIPLAYER_PARTICIPANTS) else 1,
   allow_chat && multiplayer, allow_audio && multiplayer).

(** ** The attempt limiter of share links *)

Definition MAX_SHARE_ATTEMPTS : nat := 10.
Definition SHARE_WINDOW : Z := 60 * 1000.
Definition MAX_SHARE_RATE_ENTRIES : nat := Z.to_nat 10000.

Abbreviation attempts_map := (gmap bytes (list Z)).

(** The clock is read for pruning, for the window and for the attempt. *)
Record clock := mk_clock { c_prune : Z; c_window : Z; c_attempt : Z }.

Section limiter.
(** The iteration order of the map. *)
Context (iter : attempts_map -> list (bytes * list Z)).

(** [map.retain(|_, attempts| attempts.iter().any(|t| *t > cutoff))]. *)
Definition prune_expired (cutoff : Z) (m : attempts_map) : attempts_map :=
  filter (fun kv => existsb (fun t => cutoff <? t) (snd kv) = true) m.

(** The newest attempt, [now] for an empty list. *)
Definition newest (now : Z) (l : list Z) : Z := match l with [] => now | x :: r => fold_left Z.max r x end.

(** The sort key is the newest attempt. *)
Definition older (a b : bytes * Z) : Prop := snd a <= snd b.
#[local] Instance older_dec : RelDecision older.
Proof. intros a b. unfold older. apply _. Defined.

(** The [overflow] entries whose newest attempt is oldest. *)
Definition oldest_entries (now : Z) (overflow : nat) (m : attempts_map) : list bytes :=
  fst <$> take overflow (merge_sort older ((fun kv => (fst kv, newest now (snd kv))) <$> iter m)).

Definition evict (c : clock) (m : attempts_map) : attempts_map :=
  if (MAX_SHARE_RATE_ENTRIES <? size m)%nat then
    let m := prune_expired (c_prune c - SHARE_WINDOW) m in
    if (MAX_SHARE_RATE_ENTRIES <? size m)%nat then
      fold_left (fun m k => delete k m) (oldest_entries (c_prune c) (size m - MAX_SHARE_RATE_ENTRIES) m) m
    else m
  else m.

(** The block that decides [rate_limited] in [ws_shared_tunnel]; [true] when
    the attempt goes through. *)
Definition share_attempt (token : bytes) (c : clock) (m : attempts_map) : attempts_map * bool :=
  let m := evict c m in
  let cutoff := c_window c - SHARE_WINDOW in
  let attempts := filter (fun t => cutoff < t) (default [] (m !! token)) in
  if (MAX_SHARE_ATTEMPTS <=? length attempts)%nat then (<[token := attempts]> m, false)
  else (<[token := attempts ++ [c_attempt c]]> m, true).
End limiter.

(** ** Lemmas on the scan *)

Lemma cut_before (c : Z) (a b x rest : bytes) :
  c ∉ a -> a ++ x = b ++ c :: rest -> exists z, b = a ++ z /\ x = z ++ c :: rest.
Proof.
  revert b. induction a as [|y a IH]; intros b Ha E; [by exists b|]. rewrite not_elem_of_cons in Ha.
  destruct b as [|y' b]; cbn [app] in E; injection E as -> E; [tauto|].
  destruct (IH b) as (z & -> & ->); [tauto|done|]. by exists z.
Qed.

Lemma trim_start_cut z rest :
  exists z', trim_start (z ++ 59 :: rest) = z' ++ 59 :: rest /\ (length z' <= length z)%nat.
Proof.
  destruct (strip_all_split (length (z ++ 59 :: rest)) white_space (z ++ 59 :: rest)) as (w & Hs & Hw).
  fold (trim_start (z ++ 59 :: rest)) in Hs.
  destruct (cut_before 59 w z (trim_start (z ++ 59 :: rest)) rest) as (z' & -> & E).
  - intros Hin. rewrite Forall_forall in Hw. apply Hw in Hin. revert Hin. apply (bool_decide_unpack _). by vm_compute.
  - by rewrite <- Hs.
  - exists z'. split; [done|]. rewrite length_app. lia.
Qed.

Lemma parse_int_chars lo hi s v c : parse_int lo hi s = Some v -> c ∈ s -> is_digit c = true \/ c = 43 \/ c = 45.
Proof.
  unfold parse_int. intros Hp Hc.
  assert (forall ds, forallb is_digit ds = true -> c ∈ ds -> is_digit c = true) as Hd.
  { intros ds Hds Hin. rewrite forallb_forall in Hds. by apply Hds, list_elem_of_In. }
  destruct s as [|x s]; [done|]. apply elem_of_cons in Hc as [->|Hc].
  - destruct (decide (x = 43)); [tauto|]. destruct (decide (x = 45)); [tauto|]. left.
    assert (forallb is_digit (x :: s) = true) as Hall; [|by apply (Hd (x :: s)); [|left]].
    repeat case_match; simplify_eq; done.
  - left. assert (forallb is_digit s = true) as Hall; [|by apply (Hd s)].
    repeat case_match; simplify_eq; cbn [forallb] in *; b2p; done.
Qed.

Lemma allowed_no_semicolon op : op ∈ GUEST_INPUT_OPCODE_ALLOWLIST -> 59 ∉ op.
Proof.
  intros Hop. assert (forallb (fun o => bool_decide (59 ∉ o)) GUEST_INPUT_OPCODE_ALLOWLIST = true) as Hall by (by vm_compute).
  rewrite forallb_forall in Hall. apply list_elem_of_In, Hall in Hop. by b2p.
Qed.

Lemma split_once_length sep s x y : split_once sep s = Some (x, y) -> length s = (length x + S (length y))%nat.
Proof. intros [-> _]%split_once_spec. rewrite length_app. done. Qed.

Lemma trim_start_length s : (length (trim_start s) <= length s)%nat.
Proof.
  destruct (strip_all_split (length s) white_space s) as (w & Hs & _). fold (trim_start s) in Hs.
  rewrite Hs at 2. rewrite length_app. lia.
Qed.

(** From the length on, the amount of fuel does not matter. *)
Lemma scan_fuel f1 : forall f2 rem, (length rem < f1)%nat -> (length rem < f2)%nat -> scan_opcodes f1 rem = scan_opcodes f2 rem.
Proof.
  induction f1 as [|f1 IH]; intros [|f2] rem H1 H2; [lia..|]. cbn [scan_opcodes]. destruct rem as [|b r]; [done|].
  pose proof (trim_start_length (b :: r)) as Ht. destruct (trim_start (b :: r)) as [|b' r'] eqn:Et; [done|].
  destruct (split_once 46 (b' :: r')) as [[ds pool]|] eqn:Es; [|done]. destruct (parse_u64 ds); [|done].
  case_test; [done|]. case_test; [|done]. destruct (split_once 59 _) as [[x rest]|] eqn:Er; [|done].
  apply split_once_length in Es, Er. rewrite length_drop in Er. apply IH; lia.
Qed.

(** A round that does not reject. *)
Lemma scan_round rem b r :
  first_disallowed_guest_opcode rem = None -> trim_start rem = b :: r ->
  exists ds pool len op after rest,
    b :: r = ds ++ 46 :: pool /\ (46 ∉ ds) /\ parse_u64 ds = Some len /\
    op = take (default (length pool) (nth_char len 0 pool)) pool /\ op ∈ GUEST_INPUT_OPCODE_ALLOWLIST /\
    pool = op ++ after ++ 59 :: rest /\ (59 ∉ after) /\
    first_disallowed_guest_opcode rest = None.
Proof.
  intros Hs Ht. unfold first_disallowed_guest_opcode in Hs. cbn [scan_opcodes] in Hs.
  destruct rem as [|b0 r0]; [by vm_compute in Ht|]. pose proof (trim_start_length (b0 :: r0)) as Hl. rewrite Ht in Hs, Hl.
  destruct (split_once 46 (b :: r)) as [[ds pool]|] eqn:Es; [|done]. destruct (parse_u64 ds) as [len|] eqn:Ep; [|done].
  case_test. case_test; b2p. set (off := default (length pool) (nth_char len 0 pool)) in *.
  destruct (split_once 59 (drop off pool)) as [[after rest]|] eqn:Er; [|done].
  pose proof (split_once_length _ _ _ _ Es) as Hl1. pose proof (split_once_length _ _ _ _ Er) as Hl2. rewrite length_drop in Hl2.
  apply split_once_spec in Es as [Es Hds], Er as [Er Haft]. exists ds, pool, len, (take off pool), after, rest.
  split_and!; try done.
  - by rewrite <- Er, take_drop.
  - unfold first_disallowed_guest_opcode. rewrite <- Hs. apply scan_fuel; lia.
Qed.

(** The filter has inspected what follows every semicolon of the frame, even
    one inside an argument. *)
Lemma scan_after z : forall rest,
  first_disallowed_guest_opcode (z ++ 59 :: rest) = None -> first_disallowed_guest_opcode rest = None.
Proof.
  induction z as [z IH] using (induction_ltof1 _ (@length Z)). unfold ltof in IH. intros rest Hs.
  destruct (trim_start_cut z rest) as (z' & Ht & Hl).
  destruct (trim_start (z ++ 59 :: rest)) as [|b r] eqn:Et; [by destruct z'|].
  destruct (scan_round _ b r Hs Et) as (ds & pool & len & op & after & rest' & E & Hds & Hp & Hop & Hal & Epool & Haft & Hrest).
  rewrite Ht in E. symmetry in E. change (ds ++ 46 :: pool) with (ds ++ [46] ++ pool) in E. rewrite (assoc_L (++)) in E.
  apply cut_before in E as (z1 & -> & E1).
  2:{ rewrite not_elem_of_app, list_elem_of_singleton. split; [|done]. intros Hin.
      apply (parse_int_chars _ _ _ _ _ Hp) in Hin as [?|[?|?]]; done. }
  rewrite Epool in E1. apply cut_before in E1 as (z2 & -> & E2); [|by apply allowed_no_semicolon].
  apply (cut_before 59 after) in E2 as (z3 & -> & E3); [|done].
  destruct z3 as [|y z3]; cbn [app] in E3; [by injection E3 as ->|]. injection E3 as <- ->.
  apply (IH z3); [|done]. rewrite !length_app in Hl. cbn [length] in Hl. lia.
Qed.

(** ** What the parser reads *)

Section sound.
Context `{Winnow}.

Lemma parse_element_shape input v r :
  parse_element input = Ok (v, r) ->
  exists ds, input = ds ++ 46 :: v ++ r /\ ds <> [] /\ Forall (fun d => is_digit d = true) ds /\
    (length ds <= MAX_LENGTH_DIGITS)%nat /\ digits_value ds = Z.of_nat (char_count v).
Proof.
  unfold parse_element. destruct input as [|b input]; [done|]. destruct (negb (is_digit b)); [done|].
  rewrite take_while_m_n_spec. cbn zeta. set (l := b :: input) in *.
  pose proof (prefix_while_Forall MAX_LENGTH_DIGITS is_digit l) as Hd.
  pose proof (prefix_while_length MAX_LENGTH_DIGITS is_digit l) as Hlen.
  pose proof (prefix_while_prefix MAX_LENGTH_DIGITS is_digit l) as Hpre.
  set (ds := prefix_while MAX_LENGTH_DIGITS is_digit l) in *. destruct (1 <=? length ds)%nat eqn:E1; [|done]. b2p.
  destruct (drop (length ds) l) as [|c rest] eqn:Er; [done|].
  destruct (decide (c = 46)) as [->|Hc]; [|by repeat case_match; simplify_eq].
  destruct (MAX_ELEMENT_CHARS <? digits_value ds) eqn:Em; [done|]. b2p.
  unfold utf8_prefix_len. destruct (utf8_prefix_loop rest _ 0) as [[n|]|] eqn:Eu; [|done..].
  apply utf8_prefix_loop_count in Eu as [[_ Hn] Hcnt]; [|lia]. rewrite Nat.sub_0_r, drop_0 in Hcnt.
  rewrite take_n_spec. take_true (n <=? length rest)%nat.
  destruct (utf8_valid (take n rest)); [|done]. intros [= <- <-]. exists ds.
  split_and!; [rewrite take_drop; exact Hpre|intros Enil; rewrite Enil in E1; simpl in E1; lia|done|done|].
  rewrite Hcnt. rewrite Z2Nat.id; [done|]. unfold digits_value. clear -Hd.
  assert (forall acc, 0 <= acc -> 0 <= fold_left (fun acc d => acc * 10 + (d - 48)) ds acc) as Hge; [|by apply Hge].
  induction Hd as [|d ds Hd _ IH]; intros acc Hacc; [done|]. cbn [fold_left]. apply IH. apply digit_range in Hd. lia.
Qed.

(** An instruction ends in a semicolon, and a delimiter follows its opcode. *)
Lemma parse_args_shape fuel : forall op args input i r,
  parse_args fuel op args input = Ok (i, r) ->
  opcode i = op /\ (exists b y, input = b :: y /\ is_cont b = false) /\ exists y, input = y ++ 59 :: r.
Proof.
  induction fuel as [|fuel IH]; intros op args input i r E; [done|]. destruct input as [|b inp]; [done|].
  rewrite parse_args_cons in E. destruct (b =? 59) eqn:E59; b2p.
  { injection E as <- <-. subst. split_and!; [done|by exists 59, inp|by exists []]. }
  destruct (b =? 44) eqn:E44; [|done]. b2p. subst. destruct (MAX_INSTRUCTION_ELEMENTS <=? length args + 1)%nat; [done|].
  apply result_bind_Ok in E as ([a inp'] & Ea & E). apply parse_element_sound in Ea as (_ & _ & pre & ->).
  apply IH in E as (Hop & _ & y & ->). split_and!; [done|by exists 44, (pre ++ y ++ 59 :: r)|].
  exists (44 :: pre ++ y). cbn. by rewrite <- (assoc_L (++)).
Qed.

Lemma nth_char_app v rest b i :
  is_cont b = false -> nth_char (Z.of_nat (char_count v)) i (v ++ b :: rest) = Some (i + length v)%nat.
Proof.
  intros Hb. revert i. induction v as [|x v IH]; intros i; cbn [app nth_char].
  - rewrite Hb. cbn. by rewrite Nat.add_0_r.
  - change (x :: v) with ([x] ++ v). rewrite char_count_app.
    assert (char_count [x] = if is_cont x then 0%nat else 1%nat) as ->.
    { unfold char_count. destruct (is_cont x) eqn:Ex; [by rewrite filter_cons_False by congruence|by rewrite filter_cons_True by done]. }
    destruct (is_cont x).
    + cbn [Nat.add]. rewrite IH. cbn. f_equal. lia.
    + take_false (Z.of_nat (1 + char_count v) =? 0). replace (Z.of_nat (1 + char_count v) - 1) with (Z.of_nat (char_count v)) by lia.
      rewrite IH. cbn. f_equal. lia.
Qed.

Lemma digits_value_bound ds : Forall (fun d => is_digit d = true) ds -> (length ds <= MAX_LENGTH_DIGITS)%nat ->
  is_u64 (digits_value ds).
Proof.
  intros Hd Hl. assert (0 <= digits_value ds < 10 ^ Z.of_nat (length ds)) as Hb.
  { clear Hl. induction ds as [|d ds IH] using rev_ind; [done|]. apply Forall_app in Hd as [Hd [Hx _]%Forall_cons].
    rewrite digits_value_app, length_app, Nat2Z.inj_add, Z.pow_add_r by lia. apply digit_range in Hx. specialize (IH Hd).
    change (10 ^ Z.of_nat (length [d])) with 10. lia. }
  assert (10 ^ Z.of_nat (length ds) <= 10 ^ 9) by (apply Z.pow_le_mono_r; unfold MAX_LENGTH_DIGITS in Hl; lia).
  unfold in_range, u64_max. lia.
Qed.

(** The filter and the parser agree on the opcode, and the filter has looked
    at the next instruction too. *)
Lemma scan_parse input i r :
  first_disallowed_guest_opcode input = None -> parse_instruction input = Ok (i, r) ->
  opcode i ∈ GUEST_INPUT_OPCODE_ALLOWLIST /\ first_disallowed_guest_opcode r = None.
Proof.
  intros Hs E. unfold parse_instruction in E. apply result_bind_Ok in E as ([op inp] & Eo & E).
  apply parse_element_shape in Eo as (ds & -> & Hne & Hd & Hlen & Hv).
  apply parse_args_shape in E as (<- & (b & y & -> & Hb) & z & Ez).
  destruct ds as [|d ds']; [done|]. assert (is_digit d = true) as Hd1 by (by inversion Hd).
  destruct (scan_round _ d (ds' ++ 46 :: opcode i ++ b :: y) Hs (digit_head_trim _ _ Hd1)) as
    (ds2 & pool & len & op2 & after & rest & E2 & Hds2 & Hp2 & Hop2 & Hal & _).
  assert (46 ∉ d :: ds') as Hdot by (intros Hin; rewrite Forall_forall in Hd; by apply Hd in Hin).
  change (d :: ds' ++ 46 :: opcode i ++ b :: y) with ((d :: ds') ++ 46 :: opcode i ++ b :: y) in E2.
  apply split_unique_l in E2 as [<- <-]; [|done..]. split.
  - unfold parse_u64 in Hp2. rewrite parse_int_digits in Hp2 by (done || by apply digits_value_bound).
    injection Hp2 as <-. rewrite Hv, nth_char_app in Hop2 by done. cbn [default Nat.add] in Hop2.
    unfold id in Hop2. rewrite take_app_length in Hop2. by subst.
  - apply (scan_after ((d :: ds') ++ 46 :: opcode i ++ z)). rewrite <- Hs. f_equal.
    rewrite Ez, <- !(assoc_L (++)). cbn [app]. by rewrite <- (assoc_L (++)).
Qed.

(** What a guest's instruction can be. *)
Definition guest_instruction (c : ClientInstruction) : Prop :=
  match c with
  | CSync _ | CGet _ _ | CPut _ _ _ _ | CDisconnect => False
  | CUnhandled op => op ∈ GUEST_INPUT_OPCODE_ALLOWLIST
  | _ => True
  end.

Lemma from_wire_guest i c : opcode i ∈ GUEST_INPUT_OPCODE_ALLOWLIST -> from_wire i = Ok c -> guest_instruction c.
Proof.
  intros Hop. unfold from_wire.
  assert (forall s, s ∉ GUEST_INPUT_OPCODE_ALLOWLIST -> opcode i <> s) as Hnot by (intros s Hs E; rewrite E in Hop; done).
  rewrite (decide_False (P := opcode i = str "sync")), (decide_False (P := opcode i = str "get")),
    (decide_False (P := opcode i = str "put")), (decide_False (P := opcode i = str "disconnect"))
    by (apply Hnot; apply (bool_decide_unpack _); by vm_compute).
  repeat case_decide; intros E; repeat (apply result_bind_Ok in E as (? & _ & E)); by injection E as <-.
Qed.

Lemma drain_guest fuel : forall d,
  first_disallowed_guest_opcode (buf d) = None -> Forall guest_instruction (fst (fst (drain fuel d))).
Proof.
  induction fuel as [|fuel IH]; intros d Hs; [constructor|]. cbn [drain]. unfold next_instruction.
  unfold try_parse_instruction. destruct (parse_instruction (buf d)) as [[i r]|[]] eqn:E.
  - destruct (from_wire i) as [c|] eqn:Ef; [|constructor].
    pose proof (parse_instruction_sound _ _ _ E) as (_ & _ & pre & Epre).
    destruct (scan_parse _ _ _ Hs E) as [Hop Hr].
    assert (drop (length (buf d) - length r) (buf d) = r) as Hdrop.
    { rewrite Epre, length_app. replace (length pre + length r - length r)%nat with (length pre) by lia. apply drop_app_length. }
    rewrite Hdrop. specialize (IH (mk_decoder r (limit d)) Hr).
    destruct (drain fuel (mk_decoder r (limit d))) as [[cs e] d'']. cbn in *. constructor; [|done]. by eapply from_wire_guest.
  - destruct (limit d <? length (buf d))%nat; constructor.
  - constructor.
Qed.

(** C17: the guest filter agrees with the decoder.  Whatever text a viewer
    sends, with semicolons or forged instructions hidden inside arguments,
    multi-byte characters, signs or leading zeros in the lengths, if the
    filter lets the frame through then every instruction the session's
    decoder reads from it has an allow-listed opcode: no disconnect, no sync
    acknowledgement and no file request ever reaches the session. *)
Theorem guest_filter_sound frame accepted :
  first_disallowed_guest_opcode frame = None ->
  Forall guest_instruction (forward_guest_instructions frame accepted).
Proof. intros Hs. unfold forward_guest_instructions. apply Forall_take. by apply drain_guest. Qed.
End sound.

(** ** Envelopes carry their sender *)

(** The participant a message speaks for. *)
Definition author (m : CoPilotMsg) : option Z :=
  match m with
  | Cursor pid _ _ _ | Chat pid _ _ | InputClaim pid | InputRelease pid | InputGrant pid _
  | AudioOffer pid _ _ | AudioAnswer pid _ _ | Ice pid _ _ | Leave pid => Some pid
  | InputRevoke by_ _ => Some by_
  | Hello _ _ _ | Welcome _ _ _ _ | Roster _ | SessionEnded _ => None
  end.

(** Chat and audio only if the share allows them, and no server message but
    a roster or a grant. *)
Definition msg_allowed (share : ShareFlags) (m : CoPilotMsg) : Prop :=
  match m with
  | Chat _ _ _ => sh_allow_chat share = true
  | AudioOffer _ _ _ | AudioAnswer _ _ _ | Ice _ _ _ => sh_allow_audio share = true
  | Hello _ _ _ | Welcome _ _ _ _ | InputRevoke _ _ | Leave _ | SessionEnded _ => False
  | Roster _ | Cursor _ _ _ _ | InputClaim _ | InputRelease _ | InputGrant _ _ => True
  end.

(** Nobody can speak for another participant.  Whatever text arrives on
    the socket of participant [pid], each message it makes the room broadcast
    either speaks for [pid] or is the room's own roster; chat and audio
    appear only if the share allows them; and the room changes at most in its
    token, which goes from nobody or an idle or overruled holder to [pid], or
    from [pid] to nobody. *)
Lemma envelope_not_forged `{Json CoPilotMsg} text pid share now room :
  let '(room', msgs) := copilot_text text pid share now room in
  Forall (fun m => author m = Some pid \/ m = Roster (roster room')) msgs /\
  Forall (msg_allowed share) msgs /\
  participants room' = participants room /\ join_order room' = join_order room /\
  (input_holder room' = input_holder room \/
   input_holder room' = Some pid /\ room' = fst (try_claim_input pid now room) \/
   input_holder room' = None /\ input_holder room = Some pid).
Proof.
  unfold copilot_text. assert (forall (P Q : CoPilotMsg -> Prop), Forall P [] /\ Forall Q [] /\
    participants room = participants room /\ join_order room = join_order room /\
    (input_holder room = input_holder room \/ input_holder room = Some pid /\ room = fst (try_claim_input pid now room) \/
     input_holder room = None /\ input_holder room = Some pid)) as Hnone by (intros; split_and!; [constructor..|done|done|by left]).
  destruct (looks_like_envelope text); [|apply Hnone]. destruct (json_from_slice text) as [env|]; [|apply Hnone].
  destruct (validate env); [|apply Hnone]. destruct env; cbn [handle_client_envelope]; try apply Hnone;
    try match goal with |- context [if ?f then _ else _] => destruct f eqn:Ef end; try apply Hnone;
    try (split_and!; [apply Forall_singleton; by left|by apply Forall_singleton|done|done|by left]).
  - destruct (try_claim_input pid now room) as [room' res] eqn:Ec.
    unfold try_claim_input in Ec. destruct (participants room !! pid) as [p|]; [|injection Ec as <- <-; apply Hnone].
    destruct (input_holder room) as [h|] eqn:Eh.
    + destruct (h =? pid); [injection Ec as <- <-; split_and!; [constructor..|done|done|by left]|].
      destruct (negb _ && _); injection Ec as <- <-; [split_and!; [constructor..|done|done|by left]|].
      split_and!; [apply Forall_cons; split; [by left|apply Forall_singleton; by right]|by repeat constructor|done|done|right; left; done].
    + injection Ec as <- <-. split_and!; [apply Forall_cons; split; [by left|apply Forall_singleton; by right]|by repeat constructor|done|done|right; left; done].
  - unfold release_input. case_bool_decide as Eh; [|apply Hnone].
    split_and!; [apply Forall_singleton; by right|by repeat constructor|done|done|by right; right].
Qed.

(** ** Nobody is left behind *)

Section lifecycle.
Context `{HashIter} `{Json CoPilotMsg}.

Lemma leave_gone pid now room : participants (fst (leave pid now room)) !! pid = None.
Proof.
  unfold leave. destruct (participants room !! pid) eqn:E; [|done]. case_bool_decide; cbn; apply lookup_delete_eq.
Qed.

Lemma leave_token pid now room :
  input_holder (fst (leave pid now room)) = input_holder room \/
  match input_holder (fst (leave pid now room)) with
  | Some h => exists p, p_pid p = h /\ p_is_owner p = true /\ exists k, participants room !! k = Some p /\ k <> pid
  | None => True
  end.
Proof.
  unfold leave. destruct (participants room !! pid) eqn:E; [|by left]. case_bool_decide as Eh; cbn; [right|by left].
  destruct (filter (fun p => p_is_owner p = true) (map_values (delete pid (participants room)))) as [|q qs] eqn:Eq; cbn; [done|].
  assert (q ∈ q :: qs) as Hq by left. rewrite <- Eq in Hq. apply list_elem_of_filter in Hq as [Ho Hq].
  apply elem_of_values in Hq as [k Hk]. apply lookup_delete_Some in Hk as [Hne Hk]. exists q. split_and!; [done..|by exists k].
Qed.

(** A co-pilot socket never leaves a ghost behind.  However it ends (the
    join refused, the welcome not delivered, the client gone, a send failed,
    the share revoked, the host's session over) and whatever other sockets
    do meanwhile, when the loop has returned its participant is not in the
    room, and if it was refused the room is as it was. *)
Lemma copilot_loop_leaves display_name is_owner pid tag t1 t2 t3 welcome_sent share evs room :
  let '(room', _, how) := copilot_room_loop display_name is_owner pid tag t1 t2 t3 welcome_sent share evs room in
  match how with
  | Running => True
  | JoinRefused _ => room' = room
  | WelcomeFailed | Left => participants room' !! pid = None
  end.
Proof.
  unfold copilot_room_loop. destruct (join display_name is_owner pid tag t1 room) as [room1 [p|e]] eqn:Ej.
  - destruct welcome_sent; cbn [negb]; [|apply leave_gone].
    destruct (copilot_events evs pid share 0 room1) as [[room2 out] left_]. destruct left_; cbn [negb]; [|done].
    pose proof (leave_gone pid t3 room2) as Hl. by destruct (leave pid t3 room2) as [room3 removed].
  - revert Ej. unfold join. case_test; [by intros [= <- _]|]. destruct (sanitise_display_name display_name); by intros [= <- _].
Qed.
End lifecycle.

(** ** The attempt limiter *)

Section limiter_props.
Context (iter : attempts_map -> list (bytes * list Z)).

(** The attempts of [token] that went through, in a history of calls. *)
Fixpoint passed (token : bytes) (calls : list (bytes * clock)) (m : attempts_map) : list Z :=
  match calls with
  | [] => []
  | (t, c) :: r =>
      let '(m', ok) := share_attempt iter t c m in
      (if bool_decide (t = token) && ok then [c_attempt c] else []) ++ passed token r m'
  end.

(** The clock never goes back, from [now] on. *)
Fixpoint monotone (now : Z) (calls : list (bytes * clock)) : Prop :=
  match calls with
  | [] => True
  | (_, c) :: r => now <= c_prune c /\ c_prune c <= c_window c /\ c_window c <= c_attempt c /\ monotone (c_attempt c) r
  end.

(** No live entry is evicted for want of space. *)
Fixpoint roomy (calls : list (bytes * clock)) (m : attempts_map) : Prop :=
  match calls with
  | [] => True
  | (t, c) :: r =>
      (size (prune_expired (c_prune c - SHARE_WINDOW) m) <= MAX_SHARE_RATE_ENTRIES)%nat /\
      roomy r (fst (share_attempt iter t c m))
  end.

Definition in_window (a t : Z) : Prop := a < t <= a + SHARE_WINDOW.
#[local] Instance in_window_dec a t : Decision (in_window a t).
Proof. unfold in_window. apply _. Defined.

Definition sparse (l : list Z) : Prop := forall a, (length (filter (in_window a) l) <= MAX_SHARE_ATTEMPTS)%nat.

(** The map holds the recent ones of the attempts [acc] of [token]. *)
Definition tracks (token : bytes) (now : Z) (acc : list Z) (m : attempts_map) : Prop :=
  exists cut, cut <= now - SHARE_WINDOW /\ default [] (m !! token) = filter (fun t => cut < t) acc.

Lemma filter_gt_gt (a b : Z) (l : list Z) :
  a <= b -> filter (fun t => b < t) (filter (fun t => a < t) l) = filter (fun t => b < t) l.
Proof. intros Hab. apply list_filter_filter_l. intros. lia. Qed.

Lemma evict_tracks token now acc m c :
  tracks token now acc m -> now <= c_prune c ->
  (size (prune_expired (c_prune c - SHARE_WINDOW) m) <= MAX_SHARE_RATE_ENTRIES)%nat ->
  tracks token (c_prune c) acc (evict iter c m).
Proof.
  intros (cut & Hcut & Hm) Hc Hsz. unfold evict. case_test; [|exists cut; split; [lia|done]].
  destruct (MAX_SHARE_RATE_ENTRIES <? size (prune_expired (c_prune c - SHARE_WINDOW) m))%nat eqn:E; b2p; [lia|].
  unfold prune_expired. destruct (m !! token) as [l|] eqn:El.
  - destruct (existsb (fun t => c_prune c - SHARE_WINDOW <? t) l) eqn:Ex.
    + exists cut. split; [lia|]. rewrite (proj2 (map_lookup_filter_Some _ _ _ l)); [done|]. done.
    + exists (c_prune c - SHARE_WINDOW). split; [done|].
      rewrite (proj2 (map_lookup_filter_None _ m token)).
      * cbn. rewrite <- (filter_gt_gt cut) by lia. cbn in Hm. rewrite <- Hm. symmetry. apply filter_none.
        intros t Ht Hlt. apply not_true_iff_false in Ex. apply Ex, existsb_exists. exists t. split; [by apply list_elem_of_In|bdec].
      * right. intros l' Hl'. rewrite El in Hl'. injection Hl' as <-. cbn. by rewrite Ex.
  - exists cut. split; [lia|]. rewrite (proj2 (map_lookup_filter_None _ m token)); [done|by left].
Qed.

Lemma sparse_snoc l cutoff c :
  sparse l -> cutoff = c_window c - SHARE_WINDOW -> c_window c <= c_attempt c ->
  (length (filter (fun t => (cutoff < t)%Z) l) < MAX_SHARE_ATTEMPTS)%nat -> sparse (l ++ [c_attempt c]).
Proof.
  intros Hs -> Hc Hlen a. rewrite filter_app, length_app. destruct (decide (in_window a (c_attempt c))) as [Hin|Hout].
  - rewrite (filter_cons_True (in_window a)), filter_nil by done. cbn [length].
    enough (length (filter (in_window a) l) <= length (filter (fun t => (c_window c - SHARE_WINDOW < t)%Z) l))%nat by lia.
    clear -Hin Hc. induction l as [|x l IH]; [done|].
    destruct (decide (in_window a x)) as [Hx|Hx].
    + rewrite (filter_cons_True (in_window a)), filter_cons_True by (done || (unfold in_window in *; lia)). cbn [length]. lia.
    + rewrite (filter_cons_False (in_window a)) by done. rewrite filter_cons. case_decide; cbn [length]; lia.
  - rewrite (filter_cons_False (in_window a)), filter_nil by done. cbn [length]. specialize (Hs a). lia.
Qed.

Lemma share_rate_step token acc calls : forall now m,
  monotone now calls -> roomy calls m -> tracks token now acc m -> sparse acc -> sparse (acc ++ passed token calls m).
Proof.
  revert acc. induction calls as [|[t c] calls IH]; intros acc now m Hmono Hroom Htr Hs; cbn [passed]; [by rewrite app_nil_r|].
  destruct Hmono as (Hp & Hw & Ha & Hmono). destruct Hroom as [Hsz Hroom].
  apply evict_tracks with (c := c) in Htr as (cut & Hcut & Hm); [|done..]. revert Hroom. unfold share_attempt.
  set (m' := evict iter c m) in *.
  set (attempts := filter (fun t => (c_window c - SHARE_WINDOW < t)%Z) (default [] (m' !! t))).
  destruct (decide (t = token)) as [->|Hne].
  - assert (attempts = filter (fun t => c_window c - SHARE_WINDOW < t) acc) as Hatt
      by (unfold attempts; rewrite Hm; apply filter_gt_gt; lia).
    rewrite bool_decide_true by done. destruct (MAX_SHARE_ATTEMPTS <=? length attempts)%nat eqn:Ecap; b2p; intros Hroom; cbn [andb app].
    + apply (IH acc (c_attempt c)); try done. exists (c_window c - SHARE_WINDOW). split; [lia|]. by rewrite lookup_insert_eq.
    + rewrite cons_middle, (assoc_L (++)). apply (IH (acc ++ [c_attempt c]) (c_attempt c)); try done.
      * exists (c_window c - SHARE_WINDOW). split; [lia|]. rewrite lookup_insert_eq. cbn [default]. unfold id.
        rewrite filter_app, Hatt, (filter_cons_True _ (c_attempt c)), filter_nil; [done|]. unfold SHARE_WINDOW. lia.
      * eapply sparse_snoc; [done|reflexivity|done|]. by rewrite <- Hatt.
  - rewrite bool_decide_false by done. cbn [andb].
    destruct (MAX_SHARE_ATTEMPTS <=? length attempts)%nat; intros Hroom; cbn [app];
      (apply (IH acc (c_attempt c)); try done; exists cut; split; [lia|]; by rewrite lookup_insert_ne).
Qed.

(** The attempt limiter: as long as the table has room for the live
    entries, in any sixty seconds at most ten connection attempts with one
    share token go through, however attempts with other tokens interleave. *)
Lemma share_rate_bound token calls now a :
  monotone now calls -> roomy calls ∅ ->
  (length (filter (in_window a) (passed token calls ∅)) <= MAX_SHARE_ATTEMPTS)%nat.
Proof.
  intros Hm Hr. change (passed token calls ∅) with ([] ++ passed token calls ∅).
  apply (share_rate_step token [] calls now ∅); try done.
  - exists (now - SHARE_WINDOW). split; [done|]. by rewrite lookup_empty.
  - intros b. cbn. lia.
Qed.
End limiter_props.

(** ** Examples *)

Module ShareExamples.
Import Reference.

(** A forged instruction inside an argument is inspected and refused. *)
Example forged_refused :
  first_disallowed_guest_opcode (str "4.blob,1.0,15.a;10.disconnect;") = Some (str "disconnect").
Proof. by vm_compute. Qed.

Definition frame : bytes := str "3.key,2.65,1.1; 5.mouse,1.1,1.2,1.0;".

Lemma guest_filter_sound_witness :
  first_disallowed_guest_opcode frame = None /\ Forall guest_instruction (forward_guest_instructions frame 5).
Proof. split; [by vm_compute|]. apply (guest_filter_sound frame 5). by vm_compute. Defined.

Definition burst : list (bytes * clock) :=
  (fun i => (str "t", mk_clock (Z.of_nat i) (Z.of_nat i) (Z.of_nat i))) <$> seq 0 12.

Lemma share_rate_bound_witness :
  (length (filter (in_window (-1)) (passed map_to_list (str "t") burst ∅)) <= MAX_SHARE_ATTEMPTS)%nat.
Proof.
  apply (share_rate_bound map_to_list (str "t") burst 0 (-1)).
  - cbn [monotone burst fmap list_fmap seq c_prune c_window c_attempt]. lia.
  - unfold burst. cbn [roomy fmap list_fmap seq]. split_and!; try done; apply Nat.leb_le; by vm_compute.
Defined.

(** Chat lines as their fields. *)
Definition msg_fields (m : CoPilotMsg) : list bytes :=
  match m with Chat pid text ts => [int_to_string pid; text; int_to_string ts] | _ => [] end.
Definition fields_msg (fs : list bytes) : option CoPilotMsg :=
  match fs with [p; t; ts] => p' ← parse_i64 p; ts' ← parse_i64 ts; Some (Chat p' t ts') | _ => None end.
#[local] Instance msg_json : Json CoPilotMsg := hex_json msg_fields fields_msg.

(** Participant 2 signs a line as participant 1. *)
Definition forged : bytes := default [] (json_to_vec (Chat 1 (str "hi") 0)).

Lemma envelope_not_forged_witness :
  copilot_text forged 2 (mk_flags true false) 0 (room_new 0) = (room_new 0, [Chat 2 (str "hi") 0]) /\
  let '(room', msgs) := copilot_text forged 2 (mk_flags true false) 0 (room_new 0) in
  Forall (fun m => author m = Some 2 \/ m = Roster (roster room')) msgs /\
  Forall (msg_allowed (mk_flags true false)) msgs /\
  participants room' = participants (room_new 0) /\ join_order room' = join_order (room_new 0) /\
  (input_holder room' = input_holder (room_new 0) \/
   input_holder room' = Some 2 /\ room' = fst (try_claim_input 2 0 (room_new 0)) \/
   input_holder room' = None /\ input_holder (room_new 0) = Some 2).
Proof. split; [by vm_compute|]. exact (envelope_not_forged forged 2 (mk_flags true false) 0 (room_new 0)). Defined.
End ShareExamples.
