(* ===== verification/Tokens.v ===== *)
(** * Refresh-token rotation

    [backend/src/services/refresh_tokens.rs].  Table [refresh_tokens] is a map
    from its primary key.  Rotations lock the row they present, so they are
    transactions one after the other; a family revocation changes the rows of
    its snapshot only, which is an argument.  Ids are numbers and times
    milliseconds; [now()] of a transaction is its argument [now]. *)

From S2P Require Import Prelude Machine Text Crates.

Local Open Scope Z_scope.

(** ** Refresh tokens *)

Module Refresh.

Definition CONCURRENT_GRACE : Z := 30 * 1000.
Definition DAY : Z := 24 * 3600 * 1000.

Record Successor := mk_successor { s_jti : Z; s_expires_at : Z }.

Inductive Rotation := Rotated | Concurrent | Reused | Unknown.

#[export] Instance Rotation_eq_dec : EqDecision Rotation.
Proof. solve_decision. Defined.

Record token_row := mk_token_row {
  family_id : Z; user_id : Z; expires_at : Z; consumed_at : option Z; revoked_at : option Z
}.

Abbreviation tokens := (gmap Z token_row).

(** [INSERT] fails on a row that exists; the transaction then changes
    nothing. *)
Definition record_new (jti family user expires : Z) (t : tokens) : result unit tokens :=
  match t !! jti with
  | Some _ => Err tt
  | None => Ok (<[jti := mk_token_row family user expires None None]> t)
  end.

Definition classify (consumed_ago : option Z) (revoked : bool) : Rotation :=
  match consumed_ago with
  | Some age => if negb revoked && (age <? CONCURRENT_GRACE) then Concurrent else Reused
  | None => Reused
  end.

(** A token that the first [UPDATE] of [rotate] consumes. *)
Definition live (now : Z) (r : token_row) : bool :=
  bool_decide (consumed_at r = None) && bool_decide (revoked_at r = None) && (now <? expires_at r).

Definition consume_row (now : Z) (r : token_row) : token_row :=
  mk_token_row (family_id r) (user_id r) (expires_at r) (Some now) (revoked_at r).

Definition revoke_row (now : Z) (r : token_row) : token_row :=
  match revoked_at r with
  | None => mk_token_row (family_id r) (user_id r) (expires_at r) (consumed_at r) (Some now)
  | Some _ => r
  end.

(** The [UPDATE] of [revoke_family_in] and of [revoke_family_of].  [seen] is
    the set of rows in its snapshot: a row that another transaction commits
    while the statement waits for a lock is not in it. *)
Definition revoke_family (now family : Z) (seen : gset Z) (t : tokens) : tokens :=
  map_imap (fun k r => Some (if (family_id r =? family) && bool_decide (k ∈ seen) then revoke_row now r else r)) t.

(** The two statements that may consume the presented token: its row, or
    for a token without a family its first appearance. *)
Definition consume (now jti user : Z) (family : option Z) (old_expires_at fresh_family : Z) (t : tokens) :
    option (Z * tokens) :=
  match t !! jti with
  | Some r =>
      if (user_id r =? user) && live now r then Some (family_id r, <[jti := consume_row now r]> t) else None
  | None =>
      match family with
      | None => Some (fresh_family, <[jti := mk_token_row fresh_family user old_expires_at (Some now) None]> t)
      | Some _ => None
      end
  end.

(** [rotate]; [Err] is a failed insert of the successor, which rolls back. *)
Definition rotate (now jti user : Z) (family : option Z) (old_expires_at fresh_family : Z) (next : Successor)
    (seen : gset Z) (t : tokens) : result unit (tokens * Rotation) :=
  match consume now jti user family old_expires_at fresh_family t with
  | Some (fam, t') =>
      t'' ← record_new (s_jti next) fam user (s_expires_at next) t'; Ok (t'', Rotated)
  | None =>
      match t !! jti with
      | Some r =>
          if user_id r =? user then
            let outcome := classify ((fun c => now - c) <$> consumed_at r) (negb (bool_decide (revoked_at r = None))) in
            if bool_decide (outcome = Reused) then Ok (revoke_family now (family_id r) seen t, outcome) else Ok (t, outcome)
          else Ok (t, Unknown)
      | None => Ok (t, Unknown)
      end
  end.

(** [revoke_family_of]. *)
Definition revoke_family_of (now jti : Z) (seen : gset Z) (t : tokens) : tokens :=
  match t !! jti with Some r => revoke_family now (family_id r) seen t | None => t end.

(** [prune_expired]. *)
Definition prune_expired (now : Z) (t : tokens) : tokens := filter (fun kr => now - DAY <= expires_at (snd kr)) t.

(** ** Histories *)

Inductive op :=
| ONew (jti family user : Z)
| ORotate (jti user : Z) (family : option Z) (fresh_family next : Z)
| OSignOut (jti : Z)
| OPrune.

Section histories.
(** The expiry that each token carries.  The signature check refuses a token
    some leeway after it, before [rotate] is called; less than a day is
    enough. *)
Context (exp_of : Z -> Z).

(** The table, and every id and family it has ever held. *)
Record world := mk_world { tbl : tokens; ever : gset Z; families : gset Z }.

(** Ids are drawn at random ([Uuid::new_v4]) and do not repeat. *)
Definition fresh_op (now : Z) (o : op) (w : world) : Prop :=
  match o with
  | ONew jti family _ => (jti ∉ ever w) /\ (family ∉ families w)
  | ORotate jti _ _ fresh_family next =>
      (next ∉ ever w) /\ next <> jti /\ (fresh_family ∉ families w) /\ now <= exp_of jti + DAY
  | OSignOut _ | OPrune => True
  end.

Definition step (now : Z) (seen : gset Z) (o : op) (w : world) : world * option Rotation :=
  match o with
  | ONew jti family user =>
      match record_new jti family user (exp_of jti) (tbl w) with
      | Ok t => (mk_world t ({[jti]} ∪ ever w) ({[family]} ∪ families w), None)
      | Err _ => (w, None)
      end
  | ORotate jti user family fresh_family next =>
      match rotate now jti user family (exp_of jti) fresh_family (mk_successor next (exp_of next)) seen (tbl w) with
      | Ok (t, Rotated) => (mk_world t ({[jti; next]} ∪ ever w) ({[fresh_family]} ∪ families w), Some Rotated)
      | Ok (t, r) => (mk_world t (ever w) (families w), Some r)
      | Err _ => (w, None)
      end
  | OSignOut jti => (mk_world (revoke_family_of now jti seen (tbl w)) (ever w) (families w), None)
  | OPrune => (mk_world (prune_expired now (tbl w)) (ever w) (families w), None)
  end.

(** A history whose clock does not go back, with what each rotation answered. *)
Inductive history : Z -> world -> list (op * option Rotation) -> Z -> world -> Prop :=
| H_nil t w : history t w [] t w
| H_cons t w now seen o r w' tr t' w'' :
    t <= now -> fresh_op now o w -> step now seen o w = (w', r) -> history now w' tr t' w'' ->
    history t w ((o, r) :: tr) t' w''.

(** What every table reached from an empty one satisfies. *)
Record wf (t : Z) (w : world) : Prop := {
  wf_ever : forall j r, tbl w !! j = Some r -> j ∈ ever w;
  wf_family : forall j r, tbl w !! j = Some r -> family_id r ∈ families w;
  wf_expiry : forall j r, tbl w !! j = Some r -> expires_at r = exp_of j;
  wf_pruned : forall j, j ∈ ever w -> tbl w !! j = None -> exp_of j + DAY < t;
  wf_unspent : forall j j' r r', tbl w !! j = Some r -> tbl w !! j' = Some r' ->
    family_id r = family_id r' -> consumed_at r = None -> consumed_at r' = None -> j = j';
}.

Definition spent (j : Z) (w : world) : Prop :=
  j ∈ ever w /\ forall r, tbl w !! j = Some r -> consumed_at r <> None.

Definition dead (f : Z) (w : world) : Prop :=
  f ∈ families w /\ forall j r, tbl w !! j = Some r -> family_id r = f -> revoked_at r <> None.

(** *** What an operation does to the rows *)

Lemma revoke_row_spec now r : family_id (revoke_row now r) = family_id r /\ expires_at (revoke_row now r) = expires_at r
  /\ consumed_at (revoke_row now r) = consumed_at r /\ revoked_at (revoke_row now r) <> None
  /\ user_id (revoke_row now r) = user_id r.
Proof. unfold revoke_row. destruct (revoked_at r) eqn:E; repeat split; cbn; congruence. Qed.

Lemma revoke_family_lookup now f seen t j :
  revoke_family now f seen t !! j =
  (fun r => if (family_id r =? f) && bool_decide (j ∈ seen) then revoke_row now r else r) <$> t !! j.
Proof. unfold revoke_family. rewrite map_lookup_imap. by destruct (t !! j). Qed.

(** Rows only change by being spent or revoked. *)
Definition keeps (w w' : tokens) : Prop :=
  forall j r', w' !! j = Some r' -> exists r, w !! j = Some r /\ family_id r' = family_id r
    /\ expires_at r' = expires_at r /\ (consumed_at r <> None -> consumed_at r' <> None)
    /\ (revoked_at r <> None -> revoked_at r' <> None).

Lemma revoke_family_keeps now f seen t : keeps t (revoke_family now f seen t).
Proof.
  intros j r'. rewrite revoke_family_lookup. intros (r & E & ->)%fmap_Some. exists r. split; [done|].
  destruct (revoke_row_spec now r) as (? & ? & ? & ? & ?).
  destruct (_ && _); repeat split; congruence.
Qed.

Lemma revoke_family_dom now f seen t j : revoke_family now f seen t !! j = None <-> t !! j = None.
Proof. rewrite revoke_family_lookup. apply fmap_None. Qed.

Lemma prune_lookup now t j r : prune_expired now t !! j = Some r <-> t !! j = Some r /\ now - DAY <= expires_at r.
Proof. apply map_lookup_filter_Some. Qed.

Lemma keeps_refl t : keeps t t.
Proof. intros j r E. exists r. eauto. Qed.

Lemma prune_keeps now t : keeps t (prune_expired now t).
Proof. intros j r [E _]%prune_lookup. exists r. eauto. Qed.

(** The three ways an operation changes the table. *)
Inductive change (now : Z) (w : world) : op -> world -> option Rotation -> Prop :=
| C_keep o w' r :
    keeps (tbl w) (tbl w') -> ever w' = ever w -> families w' = families w -> r <> Some Rotated ->
    (forall j row, tbl w !! j = Some row -> tbl w' !! j = None -> expires_at row + DAY < now) ->
    change now w o w' r
| C_new jti family user :
    tbl w !! jti = None ->
    change now w (ONew jti family user)
      (mk_world (<[jti := mk_token_row family user (exp_of jti) None None]> (tbl w)) ({[jti]} ∪ ever w)
         ({[family]} ∪ families w)) None
| C_rotate jti user family fresh next fam old :
    consumed_at old = Some now -> revoked_at old = None -> family_id old = fam ->
    (tbl w !! jti = None /\ fam = fresh /\ expires_at old = exp_of jti /\ family = None \/
     exists r, tbl w !! jti = Some r /\ live now r = true /\ user_id r = user /\ old = consume_row now r) ->
    <[jti := old]> (tbl w) !! next = None ->
    change now w (ORotate jti user family fresh next)
      (mk_world (<[next := mk_token_row fam user (exp_of next) None None]> (<[jti := old]> (tbl w)))
         ({[jti; next]} ∪ ever w) ({[fresh]} ∪ families w)) (Some Rotated).

Lemma change_same now w o r : r <> Some Rotated -> change now w o w r.
Proof. intros Hr. apply C_keep; [apply keeps_refl|done|done|done|]. intros j row E1 E2. congruence. Qed.

Lemma change_revoke now w o f seen r : r <> Some Rotated ->
  change now w o (mk_world (revoke_family now f seen (tbl w)) (ever w) (families w)) r.
Proof.
  intros Hr. apply C_keep; cbn; [apply revoke_family_keeps|done|done|done|].
  intros j row E1 E2%revoke_family_dom. congruence.
Qed.

Lemma live_spec now r : live now r = true <-> consumed_at r = None /\ revoked_at r = None /\ now < expires_at r.
Proof. unfold live. rewrite !andb_true_iff, !bool_decide_eq_true, Z.ltb_lt. tauto. Qed.

Lemma consume_spec now jti user family exp fresh t fam t' :
  consume now jti user family exp fresh t = Some (fam, t') ->
  exists old, t' = <[jti := old]> t /\ consumed_at old = Some now /\ revoked_at old = None /\ family_id old = fam /\
    (t !! jti = None /\ fam = fresh /\ expires_at old = exp /\ family = None \/
     exists r, t !! jti = Some r /\ live now r = true /\ user_id r = user /\ old = consume_row now r).
Proof.
  unfold consume. destruct (t !! jti) as [r|] eqn:E.
  - destruct (_ && _) eqn:L; [|done]. apply andb_true_iff in L as [U L]. intros [= <- <-].
    exists (consume_row now r). pose proof (proj1 (live_spec _ _) L) as (? & ? & ?).
    repeat split; try done. right. exists r. by apply Z.eqb_eq in U.
  - destruct family; [done|]. intros [= <- <-]. eexists. repeat split. by left.
Qed.

Lemma step_change now seen o w w' r : step now seen o w = (w', r) -> change now w o w' r.
Proof.
  destruct o as [jti family user|jti user family fresh next|jti|]; cbn [step].
  - unfold record_new. destruct (tbl w !! jti) eqn:E; intros [= <- <-]; [by apply change_same|by apply C_new].
  - unfold rotate. destruct (consume _ _ _ _ _ _ _) as [[fam t']|] eqn:C.
    + apply consume_spec in C as (old & -> & Hc & Hr & Hf & Hcase). unfold record_new; cbn [s_jti s_expires_at].
      destruct (_ !! next) eqn:E; intros [= <- <-]; [by apply change_same|].
      by eapply C_rotate.
    + destruct (tbl w !! jti) as [row|] eqn:E; [|intros [= <- <-]; destruct w; by apply change_same].
      destruct (user_id row =? user); [|intros [= <- <-]; destruct w; by apply change_same].
      destruct (classify _ _) eqn:Hcl.
      * exfalso. revert Hcl. unfold classify. destruct (_ <$> _); [|done]. by destruct (_ && _).
      * rewrite bool_decide_eq_false_2 by done. intros [= <- <-]; destruct w; by apply change_same.
      * rewrite bool_decide_eq_true_2 by done. intros [= <- <-]. by apply change_revoke.
      * rewrite bool_decide_eq_false_2 by done. intros [= <- <-]; destruct w; by apply change_same.
  - unfold revoke_family_of. destruct (tbl w !! jti); intros [= <- <-]; [by apply change_revoke|].
    destruct w; by apply change_same.
  - intros [= <- <-]. apply C_keep; cbn; [apply prune_keeps|done|done|done|].
    intros j row E1 E2. destruct (decide (now - DAY <= expires_at row)) as [G|G]; [|lia].
    rewrite (proj2 (prune_lookup _ _ _ _) (conj E1 G)) in E2. done.
Qed.

(** *** The invariant *)

Lemma keeps_wf t now w w' : wf t w -> t <= now -> keeps (tbl w) (tbl w') -> ever w' = ever w -> families w' = families w ->
  (forall j row, tbl w !! j = Some row -> tbl w' !! j = None -> expires_at row + DAY < now) -> wf now w'.
Proof.
  intros [W1 W2 W3 W4 W5] Ht K Ee Ef G. split.
  - intros j r (r0 & E & _)%K. rewrite Ee. eauto.
  - intros j r (r0 & E & -> & _)%K. rewrite Ef. eauto.
  - intros j r (r0 & E & _ & -> & _)%K. eauto.
  - intros j Hj En. rewrite Ee in Hj. destruct (tbl w !! j) as [row|] eqn:E.
    + rewrite <- (W3 _ _ E). eauto.
    + pose proof (W4 _ Hj E). lia.
  - intros j j' r r' (r0 & E0 & F0 & _ & C0 & _)%K (r1 & E1 & F1 & _ & C1 & _)%K Hf Hc Hc'.
    apply (W5 _ _ _ _ E0 E1); [congruence| |].
    + destruct (consumed_at r0); [|done]. by destruct C0.
    + destruct (consumed_at r1); [|done]. by destruct C1.
Qed.

(** Membership goals that follow from the shape of the sets alone. *)
Local Ltac sets := clear; set_solver.

(** A row inserted for a new id; the last premise says no other row of its
    family can be spent. *)
Lemma insert_wf now w jti row ev fs : wf now w -> jti ∈ ev -> ever w ⊆ ev -> families w ⊆ fs ->
  family_id row ∈ fs -> expires_at row = exp_of jti ->
  (forall j, j ∈ ev -> j <> jti -> tbl w !! j = None -> j ∈ ever w) ->
  (consumed_at row = None -> forall j r, j <> jti -> tbl w !! j = Some r -> family_id r = family_id row -> consumed_at r <> None) ->
  wf now (mk_world (<[jti := row]> (tbl w)) ev fs).
Proof.
  intros [W1 W2 W3 W4 W5] Hj He Hf Hr Hx Hn Hu. split; cbn [tbl ever families].
  - intros j r [[<- _]|[_ E]]%lookup_insert_Some; [done|]. eauto.
  - intros j r [[_ <-]|[_ E]]%lookup_insert_Some; [done|]. eauto.
  - intros j r [[<- <-]|[_ E]]%lookup_insert_Some; [done|]. eauto.
  - intros j Hin [E Hne]%lookup_insert_None. eauto.
  - intros j j' r r' [[<- <-]|[N E]]%lookup_insert_Some [[<- <-]|[N' E']]%lookup_insert_Some Hff Hc Hc'; try done.
    + by destruct (Hu Hc j' r' ltac:(done) E' ltac:(done)).
    + by destruct (Hu Hc' j r ltac:(done) E Hff).
    + eauto.
Qed.

Lemma wf_later t now w : t <= now -> wf t w -> wf now w.
Proof. intros Ht [W1 W2 W3 W4 W5]. split; try done. intros j H1 H2. specialize (W4 j H1 H2). lia. Qed.

Lemma change_wf t now w o w' r : wf t w -> t <= now -> fresh_op now o w -> change now w o w' r -> wf now w'.
Proof.
  intros W0 Ht Hf Hc. pose proof (wf_later _ _ _ Ht W0) as W.
  destruct Hc as [o w' r K Ee Ef Hr G|jti family user E|jti user family fresh next fam old Hc Hr Hfam Hcase En].
  - by eapply keeps_wf.
  - destruct Hf as [Hj Hfm]. apply insert_wf; cbn; try done; try sets.
    intros _ j row _ Ej Hrow. destruct Hfm. rewrite <- Hrow. by eapply wf_family.
  - destruct Hf as (Hn & Hne & Hff & Hnow).
    assert (wf now (mk_world (<[jti := old]> (tbl w)) ({[jti]} ∪ ever w) ({[fresh]} ∪ families w))) as W1.
    { apply insert_wf; try done; try sets; [| |by rewrite Hc].
      - destruct Hcase as [(_ & -> & _)|(r & E & _ & _ & ->)]; [rewrite Hfam; sets|].
        apply elem_of_union_r. exact (wf_family _ _ W jti r E).
      - destruct Hcase as [(_ & _ & -> & _)|(r & E & _ & _ & ->)]; [done|]. exact (wf_expiry _ _ W jti r E). }
    refine (insert_wf _ _ _ _ _ _ W1 _ _ _ _ _ _ _); cbn [tbl ever families family_id expires_at consumed_at]; try done; try sets.
    + destruct Hcase as [(_ & -> & _)|(r & E & _ & _ & ->)]; [sets|].
      apply elem_of_union_r. rewrite <- Hfam. exact (wf_family _ _ W jti r E).
    + intros _ j row Hjn [[<- <-]|[Nj Ej]]%lookup_insert_Some Hrow; [by rewrite Hc|]. intros Hu.
      destruct Hcase as [(_ & -> & _)|(r & E & Hl & _ & ->)].
      * destruct Hff. rewrite <- Hrow. by eapply wf_family.
      * apply live_spec in Hl as (Hl & _). destruct Nj. symmetry. eapply (wf_unspent _ _ W j jti row r); try done.
        by rewrite Hrow, <- Hfam.
Qed.

(** *** Spent tokens and dead families stay so *)

Lemma change_spent t now w o w' r j : wf t w -> t <= now -> fresh_op now o w -> change now w o w' r ->
  spent j w -> spent j w' /\ forall u f ff n, o = ORotate j u f ff n -> r <> Some Rotated.
Proof.
  intros W Ht Hf Hch [Sj S].
  destruct Hch as [o w' r K Ee Ef Hr G|jti family user E|jti user family fresh next fam old Hc Hr Hfam Hcase En].
  - split; [|done]. split; [by rewrite Ee|]. intros row (r0 & E & _ & _ & C & _)%K. eauto.
  - destruct Hf as [Hj _]. split; [|done]. split; cbn; [set_solver|].
    intros row [[<- _]|[_ E']]%lookup_insert_Some; [by destruct Hj|]. eauto.
  - destruct Hf as (Hn & Hne & Hff & Hnow). assert (j <> jti) as Hjj.
    { intros <-. destruct Hcase as [(E & _)|(row & E & L & _)].
      - pose proof (wf_pruned _ _ W j Sj E). lia.
      - apply live_spec in L as (L & _). by destruct (S _ E). }
    split; [|intros u f ff n Eo; congruence]. split; cbn; [set_solver|].
    intros row [[<- _]|[_ [[<- <-]|[_ E]]%lookup_insert_Some]]%lookup_insert_Some; [by destruct Hn|done|]. eauto.
Qed.

Lemma change_dead t now w o w' r f : wf t w -> fresh_op now o w -> change now w o w' r ->
  dead f w -> dead f w' /\ forall j u fam ff n row, o = ORotate j u fam ff n -> r = Some Rotated ->
    tbl w !! j = Some row -> family_id row <> f.
Proof.
  intros W Hf Hch [Fin D].
  destruct Hch as [o w' r K Ee Ef Hr G|jti family user E|jti user family fresh next fam old Hc Hr Hfam Hcase En].
  - split; [|by intros; subst]. split; [by rewrite Ef|]. intros j row (r0 & E & F & _ & _ & R)%K Hrow.
    apply R, (D _ _ E). congruence.
  - destruct Hf as [_ Hfam]. split; [|done]. split; cbn; [set_solver|].
    intros j row [[<- <-]|[_ E']]%lookup_insert_Some; [by intros <-; destruct Hfam|]. eauto.
  - destruct Hf as (Hn & Hne & Hff & Hnow). assert (fam <> f) as Hffam.
    { intros ->. destruct Hcase as [(_ & -> & _)|(row & E & L & _ & ->)]; [by destruct Hff|].
      apply live_spec in L as (_ & L & _). by destruct (D _ _ E Hfam). }
    split.
    + split; cbn; [set_solver|].
      intros j row [[<- <-]|[_ [[<- <-]|[_ E]]%lookup_insert_Some]]%lookup_insert_Some Hrow; [by destruct Hffam| |eauto].
      destruct Hffam. congruence.
    + intros j u fam0 ff n row [= -> -> -> -> ->] _ E.
      destruct Hcase as [(E' & _)|(row' & E' & _ & _ & ->)]; [congruence|].
      rewrite E in E'. by injection E' as ->; cbn in Hfam; subst.
Qed.

Lemma history_wf t w tr t' w' : history t w tr t' w' -> wf t w -> wf t' w'.
Proof.
  induction 1 as [|t w now seen o r w' tr t' w'' Ht Hf Hs _ IH]; [done|]. intros W. apply IH.
  eapply change_wf; [done|done|done|]. by eapply step_change.
Qed.

Lemma history_spent t w tr t' w' j : history t w tr t' w' -> wf t w -> spent j w ->
  spent j w' /\ forall u f ff n, ((ORotate j u f ff n, Some Rotated) ∉ tr).
Proof.
  induction 1 as [|t w now seen o r w' tr t' w'' Ht Hf Hs _ IH]; intros W S.
  - split; [done|]. intros. apply not_elem_of_nil.
  - pose proof (step_change _ _ _ _ _ _ Hs) as C. destruct (change_spent _ _ _ _ _ _ _ W Ht Hf C S) as [S' N].
    destruct (IH (change_wf _ _ _ _ _ _ W Ht Hf C) S') as [S'' N']. split; [done|].
    intros u f ff n [E|I]%elem_of_cons; [injection E as <- <-; by eapply N|by eapply N'].
Qed.

Lemma history_dead t w tr t' w' f : history t w tr t' w' -> wf t w -> dead f w -> dead f w'.
Proof.
  induction 1 as [|t w now seen o r w' tr t' w'' Ht Hf Hs _ IH]; intros W D; [done|].
  pose proof (step_change _ _ _ _ _ _ Hs) as C. apply IH; [by eapply change_wf|].
  by apply (change_dead _ _ _ _ _ _ _ W Hf C D).
Qed.

Lemma history_app t w tr1 tr2 t' w' : history t w (tr1 ++ tr2) t' w' ->
  exists tm wm, history t w tr1 tm wm /\ history tm wm tr2 t' w'.
Proof.
  revert t w. induction tr1 as [|[o r] tr1 IH]; intros t w H; [exists t, w; split; [constructor|done]|].
  cbn in H. inversion H as [|? ? now seen ? ? w1 ? ? ? Ht Hf Hs H3]; subst.
  destruct (IH _ _ H3) as (tm & wm & ? & ?). exists tm, wm. split; [by econstructor|done].
Qed.

Lemma change_rotated_spent now w w' j u f ff n :
  change now w (ORotate j u f ff n) w' (Some Rotated) -> fresh_op now (ORotate j u f ff n) w -> spent j w'.
Proof.
  intros C Hf. inversion C as [|? ? ? _|jti user family fresh next fam old Hc Hr Hfam Hcase En]; subst; [done|].
  destruct Hf as (_ & Hne & _). split; cbn; [set_solver|].
  rewrite lookup_insert_ne, lookup_insert_eq by done. intros r [= <-]. by rewrite Hc.
Qed.

(** The whole family in the snapshot: none of its tokens stays usable. *)
Lemma revoke_family_dead now f t ev fs : f ∈ fs -> dead f (mk_world (revoke_family now f (dom t) t) ev fs).
Proof.
  intros Hf. split; [done|]. cbn. intros j r. rewrite revoke_family_lookup. intros (r0 & E & ->)%fmap_Some.
  rewrite (bool_decide_eq_true_2 (j ∈ dom t)) by (by apply elem_of_dom_2 in E).
  destruct (revoke_row_spec now r0) as (Ef & _ & _ & Hr & _).
  destruct (family_id r0 =? f) eqn:Ef0; cbn [andb]; [done|]. apply Z.eqb_neq in Ef0. congruence.
Qed.

Lemma killed_dead t now w o w1 r jti row : wf t w -> step now (dom (tbl w)) o w = (w1, r) ->
  (o = OSignOut jti \/ r = Some Reused /\ exists u0 f0 ff0 n0, o = ORotate jti u0 f0 ff0 n0) ->
  tbl w !! jti = Some row -> dead (family_id row) w1.
Proof.
  intros W Hs Ho E. pose proof (wf_family _ _ W _ _ E) as Hf.
  destruct Ho as [->|(-> & u & f & ff & n & ->)]; cbn [step] in Hs.
  - unfold revoke_family_of in Hs. rewrite E in Hs. injection Hs as <- _. by apply revoke_family_dead.
  - unfold rotate in Hs. destruct (consume _ _ _ _ _ _ _) as [[fam t']|].
    + unfold record_new in Hs; cbn [s_jti] in Hs. by destruct (_ !! n).
    + rewrite E in Hs. destruct (user_id row =? u); [|done].
      destruct (classify _ _) eqn:Hcl; cbn in Hs; try done. injection Hs as <-. by apply revoke_family_dead.
Qed.

(** C8: a refresh token is exchanged for a successor at most once.  From a
    well-formed table, in every history (rotations by any number of clients,
    sign-ins, sign-outs, pruning, family revocations with any snapshots), no
    rotation of a token is answered [Rotated] after one that was, and at every
    moment a family has at most one token that is not spent. *)
Theorem rotation_single_use t w tr1 j u f ff n tr2 t' w' :
  wf t w ->
  history t w (tr1 ++ (ORotate j u f ff n, Some Rotated) :: tr2) t' w' ->
  (forall u' f' ff' n', ((ORotate j u' f' ff' n', Some Rotated) ∉ tr2)) /\
  (forall j1 j2 r1 r2, tbl w' !! j1 = Some r1 -> tbl w' !! j2 = Some r2 -> family_id r1 = family_id r2 ->
     consumed_at r1 = None -> consumed_at r2 = None -> j1 = j2).
Proof.
  intros W H. split; [|eapply wf_unspent, history_wf; eassumption].
  apply history_app in H as (tm & wm & H1 & H2). pose proof (history_wf _ _ _ _ _ H1 W) as Wm.
  inversion H2 as [|? ? now seen ? ? w1 ? ? ? Ht Hf Hs H3]; subst.
  pose proof (step_change _ _ _ _ _ _ Hs) as C.
  eapply history_spent; [exact H3|by eapply change_wf|]. by eapply change_rotated_spent.
Qed.


Lemma wf_start t : wf t (mk_world ∅ ∅ ∅).
Proof. split; cbn; intros j; first [by rewrite lookup_empty|intros; by rewrite lookup_empty|set_solver|done]. Qed.

(** The client that holds the token of its family that is not spent, not
    revoked and not expired always gets a successor. *)
Lemma live_rotates now seen w jti user family fresh next r : tbl w !! jti = Some r -> user_id r = user ->
  live now r = true -> next <> jti -> tbl w !! next = None ->
  snd (step now seen (ORotate jti user family fresh next) w) = Some Rotated.
Proof.
  intros E U L N En. cbn [step]. unfold rotate, consume. rewrite E, U, Z.eqb_refl, L. cbn [andb].
  unfold record_new. cbn [s_jti]. by rewrite lookup_insert_ne, En by congruence.
Qed.

End histories.
End Refresh.

(** ** Examples *)

Module RefreshExamples.
Import Refresh.

Definition far (_ : Z) : Z := 1000000000.
Definition row_of (family user : Z) : token_row := mk_token_row family user 1000000000 None None.
Definition two : world := mk_world {[1 := row_of 10 7; 5 := row_of 20 8]} {[1; 5]} {[10; 20]}.

Local Ltac closed := apply (bool_decide_unpack _); vm_compute; exact I.

Definition two_trace : list (op * option Rotation) := [(ONew 1 10 7, None); (ONew 5 20 8, None)].

Lemma two_history : history far 0 (mk_world ∅ ∅ ∅) two_trace 0 two.
Proof.
  apply (H_cons far 0 _ 0 ∅ _ _ (mk_world {[1 := row_of 10 7]} {[1]} {[10]})); [lia|split; closed|by vm_compute|].
  apply (H_cons far 0 _ 0 ∅ _ _ two); [lia|split; closed|by vm_compute|]. constructor.
Qed.

Lemma two_wf : wf far 0 two.
Proof. apply (history_wf _ _ _ _ _ _ two_history), wf_start. Qed.

(** A sign-out whose snapshot was taken before a rotation committed leaves
    the successor usable. *)
Lemma signout_misses_successor :
  let '(w1, r1) := step far 1000 ∅ (ORotate 1 7 (Some 10) 99 2) two in
  let '(w2, _) := step far 1001 (dom (tbl two)) (OSignOut 1) w1 in
  r1 = Some Rotated /\ snd (step far 2000 ∅ (ORotate 2 7 (Some 10) 98 3) w2) = Some Rotated.
Proof. by vm_compute. Qed.

Definition replay : op := ORotate 1 7 (Some 10) 98 3.
Definition rotate_one : op := ORotate 1 7 (Some 10) 99 2.
Definition one_world : world := Eval vm_compute in fst (step far 1000 ∅ rotate_one two).

Lemma rotation_single_use_witness :
  wf far 0 two /\
  (forall u' f' ff' n', ((ORotate 1 u' f' ff' n', Some Rotated) ∉ [(replay, Some Concurrent)])).
Proof.
  split; [exact two_wf|].
  refine (proj1 (rotation_single_use far 0 two [] 1 7 (Some 10) 99 2 [(replay, Some Concurrent)] 2000 one_world two_wf _)).
  apply (H_cons far 0 two 1000 ∅ _ _ one_world); [lia|repeat split; first [closed|lia|by vm_compute]|by vm_compute|].
  apply (H_cons far 1000 one_world 2000 ∅ _ _ one_world); [lia|repeat split; first [closed|lia|by vm_compute]|by vm_compute|].
  constructor.
Defined.

Definition signed_out : world := Eval vm_compute in fst (step far 1000 (dom (tbl two)) (OSignOut 1) two).
Definition other : op := ORotate 5 8 (Some 20) 97 6.
Definition after_other : world := Eval vm_compute in fst (step far 2000 ∅ other signed_out).

End RefreshExamples.
