(* ===== verification/Revocation.v ===== *)
(** * Revoked tokens and tunnel tickets

    [backend/src/services/token_revocation.rs] and [tunnel_tickets.rs].  Every
    replica keeps the revocations in memory and pulls those of the others from
    the table [revoked_tokens]; a row of the table becomes visible when its
    transaction commits.  Clocks are in milliseconds and the replica and the
    database read the same one; expiry claims are in seconds. *)

From S2P Require Import Prelude Machine Text Crates.

Local Open Scope Z_scope.

(** ** The revocation list *)

Module Revocation.

Definition MAX_ENTRIES : Z := 100000.
Definition SYNC_OVERLAP : Z := 60 * 1000.
Definition STALE_AFTER : Z := 300 * 1000.

Definition now_secs (now : Z) : Z := now / 1000.

(** [chrono::DateTime::from_timestamp], in milliseconds; the bounds are those
    of [DateTime<Utc>]. *)
Definition from_timestamp (secs : Z) : option Z :=
  if (-8334601228800 <=? secs) && (secs <=? 8210266876799) then Some (secs * 1000) else None.

Section operations.
Context `{Sha256} `{Hex}.

Definition token_hash (token : bytes) : bytes := hex_encode (sha256 token).

Abbreviation entries := (gmap bytes Z).

(** [revoke]: [expires_at] of an entry is in seconds. *)
Definition revoke (now : Z) (token : bytes) (exp : Z) (m : entries) : entries :=
  let m := if MAX_ENTRIES / 2 <? Z.of_nat (size m) then filter (fun e => now_secs now < snd e) m else m in
  <[token_hash token := exp]> m.

(** A row of [revoked_tokens].  [committed_at] is the moment the row became
    visible; no statement reads it. *)
Record db_row := mk_db_row { expires_at : Z; created_at : Z; committed_at : Z }.

Abbreviation table := (gmap bytes db_row).

(** The row of [persist_revocation], whose statement started at [created] and
    committed at [now]. *)
Definition persist_revocation (created now : Z) (token : bytes) (exp : Z) (db : table) : table :=
  let expires := default (created + 24 * 3600 * 1000) (from_timestamp (wrap_i 64 exp)) in
  match db !! token_hash token with
  | Some _ => db
  | None => <[token_hash token := mk_db_row expires created now]> db
  end.

(** The loop that inserts the fetched rows. *)
Definition insert_rows (rows : table) (m : entries) : entries :=
  ((fun r => expires_at r / 1000) <$> rows) ∪ m.

Definition live_rows (now : Z) (db : table) : table := filter (fun hr => now < expires_at (snd hr)) db.

(** [load_from_db] and its cleanup, either of which may fail. *)
Definition load_from_db (now : Z) (ok purge_ok : bool) (db : table) (m : entries) : table * entries :=
  let now_dt := now_secs now * 1000 in
  let rows := if ok then live_rows now_dt db else ∅ in
  (if purge_ok then live_rows now_dt db else db, insert_rows rows m).

(** A call of [sync_since] in progress: after the first query, and after the
    second, which ran at [fetched_at]. *)
Inductive sync_call :=
| AskedNow (db_now : Z)
| Fetched (db_now fetched_at : Z) (rows : table).

(** The replica: the cache, [LAST_SYNC], the variable [since] of [run_sync]
    and the call it waits for.  [view] is when the last applied rows were
    read; no operation reads it. *)
Record replica := mk_replica {
  cache : entries; last_sync : option Z; since : Z; pending : option sync_call; view : Z
}.

(** [load_from_db] followed by the start of [run_sync]. *)
Definition boot (now : Z) (ok purge_ok : bool) (db : table) : table * replica :=
  let '(db, m) := load_from_db now ok purge_ok db ∅ in
  (db, mk_replica m (Some now) (now - SYNC_OVERLAP) None now).

Definition sync_is_stale (now : Z) (p : replica) : bool :=
  match last_sync p with Some at_ => STALE_AFTER <? now - at_ | None => false end.

Definition is_revoked (now : Z) (token : bytes) (p : replica) : bool :=
  if sync_is_stale now p then true
  else match cache p !! token_hash token with Some e => now_secs now <? e | None => false end.

(** *** A replica and the database *)

Inductive event :=
| Persisted (token : bytes) (exp created : Z)
| Purged
| RevokedHere (token : bytes) (exp : Z)
| AskNow
| Fetch
| Apply
| SyncFailed.

Definition state : Type := table * replica.

Definition step (now : Z) (e : event) (s : state) : state :=
  let '(db, p) := s in
  match e with
  | Persisted token exp created => (persist_revocation created now token exp db, p)
  | Purged => (live_rows (now_secs now * 1000) db, p)
  | RevokedHere token exp =>
      (db, mk_replica (revoke now token exp (cache p)) (last_sync p) (since p) (pending p) (view p))
  | AskNow => (db, mk_replica (cache p) (last_sync p) (since p) (Some (AskedNow now)) (view p))
  | Fetch =>
      match pending p with
      | Some (AskedNow q) =>
          let rows := filter (fun hr => since p <= created_at (snd hr)) (live_rows now db) in
          (db, mk_replica (cache p) (last_sync p) (since p) (Some (Fetched q now rows)) (view p))
      | _ => s
      end
  | Apply =>
      match pending p with
      | Some (Fetched q at_ rows) =>
          (db, mk_replica (insert_rows rows (cache p)) (Some now) (q - SYNC_OVERLAP) None at_)
      | _ => s
      end
  | SyncFailed => (db, mk_replica (cache p) (last_sync p) (since p) None (view p))
  end.

(** ** What the argument assumes *)

(** A revocation ends at the token's expiry claim, not when the signature
    check stops accepting the token. *)
Lemma revocation_lapses now token p e : sync_is_stale now p = false -> cache p !! token_hash token = Some e ->
  e <= now_secs now -> is_revoked now token p = false.
Proof. intros S E L. unfold is_revoked. rewrite S, E. by apply Z.ltb_ge. Qed.

Section histories.
(** The expiry claim of each token, and a bound on the time from the second
    query of a sync to the update of [LAST_SYNC]. *)
Context (exp_of : bytes -> Z) (D : Z).

(** A revocation carries its token's expiry claim; a transaction that writes
    one takes less than the overlap. *)
Definition allowed (now : Z) (e : event) (s : state) : Prop :=
  match e with
  | Persisted token exp created =>
      exp = exp_of (token_hash token) /\ 0 <= exp <= 8210266876799 /\ created <= now <= created + SYNC_OVERLAP
  | RevokedHere token exp => exp = exp_of (token_hash token)
  | Apply =>
      match pending (snd s) with Some (Fetched _ at_ _) => now - at_ <= D | _ => True end
  | _ => True
  end.

Inductive history : Z -> state -> list event -> Z -> state -> Prop :=
| H_nil t s : history t s [] t s
| H_cons t s now e tr t' s' :
    t <= now -> allowed now e s -> history now (step now e s) tr t' s' -> history t s (e :: tr) t' s'.

Definition row_ok (t : Z) (h : bytes) (r : db_row) : Prop :=
  expires_at r = exp_of h * 1000 /\ created_at r <= committed_at r <= created_at r + SYNC_OVERLAP /\ committed_at r <= t.

(** A row the replica has, or will read: its token expired, it is cached, it
    satisfies [P]. *)
Definition covered (t : Z) (p : replica) (P : bytes -> db_row -> Prop) (db : table) : Prop :=
  forall h r, db !! h = Some r -> t < expires_at r -> cache p !! h = Some (exp_of h) \/ P h r.

Record synced (t : Z) (s : state) : Prop := {
  sy_rows : forall h r, fst s !! h = Some r -> row_ok t h r;
  sy_cache : forall h x, cache (snd s) !! h = Some x -> x = exp_of h;
  sy_last : exists L, last_sync (snd s) = Some L /\ L <= t /\ view (snd s) <= L <= view (snd s) + D;
  sy_since : since (snd s) + SYNC_OVERLAP <= t;
  sy_reach : covered t (snd s) (fun _ r => since (snd s) <= created_at r) (fst s);
  sy_view : covered t (snd s) (fun _ r => view (snd s) <= committed_at r) (fst s);
  sy_pending :
    match pending (snd s) with
    | None => True
    | Some (AskedNow q) => q <= t
    | Some (Fetched q at_ rows) =>
        q <= at_ <= t /\ (forall h r, rows !! h = Some r -> expires_at r = exp_of h * 1000) /\
        covered t (snd s) (fun h r => rows !! h = Some r \/ at_ <= committed_at r) (fst s)
    end
}.

(** *** Lemmas on tables *)

Lemma live_rows_lookup now db h r : live_rows now db !! h = Some r <-> db !! h = Some r /\ now < expires_at r.
Proof. apply map_lookup_filter_Some. Qed.

Lemma insert_rows_lookup rows m h :
  insert_rows rows m !! h = match rows !! h with Some r => Some (expires_at r / 1000) | None => m !! h end.
Proof.
  unfold insert_rows. destruct (rows !! h) as [r|] eqn:E.
  - apply lookup_union_Some_l. by rewrite lookup_fmap, E.
  - apply lookup_union_r. by rewrite lookup_fmap, E.
Qed.

Lemma covered_weaken t t' p p' P P' db : covered t p P db -> t <= t' ->
  (forall h, cache p !! h = Some (exp_of h) -> t' < exp_of h * 1000 -> cache p' !! h = Some (exp_of h)) ->
  (forall h r, db !! h = Some r -> expires_at r = exp_of h * 1000) ->
  (forall h r, db !! h = Some r -> t' < expires_at r -> P h r -> cache p' !! h = Some (exp_of h) \/ P' h r) ->
  covered t' p' P' db.
Proof.
  intros C Ht K X HP h r E Hx. pose proof (X _ _ E) as Ex. destruct (C h r E ltac:(lia)) as [Hc|Hp].
  - left. apply K; [done|lia].
  - by apply HP.
Qed.

Lemma covered_insert t p (P : bytes -> db_row -> Prop) h r db : covered t p P db -> P h r -> covered t p P (<[h := r]> db).
Proof. intros C Hp h' r' [[<- <-]|[_ E]]%lookup_insert_Some Hx; [by right|]. by apply C. Qed.

Lemma covered_subset t p P db db' : covered t p P db -> (forall h r, db' !! h = Some r -> db !! h = Some r) -> covered t p P db'.
Proof. intros C S h r E Hx. apply C; auto. Qed.

Lemma covered_later t t' p P db : t <= t' -> covered t p P db -> covered t' p P db.
Proof. intros Ht C h r E Hx. apply C; [done|lia]. Qed.

Lemma synced_later t t' s : t <= t' -> synced t s -> synced t' s.
Proof.
  intros Ht [S1 S2 (L & S3 & S3' & S3'') S4 S5 S6 S7]. split; try done.
  - intros h r E. destruct (S1 h r E) as (? & ? & ?). repeat split; try tauto; lia.
  - exists L. repeat split; try done; lia.
  - lia.
  - by eapply covered_later.
  - by eapply covered_later.
  - destruct (pending (snd s)) as [[q|q at_ rows]|]; [lia| |done]. destruct S7 as (? & ? & ?).
    repeat split; try done; try lia. by eapply covered_later.
Qed.

Lemma revoke_lookup now token exp m h : exp = exp_of (token_hash token) -> m !! h = Some (exp_of h) ->
  now < exp_of h * 1000 -> revoke now token exp m !! h = Some (exp_of h).
Proof.
  intros -> E Hx. unfold revoke. destruct (decide (token_hash token = h)) as [<-|N]; [by rewrite lookup_insert_eq|].
  rewrite lookup_insert_ne by done. destruct (_ <? _); [|done].
  apply map_lookup_filter_Some. split; [done|]. cbn. unfold now_secs. apply Z.div_lt_upper_bound; lia.
Qed.

Lemma revoke_values now token exp m h x : exp = exp_of (token_hash token) ->
  (forall h x, m !! h = Some x -> x = exp_of h) -> revoke now token exp m !! h = Some x -> x = exp_of h.
Proof.
  intros -> V. unfold revoke. intros [[<- <-]|[_ E]]%lookup_insert_Some; [done|].
  destruct (_ <? _); [apply map_lookup_filter_Some in E as [E _]|]; by apply V.
Qed.

Lemma insert_rows_values rows m h x : (forall h r, rows !! h = Some r -> expires_at r = exp_of h * 1000) ->
  (forall h x, m !! h = Some x -> x = exp_of h) -> insert_rows rows m !! h = Some x -> x = exp_of h.
Proof.
  intros R V. rewrite insert_rows_lookup. destruct (rows !! h) as [r|] eqn:E; [|apply V].
  intros [= <-]. rewrite (R _ _ E). apply Z.div_mul. lia.
Qed.

Lemma insert_rows_keeps rows m h : (forall h r, rows !! h = Some r -> expires_at r = exp_of h * 1000) ->
  m !! h = Some (exp_of h) \/ is_Some (rows !! h) -> insert_rows rows m !! h = Some (exp_of h).
Proof.
  intros R Hor. rewrite insert_rows_lookup. destruct (rows !! h) as [r|] eqn:E.
  - rewrite (R _ _ E), Z.div_mul by lia. done.
  - destruct Hor as [?|[? [=]]]. done.
Qed.

(** *** The invariant *)

Lemma persist_synced now token exp created db p : allowed now (Persisted token exp created) (db, p) ->
  synced now (db, p) -> synced now (persist_revocation created now token exp db, p).
Proof.
  intros (-> & Hexp & Hc) S. unfold persist_revocation. destruct (db !! token_hash token) eqn:E; [done|].
  assert (wrap_i 64 (exp_of (token_hash token)) = exp_of (token_hash token)) as ->
    by (apply wrap_i64_id; unfold in_range, i64_min, i64_max; lia).
  unfold from_timestamp. rewrite (proj2 (Z.leb_le _ _)), (proj2 (Z.leb_le _ _)) by lia. cbn [andb default].
  destruct S as [S1 S2 (L & S3 & S3' & S3'') S4 S5 S6 S7]; cbn [fst snd] in *. split; cbn [fst snd]; try done.
  - intros h r [[<- <-]|[_ E']]%lookup_insert_Some; [|by apply S1]. repeat split; cbn; lia.
  - by exists L.
  - apply covered_insert; [done|]. cbn. lia.
  - apply covered_insert; [done|]. cbn. lia.
  - destruct (pending p) as [[q|q at_ rows]|]; [done| |done]. destruct S7 as (? & ? & ?). repeat split; try tauto.
    apply covered_insert; [done|]. right. cbn. lia.
Qed.

Lemma subset_synced now db db' p : synced now (db, p) -> (forall h r, db' !! h = Some r -> db !! h = Some r) -> synced now (db', p).
Proof.
  intros [S1 S2 S3 S4 S5 S6 S7] Sub; cbn [fst snd] in *. split; cbn [fst snd]; try done.
  - intros h r E. by apply S1, Sub.
  - by eapply covered_subset.
  - by eapply covered_subset.
  - destruct (pending p) as [[q|q at_ rows]|]; [done| |done]. destruct S7 as (? & ? & ?). repeat split; try tauto.
    by eapply covered_subset.
Qed.

Lemma revoke_synced now token exp db p : allowed now (RevokedHere token exp) (db, p) -> synced now (db, p) ->
  synced now (step now (RevokedHere token exp) (db, p)).
Proof.
  intros He S. destruct S as [S1 S2 S3 S4 S5 S6 S7]; cbn [fst snd] in *.
  assert (forall P, covered now p P db -> covered now (snd (step now (RevokedHere token exp) (db, p))) P db) as K.
  { intros P C. eapply (covered_weaken now now p); [exact C|lia| |by intros h r E; apply S1|by auto].
    intros h Hh Hx. by apply revoke_lookup. }
  split; cbn [step fst snd cache last_sync since pending view]; try done; try (by apply K).
  - intros h x. by apply revoke_values.
  - destruct (pending p) as [[q|q at_ rows]|]; [done| |done]. destruct S7 as (? & ? & ?). repeat split; try tauto.
    by apply K.
Qed.

Lemma fetch_synced now db p : synced now (db, p) -> synced now (step now Fetch (db, p)).
Proof.
  intros S. cbn [step]. destruct (pending p) as [[q|q at_ rows]|] eqn:Ep; [|done..].
  destruct S as [S1 S2 S3 S4 S5 S6 S7]; cbn [fst snd] in *. rewrite Ep in S7.
  split; cbn [fst snd cache last_sync since pending view]; try done. repeat split; try done; try lia.
  - intros h r [[E _]%live_rows_lookup _]%map_lookup_filter_Some. by apply S1.
  - intros h r E Hx. destruct (S5 h r E Hx) as [?|Hs]; [by left|right; left].
    apply map_lookup_filter_Some. split; [by apply live_rows_lookup|done].
Qed.

Lemma apply_synced now db p : allowed now Apply (db, p) -> synced now (db, p) -> synced now (step now Apply (db, p)).
Proof.
  intros Hd S. cbn [step allowed snd] in *. destruct (pending p) as [[q|q at_ rows]|] eqn:Ep; [done| |done].
  destruct S as [S1 S2 S3 S4 S5 S6 S7]; cbn [fst snd] in *. rewrite Ep in S7. destruct S7 as (Hq & R & C).
  set (p' := mk_replica _ _ _ _ _).
  assert (covered now p' (fun _ r => at_ <= committed_at r) db) as C'.
  { eapply (covered_weaken now now p); [exact C|lia| |by intros h r E; apply S1|].
    - intros h Hh _. apply insert_rows_keeps; [done|by left].
    - intros h r E Hx [E'|Hr]; [left|by right]. apply insert_rows_keeps; [done|right; by exists r]. }
  split; subst p'; cbn [fst snd cache last_sync since pending view] in *; try done.
  - intros h x. by apply insert_rows_values.
  - exists now. repeat split; lia.
  - lia.
  - intros h r E Hx. destruct (C' h r E Hx) as [?|Hr]; [by left|right]. destruct (S1 h r E) as (_ & ? & _). lia.
Qed.

Lemma step_synced t now e s : t <= now -> allowed now e s -> synced t s -> synced now (step now e s).
Proof.
  intros Ht Ha S%(synced_later t now); [|done]. destruct s as [db p]. destruct e.
  - by apply persist_synced.
  - eapply subset_synced; [exact S|]. by intros h r [E _]%live_rows_lookup.
  - by apply revoke_synced.
  - destruct S as [S1 S2 S3 S4 S5 S6 S7]. split; cbn; try done.
  - by apply fetch_synced.
  - by apply apply_synced.
  - destruct S as [S1 S2 S3 S4 S5 S6 S7]. split; cbn; done.
Qed.

Lemma history_synced t s tr t' s' : history t s tr t' s' -> synced t s -> synced t' s'.
Proof. induction 1 as [|t s now e tr t' s' Ht Ha _ IH]; [done|]. intros S. by eapply IH, step_synced. Qed.

(** Starting with a load that succeeds: every row is cached or recent. *)
Lemma boot_synced now purge_ok db : 0 <= D -> (forall h r, db !! h = Some r -> row_ok now h r) ->
  synced now (boot now true purge_ok db).
Proof.
  intros HD R. unfold boot, load_from_db.
  apply (subset_synced _ db); [|by intros h r; destruct purge_ok; [intros [E _]%live_rows_lookup|]].
  assert (forall h r, live_rows (now_secs now * 1000) db !! h = Some r -> expires_at r = exp_of h * 1000) as X
    by (intros h r [E _]%live_rows_lookup; by apply (R h r)).
  assert (forall P, covered now (mk_replica (insert_rows (live_rows (now_secs now * 1000) db) ∅) (Some now)
    (now - SYNC_OVERLAP) None now) P db) as C.
  { intros P h r E Hx. left. apply insert_rows_keeps; [done|right]. exists r. apply live_rows_lookup. split; [done|].
    unfold now_secs. pose proof (Z.mul_div_le now 1000). lia. }
  split; cbn [fst snd cache last_sync since pending view]; try done; try apply C.
  - intros h x. by apply insert_rows_values; [|intros ? ?; rewrite lookup_empty].
  - exists now. repeat split; lia.
  - lia.
Qed.

(** A row that is visible stays so until its token expires, and so does a
    cached entry. *)
Lemma step_row t now e s h r : t <= now -> synced t s -> fst s !! h = Some r -> now < expires_at r ->
  fst (step now e s) !! h = Some r.
Proof.
  intros Ht S E Hx. destruct s as [db p]; cbn [fst] in E. destruct e; cbn [step fst]; try done.
  - unfold persist_revocation. destruct (db !! token_hash token) eqn:E'; [done|].
    rewrite lookup_insert_ne by congruence. done.
  - apply live_rows_lookup. split; [done|]. unfold now_secs. pose proof (Z.mul_div_le now 1000). lia.
  - by destruct (pending p) as [[]|].
  - by destruct (pending p) as [[]|].
Qed.

Lemma step_cached t now e s h : t <= now -> allowed now e s -> synced t s -> cache (snd s) !! h = Some (exp_of h) ->
  now < exp_of h * 1000 -> cache (snd (step now e s)) !! h = Some (exp_of h).
Proof.
  intros Ht Ha S E Hx. destruct s as [db p]; cbn [snd] in E. pose proof (sy_pending _ _ S) as Hp; cbn [snd] in Hp.
  destruct e; cbn [step snd cache]; try done.
  - by apply revoke_lookup.
  - by destruct (pending p) as [[]|].
  - destruct (pending p) as [[]|]; [done| |done]. apply insert_rows_keeps; [tauto|by left].
Qed.

Lemma history_time t s tr t' s' : history t s tr t' s' -> t <= t'.
Proof. induction 1; lia. Qed.

Lemma history_row t s tr t' s' h r : history t s tr t' s' -> synced t s -> fst s !! h = Some r -> t' < expires_at r ->
  fst s' !! h = Some r.
Proof.
  induction 1 as [|t s now e tr t' s' Ht Ha Hh IH]; [done|]. intros S E Hx. pose proof (history_time _ _ _ _ _ Hh).
  apply IH; [by eapply step_synced|eapply step_row; [done|exact S|done|lia]|done].
Qed.

Lemma history_cached t s tr t' s' h : history t s tr t' s' -> synced t s -> cache (snd s) !! h = Some (exp_of h) ->
  t' < exp_of h * 1000 -> cache (snd s') !! h = Some (exp_of h).
Proof.
  induction 1 as [|t s now e tr t' s' Ht Ha Hh IH]; [done|]. intros S E Hx. pose proof (history_time _ _ _ _ _ Hh).
  apply IH; [by eapply step_synced|eapply step_cached; [exact Ht|done|done|done|lia]|done].
Qed.

Lemma cached_revoked now token p : cache p !! token_hash token = Some (exp_of (token_hash token)) ->
  now < exp_of (token_hash token) * 1000 -> is_revoked now token p = true.
Proof.
  intros E Hx. unfold is_revoked. destruct (sync_is_stale now p); [done|]. rewrite E. apply Z.ltb_lt.
  unfold now_secs. apply Z.div_lt_upper_bound; lia.
Qed.

End histories.
End operations.
End Revocation.

(** ** Tunnel tickets *)

Module Tickets.

Record TunnelTicket := mk_ticket {
  user_id : Z; connection_id : Z; username : option bytes; password : option bytes; domain : option bytes;
  credential_profile_id : option Z; width : Z; height : Z; dpi : Z; ignore_cert : bool;
  webp : option bool; h264 : option bool; created_at : Z
}.

Definition TICKET_TTL_SECS : Z := 30.

Abbreviation tickets := (gmap Z TunnelTicket).

(** [created_at.elapsed().as_secs()]; [elapsed] of a later instant is zero. *)
Definition elapsed_secs (now : Z) (t : TunnelTicket) : Z := Z.max 0 (now - created_at t) / 1000.

(** [create], under the id that was drawn. *)
Definition create (now id : Z) (ticket : TunnelTicket) (m : tickets) : tickets :=
  <[id := ticket]> (filter (fun kt => elapsed_secs now (snd kt) < TICKET_TTL_SECS * 2) m).

Definition consume (now id : Z) (m : tickets) : tickets * option TunnelTicket :=
  match m !! id with
  | None => (m, None)
  | Some t => (delete id m, if TICKET_TTL_SECS <? elapsed_secs now t then None else Some t)
  end.

Inductive event := Create (id : Z) (ticket : TunnelTicket) | Consume (id : Z).

Definition step (now : Z) (e : event) (m : tickets) : tickets * option TunnelTicket :=
  match e with
  | Create id ticket => (create now id ticket m, None)
  | Consume id => consume now id m
  end.

(** Calls in the order the mutex admits them, with their answers. *)
Inductive history : tickets -> list (Z * event * option TunnelTicket) -> tickets -> Prop :=
| H_nil m : history m [] m
| H_cons m now e m1 r tr m2 : step now e m = (m1, r) -> history m1 tr m2 -> history m ((now, e, r) :: tr) m2.

(** The ids that [create] drew. *)
Definition created_id (x : Z * event * option TunnelTicket) : list Z :=
  match x with (_, Create id _, _) => [id] | _ => [] end.

Definition created (tr : list (Z * event * option TunnelTicket)) : list Z := concat (map created_id tr).

Lemma ticket_history_app m tr1 tr2 m' : history m (tr1 ++ tr2) m' <-> exists m1, history m tr1 m1 /\ history m1 tr2 m'.
Proof.
  split.
  - revert m. induction tr1 as [|x tr1 IH]; intros m H; [exists m; split; [constructor|done]|].
    cbn in H. inversion H; subst. destruct (IH _ H5) as (m2 & ? & ?). exists m2. split; [by econstructor|done].
  - intros (m1 & H1 & H2). induction H1; [done|]. cbn. econstructor; [done|auto].
Qed.

(** A ticket in the map was put there by [create]. *)
Lemma history_origin m tr m' id tk : history m tr m' -> m' !! id = Some tk ->
  m !! id = Some tk \/ exists c, (c, Create id tk, None) ∈ tr.
Proof.
  induction 1 as [|m now e m1 r tr m2 Hs _ IH]; [by left|]. intros E.
  destruct (IH E) as [E1|[c Hc]]; [|right; exists c; apply elem_of_cons; by right].
  destruct e as [i tk'|i]; cbn [step] in Hs.
  - injection Hs as <- <-. unfold create in E1; apply lookup_insert_Some in E1 as [[-> ->]|[_ [E1 _]%map_lookup_filter_Some]]; [|by left].
    right. exists now. apply elem_of_cons; by left.
  - left. unfold consume in Hs. destruct (m !! i); injection Hs as <- _; [|done]. by apply lookup_delete_Some in E1 as [_ E1].
Qed.

(** An id that is gone and not drawn again is never answered. *)
Lemma history_absent m tr m' id : history m tr m' -> m !! id = None -> (id ∉ created tr) ->
  m' !! id = None /\ forall now tk, ((now, Consume id, Some tk) ∉ tr).
Proof.
  induction 1 as [|m now e m1 r tr m2 Hs _ IH]; intros E Hc; [split; [done|intros; apply not_elem_of_nil]|].
  change (id ∉ created_id (now, e, r) ++ created tr) in Hc. apply not_elem_of_app in Hc as [Hc Hc'].
  assert (m1 !! id = None /\ (e = Consume id -> r = None)) as [E1 Hr].
  { destruct e as [i tk'|i]; cbn [step] in Hs.
    - injection Hs as <- <-. split; [|done]. unfold create.
      rewrite lookup_insert_ne by (intros ->; apply Hc; cbn; set_solver). by apply map_lookup_filter_None; left.
    - unfold consume in Hs. destruct (m !! i) eqn:Ei; injection Hs as <- <-.
      + split; [by apply lookup_delete_None; right|]. intros [= ->]. congruence.
      + done. }
  destruct (IH E1 Hc') as [E2 N]. split; [done|]. intros n tk [E'|I]%elem_of_cons; [injection E' as <- <- <-; by specialize (Hr eq_refl)|].
  by eapply N.
Qed.

Lemma fresh_enough now tk : elapsed_secs now tk <= TICKET_TTL_SECS -> now - created_at tk < 31 * 1000.
Proof. unfold elapsed_secs, TICKET_TTL_SECS. intros Hd. pose proof (Z.mul_succ_div_gt (Z.max 0 (now - created_at tk)) 1000). lia. Qed.

Lemma young_secs now tk : now - created_at tk <= 30 * 1000 -> elapsed_secs now tk <= TICKET_TTL_SECS.
Proof. intros Hd. unfold elapsed_secs, TICKET_TTL_SECS. apply Z.div_le_upper_bound; lia. Qed.

Lemma created_in c id tk r tr : (c, Create id tk, r) ∈ tr -> id ∈ created tr.
Proof.
  induction tr as [|x tr IH]; [by intros ?%elem_of_nil|]. change (created (x :: tr)) with (created_id x ++ created tr).
  intros [<-|Hin]%elem_of_cons; apply elem_of_app; [left; cbn; set_solver|right; by apply IH].
Qed.

Lemma created_once tra c id tk r trb tr2 : NoDup (created (tra ++ (c, Create id tk, r) :: trb ++ tr2)) -> id ∉ created trb.
Proof.
  unfold created. rewrite map_app, concat_app. cbn [map concat created_id]. rewrite map_app, concat_app.
  intros (_ & _ & [N _]%NoDup_cons)%NoDup_app Hin. apply N, elem_of_app. by left.
Qed.

(** The other ids are untouched while they are young. *)
Lemma step_keeps now e m m1 r id tk : step now e m = (m1, r) -> m !! id = Some tk ->
  elapsed_secs now tk < TICKET_TTL_SECS * 2 -> (forall tk', e <> Create id tk') -> e <> Consume id -> m1 !! id = Some tk.
Proof.
  intros Hs E Hage Hc Hu. destruct e as [i tk'|i]; cbn [step] in Hs.
  - injection Hs as <- _. unfold create. rewrite lookup_insert_ne by (intros ->; by apply (Hc tk')).
    by apply map_lookup_filter_Some.
  - unfold consume in Hs. destruct (m !! i); injection Hs as <- _; [|done].
    rewrite lookup_delete_ne; [done|]. intros ->. by destruct Hu.
Qed.

Lemma young_kept m tr m' id tk : history m tr m' -> m !! id = Some tk ->
  Forall (fun x => snd (fst x) <> Consume id /\ fst (fst x) - created_at tk < 60 * 1000) tr -> id ∉ created tr ->
  m' !! id = Some tk.
Proof.
  induction 1 as [|m now e m1 r tr m2 Hs _ IH]; [done|]. intros E [[Hu Hage] HF]%Forall_cons Hc.
  change (id ∉ created_id (now, e, r) ++ created tr) in Hc. apply not_elem_of_app in Hc as [Hc Hc'].
  apply IH; [|done|done]. eapply step_keeps; [exact Hs|done| | |done].
  - cbn in Hage. unfold elapsed_secs, TICKET_TTL_SECS. apply Z.div_lt_upper_bound; lia.
  - intros tk' ->. cbn in Hc. set_solver.
Qed.

(** A ticket is good for one tunnel.  When [consume] answers with a
    ticket, [create] stored exactly that ticket under the id before, it is
    less than 31 seconds old, and no other call ever gets a ticket for the
    id; a ticket at most 30 seconds old that nobody consumed is always
    answered, however many tickets were created and purged meanwhile. *)
Lemma ticket_one_time tr1 now id tk tr2 m m' :
  history ∅ tr1 m ->
  NoDup (created (tr1 ++ tr2)) ->
  history (fst (consume now id m)) tr2 m' ->
  (snd (consume now id m) = Some tk ->
     (exists c, (c, Create id tk, None) ∈ tr1) /\ now - created_at tk < 31 * 1000 /\
     forall now' tk', ((now', Consume id, Some tk') ∉ tr2)) /\
  ((exists tra c trb, tr1 = tra ++ (c, Create id tk, None) :: trb /\
      Forall (fun x => snd (fst x) <> Consume id /\ fst (fst x) - created_at tk < 60 * 1000) trb) ->
   now - created_at tk <= 30 * 1000 -> snd (consume now id m) = Some tk).
Proof.
  intros H1 N H2. split.
  - intros Hr. unfold consume in *. destruct (m !! id) as [t|] eqn:E; [|done]. cbn [fst snd] in *.
    destruct (Z.ltb_spec TICKET_TTL_SECS (elapsed_secs now t)) as [|Hage]; [done|]. injection Hr as ->.
    destruct (history_origin _ _ _ _ _ H1 E) as [E0|[c Hc]]; [by rewrite lookup_empty in E0|].
    split; [by exists c|]. split; [by apply fresh_enough|].
    eapply history_absent; [exact H2|apply lookup_delete_eq|].
    unfold created in N. rewrite map_app, concat_app in N. apply NoDup_app in N as (_ & N & _).
    intros Hin. apply (N id); [|done]. by eapply created_in.
  - intros (tra & c & trb & -> & Hb) Hage. apply ticket_history_app in H1 as (m1 & _ & H1).
    inversion H1 as [|? ? ? m2 r ? ? Hs H3]; subst. injection Hs as <- .
    rewrite <- app_assoc in N. cbn [app] in N.
    assert (m !! id = Some tk) as E.
    { eapply young_kept; [exact H3|apply lookup_insert_eq|exact Hb|]. by eapply created_once. }
    unfold consume. rewrite E. cbn [snd]. rewrite (proj2 (Z.ltb_ge _ _)); [done|by apply young_secs].
Qed.
End Tickets.

(** ** Examples *)

Module RevocationExamples.
Import Revocation Reference.

Definition tok : bytes := [116; 49].
Definition exp_10000 (_ : bytes) : Z := 10000.
Definition start : state := boot 0 true true ∅.
Definition written : state := step 1000 (Persisted tok 10000 1000) start.


(** A load that fails at start is never made up for: the replica keeps
    syncing, and keeps accepting a token that was revoked before. *)
Lemma failed_load_forgets :
  let db := {[token_hash tok := mk_db_row 10000000 1000 1000]} in
  let booted := boot 200000 false true db in
  let synced_once := step 215002 Apply (step 215001 Fetch (step 215000 AskNow booted)) in
  is_revoked 215003 tok (snd synced_once) = false /\ is_revoked 215003 tok (snd (boot 200000 true true db)) = true.
Proof. by vm_compute. Qed.
End RevocationExamples.

Module TicketExamples.
Import Tickets.

Definition ticket : TunnelTicket :=
  mk_ticket 7 9 (Some [97]) (Some [98]) None None 1920 1080 96 false (Some true) None 1000.
Definition held : tickets := create 1000 5 ticket ∅.

Lemma ticket_one_time_witness :
  NoDup (created [(1000, Create 5 ticket, None)]) /\ snd (consume 20000 5 held) = Some ticket /\
  20000 - created_at ticket < 31 * 1000.
Proof.
  assert (history ∅ [(1000, Create 5 ticket, None)] held) as H1 by (eapply H_cons; [done|apply H_nil]).
  assert (NoDup (created ([(1000, Create 5 ticket, None)] ++ []))) as N
    by (apply NoDup_cons; split; [apply not_elem_of_nil|apply NoDup_nil_2]).
  pose proof (ticket_one_time _ 20000 5 ticket [] held _ H1 N (H_nil _)) as [T1 T2].
  split; [exact N|]. assert (snd (consume 20000 5 held) = Some ticket) as E.
  { apply T2; [|cbn; lia]. exists [], 1000, []. split; [done|apply Forall_nil_2]. }
  split; [exact E|]. apply (T1 E).
Defined.
End TicketExamples.
