(* ===== verification/Quotas.v ===== *)
(** * Quotas: session admission and attempt limits

    [backend/src/services/admission.rs], and [auth_limits.rs] with the
    function [auth_attempt_reserve] of its migration.  [Ledger.admit] holds
    the mutex of the per-user counts throughout, so it is one step; a
    [Reservation] that is dropped gives its bytes back before it takes the
    mutex, so a drop is two steps and other calls run between them. *)

From S2P Require Import Prelude Machine Text.

Local Open Scope Z_scope.

(** ** Admission *)

Module Admission.

Definition MIB : Z := 1024 * 1024.
Definition SESSION_OVERHEAD : Z := 8 * MIB.
Definition TERMINAL_SESSION : Z := 4 * MIB.
Definition BROWSER_SESSION : Z := 384 * MIB.
Definition MAX_PIXELS : Z := 7680 * 4320.

Definition estimate (protocol : bytes) (width height : option Z) : Z :=
  let pixels := Z.max (default 1920 width) 1 * Z.max (default 1080 height) 1 in
  let framebuffer := Z.min pixels MAX_PIXELS * 4 * 2 in
  if bool_decide (protocol ∈ [str "ssh"; str "telnet"; str "kubernetes"]) then TERMINAL_SESSION
  else if bool_decide (protocol = str "web") then BROWSER_SESSION + framebuffer
  else SESSION_OVERHEAD + framebuffer.

(** [user_limit], given the parsed [STRATA_MAX_SESSIONS_PER_USER]. *)
Definition user_limit (env : option Z) (role_limit : option Z) : option Z :=
  let chosen :=
    match (n ← role_limit; if (0 <=? n) && (n <=? u32_max) then Some n else None) with
    | Some n => Some n
    | None => env
    end in
  n ← chosen; if 0 <? n then Some n else None.

(** [env_mb], after [parse]; [budget], given the two settings and the memory
    of the machine.  Arithmetic wraps, as it does in the release profile. *)
Definition env_mb (parsed : option Z) : option Z := mb ← parsed; if 0 <? mb then Some mb else None.

Definition budget (budget_mb nvr_mb : option Z) (memory_capacity : Z) : Z :=
  match env_mb budget_mb with
  | Some mb => wrap_u 64 (mb * MIB)
  | None =>
      let nvr := wrap_u 64 (default 1024 (env_mb nvr_mb) * MIB) in
      Z.max (Z.max 0 (memory_capacity / 4 * 3 - nvr)) (256 * MIB)
  end.

(** [memory_capacity], given the host's memory and the container's limit. *)
Definition cgroup_limit (raw : option Z) : option Z := l ← raw; if l <? 2 ^ 60 then Some l else None.
Definition memory_capacity (host : Z) (raw : option Z) : Z :=
  match cgroup_limit raw with Some limit => Z.min limit host | None => host end.

Record Ledger := mk_ledger { reserved : Z; rejected : Z; per_user : gmap Z Z }.

Definition Ledger_new : Ledger := mk_ledger 0 0 ∅.

Inductive AdmitError := UserLimitReached (held : Z) | AtCapacity.

Record Reservation := mk_reservation { user : Z; reserved_bytes : Z }.

(** [Ledger::admit]; [limit] is what [(self.limit)()] returned. *)
Definition Ledger_admit (limit : Z) (u : Z) (user_limit : option Z) (bytes : Z) (l : Ledger) : Ledger * result AdmitError Reservation :=
  let held := default 0 (per_user l !! u) in
  let refuse e := (mk_ledger (reserved l) (wrap_u 64 (rejected l + 1)) (per_user l), Err e) in
  if (match user_limit with Some n => n <=? held | None => false end) then refuse (UserLimitReached held)
  else if wrap_u 64 (reserved l + bytes) <=? limit then
    (mk_ledger (wrap_u 64 (reserved l + bytes)) (rejected l) (<[u := wrap_u 32 (held + 1)]> (per_user l)),
     Ok (mk_reservation u bytes))
  else refuse AtCapacity.

(** The two halves of [Ledger::release]. *)
Definition release_bytes (bytes : Z) (l : Ledger) : Ledger :=
  mk_ledger (wrap_u 64 (reserved l - bytes)) (rejected l) (per_user l).

Definition release_user (u : Z) (l : Ledger) : Ledger :=
  match per_user l !! u with
  | Some held =>
      let held := wrap_u 32 (held - 1) in
      mk_ledger (reserved l) (rejected l) (if held =? 0 then delete u (per_user l) else <[u := held]> (per_user l))
  | None => l
  end.

Definition release (r : Reservation) (l : Ledger) : Ledger := release_user (user r) (release_bytes (reserved_bytes r) l).

(** [AdmissionStats.sessions]. *)
Definition sessions (l : Ledger) : Z := wrap_u 32 (map_fold (fun _ n acc => n + acc) 0 (per_user l)).

(** ** The ideal ledger *)

(** The open reservations, and the users of those between the two halves of
    their drop. *)
Record open := mk_open { live : list Reservation; dropping : list Z }.

Definition total (o : open) : Z := foldr (fun r acc => reserved_bytes r + acc) 0 (live o).
Definition users (o : open) : list Z := map user (live o) ++ dropping o.
Definition held (u : Z) (o : open) : Z := Z.of_nat (length (filter (fun v => v = u) (users o))).

(** Whether the ideal ledger has room. *)
Definition has_room (limit u : Z) (user_limit : option Z) (bytes : Z) (o : open) : Prop :=
  (forall n, user_limit = Some n -> held u o < n) /\ total o + bytes <= limit.

(** The process: admissions and drops in any order, with any budgets up to
    [B] and requests up to [E]. *)
Inductive step (B E : Z) : Ledger * open -> Ledger * open -> Prop :=
| S_admit l o limit u ul bytes l' r :
    0 <= limit <= B -> 0 <= bytes <= E -> Z.of_nat (length (users o)) < u32_max ->
    Ledger_admit limit u ul bytes l = (l', Ok r) -> step B E (l, o) (l', mk_open (r :: live o) (dropping o))
| S_refuse l o limit u ul bytes l' e :
    Ledger_admit limit u ul bytes l = (l', Err e) -> step B E (l, o) (l', o)
| S_drop l o r live' :
    live o ≡ₚ r :: live' ->
    step B E (l, o) (release_bytes (reserved_bytes r) l, mk_open live' (user r :: dropping o))
| S_dropped l o u dropping' :
    dropping o ≡ₚ u :: dropping' -> step B E (l, o) (release_user u l, mk_open (live o) dropping').

Inductive reachable (B E : Z) : Ledger * open -> Prop :=
| R_new : reachable B E (Ledger_new, mk_open [] [])
| R_step s s' : reachable B E s -> step B E s s' -> reachable B E s'.

(** *** Counting *)

Lemma held_cons_live u r o : held u (mk_open (r :: live o) (dropping o)) = (if bool_decide (user r = u) then 1 else 0) + held u o.
Proof.
  unfold held, users. cbn [live dropping map app]. rewrite filter_cons.
  destruct (decide (user r = u)) as [E|N]; [rewrite bool_decide_eq_true_2 by done|rewrite bool_decide_eq_false_2 by done]; cbn [length]; lia.
Qed.

Lemma held_perm u o o' : users o ≡ₚ users o' -> held u o = held u o'.
Proof. intros P. unfold held. by rewrite P. Qed.

Lemma held_users (u : Z) us : Z.of_nat (length (filter (fun v => v = u) us)) = 0 <-> u ∉ us.
Proof.
  split.
  - intros E Hin. assert (u ∈ filter (fun v => v = u) us) as H by (by apply list_elem_of_filter).
    destruct (filter _ us); [by apply not_elem_of_nil in H|cbn in E; lia].
  - intros N. rewrite filter_none; [done|]. by intros v Hv ->.
Qed.

Lemma total_perm o o' : live o ≡ₚ live o' -> total o = total o'.
Proof.
  intros P. unfold total. induction P; cbn; lia.
Qed.

Lemma total_nonneg o : Forall (fun r => 0 <= reserved_bytes r) (live o) -> 0 <= total o.
Proof. unfold total. induction 1; cbn; lia. Qed.

(** The counts of a list of users, and their sum. *)
Definition counts (us : list Z) : gmap Z Z := foldr (fun u m => <[u := default 0 (m !! u) + 1]> m) ∅ us.

Lemma counts_lookup us u : default 0 (counts us !! u) = Z.of_nat (length (filter (fun v => v = u) us)).
Proof.
  induction us as [|v us IH]; [done|]. cbn [counts foldr]. fold (counts us). rewrite filter_cons.
  destruct (decide (v = u)) as [->|N]; [rewrite lookup_insert_eq|rewrite lookup_insert_ne by done]; cbn [default length]; [|done].
  unfold id in *. cbn. lia.
Qed.

Abbreviation sum_counts m := (map_fold (fun (_ : Z) (n acc : Z) => n + acc) 0 m).

Lemma sum_insert (m : gmap Z Z) u n : sum_counts (<[u := n]> m) = n - default 0 (m !! u) + sum_counts m.
Proof.
  destruct (m !! u) as [k|] eqn:E; cbn.
  - rewrite <- (insert_delete_id m u k E) at 2. rewrite <- insert_delete_eq.
    rewrite !map_fold_insert_L; [unfold id; lia|intros; lia|apply lookup_delete_eq|intros; lia|apply lookup_delete_eq].
  - rewrite map_fold_insert_L; [lia|intros; lia|done].
Qed.

Lemma counts_sum us : sum_counts (counts us) = Z.of_nat (length us).
Proof.
  induction us as [|v us IH]; [done|]. cbn [counts foldr length]. fold (counts us). rewrite sum_insert, IH. lia.
Qed.

(** *** The invariant *)

Definition user_count (u : Z) (o : open) : option Z := if held u o =? 0 then None else Some (held u o).

Record exact (B : Z) (l : Ledger) (o : open) : Prop := {
  ex_total : reserved l = total o;
  ex_bytes : Forall (fun r => 0 <= reserved_bytes r) (live o);
  ex_bound : total o <= B;
  ex_users : forall u, per_user l !! u = user_count u o;
  ex_length : Z.of_nat (length (users o)) <= u32_max
}.

Lemma exact_held B l o u : exact B l o -> default 0 (per_user l !! u) = held u o.
Proof.
  intros X. rewrite (ex_users _ _ _ X). unfold user_count. destruct (Z.eqb_spec (held u o) 0); [done|done].
Qed.

Lemma held_bound u o : 0 <= held u o <= Z.of_nat (length (users o)).
Proof. unfold held. pose proof (length_filter (fun v => v = u) (users o)). lia. Qed.

Lemma exact_sessions B l o : exact B l o -> sessions l = Z.of_nat (length (users o)).
Proof.
  intros X. unfold sessions.
  assert (per_user l = counts (users o)) as ->.
  { apply map_eq. intros u. rewrite (ex_users _ _ _ X). unfold user_count.
    pose proof (counts_lookup (users o) u) as C. fold (held u o) in C.
    destruct (Z.eqb_spec (held u o) 0) as [E|N].
    - symmetry. clear - E. unfold held in E. apply held_users in E. induction (users o) as [|v us IH]; [done|].
      cbn [counts foldr]. fold (counts us). apply not_elem_of_cons in E as [? ?]. rewrite lookup_insert_ne; auto.
    - destruct (counts (users o) !! u); cbn in C; unfold id in C; [by rewrite C|lia]. }
  rewrite counts_sum. pose proof (ex_length _ _ _ X). unfold wrap_u, u32_max in *. apply Z.mod_small. lia.
Qed.

Section bounded.
Context (B E : Z) (HB : 0 <= B) (HE : 0 <= E) (HBE : B + E <= u64_max).

Lemma admit_sum l o bytes : exact B l o -> 0 <= bytes <= E -> wrap_u 64 (reserved l + bytes) = total o + bytes.
Proof.
  intros X Hb. rewrite (ex_total _ _ _ X). pose proof (total_nonneg _ (ex_bytes _ _ _ X)). pose proof (ex_bound _ _ _ X).
  unfold wrap_u, u64_max in *. apply Z.mod_small. lia.
Qed.

Lemma user_limit_test l o u ul : exact B l o ->
  (match ul with Some n => n <=? default 0 (per_user l !! u) | None => false end) = false <-> forall n, ul = Some n -> held u o < n.
Proof.
  intros X. rewrite (exact_held _ _ _ u X). destruct ul as [n|].
  - rewrite Z.leb_gt. split; [by intros ? ? [= <-]|auto].
  - split; [done|done].
Qed.

Lemma admit_decides l o limit u ul bytes : exact B l o -> 0 <= limit <= B -> 0 <= bytes <= E ->
  match Ledger_admit limit u ul bytes l with
  | (l', Ok r) => has_room limit u ul bytes o /\ r = mk_reservation u bytes /\
      l' = mk_ledger (total o + bytes) (rejected l) (<[u := wrap_u 32 (held u o + 1)]> (per_user l))
  | (l', Err e) => ~ has_room limit u ul bytes o /\ reserved l' = reserved l /\ per_user l' = per_user l
  end.
Proof.
  intros X Hl Hb. unfold Ledger_admit, has_room. pose proof (user_limit_test l o u ul X) as T.
  destruct (match ul with Some n => _ | None => false end).
  - repeat split; try done. intros [Hn _]. by apply T in Hn.
  - rewrite (admit_sum l o bytes X Hb). destruct (Z.leb_spec (total o + bytes) limit) as [Hle|Hgt].
    + rewrite (exact_held _ _ _ u X). repeat split; [by apply T|done].
    + repeat split; try done. intros [_ ?]. lia.
Qed.

Lemma admit_exact l o limit u ul bytes l' r : exact B l o -> 0 <= limit <= B -> 0 <= bytes <= E ->
  Z.of_nat (length (users o)) < u32_max -> Ledger_admit limit u ul bytes l = (l', Ok r) ->
  exact B l' (mk_open (r :: live o) (dropping o)).
Proof.
  intros X Hl Hb Hlen Ea. pose proof (admit_decides l o limit u ul bytes X Hl Hb) as D. rewrite Ea in D.
  destruct D as ([_ Hroom] & -> & ->). split; cbn [reserved per_user live].
  - unfold total; cbn. lia.
  - apply Forall_cons. split; [cbn; lia|by apply (ex_bytes _ _ _ X)].
  - unfold total in *; cbn in *. lia.
  - intros v. unfold user_count. rewrite held_cons_live. cbn [user]. pose proof (held_bound v o).
    destruct (decide (u = v)) as [->|N].
    + rewrite lookup_insert_eq, bool_decide_eq_true_2, (proj2 (Z.eqb_neq _ _)) by (done || lia). f_equal.
      unfold wrap_u, u32_max in *. rewrite Z.mod_small by lia. lia.
    + rewrite lookup_insert_ne, bool_decide_eq_false_2 by done. apply (ex_users _ _ _ X).
  - unfold users; cbn. unfold users in Hlen. lia.
Qed.

Lemma drop_exact l o r live' : exact B l o -> live o ≡ₚ r :: live' ->
  exact B (release_bytes (reserved_bytes r) l) (mk_open live' (user r :: dropping o)).
Proof.
  intros X P. assert (users o ≡ₚ users (mk_open live' (user r :: dropping o))) as PU
    by (unfold users; rewrite P; cbn; by apply Permutation_middle).
  assert (total o = reserved_bytes r + total (mk_open live' (user r :: dropping o))) as T
    by (exact (total_perm o (mk_open (r :: live') []) P)).
  pose proof (ex_bytes _ _ _ X) as Hb. rewrite P in Hb. apply Forall_cons in Hb as [Hr Hb].
  pose proof (total_nonneg (mk_open live' (user r :: dropping o)) Hb). pose proof (ex_bound _ _ _ X).
  split; cbn [release_bytes reserved per_user live].
  - rewrite (ex_total _ _ _ X), T. unfold wrap_u, u64_max in *. rewrite Z.mod_small; lia.
  - done.
  - lia.
  - intros v. rewrite (ex_users _ _ _ X). unfold user_count. by rewrite (held_perm v _ _ PU).
  - rewrite <- PU. apply (ex_length _ _ _ X).
Qed.

Lemma dropped_exact l o u dropping' : exact B l o -> dropping o ≡ₚ u :: dropping' ->
  exact B (release_user u l) (mk_open (live o) dropping').
Proof.
  intros X P. set (o' := mk_open (live o) dropping').
  assert (users o ≡ₚ u :: users o') as PU by (unfold users; rewrite P; symmetry; by apply Permutation_middle).
  assert (forall v, held v o = (if bool_decide (u = v) then 1 else 0) + held v o') as Hh.
  { intros v. unfold held. rewrite PU, filter_cons.
    destruct (decide (u = v)) as [e|e]; [rewrite bool_decide_eq_true_2 by done|rewrite bool_decide_eq_false_2 by done]; cbn [length]; lia. }
  assert (forall v, 0 <= held v o' <= u32_max) as Hr.
  { intros v. pose proof (held_bound v o'). pose proof (ex_length _ _ _ X) as L. rewrite PU in L. cbn [length] in L. lia. }
  assert (held u o = 1 + held u o') as Hu by (by rewrite Hh, bool_decide_eq_true_2).
  pose proof (Hr u) as Hru. unfold release_user. rewrite (ex_users _ _ _ X). unfold user_count at 1.
  rewrite (proj2 (Z.eqb_neq (held u o) 0)) by lia. rewrite Hu. replace (1 + held u o' - 1) with (held u o') by lia.
  assert (wrap_u 32 (held u o') = held u o') as -> by (unfold wrap_u, u32_max in *; apply Z.mod_small; lia).
  split; cbn [reserved per_user]; [by apply X|by apply X|by apply X| |].
  - intros v. destruct (decide (u = v)) as [<-|N].
    + unfold user_count. destruct (held u o' =? 0); [apply lookup_delete_eq|apply lookup_insert_eq].
    + assert (per_user l !! v = user_count v o') as Ev.
      { rewrite (ex_users _ _ _ X). unfold user_count. by rewrite (Hh v), bool_decide_eq_false_2. }
      by destruct (held u o' =? 0); [rewrite lookup_delete_ne|rewrite lookup_insert_ne].
  - pose proof (ex_length _ _ _ X) as L. rewrite PU in L. cbn [length] in L. lia.
Qed.

Lemma reachable_exact s : reachable B E s -> exact B (fst s) (snd s).
Proof.
  induction 1 as [|s s' _ IH Hs]; [by split; cbn; try lia; try apply Forall_nil_2|].
  destruct Hs as [l o limit u ul bytes l' r Hl Hb Hlen Ea|l o limit u ul bytes l' e Ea|l o r live' P|l o u dr P]; cbn [fst snd] in *.
  - by eapply admit_exact.
  - assert (reserved l' = reserved l /\ per_user l' = per_user l) as [E1 E2].
    { unfold Ledger_admit in Ea. repeat case_match; by simplify_eq. }
    destruct IH as [I1 I2 I3 I4 I5]. split; [congruence|done|done|by rewrite E2|done].
  - by apply drop_exact.
  - by apply dropped_exact.
Qed.

(** C13: admission keeps an exact account.  However admissions, refusals and
    the two halves of drops interleave, and however the budget is resized up
    to [B], the reserved bytes are the sum of the live reservations and never
    exceed [B], the per-user counts are those of the open sessions, nothing
    wraps, and a request is admitted exactly when the ideal ledger has room
    under the user's limit and the current budget. *)
Theorem ledger_refines_open l o limit u ul bytes :
  reachable B E (l, o) -> 0 <= limit <= B -> 0 <= bytes <= E ->
  reserved l = total o /\ 0 <= total o <= B /\ sessions l = Z.of_nat (length (users o)) /\
  (forall v, default 0 (per_user l !! v) = held v o) /\
  (is_ok (snd (Ledger_admit limit u ul bytes l)) = true <-> has_room limit u ul bytes o).
Proof.
  intros R Hl Hb. pose proof (reachable_exact _ R) as X. cbn [fst snd] in X.
  split; [apply X|]. split; [split; [apply total_nonneg, X|apply X]|]. split; [by eapply exact_sessions|].
  split; [intros v; by eapply exact_held|].
  pose proof (admit_decides l o limit u ul bytes X Hl Hb) as D.
  destruct (Ledger_admit limit u ul bytes l) as [l' [r|e]]; cbn [snd is_ok].
  - split; [intros _; apply D|done].
  - split; [done|]. intros Hr. by destruct (proj1 D).
Qed.
End bounded.

(** An estimate of a display within [u32] is far from wrapping. *)
Lemma estimate_bound protocol w h : (forall x, w = Some x -> is_u32 x) -> (forall x, h = Some x -> is_u32 x) ->
  TERMINAL_SESSION <= estimate protocol w h <= BROWSER_SESSION + MAX_PIXELS * 8 /\
  Z.max (default 1920 w) 1 * Z.max (default 1080 h) 1 <= u64_max.
Proof.
  intros Hw Hh.
  assert (1 <= Z.max (default 1920 w) 1 <= u32_max) as Rw
    by (destruct w as [x|]; cbn; [pose proof (Hw x eq_refl) as R; unfold in_range, u32_max, id in *; lia|unfold u32_max, id; lia]).
  assert (1 <= Z.max (default 1080 h) 1 <= u32_max) as Rh
    by (destruct h as [x|]; cbn; [pose proof (Hh x eq_refl) as R; unfold in_range, u32_max, id in *; lia|unfold u32_max, id; lia]).
  split; [|unfold u64_max, u32_max in *; nia].
  unfold estimate, TERMINAL_SESSION, BROWSER_SESSION, SESSION_OVERHEAD, MIB.
  set (p := Z.max _ _ * Z.max _ _). assert (1 <= p) by (subst p; nia).
  assert (1 <= Z.min p MAX_PIXELS <= MAX_PIXELS) by (unfold MAX_PIXELS; lia).
  repeat case_match; lia.
Qed.
End Admission.

(** ** Attempt limits *)

Module Attempts.

Record Limit := mk_limit { name : bytes; max : Z; window_secs : Z }.

Definition LOGIN_ACCOUNT_FROM_ADDRESS : Limit := mk_limit (str "login_account_ip") 5 60.
Definition LOGIN_ACCOUNT : Limit := mk_limit (str "login_account") 30 900.
Definition LOGIN_ADDRESS : Limit := mk_limit (str "login_ip") 20 300.
Definition PASSWORD_CHANGE : Limit := mk_limit (str "password_change") 5 3600.
Definition DEFAULT_LOGIN_PER_MINUTE : Z := 600.

(** [login_overall], given the parsed [STRATA_LOGIN_ATTEMPTS_PER_MINUTE]. *)
Definition login_overall (env : option Z) : Limit :=
  mk_limit (str "login_all") (default DEFAULT_LOGIN_PER_MINUTE (n ← env; if 0 <? n then Some n else None)) 60.

Definition bucket (limit : Limit) (key : bytes) : bytes := name limit ++ str ":" ++ key.

(** Table [auth_attempts] and its sequence; times in milliseconds. *)
Record attempt := mk_attempt { a_bucket : bytes; attempted_at : Z }.
Record db := mk_db { rows : gmap Z attempt; next_id : Z }.

Definition HOUR : Z := 3600 * 1000.

Definition in_bucket (b : bytes) (m : gmap Z attempt) : gmap Z attempt := filter (fun ia => a_bucket (snd ia) = b) m.

Definition oldest (m : gmap Z attempt) : option Z :=
  map_fold (fun _ a acc => Some (match acc with Some t => Z.min t (attempted_at a) | None => attempted_at a end)) None m.

Definition ceil_secs (ms : Z) : Z := (ms + 999) / 1000.

(** What the two [DELETE]s leave.  [swept] is the set of rows the second one
    picked: any old ones, a hundred at most, that nobody has locked. *)
Definition swept_rows (now : Z) (swept : gset Z) (p_bucket : bytes) (p_window_secs : Z) (m : gmap Z attempt) : gmap Z attempt :=
  filter (fun ia => ~ (fst ia ∈ swept /\ attempted_at (snd ia) < now - HOUR))
    (filter (fun ia => ~ (a_bucket (snd ia) = p_bucket /\ attempted_at (snd ia) <= now - p_window_secs * 1000)) m).

(** The SQL function [auth_attempt_reserve].  [now] is read before the lock
    is taken, so calls do not run in the order of their [now]. *)
Definition auth_attempt_reserve (now : Z) (swept : gset Z) (p_bucket : bytes) (p_max p_window_secs : Z) (d : db) :
    db * (option Z * Z) :=
  let m := swept_rows now swept p_bucket p_window_secs (rows d) in
  let mine := in_bucket p_bucket m in
  if Z.of_nat (size mine) <? p_max then
    (mk_db (<[next_id d := mk_attempt p_bucket now]> m) (next_id d + 1), (Some (next_id d), 0))
  else
    (mk_db m (next_id d),
     (None, match oldest mine with Some t => Z.max 1 (ceil_secs (t + p_window_secs * 1000 - now)) | None => 1 end)).

Definition release (ids : list Z) (d : db) : db := mk_db (filter (fun ia => fst ia ∉ ids) (rows d)) (next_id d).

Definition clear (limit : Limit) (key : bytes) (d : db) : db :=
  mk_db (filter (fun ia => a_bucket (snd ia) <> bucket limit key) (rows d)) (next_id d).

Inductive reserve_error := TooManyAttempts (retry_after_secs : Z) | DatabaseError.

(** The loop of [reserve].  Each check comes with the time its statement runs
    and what it sweeps, [None] when the statement fails; [release_ok] tells
    whether giving back succeeds. *)
Fixpoint reserve_loop (release_ok : bool) (checks : list (Limit * bytes * option (Z * gset Z))) (ids : list Z) (d : db) :
    db * result reserve_error (list Z) :=
  match checks with
  | [] => (d, Ok ids)
  | (_, _, None) :: _ => (d, Err DatabaseError)
  | (limit, key, Some (now, swept)) :: rest =>
      match auth_attempt_reserve now swept (bucket limit key) (max limit) (window_secs limit) d with
      | (d, (Some id, _)) => reserve_loop release_ok rest (ids ++ [id]) d
      | (d, (None, retry_after)) =>
          (if negb (bool_decide (ids = [])) && release_ok then release ids d else d,
           Err (TooManyAttempts (Z.max 1 (if (0 <=? retry_after) && (retry_after <=? u32_max) then retry_after else 1))))
      end
  end.

Definition reserve (release_ok : bool) (checks : list (Limit * bytes * option (Z * gset Z))) (d : db) :
    db * result reserve_error (list Z) := reserve_loop release_ok checks [] d.

(** The checks of the login route, all run at [now]. *)
Definition login_checks (env : option Z) (now : Z) (account client_ip : bytes) : list (Limit * bytes * option (Z * gset Z)) :=
  map (fun lk => (lk, Some (now, ∅)))
    [ (LOGIN_ACCOUNT_FROM_ADDRESS, account ++ str "|" ++ client_ip); (LOGIN_ACCOUNT, account);
      (LOGIN_ADDRESS, client_ip); (login_overall env, str "all") ].

(** A login whose password was right. *)
Definition login_succeeded (account client_ip : bytes) (ids : list Z) (d : db) : db :=
  clear LOGIN_ACCOUNT_FROM_ADDRESS (account ++ str "|" ++ client_ip) (release ids d).

(** ** Any number of replicas *)

Inductive op :=
| OReserve (now : Z) (swept : gset Z) (limit : Limit) (key : bytes)
| ORelease (ids : list Z)
| OClear (limit : Limit) (key : bytes).

(** The statements that replicas run, in the order the database serialises
    them.  [log] holds the attempts admitted and not given back, and [latest]
    the latest clock reading; neither is stored. *)
Record history_state := mk_hs { store : db; log : gmap Z attempt; latest : Z }.

Definition step (o : op) (s : history_state) : history_state :=
  match o with
  | OReserve now swept limit key =>
      match auth_attempt_reserve now swept (bucket limit key) (max limit) (window_secs limit) (store s) with
      | (d, (Some id, _)) => mk_hs d (<[id := mk_attempt (bucket limit key) now]> (log s)) (Z.max (latest s) now)
      | (d, (None, _)) => mk_hs d (log s) (Z.max (latest s) now)
      end
  | ORelease ids => mk_hs (release ids (store s)) (filter (fun ia => fst ia ∉ ids) (log s)) (latest s)
  | OClear limit key =>
      mk_hs (clear limit key (store s)) (filter (fun ia => a_bucket (snd ia) <> bucket limit key) (log s)) (latest s)
  end.

Section bound.
(** The limit each bucket counts under, and how far behind the latest clock
    reading a call may be when it gets the lock. *)
Context (limit_of : bytes -> Limit) (delta : Z).

Definition window (b : bytes) : Z := window_secs (limit_of b) * 1000.

Definition allowed (o : op) (s : history_state) : Prop :=
  match o with
  | OReserve now _ limit key =>
      limit = limit_of (bucket limit key) /\ latest s - delta <= now
  | _ => True
  end.

Inductive reachable : history_state -> Prop :=
| R_start t : reachable (mk_hs (mk_db ∅ 0) ∅ t)
| R_op s o : reachable s -> allowed o s -> reachable (step o s).

(** The attempts of bucket [b] in the window that ends a [delta] early. *)
Definition in_window (b : bytes) (x : Z) (m : gmap Z attempt) : gmap Z attempt :=
  filter (fun ia => a_bucket (snd ia) = b /\ x < attempted_at (snd ia) <= x + window b - delta) m.

Context (Hdelta : 0 <= delta)
  (Hlimits : forall b, 0 <= max (limit_of b) /\ 0 <= window_secs (limit_of b) <= 3600).

Record bounded (s : history_state) : Prop := {
  bd_rows : forall i a, rows (store s) !! i = Some a -> log s !! i = Some a;
  bd_fresh : forall i a, log s !! i = Some a -> i < next_id (store s);
  bd_gone : forall i a, log s !! i = Some a -> rows (store s) !! i = None -> attempted_at a <= latest s - window (a_bucket a);
  bd_window : forall b x, Z.of_nat (size (in_window b x (log s))) <= max (limit_of b)
}.

Lemma in_window_lookup b x m i a :
  in_window b x m !! i = Some a <-> m !! i = Some a /\ a_bucket a = b /\ x < attempted_at a <= x + window b - delta.
Proof. apply map_lookup_filter_Some. Qed.

Lemma in_window_mono b x m m' : m ⊆ m' -> Z.of_nat (size (in_window b x m)) <= Z.of_nat (size (in_window b x m')).
Proof.
  intros Hs. apply inj_le, map_subseteq_size, map_subseteq_spec. intros i a [E ?]%in_window_lookup.
  apply in_window_lookup. split; [by eapply lookup_weaken|done].
Qed.

Lemma swept_lookup now swept b w m i a : swept_rows now swept b w m !! i = Some a <->
  m !! i = Some a /\ ~ (a_bucket a = b /\ attempted_at a <= now - w * 1000) /\ ~ (i ∈ swept /\ attempted_at a < now - HOUR).
Proof. unfold swept_rows. rewrite !map_lookup_filter_Some. cbn. tauto. Qed.

Lemma swept_kept now swept b w m i a : m !! i = Some a -> now - HOUR <= attempted_at a ->
  (a_bucket a = b -> now - w * 1000 < attempted_at a) -> swept_rows now swept b w m !! i = Some a.
Proof. intros E H1 H2. apply swept_lookup. split; [done|]. split; intros [E1 H]; [specialize (H2 E1)|]; lia. Qed.

(** Rows a call deletes are older than their window. *)
Lemma swept_gone now swept b w m i a : w = window_secs (limit_of b) -> m !! i = Some a -> swept_rows now swept b w m !! i = None ->
  attempted_at a <= now - window (a_bucket a).
Proof.
  intros -> E N. destruct (decide (attempted_at a <= now - window (a_bucket a))) as [|G]; [done|exfalso].
  unfold window in G. pose proof (Hlimits (a_bucket a)) as [_ Hw].
  rewrite (swept_kept now swept b _ m i a E) in N; [done|unfold HOUR; lia|]. intros <-. lia.
Qed.

Lemma reserve_cases now swept limit key d : exists m,
  m = swept_rows now swept (bucket limit key) (window_secs limit) (rows d) /\
  (Z.of_nat (size (in_bucket (bucket limit key) m)) < max limit /\
   auth_attempt_reserve now swept (bucket limit key) (max limit) (window_secs limit) d =
     (mk_db (<[next_id d := mk_attempt (bucket limit key) now]> m) (next_id d + 1), (Some (next_id d), 0)) \/
   max limit <= Z.of_nat (size (in_bucket (bucket limit key) m)) /\
   exists r, 1 <= r /\ auth_attempt_reserve now swept (bucket limit key) (max limit) (window_secs limit) d = (mk_db m (next_id d), (None, r))).
Proof.
  eexists. split; [done|]. unfold auth_attempt_reserve. destruct (Z.ltb_spec (Z.of_nat (size (in_bucket (bucket limit key)
    (swept_rows now swept (bucket limit key) (window_secs limit) (rows d))))) (max limit)); [by left|right]. split; [done|].
  eexists. split; [|done]. destruct (oldest _); lia.
Qed.

(** The attempts of a window that reaches up to [now] are still rows. *)
Lemma window_counted s now swept limit key x :
  bounded s -> limit = limit_of (bucket limit key) -> latest s - delta <= now ->
  x < now <= x + window (bucket limit key) - delta ->
  Z.of_nat (size (in_window (bucket limit key) x (log s))) <=
  Z.of_nat (size (in_bucket (bucket limit key) (swept_rows now swept (bucket limit key) (window_secs limit) (rows (store s))))).
Proof.
  intros Bd Hl Hn Hx. set (b := bucket limit key) in *. apply inj_le, map_subseteq_size, map_subseteq_spec.
  intros i a (E & Eb & Hr)%in_window_lookup. pose proof (Hlimits b) as [_ Hw]. unfold window in *.
  destruct (rows (store s) !! i) as [a'|] eqn:Er.
  - pose proof (bd_rows _ Bd _ _ Er) as E'. assert (a' = a) as -> by congruence.
    apply map_lookup_filter_Some. split; [|done]. apply swept_kept; [done|unfold HOUR; lia|]. intros _. rewrite Hl. fold b. lia.
  - pose proof (bd_gone _ Bd _ _ E Er) as G. unfold window in G. rewrite Eb in G. lia.
Qed.

Lemma in_window_insert_new b x m i a : m !! i = None ->
  a_bucket a = b /\ x < attempted_at a <= x + window b - delta ->
  Z.of_nat (size (in_window b x (<[i := a]> m))) = 1 + Z.of_nat (size (in_window b x m)).
Proof.
  intros E Ha. unfold in_window. rewrite map_filter_insert_True by done.
  rewrite map_size_insert_None; [lia|]. apply map_lookup_filter_None. by left.
Qed.

Lemma in_window_insert_other b x m i a : m !! i = None ->
  ~ (a_bucket a = b /\ x < attempted_at a <= x + window b - delta) -> in_window b x (<[i := a]> m) = in_window b x m.
Proof. intros E Ha. unfold in_window. rewrite map_filter_insert_not'; [done|done|]. intros y. by rewrite E. Qed.

Lemma reserve_bounded s now swept limit key : bounded s -> allowed (OReserve now swept limit key) s ->
  bounded (step (OReserve now swept limit key) s).
Proof.
  intros Bd (Hl & Hn). cbn [step]. destruct (reserve_cases now swept limit key (store s)) as (m & Em & [[Hroom ->]|(_ & r & _ & ->)]).
  - assert (log s !! next_id (store s) = None) as Hnew.
    { destruct (log s !! next_id (store s)) eqn:E; [|done]. pose proof (bd_fresh _ Bd _ _ E). lia. }
    split; cbn [store log latest rows next_id].
    + intros i a [[<- <-]|[N E]]%lookup_insert_Some; [apply lookup_insert_eq|]. rewrite lookup_insert_ne by done.
      subst m. apply swept_lookup in E as [E _]. by apply (bd_rows _ Bd).
    + intros i a [[<- <-]|[N E]]%lookup_insert_Some; [lia|]. pose proof (bd_fresh _ Bd _ _ E). lia.
    + intros i a [[<- <-]|[N E]]%lookup_insert_Some; [by rewrite lookup_insert_eq|]. rewrite lookup_insert_ne by done. intros En.
      destruct (rows (store s) !! i) as [a'|] eqn:Er.
      * pose proof (bd_rows _ Bd _ _ Er) as E'. assert (a' = a) as -> by congruence. subst m.
        rewrite Hl in En at 2. pose proof (swept_gone _ _ _ _ _ _ _ eq_refl Er En). lia.
      * pose proof (bd_gone _ Bd _ _ E Er). lia.
    + intros b x.
      destruct (decide (bucket limit key = b /\ x < now <= x + window b - delta)) as [[<- Hx]|N].
      * rewrite in_window_insert_new by done. subst m. pose proof (window_counted s now swept limit key x Bd Hl Hn Hx).
        rewrite <- Hl. lia.
      * rewrite in_window_insert_other by done. apply Bd.
  - subst m. split; cbn [store log latest rows next_id]; [|by apply Bd| |by apply Bd].
    + intros i a [E _]%swept_lookup. by apply (bd_rows _ Bd).
    + intros i a E En. destruct (rows (store s) !! i) as [a'|] eqn:Er.
      * pose proof (bd_rows _ Bd _ _ Er) as E'. assert (a' = a) as -> by congruence.
        rewrite Hl in En at 2. pose proof (swept_gone _ _ _ _ _ _ _ eq_refl Er En). lia.
      * pose proof (bd_gone _ Bd _ _ E Er). lia.
Qed.

(** Giving back removes the same attempts from both. *)
Lemma filter_bounded s (P : Z * attempt -> Prop) `{forall ia, Decision (P ia)} : bounded s ->
  bounded (mk_hs (mk_db (filter P (rows (store s))) (next_id (store s))) (filter P (log s)) (latest s)).
Proof.
  intros Bd. split; cbn [store log latest rows next_id].
  - intros i a [E HP]%map_lookup_filter_Some. apply map_lookup_filter_Some. split; [by apply (bd_rows _ Bd)|done].
  - intros i a [E _]%map_lookup_filter_Some. by apply (bd_fresh _ Bd) in E.
  - intros i a [E HP]%map_lookup_filter_Some En. apply (bd_gone _ Bd i); [done|].
    apply map_lookup_filter_None in En as [En|En]; [done|].
    destruct (rows (store s) !! i) as [a'|] eqn:Er; [|done]. pose proof (bd_rows _ Bd _ _ Er) as E'.
    assert (a' = a) as -> by congruence. by destruct (En a eq_refl).
  - intros b x. etrans; [|apply Bd]. apply in_window_mono, map_filter_subseteq.
Qed.

Lemma reachable_bounded s : reachable s -> bounded s.
Proof.
  induction 1 as [t|s o _ IH Ha].
  - split; cbn; [intros i a; by rewrite lookup_empty..|]. intros b x. apply Hlimits.
  - destruct o; [by apply reserve_bounded|by apply filter_bounded|by apply filter_bounded].
Qed.

(** C19: no window holds more attempts than its limit.  Whatever reservations,
    releases and clears the replicas run, on any buckets, and whatever the
    sweeps pick, at most [max] attempts that were admitted and not given back
    fall in any window of the limit's length; a call that waits for the lock
    up to [delta] shortens the window by as much. *)
Theorem attempts_bounded s b x : reachable s -> Z.of_nat (size (in_window b x (log s))) <= max (limit_of b).
Proof. intros R. by apply bd_window, reachable_bounded. Qed.
End bound.

(** *** Several limits at once *)

(** A row that one of the checks' deletions may drop. *)
Definition outdated (checks : list (Limit * bytes * option (Z * gset Z))) (a : attempt) : Prop :=
  exists limit key now swept, (limit, key, Some (now, swept)) ∈ checks /\
    (a_bucket a = bucket limit key /\ attempted_at a <= now - window_secs limit * 1000 \/ attempted_at a < now - HOUR).

(** Table [d] against the table [d0] at the start, with [ids] admitted. *)
Record since_start (checks : list (Limit * bytes * option (Z * gset Z))) (d0 : db) (ids : list Z) (d : db) : Prop := {
  ss_new : forall i a, rows d !! i = Some a -> rows d0 !! i = Some a \/ i ∈ ids;
  ss_kept : forall i a, rows d0 !! i = Some a -> rows d !! i = Some a \/ outdated checks a;
  ss_ids : forall i, i ∈ ids -> next_id d0 <= i < next_id d;
  ss_next : next_id d0 <= next_id d;
  ss_nodup : NoDup ids
}.

Lemma swept_outdated checks now swept limit key m i a : (limit, key, Some (now, swept)) ∈ checks -> m !! i = Some a ->
  swept_rows now swept (bucket limit key) (window_secs limit) m !! i = Some a \/ outdated checks a.
Proof.
  intros Hin E. destruct (swept_rows _ _ _ _ m !! i) as [a'|] eqn:Es.
  - left. apply swept_lookup in Es as [Es _]. congruence.
  - right. exists limit, key, now, swept. split; [done|].
    destruct (decide (a_bucket a = bucket limit key /\ attempted_at a <= now - window_secs limit * 1000)) as [?|N1]; [by left|right].
    destruct (decide (attempted_at a < now - HOUR)) as [?|N2]; [done|]. exfalso.
    rewrite (proj2 (swept_lookup now swept _ _ m i a)) in Es; [done|]. split; [done|]. split; [done|tauto].
Qed.

Lemma since_start_step checks d0 ids d now swept limit key : (limit, key, Some (now, swept)) ∈ checks ->
  (forall i a, rows d0 !! i = Some a -> i < next_id d0) -> since_start checks d0 ids d ->
  since_start checks d0 ids (mk_db (swept_rows now swept (bucket limit key) (window_secs limit) (rows d)) (next_id d)) /\
  since_start checks d0 (ids ++ [next_id d]) (mk_db (<[next_id d := mk_attempt (bucket limit key) now]>
    (swept_rows now swept (bucket limit key) (window_secs limit) (rows d))) (next_id d + 1)).
Proof.
  intros Hin H0 [S1 S2 S3 S4 S5]. split; split; cbn [rows next_id].
  - intros i a [E _]%swept_lookup. by apply S1.
  - intros i a E. destruct (S2 i a E) as [E'|]; [|by right]. by apply swept_outdated.
  - done.
  - done.
  - done.
  - intros i a [[<- _]|[_ [E _]%swept_lookup]]%lookup_insert_Some; [right; apply elem_of_app; right; by apply list_elem_of_singleton|].
    destruct (S1 i a E); [by left|right; apply elem_of_app; by left].
  - intros i a E. pose proof (H0 i a E). rewrite lookup_insert_ne by lia.
    destruct (S2 i a E) as [E'|]; [|by right]. by apply swept_outdated.
  - intros i [Hi| ->%list_elem_of_singleton]%elem_of_app; [specialize (S3 i Hi)|]; lia.
  - lia.
  - apply NoDup_app. split; [done|]. split; [|apply NoDup_singleton]. intros i Hi ->%list_elem_of_singleton.
    specialize (S3 _ Hi). lia.
Qed.

Lemma release_all checks d0 ids d : (forall i a, rows d0 !! i = Some a -> i < next_id d0) -> since_start checks d0 ids d ->
  since_start checks d0 [] (release ids d).
Proof.
  intros H0 [S1 S2 S3 S4 S5]. split; cbn [release rows next_id]; [| |by intros i ?%elem_of_nil|done|apply NoDup_nil_2].
  - intros i a [E N]%map_lookup_filter_Some. left. by destruct (S1 i a E).
  - intros i a E. destruct (S2 i a E) as [E'|]; [left|by right]. apply map_lookup_filter_Some. split; [done|]. cbn.
    intros Hi. specialize (S3 i Hi). specialize (H0 i a E). lia.
Qed.

Lemma reserve_loop_spec checks todo d0 ids d : (forall c, c ∈ todo -> c ∈ checks) ->
  (forall i a, rows d0 !! i = Some a -> i < next_id d0) -> since_start checks d0 ids d ->
  match reserve_loop true todo ids d with
  | (d', Ok ids') => since_start checks d0 ids' d' /\ length ids' = (length ids + length todo)%nat
  | (d', Err (TooManyAttempts r)) => since_start checks d0 [] d' /\ 1 <= r <= u32_max
  | (d', Err DatabaseError) => exists limit key, (limit, key, None) ∈ todo
  end.
Proof.
  intros Hin H0. revert ids d. induction todo as [|[[limit key] [[now swept]|]] todo IH]; intros ids d S; cbn [reserve_loop].
  - split; [done|]. cbn [length]. lia.
  - pose proof (since_start_step checks d0 ids d now swept limit key (Hin _ ltac:(by left)) H0 S) as [Sr Sa].
    destruct (reserve_cases now swept limit key d) as (m & -> & [[_ ->]|(_ & r & Hr & ->)]).
    + specialize (IH ltac:(intros c Hc; apply Hin; by right) _ _ Sa).
      destruct (reserve_loop true todo _ _) as [d' [ids'|[r|]]]; [|done|].
      * destruct IH as [? IH]. split; [done|]. rewrite length_app in IH. cbn [length] in *. lia.
      * destruct IH as (l & k & ?). exists l, k. by right.
    + split.
      * rewrite andb_true_r. destruct (bool_decide_reflect (ids = [])) as [->|N]; cbn [negb]; [done|by eapply release_all].
      * destruct ((0 <=? r) && (r <=? u32_max)) eqn:G; [apply andb_true_iff in G as [_ G%Z.leb_le]; lia|unfold u32_max; lia].
  - exists limit, key. by left.
Qed.

(** A request is counted under every limit or under none.  When
    [reserve] succeeds there is one new attempt for each check; when a limit
    is full nothing new is left in the table, at most outdated rows are gone,
    and the retry delay is between one second and [u32::MAX]; the only other
    failure is that of the database. *)
Lemma reserve_all_or_nothing checks d : (forall i a, rows d !! i = Some a -> i < next_id d) ->
  match reserve true checks d with
  | (d', Ok ids) => length ids = length checks /\ NoDup ids /\
      (forall i a, rows d' !! i = Some a -> rows d !! i = Some a \/ i ∈ ids) /\ (forall i, i ∈ ids -> rows d !! i = None)
  | (d', Err (TooManyAttempts r)) => 1 <= r <= u32_max /\
      (forall i a, rows d' !! i = Some a -> rows d !! i = Some a) /\
      (forall i a, rows d !! i = Some a -> rows d' !! i = Some a \/ outdated checks a)
  | (_, Err DatabaseError) => exists limit key, (limit, key, None) ∈ checks
  end.
Proof.
  intros H0. assert (since_start checks d [] d) as S
    by (split; [by left|by left|by intros i ?%elem_of_nil|lia|apply NoDup_nil_2]).
  pose proof (reserve_loop_spec checks checks d [] d ltac:(done) H0 S) as L. unfold reserve.
  destruct (reserve_loop true checks [] d) as [d' [ids|[r|]]]; [| |done].
  - destruct L as [[L1 L2 L3 L4 L5] L6]. repeat split; try done. intros i Hi. specialize (L3 i Hi).
    destruct (rows d !! i) eqn:E; [specialize (H0 _ _ E); lia|done].
  - destruct L as [[L1 L2 L3 L4 L5] L6]. repeat split; try apply L6; [|done]. intros i a E. by destruct (L1 i a E) as [|?%elem_of_nil].
Qed.

(** *** The retry delay *)

Lemma oldest_spec m : match oldest m with Some t => exists i a, m !! i = Some a /\ attempted_at a = t | None => m = ∅ end.
Proof.
  unfold oldest. apply (map_fold_weak_ind (fun acc (m : gmap Z attempt) =>
    match acc with Some t => exists i a, m !! i = Some a /\ attempted_at a = t | None => m = ∅ end)); [done|].
  intros i a m' acc E IH. destruct acc as [t|].
  - destruct IH as (j & b & Ej & <-). destruct (Z.min_spec (attempted_at b) (attempted_at a)) as [[_ ->]|[_ ->]].
    + exists j, b. split; [|done]. rewrite lookup_insert_ne; [done|]. intros <-. congruence.
    + exists i, a. split; [apply lookup_insert_eq|done].
  - exists i, a. split; [apply lookup_insert_eq|done].
Qed.

(** Waiting out the delay of a refusal is enough, when nothing else happens
    and the bucket holds no more than its limit. *)
Lemma retry_suffices now swept swept' limit key d r m : 0 < max limit ->
  auth_attempt_reserve now swept (bucket limit key) (max limit) (window_secs limit) d = (m, (None, r)) ->
  Z.of_nat (size (in_bucket (bucket limit key) (rows m))) <= max limit ->
  exists i, fst (snd (auth_attempt_reserve (now + r * 1000) swept' (bucket limit key) (max limit) (window_secs limit) m)) = Some i.
Proof.
  intros Hmax E Hsize. set (b := bucket limit key) in *. exists (next_id m). unfold auth_attempt_reserve in *.
  set (kept := swept_rows now swept b (window_secs limit) (rows d)) in *.
  destruct (Z.ltb_spec (Z.of_nat (size (in_bucket b kept))) (max limit)) as [|Hfull]; [done|].
  injection E as <- Hr. cbn [rows next_id] in *.
  set (later := swept_rows (now + r * 1000) swept' b (window_secs limit) kept).
  assert (size (in_bucket b later) < size (in_bucket b kept))%nat as Hlt.
  { pose proof (oldest_spec (in_bucket b kept)) as O. destruct (oldest (in_bucket b kept)) as [t|].
    - destruct O as (i & a & Ei & Et). apply map_subset_size, map_subset_alt. split.
      + apply map_subseteq_spec. intros j c [[E _]%swept_lookup Hc]%map_lookup_filter_Some. by apply map_lookup_filter_Some.
      + exists i. split; [|by exists a]. apply map_lookup_filter_None. left.
        destruct (later !! i) as [a'|] eqn:El; [exfalso|done]. apply swept_lookup in El as (El & N & _).
        apply map_lookup_filter_Some in Ei as [Ei Eb]. assert (a' = a) as -> by congruence. apply N. split; [done|].
        assert (t + window_secs limit * 1000 - now <= r * 1000); [|lia]. rewrite <- Hr. unfold ceil_secs.
        pose proof (Z.div_mod (t + window_secs limit * 1000 - now + 999) 1000).
        pose proof (Z.mod_pos_bound (t + window_secs limit * 1000 - now + 999) 1000). lia.
    - exfalso. rewrite O, map_size_empty in Hfull. lia. }
  rewrite (proj2 (Z.ltb_lt _ _)); [done|lia].
Qed.
End Attempts.

(** ** Examples *)

Module QuotaExamples.

Module Ledgers.
Import Admission.

Definition gib : Z := 1024 * MIB.
Definition asked : Z := estimate (str "rdp") (Some 1920) (Some 1080).
Definition one_open : Ledger := fst (Ledger_admit gib 7 (Some 1) asked Ledger_new).

Lemma one_reachable : reachable gib gib (one_open, mk_open [mk_reservation 7 asked] []).
Proof.
  eapply R_step; [apply R_new|]. apply (S_admit gib gib Ledger_new (mk_open [] []) gib 7 (Some 1) asked one_open);
    [by vm_compute|by vm_compute|by vm_compute|by vm_compute].
Qed.

Lemma ledger_refines_open_witness :
  reserved one_open = total (mk_open [mk_reservation 7 asked] []) /\
  (is_ok (snd (Ledger_admit gib 7 (Some 1) asked one_open)) = true <->
   has_room gib 7 (Some 1) asked (mk_open [mk_reservation 7 asked] [])).
Proof.
  assert (0 <= gib <= gib /\ gib + gib <= u64_max /\ 0 <= asked <= gib) as (H1 & H2 & H3)
    by (apply (bool_decide_unpack _); vm_compute; exact I).
  destruct (ledger_refines_open gib gib (proj1 H1) (proj1 H1) H2 one_open _ gib 7 (Some 1) asked one_reachable H1 H3)
    as (T1 & _ & _ & _ & T2).
  split; [exact T1|exact T2].
Defined.

(** A budget of 2^44 MiB wraps to none at all. *)
Lemma budget_wraps : budget (Some (2 ^ 44)) None 0 = 0.
Proof. by vm_compute. Qed.
End Ledgers.

Module Limits.
Import Attempts.

Definition one_limit (_ : bytes) : Limit := mk_limit (str "one") 1 60.
Definition tried : history_state := step (OReserve 1000 ∅ (one_limit []) (str "k")) (mk_hs (mk_db ∅ 0) ∅ 1000).

Lemma attempts_bounded_witness :
  Z.of_nat (size (in_window one_limit 0 (bucket (one_limit []) (str "k")) 0 (log tried))) <= 1.
Proof.
  refine (attempts_bounded one_limit 0 _ _ tried _ 0 _); [lia| |].
  - intros b. cbn [one_limit max window_secs]. lia.
  - apply (R_op one_limit 0 _ (OReserve 1000 ∅ (one_limit []) (str "k"))); [apply R_start|].
    split; [done|cbn [latest]; lia].
Defined.

Definition nobody : db := mk_db ∅ 0.
Definition checks : list (Limit * bytes * option (Z * gset Z)) := login_checks None 1000 (str "ann") (str "10.0.0.1").

Lemma reserve_all_or_nothing_witness :
  match reserve true checks nobody with
  | (d', Ok ids) => length ids = 4%nat /\ NoDup ids
  | _ => False
  end.
Proof.
  assert (forall i a, rows nobody !! i = Some a -> i < next_id nobody) as H0 by (intros i a E; unfold nobody in E; cbn [rows] in E; by rewrite lookup_empty in E).
  pose proof (reserve_all_or_nothing checks nobody H0) as T.
  assert (is_ok (snd (reserve true checks nobody)) = true) as K by (by vm_compute).
  destruct (reserve true checks nobody) as [d' [ids|e]]; [|done].
  destruct T as (T1 & T2 & _). split; [exact T1|exact T2].
Defined.
End Limits.
End QuotaExamples.
