(* ===== verification/Leases.v ===== *)
(** * Leases and idempotency keys

    [backend/src/services/worker_lease.rs] and its use by [health_check.rs];
    [idempotency.rs] and its use by [routes/user.rs].  Both rest on one row
    that concurrent statements contend for, so a history is the sequence of
    statements in the order the database serialises them, each with its
    transaction's [now()], in milliseconds; these times need not be in
    order. *)

From S2P Require Import Prelude Machine Text.

Local Open Scope Z_scope.

(** ** Worker leases *)

Module Lease.

Record lease_row := mk_lease { holder : Z; started_at : Z; expires_at : Z; completed_at : option Z }.

Abbreviation leases := (gmap bytes lease_row).

Definition try_claim (now : Z) (name : bytes) (h : Z) (ttl min_gap : Z) (d : leases) : leases * bool :=
  match d !! name with
  | None => (<[name := mk_lease h now (now + ttl) None]> d, true)
  | Some r =>
      if (expires_at r <=? now) && (started_at r <=? now - min_gap)
      then (<[name := mk_lease h now (now + ttl) (completed_at r)]> d, true) else (d, false)
  end.

Definition complete (now : Z) (name : bytes) (h : Z) (d : leases) : leases :=
  match d !! name with
  | Some r => if holder r =? h then <[name := mk_lease h (started_at r) now (Some now)]> d else d
  | None => d
  end.

(** The test of [store_results] that the pass still holds the lease. *)
Definition holds (now : Z) (name : bytes) (h : Z) (d : leases) : bool :=
  match d !! name with Some r => (holder r =? h) && (now <? expires_at r) | None => false end.

Inductive op :=
| Claim (now : Z) (name : bytes) (h ttl min_gap : Z)
| Complete (now : Z) (name : bytes) (h : Z).

Definition step (o : op) (d : leases) : leases * bool :=
  match o with
  | Claim now name h ttl gap => try_claim now name h ttl gap d
  | Complete now name h => (complete now name h d, false)
  end.

(** The statements run, with the answers of the claims. *)
Inductive history : leases -> list (op * bool) -> leases -> Prop :=
| H_nil d : history d [] d
| H_cons d o d1 r tr d2 : step o d = (d1, r) -> history d1 tr d2 -> history d ((o, r) :: tr) d2.

(** No claim of [name] was granted. *)
Definition quiet (name : bytes) (x : op * bool) : Prop :=
  match x with (Claim _ n _ _ _, true) => n <> name | _ => True end.

Lemma quiet_history name d tr d' r : history d tr d' -> Forall (quiet name) tr -> d !! name = Some r ->
  exists r', d' !! name = Some r' /\ holder r' = holder r /\ started_at r' = started_at r /\
    (expires_at r' = expires_at r \/ exists c, (Complete c name (holder r), false) ∈ tr /\ expires_at r' = c).
Proof.
  intros H. revert r. induction H as [d|d o d1 b tr d2 Hs _ IH]; intros r HQ E.
  - exists r. auto.
  - apply Forall_cons in HQ as [Hq HQ].
    assert (exists r1, d1 !! name = Some r1 /\ holder r1 = holder r /\ started_at r1 = started_at r /\
      (expires_at r1 = expires_at r \/ exists c, (o, b) = (Complete c name (holder r), false) /\ expires_at r1 = c))
      as (r1 & E1 & Eh & Es & Ex).
    { destruct o as [now n h ttl gap|now n h]; cbn [step] in Hs.
      - unfold try_claim in Hs. destruct (d !! n) as [rn|] eqn:En.
        + destruct (_ && _); injection Hs as <- <-; [|exists r; auto]. exists r.
          rewrite lookup_insert_ne by done. auto.
        + injection Hs as <- <-. exists r. rewrite lookup_insert_ne by done. auto.
      - injection Hs as <- <-. unfold complete. destruct (d !! n) as [rn|] eqn:En; [|exists r; auto].
        destruct (Z.eqb_spec (holder rn) h) as [Eh|]; [|exists r; auto].
        destruct (decide (n = name)) as [->|N]; [|exists r; rewrite lookup_insert_ne by done; auto].
        assert (rn = r) as -> by congruence. eexists. rewrite lookup_insert_eq. split; [done|]. cbn.
        split; [done|]. split; [done|]. right. exists now. by rewrite Eh. }
    destruct (IH r1 HQ E1) as (r' & E' & Eh' & Es' & Ex'). exists r'. split; [done|]. split; [congruence|]. split; [congruence|].
    destruct Ex' as [Ex'|(c & Hc & Ex')].
    + destruct Ex as [Ex|(c & Ec & Ex)]; [left; congruence|right]. exists c. split; [|congruence].
      rewrite <- Ec. by left.
    + right. exists c. split; [|done]. rewrite <- Eh. by right.
Qed.

(** C34: passes of a job do not overlap.  When two claims of a name are granted
    one after the other, the second comes at least its own [min_gap] after the
    first started, and after the first's [ttl] unless the first holder
    completed it before; until then a claim is refused, and from then on,
    whatever became of the first holder, it is granted. *)
Theorem lease_exclusive d t1 name h1 ttl1 gap1 mid d1 d2 t2 h2 ttl2 gap2 :
  try_claim t1 name h1 ttl1 gap1 d = (d1, true) ->
  history d1 mid d2 -> Forall (quiet name) mid ->
  (snd (try_claim t2 name h2 ttl2 gap2 d2) = true ->
     t1 + gap2 <= t2 /\ (t1 + ttl1 <= t2 \/ exists c, (Complete c name h1, false) ∈ mid /\ c <= t2)) /\
  (t1 + gap2 <= t2 -> t1 + ttl1 <= t2 -> (forall c, (Complete c name h1, false) ∈ mid -> c <= t2) ->
     snd (try_claim t2 name h2 ttl2 gap2 d2) = true).
Proof.
  intros H1 H Q. assert (exists r, d1 !! name = Some r /\ holder r = h1 /\ started_at r = t1 /\ expires_at r = t1 + ttl1)
    as (r & E & <- & Es & Ex).
  { unfold try_claim in H1. destruct (d !! name) as [r|]; [destruct (_ && _); [|done]|];
      injection H1 as <-; eexists; (split; [apply lookup_insert_eq|done]). }
  destruct (quiet_history name d1 mid d2 r H Q E) as (r' & E' & _ & Es' & Ex').
  unfold try_claim. rewrite E'. split.
  - destruct (Z.leb_spec (expires_at r') t2), (Z.leb_spec (started_at r') (t2 - gap2)); cbn [andb snd]; try done.
    intros _. split; [lia|]. destruct Ex' as [Ex'|(c & Hc & Ex')]; [left; lia|right]. exists c. split; [done|lia].
  - intros Hg Ht Hc. assert (expires_at r' <= t2) by (destruct Ex' as [Ex'|(c & Hin & Ex')]; [lia|specialize (Hc c Hin); lia]).
    rewrite (proj2 (Z.leb_le _ _)), (proj2 (Z.leb_le _ _)) by lia. done.
Qed.
End Lease.

(** ** Idempotency keys *)

Module Idempotency.

Definition IDEMPOTENCY_TTL_HOURS : Z := 24.
Definition MAX_KEY_LEN : Z := 200.
Definition hours (n : Z) : Z := n * 3600 * 1000.

(** [HeaderValue::to_str] accepts these. *)
Definition header_text (c : Z) : bool := is_visible c || (c =? 9).

Inductive key_error := NotAscii | TooLong.

(** [extract_key], given the header's value. *)
Definition extract_key (header : option bytes) : result key_error (option bytes) :=
  match header with
  | None => Ok None
  | Some v =>
      if forallb header_text v then
        let s := trim v in
        if bool_decide (s = []) then Ok None
        else if MAX_KEY_LEN <? Z.of_nat (length s) then Err TooLong else Ok (Some s)
      else Err NotAscii
  end.

Section responses.
(** JSON bodies. *)
Context {J : Type}.

Record cached := mk_cached { status_code : Z; body : J }.

(** Table [idempotency_keys]: [key] alone is the primary key. *)
Record row := mk_row { user_id : Z; route : bytes; response : cached; expires_at : Z }.

Abbreviation table := (gmap bytes row).

Definition lookup_key (now : Z) (user : Z) (rt key : bytes) (d : table) : option cached :=
  match d !! key with
  | Some r => if (user_id r =? user) && bool_decide (route r = rt) && (now <? expires_at r) then Some (response r) else None
  | None => None
  end.

Definition store (now : Z) (user : Z) (rt key : bytes) (c : cached) (d : table) : table :=
  match d !! key with
  | Some _ => d
  | None => <[key := mk_row user rt c (now + hours IDEMPOTENCY_TTL_HOURS)]> d
  end.

(** The sweep of [session_cleanup]. *)
Definition sweep (now : Z) (d : table) : table := filter (fun kr => ~ expires_at (snd kr) < now) d.

(** [StatusCode::from_u16(status as u16).unwrap_or(OK)]. *)
Definition replay_status (s : Z) : Z := let u := wrap_u 16 s in if (100 <=? u) && (u <=? 999) then u else 200.

(** The route [retry_checkout_activation] around its work: [run] does the
    work of the route on the state [W], and [cannot_look]/[cannot_store] tell
    that the statement fails. *)
Context {W Er : Type} (run : W -> W * result Er J).

Definition retry_route (db_error : Er) (cannot_look cannot_store : bool) (now : Z) (user : Z) (rt : bytes) (key : option bytes)
    (s : table * W) : (table * W) * result Er (Z * J) :=
  let '(d, w) := s in
  let work :=
    match run w with
    | (w, Err e) => ((d, w), Err e)
    | (w, Ok j) =>
        ((match key with Some k => if cannot_store then d else store now user rt k (mk_cached 200 j) d | None => d end, w), Ok (200, j))
    end in
  match key with
  | None => work
  | Some k =>
      if cannot_look then ((d, w), Err db_error)
      else match lookup_key now user rt k d with
           | Some c => ((d, w), Ok (replay_status (status_code c), body c))
           | None => work
           end
  end.

(** Other requests and the sweeper, on the table. *)
Inductive other :=
| OStore (now : Z) (user : Z) (rt key : bytes) (c : cached)
| OSweep (now : Z).

Definition other_step (o : other) (d : table) : table :=
  match o with OStore now user rt key c => store now user rt key c d | OSweep now => sweep now d end.

Definition sweeps_until (t : Z) (o : other) : Prop := match o with OSweep now => now <= t | _ => True end.

Lemma other_keeps o d key r : d !! key = Some r -> sweeps_until (expires_at r) o -> other_step o d !! key = Some r.
Proof.
  intros E Ho. destruct o as [now user rt k c|now]; cbn [other_step].
  - unfold store. destruct (d !! k) eqn:Ek; [done|]. rewrite lookup_insert_ne by congruence. done.
  - apply map_lookup_filter_Some. split; [done|]. cbn in *. lia.
Qed.

Lemma others_keep os d key r : d !! key = Some r -> Forall (sweeps_until (expires_at r)) os ->
  fold_left (fun d o => other_step o d) os d !! key = Some r.
Proof.
  revert d. induction os as [|o os IH]; intros d E HF; [done|]. apply Forall_cons in HF as [Ho HF]. cbn.
  apply IH; [by apply other_keeps|done].
Qed.

(** A retried request is answered without being run again.  Once a
    request under a fresh key has succeeded and its answer was stored, the
    same user's request to the same route with that key, up to 24 hours later
    and after any requests under any keys and sweeps not past the expiry,
    gets the same answer and leaves the state as it is. *)
Lemma retry_replays db_error cannot_store t1 user rt k d w d1 w1 j os t2 w2 :
  d !! k = None ->
  retry_route db_error false false t1 user rt (Some k) (d, w) = ((d1, w1), Ok (200, j)) ->
  t2 < t1 + hours IDEMPOTENCY_TTL_HOURS ->
  Forall (sweeps_until (t1 + hours IDEMPOTENCY_TTL_HOURS)) os ->
  let d2 := fold_left (fun d o => other_step o d) os d1 in
  retry_route db_error false cannot_store t2 user rt (Some k) (d2, w2) = ((d2, w2), Ok (200, j)).
Proof.
  intros En H1 Ht HF d2. unfold retry_route, lookup_key in H1. rewrite En in H1.
  destruct (run w) as [w' [j'|e]]; [|done]. injection H1 as <- _ <-.
  assert (d2 !! k = Some (mk_row user rt (mk_cached 200 j') (t1 + hours IDEMPOTENCY_TTL_HOURS))) as E2.
  { apply others_keep; [|done]. unfold store. rewrite En. apply lookup_insert_eq. }
  unfold retry_route, lookup_key. rewrite E2. cbn [user_id route expires_at response].
  rewrite Z.eqb_refl, bool_decide_eq_true_2, (proj2 (Z.ltb_lt _ _)) by done. done.
Qed.
End responses.
End Idempotency.

(** ** Examples *)

Module LeaseExamples.
Import Lease.

Definition job : bytes := str "health".
Definition claimed : leases := fst (try_claim 0 job 1 60 120 ∅).

Lemma lease_exclusive_witness : snd (try_claim 200 job 2 60 120 (complete 30 job 1 claimed)) = true /\ 0 + 120 <= 200.
Proof.
  assert (history claimed [(Complete 30 job 1, false)] (complete 30 job 1 claimed)) as H by (eapply H_cons; [done|apply H_nil]).
  assert (try_claim 0 job 1 60 120 ∅ = (claimed, true)) as H1 by (by vm_compute).
  assert (Forall (quiet job) [(Complete 30 job 1, false)]) as Q by (by apply Forall_cons_2; [|apply Forall_nil_2]).
  pose proof (lease_exclusive ∅ 0 job 1 60 120 _ claimed _ 200 2 60 120 H1 H Q) as [T1 T2].
  assert (snd (try_claim 200 job 2 60 120 (complete 30 job 1 claimed)) = true) as G.
  { apply T2; [lia|lia|]. intros c Hc. apply list_elem_of_singleton in Hc. injection Hc as ->. lia. }
  split; [exact G|apply (T1 G)].
Defined.
End LeaseExamples.

Module KeyExamples.
Import Idempotency.

(** The work counts its runs. *)
Definition run (w : Z) : Z * result bytes Z := (w + 1, Ok (w + 1)).
Definition route_ : bytes := str "POST /api/user/checkouts/:id/retry".
Definition key : bytes := str "k1".
Definition request := retry_route run (str "db").
Definition after := fst (request false false 1000 7 route_ (Some key) (∅, 0)).

Lemma retry_replays_witness :
  request false false 2000 7 route_ (Some key) (fst after, 1) = ((fst after, 1), Ok (200, 1)).
Proof.
  apply (retry_replays run (str "db") false 1000 7 route_ key ∅ 0 (fst after) 1 1 [] 2000 1).
  - by vm_compute.
  - by vm_compute.
  - unfold hours, IDEMPOTENCY_TTL_HOURS. lia.
  - apply Forall_nil_2.
Defined.

(** The key alone is the primary key: when someone else's row holds it, the
    answer is not kept and a retry runs again. *)
Lemma taken_key_runs_again :
  let taken := store 0 8 route_ key (mk_cached 200 5) ∅ in
  let '(s1, r1) := request false false 1000 7 route_ (Some key) (taken, 0) in
  let '(s2, r2) := request false false 2000 7 route_ (Some key) s1 in
  r1 = Ok (200, 1) /\ r2 = Ok (200, 2).
Proof. by vm_compute. Qed.

(** A failed response is not kept either: the retry runs again. *)
Lemma failure_runs_again :
  let fails (w : Z) : Z * result bytes Z := (w + 1, Err (str "ldap")) in
  let '(s1, _) := retry_route fails (str "db") false false 1000 7 route_ (Some key) (∅, 0) in
  snd (fst (retry_route fails (str "db") false false 2000 7 route_ (Some key) s1)) = 2.
Proof. by vm_compute. Qed.
End KeyExamples.
