(* ===== verification/Checkouts.v ===== *)
(** * Checkouts of managed passwords

    [backend/src/services/checkouts.rs] and the checkout routes of
    [routes/user.rs].  A checkout releases the password of a directory account
    to its requester: activation sets a new password in the directory and
    seals it for the requester, check-in and expiry scramble it.  The state is
    the tables, the directory and the operations in progress; an operation
    advances one statement, LDAP call or Vault call at a time, and everything
    else runs between.  Users, ids and passwords are numbers, times
    milliseconds.  The two lower-casings (Rust's and the database's) are
    parameters. *)

From S2P Require Import Prelude Machine Text.

Local Open Scope Z_scope.

Module Checkout.

(** ** Data *)

Inductive Status := Pending | Approved | Scheduled | Active | Expired | Denied | CheckedIn.

#[export] Instance Status_eq_dec : EqDecision Status.
Proof. solve_decision. Defined.

Record CheckoutRequest := mk_request {
  requester_user_id : Z; managed_ad_dn : bytes; ad_sync_config_id : option Z; status : Status;
  requested_duration_mins : Z; approved_by_user_id : option Z; expires_at : option Z;
  vault_credential_id : option Z; created_at : Z; emergency_bypass : bool; scheduled_start_at : option Z;
  decision_reason : option bytes; pending_secret : option Z
}.

(** A row of [credential_profiles]; a managed one is labelled with the DN. *)
Record profile := mk_profile { p_user : Z; p_label : bytes; p_secret : Z; p_expires : Z; p_checkout : option Z }.

(** The tables, and the passwords the directory has. *)
Record world := mk_world {
  requests : gmap Z CheckoutRequest; profiles : gmap Z profile; locks : gmap bytes (Z * Z); ad : gmap bytes Z
}.

Inductive error :=
| NotFound | Forbidden | InvalidState (s : Status) | NoConfig | CheckedOutElsewhere | OperationInProgress
| Failed | DnRequired | AlreadyOpen | JustificationTooShort | TooFarAhead | ReasonTooLong | ReasonRequired.

Definition minutes (n : Z) : Z := n * 60 * 1000.
Definition OPERATION_DEADLINE : Z := 120 * 1000.
Definition ACCOUNT_LOCK : Z := 300 * 1000.

Definition set_status (s : Status) (r : CheckoutRequest) : CheckoutRequest :=
  mk_request (requester_user_id r) (managed_ad_dn r) (ad_sync_config_id r) s (requested_duration_mins r)
    (approved_by_user_id r) (expires_at r) (vault_credential_id r) (created_at r) (emergency_bypass r)
    (scheduled_start_at r) (decision_reason r) (pending_secret r).

Definition with_requests (f : gmap Z CheckoutRequest -> gmap Z CheckoutRequest) (w : world) : world :=
  mk_world (f (requests w)) (profiles w) (locks w) (ad w).

(** ** Requests and decisions *)

Record mapping := mk_mapping { can_self_approve : bool; m_config : option Z }.

Record RequestCheckoutBody := mk_body {
  b_dn : bytes; b_duration : option Z; b_justification : option bytes; b_bypass : option bool; b_start : option Z
}.

Definition justified (b : RequestCheckoutBody) : bool :=
  10 <=? Z.of_nat (length (trim (default [] (b_justification b)))).

(** [request_checkout] up to the insert, given what its queries return: the
    caller's mapping for the DN, whether they have an open checkout, and
    whether a bypass is allowed. *)
Definition request_checkout (now user : Z) (b : RequestCheckoutBody) (find_mapping : option mapping)
    (has_open_checkout emergency_bypass_allowed : bool) : result error CheckoutRequest :=
  let dn := trim (b_dn b) in
  if bool_decide (dn = []) then Err DnRequired else
  match find_mapping with
  | None => Err Forbidden
  | Some m =>
      let duration := Z.min 720 (Z.max 1 (default 60 (b_duration b))) in
      let bypass := default false (b_bypass b) in
      if has_open_checkout then Err AlreadyOpen
      else if negb (can_self_approve m) && negb (justified b) then Err JustificationTooShort
      else if bypass && negb (can_self_approve m) && negb (justified b) then Err JustificationTooShort
      else if bypass && negb (can_self_approve m) && negb emergency_bypass_allowed then Err Forbidden
      else
        let released := can_self_approve m || bypass in
        let duration := if bypass && negb (can_self_approve m) then Z.min duration 30 else duration in
        let start := ts ← b_start b; if now + 30 * 1000 <? ts then Some ts else None in
        if (match start with Some ts => now + 14 * 24 * 3600 * 1000 <? ts | None => false end) then Err TooFarAhead
        else
          let initial :=
            if released then
              if negb (bool_decide (start = None)) && (negb bypass || can_self_approve m) then Scheduled else Approved
            else Pending in
          Ok (mk_request user dn (m_config m) initial duration None None None now
                (bypass && bool_decide (initial = Approved) && negb (can_self_approve m)) start None None)
  end.

(** The checks of [decide_checkout], on the row it read. *)
Definition decide_checks (role_ids : list Z) (covers : bool) (approved : bool) (reason : option bytes)
    (row : option CheckoutRequest) : result error (option bytes) :=
  if bool_decide (role_ids = []) then Err Forbidden else
  match row with
  | None => Err NotFound
  | Some r =>
      let reason := s ← reason; if bool_decide (trim s = []) then None else Some (trim s) in
      if negb (bool_decide (status r = Pending)) then Err (InvalidState (status r))
      else if (match reason with Some s => 1024 <? Z.of_nat (char_count s) | None => false end) then Err ReasonTooLong
      else if negb approved && bool_decide (reason = None) then Err ReasonRequired
      else if covers then Ok reason else Err Forbidden
  end.

(** The [UPDATE] of [set_decision], whose only condition is the id. *)
Definition set_decision (id approver : Z) (approved : bool) (reason : option bytes) : world -> world :=
  with_requests (alter (fun r =>
    mk_request (requester_user_id r) (managed_ad_dn r) (ad_sync_config_id r) (if approved then Approved else Denied)
      (requested_duration_mins r) (Some approver) (expires_at r) (vault_credential_id r) (created_at r)
      (emergency_bypass r) (scheduled_start_at r) reason (pending_secret r)) id).

(** ** The scrubber *)

Definition past_expiry (now : Z) (r : CheckoutRequest) : bool :=
  bool_decide (status r = Active) && match expires_at r with Some e => e <? now | None => false end.

Definition never_activated (now : Z) (r : CheckoutRequest) : bool :=
  bool_decide (status r ∈ [Approved; Pending]) && (created_at r + minutes (requested_duration_mins r) <? now).

Definition start_due (now : Z) (r : CheckoutRequest) : bool :=
  bool_decide (status r = Scheduled) && match scheduled_start_at r with Some t => t <=? now | None => false end.

(** The ids that a pass selects to expire, to mark as stale, to activate. *)
Definition selected (test : Z -> CheckoutRequest -> bool) (now : Z) (w : world) : list Z :=
  fst <$> filter (fun ir => test now (snd ir) = true) (map_to_list (requests w)).

(** The [UPDATE] that the scrubber runs for each stale id. *)
Definition expire_stale (id : Z) : world -> world := with_requests (alter (set_status Expired) id).

(** ** Password operations *)

(** What the outside answers at a step: whether the database, the Vault and
    the configuration reads succeed; whether the directory reports success,
    and whether the password changed there even if it does not; and the value
    drawn at random, or the id of a row created, by the step. *)
Record env := mk_env {
  db_ok : bool; vault_ok : bool; config_ok : bool; ldap_ok : bool; ldap_took : bool; audit_ok : bool; fresh : Z
}.

Inductive kind := Activation | CheckIn (user : Z) | Expiry.

(** Where an operation waits; [req] is the row it read. *)
Inductive phase :=
| Started
| ActChecked (req : CheckoutRequest)
| ActPending (req : CheckoutRequest) (pw : Z)
| ActReset (req : CheckoutRequest) (pw : Z)
| ActSealed (req : CheckoutRequest) (profile_id : Z)
| ScrambleReady (req : CheckoutRequest)
| Scrambled (req : CheckoutRequest)
| Closing (req : CheckoutRequest)
| MarkExpired (req : CheckoutRequest)
| Finished (r : result error unit).

Section operations.
Context (to_lowercase lower : bytes -> bytes).

Definition account_key (managed_ad_dn : bytes) : bytes := to_lowercase (trim managed_ad_dn).

(** The claim of [with_account_lock]. *)
Definition claim_lock (now : Z) (key : bytes) (op : Z) (w : world) : option world :=
  match locks w !! key with
  | Some (_, until) =>
      if until <? now then Some (mk_world (requests w) (profiles w) (<[key := (op, now + ACCOUNT_LOCK)]> (locks w)) (ad w)) else None
  | None => Some (mk_world (requests w) (profiles w) (<[key := (op, now + ACCOUNT_LOCK)]> (locks w)) (ad w))
  end.

(** Its release: only the lock of this operation. *)
Definition release_lock (key : bytes) (op : Z) (w : world) : world :=
  match locks w !! key with
  | Some (o, _) => if o =? op then mk_world (requests w) (profiles w) (delete key (locks w)) (ad w) else w
  | None => w
  end.

Definition other_holder (id : Z) (dn : bytes) (w : world) : gmap Z CheckoutRequest :=
  filter (fun ir => lower (managed_ad_dn (snd ir)) = lower dn /\ status (snd ir) = Active /\ fst ir <> id) (requests w).

Definition set_pending (pw : Z) (r : CheckoutRequest) : CheckoutRequest :=
  mk_request (requester_user_id r) (managed_ad_dn r) (ad_sync_config_id r) (status r) (requested_duration_mins r)
    (approved_by_user_id r) (expires_at r) (vault_credential_id r) (created_at r) (emergency_bypass r)
    (scheduled_start_at r) (decision_reason r) (Some pw).

Definition set_password (key : bytes) (pw : Z) (w : world) : world :=
  mk_world (requests w) (profiles w) (locks w) (<[key := pw]> (ad w)).

(** The upsert of [seal_managed_credential]; [new_id] is the id of a row it
    creates. *)
Definition managed_profile (user : Z) (dn : bytes) (ps : gmap Z profile) : option Z :=
  fst <$> head (map_to_list (filter (fun ip => p_user (snd ip) = user /\ p_label (snd ip) = dn) ps)).

Definition seal_managed_credential (now user : Z) (dn : bytes) (pw duration new_id : Z) (w : world) : Z * world :=
  let expires := now + minutes duration in
  match managed_profile user dn (profiles w) with
  | Some pid =>
      (pid, mk_world (requests w) (alter (fun p => mk_profile (p_user p) (p_label p) pw expires (p_checkout p)) pid (profiles w))
              (locks w) (ad w))
  | None => (new_id, mk_world (requests w) (<[new_id := mk_profile user dn pw expires None]> (profiles w)) (locks w) (ad w))
  end.

(** The transaction that ends an activation. *)
Definition activate_row (now : Z) (req : CheckoutRequest) (profile_id : Z) (r : CheckoutRequest) : CheckoutRequest :=
  mk_request (requester_user_id r) (managed_ad_dn r) (ad_sync_config_id r) Active (requested_duration_mins r)
    (approved_by_user_id r) (Some (now + minutes (requested_duration_mins req))) (Some profile_id) (created_at r)
    (emergency_bypass r) (scheduled_start_at r) (decision_reason r) None.

Definition superseded (id : Z) (req : CheckoutRequest) (w : world) (c : Z) : Prop :=
  match requests w !! c with
  | Some r => managed_ad_dn r = managed_ad_dn req /\ c <> id /\ requester_user_id r = requester_user_id req
  | None => False
  end.

#[export] Instance superseded_dec id req w c : Decision (superseded id req w c).
Proof. unfold superseded. destruct (requests w !! c); apply _. Defined.

Definition relink (now id : Z) (req : CheckoutRequest) (w : world) (p : profile) : profile :=
  match p_checkout p with
  | Some c =>
      if bool_decide (p_user p = requester_user_id req) && bool_decide (superseded id req w c)
      then mk_profile (p_user p) (p_label p) (p_secret p) (now + minutes (requested_duration_mins req)) (Some id) else p
  | None => p
  end.

Definition commit_activation (now id : Z) (req : CheckoutRequest) (profile_id : Z) (w : world) : world :=
  let w := with_requests (alter (activate_row now req profile_id) id) w in
  mk_world (requests w) (relink now id req w <$> profiles w) (locks w) (ad w).

(** One step of [activate_checkout_inner]. *)
Definition activate_step (now : Z) (e : env) (id : Z) (ph : phase) (w : world) : phase * world :=
  match ph with
  | Started =>
      if negb (db_ok e) then (Finished (Err Failed), w) else
      match requests w !! id with
      | None => (Finished (Err NotFound), w)
      | Some req =>
          if negb (bool_decide (status req ∈ [Approved; Active; Scheduled])) then (Finished (Err (InvalidState (status req))), w)
          else if bool_decide (status req = Active) && negb (bool_decide (vault_credential_id req = None)) then (Finished (Ok tt), w)
          else if bool_decide (ad_sync_config_id req = None) then (Finished (Err NoConfig), w)
          else if bool_decide (other_holder id (managed_ad_dn req) w = ∅) then (ActChecked req, w)
          else (Finished (Err CheckedOutElsewhere), w)
      end
  | ActChecked req =>
      if db_ok e && vault_ok e then (ActPending req (fresh e), with_requests (alter (set_pending (fresh e)) id) w)
      else (Finished (Err Failed), w)
  | ActPending req pw =>
      if negb (config_ok e) then (Finished (Err NotFound), w) else
      if negb (vault_ok e) then (Finished (Err Failed), w) else
      let w := if ldap_ok e || ldap_took e then set_password (account_key (managed_ad_dn req)) pw w else w in
      (if ldap_ok e then ActReset req pw else Finished (Err Failed), w)
  | ActReset req pw =>
      if db_ok e && vault_ok e then
        let '(pid, w) := seal_managed_credential now (requester_user_id req) (managed_ad_dn req) pw
                           (requested_duration_mins req) (fresh e) w in
        (ActSealed req pid, w)
      else (Finished (Err Failed), w)
  | ActSealed req pid =>
      if db_ok e then (Finished (if audit_ok e then Ok tt else Err Failed), commit_activation now id req pid w)
      else (Finished (Err Failed), w)
  | _ => (ph, w)
  end.

Definition expire_profile (now : Z) (req : CheckoutRequest) (w : world) : world :=
  match vault_credential_id req with
  | Some pid => mk_world (requests w)
      (alter (fun p => mk_profile (p_user p) (p_label p) (p_secret p) now (p_checkout p)) pid (profiles w)) (locks w) (ad w)
  | None => w
  end.

(** One step of [checkin_checkout_inner]. *)
Definition checkin_step (now : Z) (e : env) (id user : Z) (ph : phase) (w : world) : phase * world :=
  match ph with
  | Started =>
      if negb (db_ok e) then (Finished (Err Failed), w) else
      match requests w !! id with
      | None => (Finished (Err NotFound), w)
      | Some req =>
          if negb (requester_user_id req =? user) then (Finished (Err NotFound), w)
          else if negb (bool_decide (status req = Active)) then (Finished (Err (InvalidState (status req))), w)
          else if bool_decide (ad_sync_config_id req = None) then (Finished (Err NoConfig), w)
          else (ScrambleReady req, w)
      end
  | ScrambleReady req =>
      if negb (config_ok e) then (Finished (Err NotFound), w) else
      if negb (vault_ok e) then (Finished (Err Failed), w) else
      let w := if ldap_ok e || ldap_took e then set_password (account_key (managed_ad_dn req)) (fresh e) w else w in
      (if ldap_ok e then Scrambled req else Finished (Err Failed), w)
  | Scrambled req => (Closing req, if db_ok e then expire_profile now req w else w)
  | Closing req =>
      if db_ok e then (Finished (if audit_ok e then Ok tt else Err Failed), with_requests (alter (set_status CheckedIn) id) w)
      else (Finished (Err Failed), w)
  | _ => (ph, w)
  end.

(** One step of [expire_checkout_inner]: the directory is best effort. *)
Definition expire_step (now : Z) (e : env) (id : Z) (ph : phase) (w : world) : phase * world :=
  match ph with
  | Started =>
      if negb (db_ok e) then (Finished (Err Failed), w) else
      match requests w !! id with
      | None => (Finished (Err NotFound), w)
      | Some req =>
          if negb (bool_decide (status req = Active)) then (Finished (Ok tt), w)
          else if bool_decide (ad_sync_config_id req = None) then (MarkExpired req, w)
          else (ScrambleReady req, w)
      end
  | ScrambleReady req =>
      if negb (config_ok e) then (Finished (Err NotFound), w) else
      (Scrambled req, if ldap_ok e || ldap_took e then set_password (account_key (managed_ad_dn req)) (fresh e) w else w)
  | Scrambled req => (Closing req, if db_ok e then expire_profile now req w else w)
  | Closing req =>
      if db_ok e then (Finished (if audit_ok e then Ok tt else Err Failed), with_requests (alter (set_status Expired) id) w)
      else (Finished (Err Failed), w)
  | MarkExpired req =>
      if db_ok e then (Finished (Ok tt), with_requests (alter (set_status Expired) id) w) else (Finished (Err Failed), w)
  | _ => (ph, w)
  end.

Definition op_step (now : Z) (e : env) (k : kind) (id : Z) (ph : phase) (w : world) : phase * world :=
  match k with
  | Activation => activate_step now e id ph w
  | CheckIn user => checkin_step now e id user ph w
  | Expiry => expire_step now e id ph w
  end.

(** ** The system *)

Record operation := mk_operation { o_kind : kind; o_id : Z; o_key : bytes; o_deadline : Z; o_phase : phase }.

(** [scrambled] holds the checkouts whose account was given another password
    by a check-in or an expiry since they were activated; it is not stored. *)
Record system := mk_system { state : world; ops : gmap Z operation; scrambled : gset Z; latest : Z }.

Inductive event :=
| EInsert (id : Z) (row : CheckoutRequest)
| EDecide (id approver : Z) (approved : bool) (reason : option bytes)
| EStale (id : Z)
| EClaim (op : Z) (k : kind) (id begun : Z)
| EStep (op : Z) (e : env)
| EEnd (op : Z) (release_ok : bool)
| ECrash (op : Z).

(** The checkouts whose password this step changes away. *)
Definition scrambles (e : env) (o : operation) : bool :=
  match o_kind o, o_phase o with
  | CheckIn _, ScrambleReady _ => config_ok e && vault_ok e && (ldap_ok e || ldap_took e)
  | Expiry, ScrambleReady _ => config_ok e && (ldap_ok e || ldap_took e)
  | _, _ => false
  end.

Definition commits (e : env) (o : operation) : bool :=
  match o_kind o, o_phase o with Activation, ActSealed _ _ => db_ok e | _, _ => false end.

Definition step (now : Z) (ev : event) (s : system) : system :=
  let w := state s in
  match ev with
  | EInsert id row =>
      match requests w !! id with
      | Some _ => s
      | None => mk_system (with_requests (insert id row) w) (ops s) (scrambled s) now
      end
  | EDecide id approver approved reason => mk_system (set_decision id approver approved reason w) (ops s) (scrambled s) now
  | EStale id => mk_system (expire_stale id w) (ops s) (scrambled s) now
  | EClaim op k id begun =>
      match requests w !! id with
      | None => s
      | Some r =>
          let key := account_key (managed_ad_dn r) in
          match claim_lock now key op w with
          | None => s
          | Some w => mk_system w (<[op := mk_operation k id key (begun + OPERATION_DEADLINE) Started]> (ops s)) (scrambled s) now
          end
      end
  | EStep op e =>
      match ops s !! op with
      | None => s
      | Some o =>
          let '(ph, w) := op_step now e (o_kind o) (o_id o) (o_phase o) w in
          mk_system w (<[op := mk_operation (o_kind o) (o_id o) (o_key o) (o_deadline o) ph]> (ops s))
            (if scrambles e o then {[o_id o]} ∪ scrambled s else if commits e o then scrambled s ∖ {[o_id o]} else scrambled s) now
      end
  | EEnd op release_ok =>
      match ops s !! op with
      | None => s
      | Some o => mk_system (if release_ok then release_lock (o_key o) op w else w) (delete op (ops s)) (scrambled s) now
      end
  | ECrash op => mk_system w (delete op (ops s)) (scrambled s) now
  end.

(** Rows are inserted by [request_checkout]; ids do not repeat; the answer to
    a claim takes at most the difference of the two time limits; and an
    operation past its deadline takes no step. *)
Definition allowed (now : Z) (ev : event) (s : system) : Prop :=
  latest s <= now /\
  match ev with
  | EInsert _ row => exists user b m has bypass, request_checkout now user b m has bypass = Ok row
  | EClaim op _ _ begun => (ops s !! op = None) /\ now <= begun <= now + (ACCOUNT_LOCK - OPERATION_DEADLINE)
  | EStep op e =>
      (forall o, ops s !! op = Some o -> now <= o_deadline o) /\ (profiles (state s) !! fresh e = None)
  | _ => True
  end.

Inductive reachable : system -> Prop :=
| R_start t : reachable (mk_system (mk_world ∅ ∅ ∅ ∅) ∅ ∅ t)
| R_step s now ev : reachable s -> allowed now ev s -> reachable (step now ev s).

(** ** The invariant *)

Section invariant.
(** The two lower-casings agree on which DNs are equal. *)
Context (Hlower : forall a b, lower a = lower b <-> to_lowercase a = to_lowercase b).

Abbreviation row_key r := (account_key (managed_ad_dn r)).

Definition same_row (r r' : CheckoutRequest) : Prop :=
  managed_ad_dn r' = managed_ad_dn r /\ requester_user_id r' = requester_user_id r.

(** Every active checkout of an account satisfies [P]. *)
Definition active_only (w : world) (k : bytes) (P : Z -> CheckoutRequest -> Prop) : Prop :=
  forall j r, requests w !! j = Some r -> row_key r = k -> status r = Active -> P j r.

(** The credential a checkout names holds the password the directory has. *)
Definition current (w : world) (r : CheckoutRequest) : Prop :=
  exists pid p, vault_credential_id r = Some pid /\ profiles w !! pid = Some p /\ p_user p = requester_user_id r /\
    p_label p = managed_ad_dn r /\ ad w !! row_key r = Some (p_secret p).

Definition phase_ok (w : world) (k : bytes) (id : Z) (r : CheckoutRequest) (ph : phase) : Prop :=
  match ph with
  | Started | Finished _ => True
  | ActChecked req | ActPending req _ => same_row req r /\ active_only w k (fun _ _ => False)
  | ActReset req pw => same_row req r /\ active_only w k (fun _ _ => False) /\ ad w !! k = Some pw
  | ActSealed req pid => same_row req r /\ active_only w k (fun _ _ => False) /\
      exists p, profiles w !! pid = Some p /\ p_user p = requester_user_id r /\ p_label p = managed_ad_dn r /\
        ad w !! k = Some (p_secret p)
  | ScrambleReady req | Scrambled req | Closing req | MarkExpired req => same_row req r /\ active_only w k (fun j _ => j = id)
  end.

Definition op_ok (w : world) (o : operation) : Prop :=
  exists r, requests w !! o_id o = Some r /\ row_key r = o_key o /\ phase_ok w (o_key o) (o_id o) r (o_phase o).

Record world_ok (w : world) (scr : gset Z) : Prop := {
  wo_trim : forall j r, requests w !! j = Some r -> trim (managed_ad_dn r) = managed_ad_dn r;
  wo_unique : forall i j ri rj, requests w !! i = Some ri -> requests w !! j = Some rj -> row_key ri = row_key rj ->
    status ri = Active -> status rj = Active -> i = j;
  wo_current : forall j r, requests w !! j = Some r -> status r = Active ->
    vault_credential_id r <> None /\ (current w r \/ j ∈ scr)
}.

(** *** Changes confined to some accounts *)

Record calm (K : bytes -> Prop) (w w' : world) : Prop := {
  ca_rows : forall j r, requests w !! j = Some r -> exists r', requests w' !! j = Some r' /\ same_row r r';
  ca_trim : forall j r', requests w' !! j = Some r' -> trim (managed_ad_dn r') = managed_ad_dn r' \/
    exists r, requests w !! j = Some r /\ same_row r r';
  ca_active : forall j r', requests w' !! j = Some r' -> status r' = Active -> ~ K (row_key r') ->
    exists r, requests w !! j = Some r /\ same_row r r' /\ vault_credential_id r = vault_credential_id r' /\ status r = Active;
  ca_profiles : forall pid p, profiles w !! pid = Some p -> ~ K (account_key (p_label p)) ->
    exists p', profiles w' !! pid = Some p' /\ p_user p' = p_user p /\ p_label p' = p_label p /\ p_secret p' = p_secret p;
  ca_ad : forall k, ~ K k -> ad w' !! k = ad w !! k;
  ca_locks : locks w' = locks w
}.

Lemma same_row_refl r : same_row r r.
Proof. done. Qed.

Lemma same_row_trans a b c : same_row a b -> same_row b c -> same_row a c.
Proof. unfold same_row. intros [? ?] [? ?]. split; congruence. Qed.

Lemma calm_refl K w : calm K w w.
Proof. split; eauto using same_row_refl. Qed.

Lemma calm_trans K w1 w2 w3 : calm K w1 w2 -> calm K w2 w3 -> calm K w1 w3.
Proof.
  intros [R1 T1 A1 P1 D1 L1] [R2 T2 A2 P2 D2 L2]. split.
  - intros j r E. destruct (R1 j r E) as (r1 & E1 & S1). destruct (R2 j r1 E1) as (r2 & E2 & S2).
    exists r2. split; [done|]. by eapply same_row_trans.
  - intros j r' E. destruct (T2 j r' E) as [?|(r1 & E1 & S1)]; [by left|].
    destruct (T1 j r1 E1) as [T|(r & E0 & S0)]; [left|right].
    + destruct S1 as [-> _]. done.
    + exists r. split; [done|]. by eapply same_row_trans.
  - intros j r' E Ha HK. destruct (A2 j r' E Ha HK) as (r1 & E1 & S1 & C1 & H1).
    destruct (A1 j r1 E1 H1) as (r & E0 & S0 & C0 & H0).
    + by destruct S1 as [<- _].
    + exists r. split; [done|]. split; [by eapply same_row_trans|]. split; congruence.
  - intros pid p E HK. destruct (P1 pid p E HK) as (p1 & E1 & U1 & L1' & S1).
    destruct (P2 pid p1 E1) as (p2 & E2 & U2 & L2' & S2); [by rewrite L1'|].
    exists p2. repeat split; congruence.
  - intros k HK. by rewrite D2, D1.
  - congruence.
Qed.

Lemma calm_current K w w' r r' : calm K w w' -> ~ K (row_key r) -> same_row r r' -> vault_credential_id r = vault_credential_id r' ->
  current w r -> current w' r'.
Proof.
  intros C HK [Sd Su] Hc (pid & p & Ec & Ep & Eu & El & Ea). destruct (ca_profiles _ _ _ C pid p Ep) as (p' & Ep' & U & L & S).
  { by rewrite El. }
  exists pid, p'. repeat split; try congruence. rewrite Sd, S, (ca_ad _ _ _ C) by done. done.
Qed.

Lemma calm_active_only K w w' k (P : Z -> Prop) : calm K w w' -> ~ K k -> active_only w k (fun j _ => P j) -> active_only w' k (fun j _ => P j).
Proof.
  intros C HK A j r' E Ek Ha. destruct (ca_active _ _ _ C j r' E Ha) as (r & E0 & [Sd _] & _ & Ha0); [by rewrite Ek|].
  apply (A j r E0); [|done]. congruence.
Qed.

Lemma calm_op_ok K w w' o : calm K w w' -> ~ K (o_key o) -> op_ok w o -> op_ok w' o.
Proof.
  intros C HK (r & E & Ek & Hp). destruct (ca_rows _ _ _ C _ _ E) as (r' & E' & S). exists r'. split; [done|].
  split; [destruct S as [-> _]; done|]. pose proof (calm_active_only K w w' (o_key o) (fun _ => False) C HK) as Q.
  pose proof (calm_active_only K w w' (o_key o) (fun j => j = o_id o) C HK) as O.
  destruct (o_phase o) as [|req|req pw|req pw|req pid|req|req|req|req|res]; cbn [phase_ok] in *; try done;
    try (destruct Hp as [S0 Hp]; split; [by eapply same_row_trans|first [by apply Q|by apply O]]).
  - destruct Hp as (S0 & Hq & Ha). split; [by eapply same_row_trans|]. split; [by apply Q|]. by rewrite (ca_ad _ _ _ C).
  - destruct Hp as (S0 & Hq & p & Ep & Eu & El & Ea). split; [by eapply same_row_trans|]. split; [by apply Q|].
    destruct (ca_profiles _ _ _ C pid p Ep) as (p' & Ep' & U & L & Sp); [rewrite El, Ek; done|].
    destruct S as [Sd Su]. exists p'. rewrite (ca_ad _ _ _ C) by done. repeat split; congruence.
Qed.

(** What is left to show about the accounts that changed. *)
Lemma calm_world_ok K w w' scr scr' : calm K w w' -> (forall k, Decision (K k)) -> world_ok w scr ->
  (forall j r, requests w' !! j = Some r -> ~ K (row_key r) -> j ∈ scr -> j ∈ scr') ->
  (forall i j ri rj, requests w' !! i = Some ri -> requests w' !! j = Some rj -> row_key ri = row_key rj -> K (row_key ri) ->
     status ri = Active -> status rj = Active -> i = j) ->
  (forall j r, requests w' !! j = Some r -> K (row_key r) -> status r = Active ->
     vault_credential_id r <> None /\ (current w' r \/ j ∈ scr')) -> world_ok w' scr'.
Proof.
  intros C DK [W1 W2 W3] Hs Hu Hc. split.
  - intros j r' E. destruct (ca_trim _ _ _ C j r' E) as [?|(r & E0 & -> & _)]; [done|]. by eapply W1.
  - intros i j ri rj Ei Ej Ek Ai Aj. destruct (decide (K (row_key ri))) as [HK|HK]; [by eapply Hu|].
    destruct (ca_active _ _ _ C i ri Ei Ai HK) as (si & Fi & [Si _] & _ & Bi).
    destruct (ca_active _ _ _ C j rj Ej Aj) as (sj & Fj & [Sj _] & _ & Bj); [by rewrite <- Ek|].
    apply (W2 i j si sj Fi Fj); congruence.
  - intros j r' E Ha. destruct (decide (K (row_key r'))) as [HK|HK]; [by apply Hc|].
    destruct (ca_active _ _ _ C j r' E Ha HK) as (r & E0 & S & Cr & Ha0).
    destruct (W3 j r E0 Ha0) as [Hn [Hcur|Hin]]; (split; [congruence|]); [left|right; by eapply Hs].
    eapply calm_current; [done| |done|done|done]. destruct S as [<- _]. done.
Qed.

(** *** The changes the steps make *)

Lemma calm_alter (K : bytes -> Prop) w f id : (forall r, same_row r (f r)) ->
  (forall r, requests w !! id = Some r -> status (f r) = Active -> ~ K (row_key r) ->
     status r = Active /\ vault_credential_id (f r) = vault_credential_id r) ->
  calm K w (with_requests (alter f id) w).
Proof.
  intros Hf Ha. split; cbn [with_requests requests profiles ad locks]; try done.
  - intros j r E. destruct (decide (id = j)) as [<-|N].
    + exists (f r). by rewrite lookup_alter_eq, E.
    + exists r. by rewrite lookup_alter_ne.
  - intros j r' E. right. destruct (decide (id = j)) as [<-|N].
    + rewrite lookup_alter_eq in E. apply fmap_Some in E as (r & E & ->). by exists r.
    + rewrite lookup_alter_ne in E by done. by exists r'.
  - intros j r' E Hs HK. destruct (decide (id = j)) as [<-|N].
    + rewrite lookup_alter_eq in E. apply fmap_Some in E as (r & E & ->). destruct (Hf r) as [Sd Su]. rewrite Sd in HK.
      destruct (Ha r E Hs HK) as [A C]. by exists r.
    + rewrite lookup_alter_ne in E by done. by exists r'.
  - intros pid p E _. by exists p.
Qed.

Lemma calm_status K w s id : s <> Active -> calm K w (with_requests (alter (set_status s) id) w).
Proof. intros Hs. by apply calm_alter. Qed.

Lemma calm_password K w k pw : K k -> calm K w (set_password k pw w).
Proof.
  intros Hk. split; cbn [set_password requests profiles ad locks]; try done.
  - intros j r E. by exists r.
  - intros j r E. right. by exists r.
  - intros j r E Hs _. by exists r.
  - intros pid p E _. by exists p.
  - intros k' N. apply lookup_insert_ne. by intros ->.
Qed.

(** Profiles change without their secrets changing, other than those of the
    accounts in [K]. *)
Lemma calm_profiles (K : bytes -> Prop) w ps :
  (forall pid p, profiles w !! pid = Some p -> ~ K (account_key (p_label p)) ->
     exists p', ps !! pid = Some p' /\ p_user p' = p_user p /\ p_label p' = p_label p /\ p_secret p' = p_secret p) ->
  calm K w (mk_world (requests w) ps (locks w) (ad w)).
Proof.
  intros Hp. split; cbn [requests profiles ad locks]; try done.
  - intros j r E. by exists r.
  - intros j r E. right. by exists r.
  - intros j r E Ha _. by exists r.
Qed.

Lemma calm_expire_profile K w now req : calm K w (expire_profile now req w).
Proof.
  unfold expire_profile. destruct (vault_credential_id req) as [q|]; [|apply calm_refl]. apply calm_profiles.
  intros pid p E _. destruct (decide (q = pid)) as [<-|N].
  - eexists. rewrite lookup_alter_eq, E. by repeat split.
  - exists p. by rewrite lookup_alter_ne.
Qed.

Lemma calm_relink K w now id req : calm K w (mk_world (requests w) (relink now id req w <$> profiles w) (locks w) (ad w)).
Proof.
  apply calm_profiles. intros pid p E _. exists (relink now id req w p). rewrite lookup_fmap, E. split; [done|].
  unfold relink. destruct (p_checkout p); [|done]. by destruct (_ && _).
Qed.

Lemma managed_profile_spec user dn ps pid : managed_profile user dn ps = Some pid ->
  exists p, ps !! pid = Some p /\ p_user p = user /\ p_label p = dn.
Proof.
  unfold managed_profile. intros (ip & E & ->)%fmap_Some.
  assert (ip ∈ map_to_list (filter (fun ip => p_user (snd ip) = user /\ p_label (snd ip) = dn) ps)) as Hin.
  { destruct (map_to_list _) as [|x l]; [done|]. injection E as ->. by left. }
  destruct ip as [i p]. apply elem_of_map_to_list, map_lookup_filter_Some in Hin as [Hin [? ?]]. by exists p.
Qed.

(** Sealing puts the new password in the profile of this user and DN. *)
Lemma seal_spec now user dn pw duration new_id w pid w' : profiles w !! new_id = None ->
  seal_managed_credential now user dn pw duration new_id w = (pid, w') ->
  calm (eq (account_key dn)) w w' /\ requests w' = requests w /\ ad w' = ad w /\
  exists p, profiles w' !! pid = Some p /\ p_user p = user /\ p_label p = dn /\ p_secret p = pw.
Proof.
  intros En. unfold seal_managed_credential. destruct (managed_profile user dn (profiles w)) as [q|] eqn:Em; intros [= <- <-].
  - apply managed_profile_spec in Em as (p & Ep & Eu & El). split; [|split; [done|split; [done|]]].
    + apply calm_profiles. intros pid p' E' N. destruct (decide (q = pid)) as [<-|Nq].
      * destruct N. congruence.
      * exists p'. by rewrite lookup_alter_ne.
    + eexists. cbn [profiles]. rewrite lookup_alter_eq, Ep. by repeat split.
  - split; [|split; [done|split; [done|]]].
    + apply calm_profiles. intros pid p' E' _. exists p'. rewrite lookup_insert_ne by congruence. done.
    + eexists. cbn [profiles]. rewrite lookup_insert_eq. by repeat split.
Qed.

(** *** A step of an operation that holds its account's lock *)

(** The active checkouts of the account are at most [id], with the current
    password or scrambled. *)
Definition settled (w : world) (scr : gset Z) (k : bytes) (id : Z) : Prop :=
  active_only w k (fun j r => j = id /\ vault_credential_id r <> None /\ (current w r \/ j ∈ scr)).

Definition after (e : env) (o : operation) (scr : gset Z) : gset Z :=
  if scrambles e o then {[o_id o]} ∪ scr else if commits e o then scr ∖ {[o_id o]} else scr.

Definition moved (o : operation) (ph : phase) : operation := mk_operation (o_kind o) (o_id o) (o_key o) (o_deadline o) ph.

(** What a step must establish. *)
Definition step_ok (w w' : world) (scr : gset Z) (e : env) (o : operation) (ph : phase) : Prop :=
  calm (eq (o_key o)) w w' /\ op_ok w' (moved o ph) /\ (w' = w /\ after e o scr = scr \/ settled w' (after e o scr) (o_key o) (o_id o)).

Lemma quiet_settled w scr k id : active_only w k (fun _ _ => False) -> settled w scr k id.
Proof. intros Q j r E Ek Ha. by destruct (Q j r E Ek Ha). Qed.

Lemma op_ok_intro w o ph r : requests w !! o_id o = Some r -> row_key r = o_key o -> phase_ok w (o_key o) (o_id o) r ph -> op_ok w (moved o ph).
Proof. intros E Ek Hp. by exists r. Qed.

Lemma other_holder_none w id r : requests w !! id = Some r -> other_holder id (managed_ad_dn r) w = ∅ ->
  (forall j r, requests w !! j = Some r -> trim (managed_ad_dn r) = managed_ad_dn r) ->
  active_only w (row_key r) (fun j _ => j = id).
Proof.
  intros E Eo T j r' E' Ek Ha. destruct (decide (j = id)) as [|N]; [done|exfalso].
  assert (other_holder id (managed_ad_dn r) w !! j = Some r') as X; [|by rewrite Eo, lookup_empty in X].
  apply map_lookup_filter_Some. split; [done|]. cbn. split; [|done]. apply Hlower. unfold account_key in Ek.
  by rewrite (T _ _ E'), (T _ _ E) in Ek.
Qed.

Lemma calm_weaken (K K' : bytes -> Prop) w w' : (forall k, K k -> K' k) -> calm K w w' -> calm K' w w'.
Proof.
  intros HK [C1 C2 C3 C4 C5 C6]. split; try done.
  - intros j r' E Ha N. apply C3; auto.
  - intros pid p E N. apply C4; auto.
  - intros k N. apply C5; auto.
Qed.

Abbreviation nowhere := (fun _ : bytes => False).

Lemma calm_nowhere K w w' : calm nowhere w w' -> calm K w w'.
Proof. by apply calm_weaken. Qed.

(** A step that leaves the world alone. *)
Lemma idle_ok w scr e o ph r : requests w !! o_id o = Some r -> row_key r = o_key o -> phase_ok w (o_key o) (o_id o) r ph ->
  after e o scr = scr -> step_ok w w scr e o ph.
Proof. intros E Ek Hp Hs. split; [apply calm_refl|]. split; [by eapply op_ok_intro|by left]. Qed.

(** A step that leaves no active checkout of the account. *)
Lemma quiet_ok w w' scr e o ph r : calm (eq (o_key o)) w w' -> requests w' !! o_id o = Some r -> row_key r = o_key o ->
  phase_ok w' (o_key o) (o_id o) r ph -> active_only w' (o_key o) (fun _ _ => False) -> step_ok w w' scr e o ph.
Proof. intros C E Ek Hp Q. split; [done|]. split; [by eapply op_ok_intro|]. right. by apply quiet_settled. Qed.

Ltac keeps := solve [by eapply idle_ok].

Lemma activate_start_ok now e w o scr r ph' w' : world_ok w scr -> requests w !! o_id o = Some r -> row_key r = o_key o ->
  after e o scr = scr -> activate_step now e (o_id o) Started w = (ph', w') -> step_ok w w' scr e o ph'.
Proof.
  intros W E Ek Haf Hs. cbn [activate_step] in Hs.
  destruct (db_ok e); cbn [negb] in Hs; [|injection Hs as <- <-; keeps]. rewrite E in Hs.
  destruct (bool_decide (status r ∈ _)); cbn [negb] in Hs; [|injection Hs as <- <-; keeps].
  destruct (bool_decide (status r = Active) && _) eqn:Eac; [injection Hs as <- <-; keeps|].
  destruct (bool_decide (ad_sync_config_id r = None)); [injection Hs as <- <-; keeps|].
  case_bool_decide as Eo; [|injection Hs as <- <-; keeps]. injection Hs as <- <-.
  assert (status r <> Active) as Na.
  { intros Ha. destruct (wo_current _ _ W _ _ E Ha) as [Hc _].
    by rewrite bool_decide_eq_true_2, bool_decide_eq_false_2 in Eac. }
  eapply idle_ok; [done|done| |done]. split; [done|]. rewrite <- Ek. intros j rj Ej Ekj Haj.
  pose proof (other_holder_none w _ r E Eo (wo_trim _ _ W) j rj Ej Ekj Haj) as ->. congruence.
Qed.

Lemma pending_calm w id pw : calm nowhere w (with_requests (alter (set_pending pw) id) w).
Proof. by apply calm_alter. Qed.

Lemma lookup_altered w f id r : requests w !! id = Some r -> requests (with_requests (alter f id) w) !! id = Some (f r).
Proof. intros E. cbn [with_requests requests]. by rewrite lookup_alter_eq, E. Qed.

Lemma commit_ok now e w o scr r req pid : requests w !! o_id o = Some r -> row_key r = o_key o ->
  phase_ok w (o_key o) (o_id o) r (ActSealed req pid) -> after e o scr = scr ∖ {[o_id o]} ->
  forall res, step_ok w (commit_activation now (o_id o) req pid w) scr e o (Finished res).
Proof.
  intros E Ek (S & Q & p & Ep & Eu & El & Ea) Haf res. set (w1 := with_requests (alter (activate_row now req pid) (o_id o)) w).
  assert (requests w1 !! o_id o = Some (activate_row now req pid r)) as E1 by (by apply lookup_altered).
  split; [|split].
  - apply (calm_trans _ _ w1); [|apply calm_relink]. apply calm_alter; [done|]. intros r0 E0 _ N. destruct N. congruence.
  - by eapply op_ok_intro; [exact E1| |].
  - right. rewrite Haf. intros j rj Ej Ekj Haj. destruct (decide (j = o_id o)) as [->|N].
    + change (requests w1 !! o_id o = Some rj) in Ej. rewrite E1 in Ej. injection Ej as <-.
      split; [done|]. split; [done|]. left. exists pid, (relink now (o_id o) req w1 p).
      cbn [commit_activation profiles ad activate_row vault_credential_id managed_ad_dn requester_user_id].
      split; [done|]. split; [rewrite lookup_fmap; unfold w1; cbn [with_requests profiles]; by rewrite Ep|].
      assert (p_user (relink now (o_id o) req w1 p) = p_user p /\ p_label (relink now (o_id o) req w1 p) = p_label p /\
        p_secret (relink now (o_id o) req w1 p) = p_secret p) as (-> & -> & ->)
        by (unfold relink; destruct (p_checkout p); [destruct (_ && _)|]; done).
      split; [done|]. split; [done|]. by rewrite Ek.
    + exfalso. apply (Q j rj); [|done|done]. cbn [commit_activation w1 with_requests requests] in Ej.
      by rewrite lookup_alter_ne in Ej.
Qed.

Lemma activate_step_ok now e w o scr ph' w' : world_ok w scr -> op_ok w o -> o_kind o = Activation ->
  profiles w !! fresh e = None -> activate_step now e (o_id o) (o_phase o) w = (ph', w') -> step_ok w w' scr e o ph'.
Proof.
  intros W (r & E & Ek & Hp) Hkind Hfresh Hs.
  assert (after e o scr = match o_phase o with ActSealed _ _ => if db_ok e then scr ∖ {[o_id o]} else scr | _ => scr end) as Haf.
  { unfold after, scrambles, commits. rewrite Hkind. by destruct (o_phase o). }
  destruct (o_phase o) as [|req|req pw|req pw|req pid|req|req|req|req|res] eqn:Eph;
    try (cbn [activate_step] in Hs; injection Hs as <- <-; by eapply idle_ok).
  - by eapply activate_start_ok.
  - cbn [activate_step] in Hs. destruct (db_ok e && vault_ok e); injection Hs as <- <-; [|keeps]. destruct Hp as [S Q].
    pose proof (pending_calm w (o_id o) (fresh e)) as C.
    assert (active_only (with_requests (alter (set_pending (fresh e)) (o_id o)) w) (o_key o) (fun _ _ => False)) as Q'
      by exact (calm_active_only nowhere w _ _ (fun _ => False) C (fun F => F) Q).
    eapply quiet_ok; [by apply calm_nowhere|by apply lookup_altered|done|by split|done].
  - cbn [activate_step] in Hs. destruct (config_ok e); cbn [negb] in Hs; [|injection Hs as <- <-; keeps].
    destruct (vault_ok e); cbn [negb] in Hs; [|injection Hs as <- <-; keeps]. destruct Hp as [S Q].
    assert (account_key (managed_ad_dn req) = o_key o) as Hkey by (destruct S as [<- _]; done). rewrite Hkey in Hs.
    destruct (ldap_ok e); cbn [orb] in Hs; [|destruct (ldap_took e)]; injection Hs as <- <-; [| |keeps].
    + eapply quiet_ok; [by apply calm_password|done|done| |done]. split; [done|]. split; [done|]. apply lookup_insert_eq.
    + eapply quiet_ok; [by apply calm_password|done|done|done|done].
  - cbn [activate_step] in Hs. destruct (db_ok e && vault_ok e); [|injection Hs as <- <-; keeps]. destruct Hp as (S & Q & Ea).
    destruct (seal_managed_credential _ _ _ _ _ _ _) as [pid w1] eqn:Esl. injection Hs as <- <-.
    assert (account_key (managed_ad_dn req) = o_key o) as Hkey by (destruct S as [<- _]; done).
    apply seal_spec in Esl as (C & Er & Ead & p & Ep & Eu & El & Es); [|done]. rewrite Hkey in C.
    assert (active_only w1 (o_key o) (fun _ _ => False)) as Q' by (unfold active_only; rewrite Er; exact Q).
    apply (quiet_ok _ _ _ _ _ _ r); [done|by rewrite Er|done| |done]. split; [done|]. split; [done|]. exists p.
    destruct S as [Sd Su]. split; [done|]. split; [congruence|]. split; [congruence|]. rewrite Ead. congruence.
  - cbn [activate_step] in Hs. destruct (db_ok e); injection Hs as <- <-; [|keeps]. exact (commit_ok now e w o scr r req pid E Ek Hp Haf _).
Qed.

(** A step that changes no secret and no password, and activates nothing. *)
Lemma nowhere_ok w w' scr e o ph r : calm nowhere w w' -> world_ok w scr -> active_only w (o_key o) (fun j _ => j = o_id o) ->
  requests w' !! o_id o = Some r -> row_key r = o_key o -> phase_ok w' (o_key o) (o_id o) r ph -> after e o scr = scr ->
  step_ok w w' scr e o ph.
Proof.
  intros C W O E Ek Hp Haf. split; [by apply calm_nowhere|]. split; [by eapply op_ok_intro|]. right. rewrite Haf.
  intros j rj Ej Ekj Haj. destruct (ca_active _ _ _ C j rj Ej Haj (fun F => F)) as (r0 & E0 & S & Cr & Ha0).
  assert (row_key r0 = row_key rj) as Hkk by (by destruct S as [-> _]).
  split; [by apply (O j r0 E0); [rewrite Hkk|]|]. destruct (wo_current _ _ W j r0 E0 Ha0) as [Hn Hor]. split; [congruence|].
  destruct Hor as [Hc|Hin]; [left|by right]. by apply (calm_current _ _ _ _ _ C (fun F => F) S Cr).
Qed.

Lemma own_only w scr id r : world_ok w scr -> requests w !! id = Some r -> status r = Active ->
  active_only w (row_key r) (fun j _ => j = id).
Proof. intros W E Ha j rj Ej Ekj Haj. by apply (wo_unique _ _ W j id rj r). Qed.

Lemma scramble_ok w scr e o r req ph : world_ok w scr -> requests w !! o_id o = Some r -> row_key r = o_key o ->
  phase_ok w (o_key o) (o_id o) r (ScrambleReady req) -> after e o scr = {[o_id o]} ∪ scr ->
  (ph = Scrambled req \/ exists res, ph = Finished res) ->
  step_ok w (set_password (account_key (managed_ad_dn req)) (fresh e) w) scr e o ph.
Proof.
  intros W E Ek [S O] Haf Hph. assert (account_key (managed_ad_dn req) = o_key o) as -> by (destruct S as [<- _]; done).
  split; [by apply calm_password|]. split.
  - eapply op_ok_intro; [exact E|done|]. destruct Hph as [->|[res ->]]; [|done]. by split.
  - right. rewrite Haf. intros j rj Ej Ekj Haj. pose proof (O j rj Ej Ekj Haj) as ->.
    split; [done|]. split; [by apply (wo_current _ _ W _ _ Ej Haj)|right]. apply elem_of_union_l, elem_of_singleton. done.
Qed.

Lemma close_ok w scr e o r s res : world_ok w scr -> requests w !! o_id o = Some r -> row_key r = o_key o -> s <> Active ->
  active_only w (o_key o) (fun j _ => j = o_id o) -> after e o scr = scr ->
  step_ok w (with_requests (alter (set_status s) (o_id o)) w) scr e o (Finished res).
Proof.
  intros W E Ek Hs O Haf. eapply nowhere_ok; [by apply calm_status|done|done|by apply lookup_altered|done|done|done].
Qed.

Lemma scrubbed_ok now w scr e o r req ph : world_ok w scr -> requests w !! o_id o = Some r -> row_key r = o_key o ->
  phase_ok w (o_key o) (o_id o) r (Scrambled req) -> after e o scr = scr -> ph = Closing req ->
  forall b : bool, step_ok w (if b then expire_profile now req w else w) scr e o ph.
Proof.
  intros W E Ek [S O] Haf -> b. assert (requests (if b then expire_profile now req w else w) = requests w) as Er.
  { destruct b; [|done]. unfold expire_profile. by destruct (vault_credential_id req). }
  eapply nowhere_ok; [destruct b; [apply calm_expire_profile|apply calm_refl]|done|done|by rewrite Er|done| |done].
  split; [done|]. unfold active_only. by rewrite Er.
Qed.

Lemma checkin_step_ok now e w o scr user ph' w' : world_ok w scr -> op_ok w o -> o_kind o = CheckIn user ->
  checkin_step now e (o_id o) user (o_phase o) w = (ph', w') -> step_ok w w' scr e o ph'.
Proof.
  intros W (r & E & Ek & Hp) Hkind Hs.
  assert (after e o scr = match o_phase o with
    | ScrambleReady _ => if config_ok e && vault_ok e && (ldap_ok e || ldap_took e) then {[o_id o]} ∪ scr else scr | _ => scr end) as Haf
    by (unfold after, scrambles, commits; rewrite Hkind; by destruct (o_phase o)).
  destruct (o_phase o) as [|req|req pw|req pw|req pid|req|req|req|req|res] eqn:Eph;
    try (cbn [checkin_step] in Hs; injection Hs as <- <-; by eapply idle_ok).
  - cbn [checkin_step] in Hs. destruct (db_ok e); cbn [negb] in Hs; [|injection Hs as <- <-; keeps]. rewrite E in Hs.
    destruct (requester_user_id r =? user); cbn [negb] in Hs; [|injection Hs as <- <-; keeps].
    destruct (bool_decide_reflect (status r = Active)) as [Ha|]; cbn [negb] in Hs; [|injection Hs as <- <-; keeps].
    destruct (bool_decide (ad_sync_config_id r = None)); injection Hs as <- <-; [keeps|].
    eapply idle_ok; [done|done| |done]. split; [done|]. rewrite <- Ek. by eapply own_only.
  - cbn [checkin_step] in Hs. destruct (config_ok e); cbn [negb] in Hs; [|injection Hs as <- <-; keeps].
    destruct (vault_ok e); cbn [negb] in Hs; [|injection Hs as <- <-; keeps]. cbn [andb] in Haf.
    destruct (ldap_ok e); cbn [orb] in Hs, Haf; [|destruct (ldap_took e)]; injection Hs as <- <-; [| |keeps].
    + by eapply scramble_ok; [..|left].
    + by eapply scramble_ok; [..|right; eexists].
  - cbn [checkin_step] in Hs. injection Hs as <- <-. by eapply scrubbed_ok.
  - cbn [checkin_step] in Hs. destruct (db_ok e); injection Hs as <- <-; [|keeps]. destruct Hp as [_ O]. by eapply close_ok.
Qed.

Lemma expire_step_ok now e w o scr ph' w' : world_ok w scr -> op_ok w o -> o_kind o = Expiry ->
  expire_step now e (o_id o) (o_phase o) w = (ph', w') -> step_ok w w' scr e o ph'.
Proof.
  intros W (r & E & Ek & Hp) Hkind Hs.
  assert (after e o scr = match o_phase o with
    | ScrambleReady _ => if config_ok e && (ldap_ok e || ldap_took e) then {[o_id o]} ∪ scr else scr | _ => scr end) as Haf
    by (unfold after, scrambles, commits; rewrite Hkind; by destruct (o_phase o)).
  destruct (o_phase o) as [|req|req pw|req pw|req pid|req|req|req|req|res] eqn:Eph;
    try (cbn [expire_step] in Hs; injection Hs as <- <-; by eapply idle_ok).
  - cbn [expire_step] in Hs. destruct (db_ok e); cbn [negb] in Hs; [|injection Hs as <- <-; keeps]. rewrite E in Hs.
    destruct (bool_decide_reflect (status r = Active)) as [Ha|]; cbn [negb] in Hs; [|injection Hs as <- <-; keeps].
    pose proof (own_only _ _ _ _ W E Ha) as O. rewrite Ek in O.
    destruct (bool_decide (ad_sync_config_id r = None)); injection Hs as <- <-; by eapply idle_ok.
  - cbn [expire_step] in Hs. destruct (config_ok e); cbn [negb] in Hs; [|injection Hs as <- <-; keeps].
    cbn [andb] in Haf. destruct (ldap_ok e || ldap_took e); injection Hs as <- <-; [|keeps]. by eapply scramble_ok; [..|left].
  - cbn [expire_step] in Hs. injection Hs as <- <-. by eapply scrubbed_ok.
  - cbn [expire_step] in Hs. destruct (db_ok e); injection Hs as <- <-; [|keeps]. destruct Hp as [_ O]. by eapply close_ok.
  - cbn [expire_step] in Hs. destruct (db_ok e); injection Hs as <- <-; [|keeps]. destruct Hp as [_ O]. by eapply close_ok.
Qed.

Lemma op_step_ok now e w o scr ph' w' : world_ok w scr -> op_ok w o -> profiles w !! fresh e = None ->
  op_step now e (o_kind o) (o_id o) (o_phase o) w = (ph', w') -> step_ok w w' scr e o ph'.
Proof.
  intros W O Hf Hs. destruct (o_kind o) eqn:Ek; cbn [op_step] in Hs;
    [by eapply activate_step_ok|by eapply checkin_step_ok|by eapply expire_step_ok].
Qed.

(** *** The system *)

(** An operation holds the lock of its account, or its deadline is past. *)
Definition holds_lock (s : system) (op : Z) (o : operation) : Prop :=
  exists until, locks (state s) !! o_key o = Some (op, until) /\ o_deadline o <= until /\ op_ok (state s) o.

Record sys_ok (s : system) : Prop := {
  so_world : world_ok (state s) (scrambled s);
  so_ops : forall op o, ops s !! op = Some o -> holds_lock s op o \/ o_deadline o < latest s
}.

Lemma request_row now user b m has bypass row : request_checkout now user b m has bypass = Ok row ->
  trim (managed_ad_dn row) = managed_ad_dn row /\ status row <> Active.
Proof.
  unfold request_checkout. repeat case_match; intros [= <-]; cbn [managed_ad_dn status]; (split; [apply trim_idem|]);
    repeat case_match; done.
Qed.

Lemma calm_world_nowhere w w' scr : calm nowhere w w' -> world_ok w scr -> world_ok w' scr.
Proof. intros C W. eapply calm_world_ok; [exact C|intros k; right; by intros []|done|done|by intros ??????|by intros ????]. Qed.

Lemma nowhere_sys s w' t : calm nowhere (state s) w' -> sys_ok s -> latest s <= t -> sys_ok (mk_system w' (ops s) (scrambled s) t).
Proof.
  intros C [W O] Ht. split; cbn [state scrambled ops latest]; [by eapply calm_world_nowhere|].
  intros op o E. destruct (O op o E) as [(u & El & Hd & Ho)|]; [left|right; lia].
  exists u. cbn [state]. rewrite (ca_locks _ _ _ C). split; [done|]. split; [done|]. by apply (calm_op_ok _ _ _ _ C (fun F => F)).
Qed.

Lemma insert_calm w id row : requests w !! id = None -> trim (managed_ad_dn row) = managed_ad_dn row -> status row <> Active ->
  calm nowhere w (with_requests (insert id row) w).
Proof.
  intros En Ht Hs. split; cbn [with_requests requests profiles ad locks]; try done.
  - intros j r E. exists r. split; [|done]. rewrite lookup_insert_ne by congruence. done.
  - intros j r' [[<- <-]|[_ E]]%lookup_insert_Some; [by left|right]. by exists r'.
  - intros j r' [[<- <-]|[_ E]]%lookup_insert_Some Ha _; [done|]. by exists r'.
  - intros pid p E _. by exists p.
Qed.

Lemma claim_sys s now op k id begun r w' : sys_ok s -> latest s <= now -> ops s !! op = None ->
  begun <= now + (ACCOUNT_LOCK - OPERATION_DEADLINE) -> requests (state s) !! id = Some r ->
  claim_lock now (row_key r) op (state s) = Some w' ->
  sys_ok (mk_system w' (<[op := mk_operation k id (row_key r) (begun + OPERATION_DEADLINE) Started]> (ops s)) (scrambled s) now).
Proof.
  intros [W O] Ht En Hb E Hc. set (key := row_key r) in *.
  assert (w' = mk_world (requests (state s)) (profiles (state s)) (<[key := (op, now + ACCOUNT_LOCK)]> (locks (state s))) (ad (state s)) /\
    (forall o u, locks (state s) !! key = Some (o, u) -> u < now)) as [-> Hold].
  { unfold claim_lock in Hc. destruct (locks (state s) !! key) as [[o u]|] eqn:El.
    - destruct (Z.ltb_spec u now); [|done]. injection Hc as <-. split; [done|]. by intros o' u' [= <- <-].
    - injection Hc as <-. by split. }
  split; cbn [state scrambled ops latest].
  - destruct W as [W1 W2 W3]. split; done.
  - intros op' o' [[<- <-]|[N E']]%lookup_insert_Some.
    + left. exists (now + ACCOUNT_LOCK). cbn [state locks o_key o_deadline]. rewrite lookup_insert_eq. split; [done|].
      split; [lia|]. by exists r.
    + destruct (O op' o' E') as [(u & El & Hd & Ho)|]; [|right; lia].
      destruct (decide (key = o_key o')) as [Ek|Nk].
      * right. rewrite <- Ek in El. specialize (Hold _ _ El). lia.
      * left. exists u. cbn [state locks]. rewrite lookup_insert_ne by done. done.
Qed.

Lemma step_sys s now op e o ph w' : sys_ok s -> latest s <= now -> ops s !! op = Some o -> now <= o_deadline o ->
  profiles (state s) !! fresh e = None -> op_step now e (o_kind o) (o_id o) (o_phase o) (state s) = (ph, w') ->
  sys_ok (mk_system w' (<[op := moved o ph]> (ops s)) (after e o (scrambled s)) now).
Proof.
  intros [W O] Ht E Hd Hf Hs. destruct (O op o E) as [(u & El & Hu & Ho)|]; [|lia].
  destruct (op_step_ok _ _ _ _ _ _ _ W Ho Hf Hs) as (C & Ho' & Hset). split; cbn [state scrambled ops latest].
  - eapply (calm_world_ok _ _ _ _ _ C); [intros k; apply _|done| | |].
    + intros j r Ej N Hin. destruct Ho' as (r' & E' & Ek' & _). cbn [moved o_id o_key] in E', Ek'.
      unfold after. destruct (scrambles e o); [by apply elem_of_union_r|]. destruct (commits e o); [|done].
      apply elem_of_difference. split; [done|]. intros ->%elem_of_singleton. congruence.
    + intros i j ri rj Ei Ej Ekk Ek Ai Aj. destruct Hset as [[-> _]|Hset]; [by eapply (wo_unique _ _ W)|].
      destruct (Hset i ri Ei (eq_sym Ek) Ai) as [-> _]. destruct (Hset j rj Ej) as [-> _]; [congruence|done|done].
    + intros j r Ej Ek Aj. destruct Hset as [[-> ->]|Hset]; [by apply (wo_current _ _ W)|].
      destruct (Hset j r Ej (eq_sym Ek) Aj) as [_ Hc]. done.
  - intros op' o' [[<- <-]|[N E']]%lookup_insert_Some.
    + left. exists u. cbn [state moved o_key o_deadline]. by rewrite (ca_locks _ _ _ C).
    + destruct (O op' o' E') as [(u' & El' & Hu' & Ho1)|]; [left|right; lia].
      exists u'. cbn [state]. rewrite (ca_locks _ _ _ C). split; [done|]. split; [done|].
      eapply calm_op_ok; [exact C| |done]. intros Ek. rewrite Ek in El. congruence.
Qed.

Lemma end_sys s now op o (release_ok : bool) : sys_ok s -> latest s <= now -> ops s !! op = Some o ->
  sys_ok (mk_system (if release_ok then release_lock (o_key o) op (state s) else state s) (delete op (ops s)) (scrambled s) now).
Proof.
  intros [W O] Ht E. set (w' := if release_ok then release_lock (o_key o) op (state s) else state s).
  assert (requests w' = requests (state s) /\ profiles w' = profiles (state s) /\ ad w' = ad (state s) /\
    forall k op' u, locks (state s) !! k = Some (op', u) -> op' <> op -> locks w' !! k = Some (op', u)) as (Er & Ep & Ea & Hl).
  { subst w'. destruct release_ok; [|done]. unfold release_lock.
    destruct (locks (state s) !! o_key o) as [[o' u']|] eqn:El; [|done]. destruct (Z.eqb_spec o' op) as [->|]; [|done].
    repeat split. intros k op' u Ek N. cbn [locks]. rewrite lookup_delete_ne; [done|]. intros <-. congruence. }
  split; cbn [state scrambled ops latest].
  - destruct W as [W1 W2 W3]. split; unfold current; rewrite Er, ?Ep, ?Ea; done.
  - intros op' o' [N E']%lookup_delete_Some. destruct (O op' o' E') as [(u & El & Hu & Ho)|]; [left|right; lia].
    exists u. cbn [state]. split; [apply Hl; [done|congruence]|]. split; [done|].
    destruct Ho as (r & Hr). exists r. unfold phase_ok, active_only in *. by rewrite Er, Ep, Ea.
Qed.

Lemma sys_step s now ev : sys_ok s -> allowed now ev s -> sys_ok (step now ev s).
Proof.
  intros S [Ht Ha]. destruct ev as [id row|id approver approved reason|id|op k id begun|op e|op release_ok|op]; cbn [step].
  - destruct (requests (state s) !! id) eqn:E; [done|]. destruct Ha as (user & b & m & has & bypass & Hr).
    apply request_row in Hr as [Hr1 Hr2]. apply nowhere_sys; [by apply insert_calm|done|done].
  - apply nowhere_sys; [|done|done]. apply calm_alter; [done|]. by destruct approved.
  - apply nowhere_sys; [|done|done]. by apply calm_status.
  - destruct (requests (state s) !! id) as [r|] eqn:E; [|done]. destruct Ha as (Hn & Hb).
    destruct (claim_lock now (row_key r) op (state s)) eqn:Ec; [|done]. eapply claim_sys; [done|done|done| |done|done]. lia.
  - destruct (ops s !! op) as [o|] eqn:E; [|done]. destruct Ha as [Hd Hf]. specialize (Hd o eq_refl).
    destruct (op_step now e (o_kind o) (o_id o) (o_phase o) (state s)) as [ph w'] eqn:Es. by eapply step_sys.
  - destruct (ops s !! op) as [o|] eqn:E; [|done]. by apply end_sys.
  - destruct S as [W O]. split; [done|]. cbn [state ops latest]. intros op' o' [N E']%lookup_delete_Some.
    destruct (O op' o' E') as [(u & H)|]; [left; by exists u|right; lia].
Qed.

Lemma reachable_sys s : reachable s -> sys_ok s.
Proof.
  induction 1 as [t|s now ev _ IH Ha]; [|by apply sys_step].
  split; [split|]; cbn; [intros j r E|intros i j ri rj E|intros j r E|intros op o E]; by rewrite lookup_empty in E.
Qed.



(** Password operations on one account never overlap: at no moment may
    two of them take a step, though locks lapse by themselves and answers to
    claims are late. *)
Lemma operations_exclusive s op1 op2 o1 o2 now : reachable s -> latest s <= now ->
  ops s !! op1 = Some o1 -> ops s !! op2 = Some o2 -> o_key o1 = o_key o2 ->
  now <= o_deadline o1 -> now <= o_deadline o2 -> op1 = op2.
Proof.
  intros R Ht E1 E2 Ek H1 H2. pose proof (so_ops _ (reachable_sys _ R)) as O.
  destruct (O op1 o1 E1) as [(u1 & L1 & _)|]; [|lia]. destruct (O op2 o2 E2) as [(u2 & L2 & _)|]; [|lia]. congruence.
Qed.
End invariant.
End operations.

(** ** What a request can obtain *)

(** C29: a request is released without an approver only as the rules allow.
    [request_checkout] yields a row that is pending, or approved or scheduled
    for a user who may approve it themselves or whose emergency bypass is
    allowed and justified, and then for 30 minutes at most; the duration is
    within 1 to 720 minutes, a scheduled start within 14 days, and a written
    reason of 10 bytes backs every request that is not self-approved. *)
Theorem request_policy now user b m has_open bypass_ok row :
  request_checkout now user b m has_open bypass_ok = Ok row ->
  exists mp, m = Some mp /\ has_open = false /\ managed_ad_dn row = trim (b_dn b) /\ managed_ad_dn row <> [] /\
    requester_user_id row = user /\ 1 <= requested_duration_mins row <= 720 /\
    (can_self_approve mp = false -> justified b = true) /\
    match status row with
    | Pending => can_self_approve mp = false
    | Approved => can_self_approve mp = true \/ b_bypass b = Some true /\ bypass_ok = true /\ requested_duration_mins row <= 30
    | Scheduled => can_self_approve mp = true /\
        exists ts, scheduled_start_at row = Some ts /\ now + 30 * 1000 < ts <= now + 14 * 24 * 3600 * 1000
    | _ => False
    end.
Proof.
  unfold request_checkout. case_bool_decide as Hdn; [done|]. destruct m as [mp|]; [|done].
  destruct has_open; [done|]. set (start := ts ← b_start b; _).
  assert (forall ts, start = Some ts -> now + 30 * 1000 < ts) as Hstart.
  { intros ts. unfold start. destruct (b_start b) as [t|]; cbn; [|done]. destruct (Z.ltb_spec (now + 30 * 1000) t); [|done]. by intros [= <-]. }
  set (d := Z.min 720 _). assert (1 <= d <= 720) by (subst d; lia).
  destruct (can_self_approve mp) eqn:Hself, (justified b) eqn:Hj, (default false (b_bypass b)) eqn:Hb, bypass_ok; cbn [negb andb orb]; try done;
    (destruct start as [ts|] eqn:Es; [destruct (Z.ltb_spec (now + 14 * 24 * 3600 * 1000) ts); [done|]|]);
    intros [= <-]; exists mp;
    cbn [managed_ad_dn requester_user_id requested_duration_mins status scheduled_start_at];
    do 5 (split; [done|]); (split; [lia|]); (split; [first [done|intros; congruence]|]);
    cbn [bool_decide negb andb]; try done.
  all: try (left; done).
  all: try (split; [done|]; exists ts; split; [done|]; specialize (Hstart ts eq_refl); lia).
  all: try (right; destruct (b_bypass b) as [[]|]; cbn in Hb; try done; repeat split; lia).
Qed.
End Checkout.

(** ** Examples *)

Module CheckoutExamples.
Import Checkout.

(** ASCII lower-casing, for both. *)
Definition ascii_lower (s : bytes) : bytes := map (fun c => if (65 <=? c) && (c <=? 90) then c + 32 else c) s.

Lemma lowers a b : ascii_lower a = ascii_lower b <-> ascii_lower a = ascii_lower b.
Proof. done. Qed.

Definition next := step ascii_lower ascii_lower.
Definition fine (v : Z) : env := mk_env true true true true true true v.
Definition ask : RequestCheckoutBody := mk_body (str "CN=Svc") (Some 60) (Some (str "monthly patching")) None None.
Definition self : mapping := mk_mapping true (Some 1).
Definition granted (b : RequestCheckoutBody) (m : mapping) : CheckoutRequest :=
  match request_checkout 0 7 b (Some m) false false with
  | Ok r => r
  | Err _ => mk_request 0 [] None Pending 0 None None None 0 false None None None
  end.

Definition empty : system := mk_system (mk_world ∅ ∅ ∅ ∅) ∅ ∅ 0.

(** Request 1, self-approved, is activated by operation 50. *)
Definition s1 := next 0 (EInsert 1 (granted ask self)) empty.
Definition s2 := next 10 (EClaim 50 Activation 1 20) s1.
Definition s3 := next 20 (EStep 50 (fine 0)) s2.
Definition s4 := next 30 (EStep 50 (fine 900)) s3.
Definition s5 := next 40 (EStep 50 (fine 0)) s4.
Definition s6 := next 50 (EStep 50 (fine 300)) s5.
Definition s7 := next 60 (EStep 50 (fine 301)) s6.
Definition s8 := next 70 (EEnd 50 true) s7.

Local Ltac step_allowed :=
  split; [by vm_compute|split; [let o := fresh in intros o; vm_compute; intros [= <-]; vm_compute; discriminate|by vm_compute]].

Lemma s1_reachable : reachable ascii_lower ascii_lower s1.
Proof. apply R_step; [apply R_start|]. split; [by vm_compute|]. exists 7, ask, (Some self), false, false. by vm_compute. Qed.

Lemma s8_reachable : reachable ascii_lower ascii_lower s8.
Proof.
  apply (R_step _ _ s7 70 (EEnd 50 true)); [|by split; [vm_compute|]].
  apply (R_step _ _ s6 60 (EStep 50 (fine 301))); [|step_allowed].
  apply (R_step _ _ s5 50 (EStep 50 (fine 300))); [|step_allowed].
  apply (R_step _ _ s4 40 (EStep 50 (fine 0))); [|step_allowed].
  apply (R_step _ _ s3 30 (EStep 50 (fine 900))); [|step_allowed].
  apply (R_step _ _ s2 20 (EStep 50 (fine 0))); [|step_allowed].
  apply (R_step _ _ s1 10 (EClaim 50 Activation 1 20)); [exact s1_reachable|].
  split; [by vm_compute|split; [by vm_compute|split; by vm_compute]].
Qed.

Definition row1 : CheckoutRequest :=
  Eval vm_compute in match requests (state s8) !! 1 with Some r => r | None => granted ask self end.

Lemma row1_there : requests (state s8) !! 1 = Some row1.
Proof. by vm_compute. Qed.



Lemma s2_reachable : reachable ascii_lower ascii_lower s2.
Proof.
  apply (R_step _ _ s1 10 (EClaim 50 Activation 1 20)); [exact s1_reachable|].
  split; [by vm_compute|split; [by vm_compute|split; by vm_compute]].
Qed.

Definition op50 : operation := mk_operation Activation 1 (ascii_lower (str "CN=Svc")) 120020 Started.

Lemma operations_exclusive_witness : 50 = 50.
Proof.
  assert (ops s2 !! 50 = Some op50) as E by (by vm_compute).
  refine (operations_exclusive ascii_lower ascii_lower lowers s2 50 50 op50 op50 100 s2_reachable _ E E eq_refl _ _); by vm_compute.
Defined.

Definition emergency : RequestCheckoutBody := mk_body (str "CN=Svc") (Some 60) (Some (str "prod is down!")) (Some true) None.

Lemma request_policy_witness :
  match request_checkout 0 7 emergency (Some (mk_mapping false (Some 1))) false true with
  | Ok row => status row = Approved /\ 1 <= requested_duration_mins row <= 720
  | Err _ => False
  end.
Proof.
  destruct (request_checkout 0 7 emergency (Some (mk_mapping false (Some 1))) false true) as [row|e] eqn:E; [|vm_compute in E; discriminate E].
  destruct (request_policy _ _ _ _ _ _ _ E) as (mp & _ & _ & _ & _ & _ & Hd & _).
  split; [vm_compute in E; injection E as <-; exact eq_refl|exact Hd].
Defined.

(** A denial that raced with an approval leaves the password with the
    requester: the decision's [UPDATE] does not look at the status, and the
    scrubber only expires active checkouts. *)
Lemma denied_keeps_password :
  let s := next 80 (EDecide 1 99 false (Some (str "no"))) s8 in
  (status <$> requests (state s) !! 1) = Some Denied /\
  ad (state s) !! ascii_lower (str "CN=Svc") = (p_secret <$> profiles (state s) !! 300) /\
  selected past_expiry 10000000 (state s) = [].
Proof. by vm_compute. Qed.

(** An expiry that cannot reach the directory still ends the checkout; the
    released password stays valid there. *)
Lemma expiry_without_directory :
  let down := mk_env true true true false false true 0 in
  let s := next 4000006 (EStep 51 (fine 0)) (next 4000005 (EStep 51 down) (next 4000004 (EStep 51 down)
             (next 4000003 (EStep 51 down) (next 4000002 (EClaim 51 Expiry 1 4000002) s8)))) in
  (status <$> requests (state s) !! 1) = Some Expired /\
  (o_phase <$> ops s !! 51) = Some (Finished (Ok tt)) /\
  ad (state s) !! ascii_lower (str "CN=Svc") = (p_secret <$> profiles (state s) !! 300).
Proof. by vm_compute. Qed.
End CheckoutExamples.
