(* ===== verification/Replay.v ===== *)
(** * Replay buffers and the registry of live sessions

    [backend/src/services/session_registry.rs] with the two consumers of its
    buffers, the shared viewer of [routes/share.rs] and the observer of
    [routes/admin.rs], and the producer in [session_engine.rs].  Module [Nvr]
    is the buffer of one session, the filter in front of it, the log it keeps
    of what it evicts, and the memory budget all buffers share; module
    [Viewers] what a joining viewer is sent, and the interleaving of a join
    with the producer; module [Sessions] the registry. *)

From S2P Require Import Prelude Machine Text Crates Guacamole.

Local Open Scope Z_scope.

Module Nvr.

Definition MIB : Z := 1024 * 1024.
Definition SECOND : Z := 1000000000.

(** Instants and durations are nanoseconds. *)
Definition MAX_BUFFER_DURATION : Z := 300 * SECOND.
Definition MAX_BUFFER_BYTES : Z := 50 * 1024 * 1024.
Definition MAX_PERSISTENT_STATE_BYTES : Z := 20 * 1024 * 1024.
Definition DEFAULT_NVR_BUDGET_MB : Z := 1024.

(** ** The memory budget *)

Record NvrBudget : Type := mk_budget { limit : Z; used : Z; buffers : Z }.

Definition budget_new (limit : Z) : NvrBudget := mk_budget limit 0 0.

(** The limit from [STRATA_NVR_MEMORY_BUDGET_MB]. *)
Definition budget_limit (var : option bytes) : Z :=
  let mb := match var ≫= fun v => parse_u64 (trim v) with
            | Some mb => if 0 <? mb then mb else DEFAULT_NVR_BUDGET_MB
            | None => DEFAULT_NVR_BUDGET_MB
            end in
  u64_saturating_mul mb (1024 * 1024).

(** [n] is what the read of [buffers] returns. *)
Definition share (limit n : Z) : Z := limit / Z.max n 1.

Definition caps (limit n : Z) : Z * Z :=
  let share := share limit n in
  let total := MAX_BUFFER_BYTES + MAX_PERSISTENT_STATE_BYTES in
  (Z.min MAX_BUFFER_BYTES (u64_saturating_mul share MAX_BUFFER_BYTES / total),
   Z.min MAX_PERSISTENT_STATE_BYTES (u64_saturating_mul share MAX_PERSISTENT_STATE_BYTES / total)).

(** ** Cutting text into instructions *)

(** [split_inclusive(sep)]: the pieces keep their separator, and text after
    the last one is a piece of its own. *)
Fixpoint split_inclusive (sep : Z) (s : bytes) : list bytes :=
  match s with
  | [] => []
  | b :: r =>
      if b =? sep then [b] :: split_inclusive sep r
      else match split_inclusive sep r with
           | p :: ps => (b :: p) :: ps
           | [] => [[b]]
           end
  end.

(** The text before the first [','] or [';'], or all of it. *)
Fixpoint until_mark (s : bytes) : bytes :=
  match s with
  | [] => []
  | b :: r => if (b =? 44) || (b =? 59) then [] else b :: until_mark r
  end.

Definition parse_opcode (inst : bytes) : option bytes :=
  '(len_str, rest) ← split_once 46 inst;
  declared_len ← parse_u64 len_str;
  let opcode := until_mark rest in
  if Z.of_nat (length opcode) =? declared_len then Some opcode else None.

Definition SENSITIVE_OPCODES : list bytes := [str "connect"; str "args"].

(** Whether the loop of [filter_sensitive_instructions] keeps a piece. *)
Definition keeps (inst : bytes) : bool :=
  match trim inst with
  | [] => false
  | trimmed => negb (from_option (fun op => bool_decide (op ∈ SENSITIVE_OPCODES)) false (parse_opcode trimmed))
  end.

Definition filter_sensitive_instructions (data : bytes) : bytes :=
  concat (filter (fun inst => keeps inst = true) (split_inclusive 59 data)).

(** ** The buffer of a session *)

Record BufferedFrame : Type := mk_frame { timestamp : Z; data : bytes; byte_size : Z }.

Record SessionBuffer : Type := mk_buffer {
  frames : list BufferedFrame;
  total_bytes : Z;
  last_size_instruction : option bytes;
  persistent_state : list bytes;
  persistent_state_bytes : Z;
  accounted : Z }.

(** [with_budget]; the registration in the budget is in [step]. *)
Definition buffer_new : SessionBuffer := mk_buffer [] 0 None [] 0 0.

Definition EPHEMERAL_OPCODES : list bytes := [str "4.sync"; str "3.nop"; str "3.key"; str "5.mouse"].

(** Whether the loop of [salvage_persistent_state] keeps a piece. *)
Definition lasting (inst : bytes) : bool :=
  match trim inst with
  | [] => false
  | trimmed => negb (bool_decide (until_mark trimmed ∈ EPHEMERAL_OPCODES))
  end.

Definition salvaged (data : bytes) : list bytes := filter (fun inst => lasting inst = true) (split_inclusive 59 data).

Definition piece_bytes (ps : list bytes) : Z := Z.of_nat (length (concat ps)).

(** The loop that drops the oldest instructions over the cap. *)
Fixpoint drop_oldest (cap : Z) (ps : list bytes) (n : Z) : list bytes * Z :=
  match ps with
  | [] => ([], n)
  | old :: r => if cap <? n then drop_oldest cap r (n - Z.of_nat (length old)) else (ps, n)
  end.

Definition salvage_persistent_state (persistent_cap : Z) (data : bytes) (b : SessionBuffer) : SessionBuffer :=
  let add := salvaged data in
  let '(ps, n) := drop_oldest persistent_cap (persistent_state b ++ add) (persistent_state_bytes b + piece_bytes add) in
  mk_buffer (frames b) (total_bytes b) (last_size_instruction b) ps n (accounted b).

Section push.
(** Other sessions come and go while a frame is pushed: [live k] is the
    number of buffers as read when [k] frames are left after an eviction. *)
Variable limit : Z.
Variable live : nat -> Z.

(** One eviction: [pop_front], the byte count and the salvage. *)
Definition pop_front (f : BufferedFrame) (rest : list BufferedFrame) (b : SessionBuffer) : SessionBuffer :=
  salvage_persistent_state (snd (caps limit (live (length rest)))) (data f)
    (mk_buffer rest (total_bytes b - byte_size f) (last_size_instruction b) (persistent_state b)
       (persistent_state_bytes b) (accounted b)).

Fixpoint evict_expired (cutoff : Z) (fs : list BufferedFrame) (b : SessionBuffer) : SessionBuffer :=
  match fs with
  | f :: r => if timestamp f <? cutoff then evict_expired cutoff r (pop_front f r b) else b
  | [] => b
  end.

Fixpoint evict_oversize (ring_cap : Z) (fs : list BufferedFrame) (b : SessionBuffer) : SessionBuffer :=
  if ring_cap <? total_bytes b then
    match fs with
    | f :: r => evict_oversize ring_cap r (pop_front f r b)
    | [] => b
    end
  else b.

(** The [size] cache: the last piece of the frame that contains [".size,"]. *)
Definition cache_size (filtered : bytes) (last : option bytes) : option bytes :=
  if str_contains (str ".size,") filtered then
    fold_left (fun acc inst =>
      match trim inst with
      | [] => acc
      | trimmed => if str_contains (str ".size,") trimmed then Some (trimmed ++ [59]) else acc
      end) (split 59 filtered) last
  else last.

Definition account (b : SessionBuffer) (used : Z) : SessionBuffer * Z :=
  let now := total_bytes b + persistent_state_bytes b in
  let used' := if accounted b <? now then wrap_u 64 (used + (now - accounted b))
               else wrap_u 64 (used - (accounted b - now)) in
  (mk_buffer (frames b) (total_bytes b) (last_size_instruction b) (persistent_state b) (persistent_state_bytes b) now, used').

(** [now1] stamps the frame, [now2] is read for the cutoff and [n] is the
    number of buffers read for the ring cap. *)
Definition push (now1 now2 n : Z) (data : bytes) (b : SessionBuffer) (used : Z) : SessionBuffer * Z :=
  let filtered := filter_sensitive_instructions data in
  match filtered with
  | [] => (b, used)
  | _ =>
      let size := Z.of_nat (length filtered) in
      let b := mk_buffer (frames b ++ [mk_frame now1 filtered size]) (total_bytes b + size)
                 (cache_size filtered (last_size_instruction b)) (persistent_state b)
                 (persistent_state_bytes b) (accounted b) in
      let b := evict_expired (now2 - MAX_BUFFER_DURATION) (frames b) b in
      let b := evict_oversize (fst (caps limit n)) (frames b) b in
      account b used
  end.
End push.

(** ** Reading it back *)

Definition millis (d : Z) : Z := wrap_u 64 (Z.max d 0 / 1000000).

Definition frames_with_timing (now offset_secs : Z) (b : SessionBuffer) : list (Z * bytes) :=
  let cutoff := now - offset_secs * SECOND in
  let selected := filter (fun f => cutoff <= timestamp f) (frames b) in
  let origin := timestamp <$> head selected in
  (fun f => (from_option (fun o => millis (timestamp f - o)) 0 origin, data f)) <$> selected.

Definition buffer_depth_secs (b : SessionBuffer) : Z :=
  match head (frames b), last (frames b) with
  | Some first, Some last => Z.max (timestamp last - timestamp first) 0 / SECOND
  | _, _ => 0
  end.

Definition last_size (b : SessionBuffer) : option bytes := last_size_instruction b.

Definition persistent_text (b : SessionBuffer) : bytes := concat (persistent_state b).

(** ** All buffers of the process *)

Record Process : Type := mk_process { budget : NvrBudget; bufs : gmap Z SessionBuffer }.

Inductive op : Type :=
| ONew (id : Z)
| OPush (id : Z) (live : nat -> Z) (now1 now2 n : Z) (data : bytes)
| ODrop (id : Z).

(** [with_budget], [push] and [Drop::drop], with their effect on the shared
    counters. *)
Definition step (p : Process) (o : op) : Process :=
  let bu := budget p in
  match o with
  | ONew id =>
      match bufs p !! id with
      | Some _ => p
      | None => mk_process (mk_budget (limit bu) (used bu) (wrap_u 64 (buffers bu + 1))) (<[id := buffer_new]> (bufs p))
      end
  | OPush id live now1 now2 n data =>
      match bufs p !! id with
      | None => p
      | Some b =>
          let '(b', used') := push (limit bu) live now1 now2 n data b (used bu) in
          mk_process (mk_budget (limit bu) used' (buffers bu)) (<[id := b']> (bufs p))
      end
  | ODrop id =>
      match bufs p !! id with
      | None => p
      | Some b =>
          mk_process (mk_budget (limit bu) (wrap_u 64 (used bu - accounted b)) (wrap_u 64 (buffers bu - 1)))
            (delete id (bufs p))
      end
  end.

Definition run (limit : Z) (os : list op) : Process := foldl step (mk_process (budget_new limit) ∅) os.

(** ** Cutting lemmas *)

Lemma split_inclusive_concat sep s : concat (split_inclusive sep s) = s.
Proof.
  induction s as [|b r IH]; [done|]. cbn [split_inclusive]. case_test; [by cbn; rewrite IH|].
  destruct (split_inclusive sep r); cbn in *; by rewrite <- IH.
Qed.

(** A text is complete when it is cut at its end. *)
Definition complete (s : bytes) : Prop := s = [] \/ exists s', s = s' ++ [59].

Lemma split_inclusive_cut s r :
  split_inclusive 59 (s ++ 59 :: r) = split_inclusive 59 (s ++ [59]) ++ split_inclusive 59 r.
Proof.
  induction s as [|b s IH]; [done|]. cbn [app split_inclusive]. rewrite IH. case_test; [done|].
  destruct (split_inclusive 59 (s ++ [59])) as [|p ps] eqn:E; [|done].
  apply (f_equal (concat (A:=Z))) in E. rewrite split_inclusive_concat in E. by destruct s.
Qed.

Lemma split_inclusive_app s r : complete s -> split_inclusive 59 (s ++ r) = split_inclusive 59 s ++ split_inclusive 59 r.
Proof. intros [->|[s' ->]]; [done|]. rewrite <- (assoc_L (++)). apply split_inclusive_cut. Qed.

Lemma split_inclusive_piece s : 59 ∉ s -> split_inclusive 59 (s ++ [59]) = [s ++ [59]].
Proof.
  induction s as [|b s IH]; [done|]. intros [Hb Hs]%not_elem_of_cons. cbn [app split_inclusive].
  take_false (b =? 59). by rewrite (IH Hs).
Qed.

(** Each piece of a complete text is a run without the separator and one
    separator. *)
Definition piece (p : bytes) : Prop := exists q, p = q ++ [59] /\ (59 ∉ q).

Lemma complete_pieces s : complete s -> Forall piece (split_inclusive 59 s).
Proof.
  intros [->|[s' ->]]; [constructor|]. induction s' as [|b s IH]; cbn [app split_inclusive].
  - constructor; [exists []; by split; [|apply not_elem_of_nil] | constructor].
  - case_test; b2p.
    + subst b. constructor; [exists []; by split; [|apply not_elem_of_nil] | done].
    + destruct (split_inclusive 59 (s ++ [59])) as [|p ps] eqn:E.
      * apply (f_equal (concat (A:=Z))) in E. rewrite split_inclusive_concat in E. by destruct s.
      * apply Forall_cons in IH as [(q & -> & Hq) IH]. constructor; [|done]. exists (b :: q). split; [done|].
        by apply not_elem_of_cons.
Qed.

Lemma pieces_complete ps : Forall piece ps -> complete (concat ps).
Proof.
  induction 1 as [|p ps (q & -> & _) _ [IH|[s' IH]]]; cbn [concat]; [by left|..]; right; rewrite IH.
  - exists q. by rewrite app_nil_r.
  - exists ((q ++ [59]) ++ s'). by rewrite <- !app_assoc.
Qed.

Lemma split_inclusive_pieces ps : Forall piece ps -> split_inclusive 59 (concat ps) = ps.
Proof.
  induction 1 as [|p ps (q & -> & Hq) _ IH]; [done|]. cbn [concat].
  rewrite split_inclusive_app by (right; eauto). rewrite IH, (split_inclusive_piece q Hq). done.
Qed.

Lemma filter_complete d : complete d -> complete (filter_sensitive_instructions d).
Proof.
  intros Hd. apply pieces_complete. apply complete_pieces in Hd.
  rewrite Forall_forall in Hd |- *. intros p [_ Hp]%list_elem_of_filter. auto.
Qed.

(** ** The credential filter on whole instructions *)

(** An instruction none of whose texts contains a [';']. *)
Definition plain (i : GuacInstruction) : Prop :=
  wf_instruction i /\ (59 ∉ opcode i) /\ (44 ∉ opcode i) /\ Forall (fun a => 59 ∉ a) (args i).

Lemma dec_facts (v : bytes) : wf_element v ->
  parse_u64 (dec (Z.of_nat (char_count v))) = Some (Z.of_nat (char_count v)) /\
  Forall (fun d => is_digit d = true) (dec (Z.of_nat (char_count v))) /\ dec (Z.of_nat (char_count v)) <> [].
Proof.
  intros [_ Hc]. destruct (dec_spec (Z.of_nat (char_count v))) as (Hv & Hd & Hne & _); [unfold dec_bound, MAX_ELEMENT_CHARS in *; lia|].
  split; [|done]. unfold parse_u64. rewrite parse_int_digits; [by rewrite Hv|done|done|].
  rewrite Hv. unfold in_range, u64_max, MAX_ELEMENT_CHARS in *. lia.
Qed.

Lemma digits_avoid c ds : Forall (fun d => is_digit d = true) ds -> is_digit c = false -> c ∉ ds.
Proof. intros Hd Hc Hin. rewrite Forall_forall in Hd. apply Hd in Hin. congruence. Qed.

Lemma element_avoids v : wf_element v -> 59 ∉ v -> 59 ∉ element v.
Proof.
  intros Hw Hv. destruct (dec_facts v Hw) as (_ & Hd & _). unfold element. rewrite !elem_of_app.
  intros [Hi|[Hi|Hi]]; [by apply (digits_avoid 59) in Hi| |done]. apply list_elem_of_singleton in Hi. done.
Qed.

(** The wire form is one piece that has nothing to trim. *)
Lemma wire_shape i : plain i -> exists d w, wire (opcode i) (args i) = d :: w ++ [59] /\ is_digit d = true /\ (59 ∉ d :: w).
Proof.
  intros ((Hop & Hargs & _) & Hs & _ & Ha). destruct (dec_facts _ Hop) as (_ & Hd & Hne).
  assert (59 ∉ element (opcode i) ++ concat ((fun a => 44 :: element a) <$> args i)) as Hw.
  { rewrite elem_of_app. intros [Hi|Hi]; [by apply element_avoids in Hi|].
    apply list_elem_of_In, in_concat in Hi as (x & Hx%list_elem_of_In & Hi%list_elem_of_In).
    apply list_elem_of_fmap in Hx as (a & -> & Hin).
    rewrite Forall_forall in Hargs, Ha. apply elem_of_cons in Hi as [|Hi]; [done|].
    by apply element_avoids in Hi; [|apply Hargs|apply Ha]. }
  unfold wire. unfold element at 1. unfold element at 1 in Hw. destruct (dec (Z.of_nat (char_count (opcode i)))) as [|d ds]; [done|].
  exists d, (ds ++ [46] ++ opcode i ++ concat ((fun a => 44 :: element a) <$> args i)). split; [|split].
  - repeat (cbn [app]; rewrite <- ?(assoc_L (++))). done.
  - by apply Forall_cons in Hd as [].
  - repeat (cbn [app] in Hw; rewrite <- ?(assoc_L (++)) in Hw). done.
Qed.

Lemma until_mark_app op r : 59 ∉ op -> 44 ∉ op -> (exists b y, r = b :: y /\ (b = 44 \/ b = 59)) -> until_mark (op ++ r) = op.
Proof.
  intros H1 H2 (b & y & -> & Hb). induction op as [|x op IH]; cbn [app until_mark].
  - by destruct Hb as [-> | ->].
  - apply not_elem_of_cons in H1 as [H1 H1']. apply not_elem_of_cons in H2 as [H2 H2'].
    take_false ((x =? 44) || (x =? 59)). by rewrite IH.
Qed.

Lemma keeps_wire i : plain i -> keeps (wire (opcode i) (args i)) = negb (bool_decide (opcode i ∈ SENSITIVE_OPCODES)).
Proof.
  intros Hp. destruct (wire_shape i Hp) as (d & w & E & Hd & _). destruct Hp as ((Hop & _) & Hs & Hc & _).
  destruct (dec_facts _ Hop) as (Hpu & Hds & _). unfold keeps. rewrite E, trim_digit_semicolon by done. rewrite <- E. f_equal.
  assert (exists r, wire (opcode i) (args i) = dec (Z.of_nat (char_count (opcode i))) ++ 46 :: opcode i ++ r /\
    exists b y, r = b :: y /\ (b = 44 \/ b = 59)) as (r & Er & Hr).
  { exists (concat ((fun a => 44 :: element a) <$> args i) ++ [59]). split.
    - unfold wire, element. by rewrite <- !(assoc_L (++)).
    - destruct (args i); cbn; eauto 6. }
  unfold parse_opcode. rewrite Er.
  rewrite (proj2 (split_once_spec _ _ _ _)) by (split; [done|by apply digits_avoid]). cbn [mbind option_bind].
  rewrite Hpu. cbn [mbind option_bind]. rewrite until_mark_app by done.
  destruct (Z.of_nat (length (opcode i)) =? Z.of_nat (char_count (opcode i))) eqn:El; [done|]. cbn [from_option].
  symmetry. apply bool_decide_eq_false. intros Hin. apply Z.eqb_neq in El. apply El.
  unfold SENSITIVE_OPCODES in Hin. rewrite !elem_of_cons in Hin. destruct Hin as [-> | [-> | Hin%elem_of_nil]]; done.
Qed.

(** On any sequence of instructions whose texts contain no [';'], the filter in front of the replay buffer removes exactly the connect and args instructions. *)
Lemma filter_exact xs : Forall plain xs ->
  filter_sensitive_instructions (concat ((fun i => instruction_encode i []) <$> xs)) =
  concat ((fun i => instruction_encode i []) <$> filter (fun i => opcode i ∉ SENSITIVE_OPCODES) xs).
Proof.
  intros Hp. unfold filter_sensitive_instructions. rewrite split_inclusive_pieces.
  - induction Hp as [|i xs Hi _ IH]; [done|]. rewrite fmap_cons, (instruction_encode_wire i []) by apply Hi. cbn [app].
    destruct (decide (opcode i ∈ SENSITIVE_OPCODES)) as [Hin|Hin].
    + rewrite filter_cons_False by (rewrite keeps_wire, bool_decide_true by done; done).
      rewrite IH, (filter_cons_False (fun i => opcode i ∉ SENSITIVE_OPCODES)); [done|tauto].
    + rewrite filter_cons_True by (rewrite keeps_wire, bool_decide_false by done; done).
      rewrite (filter_cons_True (fun i => opcode i ∉ SENSITIVE_OPCODES)) by done. rewrite fmap_cons. cbn [concat].
      rewrite IH. by rewrite (instruction_encode_wire i []) by apply Hi.
  - apply Forall_fmap. eapply Forall_impl; [exact Hp|]. intros i Hi. cbn. destruct (wire_shape i Hi) as (d & w & E & _ & Hw).
    rewrite (instruction_encode_wire i []) by apply Hi. cbn [app]. rewrite E. by exists (d :: w).
Qed.

(** ** What a buffer keeps *)

(** Everything a viewer could still be sent, as instructions that last. *)
Definition kept (b : SessionBuffer) : list bytes := persistent_state b ++ concat (salvaged ∘ data <$> frames b).

Definition ring_bytes (fs : list BufferedFrame) : Z := Z.of_nat (sum_list_with (fun f => length (data f)) fs).

Record wf (b : SessionBuffer) : Prop := mk_wf {
  wf_sizes : Forall (fun f => byte_size f = Z.of_nat (length (data f))) (frames b);
  wf_total : total_bytes b = ring_bytes (frames b);
  wf_persistent : persistent_state_bytes b = piece_bytes (persistent_state b);
  wf_cap : persistent_state_bytes b <= MAX_PERSISTENT_STATE_BYTES }.

Lemma piece_bytes_app ps qs : piece_bytes (ps ++ qs) = piece_bytes ps + piece_bytes qs.
Proof. unfold piece_bytes. rewrite concat_app, length_app. lia. Qed.

Lemma piece_bytes_cons p ps : piece_bytes (p :: ps) = Z.of_nat (length p) + piece_bytes ps.
Proof. unfold piece_bytes. cbn [concat]. rewrite length_app. lia. Qed.

Lemma piece_bytes_nonneg ps : 0 <= piece_bytes ps.
Proof. unfold piece_bytes. lia. Qed.

Lemma share_nonneg limit n : 0 <= limit -> 0 <= share limit n.
Proof. intros. unfold share. apply Z.div_pos; lia. Qed.

Lemma caps_bounds limit n : 0 <= limit ->
  0 <= fst (caps limit n) <= MAX_BUFFER_BYTES /\ 0 <= snd (caps limit n) <= MAX_PERSISTENT_STATE_BYTES.
Proof.
  intros Hl. pose proof (share_nonneg limit n Hl). unfold caps, u64_saturating_mul, u64_max, MAX_BUFFER_BYTES, MAX_PERSISTENT_STATE_BYTES.
  cbn [fst snd]. repeat split; try lia; apply Z.min_glb; try lia; apply Z.div_pos; lia.
Qed.

Lemma drop_oldest_spec cap ps n : n = piece_bytes ps -> 0 <= cap ->
  exists k, drop_oldest cap ps n = (drop k ps, piece_bytes (drop k ps)) /\ piece_bytes (drop k ps) <= cap /\
    (n <= cap -> k = 0%nat).
Proof.
  revert n. induction ps as [|p ps IH]; intros n -> Hc; cbn [drop_oldest].
  - exists 0%nat. cbn. split_and!; done || lia.
  - case_test; b2p.
    + destruct (IH (piece_bytes (p :: ps) - Z.of_nat (length p))) as (k & E & Hk & _); [rewrite piece_bytes_cons; lia|done|].
      exists (S k). rewrite E. split_and!; [done|done|lia].
    + exists 0%nat. cbn [drop]. split_and!; done || lia.
Qed.

Section evictions.
Context {limit : Z} {live : nat -> Z}.
Hypothesis Hlimit : 0 <= limit.

(** [b'] is [b] after evictions: what it keeps is the newer end of what [b]
    kept, all of it when [cap] bytes are enough for everything. *)
Definition evicted (b b' : SessionBuffer) : Prop :=
  wf b' /\ last_size_instruction b' = last_size_instruction b /\ accounted b' = accounted b /\
  frames b' `suffix_of` frames b /\
  exists lost, kept b = lost ++ kept b' /\ ((forall k, piece_bytes (kept b) <= snd (caps limit (live k))) -> lost = []).

Lemma evicted_refl b : wf b -> evicted b b.
Proof. intros W. do 4 (split; [done|]). by exists []. Qed.

Lemma evicted_trans b c d : evicted b c -> evicted c d -> evicted b d.
Proof.
  intros (_ & L1 & A1 & S1 & l1 & K1 & C1) (W & L2 & A2 & S2 & l2 & K2 & C2).
  split; [done|]. split; [congruence|]. split; [congruence|]. split; [by etrans|]. exists (l1 ++ l2).
  split; [by rewrite K1, K2, (assoc_L (++))|]. intros Hc. pose proof (C1 Hc) as ->. cbn [app] in *. apply C2. by rewrite <- K1.
Qed.

Lemma pop_front_evicts f rest b : wf b -> frames b = f :: rest -> frames (pop_front limit live f rest b) = rest /\ evicted b (pop_front limit live f rest b).
Proof.
  intros [Ws Wt Wp Wc] E. unfold pop_front, salvage_persistent_state. cbn [persistent_state persistent_state_bytes frames total_bytes last_size_instruction accounted].
  destruct (drop_oldest_spec (snd (caps limit (live (length rest)))) (persistent_state b ++ salvaged (data f))
    (persistent_state_bytes b + piece_bytes (salvaged (data f)))) as (k & -> & Hk & Hall);
    [by rewrite piece_bytes_app, Wp | by apply caps_bounds|].
  pose proof (caps_bounds limit (live (length rest)) Hlimit) as [_ Hb].
  split; [done|]. rewrite E in Ws. apply Forall_cons in Ws as [Hf Ws]. split_and!; try done.
  - constructor; cbn; try done; [|lia]. rewrite Wt, E, Hf. unfold ring_bytes. cbn [sum_list_with]. lia.
  - rewrite E. by exists [f].
  - exists (take k (persistent_state b ++ salvaged (data f))). unfold kept. rewrite E. cbn [fmap list_fmap concat compose frames persistent_state].
    rewrite !(assoc_L (++)), take_drop. split; [done|]. intros Hc. rewrite Hall; [by rewrite take_0|].
    etrans; [|apply (Hc (length rest))]. rewrite !piece_bytes_app, Wp. pose proof (piece_bytes_nonneg (concat (salvaged ∘ data <$> rest))). lia.
Qed.

Lemma evict_expired_evicts cutoff fs : forall b, wf b -> frames b = fs -> evicted b (evict_expired limit live cutoff fs b).
Proof.
  induction fs as [|f r IH]; intros b W E; cbn [evict_expired]; [by apply evicted_refl|].
  case_test; [|by apply evicted_refl]. destruct (pop_front_evicts f r b W E) as [Ef Hev].
  eapply evicted_trans; [exact Hev|]. apply IH; [by apply Hev|done].
Qed.

Lemma evict_oversize_evicts cap fs : forall b, wf b -> 0 <= cap -> frames b = fs ->
  evicted b (evict_oversize limit live cap fs b) /\ total_bytes (evict_oversize limit live cap fs b) <= cap.
Proof.
  induction fs as [|f r IH]; intros b W Hc E; cbn [evict_oversize]; case_test; b2p; try (split; [by apply evicted_refl|done]).
  - exfalso. rewrite (wf_total b W), E in Hb. unfold ring_bytes in Hb. cbn in Hb. lia.
  - destruct (pop_front_evicts f r b W E) as [Ef Hev]. destruct (IH (pop_front limit live f r b)) as [He Ht]; [by apply Hev|done..|].
    split; [|done]. by eapply evicted_trans.
Qed.

(** The frame a push adds. *)
Definition new_frames (now1 : Z) (d : bytes) : list BufferedFrame :=
  match filter_sensitive_instructions d with
  | [] => []
  | F => [mk_frame now1 F (Z.of_nat (length F))]
  end.

(** What one push does to a buffer. *)
Lemma push_spec now1 now2 n d b used b' used' : wf b -> push limit live now1 now2 n d b used = (b', used') ->
  wf b' /\ (total_bytes b <= MAX_BUFFER_BYTES -> total_bytes b' <= MAX_BUFFER_BYTES) /\
  (filter_sensitive_instructions d <> [] -> total_bytes b' <= fst (caps limit n) /\ accounted b' = total_bytes b' + persistent_state_bytes b') /\
  (accounted b = total_bytes b + persistent_state_bytes b ->
     accounted b' = total_bytes b' + persistent_state_bytes b') /\
  frames b' `suffix_of` frames b ++ new_frames now1 d /\
  used' mod 2 ^ 64 = (used + accounted b' - accounted b) mod 2 ^ 64 /\
  exists lost, kept b ++ salvaged (filter_sensitive_instructions d) = lost ++ kept b' /\
    ((forall k, piece_bytes (kept b ++ salvaged (filter_sensitive_instructions d)) <= snd (caps limit (live k))) -> lost = []).
Proof.
  intros W. unfold push, new_frames. set (F := filter_sensitive_instructions d). destruct F as [|x F'] eqn:EF.
  - intros [= <- <-]. split_and!; try done; [by rewrite app_nil_r|f_equal; lia|]. exists []. cbn. by rewrite app_nil_r.
  - rewrite <- EF in *. clear EF. set (b1 := mk_buffer _ _ _ _ _ _).
    assert (wf b1) as W1.
    { destruct W as [Ws Wt Wp Wc]. constructor; cbn; try done.
      - apply Forall_app. split; [done|]. by constructor.
      - rewrite Wt. unfold ring_bytes. rewrite sum_list_with_app. cbn. lia. }
    assert (kept b1 = kept b ++ salvaged F) as K1.
    { unfold kept, b1. cbn [persistent_state frames]. rewrite fmap_app, concat_app. cbn. by rewrite app_nil_r, (assoc_L (++)). }
    pose proof (evict_expired_evicts (now2 - MAX_BUFFER_DURATION) _ b1 W1 eq_refl) as H1.
    set (b2 := evict_expired _ _ _ _ _) in *. pose proof (caps_bounds limit n Hlimit) as [Hc _].
    destruct (evict_oversize_evicts (fst (caps limit n)) _ b2 ltac:(by apply H1) ltac:(lia) eq_refl) as [H2 Ht].
    set (b3 := evict_oversize _ _ _ _ _) in *. pose proof (evicted_trans _ _ _ H1 H2) as (W3 & _ & A3 & S3 & lost & K3 & C3).
    unfold account. intros [= <- <-]. cbn [total_bytes persistent_state_bytes accounted]. rewrite A3. cbn [b1 accounted].
    split; [destruct W3; by constructor|]. split; [lia|]. split; [done|]. split; [done|]. split; [exact S3|]. split.
    + unfold wrap_u. case_match; rewrite Z.mod_mod by lia; f_equal; lia.
    + exists lost. rewrite <- K1. by split.
Qed.
End evictions.

(** ** The budget *)

Definition held (b : SessionBuffer) : Z := total_bytes b + persistent_state_bytes b.

Definition total_held (m : gmap Z SessionBuffer) : Z := map_fold (fun _ b acc => held b + acc) 0 m.

Lemma total_held_insert m id b : m !! id = None -> total_held (<[id := b]> m) = held b + total_held m.
Proof. intros Hm. unfold total_held. rewrite map_fold_insert_L; [done|intros; lia|done]. Qed.

Lemma total_held_delete m id b : m !! id = Some b -> total_held m = held b + total_held (delete id m).
Proof. intros Hm. rewrite <- (total_held_insert _ id) by apply lookup_delete_eq. by rewrite insert_delete_id. Qed.

Lemma total_held_update m id b b' : m !! id = Some b -> total_held (<[id := b']> m) = total_held m + held b' - held b.
Proof.
  intros Hm. rewrite (total_held_delete m id b Hm), <- insert_delete_eq, total_held_insert by apply lookup_delete_eq. lia.
Qed.

(** A buffer as the lock of its session leaves it. *)
Definition settled (b : SessionBuffer) : Prop :=
  wf b /\ total_bytes b <= MAX_BUFFER_BYTES /\ accounted b = held b.

Lemma settled_new : settled buffer_new.
Proof. split_and!; [constructor; cbn; done || constructor | done..]. Qed.

Lemma settled_held b : settled b -> 0 <= held b <= MAX_BUFFER_BYTES + MAX_PERSISTENT_STATE_BYTES.
Proof.
  intros ([Ws Wt Wp Wc] & Ht & _). unfold held. pose proof (piece_bytes_nonneg (persistent_state b)). unfold ring_bytes in Wt. lia.
Qed.

Definition sound (p : Process) : Prop :=
  used (budget p) = wrap_u 64 (total_held (bufs p)) /\
  buffers (budget p) = wrap_u 64 (Z.of_nat (size (bufs p))) /\
  map_Forall (fun _ b => settled b) (bufs p).

Lemma push_settled limit live now1 now2 n d b used b' used' : 0 <= limit -> settled b ->
  push limit live now1 now2 n d b used = (b', used') ->
  settled b' /\ wrap_u 64 used' = wrap_u 64 (used + held b' - held b).
Proof.
  intros Hl (W & Ht & Ha) E. destruct (push_spec Hl _ _ _ _ _ _ _ _ W E) as (W' & Ht' & _ & Ha' & _ & Hu & _).
  unfold settled, held in *. rewrite Ha, Ha' in Hu by done. split; [auto|done].
Qed.

Lemma push_used_wrapped limit live now1 now2 n d b used b' used' : used = wrap_u 64 used ->
  push limit live now1 now2 n d b used = (b', used') -> used' = wrap_u 64 used'.
Proof.
  unfold push, account, wrap_u. intros Hu. destruct (filter_sensitive_instructions d); [by intros [= <- <-]|].
  intros [= <- <-]. by case_match; rewrite Z.mod_mod.
Qed.

Lemma wrap_wrap z : wrap_u 64 z = wrap_u 64 (wrap_u 64 z).
Proof. unfold wrap_u. by rewrite Z.mod_mod. Qed.

Lemma wrap_add_l x y : wrap_u 64 (wrap_u 64 x + y) = wrap_u 64 (x + y).
Proof. unfold wrap_u. apply Zplus_mod_idemp_l. Qed.

Lemma step_sound p o : 0 <= limit (budget p) -> sound p -> sound (step p o).
Proof.
  intros Hl (Hu & Hn & Hs). destruct o as [id|id live now1 now2 n d|id]; cbn [step]; destruct (bufs p !! id) as [b|] eqn:E; try done.
  - split_and!; cbn.
    + rewrite total_held_insert by done. by rewrite Hu.
    + rewrite map_size_insert_None, Hn, wrap_add_l by done. f_equal. lia.
    + apply map_Forall_insert_2; [apply settled_new|done].
  - destruct (push _ _ _ _ _ _ _ _) as [b' used'] eqn:Ep. pose proof (Hs _ _ E) as Hb.
    destruct (push_settled _ _ _ _ _ _ _ _ _ _ Hl Hb Ep) as [Hb' Hu']. split_and!; cbn.
    + assert (used (budget p) = wrap_u 64 (used (budget p))) as Hw by (rewrite Hu; apply wrap_wrap).
      rewrite (push_used_wrapped _ _ _ _ _ _ _ _ _ _ Hw Ep), Hu', Hu.
      rewrite (total_held_update _ _ b) by done. rewrite <- Z.add_sub_assoc, wrap_add_l. f_equal. lia.
    + rewrite map_size_insert_Some by eauto. done.
    + by apply map_Forall_insert_2.
  - pose proof (Hs _ _ E) as (_ & _ & Ha). split_and!; cbn.
    + rewrite Hu, (total_held_delete _ _ _ E), Ha, <- (Z.add_opp_r _ (held b)), wrap_add_l. f_equal. lia.
    + rewrite Hn, <- Z.add_opp_r, wrap_add_l, map_size_delete_Some by eauto. f_equal.
      pose proof (map_size_ne_0_lookup_2 (bufs p) id ltac:(eauto)). lia.
    + by apply map_Forall_delete.
Qed.

Lemma step_limit p o : limit (budget (step p o)) = limit (budget p).
Proof. destruct o; cbn; repeat case_match; done. Qed.

Lemma run_sound L os : 0 <= L -> sound (run L os) /\ limit (budget (run L os)) = L.
Proof.
  intros HL. unfold run. induction os as [|o os [IH El]] using rev_ind.
  - split; [|done]. split_and!; [done..|apply map_Forall_empty].
  - rewrite foldl_app. cbn [foldl]. rewrite step_limit. split; [|done]. apply step_sound; [by rewrite El|done].
Qed.

Lemma total_held_bound m : map_Forall (fun _ b => settled b) m ->
  0 <= total_held m <= (MAX_BUFFER_BYTES + MAX_PERSISTENT_STATE_BYTES) * Z.of_nat (size m).
Proof.
  induction m as [|id b m Hm IH] using map_ind; intros Hs; [done|].
  apply map_Forall_insert in Hs as [Hb Hs]; [|done]. apply settled_held in Hb.
  rewrite total_held_insert, map_size_insert_None by done. specialize (IH Hs). lia.
Qed.

End Nvr.

(** ** What viewers receive *)

Module Viewers.
Import Nvr.

Definition is_sync (trimmed : bytes) : bool :=
  bool_decide (take 7 trimmed = str "4.sync,") || bool_decide (trimmed = str "4.sync").

(** The loop over the pieces of a frame: syncs are taken out, and the last
    one is remembered. *)
Definition shows (inst : bytes) : bool :=
  match trim inst with [] => false | trimmed => negb (is_sync trimmed) end.

Definition strip_sync (frame : bytes) : bytes :=
  concat (filter (fun inst => shows inst = true) (split_inclusive 59 frame)).

Definition last_sync (frame : bytes) (last : option bytes) : option bytes :=
  fold_left (fun acc inst =>
    match trim inst with [] => acc | trimmed => if is_sync trimmed then Some inst else acc end)
    (split_inclusive 59 frame) last.

(** The messages of a dump and the last sync seen. *)
Fixpoint dump (fs : list (Z * bytes)) (last : option bytes) : list bytes * option bytes :=
  match fs with
  | [] => ([], last)
  | (_, frame) :: r =>
      let '(msgs, last') := dump r (last_sync frame last) in
      (match strip_sync frame with [] => msgs | stripped => stripped :: msgs end, last')
  end.

Definition nonempty (t : bytes) : list bytes := match t with [] => [] | _ => [t] end.

(** What a shared viewer is sent before the live phase of
    [ws_shared_tunnel]; a failed send ends the socket, so it receives a
    prefix. *)
Definition viewer_replay (now : Z) (b : SessionBuffer) : list bytes :=
  let '(msgs, last_sync_inst) := dump (frames_with_timing now 300 b) None in
  option_list (last_size b) ++ nonempty (persistent_text b) ++ msgs ++ option_list last_sync_inst.

Definition format_guac_inst (op : bytes) (args : list bytes) : bytes :=
  dec (Z.of_nat (length op)) ++ [46] ++ op ++
  concat ((fun a => [44] ++ dec (Z.of_nat (length a)) ++ [46] ++ a) <$> args) ++ [59].

(** What it is sent when it lagged behind the live frames; [ts] is the wall
    clock in milliseconds. *)
Definition viewer_rebuild (now ts : Z) (b : SessionBuffer) : list bytes :=
  nonempty (persistent_text b) ++ concat ((fun f => nonempty (strip_sync (snd f))) <$> frames_with_timing now 300 b) ++
  [format_guac_inst (str "sync") [int_to_string ts]].

(** [observe_session_ws]: where the paced part starts, ... *)
Definition total_buffer_ms (fs : list (Z * bytes)) : Z := from_option fst 0 (last fs).

Fixpoint position (bound : Z) (fs : list (Z * bytes)) : nat :=
  match fs with
  | [] => 0
  | (t, _) :: r => if bound <=? t then 0 else S (position bound r)
  end.

Definition split_idx (offset : Z) (fs : list (Z * bytes)) : nat :=
  if offset =? 0 then length fs
  else position (Z.max (total_buffer_ms fs - wrap_u 64 (offset * 1000)) 0) fs.

Definition paced_origin_ms (offset : Z) (fs : list (Z * bytes)) : Z := from_option fst 0 (fs !! split_idx offset fs).

Definition paced_duration_ms (offset : Z) (fs : list (Z * bytes)) : Z :=
  match fs !! split_idx offset fs with
  | Some (t, _) => total_buffer_ms fs - t
  | None => 0
  end.

(** ... and the paced loop: [i] counts from the start of the paced part. *)
Fixpoint paced (i : nat) (origin : Z) (fs : list (Z * bytes)) : list bytes :=
  match fs with
  | [] => []
  | (delay_ms, frame) :: r =>
      (if ((i mod 20 =? 0)%nat || match r with [] => true | _ => false end)%bool
       then [format_guac_inst (str "nvrprogress") [int_to_string (Z.max (delay_ms - origin) 0)]] else []) ++
      frame :: paced (S i) origin r
  end.

(** Everything an observer is sent before the live phase; [speed] is the
    printed replay speed. *)
Definition observer_replay (speed : bytes) (offset now : Z) (b : SessionBuffer) : list bytes :=
  let fs := frames_with_timing now 300 b in
  let k := split_idx offset fs in
  let '(msgs, last_sync_inst) := dump (take k fs) None in
  [format_guac_inst (str "nvrheader")
     [int_to_string (paced_duration_ms offset fs); speed; int_to_string (total_buffer_ms fs); int_to_string offset]] ++
  option_list (last_size b) ++ nonempty (persistent_text b) ++ msgs ++ option_list last_sync_inst ++
  paced 0 (paced_origin_ms offset fs) (drop k fs) ++
  [format_guac_inst (str "nvrreplaydone") []].

(** ** A session's producer and a viewer that joins *)

Record pushed : Type := mk_pushed { p_live : nat -> Z; p_now1 : Z; p_now2 : Z; p_n : Z; p_data : bytes }.

Definition push_frame (limit : Z) (b : SessionBuffer) (p : pushed) : SessionBuffer :=
  fst (push limit (p_live p) (p_now1 p) (p_now2 p) (p_n p) (p_data p) b 0).

(** The feed of a session: its buffer, the frame that is in the buffer and
    not yet broadcast, and, once it joined, what the viewer was sent and what
    its receiver got. *)
Record Feed : Type := mk_feed {
  buf : SessionBuffer;
  pending : option bytes;
  viewer : option (list bytes * list bytes) }.

Definition feed_new : Feed := mk_feed buffer_new None None.

Inductive feed_step : Type :=
| FPush (p : pushed)
| FSend
| FJoin (now : Z).

(** [run_native] pushes a frame under the write lock, then sends it to
    the broadcast; a viewer reads the buffer and subscribes under the read
    lock. *)
Definition feed (limit : Z) (st : Feed) (s : feed_step) : option Feed :=
  match s with
  | FPush p =>
      match pending st with
      | None => Some (mk_feed (push_frame limit (buf st) p) (Some (p_data p)) (viewer st))
      | Some _ => None
      end
  | FSend =>
      match pending st with
      | Some d => Some (mk_feed (buf st) None ((fun '(snap, live) => (snap, live ++ [d])) <$> viewer st))
      | None => None
      end
  | FJoin now =>
      match viewer st with
      | None => Some (mk_feed (buf st) (pending st) (Some (viewer_replay now (buf st), [])))
      | Some _ => None
      end
  end.

Definition feed_run (limit : Z) (ss : list feed_step) (st : Feed) : option Feed := foldl (fun o s => o ≫= fun st => feed limit st s) (Some st) ss.

(** ** The replay is the newer end of the history *)

(** Well-kept: the log and the ring hold whole instructions. *)
Definition tidy (b : SessionBuffer) : Prop :=
  Forall (fun p => piece p /\ lasting p = true) (persistent_state b) /\ Forall (fun f => complete (data f)) (frames b).

Lemma lasting_shows p : lasting p = true -> shows p = true.
Proof.
  unfold lasting, shows. destruct (trim p) as [|x t]; [done|]. intros Hl. b2p. apply negb_true_iff.
  unfold is_sync. apply orb_false_iff. split; apply bool_decide_eq_false; intros E; apply Hl.
  - rewrite <- (take_drop 7 (x :: t)), E. by vm_compute; left.
  - rewrite E. by vm_compute; left.
Qed.

Lemma salvaged_pieces ps : Forall piece ps -> salvaged (concat ps) = filter (fun p => lasting p = true) ps.
Proof. intros. unfold salvaged. by rewrite split_inclusive_pieces. Qed.

Lemma salvaged_lasting d : complete d -> Forall (fun p => piece p /\ lasting p = true) (salvaged d).
Proof.
  intros Hd%complete_pieces. rewrite Forall_forall in Hd. apply Forall_forall. intros p [Hl Hp]%list_elem_of_filter. auto.
Qed.

Lemma salvaged_strip d : complete d -> salvaged (strip_sync d) = salvaged d.
Proof.
  intros Hd%complete_pieces. unfold strip_sync. rewrite salvaged_pieces; [|].
  - unfold salvaged. rewrite list_filter_filter. apply list_filter_iff. intros p. split; [by intros []|]. auto using lasting_shows.
  - rewrite Forall_forall in Hd. apply Forall_forall. intros p [_ Hp]%list_elem_of_filter. auto.
Qed.

Lemma salvaged_log ps : Forall (fun p => piece p /\ lasting p = true) ps -> salvaged (concat ps) = ps.
Proof.
  intros Hp. rewrite salvaged_pieces by (eapply Forall_impl; [exact Hp|by intros ? []]).
  apply filter_all. rewrite Forall_forall in Hp. intros. by apply Hp.
Qed.

Lemma salvaged_nonempty t : concat (salvaged <$> nonempty t) = salvaged t.
Proof. destruct t; cbn; [done|by rewrite app_nil_r]. Qed.

(** A remembered sync adds nothing that lasts. *)
Definition sync_inst (o : option bytes) : Prop :=
  match o with Some p => piece p /\ lasting p = false | None => True end.

Lemma last_sync_inst d o : complete d -> sync_inst o -> sync_inst (last_sync d o).
Proof.
  intros Hd%complete_pieces. unfold last_sync. revert o. induction Hd as [|p ps Hp _ IH]; intros o Ho; cbn [fold_left]; [done|].
  apply IH. destruct (trim p) as [|x t] eqn:Et; [done|]. destruct (is_sync (x :: t)) eqn:Ey; [|done]. split; [done|].
  destruct (lasting p) eqn:El; [|done]. apply lasting_shows in El. unfold shows in El. by rewrite Et, Ey in El.
Qed.

Lemma dump_spec fs : forall last, Forall (fun f => complete (snd f)) fs -> sync_inst last ->
  concat (salvaged <$> fst (dump fs last)) = concat ((salvaged ∘ snd) <$> fs) /\ sync_inst (snd (dump fs last)).
Proof.
  induction fs as [|[t f] fs IH]; intros l Hf Hl; cbn [dump]; [done|]. apply Forall_cons in Hf as [Hc Hf]. cbn [snd] in Hc.
  destruct (IH (last_sync f l) Hf ltac:(by apply last_sync_inst)) as [E Hs]. destruct (dump fs (last_sync f l)) as [msgs l'].
  cbn [fst snd] in *. split; [|done]. rewrite fmap_cons. cbn [concat compose snd]. rewrite <- E, <- (salvaged_strip f Hc).
  destruct (strip_sync f) as [|x r] eqn:Er; [done|]. by rewrite fmap_cons.
Qed.

Lemma sync_nothing o : sync_inst o -> concat (salvaged <$> option_list o) = [].
Proof.
  destruct o as [p|]; [|done]. intros [Hp Hl]. cbn. rewrite app_nil_r, <- (app_nil_r p). change (p ++ []) with (concat [p]).
  rewrite salvaged_pieces by (by constructor). rewrite filter_cons_False by (by rewrite Hl). done.
Qed.

(** Everything in the ring is young enough to be selected. *)
Definition fresh (now : Z) (b : SessionBuffer) : Prop := Forall (fun f => now - 300 * SECOND <= timestamp f) (frames b).

Lemma frames_fresh now b : fresh now b -> snd <$> frames_with_timing now 300 b = data <$> frames b.
Proof.
  intros Hf. unfold frames_with_timing. rewrite filter_all by (intros f Hin; unfold fresh in Hf; rewrite Forall_forall in Hf; by apply Hf).
  rewrite <- list_fmap_compose. by apply list_fmap_ext.
Qed.

Lemma frames_complete now off b : tidy b -> Forall (fun f => complete (snd f)) (frames_with_timing now off b).
Proof.
  intros [_ Hf]. unfold frames_with_timing. apply Forall_fmap, Forall_forall. intros f [_ Hin]%list_elem_of_filter.
  rewrite Forall_forall in Hf. cbn. by apply Hf.
Qed.

(** What a viewer is sent is what the buffer keeps. *)
Lemma viewer_kept now b : tidy b -> fresh now b ->
  exists body, viewer_replay now b = option_list (last_size b) ++ body /\ concat (salvaged <$> body) = kept b.
Proof.
  intros Ht Hf. unfold viewer_replay.
  destruct (dump_spec (frames_with_timing now 300 b) None (frames_complete _ _ _ Ht) I) as [E Hs].
  destruct (dump _ _) as [msgs l]. cbn [fst snd] in *. eexists. split; [done|].
  rewrite !fmap_app, !concat_app, E, salvaged_nonempty, (sync_nothing l Hs), app_nil_r. unfold kept, persistent_text.
  rewrite salvaged_log by apply Ht. f_equal. rewrite (list_fmap_compose snd salvaged), frames_fresh by done.
  by rewrite <- list_fmap_compose.
Qed.

Section history.
Context (limit : Z) (Hlimit : 0 <= limit).

Definition history (ps : list pushed) : list bytes := concat ((fun p => salvaged (filter_sensitive_instructions (p_data p))) <$> ps).

Definition push_all (ps : list pushed) : SessionBuffer := foldl (push_frame limit) buffer_new ps.

(** Every read of the budget leaves room for [n] bytes of log. *)
Definition roomy (n : Z) (ps : list pushed) : Prop := Forall (fun p => forall k, n <= snd (caps limit (p_live p k))) ps.

Lemma drawn_app ps qs : history (ps ++ qs) = history ps ++ history qs.
Proof. unfold history. by rewrite fmap_app, concat_app. Qed.

Lemma push_all_kept ps : Forall (fun p => complete (p_data p)) ps ->
  wf (push_all ps) /\ tidy (push_all ps) /\
  exists lost, history ps = lost ++ kept (push_all ps) /\ (roomy (piece_bytes (history ps)) ps -> lost = []).
Proof.
  induction ps as [|p ps IH] using rev_ind; intros Hc.
  - split; [apply settled_new|]. split; [by split|]. by exists [].
  - apply Forall_app in Hc as [Hc [Hp _]%Forall_cons]. destruct (IH Hc) as (W & Ht & lost & E & Hall).
    unfold push_all. rewrite foldl_app. cbn [foldl]. fold (push_all ps). unfold push_frame.
    destruct (push _ _ _ _ _ _ _ _) as [b' u'] eqn:Ep. cbn [fst].
    destruct (push_spec Hlimit _ _ _ _ _ _ _ _ W Ep) as (W' & _ & _ & _ & Hfr & _ & l2 & K & C).
    assert (history (ps ++ [p]) = history ps ++ salvaged (filter_sensitive_instructions (p_data p))) as Eh.
    { rewrite drawn_app. unfold history at 2. cbn. by rewrite app_nil_r. }
    assert (Forall (fun q => piece q /\ lasting q = true) (kept b')) as Hk.
    { assert (Forall (fun q => piece q /\ lasting q = true) (l2 ++ kept b')) as Ha; [|by apply Forall_app in Ha as []].
      rewrite <- K. apply Forall_app. split; [|by apply salvaged_lasting, filter_complete].
      unfold kept. apply Forall_app. split; [apply Ht|]. apply Forall_concat, Forall_fmap.
      eapply Forall_impl; [apply Ht|]. intros f Hf. by apply salvaged_lasting. }
    split; [done|]. split; [split|].
    + unfold kept in Hk. by apply Forall_app in Hk as [].
    + assert (Forall (fun f => complete (data f)) (frames (push_all ps) ++ new_frames (p_now1 p) (p_data p))) as Ha.
      { apply Forall_app. split; [apply Ht|]. unfold new_frames. pose proof (filter_complete _ Hp) as Hfc.
        destruct (filter_sensitive_instructions (p_data p)); [constructor|by constructor]. }
      destruct Hfr as [old Hold]. rewrite Hold in Ha. by apply Forall_app in Ha as [].
    + exists (lost ++ l2). split; [by rewrite Eh, E, <- !(assoc_L (++)), K|].
      intros Hr. apply Forall_app in Hr as [Hr [Hn _]%Forall_cons].
      assert (piece_bytes (history ps) <= piece_bytes (history (ps ++ [p]))) as Hle.
      { rewrite Eh, piece_bytes_app. pose proof (piece_bytes_nonneg (salvaged (filter_sensitive_instructions (p_data p)))). lia. }
      assert (lost = []) as ->.
      { apply Hall. eapply Forall_impl; [exact Hr|]. intros q Hq k. etrans; [exact Hle|apply Hq]. }
      apply C. intros k. etrans; [|apply (Hn k)]. by rewrite Eh, E.
Qed.

(** C11: What a joining viewer is sent, after the display size, is the newer end of the session's lasting drawing history without gaps, and all of it as long as the log has room, provided the ring holds nothing older than five minutes. *)
Theorem viewer_sees_history ps now : Forall (fun p => complete (p_data p)) ps -> fresh now (push_all ps) ->
  exists body, viewer_replay now (push_all ps) = option_list (last_size (push_all ps)) ++ body /\
    concat (salvaged <$> body) `suffix_of` history ps /\
    (roomy (piece_bytes (history ps)) ps -> concat (salvaged <$> body) = history ps).
Proof.
  intros Hc Hf. destruct (push_all_kept ps Hc) as (_ & Ht & lost & E & Hall).
  destruct (viewer_kept now _ Ht Hf) as (body & Eb & Ek). exists body. split; [done|]. rewrite Ek. split; [by exists lost|].
  intros Hr. by rewrite E, (Hall Hr).
Qed.

(** ** A viewer that joins misses nothing *)

Definition pushes (ss : list feed_step) : list pushed := omap (fun s => match s with FPush p => Some p | _ => None end) ss.

(** The frames of [ps] are in the buffer; a viewer joined after [h1] of them
    and its receiver got the rest, the last of [h1] included when it was not
    broadcast yet. *)
Definition joined (ps : list pushed) (st : Feed) (snap live : list bytes) : Prop :=
  exists h1 h2 now, ps = h1 ++ h2 /\ snap = viewer_replay now (push_all h1) /\
    (p_data <$> h2 = live ++ option_list (pending st) \/
     exists h p, h1 = h ++ [p] /\ p_data p :: (p_data <$> h2) = live ++ option_list (pending st)).

Definition feed_inv (ps : list pushed) (st : Feed) : Prop :=
  buf st = push_all ps /\
  (forall d, pending st = Some d -> exists h p, ps = h ++ [p] /\ p_data p = d) /\
  (forall snap live, viewer st = Some (snap, live) -> joined ps st snap live).

Lemma feed_step_inv ps st s st' : feed_inv ps st -> feed limit st s = Some st' -> feed_inv (ps ++ pushes [s]) st'.
Proof.
  intros (Hb & Hp & Hv) E. destruct s as [p| |now]; cbn [feed pushes omap list_omap] in *.
  - destruct (pending st) eqn:Epd; [done|]. injection E as <-. split_and!; cbn.
    + unfold push_all in *. rewrite foldl_app, Hb. done.
    + intros d [= <-]. eauto.
    + intros snap live Hs. destruct (Hv snap live Hs) as (h1 & h2 & now & -> & -> & Hl). rewrite Epd, app_nil_r in Hl.
      exists h1, (h2 ++ [p]), now. rewrite (assoc_L (++)). split; [done|]. split; [done|]. cbn [pending option_list].
      rewrite fmap_app. destruct Hl as [<-|(h & q & -> & <-)]; [by left|right; by exists h, q].
  - rewrite app_nil_r. destruct (pending st) as [d|] eqn:Epd; [|done]. injection E as <-. split_and!; cbn; [done|done|].
    intros snap live Hs. destruct (viewer st) as [[snap0 live0]|] eqn:Ev; [|done]. injection Hs as <- <-.
    destruct (Hv _ _ eq_refl) as (h1 & h2 & now & -> & -> & Hl). exists h1, h2, now. rewrite Epd in Hl. cbn [option_list pending] in *.
    rewrite app_nil_r. done.
  - rewrite app_nil_r. destruct (viewer st) eqn:Ev; [done|]. injection E as <-. split_and!; cbn; [done|done|].
    intros snap live [= <- <-]. exists ps, [], now. rewrite app_nil_r, Hb. split; [done|]. split; [done|]. cbn [pending fmap list_fmap app].
    destruct (pending st) as [d|] eqn:Epd; [|by left]. right. destruct (Hp d eq_refl) as (h & p & -> & <-). by exists h, p.
Qed.

Lemma feed_run_none ss : foldl (fun o s => o ≫= fun st => feed limit st s) None ss = None.
Proof. by induction ss. Qed.

Lemma feed_run_inv ss : forall ps st st', feed_inv ps st -> feed_run limit ss st = Some st' -> feed_inv (ps ++ pushes ss) st'.
Proof.
  induction ss as [|s ss IH]; intros ps st st' Hi; unfold feed_run; cbn [foldl].
  - intros [= <-]. by rewrite app_nil_r.
  - cbn [mbind option_bind]. destruct (feed limit st s) as [st1|] eqn:E; [|by rewrite feed_run_none].
    intros Hr. pose proof (IH _ _ _ (feed_step_inv _ _ _ _ Hi E) Hr) as H. rewrite <- (assoc_L (++)) in H.
    replace (pushes (s :: ss)) with (pushes [s] ++ pushes ss) by (by destruct s). done.
Qed.

End history.
End Viewers.

(** ** The registry of live sessions *)

Module Sessions.

Definition MAX_SESSIONS : nat := 500.
Definition BROADCAST_CAPACITY : Z := 8192.

(** The atomics, the kill channel ([kill] while its sender is there) and the
    end flag of a session; its buffer is in [Nvr] and its room in [CoPilot]. *)
Record ActiveSession : Type := mk_session {
  session_id : bytes; connection_id : Z; protocol : bytes; user_id : Z;
  bytes_down : Z; bytes_up : Z; kill : bool; ended_flag : bool }.

Abbreviation SessionRegistry := (gmap bytes ActiveSession).

(** [register]: the count and the insertion are one critical section. *)
Definition register (session_id : bytes) (connection_id : Z) (protocol : bytes) (user_id : Z) (m : SessionRegistry) :
    SessionRegistry * bool :=
  if (MAX_SESSIONS <=? size m)%nat then (m, false)
  else (<[session_id := mk_session session_id connection_id protocol user_id 0 0 true false]> m, true).

Definition unregister (session_id : bytes) (m : SessionRegistry) : SessionRegistry := delete session_id m.

(** [find_by_connection_and_user]; [values] is the map's iteration. *)
Definition find_by_connection_and_user (connection user : Z) (values : list ActiveSession) : option ActiveSession :=
  head (filter (fun s => connection_id s = connection /\ user_id s = user) values).

Definition take_kill (s : ActiveSession) : ActiveSession :=
  mk_session (session_id s) (connection_id s) (protocol s) (user_id s) (bytes_down s) (bytes_up s) false (ended_flag s).

(** [terminate]: the signal is sent once. *)
Definition terminate (session_id : bytes) (m : SessionRegistry) : SessionRegistry * bool :=
  match m !! session_id with
  | Some s => if kill s then (<[session_id := take_kill s]> m, true) else (m, false)
  | None => (m, false)
  end.

Definition mark_ended (s : ActiveSession) : ActiveSession :=
  mk_session (session_id s) (connection_id s) (protocol s) (user_id s) (bytes_down s) (bytes_up s) (kill s) true.

(** [fetch_add] of what was sent and received. *)
Definition add_bytes (down up : Z) (s : ActiveSession) : ActiveSession :=
  mk_session (session_id s) (connection_id s) (protocol s) (user_id s)
    (wrap_u 64 (bytes_down s + down)) (wrap_u 64 (bytes_up s + up)) (kill s) (ended_flag s).

(** The end of a session in [finalize_session]: its own handle is marked,
    then the registry forgets it. *)
Definition finalize (session_id : bytes) (m : SessionRegistry) : SessionRegistry :=
  unregister session_id (alter mark_ended session_id m).

Record Metrics : Type := mk_metrics {
  active_sessions : Z; total_bytes_down : Z; total_bytes_up : Z; sessions_by_protocol : gmap bytes Z }.

Definition add_metrics (a : Metrics) (s : ActiveSession) : Metrics :=
  mk_metrics (active_sessions a) (wrap_u 64 (total_bytes_down a + bytes_down s)) (wrap_u 64 (total_bytes_up a + bytes_up s))
    (<[protocol s := wrap_u 32 (default 0 (sessions_by_protocol a !! protocol s) + 1)]> (sessions_by_protocol a)).

Definition metrics (m : SessionRegistry) (values : list ActiveSession) : Metrics :=
  foldl add_metrics (mk_metrics (wrap_u 32 (Z.of_nat (size m))) 0 0 ∅) values.

Inductive CapacityLimit : Type := Cpu | Memory.

Definition recommended_capacity (by_cpu by_memory : Z) : Z * CapacityLimit :=
  if by_memory <? by_cpu then (Z.max by_memory 1, Memory) else (Z.max by_cpu 1, Cpu).

Inductive op : Type :=
| ORegister (id : bytes) (connection : Z) (protocol : bytes) (user : Z)
| OBytes (id : bytes) (down up : Z)
| OTerminate (id : bytes)
| OFinalize (id : bytes).

Definition step (m : SessionRegistry) (o : op) : SessionRegistry * bool :=
  match o with
  | ORegister id c p u => register id c p u m
  | OBytes id down up => (alter (add_bytes down up) id m, true)
  | OTerminate id => terminate id m
  | OFinalize id => (finalize id m, true)
  end.

Definition run (os : list op) (m : SessionRegistry) : SessionRegistry := foldl (fun m o => fst (step m o)) m os.

(** Keys are the sessions' own ids and there are at most [MAX_SESSIONS]. *)
Definition keyed (m : SessionRegistry) : Prop :=
  (size m <= MAX_SESSIONS)%nat /\ map_Forall (fun id s => session_id s = id) m.

Lemma alter_keyed f id m : (forall s, session_id (f s) = session_id s) -> keyed m -> keyed (alter f id m).
Proof.
  intros Hf [Hs Hk]. split.
  - rewrite <- size_dom, dom_alter_L, size_dom. done.
  - intros k s. destruct (decide (k = id)) as [->|Hn].
    + rewrite lookup_alter_eq. destruct (m !! id) as [s0|] eqn:E; [|done]. intros [= <-]. rewrite Hf. exact (Hk _ _ E).
    + rewrite lookup_alter_ne by done. apply Hk.
Qed.

Lemma session_step_keyed m o : keyed m -> keyed (fst (step m o)).
Proof.
  intros Hk. destruct o as [id c p u|id d u|id|id]; cbn [step fst].
  - unfold register. case_test; [done|]. b2p. destruct Hk as [Hs Hk]. split; cbn [fst].
    + rewrite map_size_insert. case_match; unfold Datatypes.id; lia.
    + by apply map_Forall_insert_2.
  - by apply alter_keyed.
  - unfold terminate. destruct (m !! id) as [s|] eqn:E; [|done]. case_test; [|done]. cbn [fst]. destruct Hk as [Hs Hk]. split.
    + by rewrite map_size_insert_Some by eauto.
    + apply map_Forall_insert_2; [exact (Hk _ _ E)|done].
  - unfold finalize, unregister. destruct (alter_keyed mark_ended id m ltac:(done) Hk) as [Hs Ha]. split.
    + rewrite map_size_delete. case_match; unfold Datatypes.id; lia.
    + by apply map_Forall_delete.
Qed.

Lemma session_run_keyed os m : keyed m -> keyed (run os m).
Proof. revert m. induction os as [|o os IH]; intros m Hk; [done|]. by apply IH, session_step_keyed. Qed.

(** The kill signal of one registration goes out once. *)
Lemma terminate_once id os m m' : terminate id m = (m', true) -> Forall (fun o => match o with ORegister id' _ _ _ => id' <> id | _ => True end) os ->
  snd (terminate id (run os m')) = false.
Proof.
  unfold terminate at 1. destruct (m !! id) as [s|] eqn:E; [|done]. destruct (kill s); [|done]. intros [= <-].
  assert (from_option (fun s => kill s = false) True ((<[id := take_kill s]> m : SessionRegistry) !! id)) as H0 by (by rewrite lookup_insert_eq).
  revert H0. generalize ((<[id := take_kill s]> m : SessionRegistry)). intros n Hn Hos. revert n Hn.
  induction Hos as [|o os Ho _ IH]; intros n Hn; cbn [run foldl].
  - unfold terminate. destruct (n !! id) as [s1|]; [|done]. cbn in Hn. by rewrite Hn.
  - apply IH. destruct o as [id' c p u|id' d u|id'|id']; cbn [step fst].
    + unfold register. case_test; [done|]. cbn [fst]. by rewrite lookup_insert_ne.
    + destruct (decide (id' = id)) as [->|]; [|by rewrite lookup_alter_ne]. rewrite lookup_alter_eq. by destruct (n !! id).
    + unfold terminate. destruct (n !! id') as [s1|] eqn:E1; [|done]. case_test; [|done]. cbn [fst].
      destruct (decide (id' = id)) as [->|]; [by rewrite lookup_insert_eq|by rewrite lookup_insert_ne].
    + unfold finalize, unregister. destruct (decide (id' = id)) as [->|]; [by rewrite lookup_delete_eq|].
      by rewrite lookup_delete_ne, lookup_alter_ne.
Qed.
End Sessions.

Module ReplayExamples.
Import Reference Nvr Viewers.

(** A buffer pushed to at [t] seconds while [n] buffers are live. *)
Definition at_ (t n : Z) (d : bytes) : pushed := mk_pushed (fun _ => n) (t * SECOND) (t * SECOND) n d.

Definition screen : bytes := str "4.size,1.0,2.80,2.24;4.rect,1.0,1.0;4.sync,1.1;".

Definition ready : GuacInstruction := mk_instruction (str "ready") [str "$a"].
Definition secret : GuacInstruction := mk_instruction (str "connect") [str "host"; str "hunter2"].

Lemma wf_short v : utf8_valid v = true -> Z.of_nat (char_count v) <= MAX_ELEMENT_CHARS -> wf_element v.
Proof. by split. Qed.

Lemma ready_secret : Forall plain [ready; secret].
Proof.
  repeat apply Forall_cons_2; try apply Forall_nil_2; (split; [split; [|split]|split; [|split]]);
    try (apply wf_short; by vm_compute); try (apply Nat.ltb_lt; by vm_compute);
    try (by apply (bool_decide_unpack _); vm_compute);
    repeat apply Forall_cons_2; try apply Forall_nil_2;
    first [apply wf_short; by vm_compute | by apply (bool_decide_unpack _); vm_compute].
Qed.

Lemma filter_exact_witness :
  filter_sensitive_instructions (str "5.ready,2.$a;7.connect,4.host,7.hunter2;") = str "5.ready,2.$a;".
Proof. exact (filter_exact [ready; secret] ready_secret). Defined.

(** The filter cuts at every [';'], so of a connect instruction whose
    password has one the rest stays in the buffer. *)
Lemma password_tail_kept :
  filter_sensitive_instructions (instruction_encode (mk_instruction (str "connect") [str "root"; str "pa;hunter2"]) []) = str "hunter2;".
Proof. by vm_compute. Qed.

(** Any text with [".size,"] in it passes for the display size. *)
Lemma title_taken_for_size :
  last_size (push_all (1024 * MIB) [at_ 0 1 screen; at_ 1 1 (instruction_encode (mk_instruction (str "name") [str "a.size,b"]) [])]) =
    Some (str "4.name,8.a.size,b;").
Proof. by vm_compute. Qed.

Definition session : list pushed := [at_ 0 1 screen; at_ 5 1 (str "4.sync,1.2;"); at_ 200 1 (str "4.copy,1.0;")].

Lemma viewer_sees_history_witness :
  exists body, viewer_replay (210 * SECOND) (push_all (1024 * MIB) session) = option_list (last_size (push_all (1024 * MIB) session)) ++ body /\
    concat (salvaged <$> body) `suffix_of` history session /\
    (roomy (1024 * MIB) (piece_bytes (history session)) session -> concat (salvaged <$> body) = history session).
Proof.
  apply (viewer_sees_history (1024 * MIB) ltac:(by vm_compute) session (210 * SECOND)).
  - repeat apply Forall_cons_2; try apply Forall_nil_2; right; cbn [p_data at_]; unfold screen.
    + exists (str "4.size,1.0,2.80,2.24;4.rect,1.0,1.0;4.sync,1.1"). by vm_compute.
    + exists (str "4.sync,1.2"). by vm_compute.
    + exists (str "4.copy,1.0"). by vm_compute.
  - vm_compute. repeat constructor; done.
Defined.

(** A frame that turned five minutes old since the last push is in the ring
    but selected no more, and not in the log yet: a viewer that joins then
    misses it. *)
Lemma aged_frames_missing :
  viewer_replay (303 * SECOND) (push_all (1024 * MIB) [at_ 0 1 screen; at_ 299 1 (str "4.sync,1.2;")]) =
    [str "4.size,1.0,2.80,2.24;"; str "4.sync,1.2;"] /\
  kept (push_all (1024 * MIB) [at_ 0 1 screen; at_ 299 1 (str "4.sync,1.2;")]) = [str "4.size,1.0,2.80,2.24;"; str "4.rect,1.0,1.0;"].
Proof. by vm_compute. Qed.

(** The buffer is written before the broadcast, so a viewer that joins in
    between gets the frame twice. *)
Definition joins_between : list feed_step := [FPush (at_ 0 1 screen); FJoin SECOND; FSend].

Definition joined_state : Feed :=
  mk_feed (push_all (1024 * MIB) [at_ 0 1 screen]) None
    (Some (viewer_replay SECOND (push_all (1024 * MIB) [at_ 0 1 screen]), [screen])).


(** Three buffers under a budget of 52 bytes: each was within its share when
    it was pushed to, together they hold more than the budget. *)
Definition fill (id n : Z) (d : bytes) : op := OPush id (fun _ => n) 0 0 n d.

Definition crowd : list op :=
  [ONew 1; fill 1 1 (str "4.rect,2.10,2.10,2.20,2.20,3.end;"); ONew 2; fill 2 2 (str "4.rect,2.10,2.10;"); ONew 3; fill 3 3 (str "4.rect,1.1;")].

Lemma budget_exceeded : used (budget (run 52 crowd)) = 61.
Proof. by vm_compute. Qed.


(** The notice a viewer gets when the owner's session ends does not parse. *)
Lemma end_notice_malformed : try_parse_instruction (str "0.10.disconnect;") = Err Malformed.
Proof. by vm_compute. Qed.
End ReplayExamples.
