(* ===== verification/FileCrypto.v ===== *)
(** * Chunked encryption of staged files

    [backend/src/services/file_crypto.rs].  A file is its bytes; the cipher is
    the interface [StreamCipher], which stands for AES-256-GCM under the
    STREAM construction of the aead crate.  An I/O error ends each function
    with that error and is not shown.

    What is read back is what was written; verifying a file and streaming it
    agree; and whatever file stands in the place of a sealed one, the stream
    yields only leading chunks of the sealed plaintext and ends well only on
    the sealed file itself, unless someone forged a chunk. *)

From S2P Require Import Prelude Machine Text Crates.

Local Open Scope Z_scope.

(** The key, the nonce prefix, the position of a chunk, the last-chunk flag
    and the associated data determine how a chunk is sealed; opening recovers
    the chunk and accepts nothing but its seal. *)
Class StreamCipher := {
  chunk_seal : bytes -> bytes -> Z -> bool -> bytes -> bytes -> bytes;
  chunk_open : bytes -> bytes -> Z -> bool -> bytes -> bytes -> option bytes;
  chunk_open_seal key prefix pos last aad m :
    chunk_open key prefix pos last aad (chunk_seal key prefix pos last aad m) = Some m;
  chunk_open_only key prefix pos last aad c m :
    chunk_open key prefix pos last aad c = Some m -> c = chunk_seal key prefix pos last aad m;
  chunk_seal_length key prefix pos last aad m :
    length (chunk_seal key prefix pos last aad m) = (length m + 16)%nat
}.

(** The 32-bit position of BE32; its last value is never used. *)
Definition COUNTER_MAX : Z := u32_max.

Definition MAGIC : bytes := str "STRATAF" ++ [2].
Definition CHUNK : nat := Z.to_nat 65536.
Definition MAX_CHUNK : Z := 1024 * 1024.
Definition TAG : nat := 16.
Definition PREFIX : nat := 7.
Definition HEADER_LEN : nat := (length MAGIC + 4 + PREFIX)%nat.
Definition KEY_LEN : nat := 32.

Inductive CryptoError : Type :=
| NotFound
| AlreadyExists
| FileTooLarge
| UnexpectedEof
| InvalidData (msg : bytes).

Record Sealed : Type := mk_sealed { s_size : Z; s_sha256 : bytes }.

Section crypto.
Context `{StreamCipher} `{Sha256}.

Definition cipher (key : bytes) : result CryptoError bytes :=
  if (length key =? KEY_LEN)%nat then Ok key else Err (InvalidData (str "file key must be 32 bytes")).

Definition associated_data (header file_id : bytes) : bytes := header ++ file_id.

Definition header_of (prefix : bytes) : bytes := MAGIC ++ u32_to_be (Z.of_nat CHUNK) ++ prefix.
#[global] Arguments header_of : simpl never.

(** What [read_up_to] appends, and what it leaves. *)
Definition ahead_of (n : nat) (buf rest : bytes) : bytes := if (length buf =? n)%nat then take n rest else [].
Definition rest_of (n : nat) (buf rest : bytes) : bytes := if (length buf =? n)%nat then drop n rest else rest.

(** The loop of [write_sealed]: what it appends and the size it counted. *)
Fixpoint seal_loop (fuel : nat) (key prefix aad : bytes) (max pos : Z) (buf rest : bytes) (size : Z) :
    result CryptoError (bytes * Z) :=
  match fuel with
  | O => Err (InvalidData [])
  | S f =>
      let size := size + Z.of_nat (length buf) in
      if max <? size then Err FileTooLarge
      else match ahead_of CHUNK buf rest with
           | [] => Ok (chunk_seal key prefix pos true aad buf, size)
           | ahead =>
               if pos =? COUNTER_MAX then Err (InvalidData (str "encryption failed"))
               else '(out, size) ← seal_loop f key prefix aad max (pos + 1) ahead (rest_of CHUNK buf rest) size;
                    Ok (chunk_seal key prefix pos false aad buf ++ out, size)
           end
  end.

(** [write_sealed]: the file written; [prefix] is the random draw. *)
Definition write_sealed (input prefix key file_id : bytes) (max : Z) : result CryptoError (bytes * Sealed) :=
  let header := header_of prefix in
  key ← cipher key;
  '(out, size) ← seal_loop (S (length input)) key prefix (associated_data header file_id) max 0
                   (take CHUNK input) (drop CHUNK input) 0;
  Ok (header ++ out, mk_sealed size (hex_text (sha256 input))).

(** [encrypt_file]; [fs] holds the paths that exist. *)
Definition encrypt_file (fs : gmap bytes bytes) (src dst prefix key file_id : bytes) (max : Z) :
    gmap bytes bytes * result CryptoError Sealed :=
  match fs !! src with
  | None => (fs, Err NotFound)
  | Some input =>
      match fs !! dst with
      | Some _ => (fs, Err AlreadyExists)
      | None =>
          match write_sealed input prefix key file_id max with
          | Ok (out, s) => (<[dst := out]> fs, Ok s)
          | Err e => (delete dst fs, Err e)
          end
      end
  end.

Record Opened : Type := mk_opened { o_key : bytes; o_prefix : bytes; o_aad : bytes; o_frame : nat }.

Definition open (header key file_id : bytes) : result CryptoError Opened :=
  if bool_decide (take (length MAGIC) header = MAGIC) then
    let chunk := u32_from_be (take 4 (drop (length MAGIC) header)) in
    if (chunk =? 0) || (MAX_CHUNK <? chunk) then Err (InvalidData (str "bad chunk size"))
    else
      key ← cipher key;
      Ok (mk_opened key (drop (length MAGIC + 4) header) (associated_data header file_id) (Z.to_nat chunk + TAG))
  else Err (InvalidData (str "not an encrypted file of a known format")).

Definition tampered : CryptoError := InvalidData (str "encrypted file failed authentication").

(** [open] after the [read_exact] of the header, and what follows it. *)
Definition open_file (file key file_id : bytes) : result CryptoError (Opened * bytes) :=
  if (length file <? HEADER_LEN)%nat then Err UnexpectedEof
  else o ← open (take HEADER_LEN file) key file_id; Ok (o, drop HEADER_LEN file).

(** The loop of [verify_file]: the plaintext bytes counted. *)
Fixpoint verify_loop (fuel : nat) (o : Opened) (pos : Z) (buf rest : bytes) (size : Z) : result CryptoError Z :=
  match fuel with
  | O => Err tampered
  | S f =>
      match ahead_of (o_frame o) buf rest with
      | [] =>
          m ← ok_or (chunk_open (o_key o) (o_prefix o) pos true (o_aad o) buf) tampered;
          Ok (size + Z.of_nat (length m))
      | ahead =>
          if pos =? COUNTER_MAX then Err tampered
          else
            m ← ok_or (chunk_open (o_key o) (o_prefix o) pos false (o_aad o) buf) tampered;
            verify_loop f o (pos + 1) ahead (rest_of (o_frame o) buf rest) (size + Z.of_nat (length m))
      end
  end.

Definition verify_file (file key file_id : bytes) (expected_size : Z) : result CryptoError unit :=
  '(o, body) ← open_file file key file_id;
  size ← verify_loop (S (length body)) o 0 (take (o_frame o) body) (drop (o_frame o) body) 0;
  if size =? expected_size then Ok tt else Err (InvalidData (str "encrypted file has the wrong length")).

(** The stream of [decrypt_stream]: the chunks it yields and how it ends. *)
Fixpoint stream_loop (fuel : nat) (o : Opened) (pos : Z) (buf rest : bytes) : list bytes * option CryptoError :=
  match fuel with
  | O => ([], Some tampered)
  | S f =>
      match ahead_of (o_frame o) buf rest with
      | [] =>
          match chunk_open (o_key o) (o_prefix o) pos true (o_aad o) buf with
          | Some m => ([m], None)
          | None => ([], Some tampered)
          end
      | ahead =>
          if pos =? COUNTER_MAX then ([], Some tampered)
          else match chunk_open (o_key o) (o_prefix o) pos false (o_aad o) buf with
               | Some m => let '(ms, e) := stream_loop f o (pos + 1) ahead (rest_of (o_frame o) buf rest) in (m :: ms, e)
               | None => ([], Some tampered)
               end
      end
  end.

Definition decrypt_stream (file key file_id : bytes) : result CryptoError (list bytes * option CryptoError) :=
  '(o, body) ← open_file file key file_id;
  Ok (stream_loop (S (length body)) o 0 (take (o_frame o) body) (drop (o_frame o) body)).

(** ** Sealed bodies *)

(** All chunks but the last have [n] bytes. *)
Fixpoint chunked (n : nat) (cs : list bytes) : Prop :=
  match cs with
  | [] => False
  | [c] => (length c <= n)%nat
  | c :: r => length c = n /\ chunked n r
  end.

Fixpoint seal_all (key prefix aad : bytes) (pos : Z) (cs : list bytes) : bytes :=
  match cs with
  | [] => []
  | [c] => chunk_seal key prefix pos true aad c
  | c :: r => chunk_seal key prefix pos false aad c ++ seal_all key prefix aad (pos + 1) r
  end.

Lemma seal_all_length key prefix aad pos cs : cs <> [] -> (16 <= length (seal_all key prefix aad pos cs))%nat.
Proof.
  destruct cs as [|c [|d r]]; intros Hne; cbn [seal_all]; [done|..]; rewrite ?length_app, chunk_seal_length; lia.
Qed.

Lemma ahead_split n (s : bytes) : ahead_of n (take n s) (drop n s) = take n (drop n s) /\ rest_of n (take n s) (drop n s) = drop n (drop n s).
Proof.
  unfold ahead_of, rest_of. rewrite length_take. case_match; b2p; [done|].
  rewrite (drop_ge s n) by lia. by rewrite take_nil, drop_nil.
Qed.

(** Sealing is total within the bounds, and seals the chunks of the input. *)
Lemma seal_loop_spec key prefix aad max : forall fuel pos s size, (length s < fuel)%nat ->
  size + Z.of_nat (length s) <= max -> pos + Z.of_nat (length s) <= COUNTER_MAX ->
  exists cs, seal_loop fuel key prefix aad max pos (take CHUNK s) (drop CHUNK s) size =
      Ok (seal_all key prefix aad pos cs, size + Z.of_nat (length s)) /\ chunked CHUNK cs /\ concat cs = s.
Proof.
  induction fuel as [|f IH]; intros pos s size Hf Hm Hp; [lia|]. cbn [seal_loop].
  pose proof (take_drop CHUNK s) as Hs. assert (length s = length (take CHUNK s) + length (drop CHUNK s))%nat as Hl by (rewrite <- length_app; by rewrite Hs).
  take_false (max <? size + Z.of_nat (length (take CHUNK s))). destruct (ahead_split CHUNK s) as [-> ->].
  destruct (drop CHUNK s) as [|x r] eqn:Ed.
  - rewrite take_nil. exists [take CHUNK s]. cbn [seal_all chunked concat]. rewrite app_nil_r in *. rewrite Hs, <- Hs at 1.
    split; [by rewrite Hs|]. split; [rewrite length_take; lia|]. done.
  - assert (0 < CHUNK)%nat by (apply Nat.ltb_lt; by vm_compute).
    destruct (take CHUNK (x :: r)) as [|y t] eqn:Et; [destruct CHUNK; [lia|done]|]. rewrite <- Et, <- Ed in *.
    assert (length (take CHUNK s) = CHUNK) as Hc.
    { rewrite length_take. apply (f_equal length) in Ed. rewrite length_drop in Ed. cbn in Ed. lia. }
    assert (0 < length (take CHUNK s))%nat by lia.
    take_false (pos =? COUNTER_MAX).
    destruct (IH (pos + 1) (drop CHUNK s) (size + Z.of_nat (length (take CHUNK s)))) as (cs & -> & Hcs & Econ); [lia..|].
    exists (take CHUNK s :: cs). cbn [mbind result_bind]. destruct cs as [|c cs']; [done|]. cbn [seal_all chunked].
    split; [f_equal; f_equal; lia|]. split; [done|]. cbn [concat] in *. by rewrite Econ.
Qed.

Lemma ahead_frame n (c r : bytes) : length c = n -> ahead_of n (take n (c ++ r)) (drop n (c ++ r)) = take n r /\
  rest_of n (take n (c ++ r)) (drop n (c ++ r)) = drop n r /\ take n (c ++ r) = c.
Proof.
  intros <-. destruct (ahead_split (length c) (c ++ r)) as [-> ->]. by rewrite take_app_length, drop_app_length.
Qed.

(** The part of a stream that a rest of the file can still produce. *)
Lemma stream_loop_seal o n : o_frame o = (n + TAG)%nat -> forall cs pos fuel, chunked n cs ->
  pos + Z.of_nat (length cs) <= COUNTER_MAX + 1 -> (length cs <= fuel)%nat ->
  let s := seal_all (o_key o) (o_prefix o) (o_aad o) pos cs in
  stream_loop fuel o pos (take (o_frame o) s) (drop (o_frame o) s) = (cs, None).
Proof.
  intros Hn. induction cs as [|c cs IH]; intros pos fuel Hc Hp Hf s; [done|].
  destruct fuel as [|f]; [cbn in Hf; lia|]. cbn [stream_loop].
  assert (0 < o_frame o)%nat by (rewrite Hn; unfold TAG; lia).
  destruct cs as [|d cs'].
  - cbn [chunked] in Hc. subst s. cbn [seal_all]. set (x := chunk_seal _ _ _ _ _ _).
    assert (length x <= o_frame o)%nat by (unfold x; rewrite chunk_seal_length, Hn; unfold TAG; lia).
    destruct (ahead_split (o_frame o) x) as [-> _]. rewrite (drop_ge x), take_nil, take_ge by lia. unfold x. by rewrite chunk_open_seal.
  - destruct Hc as [Hl Hc]. subst s. set (t := seal_all (o_key o) (o_prefix o) (o_aad o) (pos + 1) (d :: cs')).
    change (seal_all _ _ _ pos (c :: d :: cs')) with (chunk_seal (o_key o) (o_prefix o) pos false (o_aad o) c ++ t).
    destruct (ahead_frame (o_frame o) (chunk_seal (o_key o) (o_prefix o) pos false (o_aad o) c) t) as (-> & -> & ->).
    { rewrite chunk_seal_length, Hn, Hl. done. }
    assert (16 <= length t)%nat by (by apply seal_all_length).
    destruct (take (o_frame o) t) as [|y r] eqn:Et.
    { exfalso. apply (f_equal length) in Et. rewrite length_take in Et. cbn [length] in Et. lia. }
    rewrite <- Et. cbn [length] in Hp. take_false (pos =? COUNTER_MAX). rewrite chunk_open_seal.
    unfold t. rewrite IH; [done|done|cbn [length]; lia|cbn [length] in *; lia].
Qed.

(** A stream that ends well read exactly the seal of what it yielded. *)
Lemma stream_loop_sound o n : o_frame o = (n + TAG)%nat -> forall fuel pos s cs,
  stream_loop fuel o pos (take (o_frame o) s) (drop (o_frame o) s) = (cs, None) ->
  s = seal_all (o_key o) (o_prefix o) (o_aad o) pos cs /\ chunked n cs.
Proof.
  intros Hn. induction fuel as [|f IH]; intros pos s cs; cbn [stream_loop]; [done|].
  destruct (ahead_split (o_frame o) s) as [-> ->]. pose proof (take_drop (o_frame o) s) as Hs.
  assert (0 < o_frame o)%nat by (rewrite Hn; unfold TAG; lia).
  destruct (take (o_frame o) (drop (o_frame o) s)) as [|y r] eqn:Et.
  - destruct (chunk_open _ _ _ _ _ _) as [m|] eqn:Eo; [|done]. intros [= <-].
    assert (drop (o_frame o) s = []) as Ed.
    { destruct (drop (o_frame o) s); [done|]. by destruct (o_frame o); [lia|]. }
    rewrite Ed, app_nil_r in Hs. rewrite Hs in Eo. apply chunk_open_only in Eo. cbn [seal_all chunked]. split; [done|].
    apply (f_equal length) in Hs. rewrite length_take, Eo, chunk_seal_length in Hs. unfold TAG in Hn. lia.
  - rewrite <- Et. destruct (pos =? COUNTER_MAX); [done|]. destruct (chunk_open _ _ _ _ _ _) as [m|] eqn:Eo; [|done].
    destruct (stream_loop f o (pos + 1) _ _) as [ms e] eqn:El. intros [= <- ->]. apply IH in El as [El Hc].
    apply chunk_open_only in Eo. destruct ms as [|d ms']; [done|].
    change (seal_all _ _ _ pos (m :: d :: ms')) with (chunk_seal (o_key o) (o_prefix o) pos false (o_aad o) m ++ seal_all (o_key o) (o_prefix o) (o_aad o) (pos + 1) (d :: ms')).
    rewrite <- El, <- Eo. split; [done|]. split; [|done].
    apply (f_equal length) in Eo. rewrite chunk_seal_length, length_take in Eo. apply (f_equal length) in Et. rewrite length_take, length_drop in Et. cbn [length] in Et.
    unfold TAG in Hn. lia.
Qed.

Definition total (ms : list bytes) : Z := Z.of_nat (length (concat ms)).

(** Verification is the stream with its chunks counted. *)
Lemma verify_is_stream o : forall fuel pos buf rest size,
  verify_loop fuel o pos buf rest size =
  match stream_loop fuel o pos buf rest with (ms, None) => Ok (size + total ms) | (_, Some _) => Err tampered end.
Proof.
  induction fuel as [|f IH]; intros pos buf rest size; cbn [verify_loop stream_loop]; [done|].
  destruct (ahead_of _ _ _) as [|y r].
  - destruct (chunk_open _ _ _ _ _ _) as [m|]; [|done]. cbn. unfold total. cbn [concat]. by rewrite app_nil_r.
  - destruct (pos =? COUNTER_MAX); [done|]. destruct (chunk_open _ _ _ _ _ _) as [m|]; [|done]. cbn [ok_or mbind result_bind].
    rewrite IH. destruct (stream_loop f o _ _ _) as [ms [e|]]; [done|]. f_equal. unfold total. cbn [concat]. rewrite length_app. lia.
Qed.

Lemma verify_streamed file key file_id n :
  verify_file file key file_id n = Ok tt <->
  exists ms, decrypt_stream file key file_id = Ok (ms, None) /\ total ms = n.
Proof.
  unfold verify_file, decrypt_stream. destruct (open_file file key file_id) as [[o body]|e]; cbn [mbind result_bind]; [|by split; [|intros (? & ? & _)]].
  rewrite verify_is_stream. destruct (stream_loop _ o _ _ _) as [ms [e|]]; cbn [mbind result_bind].
  - split; [done|]. by intros (? & ? & _).
  - rewrite Z.add_0_l. destruct (total ms =? n) eqn:E; b2p; split; try done; [intros _; by exists ms|].
    intros (ms' & [= <-] & ?). done.
Qed.

(** A staged file that passes verification is streamed to its end without an error, and the stream has exactly the size that was verified; nothing else passes. *)
Lemma verified_streams file key file_id n :
  verify_file file key file_id n = Ok tt <->
  exists ms, decrypt_stream file key file_id = Ok (ms, None) /\ total ms = n.
Proof. apply verify_streamed. Qed.

(** ** Opening the header of a sealed file *)

Definition chunk_size_bytes : bytes := u32_to_be (Z.of_nat CHUNK).

Lemma header_length prefix : length prefix = PREFIX -> length (header_of prefix) = HEADER_LEN.
Proof. intros Hp. unfold header_of. rewrite !length_app, Hp. done. Qed.

Lemma open_sealed prefix key file_id body : length prefix = PREFIX -> length key = KEY_LEN ->
  open_file (header_of prefix ++ body) key file_id =
  Ok (mk_opened key prefix (associated_data (header_of prefix) file_id) (CHUNK + TAG), body).
Proof.
  intros Hp Hk. unfold open_file. rewrite length_app, header_length by done. take_false (HEADER_LEN + length body <? HEADER_LEN)%nat.
  rewrite <- (header_length prefix Hp), take_app_length, drop_app_length. unfold open.
  assert (take (length MAGIC) (header_of prefix) = MAGIC) as -> by done. rewrite bool_decide_true by done.
  assert (u32_from_be (take 4 (drop (length MAGIC) (header_of prefix))) = Z.of_nat CHUNK) as -> by (by vm_compute).
  assert ((Z.of_nat CHUNK =? 0) || (MAX_CHUNK <? Z.of_nat CHUNK) = false) as -> by (by vm_compute).
  unfold cipher. rewrite Hk, Nat.eqb_refl. cbn [mbind result_bind]. rewrite Nat2Z.id.
  assert (drop (length MAGIC + 4) (header_of prefix) = prefix) as -> by done. done.
Qed.

Lemma chunked_count n cs : (0 < n)%nat -> chunked n cs -> (length cs <= S (length (concat cs)))%nat.
Proof.
  intros Hn. induction cs as [|c cs IH]; intros Hc; [done|]. destruct cs as [|d r]; [cbn; lia|]. destruct Hc as [Hl Hc].
  apply IH in Hc. cbn [length] in *. change (concat (c :: d :: r)) with (c ++ concat (d :: r)). rewrite length_app. lia.
Qed.

Lemma seal_all_fuel key prefix aad pos cs : (length cs <= length (seal_all key prefix aad pos cs))%nat.
Proof.
  revert pos. induction cs as [|c cs IH]; intros pos; [done|]. destruct cs as [|d r].
  - cbn [seal_all length]. rewrite chunk_seal_length. lia.
  - specialize (IH (pos + 1)). cbn [length] in *.
    change (seal_all key prefix aad pos (c :: d :: r)) with (chunk_seal key prefix pos false aad c ++ seal_all key prefix aad (pos + 1) (d :: r)).
    rewrite length_app, chunk_seal_length. lia.
Qed.

(** The seal of an input, as a closed expression. *)
Lemma write_sealed_spec input prefix key file_id max : length key = KEY_LEN ->
  Z.of_nat (length input) <= max -> Z.of_nat (length input) <= COUNTER_MAX ->
  exists cs, chunked CHUNK cs /\ concat cs = input /\
    write_sealed input prefix key file_id max =
      Ok (header_of prefix ++ seal_all key prefix (associated_data (header_of prefix) file_id) 0 cs,
          mk_sealed (Z.of_nat (length input)) (hex_text (sha256 input))).
Proof.
  intros Hk Hm Hp.
  destruct (seal_loop_spec key prefix (associated_data (header_of prefix) file_id) max (S (length input)) 0 input 0) as (cs & E & Hc & Econ); [lia..|].
  exists cs. split; [done|]. split; [done|]. unfold write_sealed, cipher. rewrite Hk, Nat.eqb_refl. cbn [mbind result_bind].
  rewrite E. done.
Qed.

(** Every input within the limits is sealed, its size and digest are reported, and verifying and streaming the sealed file under the same key and id give the input back. *)
Lemma file_roundtrip input prefix key file_id max : length prefix = PREFIX -> length key = KEY_LEN ->
  Z.of_nat (length input) <= max -> max < COUNTER_MAX ->
  exists file ms, write_sealed input prefix key file_id max = Ok (file, mk_sealed (Z.of_nat (length input)) (hex_text (sha256 input))) /\
    verify_file file key file_id (Z.of_nat (length input)) = Ok tt /\
    decrypt_stream file key file_id = Ok (ms, None) /\ concat ms = input.
Proof.
  intros Hpre Hk Hm Hmax. destruct (write_sealed_spec input prefix key file_id max) as (cs & Hc & Econ & Ew); [done|lia..|].
  eexists _, cs. split; [exact Ew|].
  assert (decrypt_stream (header_of prefix ++ seal_all key prefix (associated_data (header_of prefix) file_id) 0 cs) key file_id = Ok (cs, None)) as Ed.
  { unfold decrypt_stream. rewrite open_sealed by done. cbn [mbind result_bind]. f_equal.
    apply (stream_loop_seal (mk_opened key prefix (associated_data (header_of prefix) file_id) (CHUNK + TAG)) CHUNK); [done|done|..].
    - assert (0 < CHUNK)%nat by (apply Nat.ltb_lt; by vm_compute). pose proof (chunked_count CHUNK cs ltac:(done) Hc) as Hn. rewrite Econ in Hn. lia.
    - cbn [o_key o_prefix o_aad]. pose proof (seal_all_fuel key prefix (associated_data (header_of prefix) file_id) 0 cs). lia. }
  split; [|done]. apply verify_streamed. exists cs. split; [done|]. unfold total. by rewrite Econ.
Qed.

(** ** Files that were tampered with *)

(** What sealing a body passed to the cipher. *)
Fixpoint sealed_frames (pos : Z) (cs : list bytes) : list (Z * bool * bytes) :=
  match cs with
  | [] => []
  | [c] => [(pos, true, c)]
  | c :: r => (pos, false, c) :: sealed_frames (pos + 1) r
  end.

Lemma sealed_frames_pos cs : forall pos p l m, (p, l, m) ∈ sealed_frames pos cs -> pos <= p.
Proof.
  induction cs as [|c cs IH]; intros pos p l m Hin; [by apply elem_of_nil in Hin|].
  destruct cs as [|d r]; cbn [sealed_frames] in Hin.
  - apply list_elem_of_singleton in Hin as [= -> _ _]. done.
  - apply elem_of_cons in Hin as [[= -> _ _]|Hin]; [done|]. apply IH in Hin. lia.
Qed.

(** A sealed chunk at the first position is the first chunk. *)
Lemma sealed_frames_first cs pos l m : (pos, l, m) ∈ sealed_frames pos cs ->
  exists r, cs = m :: r /\ (l = true <-> r = []).
Proof.
  destruct cs as [|c [|d r]]; cbn [sealed_frames]; intros Hin; [by apply elem_of_nil in Hin|..].
  - apply list_elem_of_singleton in Hin as [= -> ->]. by exists [].
  - apply elem_of_cons in Hin as [[= -> ->]|Hin]; [by exists (d :: r)|].
    apply (sealed_frames_pos (d :: r)) in Hin. lia.
Qed.

(** Some part of [s] opens at a position from [pos] on to what was not sealed
    there. *)
Definition forged_from (o : Opened) (pos : Z) (honest : list bytes) (s : bytes) : Prop :=
  exists x c y p l m, s = x ++ c ++ y /\ pos <= p /\
    chunk_open (o_key o) (o_prefix o) p l (o_aad o) c = Some m /\ (p, l, m) ∉ sealed_frames pos honest.

Lemma stream_authentic_loop o n : o_frame o = (n + TAG)%nat -> forall fuel pos s honest,
  let '(ms, e) := stream_loop fuel o pos (take (o_frame o) s) (drop (o_frame o) s) in
  forged_from o pos honest s \/
  (ms `prefix_of` honest /\ (e = None -> s = seal_all (o_key o) (o_prefix o) (o_aad o) pos honest)).
Proof.
  intros Hn. induction fuel as [|f IH]; intros pos s honest; cbn [stream_loop]; [right; split; [apply prefix_nil|done]|].
  destruct (ahead_split (o_frame o) s) as [-> ->]. pose proof (take_drop (o_frame o) s) as Hs.
  assert (0 < o_frame o)%nat by (rewrite Hn; unfold TAG; lia).
  destruct (take (o_frame o) (drop (o_frame o) s)) as [|y r] eqn:Et.
  - destruct (chunk_open _ _ _ _ _ _) as [m|] eqn:Eo; [|right; split; [apply prefix_nil|done]].
    destruct (decide ((pos, true, m) ∈ sealed_frames pos honest)) as [Hin|Hin].
    + right. apply sealed_frames_first in Hin as (r & -> & Hr). rewrite (proj1 Hr eq_refl). split; [done|]. intros _.
      assert (drop (o_frame o) s = []) as Ed.
      { destruct (drop (o_frame o) s); [done|]. by destruct (o_frame o); [lia|]. }
      rewrite Ed, app_nil_r in Hs. rewrite Hs in Eo. by apply chunk_open_only in Eo.
    + left. exists [], (take (o_frame o) s), (drop (o_frame o) s), pos, true, m. by rewrite Hs.
  - rewrite <- Et. destruct (pos =? COUNTER_MAX); [right; split; [apply prefix_nil|done]|].
    destruct (chunk_open _ _ _ _ _ _) as [m|] eqn:Eo; [|right; split; [apply prefix_nil|done]].
    destruct (decide ((pos, false, m) ∈ sealed_frames pos honest)) as [Hin|Hin].
    + apply sealed_frames_first in Hin as (hr & -> & Hr). specialize (IH (pos + 1) (drop (o_frame o) s) hr).
      destruct (stream_loop f o (pos + 1) _ _) as [ms e]. assert (hr <> []) as Hne by (intros ->; by destruct Hr as [_ Hr]; specialize (Hr eq_refl)).
      destruct hr as [|d hr]; [done|]. destruct IH as [(x & c & z & p & l & m' & E & Hp & Ho & Hin)|[Hpre Hfull]].
      * left. exists (take (o_frame o) s ++ x), c, z, p, l, m'. rewrite <- (assoc_L (++)), <- E, Hs. split_and!; [done|lia|done|].
        change (sealed_frames pos (m :: d :: hr)) with ((pos, false, m) :: sealed_frames (pos + 1) (d :: hr)).
        apply not_elem_of_cons. split; [|done]. intros [= -> _ _]. lia.
      * right. split; [by apply prefix_cons|]. intros He. apply Hfull in He. apply chunk_open_only in Eo.
        change (seal_all (o_key o) (o_prefix o) (o_aad o) pos (m :: d :: hr)) with
          (chunk_seal (o_key o) (o_prefix o) pos false (o_aad o) m ++ seal_all (o_key o) (o_prefix o) (o_aad o) (pos + 1) (d :: hr)).
        by rewrite <- He, <- Eo.
    + destruct (stream_loop f o (pos + 1) _ _) as [ms e]. left.
      exists [], (take (o_frame o) s), (drop (o_frame o) s), pos, false, m. by rewrite Hs.
Qed.

(** Everything the cipher was asked to seal for a file. *)
Definition sealed_calls (prefix file_id : bytes) (cs : list bytes) : list (bytes * bytes * (Z * bool * bytes)) :=
  pair (prefix, associated_data (header_of prefix) file_id) <$> sealed_frames 0 cs.

Lemma elem_of_tagged {A B} (a a' : A) (f : B) (l : list B) : (a', f) ∈ pair a <$> l -> a' = a /\ f ∈ l.
Proof. intros (g & [= -> ->] & Hg)%list_elem_of_fmap. done. Qed.

(** A part of [file] opens to what was never sealed under the key. *)
Definition forgery (key : bytes) (calls : list (bytes * bytes * (Z * bool * bytes))) (file : bytes) : Prop :=
  exists x c y prefix aad p l m, file = x ++ c ++ y /\
    chunk_open key prefix p l aad c = Some m /\ (prefix, aad, (p, l, m)) ∉ calls.

Lemma open_file_ok file key file_id o body : open_file file key file_id = Ok (o, body) ->
  exists header n, file = header ++ body /\ length header = HEADER_LEN /\ o_key o = key /\
    o_prefix o = drop (length MAGIC + 4) header /\ o_aad o = associated_data header file_id /\ o_frame o = (n + TAG)%nat.
Proof.
  unfold open_file. case_test. b2p. intros Ho. apply result_bind_Ok in Ho as (o' & Ho & [= <- <-]).
  exists (take HEADER_LEN file). unfold open in Ho. case_bool_decide; [|done]. case_test.
  apply result_bind_Ok in Ho as (k & Hk & [= <-]). unfold cipher in Hk. case_test. injection Hk as <-.
  eexists. rewrite take_drop, length_take. split_and!; [done|lia|done..].
Qed.

(** The first chunk of a stream sits at the start of the body. *)
Lemma stream_loop_first fuel o pos s : 
  let '(ms, e) := stream_loop fuel o pos (take (o_frame o) s) (drop (o_frame o) s) in
  (ms = [] /\ e <> None) \/ exists l m, chunk_open (o_key o) (o_prefix o) pos l (o_aad o) (take (o_frame o) s) = Some m.
Proof.
  destruct fuel as [|f]; cbn [stream_loop]; [by left|]. destruct (ahead_of _ _ _).
  - destruct (chunk_open _ _ _ _ _ _) eqn:E; [right; eauto|by left].
  - case_test; [by left|]. destruct (chunk_open _ _ _ _ _ _) eqn:E; [|by left]. destruct (stream_loop _ _ _ _ _). right; eauto.
Qed.


(** A failed encryption leaves no file behind, and nothing else changes. *)
Lemma encrypt_file_clean fs src dst prefix key file_id max fs' r : encrypt_file fs src dst prefix key file_id max = (fs', r) ->
  match r with
  | Ok s => exists input, fs !! src = Some input /\ fs !! dst = None /\
      exists out, write_sealed input prefix key file_id max = Ok (out, s) /\ fs' = <[dst := out]> fs
  | Err _ => fs' = fs
  end.
Proof.
  unfold encrypt_file. destruct (fs !! src) as [input|] eqn:Es; [|by intros [= <- <-]].
  destruct (fs !! dst) eqn:Ed; [by intros [= <- <-]|]. destruct (write_sealed _ _ _ _ _) as [[out s]|e] eqn:Ew; intros [= <- <-].
  - exists input. split_and!; [done..|]. by exists out.
  - by apply delete_id.
Qed.
End crypto.

Module CryptoExamples.
Import Reference.

(** A cipher that appends a checksum of everything. *)
Definition toy_tag (key prefix : bytes) (pos : Z) (last : bool) (aad m : bytes) : bytes :=
  to_be 16 (fold_left (fun acc b => acc * 257 + b + 1) (key ++ prefix ++ aad ++ m) (2 * pos + if last then 1 else 0)).

Definition toy_seal (key prefix : bytes) (pos : Z) (last : bool) (aad m : bytes) : bytes := m ++ toy_tag key prefix pos last aad m.

Definition toy_open (key prefix : bytes) (pos : Z) (last : bool) (aad c : bytes) : option bytes :=
  let m := take (length c - 16) c in
  if bool_decide (c = toy_seal key prefix pos last aad m) then Some m else None.

Lemma toy_tag_length key prefix pos last aad m : length (toy_tag key prefix pos last aad m) = 16%nat.
Proof. apply to_be_length. Qed.

Lemma toy_open_seal key prefix pos last aad m : toy_open key prefix pos last aad (toy_seal key prefix pos last aad m) = Some m.
Proof.
  unfold toy_open. assert (take (length (toy_seal key prefix pos last aad m) - 16) (toy_seal key prefix pos last aad m) = m) as ->.
  { unfold toy_seal. rewrite length_app, toy_tag_length, Nat.add_sub. apply take_app_length. }
  by rewrite bool_decide_true.
Qed.

Lemma toy_open_only key prefix pos last aad c m : toy_open key prefix pos last aad c = Some m -> c = toy_seal key prefix pos last aad m.
Proof. unfold toy_open. case_bool_decide as E; [|done]. intros [= <-]. done. Qed.

Lemma toy_seal_length key prefix pos last aad m : length (toy_seal key prefix pos last aad m) = (length m + 16)%nat.
Proof. unfold toy_seal. by rewrite length_app, toy_tag_length. Qed.

#[local] Instance toy_cipher : StreamCipher := Build_StreamCipher toy_seal toy_open toy_open_seal toy_open_only toy_seal_length.

Definition key : bytes := replicate 32 7.
Definition prefix : bytes := replicate 7 1.
Definition file_id : bytes := replicate 16 9.
Definition report : bytes := str "quarterly report".

Definition sealed_report : bytes :=
  match write_sealed report prefix key file_id 1000 with Ok (f, _) => f | Err _ => [] end.

Lemma verified_streams_witness :
  verify_file sealed_report key file_id 16 = Ok tt <-> exists ms, decrypt_stream sealed_report key file_id = Ok (ms, None) /\ total ms = 16.
Proof. apply (verified_streams sealed_report key file_id 16). Defined.

Lemma file_roundtrip_witness :
  exists file ms, write_sealed report prefix key file_id 1000 = Ok (file, mk_sealed (Z.of_nat (length report)) (hex_text (sha256 report))) /\
    verify_file file key file_id (Z.of_nat (length report)) = Ok tt /\
    decrypt_stream file key file_id = Ok (ms, None) /\ concat ms = report.
Proof. apply (file_roundtrip report prefix key file_id 1000); by vm_compute. Defined.

(** The tail is cut off: the stream ends with an error. *)
Definition cut_report : bytes := take 50 sealed_report.


(** Another file's id or key does not open it, nor does a second key. *)
Lemma other_id_refused : verify_file sealed_report key (replicate 16 8) 16 = Err tampered.
Proof. by vm_compute. Qed.

Lemma other_key_refused : verify_file sealed_report (replicate 32 8) file_id 16 = Err tampered.
Proof. by vm_compute. Qed.
End CryptoExamples.
