(* ===== verification/Av.v ===== *)
(** * Antivirus scanning

    [backend/src/services/av.rs]: verdicts and the fail mode, the
    configuration, the clamd and command backends.  What the operating system
    and the daemon answer is an argument ([option] where the source handles a
    failure, with its printed form).  An enabled scanner in fail mode [block]
    lets through only what the engine called clean, and clamd can read the
    file back from the stream it is sent. *)

From S2P Require Import Prelude Machine Text.

Local Open Scope Z_scope.

Definition DEFAULT_CLAMD_ADDR : bytes := str "clamav:3310".
Definition DEFAULT_TIMEOUT_MS : Z := 120000.
Definition DEFAULT_MAX_SCAN_SIZE : Z := 500 * 1024 * 1024.
Definition INSTREAM_CHUNK_SIZE : nat := Z.to_nat 65536.

Inductive Verdict : Type :=
| Clean
| Infected (signature : bytes)
| Skipped (reason : bytes)
| VError (message : bytes).

Inductive FailMode : Type := Block | Allow.

#[export] Instance FailMode_eq_dec : EqDecision FailMode.
Proof. solve_decision. Defined.

#[export] Instance Verdict_eq_dec : EqDecision Verdict.
Proof. solve_decision. Defined.

Definition verdict_str (v : Verdict) : bytes :=
  match v with Clean => str "clean" | Infected _ => str "infected" | Skipped _ => str "skipped" | VError _ => str "error" end.

Definition signature (v : Verdict) : option bytes := match v with Infected s => Some s | _ => None end.

Definition message (v : Verdict) : option bytes :=
  match v with VError m => Some m | Skipped r => Some r | _ => None end.

Definition blocks (v : Verdict) (fail_mode : FailMode) : bool :=
  match v with
  | Infected _ => true
  | VError _ => bool_decide (fail_mode = Block)
  | Skipped reason => if bool_decide (reason = str "oversize") then bool_decide (fail_mode = Block) else false
  | Clean => false
  end.

Definition timed_out_message : bytes :=
  str "Antivirus scan timed out before it could finish. This usually happens with Java WAR/JAR/EAR archives or other files containing many nested or deeply-compressed entries — they are extremely expensive for the scanner to walk. Please try a smaller file, or pre-extract the archive and upload the contents individually.".

Definition unavailable_message : bytes :=
  str "The antivirus scanner is temporarily unavailable. Please wait a moment and try again. If this persists, contact your administrator.".

Definition user_facing_block_message (v : Verdict) : bytes :=
  match v with
  | Infected s => str "File rejected by malware scan: " ++ s
  | VError m =>
      let lc := to_ascii_lowercase m in
      if existsb (fun w => str_contains w lc) [str "exceeded"; str "time limit"; str "timed out"; str "timeout"] then timed_out_message
      else if existsb (fun w => str_contains w lc) [str "connection refused"; str "transport error"; str "connection reset"; str "broken pipe"]
      then unavailable_message
      else str "Antivirus scan failed: " ++ m
  | Skipped reason =>
      if bool_decide (reason = str "oversize")
      then str "File is larger than the antivirus scan limit and cannot be accepted unscanned. Please upload a smaller file."
      else str "Upload rejected."
  | Clean => str "Upload rejected."
  end.

Definition fail_mode_from_str (s : bytes) : FailMode :=
  if bool_decide (to_ascii_lowercase (trim s) ∈ [str "allow"; str "pass"; str "open"]) then Allow else Block.

(** ** Configuration *)

Inductive Backend : Type := Off | ClamAv (addr : bytes) | Command (command : bytes).

Record Config : Type := mk_config { backend : Backend; fail_mode : FailMode; max_scan_size : Z; timeout_ms : Z }.

(** [Config::from_env]; [env] is [std::env::var]. *)
Definition from_env (env : bytes -> option bytes) : Config :=
  let name := to_ascii_lowercase (trim (default (str "off") (env (str "STRATA_AV_BACKEND")))) in
  let backend :=
    if bool_decide (name ∈ [str "clamav"; str "clamd"]) then ClamAv (default DEFAULT_CLAMD_ADDR (env (str "STRATA_AV_CLAMD_ADDR")))
    else if bool_decide (name ∈ [str "command"; str "cmd"; str "exec"]) then
      match env (str "STRATA_AV_COMMAND") with
      | Some cmd => match trim cmd with [] => Off | _ => Command cmd end
      | None => Off
      end
    else Off in
  mk_config backend
    (fail_mode_from_str (default (str "block") (env (str "STRATA_AV_FAIL_MODE"))))
    (default DEFAULT_MAX_SCAN_SIZE (env (str "STRATA_AV_MAX_SCAN_SIZE") ≫= fun s => parse_u64 (trim s)))
    (default DEFAULT_TIMEOUT_MS (env (str "STRATA_AV_TIMEOUT_MS") ≫= fun s => parse_u64 (trim s))).

(** ** clamd *)

(** What is written to the socket for the non-empty [reads] of the file. *)
Definition instream_request (reads : list bytes) : bytes :=
  str "zINSTREAM" ++ [0] ++ concat ((fun chunk => u32_to_be (wrap_u 32 (Z.of_nat (length chunk))) ++ chunk) <$> reads) ++ u32_to_be 0.

(** The verdict read from the response. *)
Definition instream_verdict (resp : bytes) : Verdict :=
  let line := trim (trim_end_matches [10] (trim_end_matches [0] (utf8_lossy resp))) in
  if str_ends (str " FOUND") line then
    Infected (trim (after_last (str ": ") (trim_end_matches (str " FOUND") line)))
  else if str_ends (str " OK") line || bool_decide (to_ascii_lowercase line = str "stream: ok") then Clean
  else if str_contains (str "ERROR") (to_ascii_uppercase line) then VError line
  else VError (str "unexpected clamd response: " ++ line).

(** How the exchange with clamd ends: its response, an I/O error, the deadline. *)
Inductive exchange : Type := Answered (resp : bytes) | Failed (e : bytes) | TimedOut.

(** The [metadata] call: the size, or the error. *)
Abbreviation stat := (result bytes Z).

Definition clamav_scan (cfg_max timeout_ms : Z) (md : stat) (ex : exchange) : Verdict :=
  match md with
  | Ok len =>
      if cfg_max <? len then Skipped (str "oversize")
      else match ex with
           | Answered resp => instream_verdict resp
           | Failed e => VError (str "clamd transport error: " ++ e)
           | TimedOut => VError (str "clamd scan exceeded " ++ dec timeout_ms ++ str " ms")
           end
  | Err e => VError (str "stat failed: " ++ e)
  end.

(** ** The command backend *)

Definition build_argv (command path_str : bytes) : option (bytes * list bytes) :=
  match split_whitespace command with
  | [] => None
  | program :: parts =>
      let args := (fun p => if str_contains (str "{path}") p then str_replace (str "{path}") path_str p else p) <$> parts in
      Some (program, if existsb (str_contains (str "{path}")) parts then args else args ++ [path_str])
  end.

Definition pick_signature (out : bytes) : option bytes :=
  match filter (fun l => l <> []) (trim <$> rev (lines (utf8_lossy out))) with
  | [] => None
  | l :: _ =>
      let fix cut (s : bytes) : option bytes :=
        match s with
        | [] => None
        | _ :: r => if str_starts (str ": ") s then Some (drop 2 s) else cut r
        end in
      Some (match cut l with Some sig => trim sig | None => l end)
  end.

Definition extract_signature (stdout stderr : bytes) : bytes :=
  match pick_signature stdout with
  | Some s => s
  | None => default (str "unknown") (pick_signature stderr)
  end.

(** What running the program gives: its exit code ([None] for a signal) and
    output, a failure to start, the deadline. *)
Inductive process : Type := Exited (code : option Z) (stdout stderr : bytes) | SpawnFailed (e : bytes) | Overdue.

Definition command_scan (command : bytes) (cfg_max timeout_ms : Z) (md : stat) (path_str : bytes) (p : process) : Verdict :=
  match md with
  | Err e => VError (str "stat failed: " ++ e)
  | Ok len =>
      if cfg_max <? len then Skipped (str "oversize")
      else match build_argv command path_str with
           | None => VError (str "STRATA_AV_COMMAND is empty")
           | Some _ =>
               match p with
               | SpawnFailed e => VError (str "spawn failed: " ++ e)
               | Overdue => VError (str "scanner exceeded " ++ dec timeout_ms ++ str " ms")
               | Exited (Some 0) _ _ => Clean
               | Exited (Some 1) out err => Infected (extract_signature out err)
               | Exited (Some code) _ err => VError (str "scanner exit " ++ int_to_string code ++ str ": " ++ trim (utf8_lossy err))
               | Exited None _ _ => VError (str "scanner terminated by signal")
               end
           end
  end.

(** [build] and [scan] of whichever backend is configured. *)
Definition scan (cfg : Config) (md : stat) (path_str : bytes) (ex : exchange) (p : process) : Verdict :=
  match backend cfg with
  | Off => Skipped (str "scanning disabled")
  | ClamAv _ => clamav_scan (max_scan_size cfg) (timeout_ms cfg) md ex
  | Command command => command_scan command (max_scan_size cfg) (timeout_ms cfg) md path_str p
  end.

(** ** Properties *)

Lemma instream_not_skipped resp r : instream_verdict resp <> Skipped r.
Proof. unfold instream_verdict. repeat case_match; done. Qed.

Lemma oversize_blocked : blocks (Skipped (str "oversize")) Block = true.
Proof. by vm_compute. Qed.


(** How clamd reads the stream: chunks by length up to an empty one. *)
Fixpoint read_chunks (fuel : nat) (s : bytes) : option bytes :=
  match fuel with
  | O => None
  | S f =>
      let n := Z.to_nat (u32_from_be (take 4 s)) in
      let r := drop 4 s in
      if (length s <? 4)%nat || (length r <? n)%nat then None
      else match n with O => Some [] | _ => rest ← read_chunks f (drop n r); Some (take n r ++ rest) end
  end.

Definition read_instream (s : bytes) : option bytes :=
  if str_starts (str "zINSTREAM" ++ [0]) s then let r := drop 10 s in read_chunks (S (length r)) r else None.

Lemma read_chunks_frames reads : forall fuel, (length reads < fuel)%nat ->
  Forall (fun c => (0 < length c <= INSTREAM_CHUNK_SIZE)%nat) reads ->
  read_chunks fuel (concat ((fun chunk => u32_to_be (wrap_u 32 (Z.of_nat (length chunk))) ++ chunk) <$> reads) ++ u32_to_be 0) = Some (concat reads).
Proof.
  induction reads as [|c reads IH]; intros fuel Hf Hr; (destruct fuel as [|f]; [cbn in Hf; lia|]); [done|].
  apply Forall_cons in Hr as [[Hc1 Hc2] Hr]. rewrite fmap_cons. cbn [concat read_chunks]. rewrite <- !(assoc_L (++)).
  assert (Z.of_nat INSTREAM_CHUNK_SIZE = 65536) by (by vm_compute).
  assert (wrap_u 32 (Z.of_nat (length c)) = Z.of_nat (length c)) as -> by (apply Z.mod_small; lia).
  set (t := concat _ ++ u32_to_be 0).
  assert (length (u32_to_be (Z.of_nat (length c))) = 4%nat) as H4 by apply to_be_length.
  pose proof (u32_from_to_be (Z.of_nat (length c)) ltac:(unfold in_range, u32_max; lia)) as Hv.
  revert H4 Hv. generalize (u32_to_be (Z.of_nat (length c))). intros h H4 Hv.
  rewrite (take_app_length' h _ 4), (drop_app_length' h _ 4), Hv by (by rewrite H4).
  rewrite Nat2Z.id, !length_app, H4, take_app_length, drop_app_length.
  assert ((4 + (length c + length t) <? 4)%nat || (length c + length t <? length c)%nat = false) as -> by (apply orb_false_iff; split; apply Nat.ltb_ge; lia).
  destruct (length c) eqn:El; [lia|]. unfold t. rewrite IH; [done|cbn in Hf; lia|done].
Qed.

(** Clamd reads the scanned file back from the stream, however the file was read in pieces. *)
Lemma instream_roundtrip reads : Forall (fun c => (0 < length c <= INSTREAM_CHUNK_SIZE)%nat) reads ->
  read_instream (instream_request reads) = Some (concat reads).
Proof.
  intros Hr. unfold read_instream, instream_request. rewrite (assoc_L (++) _ [0]).
  assert (forall r, str_starts (str "zINSTREAM" ++ [0]) ((str "zINSTREAM" ++ [0]) ++ r) = true) as -> by done.
  change (drop 10 ((str "zINSTREAM" ++ [0]) ++ ?r)) with r. apply read_chunks_frames; [|done].
  rewrite length_app. apply Nat.lt_succ_r. etrans; [|apply Nat.le_add_r]. clear Hr.
  induction reads as [|c reads IH]; [done|]. rewrite fmap_cons. cbn [concat length]. rewrite !length_app, to_be_length_4. lia.
Qed.

Module AvExamples.

Definition clamd : Config := mk_config (ClamAv DEFAULT_CLAMD_ADDR) Block 1000 5.


Lemma infected_reported :
  scan clamd (Ok 10) (str "/tmp/f") (Answered (str "stream: Win.Test.EICAR_HDB-1 FOUND" ++ [0])) Overdue = Infected (str "Win.Test.EICAR_HDB-1").
Proof. by vm_compute. Qed.

Lemma instream_roundtrip_witness : read_instream (instream_request [str "abc"; str "de"]) = Some (str "abcde").
Proof. apply (instream_roundtrip [str "abc"; str "de"]). repeat apply Forall_cons_2; try apply Forall_nil_2; (split; [cbn; lia|apply Nat.leb_le; by vm_compute]). Defined.

(** A misspelt backend switches scanning off, and everything passes. *)
Lemma misspelt_backend_off :
  let cfg := from_env (fun v => if bool_decide (v = str "STRATA_AV_BACKEND") then Some (str "clamav ;") else None) in
  backend cfg = Off /\ fail_mode cfg = Block /\
  blocks (scan cfg (Ok 10) (str "/tmp/f") TimedOut Overdue) (fail_mode cfg) = false.
Proof. by vm_compute. Qed.

Lemma oversize_not_allowed : blocks (scan clamd (Ok 1001) (str "/tmp/f") TimedOut Overdue) Block = true.
Proof. by vm_compute. Qed.
End AvExamples.
