(* ===== verification/Shares.v ===== *)
(** * Outbound shares: the approval-gated export of files

    [services/outbound_shares.rs], the handlers of [routes/outbound_shares.rs]
    that change a share, [services/transfer_gate.rs] (the same policy on
    downloads of the session's file browser) and
    [services/outbound_share_ingest.rs] (one-shot upload tokens).

    Module [Outbound] is a table of shares and the staged files.  A step is
    one database transaction, or a step of a sweep between two of them, so
    any interleaving of requests, workers and sweeps is a list of steps; the
    random ids and tokens, the clock and the outcome of Vault and the file
    system are arguments.  What happened is kept beside the state as a list
    of events.  Module [Ingest] is the token table. *)

From S2P Require Import Prelude Machine Text Av.

Local Open Scope Z_scope.

Module Outbound.

Definition MAX_FILE_SIZE : Z := 500 * 1024 * 1024.
Definition DAY : Z := 86400.
Definition DEFAULT_TTL_DAYS : Z := 1.
Definition HISTORY_RETENTION_AFTER_PURGE_DAYS : Z := 7.
Definition default_ttl : Z := DEFAULT_TTL_DAYS * DAY.
Definition MIN_OUTBOUND_JUSTIFICATION_LEN : nat := 10.

Inductive OutboundShareStatus : Type := Pending | Approved | Denied | Downloaded | Purged.

#[export] Instance status_eq_dec : EqDecision OutboundShareStatus.
Proof. solve_decision. Defined.

Definition as_str (x : OutboundShareStatus) : bytes :=
  match x with
  | Pending => str "pending"
  | Approved => str "approved"
  | Denied => str "denied"
  | Downloaded => str "downloaded"
  | Purged => str "purged"
  end.

Inductive ShareError : Type :=
| Validation (msg : bytes)
| Forbidden
| NotFound
| Internal.

(** ** The heuristic score *)

Definition HIGH_RISK_EXT : list bytes :=
  [str ".exe"; str ".dll"; str ".msi"; str ".bat"; str ".cmd"; str ".ps1"; str ".vbs"; str ".js"; str ".jar"; str ".sh"; str ".scr";
   str ".com"; str ".cpl"; str ".reg"].
Definition ARCHIVE_EXT : list bytes :=
  [str ".zip"; str ".rar"; str ".7z"; str ".tar"; str ".gz"; str ".bz2"; str ".xz"; str ".iso"; str ".cab"].
Definition SENSITIVE_TOKENS : list bytes :=
  [str "password"; str "secret"; str "credential"; str "token"; str "private"; str "id_rsa"; str ".pem"; str ".pfx"; str ".p12";
   str ".kdbx"; str ".keystore"].

(** One of the loops: the first hit scores once. *)
Definition first_hit (hit : bytes -> bool) (words : list bytes) (points : Z) (reason : bytes) : Z * list bytes :=
  match filter (fun w => hit w = true) words with
  | [] => (0, [])
  | w :: _ => (points, [reason ++ w])
  end.

Definition plus_score (a b : Z * list bytes) : Z * list bytes := (fst a + fst b, snd a ++ snd b).

Definition compute_dlp_score (filename content_type : bytes) (size : Z) : Z * list bytes :=
  let name_lc := to_ascii_lowercase filename in
  let mime_lc := to_ascii_lowercase content_type in
  let mb := Z.quot size (1024 * 1024) in
  let parts :=
    [first_hit (fun e => str_ends e name_lc) HIGH_RISK_EXT 60 (str "Executable extension ");
     first_hit (fun e => str_ends e name_lc) ARCHIVE_EXT 25 (str "Archive extension ");
     first_hit (fun t => str_contains t name_lc) SENSITIVE_TOKENS 40 (str "Sensitive-looking name token: ");
     if existsb (fun e => str_ends e name_lc) [str ".docm"; str ".xlsm"; str ".pptm"] then (30, [str "Macro-enabled Office document"]) else (0, []);
     if existsb (fun e => str_contains e mime_lc) [str "executable"; str "x-msdownload"; str "x-msi"]
     then (40, [str "Executable MIME type: " ++ content_type]) else (0, []);
     if 100 <=? mb then (25, [str "Large file (" ++ int_to_string mb ++ str " MiB)"])
     else if 25 <=? mb then (10, [str "Medium-large file (" ++ int_to_string mb ++ str " MiB)"]) else (0, [])] in
  let '(score, reasons) := foldl plus_score (0, []) parts in
  (if 100 <? score then 100 else score, reasons).

(** ** State *)

(** A row of [outbound_shares], the columns that take part; the wrapped key
    and the path of the staged file are there or cleared. *)
Record Share : Type := mk_share {
  requester : Z;
  filename : bytes;
  size : Z;
  justification : option bytes;
  dlp_score : Z;
  status : OutboundShareStatus;
  decided_by : option Z;
  decision_reason : option bytes;
  download_token : option Z;
  sealed_dek : bool;
  storage_path : bool;
  downloaded_at : option Z;
  created_at : Z;
  expires_at : Z;
  purged_at : option Z;
  av_status : Verdict }.

Inductive channel : Type := ByLink | ByBrowser.

Inductive event : Type :=
| EvSubmitted (id requester : Z) (requires_approval : bool) (verdict : Verdict) (now : Z)
| EvDecided (id approver : Z) (approve super listed : bool)
| EvDelivered (id receiver : Z) (admin : bool) (by_ : channel) (now : Z).

(** [approvers] is [outbound_share_approvers], [staged] the files on disk,
    [sweep] and [removal] what the purge worker has read and not yet done,
    [gated] the browser downloads between their submission and delivery, with
    the users of their sessions. *)
Record State : Type := mk_state {
  shares : gmap Z Share;
  approvers : gset Z;
  staged : gset Z;
  sweep : list (Z * bool);
  removal : list Z;
  gated : list (Z * Z);
  events : list event }.

Definition set_share (id : Z) (s : Share) (st : State) : State :=
  mk_state (<[id := s]> (shares st)) (approvers st) (staged st) (sweep st) (removal st) (gated st) (events st).
Definition unstage (id : Z) (st : State) : State :=
  mk_state (shares st) (approvers st) (staged st ∖ {[id]}) (sweep st) (removal st) (gated st) (events st).
Definition log (e : event) (st : State) : State :=
  mk_state (shares st) (approvers st) (staged st) (sweep st) (removal st) (gated st) (events st ++ [e]).
Definition set_gated (l : list (Z * Z)) (st : State) : State :=
  mk_state (shares st) (approvers st) (staged st) (sweep st) (removal st) l (events st).
Definition set_work (sw : list (Z * bool)) (rm : list Z) (st : State) : State :=
  mk_state (shares st) (approvers st) (staged st) sw rm (gated st) (events st).

(** ** Submission *)

Definition validate_outbound_justification (requires_approval : bool) (justification : option bytes) : result ShareError unit :=
  if negb requires_approval then Ok tt
  else if (char_count (trim (default [] justification)) <? MIN_OUTBOUND_JUSTIFICATION_LEN)%nat then
    Err (Validation (str "A justification of at least 10 characters is required for outbound shares unless the approval bypass is enabled for your account."))
  else Ok tt.

Record Upload : Type := mk_upload {
  up_user : Z; up_filename : bytes; up_content_type : bytes; up_size : Z; up_justification : option bytes; up_verdict : Verdict }.

(** The row [submit] inserts. *)
Definition new_share (u : Upload) (requires_approval : bool) (token now : Z) : Share :=
  mk_share (up_user u) (up_filename u) (up_size u) (up_justification u)
    (fst (compute_dlp_score (up_filename u) (up_content_type u) (up_size u)))
    (if requires_approval then Pending else Approved) None None
    (if requires_approval then None else Some token) true true None now (now + default_ttl) None (up_verdict u).

(** [submit]: [sealed] tells whether Vault and the encryption of the staged
    file worked, [inserted] whether the row was stored; without it the staged
    file is removed again. *)
Definition submit (u : Upload) (requires_approval sealed inserted : bool) (id token now : Z) (st : State) :
    State * result ShareError OutboundShareStatus :=
  if up_size u =? 0 then (st, Err (Validation (str "Empty file")))
  else if MAX_FILE_SIZE <? up_size u then (st, Err (Validation (str "File exceeds maximum allowed size")))
  else if negb sealed then (st, Err Internal)
  else if negb inserted then (st, Err Internal)
  else
    let s := new_share u requires_approval token now in
    (log (EvSubmitted id (up_user u) requires_approval (up_verdict u) now)
       (mk_state (<[id := s]> (shares st)) (approvers st) (staged st ∪ {[id]}) (sweep st) (removal st) (gated st) (events st)),
     Ok (status s)).

(** [finalize_submit]; [opted] is the user's column, [None] when it is NULL
    or the user is gone. *)
Definition finalize_submit (u : Upload) (opted : option bool) (sealed inserted : bool) (id token now : Z) (st : State) :
    State * result ShareError OutboundShareStatus :=
  let requires_approval := default true opted in
  match validate_outbound_justification requires_approval (up_justification u) with
  | Err e => (st, Err e)
  | Ok _ => submit u requires_approval sealed inserted id token now st
  end.

(** What precedes it in [parse_outbound_multipart]: the scan of the staged
    upload decides whether there is a submission at all. *)
Definition submit_scanned (u : Upload) (mode : FailMode) (opted : option bool) (sealed inserted : bool) (id token now : Z) (st : State) :
    State * result ShareError OutboundShareStatus :=
  if blocks (up_verdict u) mode then (st, Err (Validation (user_facing_block_message (up_verdict u))))
  else finalize_submit u opted sealed inserted id token now st.

(** ** The approver's decision *)

Definition decided (s : Share) (approver : Z) (approve : bool) (reason : option bytes) (token now : Z) : Share :=
  mk_share (requester s) (filename s) (size s) (justification s) (dlp_score s)
    (if approve then Approved else Denied) (Some approver) reason (if approve then Some token else None)
    (if approve then sealed_dek s else false) (if approve then storage_path s else false)
    (downloaded_at s) (created_at s) (expires_at s) (if approve then purged_at s else Some now) (av_status s).

(** The route's [require_approver] and the transaction of [decide], followed
    by the removal of a denied file. *)
Definition decide_share (id approver : Z) (super approve : bool) (reason : option bytes) (token now : Z) (st : State) :
    State * result ShareError OutboundShareStatus :=
  if negb super && negb (bool_decide (approver ∈ approvers st)) then (st, Err Forbidden)
  else match shares st !! id with
       | None => (st, Err NotFound)
       | Some s =>
           if negb (bool_decide (status s = Pending)) then (st, Err (Validation (str "Share is not pending (status: " ++ as_str (status s) ++ str ")")))
           else if expires_at s <=? now then (st, Err (Validation (str "Share has already expired")))
           else
             let st1 := log (EvDecided id approver approve super (bool_decide (approver ∈ approvers st))) (set_share id (decided s approver approve reason token now) st) in
             (if negb approve && storage_path s then unstage id st1 else st1, Ok (if approve then Approved else Denied))
       end.

(** ** Delivery *)

Definition delivered (s : Share) (now : Z) : Share :=
  mk_share (requester s) (filename s) (size s) (justification s) (dlp_score s) Downloaded (decided_by s) (decision_reason s) None
    (sealed_dek s) (storage_path s) (Some now) (created_at s) (expires_at s) (purged_at s) (av_status s).

(** [WHERE download_token = $1]. *)
Definition with_token (token : Z) (st : State) : option (Z * Share) :=
  head (filter (fun e => download_token (snd e) = Some token) (map_to_list (shares st))).

(** [consume_download_token]: the row stays locked to the commit; [readable]
    tells whether the key was unwrapped and the staged file opened and
    verified. *)
Definition consume_download_token (token caller : Z) (admin readable : bool) (now : Z) (st : State) :
    State * result ShareError Z :=
  match with_token token st with
  | None => (st, Err NotFound)
  | Some (id, s) =>
      if negb (bool_decide (requester s = caller)) && negb admin then (st, Err Forbidden)
      else if negb (bool_decide (status s = Approved)) then (st, Err Forbidden)
      else if expires_at s <=? now then (st, Err (Validation (str "Share has already expired")))
      else if negb (storage_path s) then (st, Err Internal)
      else if negb (sealed_dek s) then (st, Err Internal)
      else if negb (readable && bool_decide (id ∈ staged st)) then (st, Err Internal)
      else (log (EvDelivered id caller admin ByLink now) (set_share id (delivered s now) st), Ok id)
  end.

(** [mark_delivered]. *)
Definition mark_delivered (id now : Z) (st : State) : State :=
  match shares st !! id with
  | Some s => if bool_decide (status s = Approved) then set_share id (delivered s now) st else st
  | None => st
  end.

(** [PolicyGate::admit_download] up to the submission: a blocked verdict and
    a share that is not approved withhold the file. *)
Definition leaf (name : bytes) : bytes := default name (head (filter (fun p => p <> []) (rev (split 47 name)))).

Definition refusal (e : ShareError) : bytes :=
  match e with Validation m => m | _ => str "the download could not be submitted for approval" end.

Definition gate_submit (name : bytes) (u : Upload) (mode : FailMode) (vault : bool) (opted : option bool) (sealed inserted : bool)
    (id token now : Z) (st : State) : State * result bytes unit :=
  if blocks (up_verdict u) mode then (st, Err (user_facing_block_message (up_verdict u)))
  else if negb vault then (st, Err (str "downloads need Vault, which is not configured"))
  else
    let u := mk_upload (up_user u) (leaf name) (str "application/octet-stream") (up_size u)
               (Some (str "Downloaded from the session file browser: " ++ name)) (up_verdict u) in
    match finalize_submit u opted sealed inserted id token now st with
    | (st1, Err e) => (st1, Err (refusal e))
    | (st1, Ok Approved) => (set_gated (gated st1 ++ [(id, up_user u)]) st1, Ok tt)
    | (st1, Ok _) => (st1, Err (leaf name ++ str " was submitted for approval. Download it from Outbound Quick Share once it is approved."))
    end.

(** ... and from the submission on, for the first that waits; [marked] tells
    whether the statement succeeded. *)
Definition gate_deliver (marked : bool) (now : Z) (st : State) : State * result bytes unit :=
  match gated st with
  | [] => (st, Ok tt)
  | (id, user) :: r =>
      let st1 := set_gated r st in
      if negb marked then (st1, Err (refusal Internal))
      else (log (EvDelivered id user false ByBrowser now) (mark_delivered id now st1), Ok tt)
  end.

(** The gates of other sessions go on in any order. *)
Definition rotate_gated (st : State) : State :=
  match gated st with [] => st | g :: r => set_gated (r ++ [g]) st end.

(** [PolicyGate::admit_upload]. *)
Definition admit_upload (verdict : Verdict) (mode : FailMode) : result bytes unit :=
  if blocks verdict mode then Err (user_facing_block_message verdict) else Ok tt.

(** ** Purging *)

Definition wiped (s : Share) (new_status : OutboundShareStatus) (now : Z) : Share :=
  mk_share (requester s) (filename s) (size s) (justification s) (dlp_score s) new_status (decided_by s) (decision_reason s) None
    false false (downloaded_at s) (created_at s) (expires_at s) (Some now) (av_status s).

(** What phase 1 of [purge_expired] selects: at most 500 of the expired
    rows, in any order. *)
Definition sweepable (now : Z) (s : Share) : Prop := purged_at s = None /\ expires_at s <= now.

#[export] Instance sweepable_dec now s : Decision (sweepable now s).
Proof. apply _. Defined.

Definition read_sweep (order : list Z) (now : Z) (st : State) : State :=
  set_work (take 500 (omap (fun id => s ← shares st !! id; if decide (sweepable now s) then Some (id, storage_path s) else None) order))
    (removal st) st.

(** The worker's new status never leaves a share open. *)
Definition swept_status (x : OutboundShareStatus) : OutboundShareStatus := match x with Pending | Approved => Purged | y => y end.

(** One round of its loop; [updated] tells whether the statement succeeded.
    The file goes either way. *)
Definition sweep_one (updated : bool) (now : Z) (st : State) : State :=
  match sweep st with
  | [] => st
  | (id, path) :: r =>
      let st1 := set_work r (removal st) (if path then unstage id st else st) in
      if negb updated then st1 else
      match shares st !! id with
      | Some s =>
          match purged_at s with
          | None => set_share id (wiped s (swept_status (status s)) now) st1
          | Some _ => st1
          end
      | None => st1
      end
  end.

(** Phase 2. *)
Definition removable (now : Z) (s : Share) : Prop :=
  match purged_at s with Some t => t <= now - HISTORY_RETENTION_AFTER_PURGE_DAYS * DAY | None => False end.

#[export] Instance removable_dec now s : Decision (removable now s).
Proof. unfold removable. destruct (purged_at s); apply _. Defined.

Definition read_removal (order : list Z) (now : Z) (st : State) : State :=
  set_work (sweep st)
    (take 500 (omap (fun id => s ← shares st !! id; if decide (removable now s) then Some id else None) order)) st.

Definition remove_one (updated : bool) (st : State) : State :=
  match removal st with
  | [] => st
  | id :: r =>
      if negb updated then set_work (sweep st) r st
      else set_work (sweep st) r (mk_state (delete id (shares st)) (approvers st) (staged st) (sweep st) (removal st) (gated st) (events st))
  end.

(** The route [purge] of an administrator. *)
Definition purge (updated : bool) (id now : Z) (st : State) : State * result ShareError unit :=
  match shares st !! id with
  | None => (st, Err NotFound)
  | Some s =>
      let st1 := if storage_path s then unstage id st else st in
      if negb updated then (st1, Err Internal) else (set_share id (wiped s Purged now) st1, Ok tt)
  end.

(** ** Approvers *)

(** [known] tells whether the user exists and is not deleted. *)
Definition add_approver (user : Z) (known : bool) (st : State) : State * result ShareError bool :=
  if negb known then (st, Err NotFound)
  else (mk_state (shares st) (approvers st ∪ {[user]}) (staged st) (sweep st) (removal st) (gated st) (events st),
        Ok (negb (bool_decide (user ∈ approvers st)))).

Definition remove_approver (user : Z) (st : State) : State * bool :=
  (mk_state (shares st) (approvers st ∖ {[user]}) (staged st) (sweep st) (removal st) (gated st) (events st),
   bool_decide (user ∈ approvers st)).

(** ** Histories *)

Inductive op : Type :=
| OSubmit (u : Upload) (opted : option bool) (sealed inserted : bool) (id token now : Z)
| ODecide (id approver : Z) (super approve : bool) (reason : option bytes) (token now : Z)
| OConsume (token caller : Z) (admin readable : bool) (now : Z)
| OGate (name : bytes) (u : Upload) (vault : bool) (opted : option bool) (sealed inserted : bool) (id token now : Z)
| ODeliver (marked : bool) (now : Z)
| ORotate
| OReadSweep (order : list Z) (now : Z)
| OSweep (updated : bool) (now : Z)
| OReadRemoval (order : list Z) (now : Z)
| ORemove (updated : bool)
| OPurge (updated : bool) (id now : Z)
| OAddApprover (user : Z) (known : bool)
| ORemoveApprover (user : Z).

Section histories.
(** The configured fail mode of the scanner. *)
Variable mode : FailMode.

Definition step (st : State) (o : op) : State :=
  match o with
  | OSubmit u opted sealed inserted id token now => fst (submit_scanned u mode opted sealed inserted id token now st)
  | ODecide id a super approve reason token now => fst (decide_share id a super approve reason token now st)
  | OConsume token caller admin readable now => fst (consume_download_token token caller admin readable now st)
  | OGate name u vault opted sealed inserted id token now => fst (gate_submit name u mode vault opted sealed inserted id token now st)
  | ODeliver marked now => fst (gate_deliver marked now st)
  | ORotate => rotate_gated st
  | OReadSweep order now => read_sweep order now st
  | OSweep updated now => sweep_one updated now st
  | OReadRemoval order now => read_removal order now st
  | ORemove updated => remove_one updated st
  | OPurge updated id now => fst (purge updated id now st)
  | OAddApprover user known => fst (add_approver user known st)
  | ORemoveApprover user => fst (remove_approver user st)
  end.

Definition initial : State := mk_state ∅ ∅ ∅ [] [] [] [].

(** Random ids and tokens are new, and a file size is a [u64]. *)
Definition submitted_id (id : Z) (e : event) : Prop := match e with EvSubmitted i _ _ _ _ => i = id | _ => False end.

Definition fresh_id (id : Z) (st : State) : Prop := Forall (fun e => ~ submitted_id id e) (events st).
Definition fresh_token (token : Z) (st : State) : Prop := map_Forall (fun _ s => download_token s <> Some token) (shares st).

Definition op_fresh (o : op) (st : State) : Prop :=
  match o with
  | OSubmit u _ _ _ id token _ | OGate _ u _ _ _ _ id token _ => fresh_id id st /\ fresh_token token st /\ 0 <= up_size u
  | ODecide _ _ _ _ _ token _ => fresh_token token st
  | _ => True
  end.

Inductive reachable : State -> Prop :=
| reach_initial : reachable initial
| reach_step st o : reachable st -> op_fresh o st -> reachable (step st o).

(** ** Well-formed rows *)

(** The status of a row and its secrets agree. *)
Definition row_ok (s : Share) : Prop :=
  (is_Some (download_token s) <-> status s = Approved) /\
  0 < size s <= MAX_FILE_SIZE /\
  expires_at s = created_at s + default_ttl /\
  match purged_at s with
  | Some _ => download_token s = None /\ sealed_dek s = false /\ storage_path s = false /\ status s <> Pending
  | None => sealed_dek s = true /\ storage_path s = true /\ status s <> Denied /\ status s <> Purged
  end.

Lemma new_share_ok u req token now : 0 < up_size u <= MAX_FILE_SIZE -> row_ok (new_share u req token now).
Proof. intros Hs. unfold row_ok, new_share. destruct req; cbn; split_and!; try done; try lia; split; try done; eauto. Qed.

Lemma decided_ok s a approve reason token now : row_ok s -> status s = Pending -> row_ok (decided s a approve reason token now).
Proof.
  intros (Ht & Hs & He & Hp) Es. unfold row_ok, decided. destruct approve; cbn; (split; [|split; [done|split; [done|]]]).
  - split; [done|eauto].
  - destruct (purged_at s); [by destruct Hp as (_ & _ & _ & []) | by destruct Hp as (? & ? & _)].
  - split; [by intros [? [=]]|done].
  - done.
Qed.

Lemma delivered_ok s now : row_ok s -> status s = Approved -> row_ok (delivered s now).
Proof.
  intros (Ht & Hs & He & Hp) Es. unfold row_ok, delivered. cbn. split; [split; [by intros [? [=]]|done]|]. split; [done|]. split; [done|].
  destruct (purged_at s) as [t|]; [|by destruct Hp as (? & ? & _)].
  destruct Hp as (Hn & _). destruct (proj2 Ht Es) as [? E]. congruence.
Qed.

Lemma wiped_ok s x now : row_ok s -> x <> Pending -> x <> Approved -> row_ok (wiped s x now).
Proof.
  intros (Ht & Hs & He & Hp) H1 H2. unfold row_ok, wiped. cbn. split_and!; try done; try lia.
Qed.

Lemma swept_closed x : swept_status x <> Pending /\ swept_status x <> Approved.
Proof. by destruct x. Qed.

(** ** The invariant *)

(** The share an event is about. *)
Definition subject (e : event) : Z := match e with EvSubmitted i _ _ _ _ | EvDecided i _ _ _ _ | EvDelivered i _ _ _ _ => i end.

(** What allows the delivery of [id], the submission of user [r] at [at_],
    to go ahead, among the events [l]. *)
Definition approved_in (id r at_ : Z) (l : list event) : Prop :=
  exists req v, EvSubmitted id r req v at_ ∈ l /\ blocks v mode = false /\
    (req = false \/ exists a super listed, EvDecided id a true super listed ∈ l /\ (super || listed) = true).

Definition delivery_ok (l : list event) (e : event) : Prop :=
  match e with
  | EvDelivered id to admin by_ now =>
      (exists r at_, approved_in id r at_ l /\ (to = r \/ admin = true) /\ (by_ = ByLink -> now < at_ + default_ttl)) /\
      (forall a super listed, EvDecided id a false super listed ∉ l) /\
      (by_ = ByLink -> forall to' admin' now', EvDelivered id to' admin' ByLink now' ∉ l)
  | _ => True
  end.

Definition history_ok (l : list event) : Prop := forall l1 e l2, l = l1 ++ e :: l2 -> delivery_ok l1 e.

Definition row_logged (l : list event) (id : Z) (s : Share) : Prop :=
  row_ok s /\
  (exists req v, EvSubmitted id (requester s) req v (created_at s) ∈ l /\ blocks v mode = false) /\
  (status s = Pending -> (forall r v at_, EvSubmitted id r false v at_ ∉ l) /\
    forall a approve super listed, EvDecided id a approve super listed ∉ l) /\
  (status s = Approved -> approved_in id (requester s) (created_at s) l /\ forall a super listed, EvDecided id a false super listed ∉ l) /\
  (status s = Pending \/ status s = Approved -> forall to admin now, EvDelivered id to admin ByLink now ∉ l).

Definition gate_logged (l : list event) (g : Z * Z) : Prop :=
  (exists v at_, EvSubmitted (fst g) (snd g) false v at_ ∈ l /\ blocks v mode = false) /\
  (forall a super listed, EvDecided (fst g) a false super listed ∉ l).

Record inv (st : State) : Prop := mk_inv {
  inv_rows : map_Forall (row_logged (events st)) (shares st);
  inv_tokens : forall i j s t tok, shares st !! i = Some s -> shares st !! j = Some t ->
    download_token s = Some tok -> download_token t = Some tok -> i = j;
  inv_staged : forall id, id ∈ staged st -> exists s, shares st !! id = Some s /\ storage_path s = true;
  inv_sweep : forall id p, (id, p) ∈ sweep st -> Exists (submitted_id id) (events st) /\
    forall s, shares st !! id = Some s -> storage_path s = true -> p = true;
  inv_removal : forall id, id ∈ removal st -> Exists (submitted_id id) (events st) /\
    forall s, shares st !! id = Some s -> is_Some (purged_at s);
  inv_gated : Forall (gate_logged (events st)) (gated st);
  inv_known : forall e, e ∈ events st -> Exists (submitted_id (subject e)) (events st);
  inv_direct : forall id r v at_ a approve super listed, EvSubmitted id r false v at_ ∈ events st -> EvDecided id a approve super listed ∉ events st;
  inv_history : history_ok (events st) }.

(** ** Events only add to what is known *)

(** An event about another share, or one that leaves no trace in a row. *)
Definition harmless (id : Z) (e : event) : Prop := match e with EvDelivered _ _ _ ByBrowser _ => True | _ => subject e <> id end.

Lemma approved_in_app id r t l k : approved_in id r t l -> approved_in id r t (l ++ k).
Proof.
  intros (req & v & Hs & Hb & Ha). exists req, v. rewrite elem_of_app. split_and!; [by left|done|].
  destruct Ha as [->|(a & sup & li & Ha & Hl)]; [by left|right]. exists a, sup, li. rewrite elem_of_app. auto.
Qed.

Lemma harmless_absent id l k e : Forall (harmless id) k -> ~ harmless id e -> e ∈ l ++ k -> e ∈ l.
Proof. rewrite Forall_forall. intros Hk He [?|Hin]%elem_of_app; [done|]. by destruct He; apply Hk. Qed.

Lemma row_logged_app l k id s : Forall (harmless id) k -> row_logged l id s -> row_logged (l ++ k) id s.
Proof.
  intros Hk (Hr & (req & v & Hs & Hb) & Hp & Ha & Hd).
  split; [done|]. split; [exists req, v; rewrite elem_of_app; auto|]. split_and!.
  - intros E. destruct (Hp E) as [H1 H2].
    split; [intros r v' t Hin|intros a ap su li Hin]; apply (harmless_absent id) in Hin; try done; [by apply H1 in Hin|by intros []|by apply H2 in Hin|by intros []].
  - intros E. destruct (Ha E) as [Hap Hno]. split; [by apply approved_in_app|]. intros a su li Hin.
    apply (harmless_absent id) in Hin; [by apply Hno in Hin|done|by intros []].
  - intros E to ad now Hin. apply (harmless_absent id) in Hin; [by apply (Hd E) in Hin|done|by intros []].
Qed.

Lemma gate_logged_app l k g : Forall (fun e => match e with EvDecided i _ _ _ _ => i <> fst g | _ => True end) k ->
  gate_logged l g -> gate_logged (l ++ k) g.
Proof.
  rewrite Forall_forall. intros Hk ((v & t & Hs & Hb) & Hd). split; [exists v, t; rewrite elem_of_app; auto|]. intros a su li [Hin|Hin]%elem_of_app; [by apply Hd in Hin|by apply Hk in Hin].
Qed.

Lemma history_ok_snoc l e : history_ok l -> delivery_ok l e -> history_ok (l ++ [e]).
Proof.
  intros Hl He l1 x l2 E. destruct l2 as [|y l2 _] using rev_ind.
  - apply app_inj_2 in E as [-> [= ->]]; done.
  - rewrite app_comm_cons, (assoc_L (++)) in E. apply app_inj_2 in E as [E _]; [|done]. by eapply Hl.
Qed.

Lemma fresh_unknown id st : fresh_id id st -> ~ Exists (submitted_id id) (events st).
Proof. intros Hf He. apply Exists_exists in He as (e & Hin & He). unfold fresh_id in Hf. rewrite Forall_forall in Hf. by apply (Hf e). Qed.

Lemma row_known l id s : row_logged l id s -> Exists (submitted_id id) l.
Proof. intros (_ & (req & v & Hs & _) & _). apply Exists_exists. by eexists. Qed.

Lemma gate_known l g : gate_logged l g -> Exists (submitted_id (fst g)) l.
Proof. intros ((v & t & Hs & _) & _). apply Exists_exists. by eexists. Qed.

Lemma known_app id l k : Exists (submitted_id id) l -> Exists (submitted_id id) (l ++ k).
Proof. intros. apply Exists_app. by left. Qed.

(** The delivery of an approved row by [consume] or of a gated one. *)
Lemma approved_delivery l id s to admin now : row_logged l id s -> status s = Approved -> now < expires_at s ->
  (requester s = to \/ admin = true) -> delivery_ok l (EvDelivered id to admin ByLink now).
Proof.
  intros ((_ & _ & He & _) & (req & v & Hs & _) & _ & Ha & Hd) E Hn Hto. destruct (Ha E) as [Hap Hno].
  split; [|split; [done|intros _; auto]]. exists (requester s), (created_at s).
  split; [done|]. split; [destruct Hto as [<-|]; auto|]. intros _. lia.
Qed.

Lemma gated_delivery l g now : gate_logged l g -> delivery_ok l (EvDelivered (fst g) (snd g) false ByBrowser now).
Proof.
  intros ((v & t & Hs & Hb) & Hd). split; [|split; [done|done]]. exists (snd g), t. split; [|split; [by left|done]]. exists false, v. auto.
Qed.

(** ** Changing one row *)

Record row_change (st : State) (id : Z) (s s' : Share) (evs : list event) (st' : State) : Prop := mk_change {
  ch_shares : shares st' = <[id := s']> (shares st);
  ch_events : events st' = events st ++ evs;
  ch_staged : staged st' ⊆ staged st /\ (id ∈ staged st' -> storage_path s' = true);
  ch_work : sweep st' ⊆ sweep st /\ removal st' = removal st;
  ch_gated : Forall (gate_logged (events st')) (gated st');
  ch_mono : (is_Some (purged_at s) -> is_Some (purged_at s')) /\ (storage_path s' = true -> storage_path s = true);
  ch_token : forall tok, download_token s' = Some tok -> download_token s = Some tok \/ fresh_token tok st;
  ch_row : row_logged (events st') id s';
  ch_harmless : Forall (fun e => subject e = id) evs /\ Forall (fun e => ~ submitted_id id e) evs;
  ch_direct : forall a approve super listed, EvDecided id a approve super listed ∈ evs -> forall r v at_, EvSubmitted id r false v at_ ∉ events st;
  ch_history : history_ok (events st') }.

Lemma row_change_inv st id s s' evs st' : inv st -> shares st !! id = Some s -> row_change st id s s' evs st' -> inv st'.
Proof.
  intros I E [Es Ee [Hst Hst'] [Hsw Hrm] Hg [Hpm Hsm] Ht Hrow [Hsub Hns] Hdir Hh].
  assert (forall j, j <> id -> Forall (harmless j) evs) as Hharm.
  { intros j Hj. eapply Forall_impl; [exact Hsub|]. unfold harmless. intros e He. destruct e as [| |? ? ? [] ?]; cbn in *; first [done|congruence]. }
  assert (forall j, Exists (submitted_id j) (events st) -> Exists (submitted_id j) (events st')) as Hk by (intros; rewrite Ee; by apply known_app).
  assert (forall e i, e ∈ evs -> submitted_id i e -> False) as Hnone.
  { rewrite Forall_forall in Hsub, Hns. intros e i Hin He. apply (Hns e Hin). specialize (Hsub e Hin). destruct e; cbn in *; congruence. }
  constructor; [..|done].
  - intros j t. rewrite Es. intros [[<- <-]|[Hn Hj]]%lookup_insert_Some; [done|]. rewrite Ee. apply row_logged_app; [by apply Hharm|].
    by apply (inv_rows _ I).
  - intros i j x y tok Hi Hj Hx Hy. rewrite Es in Hi, Hj.
    apply lookup_insert_Some in Hi as [[<- <-]|[Hni Hi]], Hj as [[<- <-]|[Hnj Hj]]; [done|..].
    + destruct (Ht tok Hx) as [Hx'|Hf]; [by eapply (inv_tokens _ I)|]. by apply (Hf _ _ Hj) in Hy.
    + destruct (Ht tok Hy) as [Hy'|Hf]; [by eapply (inv_tokens _ I)|]. by apply (Hf _ _ Hi) in Hx.
    + by eapply (inv_tokens _ I).
  - intros i Hi. destruct (decide (i = id)) as [->|Hn].
    + exists s'. rewrite Es, lookup_insert_eq. auto.
    + apply Hst, (inv_staged _ I) in Hi. by rewrite Es, lookup_insert_ne.
  - intros i p Hin. apply Hsw, (inv_sweep _ I) in Hin as [Hin Hp]. split; [auto|]. intros t. rewrite Es.
    intros [[<- <-]|[Hn Hj]]%lookup_insert_Some; [|by apply Hp]. intros Hs'. by apply (Hp s); auto.
  - intros i Hin. rewrite Hrm in Hin. apply (inv_removal _ I) in Hin as [Hin Hp]. split; [auto|]. intros t. rewrite Es.
    intros [[<- <-]|[Hn Hj]]%lookup_insert_Some; [|by apply Hp]. by apply Hpm, Hp.
  - done.
  - intros e. rewrite Ee. intros [Hin|Hin]%elem_of_app; [by apply known_app, (inv_known _ I)|].
    rewrite Forall_forall in Hsub. rewrite (Hsub e Hin). eapply known_app, row_known, (inv_rows _ I), E.
  - intros i r v t a ap su li. rewrite Ee. intros [Hin|Hin]%elem_of_app; [|by destruct (Hnone _ i Hin)].
    intros [Hd|Hd]%elem_of_app; [by eapply (inv_direct _ I)|]. rewrite Forall_forall in Hsub. pose proof (Hsub _ Hd) as Ei. cbn in Ei. subst i.
    by eapply Hdir.
Qed.

(** ** Every step keeps the invariant *)

Definition submitted (u : Upload) (req : bool) (id token now : Z) (st : State) : State :=
  log (EvSubmitted id (up_user u) req (up_verdict u) now)
    (mk_state (<[id := new_share u req token now]> (shares st)) (approvers st) (staged st ∪ {[id]}) (sweep st) (removal st) (gated st) (events st)).

Lemma submitted_inv u req id token now st : inv st -> fresh_id id st -> fresh_token token st ->
  0 < up_size u <= MAX_FILE_SIZE -> blocks (up_verdict u) mode = false ->
  inv (submitted u req id token now st) /\ (req = false -> gate_logged (events (submitted u req id token now st)) (id, up_user u)).
Proof.
  intros I Hid Htok Hsz Hb. pose proof (fresh_unknown id st Hid) as Hun.
  set (ev := EvSubmitted id (up_user u) req (up_verdict u) now).
  assert (forall e, e ∈ events st -> subject e <> id) as Hno by (intros e Hin <-; by apply Hun, (inv_known _ I)).
  assert (shares st !! id = None) as Hnone.
  { destruct (shares st !! id) as [s|] eqn:E; [|done]. exfalso. eapply Hun, row_known, (inv_rows _ I), E. }
  assert (ev ∈ events st ++ [ev]) as Hev by (apply elem_of_app; right; by left).
  assert (forall a ap su li, EvDecided id a ap su li ∉ events st ++ [ev]) as Hdec.
  { intros a ap su li [Hin|Hin%list_elem_of_singleton]%elem_of_app; [by apply Hno in Hin|done]. }
  assert (req = false -> approved_in id (up_user u) now (events st ++ [ev])) as Happ.
  { intros ->. exists false, (up_verdict u). auto. }
  split; [|intros Hr; split; [subst req; cbn; eauto 6|intros; apply Hdec]].
  constructor; cbn.
  - intros j t [[<- <-]|[Hn Hj]]%lookup_insert_Some; [|apply row_logged_app; [by constructor|by apply (inv_rows _ I)]].
    split; [by apply new_share_ok|]. split; [exists req, (up_verdict u); auto|]. cbn. split_and!.
    + intros Ep. split; [|intros; apply Hdec]. intros r v t [Hin|Hin%list_elem_of_singleton]%elem_of_app; [by apply Hno in Hin|].
      unfold ev in Hin. destruct req; done.
    + destruct req; [done|]. intros _. split; [by apply Happ|]. intros; apply Hdec.
    + intros _ to ad t [Hin|Hin%list_elem_of_singleton]%elem_of_app; [by apply Hno in Hin|done].
  - intros i j x y tok [[<- <-]|[Hni Hi]]%lookup_insert_Some [[<- <-]|[Hnj Hj]]%lookup_insert_Some Hx Hy; [done|..].
    + cbn in Hx. destruct req; [done|]. injection Hx as ->. by apply (Htok _ _ Hj) in Hy.
    + cbn in Hy. destruct req; [done|]. injection Hy as ->. by apply (Htok _ _ Hi) in Hx.
    + by eapply (inv_tokens _ I).
  - intros i [Hi|Hi%elem_of_singleton]%elem_of_union; [|subst; exists (new_share u req token now); by rewrite lookup_insert_eq].
    apply (inv_staged _ I) in Hi as (t & Ht & Hs). exists t. rewrite lookup_insert_ne by congruence. done.
  - intros i p Hin. apply (inv_sweep _ I) in Hin as [Hk Hp]. split; [by apply known_app|].
    intros t [[<- <-]|[Hn Hj]]%lookup_insert_Some; [done|by apply Hp].
  - intros i Hin. apply (inv_removal _ I) in Hin as [Hk Hp]. split; [by apply known_app|].
    intros t [[<- <-]|[Hn Hj]]%lookup_insert_Some; [done|by apply Hp].
  - eapply Forall_impl; [apply (inv_gated _ I)|]. intros g. apply gate_logged_app. by repeat constructor.
  - intros e [Hin|Hin%list_elem_of_singleton]%elem_of_app; [by apply known_app, (inv_known _ I)|]. subst e.
    apply Exists_exists. exists ev. by split.
  - intros i r v t a ap su li [Hin|Hin%list_elem_of_singleton]%elem_of_app.
    + intros [Hd|Hd%list_elem_of_singleton]%elem_of_app; [by eapply (inv_direct _ I)|done].
    + unfold ev in Hin. injection Hin as -> _ _ _ _. apply Hdec.
  - apply history_ok_snoc; [apply (inv_history _ I)|done].
Qed.

Lemma submit_inv u req sealed inserted id token now st : inv st -> fresh_id id st -> fresh_token token st -> 0 <= up_size u ->
  blocks (up_verdict u) mode = false ->
  match submit u req sealed inserted id token now st with
  | (st', Ok x) => inv st' /\ (x = Approved -> gate_logged (events st') (id, up_user u)) /\ gated st' = gated st
  | (st', Err _) => st' = st
  end.
Proof.
  intros I Hid Htok Hz Hb. unfold submit. destruct (up_size u =? 0) eqn:E0; [done|]. destruct (MAX_FILE_SIZE <? up_size u) eqn:E1; [done|].
  b2p. destruct sealed, inserted; cbn [negb]; try done.
  destruct (submitted_inv u req id token now st I Hid Htok ltac:(lia) Hb) as [Hi Hg]. split; [exact Hi|]. split; [|done].
  destruct req; [done|]. intros _. by apply Hg.
Qed.

Lemma finalize_inv u opted sealed inserted id token now st : inv st -> fresh_id id st -> fresh_token token st -> 0 <= up_size u ->
  blocks (up_verdict u) mode = false ->
  match finalize_submit u opted sealed inserted id token now st with
  | (st', Ok x) => inv st' /\ (x = Approved -> gate_logged (events st') (id, up_user u)) /\ gated st' = gated st
  | (st', Err _) => st' = st
  end.
Proof. intros. unfold finalize_submit. destruct (validate_outbound_justification _ _); [by apply submit_inv|done]. Qed.

(** Only the work lists or the gates change. *)
Lemma work_inv sw rm st : inv st ->
  (forall id p, (id, p) ∈ sw -> (id, p) ∈ sweep st \/ exists s, shares st !! id = Some s /\ p = storage_path s) ->
  (forall id, id ∈ rm -> id ∈ removal st \/ exists s, shares st !! id = Some s /\ is_Some (purged_at s)) ->
  inv (set_work sw rm st).
Proof.
  intros I Hsw Hrm. destruct I as [Hr Ht Hst Hs Hm Hg Hk Hd Hh]. constructor; cbn; try done.
  - intros id p [Hin|(s & E & ->)]%Hsw; [by apply Hs|]. split; [by eapply row_known, Hr|]. intros t Et. rewrite E in Et. by injection Et as <-.
  - intros id [Hin|(s & E & Hp)]%Hrm; [by apply Hm|]. split; [by eapply row_known, Hr|]. intros t Et. rewrite E in Et. by injection Et as <-.
Qed.

Lemma gated_inv l st : inv st -> Forall (gate_logged (events st)) l -> inv (set_gated l st).
Proof. intros [Hr Ht Hst Hs Hm Hg Hk Hd Hh] Hl. by constructor. Qed.

Lemma approvers_inv m st : inv st -> inv (mk_state (shares st) m (staged st) (sweep st) (removal st) (gated st) (events st)).
Proof. intros [Hr Ht Hst Hs Hm Hg Hk Hd Hh]. by constructor. Qed.

(** Clearing a row's secrets and its file. *)
Lemma wipe_inv id s x now sw st : inv st -> shares st !! id = Some s -> x <> Pending -> x <> Approved ->
  sw ⊆ sweep st -> forall un : bool, (storage_path s = true -> un = true) ->
  inv (set_share id (wiped s x now) (set_work sw (removal st) (if un then unstage id st else st))).
Proof.
  intros I E H1 H2 Hsw un Hun. destruct (inv_rows _ I _ _ E) as (Hr & Hs & _).
  apply (row_change_inv st id s (wiped s x now) []); [done|done|]. constructor; cbn; rewrite ?app_nil_r; try done.
  - by destruct un.
  - by destruct un; cbn; rewrite ?app_nil_r.
  - split; [destruct un; cbn; [apply subseteq_difference_l|]; done|]. intros Hin.
    destruct un; cbn in Hin; [apply elem_of_difference in Hin as [_ Hin]; by destruct Hin; apply elem_of_singleton|].
    apply (inv_staged _ I) in Hin as (t & Et & Hp). rewrite E in Et. injection Et as <-. by apply Hun in Hp.
  - destruct un; apply (inv_gated _ I).
  - assert (row_logged (events st) id (wiped s x now)); [|by destruct un].
    split; [by apply wiped_ok|]. split; [done|]. cbn. split_and!; by try intros [?|?].
  - by intros * ?%elem_of_nil.
  - destruct un; apply (inv_history _ I).
Qed.

Lemma decide_inv id a super approve reason token now st : inv st -> fresh_token token st ->
  inv (fst (decide_share id a super approve reason token now st)).
Proof.
  intros I Hf. unfold decide_share. destruct (negb super && _) eqn:Hg; [done|]. destruct (shares st !! id) as [s|] eqn:E; [|done].
  destruct (bool_decide_reflect (status s = Pending)) as [Es|]; cbn [negb]; [|exact I]. destruct (_ <=? _); [exact I|]. cbn [fst].
  destruct (inv_rows _ I _ _ E) as (Hr & (req & v & Hsub & Hb) & Hp & _ & Hd). destruct (Hp Es) as [Hdir Hno].
  set (ev := EvDecided id a approve super (bool_decide (a ∈ approvers st))).
  eapply (row_change_inv st id s (decided s a approve reason token now) [ev]); [done|done|].
  assert (storage_path s = true) as Hsp.
  { destruct Hr as (_ & _ & _ & Hq). destruct (purged_at s); [by destruct Hq as (_ & _ & _ & [])|by destruct Hq as (_ & ? & _)]. }
  assert (history_ok (events st ++ [ev])) as Hh by (apply history_ok_snoc; [apply (inv_history _ I)|done]).
  assert (Forall (gate_logged (events st ++ [ev])) (gated st)) as Hgl.
  { eapply Forall_impl; [apply (inv_gated _ I)|]. intros g Hgg. apply gate_logged_app; [|done]. apply Forall_singleton. cbn. intros ->.
    destruct Hgg as ((v' & t & Hs & _) & _). by apply Hdir in Hs. }
  assert (row_logged (events st ++ [ev]) id (decided s a approve reason token now)) as Hrow.
  { split; [by apply decided_ok|]. cbn. split; [exists req, v; rewrite elem_of_app; auto|]. destruct approve; (split_and!; [done|..]).
    - intros _. split.
      + exists req, v. rewrite elem_of_app. split_and!; [by left|done|right]. exists a, super, (bool_decide (a ∈ approvers st)).
        split; [rewrite elem_of_app; right; by left|]. by destruct super, (bool_decide _).
      + intros b su li [Hin|Hin%list_elem_of_singleton]%elem_of_app; [by apply Hno in Hin|done].
    - intros _ to ad t [Hin|Hin%list_elem_of_singleton]%elem_of_app; [|done]. apply Hd in Hin; auto.
    - done.
    - by intros [?|?]. }
  subst ev. rewrite Hsp, andb_true_r. destruct approve; constructor; cbn; try done; try (split; apply Forall_singleton; cbn; tauto).
  - intros tok [= <-]. by right.
  - split; [by apply subseteq_difference_l|]. intros [_ Hin]%elem_of_difference. by destruct Hin; apply elem_of_singleton.
Qed.

Lemma with_token_lookup token st id s : with_token token st = Some (id, s) -> shares st !! id = Some s /\ download_token s = Some token.
Proof.
  unfold with_token. intros H%head_Some_elem_of. apply list_elem_of_filter in H as [Ht Hin]. by apply elem_of_map_to_list in Hin.
Qed.

(** The browser or the link delivers an approved share. *)
Lemma delivered_change id s ev now st : inv st -> shares st !! id = Some s -> status s = Approved ->
  (exists to admin by_ at_, ev = EvDelivered id to admin by_ at_) -> history_ok (events st ++ [ev]) ->
  inv (log ev (set_share id (delivered s now) st)).
Proof.
  intros I E Es (to & ad & b & t & ->) Hh. destruct (inv_rows _ I _ _ E) as (Hr & (req & v & Hsub & Hb) & _).
  apply (row_change_inv st id s (delivered s now) [EvDelivered id to ad b t]); [done|done|]. constructor; cbn; try done; try (split; apply Forall_singleton; cbn; tauto).
  - split; [done|]. intros (s' & E' & Hp)%(inv_staged _ I). by simplify_eq.
  - eapply Forall_impl; [apply (inv_gated _ I)|]. intros g. apply gate_logged_app. by apply Forall_singleton.
  - split; [by apply delivered_ok|]. cbn. split; [exists req, v; rewrite elem_of_app; auto|]. split_and!; by try intros [?|?].
  - by intros * ?%list_elem_of_singleton.
Qed.

Lemma log_inv id to ad now st : inv st -> Exists (submitted_id id) (events st) ->
  history_ok (events st ++ [EvDelivered id to ad ByBrowser now]) -> inv (log (EvDelivered id to ad ByBrowser now) st).
Proof.
  intros I Hk Hh. constructor; cbn; try done.
  - intros j t Hj. apply row_logged_app; [by apply Forall_singleton|]. by apply (inv_rows _ I).
  - apply (inv_tokens _ I).
  - apply (inv_staged _ I).
  - intros i p Hin. apply (inv_sweep _ I) in Hin as [? Hp]. split; [by apply known_app|exact Hp].
  - intros i Hin. apply (inv_removal _ I) in Hin as [? Hp]. split; [by apply known_app|exact Hp].
  - eapply Forall_impl; [apply (inv_gated _ I)|]. intros g. apply gate_logged_app. by apply Forall_singleton.
  - intros e [Hin|Hin%list_elem_of_singleton]%elem_of_app; [by apply known_app, (inv_known _ I)|subst]. by apply known_app.
  - intros i r v t a ap su li [Hin|Hin%list_elem_of_singleton]%elem_of_app; [|done].
    intros [Hd|Hd%list_elem_of_singleton]%elem_of_app; [by eapply (inv_direct _ I)|done].
Qed.

Lemma consume_inv token caller admin readable now st : inv st -> inv (fst (consume_download_token token caller admin readable now st)).
Proof.
  intros I. unfold consume_download_token. destruct (with_token token st) as [[id s]|] eqn:Ew; [|done].
  apply with_token_lookup in Ew as [E _]. destruct (negb _ && negb admin) eqn:Hc; [done|].
  destruct (bool_decide_reflect (status s = Approved)) as [Es|]; cbn [negb]; [|done]. destruct (expires_at s <=? now) eqn:Hx; [done|].
  destruct (storage_path s); [|done]. destruct (sealed_dek s); [|done]. destruct (readable && _); [|done]. cbn [negb fst].
  apply delivered_change; eauto 6. apply history_ok_snoc; [apply (inv_history _ I)|].
  eapply approved_delivery; [by apply (inv_rows _ I)|done|lia|]. destruct (bool_decide_reflect (requester s = caller)); [by left|right].
  by destruct admin.
Qed.

Lemma deliver_inv marked now st : inv st -> inv (fst (gate_deliver marked now st)).
Proof.
  intros I. unfold gate_deliver. destruct (gated st) as [|[id user] r] eqn:Hg; [done|].
  pose proof (inv_gated _ I) as Hall. rewrite Hg in Hall. apply Forall_cons in Hall as [Hone Hall].
  assert (inv (set_gated r st)) as I1 by (by apply gated_inv). destruct marked; cbn [negb fst]; [|done].
  assert (history_ok (events st ++ [EvDelivered id user false ByBrowser now])) as Hh.
  { apply history_ok_snoc; [apply (inv_history _ I)|]. by apply (gated_delivery _ (id, user)). }
  unfold mark_delivered. destruct (shares (set_gated r st) !! id) as [s|] eqn:E; [destruct (bool_decide_reflect (status s = Approved))|].
  - apply delivered_change; eauto 6.
  - apply log_inv; [done|apply (gate_known _ (id, user) Hone)|done].
  - apply log_inv; [done|apply (gate_known _ (id, user) Hone)|done].
Qed.

Lemma submit_scanned_inv u opted sealed inserted id token now st : inv st -> fresh_id id st -> fresh_token token st -> 0 <= up_size u ->
  inv (fst (submit_scanned u mode opted sealed inserted id token now st)).
Proof.
  intros I Hid Ht Hz. unfold submit_scanned. destruct (blocks _ _) eqn:Hb; [done|].
  pose proof (finalize_inv u opted sealed inserted id token now st I Hid Ht Hz Hb) as H.
  destruct (finalize_submit _ _ _ _ _ _ _ _) as [st' [x|e]]; cbn; [apply H|by subst].
Qed.

Lemma gate_submit_inv name u vault opted sealed inserted id token now st : inv st -> fresh_id id st -> fresh_token token st -> 0 <= up_size u ->
  inv (fst (gate_submit name u mode vault opted sealed inserted id token now st)).
Proof.
  intros I Hid Ht Hz. unfold gate_submit. destruct (blocks _ _) eqn:Hb; [done|]. destruct vault; cbn [negb]; [|done].
  set (u' := mk_upload _ _ _ _ _ _). pose proof (finalize_inv u' opted sealed inserted id token now st I Hid Ht Hz Hb) as H.
  destruct (finalize_submit _ _ _ _ _ _ _ _) as [st' [x|e]]; [|by subst]. destruct H as (I' & Hg & _).
  destruct x; try done. cbn. apply gated_inv; [done|]. apply Forall_app. split; [apply (inv_gated _ I')|]. apply Forall_singleton, Hg; done.
Qed.

Lemma rotate_inv st : inv st -> inv (rotate_gated st).
Proof.
  intros I. unfold rotate_gated. destruct (gated st) as [|g r] eqn:Hg; [done|]. apply gated_inv; [done|].
  pose proof (inv_gated _ I) as H. rewrite Hg in H. apply Forall_cons in H as [??]. apply Forall_app. split; [done|by apply Forall_singleton].
Qed.

Lemma read_sweep_inv order now st : inv st -> inv (read_sweep order now st).
Proof.
  intros I. apply work_inv; [done| |auto]. intros id p (k & Hin%list_elem_of_lookup_2 & _)%elem_of_take. right. apply list_elem_of_omap in Hin as (i & _ & H).
  destruct (shares st !! i) as [s|] eqn:E; [|done]. cbn in H. destruct (decide _); [|done]. injection H as <- <-. eauto.
Qed.

Lemma read_removal_inv order now st : inv st -> inv (read_removal order now st).
Proof.
  intros I. apply work_inv; [done|auto|]. intros id (k & Hin%list_elem_of_lookup_2 & _)%elem_of_take. right. apply list_elem_of_omap in Hin as (i & _ & H).
  destruct (shares st !! i) as [s|] eqn:E; [|done]. cbn in H. destruct (decide _) as [Hr|]; [|done]. injection H as <-. exists s. split; [done|].
  unfold removable in Hr. by destruct (purged_at s).
Qed.

(** A file that no row lists any more goes without a trace in the rows. *)
Lemma unstage_inv id st : inv st -> inv (unstage id st).
Proof.
  intros [Hr Ht Hst Hs Hm Hg Hk Hd Hh]. constructor; try done. intros i [Hi _]%elem_of_difference. by apply Hst.
Qed.

Lemma sweep_one_inv updated now st : inv st -> inv (sweep_one updated now st).
Proof.
  intros I. unfold sweep_one. destruct (sweep st) as [|[id p] r] eqn:Hsw; [done|].
  assert (r ⊆ sweep st) as Hr by (rewrite Hsw; intros x; by right).
  destruct (inv_sweep _ I id p) as [_ Hp]; [rewrite Hsw; by left|].
  assert (inv (set_work r (removal st) (if p then unstage id st else st))) as I1.
  { assert (inv (if p then unstage id st else st)) as I1 by (destruct p; [by apply unstage_inv|done]).
    apply work_inv; [done| |]; [intros i q Hin; left; destruct p; by apply Hr|intros i Hin; left; by destruct p]. }
  destruct updated; cbn [negb]; [|done]. destruct (shares st !! id) as [s|] eqn:E; [|done]. destruct (purged_at s); [done|].
  destruct (swept_closed (status s)). exact (wipe_inv id s (swept_status (status s)) now r st I E ltac:(done) ltac:(done) Hr p (Hp s eq_refl)).
Qed.

Lemma remove_one_inv updated st : inv st -> inv (remove_one updated st).
Proof.
  intros I. unfold remove_one. destruct (removal st) as [|id r] eqn:Hrm; [done|].
  destruct (inv_removal _ I id) as [_ Hp]; [rewrite Hrm; by left|]. destruct updated; cbn [negb].
  2: { apply work_inv; [done|auto|]. intros i Hin. left. rewrite Hrm. by right. }
  pose proof I as [Hr Ht Hst Hs Hm Hg Hk Hd Hh]. constructor; cbn; try done.
  - intros i s [_ Hi]%lookup_delete_Some. by apply Hr.
  - intros i j s t tok [_ Hi]%lookup_delete_Some [_ Hj]%lookup_delete_Some. by eapply Ht.
  - intros i Hi. apply Hst in Hi as (s & E & Hsp). exists s. split; [|done]. apply lookup_delete_Some. split; [|done]. intros <-.
    destruct (Hr _ _ E) as ((_ & _ & _ & Hq) & _). destruct (Hp s E) as [t Et]. rewrite Et in Hq. destruct Hq as (_ & _ & Hq & _). congruence.
  - intros i p Hin. apply Hs in Hin as [? Hin]. split; [done|]. intros s [_ Hi]%lookup_delete_Some. by apply Hin.
  - intros i Hin. destruct (Hm i) as [? Hin']; [rewrite Hrm; by right|]. split; [done|]. intros s [_ Hi]%lookup_delete_Some. by apply Hin'.
Qed.

Lemma purge_inv updated id now st : inv st -> inv (fst (purge updated id now st)).
Proof.
  intros I. unfold purge. destruct (shares st !! id) as [s|] eqn:E; [|done]. destruct updated; cbn [negb fst].
  2: { destruct (storage_path s); [by apply unstage_inv|done]. }
  pose proof (wipe_inv id s Purged now (sweep st) st I E ltac:(done) ltac:(done) ltac:(done) (storage_path s) ltac:(done)) as H.
  by destruct (storage_path s), st.
Qed.

Lemma approver_inv user known st : inv st -> inv (fst (add_approver user known st)) /\ inv (fst (remove_approver user st)).
Proof. intros I. split; [destruct known; [|done]|]; by apply approvers_inv. Qed.

Lemma initial_inv : inv initial.
Proof. constructor; cbn; try done; try set_solver. by intros [|??] ???. Qed.

Lemma outbound_inv st : reachable st -> inv st.
Proof.
  induction 1 as [|st o _ I Hf]; [apply initial_inv|]. destruct o; cbn [step op_fresh] in *.
  - apply submit_scanned_inv; tauto.
  - by apply decide_inv.
  - by apply consume_inv.
  - apply gate_submit_inv; tauto.
  - by apply deliver_inv.
  - by apply rotate_inv.
  - by apply read_sweep_inv.
  - by apply sweep_one_inv.
  - by apply read_removal_inv.
  - by apply remove_one_inv.
  - by apply purge_inv.
  - by apply approver_inv.
  - by apply (approver_inv user true).
Qed.
End histories.

(** ** What the histories show *)

(** C3: every delivery of a file out of a session, by a download link or by
    the file browser, went to the user who submitted the file or to an
    administrator, after a scan whose verdict the configured mode lets pass,
    and after either a bypass recorded for that submission or the approval of
    somebody who was then a super administrator or on the list of approvers;
    never after a denial.  A link delivers before the share expires, and at
    most once.  This holds in every interleaving of submissions, decisions,
    downloads, gate steps, sweeps and purges. *)
Theorem delivery_authorised mode st l1 id to admin by_ now l2 :
  reachable mode st -> events st = l1 ++ EvDelivered id to admin by_ now :: l2 ->
  (exists r req v at_, EvSubmitted id r req v at_ ∈ l1 /\ blocks v mode = false /\ (to = r \/ admin = true) /\
     (req = false \/ exists a super listed, EvDecided id a true super listed ∈ l1 /\ (super || listed) = true) /\
     (by_ = ByLink -> now < at_ + default_ttl)) /\
  (forall a super listed, EvDecided id a false super listed ∉ l1) /\
  (by_ = ByLink -> forall to' admin' now', EvDelivered id to' admin' ByLink now' ∉ l1).
Proof.
  intros I%outbound_inv E. destruct (inv_history _ _ I _ _ _ E) as ((r & t & (req & v & Hs & Hb & Ha) & Hto & Hx) & Hd & H1).
  split; [|done]. by exists r, req, v, t.
Qed.


(** ** Submissions *)

Lemma justified req j x : validate_outbound_justification req j = Ok x ->
  req = false \/ exists t, j = Some t /\ (10 <= char_count (trim t))%nat.
Proof.
  unfold validate_outbound_justification. destruct req; cbn [negb]; [|by left]. destruct (_ <? _)%nat eqn:Hl; [done|]. intros _. right.
  apply Nat.ltb_ge in Hl. destruct j as [t|]; [by exists t|]. exfalso. vm_compute in Hl. lia.
Qed.

Lemma first_hit_nonneg hit ws p reason : 0 <= p -> 0 <= fst (first_hit hit ws p reason).
Proof. unfold first_hit. by destruct (filter _ ws). Qed.

Lemma foldl_plus_score l a : foldl plus_score a l = (fst a + foldr Z.add 0 (map fst l), snd a ++ concat (map snd l)).
Proof.
  revert a. induction l as [|x l IH]; intros [n r]; cbn; [by rewrite Z.add_0_r, app_nil_r|]. rewrite IH. cbn. f_equal; [lia|by rewrite app_assoc].
Qed.

Lemma dlp_score_bounds name ct sz : 0 <= fst (compute_dlp_score name ct sz) <= 100.
Proof.
  unfold compute_dlp_score. rewrite foldl_plus_score. cbn [fst]. destruct (100 <? _) eqn:E; b2p; cbn [fst]; [lia|]. split; [|lia].
  cbn [map foldr fst]. repeat apply Z.add_nonneg_nonneg; try lia; try (by apply first_hit_nonneg); repeat case_match; cbn; lia.
Qed.

(** A submission through the routes is refused without a trace, or it is
    stored: then the scan did not block the file, which is neither empty nor
    over the limit, the justification is long enough unless the user has the
    recorded bypass, the share waits for an approver exactly without it, and
    its score is between 0 and 100. *)
Lemma submission_rules u mode opted sealed inserted id token now st :
  match submit_scanned u mode opted sealed inserted id token now st with
  | (st', Err _) => st' = st
  | (st', Ok x) =>
      blocks (up_verdict u) mode = false /\ up_size u <> 0 /\ up_size u <= MAX_FILE_SIZE /\
      (opted = Some false \/ exists j, up_justification u = Some j /\ (10 <= char_count (trim j))%nat) /\
      x = (if bool_decide (opted = Some false) then Approved else Pending) /\
      exists s, shares st' = <[id := s]> (shares st) /\ staged st' = staged st ∪ {[id]} /\ status s = x /\
        requester s = up_user u /\ 0 <= dlp_score s <= 100
  end.
Proof.
  unfold submit_scanned, finalize_submit, submit. destruct (blocks _ _) eqn:Hb; [done|].
  destruct (validate_outbound_justification _ _) eqn:Hv; [|done]. destruct (up_size u =? 0) eqn:H0; [done|].
  destruct (MAX_FILE_SIZE <? up_size u) eqn:H1; [done|]. destruct sealed, inserted; cbn [negb]; try done. b2p.
  split; [done|]. split; [done|]. split; [done|]. split; [|split].
  - apply justified in Hv as [Hv|?]; [left; by destruct opted as [[]|]|by right].
  - by destruct opted as [[]|].
  - exists (new_share u (default true opted) token now). split_and!; try done; apply dlp_score_bounds.
Qed.
End Outbound.

(** * One-shot upload tokens

    [services/outbound_share_ingest.rs] and the handler [ingest_via_token].
    [mint] counts and then inserts in two statements, [consume] is one. *)
Module Ingest.

Definition TOKEN_TTL_SECONDS : Z := 10 * 60.
Definition MAX_MINTS_PER_MINUTE : Z := 10.

Record IngestContext : Type := mk_ctx {
  user_id : Z; session_id : option bytes; connection_id : option Z; ctx_justification : option bytes }.

#[export] Instance context_eq_dec : EqDecision IngestContext.
Proof. solve_decision. Defined.

(** A row of [outbound_share_ingest_tokens]. *)
Record Row : Type := mk_row { row_ctx : IngestContext; expires_at : Z; created_at : Z; used_at : option Z }.

Inductive event : Type :=
| Minted (token : bytes) (ctx : IngestContext) (now : Z)
| Consumed (token : bytes) (ctx : IngestContext) (now : Z).

(** [minting] are the requests whose count has passed. *)
Record State : Type := mk_state { tokens : gmap bytes Row; minting : list IngestContext; log : list event }.

Definition recent (user now : Z) (st : State) : Z :=
  Z.of_nat (length (filter (fun e => user_id (row_ctx (snd e)) = user /\ now - 60 < created_at (snd e)) (map_to_list (tokens st)))).

Definition mint_check (ctx : IngestContext) (now : Z) (st : State) : State * result Outbound.ShareError unit :=
  if MAX_MINTS_PER_MINUTE <=? recent (user_id ctx) now st then
    (st, Err (Outbound.Validation (str "Too many upload tokens requested. Wait a minute and try again.")))
  else (mk_state (tokens st) (minting st ++ [ctx]) (log st), Ok tt).

Definition mint_insert (token : bytes) (now : Z) (st : State) : State :=
  match minting st with
  | [] => st
  | ctx :: r => mk_state (<[token := mk_row ctx (now + TOKEN_TTL_SECONDS) now None]> (tokens st)) r (log st ++ [Minted token ctx now])
  end.

Definition invalid : Outbound.ShareError := Outbound.Validation (str "Invalid or expired upload token.").

Definition consume (submitted : bytes) (now : Z) (st : State) : State * result Outbound.ShareError IngestContext :=
  if (length submitted <? 16)%nat || (128 <? length submitted)%nat then (st, Err invalid)
  else match tokens st !! submitted with
       | Some r =>
           if bool_decide (used_at r = None) && (now <? expires_at r) then
             (mk_state (<[submitted := mk_row (row_ctx r) (expires_at r) (created_at r) (Some now)]> (tokens st)) (minting st)
                (log st ++ [Consumed submitted (row_ctx r) now]), Ok (row_ctx r))
           else (st, Err invalid)
       | None => (st, Err invalid)
       end.

Definition purge_expired (now : Z) (st : State) : State :=
  mk_state (filter (fun e => ~ expires_at (snd e) < now - Outbound.DAY) (tokens st)) (minting st) (log st).

(** What [parse_outbound_multipart] found in the form; the upload's user and
    justification are not yet known. *)
Record Parsed : Type := mk_parsed {
  p_filename : bytes; p_content_type : bytes; p_size : Z; p_verdict : Verdict;
  p_session : option bytes; p_connection : option Z; p_justification : option bytes }.

(** [a.or(b)]. *)
Definition or_else {A} (a b : option A) : option A := match a with Some _ => a | None => b end.

(** The token goes first, then the requester's permission, then the scan;
    the token's context wins over the form's. *)
Definition ingest_via_token (mode : FailMode) (token : bytes) (allowed : option bool) (p : Parsed) (opted : option bool)
    (sealed inserted : bool) (id share_token now : Z) (st : State * Outbound.State) :
    State * Outbound.State * result Outbound.ShareError (option bytes * option Z * Outbound.OutboundShareStatus) :=
  match consume token now (fst st) with
  | (it, Err e) => (it, snd st, Err e)
  | (it, Ok ctx) =>
      if negb (bool_decide (allowed = Some true)) then (it, snd st, Err Outbound.Forbidden)
      else
        let u := Outbound.mk_upload (user_id ctx) (p_filename p) (p_content_type p) (p_size p)
                   (or_else (ctx_justification ctx) (p_justification p)) (p_verdict p) in
        match Outbound.submit_scanned u mode opted sealed inserted id share_token now (snd st) with
        | (ot, Ok x) => (it, ot, Ok (or_else (session_id ctx) (p_session p), or_else (connection_id ctx) (p_connection p), x))
        | (ot, Err e) => (it, ot, Err e)
        end
  end.

(** ** Histories *)

Inductive op : Type :=
| OCheck (ctx : IngestContext) (now : Z)
| OInsert (token : bytes) (now : Z)
| OConsume (token : bytes) (now : Z)
| OPurge (now : Z).

Definition step (st : State) (o : op) : State :=
  match o with
  | OCheck ctx now => fst (mint_check ctx now st)
  | OInsert token now => mint_insert token now st
  | OConsume token now => fst (consume token now st)
  | OPurge now => purge_expired now st
  end.

Definition token_of (e : event) : bytes := match e with Minted t _ _ | Consumed t _ _ => t end.

(** The random tokens are new. *)
Definition op_fresh (o : op) (st : State) : Prop :=
  match o with OInsert token _ => Forall (fun e => token_of e <> token) (log st) | _ => True end.

Definition initial : State := mk_state ∅ [] [].

Inductive reachable : State -> Prop :=
| reach_initial : reachable initial
| reach_step st o : reachable st -> op_fresh o st -> reachable (step st o).

Definition consumption_ok (l : list event) (e : event) : Prop :=
  match e with
  | Consumed token ctx now =>
      (exists t, Minted token ctx t ∈ l /\ now < t + TOKEN_TTL_SECONDS) /\ (forall ctx' t, Consumed token ctx' t ∉ l)
  | Minted _ _ _ => True
  end.

(** A row without a use is one whose minting is on record and no use is. *)
Definition row_logged (l : list event) (token : bytes) (r : Row) : Prop :=
  Minted token (row_ctx r) (created_at r) ∈ l /\ expires_at r = created_at r + TOKEN_TTL_SECONDS /\
  (used_at r = None -> forall ctx t, Consumed token ctx t ∉ l).

Record inv (st : State) : Prop := mk_inv {
  inv_rows : map_Forall (row_logged (log st)) (tokens st);
  inv_history : forall l1 e l2, log st = l1 ++ e :: l2 -> consumption_ok l1 e }.

Lemma snoc_history (P : list event -> event -> Prop) l e :
  (forall l1 x l2, l = l1 ++ x :: l2 -> P l1 x) -> P l e -> forall l1 x l2, l ++ [e] = l1 ++ x :: l2 -> P l1 x.
Proof.
  intros Hl He l1 x l2 E. destruct l2 as [|y l2 _] using rev_ind; [by apply app_inj_2 in E as [-> [= ->]]|].
  rewrite app_comm_cons, (assoc_L (++)) in E. apply app_inj_2 in E as [E _]; [|done]. by eapply Hl.
Qed.

Lemma row_logged_other l e token r : token_of e <> token -> row_logged l token r -> row_logged (l ++ [e]) token r.
Proof.
  intros Hn (Hm & Hx & Hu). split; [rewrite elem_of_app; auto|]. split; [done|].
  intros Ha ctx t [Hin|Hin%list_elem_of_singleton]%elem_of_app; [by apply Hu in Hin|by subst].
Qed.

Lemma step_inv st o : inv st -> op_fresh o st -> inv (step st o).
Proof.
  intros [Hr Hh] Hf. destruct o as [ctx now|token now|token now|now]; cbn [step].
  - unfold mint_check. by destruct (_ <=? _).
  - unfold mint_insert. destruct (minting st) as [|ctx r]; [done|]. cbn in Hf. rewrite Forall_forall in Hf. constructor; cbn.
    + intros t x [[<- <-]|[Hn E]]%lookup_insert_Some; [|by apply row_logged_other, Hr].
      split; [rewrite elem_of_app; right; by left|]. split; [done|]. intros _ c t [Hin|Hin%list_elem_of_singleton]%elem_of_app; [by apply Hf in Hin|done].
    + by apply snoc_history.
  - unfold consume. destruct (_ || _); [done|]. destruct (tokens st !! token) as [r|] eqn:E; [|done].
    destruct (bool_decide_reflect (used_at r = None)) as [Hu|]; cbn [andb]; [|done]. destruct (now <? expires_at r) eqn:Hx; [|done]. b2p.
    destruct (Hr _ _ E) as (Hm & Hxp & Hno). constructor; cbn.
    + intros t x [[<- <-]|[Hn Et]]%lookup_insert_Some; [|by apply row_logged_other, Hr]. split; [rewrite elem_of_app; auto|]. by split.
    + apply snoc_history; [done|]. split; [|by apply Hno]. exists (created_at r). split; [done|lia].
  - constructor; cbn; [|done]. intros t r [E _]%map_lookup_filter_Some. by apply Hr.
Qed.

Lemma reachable_inv st : reachable st -> inv st.
Proof. induction 1 as [|st o _ I Hf]; [constructor; [done|by intros []]|by apply step_inv]. Qed.

(** C22: an upload token buys one upload.  In every interleaving of requests
    for tokens, uploads and purges, each use of a token restores the context
    it was minted with, comes within ten minutes of the minting, and is the
    first; from then on the upload endpoint changes nothing for that token,
    whatever the request holds. *)
Theorem upload_once st l1 token ctx now l2 : reachable st -> log st = l1 ++ Consumed token ctx now :: l2 ->
  (exists t, Minted token ctx t ∈ l1 /\ now < t + TOKEN_TTL_SECONDS) /\ (forall ctx' t, Consumed token ctx' t ∉ l1) /\
  forall mode allowed p opted sealed inserted id stoken at_ ot,
    fst (ingest_via_token mode token allowed p opted sealed inserted id stoken at_ (st, ot)) = (st, ot).
Proof.
  intros I%reachable_inv E. destruct (inv_history _ I _ _ _ E) as [Hm Hn]. split; [done|]. split; [done|]. intros.
  assert (Consumed token ctx now ∈ log st) as Hin by (rewrite E; apply elem_of_app; right; by left).
  unfold ingest_via_token. cbn [fst snd]. unfold consume. destruct (_ || _); [done|]. destruct (tokens st !! token) as [r|] eqn:Er; [|done].
  destruct (inv_rows _ I _ _ Er) as (_ & _ & Hu). destruct (bool_decide_reflect (used_at r = None)) as [Ha|]; [|done].
  by apply (Hu Ha) in Hin.
Qed.
End Ingest.

(** * Examples *)
Module SharesExamples.
Import Outbound.

Definition alice : Z := 1.
Definition bob : Z := 2.

Definition report : Upload := mk_upload alice (str "report.pdf") (str "application/pdf") 9000 (Some (str "quarterly report for audit")) Clean.

(** Submitted by alice, approved by bob, downloaded by alice. *)
Definition approved_story : list op :=
  [OAddApprover bob true; OSubmit report None true true 10 70 0; ODecide 10 bob false true None 71 5; OConsume 71 alice false true 60].

Definition play (mode : FailMode) (l : list op) : State := foldl (step mode) initial l.

#[export] Instance submitted_id_dec id e : Decision (submitted_id id e).
Proof. destruct e; cbn; apply _. Defined.

#[export] Instance op_fresh_dec o st : Decision (op_fresh o st).
Proof. unfold op_fresh, fresh_id, fresh_token. destruct o; apply _. Defined.

Fixpoint all_fresh (mode : FailMode) (l : list op) (st : State) : bool :=
  match l with [] => true | o :: r => bool_decide (op_fresh o st) && all_fresh mode r (step mode st o) end.

Lemma play_from mode l st : reachable mode st -> all_fresh mode l st = true -> reachable mode (foldl (step mode) st l).
Proof.
  revert st. induction l as [|o l IH]; intros st Hr Hf; [done|]. cbn in *. apply andb_prop in Hf as [H1%bool_decide_eq_true Hf].
  apply IH; [by constructor|done].
Qed.

Lemma play_reachable mode l : all_fresh mode l initial = true -> reachable mode (play mode l).
Proof. apply play_from. constructor. Qed.

Example delivery_authorised_witness :
  events (play Block approved_story) =
    [EvSubmitted 10 alice true Clean 0; EvDecided 10 bob true false true] ++ EvDelivered 10 alice false ByLink 60 :: [] /\
  ~ (exists a super listed, EvDecided 10 a false super listed ∈ [EvSubmitted 10 alice true Clean 0; EvDecided 10 bob true false true]).
Proof.
  split; [by vm_compute|]. intros (a & su & li & Hin).
  destruct (delivery_authorised Block (play Block approved_story) [EvSubmitted 10 alice true Clean 0; EvDecided 10 bob true false true]
    10 alice false ByLink 60 []) as (_ & Hno & _); [apply play_reachable; by vm_compute|by vm_compute|by apply Hno in Hin].
Defined.


(** A user with the bypass takes the file from the browser; the link of the
    same share delivers it once more. *)
Definition bypassed_story : list op :=
  [OGate (str "/home/alice/report.pdf") report true (Some false) true true 10 70 0; OConsume 70 alice false true 1; ODeliver true 2].

Example delivered_twice :
  reachable Block (play Block bypassed_story) /\
  events (play Block bypassed_story) =
    [EvSubmitted 10 alice false Clean 0; EvDelivered 10 alice false ByLink 1; EvDelivered 10 alice false ByBrowser 2].
Proof. split; [apply play_reachable|]; by vm_compute. Qed.

(** After the download the key and the staged file stay until the share
    expires. *)
Example secrets_after_download :
  (fun s => (status s, sealed_dek s, storage_path s)) <$> shares (play Block approved_story) !! 10 = Some (Downloaded, true, true).
Proof. by vm_compute. Qed.

(** An administrator's purge of a denied share forgets the denial. *)
Example purge_overwrites_denial :
  status <$> shares (play Block [OSubmit report None true true 10 70 0; ODecide 10 bob true false None 71 5; OPurge true 10 6]) !! 10 = Some Purged.
Proof. by vm_compute. Qed.

Example executable_score :
  compute_dlp_score (str "Secret_Setup.EXE") (str "application/x-msdownload") 30000000 =
    (100, [str "Executable extension .exe"; str "Sensitive-looking name token: secret";
           str "Executable MIME type: application/x-msdownload"; str "Medium-large file (28 MiB)"]).
Proof. by vm_compute. Qed.

(** ** Tokens *)

Definition ctx : Ingest.IngestContext := Ingest.mk_ctx alice None None (Some (str "quarterly report for audit")).

Definition tok (n : nat) : bytes := str "uploadtoken-0000-" ++ int_to_string (Z.of_nat n).

Definition used : Ingest.State :=
  foldl Ingest.step Ingest.initial [Ingest.OCheck ctx 0; Ingest.OInsert (tok 1) 1; Ingest.OConsume (tok 1) 2].

Lemma used_reachable : Ingest.reachable used.
Proof. unfold used. cbn [foldl]. repeat (apply Ingest.reach_step; [|first [exact I | by constructor]]). constructor. Qed.

Example upload_once_witness :
  fst (Ingest.ingest_via_token Block (tok 1) (Some true) (Ingest.mk_parsed (str "a") (str "b") 5 Clean None None None) None true true 3 4 3 (used, initial))
  = (used, initial).
Proof. apply (Ingest.upload_once used [Ingest.Minted (tok 1) ctx 1] (tok 1) ctx 2 []); [apply used_reachable|by vm_compute]. Defined.

(** Requests that count before any of them inserts all pass the limit. *)
Example mint_limit_raced :
  stdpp.base.size (Ingest.tokens (foldl Ingest.step Ingest.initial
    (replicate 12 (Ingest.OCheck ctx 0) ++ map (fun n => Ingest.OInsert (tok n) 0) (seq 0 12)))) = 12%nat.
Proof. by vm_compute. Qed.
End SharesExamples.
