(* ===== verification/Recordings.v ===== *)
(** * Seeking in session recordings

    [services/recording_index.rs] replays a recording through a pixel model
    of the client and writes checkpoints, each a byte offset and a prelude
    that rebuilds the display; [handle_recording_stream] of
    [routes/admin/recordings.rs] starts a seek at the nearest one.  Module
    [Display] is the model of the client and its prelude, [Index] the build,
    [Playback] the order in which a playback sends what (its pacing left
    out).  Both read instructions with [Guacamole.try_parse_instruction]. *)

From stdpp Require Import sorting.
From S2P Require Import Prelude Machine Text Crates Guacamole Instruction.

Local Open Scope Z_scope.

(** ** Pictures *)

(** Four bytes of a [px] vector: red, green, blue, alpha. *)
Definition pixel : Type := Z * Z * Z * Z.

Definition clear_pixel : pixel := (0, 0, 0, 0).

#[export] Instance pixel_inhabited : Inhabited pixel := populate clear_pixel.

(** [image::load_from_memory(..).to_rgba8()] and [PngEncoder::write_image]:
    what is decoded is a picture of its stated size, and a picture that fits
    the decoder's default limit of 512 MiB is read back from its PNG. *)
Definition u32_dims (w h : Z) : Prop := in_range 0 u32_max w /\ in_range 0 u32_max h.
Definition picture (w h : Z) (px : list pixel) : Prop := Z.of_nat (length px) = w * h.
Definition pixel_ok (p : pixel) : Prop := let '(r, g, b, a) := p in bytes_ok [r; g; b; a].

Definition MAX_ALLOC : Z := 512 * 1024 * 1024.

Class ImageCodec := {
  load_from_memory : bytes -> option (Z * Z * list pixel);
  png_encode : Z -> Z -> list pixel -> option bytes;
  load_ok bs w h px : load_from_memory bs = Some (w, h, px) -> u32_dims w h /\ picture w h px /\ Forall pixel_ok px;
  png_ok w h px bs : png_encode w h px = Some bs -> bytes_ok bs;
  png_load w h px bs : png_encode w h px = Some bs -> 0 < w -> 0 < h -> u32_dims w h -> picture w h px ->
    Forall pixel_ok px -> 4 * (w * h) <= MAX_ALLOC -> load_from_memory bs = Some (w, h, px)
}.

(** * The model of the client *)
Module Display.

Definition MASK_COPY : Z := 12.
Definition MASK_OVER : Z := 14.
Definition PRELUDE_BLOB_BYTES : nat := Z.to_nat (48 * 1024).

(** ** Layers *)

Record Layer : Type := mk_layer { w : Z; h : Z; px : list pixel }.

Definition layer_default : Layer := mk_layer 0 0 [].

(** Source-over for straight alpha. *)
Definition over (dst src : pixel) : pixel :=
  let '(sr, sg, sb, sa) := src in
  let '(dr, dg, db, da) := dst in
  if sa =? 255 then src
  else if sa =? 0 then dst
  else
    let out_a := sa * 255 + da * (255 - sa) in
    let mix s d := wrap_u 8 ((s * sa * 255 + d * da * (255 - sa)) / out_a) in
    (mix sr dr, mix sg dg, mix sb db, wrap_u 8 (out_a / 255)).

(** [dst[d..d + len].copy_from_slice(src)]. *)
Definition copy_slice (d : nat) (src dst : list pixel) : list pixel := take d dst ++ src ++ drop (d + length src) dst.

Definition blank (w h : Z) : list pixel := replicate (Z.to_nat (w * h)) clear_pixel.

Definition resize (nw nh : Z) (l : Layer) : Layer :=
  if (nw =? w l) && (nh =? h l) then l
  else
    let cw := Z.min nw (w l) in
    mk_layer nw nh
      (foldl (fun px' y => copy_slice (y * Z.to_nat nw) (take (Z.to_nat cw) (drop (y * Z.to_nat (w l)) (px l))) px')
         (blank nw nh) (seq 0 (Z.to_nat (Z.min nh (h l))))).

Definition clear (l : Layer) : Layer := mk_layer (w l) (h l) (replicate (length (px l)) clear_pixel).

(** [draw]: rows and columns of the source, clipped to the layer. *)
Definition draw_row (src : list pixel) (sw x dy lw : Z) (row : nat) (px : list pixel) : list pixel :=
  foldl (fun px col =>
    let dx := x + Z.of_nat col in
    if (dx <? 0) || (lw <=? dx) then px
    else alter (fun d => over d (src !!! (row * Z.to_nat sw + col)%nat)) (Z.to_nat (dy * lw + dx)) px)
    px (seq 0 (Z.to_nat sw)).

Definition draw (src : list pixel) (sw sh x y : Z) (l : Layer) : Layer :=
  mk_layer (w l) (h l)
    (foldl (fun px row =>
       let dy := y + Z.of_nat row in
       if (dy <? 0) || (h l <=? dy) then px else draw_row src sw x dy (w l) row px)
       (px l) (seq 0 (Z.to_nat sh))).

Definition region_row (l : Layer) (x sy rw : Z) (row : nat) (out : list pixel) : list pixel :=
  foldl (fun out col =>
    let sx := x + Z.of_nat col in
    if (sx <? 0) || (w l <=? sx) then out
    else <[(row * Z.to_nat rw + col)%nat := px l !!! Z.to_nat (sy * w l + sx)]> out)
    out (seq 0 (Z.to_nat rw)).

Definition region (x y rw rh : Z) (l : Layer) : list pixel :=
  foldl (fun out row =>
    let sy := y + Z.of_nat row in
    if (sy <? 0) || (h l <=? sy) then out else region_row l x sy rw row out)
    (blank rw rh) (seq 0 (Z.to_nat rh)).

(** ** The model *)

Record ImageStream : Type := mk_image { mask : Z; layer : Z; ix : Z; iy : Z; data : bytes }.

Record DisplayModel : Type := mk_model {
  layers : gmap Z Layer;
  unknown_layers : gset Z;
  broken : bool;
  paths : gmap Z (list (Z * Z * Z * Z));
  images : gmap Z ImageStream;
  videos : gset Z;
  transfers : gset Z;
  audio : gmap Z bytes;
  cursor : option (list bytes);
  mouse : option (list bytes) }.

Definition model_default : DisplayModel := mk_model ∅ ∅ false ∅ ∅ ∅ ∅ ∅ None None.

Section setters.
Variable m : DisplayModel.
Definition set_layers x := mk_model x (unknown_layers m) (broken m) (paths m) (images m) (videos m) (transfers m) (audio m) (cursor m) (mouse m).
Definition set_unknown x := mk_model (layers m) x (broken m) (paths m) (images m) (videos m) (transfers m) (audio m) (cursor m) (mouse m).
Definition set_broken := mk_model (layers m) (unknown_layers m) true (paths m) (images m) (videos m) (transfers m) (audio m) (cursor m) (mouse m).
Definition set_paths x := mk_model (layers m) (unknown_layers m) (broken m) x (images m) (videos m) (transfers m) (audio m) (cursor m) (mouse m).
Definition set_images x := mk_model (layers m) (unknown_layers m) (broken m) (paths m) x (videos m) (transfers m) (audio m) (cursor m) (mouse m).
Definition set_streams v t a := mk_model (layers m) (unknown_layers m) (broken m) (paths m) (images m) v t a (cursor m) (mouse m).
Definition set_pointer c p := mk_model (layers m) (unknown_layers m) (broken m) (paths m) (images m) (videos m) (transfers m) (audio m) c p.
End setters.

(** [self.layer(id)], changed by [f]: the entry is made when missing. *)
Definition touch (id : Z) (f : Layer -> Layer) (m : DisplayModel) : DisplayModel :=
  set_layers m (<[id := f (default layer_default (layers m !! id))]> (layers m)).

Definition layer_of (id : Z) (m : DisplayModel) : Layer := default layer_default (layers m !! id).

Definition int (args : list bytes) (i : nat) : option Z := args !! i ≫= parse_i64.

Definition u32_from (z : Z) : option Z := if (0 <=? z) && (z <=? u32_max) then Some z else None.
Definition u8_from (z : Z) : option Z := if (0 <=? z) && (z <=? u8_max) then Some z else None.

(** [?] on an option: the model as it is then, and [None] for failure. *)
Definition need {A} (m : DisplayModel) (o : option A) (k : A -> DisplayModel * bool) : DisplayModel * bool :=
  match o with Some a => k a | None => (m, false) end.

Definition composite (id mask : Z) (pic : list pixel) (pw ph x y : Z) (m : DisplayModel) : DisplayModel * bool :=
  if mask =? MASK_COPY then (touch id (fun l => draw pic pw ph x y (clear l)) m, true)
  else if mask =? MASK_OVER then (touch id (draw pic pw ph x y) m, true)
  else (touch id (fun l => l) m, false).

Section apply.
Context `{Base64} `{ImageCodec}.

Definition draw_image (img : ImageStream) (m : DisplayModel) : DisplayModel * bool :=
  need m (load_from_memory (data img)) (fun '(pw, ph, pic) =>
    let m :=
      if (mask img =? MASK_COPY) && (ix img <=? 0) && (iy img <=? 0) then
        let l := layer_of (layer img) m in
        let m := touch (layer img) (fun l => l) m in
        if (w l <=? pw + ix img) && (h l <=? ph + iy img) then set_unknown m (unknown_layers m ∖ {[layer img]}) else m
      else m in
    composite (layer img) (mask img) pic pw ph (ix img) (iy img) m).

Definition apply_size (args : list bytes) (m : DisplayModel) : DisplayModel * bool :=
  need m (int args 0) (fun id => need m (int args 1) (fun nw => need m (int args 2) (fun nh =>
    let m := touch id (fun l => l) m in
    need m (u32_from nw) (fun nw => need m (u32_from nh) (fun nh => (touch id (resize nw nh) m, true)))))).

Definition apply_img (args : list bytes) (m : DisplayModel) : DisplayModel * bool :=
  need m (int args 0) (fun stream => need m (int args 1) (fun mask => need m (int args 2) (fun layer =>
    need m (int args 4) (fun x => need m (int args 5) (fun y =>
      (set_images m (<[stream := mk_image mask layer x y []]> (images m)), true)))))).

Definition apply_h264 (args : list bytes) (m : DisplayModel) : DisplayModel * bool :=
  need m (int args 0) (fun stream => need m (int args 1) (fun id =>
    let m := set_streams m ({[stream]} ∪ videos m) (transfers m) (audio m) in
    (set_unknown m ({[id]} ∪ unknown_layers m), true))).

Definition apply_blob (args : list bytes) (m : DisplayModel) : DisplayModel * bool :=
  need m (int args 0) (fun stream =>
    match images m !! stream with
    | Some i =>
        need m (args !! 1%nat) (fun b => need m (b64_decode STANDARD b) (fun d =>
          (set_images m (<[stream := mk_image (mask i) (layer i) (ix i) (iy i) (data i ++ d)]> (images m)), true)))
    | None => (m, true)
    end).

Definition apply_end (args : list bytes) (m : DisplayModel) : DisplayModel * bool :=
  need m (int args 0) (fun stream =>
    let '(m, ok) :=
      match images m !! stream with
      | Some img => draw_image img (set_images m (delete stream (images m)))
      | None => (m, true)
      end in
    if ok : bool then (set_streams m (videos m ∖ {[stream]}) (transfers m ∖ {[stream]}) (delete stream (audio m)), true)
    else (m, false)).

Definition apply_copy (args : list bytes) (m : DisplayModel) : DisplayModel * bool :=
  need m (int args 0) (fun src => need m (int args 1) (fun sx => need m (int args 2) (fun sy =>
  need m (int args 3 ≫= u32_from) (fun cw => need m (int args 4 ≫= u32_from) (fun ch =>
  need m (int args 5) (fun mask => need m (int args 6) (fun dst => need m (int args 7) (fun dx => need m (int args 8) (fun dy =>
    let pixels := region sx sy cw ch (layer_of src m) in
    let m := touch src (fun l => l) m in
    let m := if decide (src ∈ unknown_layers m) then set_unknown m ({[dst]} ∪ unknown_layers m) else m in
    composite dst mask pixels cw ch dx dy m))))))))).

Definition apply_rect (args : list bytes) (m : DisplayModel) : DisplayModel * bool :=
  need m (int args 0) (fun id => need m (int args 1) (fun x => need m (int args 2) (fun y =>
  need m (int args 3) (fun rw => need m (int args 4) (fun rh =>
    (set_paths m (<[id := default [] (paths m !! id) ++ [(x, y, rw, rh)]]> (paths m)), true)))))).

Fixpoint fill_rects (id : Z) (rgba : pixel) (rects : list (Z * Z * Z * Z)) (m : DisplayModel) : DisplayModel * bool :=
  match rects with
  | [] => (m, true)
  | (x, y, rw, rh) :: r =>
      need m (u32_from rw) (fun rw => need m (u32_from rh) (fun rh =>
        fill_rects id rgba r (touch id (draw (replicate (Z.to_nat rw * Z.to_nat rh) rgba) rw rh x y) m)))
  end.

Definition apply_cfill (args : list bytes) (m : DisplayModel) : DisplayModel * bool :=
  need m (int args 0) (fun mask => need m (int args 1) (fun id =>
  need m (int args 2 ≫= u8_from) (fun r => need m (int args 3 ≫= u8_from) (fun g =>
  need m (int args 4 ≫= u8_from) (fun b => need m (int args 5 ≫= u8_from) (fun a =>
    let rects := default [] (paths m !! id) in
    let m := set_paths m (delete id (paths m)) in
    if mask =? MASK_COPY then fill_rects id (r, g, b, a) rects (touch id clear m)
    else if mask =? MASK_OVER then fill_rects id (r, g, b, a) rects m
    else (m, false))))))).

Definition apply_audio (args : list bytes) (m : DisplayModel) : DisplayModel * bool :=
  need m (int args 0) (fun s => need m (args !! 1%nat) (fun mimetype =>
    (set_streams m (videos m) (transfers m) (<[s := mimetype]> (audio m)), true))).

Definition apply_transfer (i : nat) (args : list bytes) (m : DisplayModel) : DisplayModel * bool :=
  need m (int args i) (fun s => (set_streams m (videos m) ({[s]} ∪ transfers m) (audio m), true)).

(** Instructions without effect on the picture. *)
Definition SILENT : list bytes :=
  [str "sync"; str "key"; str "nop"; str "name"; str "ack"; str "msg"; str "error"; str "disconnect"; str "filesystem";
   str "undefine"; str "args"; str "ready"; str "log"; str "required"].

Definition apply_known (op : bytes) (args : list bytes) (m : DisplayModel) : DisplayModel * bool :=
  if bool_decide (op = str "size") then apply_size args m
  else if bool_decide (op = str "img") then apply_img args m
  else if bool_decide (op = str "h264") then apply_h264 args m
  else if bool_decide (op = str "blob") then apply_blob args m
  else if bool_decide (op = str "end") then apply_end args m
  else if bool_decide (op = str "copy") then apply_copy args m
  else if bool_decide (op = str "rect") then apply_rect args m
  else if bool_decide (op = str "cfill") then apply_cfill args m
  else if bool_decide (op = str "cursor") then (set_pointer m (Some args) (mouse m), true)
  else if bool_decide (op = str "mouse") then (set_pointer m (cursor m) (Some args), true)
  else if bool_decide (op = str "audio") then apply_audio args m
  else if bool_decide (op ∈ [str "clipboard"; str "file"; str "pipe"]) then apply_transfer 0 args m
  else if bool_decide (op = str "body") then apply_transfer 1 args m
  else if bool_decide (op ∈ SILENT) then (m, true)
  else (m, false).

Definition apply (m : DisplayModel) (i : GuacInstruction) : DisplayModel :=
  match apply_known (opcode i) (args i) m with (m', true) => m' | (m', false) => set_broken m' end.

Definition replay (l : list GuacInstruction) : DisplayModel := foldl apply model_default l.

(** ** Preludes *)

Definition at_rest (m : DisplayModel) : bool :=
  bool_decide (images m = ∅) && bool_decide (videos m = ∅) && bool_decide (transfers m = ∅).

(** Iteration of a [BTreeMap]. *)
Definition by_key {A} (a b : Z * A) : Prop := fst a <= fst b.
#[export] Instance by_key_dec {A} (a b : Z * A) : Decision (by_key a b).
Proof. unfold by_key. apply _. Defined.

Definition sorted {A} (m : gmap Z A) : list (Z * A) := merge_sort by_key (map_to_list m).

(** The [while] loop that skips the audio streams; one more try than there
    are streams is enough ([free_stream_spec]). *)
Fixpoint free_stream (fuel : nat) (audio : gmap Z bytes) (stream : Z) : Z :=
  match fuel with
  | O => stream
  | S f => match audio !! stream with Some _ => free_stream f audio (stream + 1) | None => stream end
  end.

Definition inst (op : bytes) (l : list bytes) : GuacInstruction := mk_instruction op l.
Definition num (z : Z) : bytes := int_to_string z.

(** What the prelude sends for a layer. *)
Definition layer_image (stream id : Z) (png : bytes) : list GuacInstruction :=
  [inst (str "img") [num stream; num MASK_COPY; num id; str "image/png"; str "0"; str "0"]] ++
  ((fun chunk => inst (str "blob") [num stream; b64_encode STANDARD chunk]) <$> chunks PRELUDE_BLOB_BYTES png) ++
  [inst (str "end") [num stream]].

Fixpoint layers_prelude (audio : gmap Z bytes) (skip_pixels : option Z) (stream : Z) (ls : list (Z * Layer)) :
    option (list GuacInstruction) :=
  match ls with
  | [] => Some []
  | (id, l) :: r =>
      let size := inst (str "size") [num id; num (w l); num (h l)] in
      if (w l =? 0) || (h l =? 0) || bool_decide (skip_pixels = Some id) then
        cons size <$> layers_prelude audio skip_pixels stream r
      else
        let stream := free_stream (S (base.size audio)) audio stream in
        png ← png_encode (w l) (h l) (px l);
        rest ← layers_prelude audio skip_pixels stream r;
        Some (size :: layer_image stream id png ++ rest)
  end.

Definition pointer_prelude (op : bytes) (args : option (list bytes)) : list GuacInstruction :=
  match args with Some args => [inst op args] | None => [] end.

Definition prelude (m : DisplayModel) (skip_pixels : option Z) : option (list GuacInstruction) :=
  drawn ← layers_prelude (audio m) skip_pixels 1 (sorted (layers m));
  Some (drawn ++ ((fun '(s, mimetype) => inst (str "audio") [num s; mimetype]) <$> sorted (audio m)) ++
        pointer_prelude (str "cursor") (cursor m) ++ pointer_prelude (str "mouse") (mouse m)).

(** The text of a prelude. *)
Definition prelude_text (is_ : list GuacInstruction) : bytes := foldl (fun out i => instruction_encode i out) [] is_.
End apply.
End Display.

(** * Building the index *)
Module Index.
Import Display.

Definition CHECKPOINT_EVERY_BYTES : Z := 8 * 1024 * 1024.

(** [file] is the content of the prelude's file. *)
Record Checkpoint : Type := mk_checkpoint { at_ms : Z; offset : Z; file : bytes }.

Record Index : Type := mk_index { source_len : Z; first_ts : option Z; checkpoints : list Checkpoint }.

(** The last checkpoint strictly before [seek_ms]. *)
Definition nearest (idx : Index) (seek_ms : Z) : option Checkpoint :=
  head (filter (fun c => at_ms c < seek_ms) (rev (checkpoints idx))).

Section build.
Context `{Winnow} `{Base64} `{ImageCodec}.

Record Builder : Type := mk_builder {
  model : DisplayModel; base_ : Z; b_first : option Z; b_at : Z; last_offset : Z; last_at : option Z; saved : list Checkpoint }.

Definition builder_new : Builder := mk_builder model_default 0 None 0 0 None [].

Variable every_bytes : Z.

(** [last_at.is_none_or(|l| at_ms > l)] and the distance to the last one. *)
Definition due (b : Builder) (at_ offset : Z) : bool :=
  (every_bytes <=? offset - last_offset b) && match last_at b with Some l => l <? at_ | None => true end.

Definition save (b : Builder) (at_ offset : Z) (is_ : list GuacInstruction) : Builder :=
  mk_builder (model b) (base_ b) (b_first b) (b_at b) offset (Some at_) (saved b ++ [mk_checkpoint at_ offset (prelude_text is_)]).

(** The layer a key frame repaints whole, if it does. *)
Definition repainted (m : DisplayModel) (i : GuacInstruction) : option Z :=
  match arg i 1 ≫= parse_i64, omap (fun k => arg i k ≫= parse_i64) [3%nat; 4%nat; 5%nat; 6%nat] with
  | Some id, [0; 0; rw; rh] =>
      match layers m !! id with
      | Some l => if (w l <=? rw) && (h l <=? rh) && bool_decide (unknown_layers m ⊆ {[id]}) then Some id else None
      | None => None
      end
  | _, _ => None
  end.

(** The test before an instruction is applied, ... *)
Definition keyframe (b : Builder) (i : GuacInstruction) : option Builder :=
  if bool_decide (opcode i = str "h264") && bool_decide (arg i 2 = Some (str "1")) && bool_decide (is_Some (b_first b)) &&
     negb (broken (model b)) && at_rest (model b) && due b (b_at b) (base_ b)
  then match repainted (model b) i with
       | Some id => is_ ← prelude (model b) (Some id); Some (save b (b_at b) (base_ b) is_)
       | None => Some b
       end
  else Some b.

(** ... the clock of [sync], ... *)
Definition clock (b : Builder) (ts : Z) : Builder :=
  let first := default ts (b_first b) in
  mk_builder (model b) (base_ b) (Some first) (Z.max (ts - first) 0) (last_offset b) (last_at b) (saved b).

(** ... and the test after it. *)
Definition sync_point (b : Builder) (i : GuacInstruction) (end_ : Z) : option Builder :=
  if bool_decide (opcode i = str "sync") then
    match arg i 0 ≫= parse_u64 with
    | Some ts =>
        let b := clock b ts in
        if negb (broken (model b)) && bool_decide (unknown_layers (model b) = ∅) && at_rest (model b) && due b (b_at b) end_
        then is_ ← prelude (model b) None; Some (save b (b_at b) end_ is_)
        else Some b
    | None => Some b
    end
  else Some b.

Definition set_model (b : Builder) (m : DisplayModel) (base : Z) : Builder :=
  mk_builder m base (b_first b) (b_at b) (last_offset b) (last_at b) (saved b).

(** One round of the inner loop. *)
Definition build_step (b : Builder) (ic : GuacInstruction * nat) : option Builder :=
  let '(i, consumed) := ic in
  let end_ := base_ b + Z.of_nat consumed in
  b ← keyframe b i;
  let b := set_model b (apply (model b) i) (base_ b) in
  b ← sync_point b i end_;
  Some (set_model b (model b) end_).

(** [Ok(Some(..))] of the parser; anything else breaks the loop. *)
Definition parsed (buf : bytes) : option (GuacInstruction * nat) :=
  match try_parse_instruction buf with Ok o => o | Err _ => None end.

Fixpoint drain (fuel : nat) (b : Builder) (buf : bytes) : option (Builder * bytes) :=
  match fuel with
  | O => Some (b, buf)
  | S f =>
      match parsed buf with
      | Some ic => b ← build_step b ic; drain f b (drop (snd ic) buf)
      | None => Some (b, buf)
      end
  end.

(** The outer loop, over what each [read] returned. *)
Fixpoint build_loop (b : Builder) (buf : bytes) (reads : list bytes) : option (Builder * bytes) :=
  match reads with
  | [] => Some (b, buf)
  | chunk :: r => '(b, buf) ← drain (S (length (buf ++ chunk))) b (buf ++ chunk); build_loop b buf r
  end.

Definition build (reads : list bytes) : option Index :=
  '(b, buf) ← build_loop builder_new [] reads;
  Some (mk_index (base_ b + Z.of_nat (length buf)) (b_first b) (saved b)).
End build.
End Index.

(** * Playback *)
Module Playback.
Import Display Index.

Section playback.
Context `{Winnow}.

Inductive event : Type :=
| Show (i : GuacInstruction)
| Seeked (abs_elapsed : Z).

(** [first_guac_ts], whether the pacing base is set, and [seeking]. *)
Record Player : Type := mk_player { p_first : option Z; armed : bool; seeking : bool }.

Variable seek_ms : Z.

(** One instruction of [handle_recording_stream]; what the client is sent,
    progress messages left out.  The speed change, pauses and waits only
    happen when not seeking and send none of the recording. *)
Definition play_step (p : Player) (i : GuacInstruction) : Player * list event :=
  let '(p, evs) :=
    match bool_decide (opcode i = str "sync"), args i !! 0%nat ≫= parse_u64 with
    | true, Some ts =>
        if armed p then
          let abs_elapsed := Z.max (ts - default ts (p_first p)) 0 in
          if seeking p && (seek_ms <=? abs_elapsed) then (mk_player (p_first p) true false, [Seeked abs_elapsed]) else (p, [])
        else (mk_player (Some (default ts (p_first p))) true (seeking p), [])
    | _, _ => (p, [])
    end in
  (p, evs ++ if seeking p && bool_decide (opcode i = str "sync") then [] else [Show i]).

Fixpoint play (p : Player) (l : list GuacInstruction) : list event :=
  match l with
  | [] => []
  | i :: r => let '(p, evs) := play_step p i in evs ++ play p r
  end.

(** The parser of the playback: malformed input empties its buffer, so what
    follows in the same read is lost and reading goes on with the next. *)
Fixpoint take_all (fuel : nat) (buf : bytes) : list GuacInstruction * bytes :=
  match fuel with
  | O => ([], buf)
  | S f =>
      match try_parse_instruction buf with
      | Ok (Some (i, n)) => let '(l, rest) := take_all f (drop n buf) in (i :: l, rest)
      | Ok None => ([], buf)
      | Err _ => ([], [])
      end
  end.

Fixpoint read_all (buf : bytes) (reads : list bytes) : list GuacInstruction :=
  match reads with
  | [] => []
  | chunk :: r => let '(l, rest) := take_all (S (length (buf ++ chunk))) (buf ++ chunk) in l ++ read_all rest r
  end.

(** Where a seek starts: the offset, the text sent first, and the first
    timestamp.  [total] is the length of the recording as it is now, when it
    is known. *)
Definition resume (index : option Index) (total : option Z) : Z * bytes * option Z :=
  if seek_ms =? 0 then (0, [], None)
  else match index with
       | Some idx =>
           match nearest idx seek_ms with
           | Some c => if bool_decide (total = Some (source_len idx)) then (offset c, file c, first_ts idx) else (0, [], None)
           | None => (0, [], None)
           end
       | None => (0, [], None)
       end.

(** A whole playback: the prelude goes out as it is. *)
Definition stream (index : option Index) (total : option Z) (recording : bytes) (reads : bytes -> list bytes) : bytes * list event :=
  let '(from, text, first) := resume index total in
  (text, play (mk_player first false (0 <? seek_ms)) (read_all [] (reads (drop (Z.to_nat from) recording)))).
End playback.
End Playback.

(** * What drawing preserves *)
Module DisplayFacts.
Import Display.

(** A pixel the model can hold: transparent ones are all zero. *)
Definition clean (p : pixel) : Prop := pixel_ok p /\ (snd p = 0 -> p = clear_pixel).

Lemma clean_clear : clean clear_pixel.
Proof. split; [|done]. unfold pixel_ok, clear_pixel. by repeat constructor. Qed.

Lemma foldl_inv {A B} (P : A -> Prop) (f : A -> B -> A) l a :
  (forall a x, x ∈ l -> P a -> P (f a x)) -> P a -> P (foldl f a l).
Proof.
  revert a. induction l as [|x l IH]; intros a Hf Ha; [done|]. cbn. apply IH; [|by apply Hf; [left|]].
  intros b y Hy. apply Hf. by right.
Qed.

Lemma foldl_cons_eq {A B} (f : A -> B -> A) a x l : foldl f a (x :: l) = foldl f (f a x) l.
Proof. done. Qed.

Lemma over_clear s : clean s -> over clear_pixel s = s.
Proof.
  destruct s as [[[sr sg] sb] sa]. intros [Hok Hz]. unfold over, clear_pixel. destruct (sa =? 255) eqn:E1; b2p; [done|].
  destruct (sa =? 0) eqn:E2; b2p; [symmetry; by apply Hz|]. unfold pixel_ok in Hok. rewrite !Forall_cons in Hok.
  destruct Hok as (Hr & Hg & Hb & Ha & _). unfold byte_ok in *.
  assert (forall s, 0 <= s <= 255 -> wrap_u 8 ((s * sa * 255 + 0 * 0 * (255 - sa)) / (sa * 255 + 0 * (255 - sa))) = s) as Hmix.
  { intros s Hs. replace (s * sa * 255 + 0 * 0 * (255 - sa)) with (s * (sa * 255)) by lia.
    replace (sa * 255 + 0 * (255 - sa)) with (sa * 255) by lia. rewrite Z.div_mul by lia. apply Z.mod_small. lia. }
  rewrite !Hmix by lia. repeat f_equal. replace (sa * 255 + 0 * (255 - sa)) with (sa * 255) by lia. rewrite Z.div_mul by lia.
  apply Z.mod_small. lia.
Qed.

Lemma wrap_byte z : 0 <= wrap_u 8 z < 256.
Proof. unfold wrap_u. pose proof (Z.mod_pos_bound z 256). change (2 ^ 8) with 256. lia. Qed.

Lemma over_clean d s : clean d -> pixel_ok s -> clean (over d s).
Proof.
  destruct s as [[[sr sg] sb] sa], d as [[[dr dg] db] da]. intros [Hd Hz] Hs. unfold over.
  destruct (sa =? 255) eqn:E1; b2p; [split; [done|]; cbn; lia|]. destruct (sa =? 0) eqn:E2; b2p; [done|].
  unfold pixel_ok in *. rewrite !Forall_cons in Hd, Hs. destruct Hd as (_ & _ & _ & Hda & _), Hs as (_ & _ & _ & Hsa & _).
  unfold byte_ok in *. split.
  - repeat constructor; apply wrap_byte.
  - cbn [snd]. intros Hw. exfalso. revert Hw. unfold wrap_u. change (2 ^ 8) with 256. rewrite Z.mod_small.
    + assert (1 <= (sa * 255 + da * (255 - sa)) / 255); [|lia]. apply Z.div_le_lower_bound; nia.
    + split; [apply Z.div_pos; nia|apply Z.div_lt_upper_bound; nia].
Qed.

Lemma lookup_total_ok (src : list pixel) k : Forall pixel_ok src -> pixel_ok (src !!! k).
Proof.
  intros Hs. rewrite list_lookup_total_alt. destruct (src !! k) as [p|] eqn:E; cbn; [by eapply Forall_lookup_1|]. apply clean_clear.
Qed.

(** ** Layers *)

Record layer_ok (l : Layer) : Prop := mk_layer_ok {
  ok_dims : u32_dims (w l) (h l);
  ok_size : picture (w l) (h l) (px l);
  ok_clean : Forall clean (px l) }.

Lemma dims_nonneg a b : u32_dims a b -> 0 <= a /\ 0 <= b.
Proof. unfold u32_dims, in_range. lia. Qed.

Lemma layer_default_ok : layer_ok layer_default.
Proof. split; [|done|constructor]. by vm_compute. Qed.

Lemma Forall_clean_ok px : Forall clean px -> Forall pixel_ok px.
Proof. intros H. eapply Forall_impl; [exact H|]. by intros ? []. Qed.

Lemma clear_layer_ok l : layer_ok l -> layer_ok (clear l).
Proof. intros [Hd Hs Hc]. split; [done|unfold picture; cbn; by rewrite length_replicate|]. apply Forall_replicate, clean_clear. Qed.

Lemma draw_row_inv (P : list pixel -> Prop) src sw x dy lw row px :
  (forall d f, (exists k, f = fun q => over q (src !!! k)) -> forall px, P px -> P (alter f d px)) -> P px -> P (draw_row src sw x dy lw row px).
Proof. intros Hf Hp. unfold draw_row. apply foldl_inv; [|done]. intros q c _ Hq. case_match; [done|]. apply Hf; eauto. Qed.

Lemma draw_inv (P : list pixel -> Prop) src sw sh x y l :
  (forall d f, (exists k, f = fun q => over q (src !!! k)) -> forall px, P px -> P (alter f d px)) -> P (px l) -> P (px (draw src sw sh x y l)).
Proof. intros Hf Hp. unfold draw. cbn [px]. apply foldl_inv; [|done]. intros q r _ Hq. case_match; [done|]. by apply draw_row_inv. Qed.

Lemma draw_length src sw sh x y l : length (px (draw src sw sh x y l)) = length (px l).
Proof. apply (draw_inv (fun q => length q = length (px l))); [|done]. intros d f _ q Hq. by rewrite length_alter. Qed.

Lemma draw_ok src sw sh x y l : Forall pixel_ok src -> layer_ok l -> layer_ok (draw src sw sh x y l).
Proof.
  intros Hs [Hd Hp Hc]. split; [done|unfold picture; by rewrite draw_length|]. apply draw_inv; [|done].
  intros d f [k ->] q Hq. apply Forall_alter; [done|]. intros p _ Hcl. apply over_clean; [done|by apply lookup_total_ok].
Qed.

Lemma length_copy_slice d src dst : (d + length src <= length dst)%nat -> length (copy_slice d src dst) = length dst.
Proof. intros. unfold copy_slice. rewrite !length_app, length_take, length_drop. lia. Qed.

Lemma length_copy_slice_eq d s1 s2 d1 d2 : length s1 = length s2 -> length d1 = length d2 ->
  length (copy_slice d s1 d1) = length (copy_slice d s2 d2).
Proof. intros H1 H2. unfold copy_slice. rewrite !length_app, !length_take, !length_drop. lia. Qed.

Lemma copy_slice_Forall (P : pixel -> Prop) d src dst : Forall P src -> Forall P dst -> Forall P (copy_slice d src dst).
Proof. intros. unfold copy_slice. rewrite !Forall_app. split_and!; [by apply Forall_take|done|by apply Forall_drop]. Qed.

Lemma length_blank a b : 0 <= a -> 0 <= b -> Z.of_nat (length (blank a b)) = a * b.
Proof. intros. unfold blank. rewrite length_replicate. nia. Qed.

Lemma resize_ok nw nh l : u32_dims nw nh -> layer_ok l -> layer_ok (resize nw nh l).
Proof.
  intros Hn [Hd Hp Hc]. unfold resize. destruct (_ && _); [done|]. pose proof (dims_nonneg _ _ Hn) as [? ?]. pose proof (dims_nonneg _ _ Hd) as [? ?].
  pose proof (length_blank nw nh ltac:(lia) ltac:(lia)) as Hb.
  split; [done|unfold picture|]; cbn [px w h].
  - rewrite <- Hb. f_equal. apply (foldl_inv (fun q => length q = length (blank nw nh))); [|done].
    intros q y Hy%elem_of_seq Hq. rewrite length_copy_slice; [done|]. rewrite Hq, length_take, length_drop.
    apply Nat2Z.inj_le. rewrite Hb, Nat2Z.inj_add, Nat2Z.inj_mul, Z2Nat.id by lia.
    assert (Z.of_nat y + 1 <= nh) by lia. nia.
  - apply foldl_inv; [|apply Forall_replicate, clean_clear]. intros q y _ Hq.
    apply copy_slice_Forall; [|done]. by apply Forall_take, Forall_drop.
Qed.

Lemma region_ok x y rw rh l : 0 <= rw -> 0 <= rh -> layer_ok l -> picture rw rh (region x y rw rh l) /\ Forall pixel_ok (region x y rw rh l).
Proof.
  intros Hw Hh [_ _ Hc]. pose proof (length_blank rw rh Hw Hh) as Hb.
  unfold region. apply (foldl_inv (fun q => picture rw rh q /\ Forall pixel_ok q)).
  - intros q r _ Hq. case_match; [done|]. unfold region_row. apply (foldl_inv (fun q => picture rw rh q /\ Forall pixel_ok q)); [|done].
    intros q' c _ [Hq1 Hq2]. case_match; [done|]. split; [unfold picture; by rewrite length_insert|].
    apply Forall_insert; [done|]. apply lookup_total_ok, Forall_clean_ok, Hc.
  - split; [done|]. apply Forall_replicate, clean_clear.
Qed.

(** ** A whole picture drawn on a blank layer of its size *)

(** One step of the drawing: what lies before [k] is drawn. *)
Lemma draw_step src k : Forall clean src -> (k < length src)%nat ->
  alter (fun d => over d (src !!! k)) k (take k src ++ replicate (length src - k) clear_pixel) =
  take (S k) src ++ replicate (length src - S k) clear_pixel.
Proof.
  intros Hc Hk. destruct (lookup_lt_is_Some_2 src k Hk) as [p E]. rewrite (take_S_r _ _ _ E).
  replace (length src - k)%nat with (S (length src - S k)) by lia. cbn [replicate].
  rewrite alter_app_r_alt by (rewrite length_take; lia). rewrite length_take, Nat.min_l, Nat.sub_diag by lia. cbn.
  rewrite (list_lookup_total_correct _ _ _ E), over_clear, <- (assoc_L (++)); [done|]. by eapply Forall_lookup_1.
Qed.

Lemma draw_row_full src sw row : Forall clean src -> 0 <= sw ->
  (row * Z.to_nat sw + Z.to_nat sw <= length src)%nat ->
  draw_row src sw 0 (Z.of_nat row) sw row (take (row * Z.to_nat sw) src ++ replicate (length src - row * Z.to_nat sw) clear_pixel) =
  take (S row * Z.to_nat sw) src ++ replicate (length src - S row * Z.to_nat sw) clear_pixel.
Proof.
  intros Hc Hsw Hl. unfold draw_row. set (n := Z.to_nat sw) in *.
  assert (forall c, (c <= n)%nat ->
    foldl (fun px col => let dx := 0 + Z.of_nat col in if (dx <? 0) || (sw <=? dx) then px
      else alter (fun d => over d (src !!! (row * n + col)%nat)) (Z.to_nat (Z.of_nat row * sw + dx)) px)
      (take (row * n) src ++ replicate (length src - row * n) clear_pixel) (seq 0 c) =
    take (row * n + c) src ++ replicate (length src - (row * n + c)) clear_pixel) as Hstep.
  - induction c as [|c IH]; intros Hcn; [by rewrite Nat.add_0_r|]. rewrite seq_S, foldl_app, IH by lia. cbn [foldl].
    rewrite Nat.add_0_l, Z.add_0_l. take_false ((Z.of_nat c <? 0) || (sw <=? Z.of_nat c)).
    replace (Z.to_nat (Z.of_nat row * sw + Z.of_nat c)) with (row * n + c)%nat by nia.
    rewrite draw_step by (done || lia). do 2 f_equal; f_equal; lia.
  - rewrite Hstep by lia. do 2 f_equal; f_equal; lia.
Qed.

Lemma draw_full l : layer_ok l -> draw (px l) (w l) (h l) 0 0 (clear l) = l.
Proof.
  intros [Hd Hp Hc]. pose proof (dims_nonneg _ _ Hd) as [? ?]. unfold draw, clear. cbn [w h px].
  assert (forall r, (r <= Z.to_nat (h l))%nat ->
    foldl (fun px' row => let dy := 0 + Z.of_nat row in if (dy <? 0) || (h l <=? dy) then px' else draw_row (px l) (w l) 0 dy (w l) row px')
      (replicate (length (px l)) clear_pixel) (seq 0 r) =
    take (r * Z.to_nat (w l)) (px l) ++ replicate (length (px l) - r * Z.to_nat (w l)) clear_pixel) as Hstep.
  - induction r as [|r IH]; intros Hr; [cbn; by rewrite Nat.sub_0_r|]. rewrite seq_S, foldl_app, IH by lia. cbn [foldl].
    rewrite Nat.add_0_l, Z.add_0_l. take_false ((Z.of_nat r <? 0) || (h l <=? Z.of_nat r)).
    apply draw_row_full; [done|done|]. unfold picture in Hp. apply Nat2Z.inj_le. rewrite Hp. nia.
  - rewrite Hstep by lia. unfold picture in Hp.
    assert (Z.to_nat (h l) * Z.to_nat (w l) = length (px l))%nat as -> by nia.
    rewrite take_ge, Nat.sub_diag by lia. cbn. rewrite app_nil_r. by destruct l.
Qed.
End DisplayFacts.

(** * Displays that look the same *)
Module Same.
Import Display DisplayFacts.

(** Two layers of one shape, with the same pixels unless [id] is in [U]. *)
Definition layer_sim (U : gset Z) (id : Z) (l1 l2 : Layer) : Prop :=
  w l1 = w l2 /\ h l1 = h l2 /\ length (px l1) = length (px l2) /\ (id ∉ U -> px l1 = px l2).

Definition layers_sim (U : gset Z) (L1 L2 : gmap Z Layer) : Prop :=
  forall id, option_Forall2 (layer_sim U id) (L1 !! id) (L2 !! id).

(** The same state but for the pixels of layers in [U]. *)
Definition same_up (U : gset Z) (m1 m2 : DisplayModel) : Prop :=
  exists L, m2 = set_layers m1 L /\ layers_sim U (layers m1) L.

(** What a client shows: the pixels of unknown layers are left open. *)
Definition same (m1 m2 : DisplayModel) : Prop := same_up (unknown_layers m1) m1 m2.

Lemma layer_sim_refl U id l : layer_sim U id l l.
Proof. done. Qed.

Lemma layers_sim_refl U L : layers_sim U L L.
Proof. intros id. destruct (L !! id); constructor. apply layer_sim_refl. Qed.

Lemma layers_sim_mono U V L1 L2 : U ⊆ V -> layers_sim U L1 L2 -> layers_sim V L1 L2.
Proof. intros HU HL id. destruct (HL id) as [a b (? & ? & ? & Hp)|]; constructor. split_and!; auto. Qed.

Lemma layers_sim_sym U L1 L2 : layers_sim U L1 L2 -> layers_sim U L2 L1.
Proof.
  intros HL id. specialize (HL id). destruct HL as [a b (Hw & Hh & Hl & Hp)|]; constructor. split_and!; try done. intros. by rewrite Hp.
Qed.

Lemma sim_some {A} (R : A -> A -> Prop) a b : option_Forall2 R (Some a) (Some b) -> R a b.
Proof. by inversion 1. Qed.

Lemma layers_sim_trans U L1 L2 L3 : layers_sim U L1 L2 -> layers_sim U L2 L3 -> layers_sim U L1 L3.
Proof.
  intros H1 H2 id. specialize (H1 id). specialize (H2 id).
  destruct (L1 !! id) as [a|], (L2 !! id) as [b|], (L3 !! id) as [c|]; try (by inversion H1); try (by inversion H2).
  apply sim_some in H1 as (Aw & Ah & Al & Ap). apply sim_some in H2 as (Bw & Bh & Bl & Bp). constructor. split_and!; [congruence..|].
  intros Hn. etrans; [by apply Ap|by apply Bp].
Qed.

#[export] Instance same_equivalence : Equivalence same.
Proof.
  split.
  - intros m. exists (layers m). split; [by destruct m|apply layers_sim_refl].
  - intros m1 m2 (L & -> & HL). exists (layers m1). split; [by destruct m1|by apply layers_sim_sym].
  - intros m1 m2 m3 (L & -> & HL) (L' & -> & HL'). exists L'. split; [done|by eapply layers_sim_trans].
Qed.

(** A function of the shape and, on known layers, of the pixels. *)
Definition shaped (f : Layer -> Layer) : Prop := forall l1 l2, w l1 = w l2 -> h l1 = h l2 -> length (px l1) = length (px l2) ->
  w (f l1) = w (f l2) /\ h (f l1) = h (f l2) /\ length (px (f l1)) = length (px (f l2)).

Lemma shaped_sim f U id l1 l2 : shaped f -> layer_sim U id l1 l2 -> layer_sim U id (f l1) (f l2).
Proof.
  intros Hf (Hw & Hh & Hl & Hp). destruct (Hf l1 l2 Hw Hh Hl) as (? & ? & ?). split_and!; try done. intros Hn.
  specialize (Hp Hn). destruct l1, l2. cbn in *. by subst.
Qed.

Lemma shaped_id : shaped (fun l => l).
Proof. by intros ???. Qed.

Lemma shaped_draw src sw sh x y : shaped (draw src sw sh x y).
Proof. intros l1 l2 ? ? ?. by rewrite !draw_length. Qed.

Lemma shaped_clear : shaped clear.
Proof. intros l1 l2 ? ? ?. cbn. by rewrite !length_replicate. Qed.

Lemma shaped_resize nw nh : shaped (resize nw nh).
Proof.
  intros l1 l2 Hw Hh Hl. unfold resize. rewrite Hw, Hh. destruct (_ && _); [done|]. cbn. split_and!; try done.
  generalize (seq 0 (Z.to_nat (nh `min` h l2))). intros ys.
  assert (forall b1 b2, length b1 = length b2 ->
    length (foldl (fun q y => copy_slice (y * Z.to_nat nw) (take (Z.to_nat (nw `min` w l2)) (drop (y * Z.to_nat (w l2)) (px l1))) q) b1 ys) =
    length (foldl (fun q y => copy_slice (y * Z.to_nat nw) (take (Z.to_nat (nw `min` w l2)) (drop (y * Z.to_nat (w l2)) (px l2))) q) b2 ys)) as Hb; [|by apply Hb].
  induction ys as [|y ys IH]; intros b1 b2 Eb; [done|]. cbn. apply IH, length_copy_slice_eq; [|done]. rewrite !length_take, !length_drop. lia.
Qed.

(** A cleared layer is known from its shape. *)
Lemma cleared_sim U V id l1 l2 : layer_sim U id l1 l2 -> layer_sim V id (clear l1) (clear l2).
Proof. intros (Hw & Hh & Hl & _). unfold clear. rewrite Hw, Hh, Hl. done. Qed.

(** ** Changing one layer *)

Lemma layer_of_sim U id L1 L2 : layers_sim U L1 L2 -> layer_sim U id (default layer_default (L1 !! id)) (default layer_default (L2 !! id)).
Proof. intros HL. destruct (HL id); [done|apply layer_sim_refl]. Qed.

Lemma touch_up U V id f g m1 m2 : same_up U m1 m2 -> (forall j, j <> id -> j ∉ V -> j ∉ U) ->
  (forall l1 l2, layer_sim U id l1 l2 -> layer_sim V id (f l1) (g l2)) -> same_up V (touch id f m1) (touch id g m2).
Proof.
  intros (L & -> & HL) HV Hf. eexists. split; [done|]. cbn. intros j. destruct (decide (j = id)) as [->|Hn].
  - rewrite !lookup_insert_eq. constructor. by apply Hf, layer_of_sim.
  - rewrite !lookup_insert_ne by done. destruct (HL j) as [a b (? & ? & ? & Hp)|]; constructor. split_and!; auto.
Qed.

Lemma touch_same id f m1 m2 : shaped f -> same m1 m2 -> same (touch id f m1) (touch id f m2).
Proof. intros Hf Hm. eapply touch_up; [exact Hm|done|]. intros. by apply shaped_sim. Qed.

(** ** Results of an instruction *)

Definition res_same (r1 r2 : DisplayModel * bool) : Prop := snd r1 = snd r2 /\ same (fst r1) (fst r2).

Lemma need_same {A} (o : option A) k1 k2 m1 m2 : same m1 m2 -> (forall a, o = Some a -> res_same (k1 a) (k2 a)) -> res_same (need m1 o k1) (need m2 o k2).
Proof. intros Hm Hk. destruct o; [by apply Hk|done]. Qed.

Lemma composite_same id mask pic pw ph x y m1 m2 : same m1 m2 ->
  res_same (composite id mask pic pw ph x y m1) (composite id mask pic pw ph x y m2).
Proof.
  intros Hm. unfold composite. destruct (mask =? MASK_COPY); [|destruct (mask =? MASK_OVER)]; (split; [done|]); apply touch_same; try done.
  - intros l1 l2 ???. by apply shaped_draw; cbn; rewrite ?length_replicate.
  - apply shaped_draw.
Qed.

(** What is drawn on an unknown layer does not matter. *)
Lemma composite_unknown id mask p1 p2 pw ph x y m1 m2 : same m1 m2 -> id ∈ unknown_layers m1 ->
  res_same (composite id mask p1 pw ph x y m1) (composite id mask p2 pw ph x y m2).
Proof.
  intros Hm Hid. unfold composite. destruct (mask =? MASK_COPY); [|destruct (mask =? MASK_OVER)]; (split; [done|]);
    (eapply touch_up; [exact Hm|done|]); intros l1 l2 (Hw & Hh & Hl & Hp); [|..|done].
  all: split_and!; try done; rewrite !draw_length; cbn; by rewrite ?length_replicate.
Qed.

(** A copy needs no knowledge of the layer it replaces. *)
Lemma composite_copy id pic pw ph x y m1 m2 U : same_up U m1 m2 -> (forall j, j <> id -> j ∉ unknown_layers m1 -> j ∉ U) ->
  res_same (composite id MASK_COPY pic pw ph x y m1) (composite id MASK_COPY pic pw ph x y m2).
Proof.
  intros Hm HU. split; [done|]. cbn. eapply touch_up; [exact Hm|exact HU|]. intros l1 l2 Hl. apply shaped_sim; [apply shaped_draw|by eapply cleared_sim].
Qed.

Section apply.
Context `{Base64} `{ImageCodec}.

Lemma draw_image_same img m1 m2 : same m1 m2 -> res_same (draw_image img m1) (draw_image img m2).
Proof.
  intros Hm. unfold draw_image. apply need_same; [done|]. intros [[pw ph] pic] _.
  destruct ((mask img =? MASK_COPY) && (ix img <=? 0) && (iy img <=? 0)) eqn:Hc; [|by apply composite_same]. b2p.
  assert (same (touch (layer img) (fun l => l) m1) (touch (layer img) (fun l => l) m2)) as Ht by (apply touch_same; [apply shaped_id|done]).
  destruct Hm as (L & -> & HL). cbn [layers set_layers layer_of] in *. unfold layer_of in *.
  destruct (layer_of_sim _ (layer img) _ _ HL) as (-> & -> & _). cbn [layers set_layers].
  destruct (_ && _); [|by apply composite_same]. replace (mask img) with MASK_COPY by done.
  destruct Ht as (L' & E & HL'). apply (composite_copy _ _ _ _ _ _ _ _ (unknown_layers m1)).
  - exists L'. split; [|exact HL']. unfold set_unknown. rewrite E. done.
  - cbn. set_solver.
Qed.

Lemma fill_rects_same id rgba rects : forall m1 m2, same m1 m2 -> res_same (fill_rects id rgba rects m1) (fill_rects id rgba rects m2).
Proof.
  induction rects as [|[[[x y] rw] rh] r IH]; intros m1 m2 Hm; cbn; [done|].
  apply need_same; [done|]. intros a _. apply need_same; [done|]. intros b _. apply IH, touch_same; [apply shaped_draw|done].
Qed.

Ltac setters := match goal with Hm : same ?a ?b |- _ => destruct Hm as (?L & -> & ?HL) end; split; [done|]; eexists; (split; [reflexivity|done]).
Ltac needs := repeat (apply need_same; [done|intros ? _]).

Lemma apply_known_same op args m1 m2 : same m1 m2 -> res_same (apply_known op args m1) (apply_known op args m2).
Proof.
  intros Hm. unfold apply_known. repeat (destruct (bool_decide _); [|]).
  - unfold apply_size. needs. assert (same (touch a (fun l => l) m1) (touch a (fun l => l) m2)) by (apply touch_same; [apply shaped_id|done]).
    needs. split; [done|]. apply touch_same; [apply shaped_resize|done].
  - unfold apply_img. needs. setters.
  - unfold apply_h264. needs. destruct Hm as (L & -> & HL). split; [done|]. exists L. split; [done|].
    eapply layers_sim_mono; [|exact HL]. cbn. set_solver.
  - unfold apply_blob. needs. assert (images m2 = images m1) as -> by (by destruct Hm as (L & -> & _)).
    destruct (images m1 !! a); [|done]. needs. setters.
  - unfold apply_end. needs. assert (images m2 = images m1) as -> by (by destruct Hm as (L & -> & _)).
    assert (forall r1 r2, res_same r1 r2 -> res_same
      (let '(m, ok) := r1 in if ok : bool then (set_streams m (videos m ∖ {[a]}) (transfers m ∖ {[a]}) (delete a (audio m)), true) else (m, false))
      (let '(m, ok) := r2 in if ok : bool then (set_streams m (videos m ∖ {[a]}) (transfers m ∖ {[a]}) (delete a (audio m)), true) else (m, false))) as Hend.
    { intros [n1 b1] [n2 b2] [Eb Hn]. cbn in Eb, Hn. subst b2. destruct b1; [setters|done]. }
    apply Hend. destruct (images m1 !! a) as [img|]; [|done]. apply draw_image_same. by destruct Hm as (L & -> & HL); exists L.
  - unfold apply_copy. needs. rename a into src, a5 into dst, a4 into mask. assert (same (touch src (fun l => l) m1) (touch src (fun l => l) m2)) as Ht by (apply touch_same; [apply shaped_id|done]).
    assert (unknown_layers (touch src (fun l => l) m2) = unknown_layers (touch src (fun l => l) m1)) as Eu by (by destruct Hm as (L & -> & _)).
    rewrite Eu. destruct (decide (src ∈ unknown_layers (touch src (fun l => l) m1))) as [Hin|Hn].
    + apply composite_unknown; [|by apply elem_of_union_l, elem_of_singleton_2]. destruct Ht as (L & -> & HL). exists L. split; [done|].
      eapply layers_sim_mono; [|exact HL]. apply union_subseteq_r.
    + replace (layer_of src m2) with (layer_of src m1); [by apply composite_same|]. destruct Hm as (L & -> & HL). cbn in *. unfold layer_of. cbn.
      destruct (layer_of_sim _ src _ _ HL) as (Hw & Hh & _ & Hp). specialize (Hp Hn).
      destruct (default layer_default (layers m1 !! src)), (default layer_default (L !! src)). cbn in *. by subst.
  - unfold apply_rect. needs. assert (paths m2 = paths m1) as -> by (by destruct Hm as (L & -> & _)). setters.
  - unfold apply_cfill. needs. assert (paths m2 = paths m1) as -> by (by destruct Hm as (L & -> & _)).
    assert (same (set_paths m1 (delete a0 (paths m1))) (set_paths m2 (delete a0 (paths m1)))) as Hp by (destruct Hm as (L & -> & HL); by exists L).
    destruct (a =? MASK_COPY); [apply fill_rects_same, touch_same; [apply shaped_clear|done]|].
    destruct (a =? MASK_OVER); [by apply fill_rects_same|done].
  - assert (mouse m2 = mouse m1) as -> by (by destruct Hm as (L & -> & _)). setters.
  - assert (cursor m2 = cursor m1) as -> by (by destruct Hm as (L & -> & _)). setters.
  - unfold apply_audio. needs. setters.
  - unfold apply_transfer. needs. setters.
  - unfold apply_transfer. needs. setters.
  - done.
  - done.
Qed.

#[export] Instance apply_proper : Proper (same ==> eq ==> same) apply.
Proof.
  intros m1 m2 Hm i ? <-. unfold apply. destruct (apply_known_same (opcode i) (args i) m1 m2 Hm) as [Eb Hs].
  destruct (apply_known _ _ m1) as [n1 b1], (apply_known _ _ m2) as [n2 b2]. cbn in *. subst b2. destruct b1; [done|].
  destruct Hs as (L & -> & HL). by exists L.
Qed.

Lemma replay_from_proper l m1 m2 : same m1 m2 -> same (foldl apply m1 l) (foldl apply m2 l).
Proof. revert m1 m2. induction l as [|i l IH]; intros m1 m2 Hm; [done|]. cbn. apply IH. by rewrite Hm. Qed.
End apply.
End Same.

(** * Models that replays reach *)
Module Reached.
Import Display DisplayFacts.

Definition wf_args (l : list bytes) : Prop := Forall wf_element l /\ (length l < MAX_INSTRUCTION_ELEMENTS)%nat.

Record wf (m : DisplayModel) : Prop := mk_wf {
  wf_layers : map_Forall (fun id l => is_i64 id /\ layer_ok l) (layers m);
  wf_images : map_Forall (fun _ i => is_i64 (layer i)) (images m);
  wf_audio : map_Forall (fun s mimetype => is_i64 s /\ wf_element mimetype) (audio m);
  wf_cursor : forall l, cursor m = Some l -> wf_args l;
  wf_mouse : forall l, mouse m = Some l -> wf_args l }.

Lemma model_default_wf : wf model_default.
Proof. by split; try apply map_Forall_empty. Qed.

Lemma int_i64 l k z : int l k = Some z -> is_i64 z.
Proof. unfold int. destruct (l !! k); [|done]. apply parse_int_range. Qed.

Lemma u32_from_ok a b c d : u32_from a = Some c -> u32_from b = Some d -> u32_dims c d.
Proof. unfold u32_from, u32_dims, in_range. intros. repeat case_match; simplify_eq; b2p. lia. Qed.

Lemma touch_wf id f m : is_i64 id -> (forall l, layer_ok l -> layer_ok (f l)) -> wf m -> wf (touch id f m).
Proof.
  intros Hid Hf [Hl Hi Ha Hc Hm]. split; try done. cbn. apply map_Forall_insert_2; [|done]. split; [done|]. apply Hf.
  destruct (layers m !! id) as [l|] eqn:E; [apply (Hl _ _ E)|apply layer_default_ok].
Qed.

Lemma layer_of_ok id m : wf m -> layer_ok (layer_of id m).
Proof. intros Hm. unfold layer_of. destruct (layers m !! id) as [l|] eqn:E; [by apply (wf_layers _ Hm) in E as []|apply layer_default_ok]. Qed.

(** What holds of the model after an instruction, understood or not. *)
Definition res_wf (r : DisplayModel * bool) : Prop := wf (fst r).

Lemma need_wf {A} m (o : option A) k : wf m -> (forall a, o = Some a -> res_wf (k a)) -> res_wf (need m o k).
Proof. intros Hm Hk. destruct o; [by apply Hk|done]. Qed.

Lemma composite_wf id mask pic pw ph x y m : is_i64 id -> Forall pixel_ok pic -> wf m -> res_wf (composite id mask pic pw ph x y m).
Proof.
  intros Hid Hp Hm. unfold composite, res_wf. repeat case_match; cbn; apply touch_wf; try done; intros l Hl; apply draw_ok; try done. by apply clear_layer_ok.
Qed.

Section apply.
Context `{Base64} `{ImageCodec}.

Lemma draw_image_wf img m : is_i64 (layer img) -> wf m -> res_wf (draw_image img m).
Proof.
  intros Hid Hm. apply need_wf; [done|]. intros [[pw ph] pic] E. apply load_ok in E as (_ & _ & Hp).
  apply composite_wf; [done|done|]. destruct (_ && _); [|done].
  assert (wf (touch (layer img) (fun l => l) m)) as Ht by (by apply touch_wf). cbn zeta. destruct (_ && _); [by destruct Ht|done].
Qed.

Lemma fill_rects_wf id rgba rects : forall m, is_i64 id -> pixel_ok rgba -> wf m -> res_wf (fill_rects id rgba rects m).
Proof.
  induction rects as [|[[[x y] rw] rh] r IH]; intros m Hid Hp Hm; cbn; [done|].
  do 2 (apply need_wf; [done|intros ? _]). apply IH; [done|done|]. apply touch_wf; [done| |done].
  intros l Hl. apply draw_ok; [|done]. by apply Forall_replicate.
Qed.

Lemma u8_from_ok o z : o ≫= u8_from = Some z -> byte_ok z.
Proof. destruct o; [|done]. cbn. unfold u8_from, byte_ok, u8_max. intros. case_match; simplify_eq; b2p. lia. Qed.

Ltac needs := repeat (apply need_wf; [done|intros ? ?]).

Lemma apply_known_wf op args m : Forall wf_element args -> (length args < MAX_INSTRUCTION_ELEMENTS)%nat -> wf m ->
  res_wf (apply_known op args m).
Proof.
  intros Ha Hn Hm. unfold apply_known. repeat (destruct (bool_decide _); [|]).
  - unfold apply_size. needs. assert (wf (touch a (fun l => l) m)) by (apply touch_wf; [by eapply int_i64|done|done]). needs.
    apply touch_wf; [by eapply int_i64| |done]. intros l. apply resize_ok. by eapply u32_from_ok.
  - unfold apply_img. needs. destruct Hm. split; try done. cbn. apply map_Forall_insert_2; [by eapply int_i64|done].
  - unfold apply_h264. needs. by destruct Hm.
  - unfold apply_blob. needs. destruct (images m !! a) as [i|] eqn:E; [|done]. needs. destruct Hm. split; try done. cbn.
    apply map_Forall_insert_2; [|done]. by eapply (wf_images0 _ _ E).
  - unfold apply_end. needs.
    assert (forall r, res_wf r -> res_wf
      (let '(m, ok) := r in if ok : bool then (set_streams m (videos m ∖ {[a]}) (transfers m ∖ {[a]}) (delete a (audio m)), true) else (m, false))) as Hend.
    { intros [n b] Hr. destruct b; [|done]. destruct Hr. split; try done. cbn. by apply map_Forall_delete. }
    apply Hend. destruct (images m !! a) as [img|] eqn:E; [|done]. apply draw_image_wf; [by apply (wf_images _ Hm _ _ E)|].
    destruct Hm. split; try done. cbn. by apply map_Forall_delete.
  - unfold apply_copy. needs. rename a into src, a5 into dst. assert (wf (touch src (fun l => l) m)) as Ht by (apply touch_wf; [by eapply int_i64|done|done]).
    apply composite_wf; [by eapply int_i64| |by destruct (decide _); [destruct Ht|]].
    apply region_ok; [| |by apply layer_of_ok]; unfold u32_from in *; repeat match goal with E : _ ≫= _ = Some _ |- _ => apply bind_Some in E as (? & _ & E) end;
      repeat case_match; simplify_eq; b2p; lia.
  - unfold apply_rect. needs. by destruct Hm.
  - unfold apply_cfill. needs.
    assert (pixel_ok (a1, a2, a3, a4)) as Hp by (repeat constructor; by eapply u8_from_ok).
    assert (wf (set_paths m (delete a0 (paths m)))) as Hd by (by destruct Hm).
    assert (is_i64 a0) as Hi by (by eapply int_i64).
    destruct (_ =? MASK_COPY); [apply fill_rects_wf; [done|done|apply touch_wf; [done|apply clear_layer_ok|done]]|].
    destruct (_ =? MASK_OVER); [by apply fill_rects_wf|done].
  - destruct Hm. split; try done. cbn. by intros ? [= <-].
  - destruct Hm. split; try done. cbn. by intros ? [= <-].
  - unfold apply_audio. needs. destruct Hm. split; try done. cbn. apply map_Forall_insert_2; [|done].
    split; [by eapply int_i64|]. by eapply Forall_lookup_1.
  - unfold apply_transfer. needs. by destruct Hm.
  - unfold apply_transfer. needs. by destruct Hm.
  - done.
  - done.
Qed.

Lemma apply_wf m i : wf_instruction i -> wf m -> wf (apply m i).
Proof.
  intros (_ & Ha & Hn) Hm. unfold apply. pose proof (apply_known_wf (opcode i) (args i) m Ha Hn Hm) as Hr.
  destruct (apply_known _ _ m) as [m' []]; [done|]. by destruct Hr.
Qed.

Lemma replay_wf l : Forall wf_instruction l -> wf (replay l).
Proof.
  intros Hl. unfold replay. apply foldl_inv; [|apply model_default_wf]. intros m i Hi Hm. apply apply_wf; [|done].
  rewrite Forall_forall in Hl. by apply Hl.
Qed.
End apply.
End Reached.

(** * What a prelude draws *)
Module Preludes.
Import Display DisplayFacts Same Reached.

Lemma int_num z r : is_i64 z -> int (num z :: r) 0 = Some z.
Proof. intros Hz. unfold int, num. cbn. apply parse_int_to_string; [done|apply i64_dec_bound; by left]. Qed.

Lemma int_S a r k : int (a :: r) (S k) = int r k.
Proof. done. Qed.

Lemma u32_from_id z : in_range 0 u32_max z -> u32_from z = Some z.
Proof. intros Hz. unfold u32_from, in_range in *. by take_true ((0 <=? z) && (z <=? u32_max)). Qed.

Lemma u32_i64 z : in_range 0 u32_max z -> is_i64 z.
Proof. unfold in_range, u32_max, i64_min, i64_max. lia. Qed.

(** ** The number of a free stream *)

Lemma free_stream_id f audio s : audio !! s = None -> free_stream f audio s = s.
Proof. intros E. destruct f; [done|]. cbn. by rewrite E. Qed.

Lemma free_stream_run f audio s : audio !! free_stream f audio s = None \/
  free_stream f audio s = s + Z.of_nat f /\ forall k, s <= k < s + Z.of_nat f -> is_Some (audio !! k).
Proof.
  revert s. induction f as [|f IH]; intros s; cbn [free_stream]; [right; split; [lia|intros; lia]|].
  destruct (audio !! s) eqn:E; [|by left]. destruct (IH (s + 1)) as [?|[-> Hk]]; [by left|right]. split; [lia|].
  intros k Hr. destruct (decide (k = s)) as [->|]; [by rewrite E|]. apply Hk. lia.
Qed.

Lemma free_stream_range f audio s : s <= free_stream f audio s <= s + Z.of_nat f.
Proof. revert s. induction f as [|f IH]; intros s; cbn [free_stream]; [lia|]. destruct (audio !! s); [|lia]. specialize (IH (s + 1)). lia. Qed.

Lemma free_stream_spec audio s : audio !! free_stream (S (base.size audio)) audio s = None.
Proof.
  destruct (free_stream_run (S (base.size audio)) audio s) as [?|[_ Hk]]; [done|]. exfalso.
  assert (list_to_set (seqZ s (Z.of_nat (S (base.size audio)))) ⊆ dom audio) as Hd.
  { intros k [Hk1 Hk2]%elem_of_list_to_set%elem_of_seqZ. apply elem_of_dom, Hk. lia. }
  apply subseteq_size in Hd. rewrite size_list_to_set, length_seqZ, size_dom in Hd by apply NoDup_seqZ. lia.
Qed.

(** ** Single steps *)

(** A display at rest. *)
Definition shown (L : gmap Z Layer) (A : gmap Z bytes) (c p : option (list bytes)) : DisplayModel := mk_model L ∅ false ∅ ∅ ∅ ∅ A c p.

Definition blanked (l : Layer) : Layer := mk_layer (w l) (h l) (blank (w l) (h l)).

Lemma resize_default a b : u32_dims a b -> resize a b layer_default = mk_layer a b (blank a b).
Proof.
  intros Hd. pose proof (dims_nonneg _ _ Hd) as [? ?]. unfold resize, layer_default. cbn [w h px].
  destruct (_ && _) eqn:E; b2p; [subst; by vm_compute|]. rewrite !Z.min_r by lia. done.
Qed.

Lemma clear_blanked l : layer_ok l -> clear (blanked l) = clear l.
Proof.
  intros [Hd Hp _]. pose proof (dims_nonneg _ _ Hd) as [? ?]. unfold clear, blanked. cbn [w h px]. f_equal. f_equal.
  unfold picture in Hp. apply Nat2Z.inj. rewrite Hp. by apply length_blank.
Qed.

Section prelude.
Context `{Base64} `{ImageCodec}.

Lemma apply_size_shown L A c p id l : is_i64 id -> layer_ok l -> L !! id = None ->
  apply (shown L A c p) (inst (str "size") [num id; num (w l); num (h l)]) = shown (<[id := blanked l]> L) A c p.
Proof.
  intros Hid Hl Hn. pose proof (ok_dims _ Hl) as [Hw Hh]. unfold apply, inst. cbn [opcode args].
  change (apply_known (str "size") ?a ?m) with (apply_size a m). unfold apply_size.
  rewrite int_num, !int_S, int_num, int_num by (auto using u32_i64). cbn [need]. rewrite !u32_from_id by done. cbn [need].
  unfold touch, shown. cbn. rewrite Hn, lookup_insert_eq, insert_insert_eq. cbn. by rewrite resize_default.
Qed.

Lemma apply_blobs L A c p s i cs : is_i64 s -> Forall bytes_ok cs ->
  foldl apply (set_images (shown L A c p) {[s := i]}) ((fun chunk => inst (str "blob") [num s; b64_encode STANDARD chunk]) <$> cs) =
  set_images (shown L A c p) {[s := mk_image (mask i) (layer i) (ix i) (iy i) (data i ++ concat cs)]}.
Proof.
  intros Hs. revert i. induction cs as [|ch cs IH]; intros i Hc; cbn [fmap list_fmap foldl concat].
  - rewrite app_nil_r. by destruct i.
  - apply Forall_cons in Hc as [Hc1 Hc]. unfold apply at 2, inst. cbn [opcode args].
    change (apply_known (str "blob") ?a ?m) with (apply_blob a m). unfold apply_blob. rewrite int_num by done. cbn [need].
    change (images (set_images (shown L A c p) {[s := i]})) with ({[s := i]} : gmap Z ImageStream).
    rewrite lookup_singleton_eq. cbn [need lookup list_lookup]. rewrite b64_decode_encode by done. cbn [need].
    rewrite insert_singleton_eq. etrans; [apply (IH (mk_image (mask i) (layer i) (ix i) (iy i) (data i ++ ch)))|]; [done|].
    cbn. by rewrite <- (assoc_L (++)).
Qed.

Lemma apply_layer_image L A c p s id l png : is_i64 s -> is_i64 id -> A !! s = None -> layer_ok l -> 0 < w l -> 0 < h l ->
  4 * (w l * h l) <= MAX_ALLOC -> png_encode (w l) (h l) (px l) = Some png -> L !! id = Some (blanked l) ->
  foldl apply (shown L A c p) (layer_image s id png) = shown (<[id := l]> L) A c p.
Proof.
  intros Hs Hid HA Hl Hw Hh Hm Hpng HL. unfold layer_image. rewrite foldl_app. cbn [foldl].
  assert (apply (shown L A c p) (inst (str "img") [num s; num MASK_COPY; num id; str "image/png"; str "0"; str "0"]) =
    set_images (shown L A c p) {[s := mk_image MASK_COPY id 0 0 []]}) as ->.
  { unfold apply, inst. cbn [opcode args]. change (apply_known (str "img") ?a ?m) with (apply_img a m). unfold apply_img.
    rewrite int_num, !int_S, int_num, int_num by done. cbn [need]. change (int [str "image/png"; str "0"; str "0"] 1) with (Some 0).
    change (int [str "image/png"; str "0"; str "0"] 2) with (Some 0). done. }
  rewrite foldl_app, apply_blobs; [|done|].
  2: { pose proof (png_ok _ _ _ _ Hpng) as Hb. apply Forall_concat. rewrite chunks_concat; [done|]. apply Nat.ltb_lt. by vm_compute. }
  rewrite chunks_concat by (apply Nat.ltb_lt; by vm_compute). cbn [foldl data mask layer ix iy app].
  unfold apply, inst. cbn [opcode args]. change (apply_known (str "end") ?a ?m) with (apply_end a m). unfold apply_end.
  rewrite int_num by done. cbn [need]. change (images (set_images (shown L A c p) ?x)) with x. rewrite lookup_singleton_eq.
  rewrite delete_singleton_eq. unfold draw_image. cbn [data].
  rewrite (png_load _ _ _ _ Hpng) by (done || apply Hl || apply Forall_clean_ok, Hl). cbn [need mask layer ix iy].
  change (MASK_COPY =? MASK_COPY) with true. change (0 <=? 0) with true. cbn [andb].
  assert (layer_of id (set_images (set_images (shown L A c p) {[s := mk_image MASK_COPY id 0 0 png]}) ∅) = blanked l) as -> by (unfold layer_of; cbn; by rewrite HL).
  cbn [w h blanked]. rewrite !Z.add_0_r, !Z.leb_refl. cbn [andb]. unfold composite. change (MASK_COPY =? MASK_COPY) with true.
  unfold touch, set_unknown, set_images, set_layers, set_streams, shown. cbn.
  rewrite HL, lookup_insert_eq, insert_insert_eq. cbn. rewrite clear_blanked, draw_full by done.
  rewrite (delete_id A) by done. rewrite !subseteq_empty_difference_L by apply empty_subseteq. done.
Qed.

(** ** The layers *)

(** A layer as the prelude leaves it. *)
Definition sent (skip : option Z) (id : Z) (l : Layer) : Layer := if bool_decide (skip = Some id) then blanked l else l.

Definition drawable (l : Layer) : Prop := 4 * (w l * h l) <= MAX_ALLOC.

Lemma blanked_empty l : layer_ok l -> w l = 0 \/ h l = 0 -> blanked l = l.
Proof.
  intros [Hd Hp _] Hz. destruct l as [a b q]. unfold blanked, blank, picture in *. cbn in *.
  assert (a * b = 0) as E by (destruct Hz; subst; lia). rewrite E in *. destruct q; [done|]. cbn in Hp. lia.
Qed.

Lemma apply_layers A c p skip ls : forall stream is_ L, layers_prelude A skip stream ls = Some is_ ->
  Forall (fun '(id, l) => is_i64 id /\ layer_ok l /\ drawable l) ls -> NoDup (fst <$> ls) -> Forall (fun '(id, _) => L !! id = None) ls ->
  is_i64 stream -> stream + Z.of_nat (S (base.size A)) * (1 + Z.of_nat (length ls)) <= i64_max ->
  foldl apply (shown L ∅ c p) is_ = shown (foldl (fun L '(id, l) => <[id := sent skip id l]> L) L ls) ∅ c p.
Proof.
  induction ls as [|[id l] r IH]; intros s is_ L E Hok Hnd Hf Hs Hb; cbn [layers_prelude] in E.
  { by injection E as <-. }
  apply Forall_cons in Hok as [(Hid & Hl & Hm) Hok]. apply NoDup_cons in Hnd as [Hni Hnd]. apply Forall_cons in Hf as [HL Hf].
  assert (forall x : Layer, Forall (fun '(j, _) => <[id := x]> L !! j = None) r) as Hf'.
  { intros x. apply Forall_forall. intros [j y] Hin. rewrite Forall_forall in Hf. rewrite lookup_insert_ne; [by apply (Hf (j, y))|].
    intros ->. apply Hni. apply list_elem_of_fmap. by exists (j, y). }
  pose proof (dims_nonneg _ _ (ok_dims _ Hl)) as [Hw Hh]. cbn [length] in Hb.
  destruct (_ || bool_decide (skip = Some id)) eqn:Hc.
  - apply fmap_Some in E as (is' & Er & ->). rewrite foldl_cons_eq, apply_size_shown by done. rewrite (IH s is' _ Er); [|done|done|done|done|lia].
    rewrite foldl_cons_eq. do 2 f_equal.
    unfold sent. apply orb_true_iff in Hc as [Hc|Hc%bool_decide_eq_true]; [|by rewrite bool_decide_true].
    case_bool_decide; [done|]. rewrite blanked_empty; [done|done|]. apply orb_true_iff in Hc as [?|?]; b2p; lia.
  - apply orb_false_iff in Hc as [[Hc1 Hc2]%orb_false_iff Hc3]. b2p.
    set (s' := free_stream _ A s) in *. pose proof (free_stream_range (S (base.size A)) A s) as Hr. fold s' in Hr.
    apply bind_Some in E as (png & Ep & E). apply bind_Some in E as (is' & Er & E). apply (inj Some) in E as <-.
    rewrite foldl_cons_eq, apply_size_shown, foldl_app by done.
    assert (is_i64 s') as Hs' by (unfold in_range, i64_min, i64_max in *; lia).
    rewrite (apply_layer_image _ _ _ _ s' id l png); try done; try lia; [|by rewrite lookup_insert_eq].
    rewrite (IH s' is' _ Er); [|done|done| |done|lia].
    + rewrite foldl_cons_eq, insert_insert_eq. unfold sent. by rewrite bool_decide_false.
    + rewrite insert_insert_eq. apply Hf'.
Qed.

Lemma foldl_insert {V} (g : Z -> V -> V) ls : forall (L : gmap Z V), NoDup (fst <$> ls) -> Forall (fun '(id, _) => L !! id = None) ls ->
  forall id, foldl (fun L '(id, l) => <[id := g id l]> L) L ls !! id =
    match (list_to_map ls : gmap Z V) !! id with Some v => Some (g id v) | None => L !! id end.
Proof.
  induction ls as [|[j v] r IH]; intros L Hnd Hf id; cbn [foldl list_to_map foldr fst snd]; [by rewrite lookup_empty|].
  apply NoDup_cons in Hnd as [Hni Hnd]. apply Forall_cons in Hf as [HL Hf].
  rewrite IH; [|done|].
  - destruct (decide (id = j)) as [->|Hn].
    + rewrite lookup_insert_eq. rewrite (not_elem_of_list_to_map_1 r j) by done. by rewrite lookup_insert_eq.
    + by rewrite !lookup_insert_ne.
  - apply Forall_forall. intros [k y] Hin. rewrite Forall_forall in Hf. rewrite lookup_insert_ne; [by apply (Hf (k, y))|].
    intros ->. apply Hni. apply list_elem_of_fmap. by exists (k, y).
Qed.

Lemma sorted_perm {V} (m : gmap Z V) : sorted m ≡ₚ map_to_list m.
Proof. apply merge_sort_Permutation. Qed.

Lemma sorted_NoDup {V} (m : gmap Z V) : NoDup (fst <$> sorted m).
Proof. rewrite (sorted_perm m). apply NoDup_fst_map_to_list. Qed.

Lemma sorted_map {V} (m : gmap Z V) : (list_to_map (sorted m) : gmap Z V) = m.
Proof. etrans; [|apply (list_to_map_to_list m)]. apply list_to_map_proper; [apply sorted_NoDup|apply sorted_perm]. Qed.

Lemma sorted_Forall {V} (P : Z -> V -> Prop) (m : gmap Z V) : map_Forall P m -> Forall (fun '(k, v) => P k v) (sorted m).
Proof.
  intros Hm. apply Forall_forall. intros [k v] Hin. rewrite (sorted_perm m) in Hin. apply Hm. by apply elem_of_map_to_list.
Qed.

Lemma sorted_insert {V} (g : Z -> V -> V) (m : gmap Z V) :
  foldl (fun (L : gmap Z V) '(id, l) => <[id := g id l]> L) ∅ (sorted m) = map_imap (fun id l => Some (g id l)) m.
Proof.
  apply map_eq. intros id. rewrite foldl_insert, sorted_map, map_lookup_imap; [|apply sorted_NoDup|].
  - by destruct (m !! id).
  - apply Forall_forall. intros [k y] _. apply lookup_empty.
Qed.

(** ** Audio streams and the pointer *)

Lemma apply_audio_shown L c p ls : Forall (fun '(s, _) => is_i64 s) ls -> forall A,
  foldl apply (shown L A c p) ((fun '(s, mt) => inst (str "audio") [num s; mt]) <$> ls) =
  shown L (foldl (fun A '(s, mt) => <[s := mt]> A) A ls) c p.
Proof.
  induction 1 as [|[s mt] ls Hs _ IH]; intros A; [done|]. cbn [fmap list_fmap foldl]. unfold apply at 2, inst. cbn [opcode args].
  change (apply_known (str "audio") ?a ?m) with (apply_audio a m). unfold apply_audio. rewrite int_num by done. cbn [need lookup list_lookup].
  apply IH.
Qed.

Lemma apply_pointer L A c p c' p' :
  foldl apply (shown L A c p) (pointer_prelude (str "cursor") c' ++ pointer_prelude (str "mouse") p') =
  shown L A (match c' with Some _ => c' | None => c end) (match p' with Some _ => p' | None => p end).
Proof. destruct c', p'; reflexivity. Qed.

(** ** The whole prelude *)

(** What a prelude can rebuild: pictures within the decoder's limit, and no
    absurd number of layers and audio streams. *)
Definition resumable (m : DisplayModel) : Prop :=
  map_Forall (fun _ l => drawable l) (layers m) /\ Z.of_nat (base.size (audio m)) < 2 ^ 30 /\ Z.of_nat (base.size (layers m)) < 2 ^ 30.

Lemma prelude_replay m skip is_ : wf m -> resumable m -> prelude m skip = Some is_ ->
  replay is_ = shown (map_imap (fun id l => Some (sent skip id l)) (layers m)) (audio m) (cursor m) (mouse m).
Proof.
  intros Hm (Hd & Ha & Hl) E. unfold prelude in E. apply bind_Some in E as (drawn & Ed & E). injection E as <-.
  unfold replay. rewrite !foldl_app. change model_default with (shown ∅ ∅ None None).
  rewrite (apply_layers (audio m) None None skip (sorted (layers m)) 1 drawn ∅ Ed).
  - rewrite (sorted_insert (sent skip)), apply_audio_shown, <- foldl_app, apply_pointer.
    + rewrite (sorted_insert (fun _ => id)), map_imap_Some. by destruct (cursor m), (mouse m).
    + apply (sorted_Forall (fun s _ => is_i64 s)). intros s mt Es. by apply (wf_audio _ Hm) in Es as [].
  - apply (sorted_Forall (fun id l => is_i64 id /\ layer_ok l /\ drawable l)). intros id l El. pose proof (wf_layers _ Hm _ _ El) as [??]. split_and!; try done. by apply Hd in El.
  - apply sorted_NoDup.
  - apply Forall_forall. intros [k y] _. apply lookup_empty.
  - by vm_compute.
  - assert (length (sorted (layers m)) = base.size (layers m)) as -> by (rewrite (sorted_perm (layers m)); apply length_map_to_list).
    unfold i64_max. nia.
Qed.

(** The display after the prelude is the display it was taken from, but for
    the pixels left out. *)
Lemma prelude_same m skip is_ : wf m -> resumable m -> broken m = false -> at_rest m = true -> paths m = ∅ ->
  prelude m skip = Some is_ -> same_up (from_option singleton ∅ skip) (set_unknown m ∅) (replay is_).
Proof.
  intros Hm Hr Hb Hrest Hp E. rewrite (prelude_replay _ _ _ Hm Hr E).
  exists (map_imap (fun id l => Some (sent skip id l)) (layers m)). unfold at_rest in Hrest. b2p. split.
  - destruct m. cbn in *. by subst.
  - intros id. rewrite map_lookup_imap. change (layers (set_unknown m ∅)) with (layers m). destruct (layers m !! id) as [l|] eqn:El; cbn; constructor.
    apply (wf_layers _ Hm) in El as [_ Hl]. unfold sent. case_bool_decide as Hs; [|apply layer_sim_refl].
    pose proof (dims_nonneg _ _ (ok_dims _ Hl)) as [? ?]. split_and!; try done.
    + apply Nat2Z.inj. cbn. rewrite length_blank by done. apply (ok_size _ Hl).
    + intros Hn. destruct Hn. subst skip. by apply elem_of_singleton.
Qed.
End prelude.
End Preludes.
