(* ===== verification/Seeking.v ===== *)
(** * Seeks from checkpoints

    What the checkpoints of [Recordings.Index] are worth.  Module [Parsed]
    reads a recording as a list of instructions, whatever the sizes of the
    reads; [Checkpoints] says what the builder has saved after each of them;
    [Resumed] compares a playback from a checkpoint with one from the first
    byte, and [SeekingExamples] has concrete recordings. *)

From stdpp Require Import sorting.
From S2P Require Import Prelude Machine Text Crates Guacamole Instruction Recordings.

Local Open Scope Z_scope.

(** * Recordings as instructions *)
Module Parsed.
Import Display Index.

Section parsed.
Context `{Winnow}.

(** The instructions of a recording with the bytes each takes, up to what
    does not parse. *)
Fixpoint read_fuel (fuel : nat) (buf : bytes) : list (GuacInstruction * nat) :=
  match fuel with
  | O => []
  | S f => match parsed buf with Some ic => ic :: read_fuel f (drop (snd ic) buf) | None => [] end
  end.

Definition instructions (buf : bytes) : list (GuacInstruction * nat) := read_fuel (S (length buf)) buf.

Definition consumed (l : list (GuacInstruction * nat)) : nat := sum_list (snd <$> l).

Lemma parsed_bounds buf ic : parsed buf = Some ic -> (0 < snd ic <= length buf)%nat /\ wf_instruction (fst ic).
Proof.
  unfold parsed. destruct (try_parse_instruction buf) as [[[i n]|]|] eqn:E; try done. intros [= <-]. split; [by eapply try_parse_bounds|].
  unfold try_parse_instruction in E. destruct (parse_instruction buf) as [[j r]|[]] eqn:Ep; [|done..]. injection E as -> _.
  by apply parse_instruction_sound in Ep as [? _].
Qed.

Lemma parsed_more buf k ic : parsed buf = Some ic -> parsed (buf ++ k) = Some ic.
Proof.
  unfold parsed. destruct (try_parse_instruction buf) as [[x|]|] eqn:E; try done. intros [= ->].
  by rewrite (try_parse_more _ k _ E).
Qed.

Lemma read_fuel_enough f1 : forall f2 buf, (length buf < f1)%nat -> (length buf < f2)%nat -> read_fuel f1 buf = read_fuel f2 buf.
Proof.
  induction f1 as [|f1 IH]; intros [|f2] buf H1 H2; try lia. cbn. destruct (parsed buf) as [ic|] eqn:E; [|done]. f_equal.
  apply parsed_bounds in E as [? _]. apply IH; rewrite length_drop; lia.
Qed.

Lemma instructions_step buf : instructions buf =
  match parsed buf with Some ic => ic :: instructions (drop (snd ic) buf) | None => [] end.
Proof.
  unfold instructions at 1. cbn [read_fuel]. destruct (parsed buf) as [ic|] eqn:E; [|done]. f_equal. apply parsed_bounds in E as [? _].
  apply read_fuel_enough; rewrite length_drop; lia.
Qed.

(** Induction along the instructions of a recording. *)
Lemma instructions_ind (P : bytes -> Prop) :
  (forall buf, parsed buf = None -> P buf) ->
  (forall buf ic, parsed buf = Some ic -> P (drop (snd ic) buf) -> P buf) -> forall buf, P buf.
Proof.
  intros H0 H1 buf. remember (length buf) as n eqn:Hn. revert buf Hn. induction n as [n IH] using lt_wf_ind. intros buf ->.
  destruct (parsed buf) as [ic|] eqn:E; [|by apply H0]. eapply H1; [done|]. apply parsed_bounds in E as [? _].
  eapply IH; [|done]. rewrite length_drop. lia.
Qed.

Lemma instructions_wf buf : Forall (fun ic => (0 < snd ic)%nat /\ wf_instruction (fst ic)) (instructions buf).
Proof.
  induction buf as [buf E|buf ic E IH] using instructions_ind; rewrite instructions_step, E; constructor; [|done].
  apply parsed_bounds in E as [??]. split; [lia|done].
Qed.

Lemma instructions_drop l1 : forall buf l2, instructions buf = l1 ++ l2 -> instructions (drop (consumed l1) buf) = l2.
Proof.
  induction l1 as [|ic l1 IH]; intros buf l2 E; [by rewrite drop_0|]. rewrite instructions_step in E.
  destruct (parsed buf) as [ic'|]; [|done]. injection E as -> E. apply IH in E. rewrite drop_drop in E. exact E.
Qed.

Lemma instructions_app buf k :
  instructions (buf ++ k) = instructions buf ++ instructions (drop (consumed (instructions buf)) buf ++ k).
Proof.
  induction buf as [buf E|buf ic E IH] using instructions_ind.
  - rewrite (instructions_step buf), E. cbn. by rewrite drop_0.
  - rewrite (instructions_step (buf ++ k)), (instructions_step buf), E, (parsed_more _ _ _ E). cbn [app consumed fmap list_fmap sum_list sum_list_with].
    apply parsed_bounds in E as [? _]. rewrite drop_app_le by lia. rewrite IH. f_equal. f_equal. f_equal. f_equal. unfold consumed. by rewrite <- drop_drop.
Qed.

Lemma consumed_app l k : consumed (l ++ k) = (consumed l + consumed k)%nat.
Proof. unfold consumed. by rewrite fmap_app, sum_list_with_app. Qed.

Lemma consumed_le buf : (consumed (instructions buf) <= length buf)%nat.
Proof.
  induction buf as [buf E|buf ic E IH] using instructions_ind; rewrite instructions_step, E; unfold consumed; cbn [fmap list_fmap sum_list sum_list_with]; [lia|].
  apply parsed_bounds in E as [? _]. rewrite length_drop in IH. unfold consumed, id in *. lia.
Qed.

(** Nothing more can be read from what is left. *)
Lemma parsed_rest buf : parsed (drop (consumed (instructions buf)) buf) = None.
Proof.
  pose proof (instructions_drop (instructions buf) buf []) as E. rewrite app_nil_r in E. specialize (E eq_refl).
  rewrite instructions_step in E. by destruct (parsed _).
Qed.

Lemma consumed_inj a b c d : Forall (fun ic : GuacInstruction * nat => (0 < snd ic)%nat) (a ++ b) -> a ++ b = c ++ d -> consumed a = consumed c -> a = c /\ b = d.
Proof.
  revert c. induction a as [|x a IH]; intros [|y c] Hp E Ec; try done.
  - exfalso. cbn in E, Ec. rewrite E in Hp. cbn in Hp. apply Forall_cons in Hp as [? _]. lia.
  - exfalso. cbn in Hp, Ec. apply Forall_cons in Hp as [? _]. lia.
  - cbn in E, Hp. apply Forall_cons in Hp as [_ Hp]. injection E as -> E. cbn in Ec. destruct (IH c Hp E) as [-> ->]; [|done]. unfold consumed. lia.
Qed.

(** ** Texts of instructions *)

Lemma prelude_text_wires is_ : Forall wf_instruction is_ -> prelude_text is_ = concat ((fun i => wire (opcode i) (args i)) <$> is_).
Proof.
  unfold prelude_text. intros Hw. rewrite <- (app_nil_l (concat _)). generalize (@nil Z) as out.
  induction Hw as [|i is_ Hi _ IH]; intros out; cbn [foldl fmap list_fmap concat]; [by rewrite app_nil_r|].
  rewrite IH, instruction_encode_wire by done. by rewrite <- (assoc_L (++)).
Qed.

Lemma instructions_text is_ rest : Forall wf_instruction is_ ->
  instructions (prelude_text is_ ++ rest) = ((fun i => (i, length (wire (opcode i) (args i)))) <$> is_) ++ instructions rest.
Proof.
  intros Hw. rewrite prelude_text_wires by done. induction Hw as [|i is_ Hi _ IH]; [done|]. cbn [fmap list_fmap concat app].
  rewrite <- (assoc_L (++)), instructions_step. unfold parsed. rewrite wire_parse_Ok by done. cbn [snd]. by rewrite drop_app_length, IH.
Qed.
End parsed.
End Parsed.

(** * Checkpoints are faithful *)
Module Checkpoints.
Import Display DisplayFacts Same Reached Preludes Index Parsed.

Section prelude_wf.
Context `{Base64} `{ImageCodec}.

Lemma num_wf z : is_i64 z -> wf_element (num z).
Proof. intros. apply int_to_string_wf, i64_dec_bound. by left. Qed.

Lemma chunk_wf c : bytes_ok c -> (length c <= PRELUDE_BLOB_BYTES)%nat -> wf_element (b64_encode STANDARD c).
Proof.
  intros Hok Hl. split; [by apply ascii_utf8, b64_encode_ascii|].
  pose proof (char_count_le (b64_encode STANDARD c)) as Hc. pose proof (b64_encode_length STANDARD c) as Hb.
  apply Nat2Z.inj_le in Hb, Hl, Hc. rewrite Nat2Z.inj_mul, Nat2Z.inj_div, Nat2Z.inj_add in Hb.
  change (Z.of_nat PRELUDE_BLOB_BYTES) with (Z.of_nat (Z.to_nat 49152)) in Hl. rewrite Z2Nat.id in Hl by lia.
  unfold MAX_ELEMENT_CHARS. change (Z.of_nat 4) with 4 in Hb. change (Z.of_nat 2) with 2 in Hb. change (Z.of_nat 3) with 3 in Hb.
  Z.to_euclidean_division_equations. lia.
Qed.

Lemma inst_wf (op : bytes) (l : list bytes) : wf_element op -> wf_args l -> wf_instruction (inst op l).
Proof. by intros Ho []. Qed.

Ltac args_wf := apply inst_wf; [apply str_wf; [by vm_compute|by vm_compute; lia]|];
  split; [repeat apply Forall_cons_2; try apply Forall_nil_2; try apply num_wf; try (apply str_wf; [by vm_compute|by vm_compute; lia])|by vm_compute; lia].

Lemma layers_prelude_wf A skip ls : forall s is_, layers_prelude A skip s ls = Some is_ -> is_i64 s ->
  Forall (fun '(id, l) => is_i64 id /\ layer_ok l) ls -> s + Z.of_nat (S (base.size A)) * (1 + Z.of_nat (length ls)) <= i64_max ->
  Forall wf_instruction is_.
Proof.
  induction ls as [|[id l] r IH]; intros s is_ E Hs Hok Hb; cbn [layers_prelude] in E; [by injection E as <-; constructor|].
  apply Forall_cons in Hok as [(Hid & Hl) Hok]. destruct (ok_dims _ Hl) as [Hw%u32_i64 Hh%u32_i64]. cbn [length] in Hb.
  destruct (_ || bool_decide (skip = Some id)).
  - apply fmap_Some in E as (is' & Er & ->). constructor; [args_wf; done|]. eapply IH; [exact Er|done|done|lia].
  - set (s' := free_stream _ A s) in *. pose proof (free_stream_range (S (base.size A)) A s) as Hr. fold s' in Hr.
    apply bind_Some in E as (png & Ep & E). apply bind_Some in E as (is' & Er & E). apply (inj Some) in E as <-.
    assert (is_i64 s') as Hs' by (unfold in_range, i64_min, i64_max in *; lia).
    constructor; [args_wf; done|]. apply Forall_app. split; [|eapply IH; [exact Er|done|done|lia]].
    unfold layer_image. rewrite !Forall_app. split_and!; [|apply Forall_fmap|]; [apply Forall_singleton; args_wf; try done; by vm_compute| |apply Forall_singleton; args_wf; done].
    apply Forall_forall. intros c Hin. cbn.
    assert (0 < PRELUDE_BLOB_BYTES)%nat as Hp by (apply Nat.ltb_lt; by vm_compute).
    pose proof (chunks_bounded PRELUDE_BLOB_BYTES png Hp) as Hc. rewrite Forall_forall in Hc.
    assert (bytes_ok c) as Hbc.
    { pose proof (png_ok _ _ _ _ Ep) as Hpo. rewrite <- (chunks_concat PRELUDE_BLOB_BYTES png Hp) in Hpo. rewrite Forall_concat, Forall_forall in Hpo. by apply Hpo. }
    args_wf; [done|]. apply chunk_wf; [done|]. by apply Hc.
Qed.

Lemma prelude_wf m skip is_ : wf m -> resumable m -> prelude m skip = Some is_ -> Forall wf_instruction is_.
Proof.
  intros Hm (Hd & Ha & Hl) E. unfold prelude in E. apply bind_Some in E as (drawn & Ed & E). apply (inj Some) in E as <-.
  rewrite !Forall_app. split_and!.
  - eapply layers_prelude_wf; [exact Ed|by vm_compute|by apply (sorted_Forall (fun id l => is_i64 id /\ layer_ok l)), wf_layers|].
    assert (length (sorted (layers m)) = base.size (layers m)) as -> by (rewrite (sorted_perm (layers m)); apply length_map_to_list).
    unfold i64_max. nia.
  - apply Forall_fmap. eapply Forall_impl; [apply (sorted_Forall _ _ (wf_audio _ Hm))|]. intros [s mt] [Hs Hmt]. cbn. args_wf; done.
  - destruct (cursor m) as [l|] eqn:Ec; [|constructor]. apply Forall_singleton, inst_wf; [apply str_wf; [by vm_compute|by vm_compute; lia]|]. by apply (wf_cursor _ Hm).
  - destruct (mouse m) as [l|] eqn:Ec; [|constructor]. apply Forall_singleton, inst_wf; [apply str_wf; [by vm_compute|by vm_compute; lia]|]. by apply (wf_mouse _ Hm).
Qed.

(** ** What is broken stays broken *)

Definition res_keeps (b : bool) (r : DisplayModel * bool) : Prop := broken (fst r) = b.

Lemma need_keeps {A} m (o : option A) k : (forall a, res_keeps (broken m) (k a)) -> res_keeps (broken m) (need m o k).
Proof. intros Hk. by destruct o; [apply Hk|]. Qed.

Lemma composite_keeps id mask pic pw ph x y m b : broken m = b -> res_keeps b (composite id mask pic pw ph x y m).
Proof. intros <-. unfold composite. by repeat destruct (_ =? _). Qed.

Lemma fill_rects_keeps id rgba rects : forall m b, broken m = b -> res_keeps b (fill_rects id rgba rects m).
Proof.
  induction rects as [|[[[x y] rw] rh] r IH]; intros m b E; cbn; [done|]. subst b. do 2 (apply need_keeps; intros ?). by apply IH.
Qed.

Lemma draw_image_keeps img m : res_keeps (broken m) (draw_image img m).
Proof.
  apply need_keeps. intros [[pw ph] pic]. apply composite_keeps. destruct (_ && _); [|done]. cbn zeta. by destruct (_ && _).
Qed.

Lemma apply_known_keeps op args m : res_keeps (broken m) (apply_known op args m).
Proof.
  unfold apply_known. repeat (destruct (bool_decide _); [|]).
  - unfold apply_size. do 3 (apply need_keeps; intros ?). change (broken m) with (broken (touch a (fun l => l) m)). by do 2 (apply need_keeps; intros ?).
  - unfold apply_img. by do 5 (apply need_keeps; intros ?).
  - unfold apply_h264. by do 2 (apply need_keeps; intros ?).
  - unfold apply_blob. apply need_keeps. intros ?. destruct (images m !! a); [|done]. by do 2 (apply need_keeps; intros ?).
  - unfold apply_end. apply need_keeps. intros ?.
    assert (forall r, res_keeps (broken m) r -> res_keeps (broken m)
      (let '(m, ok) := r in if ok : bool then (set_streams m (videos m ∖ {[a]}) (transfers m ∖ {[a]}) (delete a (audio m)), true) else (m, false))) as Hend by (by intros [n []]).
    apply Hend. destruct (images m !! a); [|done]. apply (draw_image_keeps i (set_images m (delete a (images m)))).
  - unfold apply_copy. do 9 (apply need_keeps; intros ?). apply composite_keeps. by destruct (decide _).
  - unfold apply_rect. by do 5 (apply need_keeps; intros ?).
  - unfold apply_cfill. do 6 (apply need_keeps; intros ?). destruct (_ =? MASK_COPY); [by apply fill_rects_keeps|]. by destruct (_ =? MASK_OVER); [apply fill_rects_keeps|].
  - done.
  - done.
  - unfold apply_audio. by do 2 (apply need_keeps; intros ?).
  - unfold apply_transfer. by apply need_keeps.
  - unfold apply_transfer. by apply need_keeps.
  - done.
  - done.
Qed.

Lemma broken_apply m i : broken (apply m i) = false -> broken m = false /\ snd (apply_known (opcode i) (args i) m) = true.
Proof.
  unfold apply. pose proof (apply_known_keeps (opcode i) (args i) m) as Hk. destruct (apply_known _ _ m) as [m' []]; [|done].
  unfold res_keeps in Hk. cbn in *. intros E. split; congruence.
Qed.

Lemma broken_replay l m : broken (foldl apply m l) = false -> broken m = false.
Proof. revert m. induction l as [|i l IH]; intros m Hb; [done|]. by apply IH, broken_apply in Hb as []. Qed.

(** A key frame makes the layer unknown that the prelude left out. *)
Lemma keyframe_same m1 m2 id i : opcode i = str "h264" -> int (args i) 1 = Some id -> unknown_layers m1 ⊆ {[id]} ->
  same_up {[id]} (set_unknown m1 ∅) m2 -> broken (apply m1 i) = false -> same (apply m1 i) (apply m2 i).
Proof.
  intros Ho Hi Hu (L & -> & HL) Hb. apply broken_apply in Hb as [_ Hb]. rewrite Ho in Hb.
  unfold apply. rewrite Ho. change (apply_known (str "h264") ?a ?m) with (apply_h264 a m) in *. unfold apply_h264 in *.
  destruct (int (args i) 0) as [s|]; [|done]. cbn [need] in *. rewrite Hi in *. cbn [need] in *.
  assert ({[id]} ∪ unknown_layers m1 = {[id]}) as Eu by (rewrite (comm_L (∪)); by apply subseteq_union_1_L).
  exists L. split.
  - destruct m1. cbn in *. by rewrite Eu, (right_id_L ∅ (∪)).
  - cbn in *. by rewrite Eu.
Qed.
End prelude_wf.

(** ** What the builder has saved *)

Section build.
Context `{Winnow} `{Base64} `{ImageCodec}.
Variable every_bytes : Z.

(** The first timestamp and the time of the last [sync]. *)
Definition tick (t : option Z * Z) (i : GuacInstruction) : option Z * Z :=
  if bool_decide (opcode i = str "sync") then
    match args i !! 0%nat ≫= parse_u64 with
    | Some ts => (Some (default ts (fst t)), Z.max (ts - default ts (fst t)) 0)
    | None => t
    end
  else t.

Definition times (l : list GuacInstruction) : option Z * Z := foldl tick (None, 0) l.

Definition insts (l : list (GuacInstruction * nat)) : list GuacInstruction := fst <$> l.

(** Where in the instructions [l] a checkpoint was taken, and what of. *)
Definition taken (l : list (GuacInstruction * nat)) (c : Checkpoint) : Prop :=
  exists la lb is_, l = la ++ lb /\ offset c = Z.of_nat (consumed la) /\ at_ms c = snd (times (insts la)) /\ file c = prelude_text is_ /\
    is_Some (fst (times (insts la))) /\ at_rest (replay (insts la)) = true /\
    ((unknown_layers (replay (insts la)) = ∅ /\ prelude (replay (insts la)) None = Some is_ /\ broken (replay (insts la)) = false) \/
     (exists i n lb' id, lb = (i, n) :: lb' /\ opcode i = str "h264" /\ int (args i) 1 = Some id /\
        unknown_layers (replay (insts la)) ⊆ {[id]} /\ prelude (replay (insts la)) (Some id) = Some is_ /\ broken (replay (insts la)) = false)).

Record built (l : list (GuacInstruction * nat)) (b : Builder) : Prop := mk_built {
  bt_model : model b = replay (insts l);
  bt_base : base_ b = Z.of_nat (consumed l);
  bt_times : (b_first b, b_at b) = times (insts l);
  bt_saved : Forall (taken l) (saved b) }.

Lemma taken_snoc l x c : taken l c -> taken (l ++ [x]) c.
Proof.
  intros (la & lb & is_ & -> & Ho & Ha & Hf & Hs & Hr & Hk). exists la, (lb ++ [x]), is_. split; [by rewrite (assoc_L (++))|].
  split_and!; try done. destruct Hk as [?|(i & n & lb' & id & -> & Hk)]; [by left|right]. by exists i, n, (lb' ++ [x]), id.
Qed.

Lemma insts_app l k : insts (l ++ k) = insts l ++ insts k.
Proof. apply fmap_app. Qed.

Lemma repainted_spec m i id : repainted m i = Some id -> int (args i) 1 = Some id /\ unknown_layers m ⊆ {[id]}.
Proof.
  unfold repainted, arg, int. destruct (args i !! 1%nat ≫= parse_i64) as [j|]; [|done].
  destruct (omap _ _) as [|[] [|[] [|? [|? [|]]]]]; try done. destruct (layers m !! j); [|done]. case_test. intros [= <-]. b2p. done.
Qed.

Lemma keyframe_built l b i n b' : built l b -> keyframe every_bytes b i = Some b' ->
  model b' = model b /\ base_ b' = base_ b /\ (b_first b', b_at b') = (b_first b, b_at b) /\ Forall (taken (l ++ [(i, n)])) (saved b').
Proof.
  intros [Hm Hb Ht Hs] E.
  assert (Forall (taken (l ++ [(i, n)])) (saved b)) as Hold by (eapply Forall_impl; [exact Hs|apply taken_snoc]).
  unfold keyframe in E. destruct (_ && due _ _ _ _) eqn:Hc; [|by injection E as <-]. b2p.
  destruct (repainted (model b) i) as [id|] eqn:Er; [|by injection E as <-]. apply repainted_spec in Er as [Hid Hu].
  apply bind_Some in E as (is_ & Ep & E). injection E as <-. split_and!; try done. cbn. apply Forall_app. split; [done|]. apply Forall_singleton.
  rewrite Hm in *. exists l, [(i, n)], is_. rewrite <- Ht. split_and!; try done. right. exists i, n, [], id. split_and!; done.
Qed.

Lemma step_built l b ic b' : built l b -> build_step every_bytes b ic = Some b' -> built (l ++ [ic]) b'.
Proof.
  intros Hb E. destruct ic as [i n]. unfold build_step in E. apply bind_Some in E as (b1 & E1 & E).
  destruct (keyframe_built l b i n b1 Hb E1) as (Hm & Hbase & Ht & Hs).
  apply bind_Some in E as (b2 & E2 & E). injection E as <-.
  assert (replay (insts (l ++ [(i, n)])) = apply (model b1) i) as Er.
  { rewrite insts_app. unfold replay. rewrite foldl_app. cbn. rewrite Hm. by rewrite (bt_model _ _ Hb). }
  assert (times (insts (l ++ [(i, n)])) = tick (b_first b1, b_at b1) i) as Et.
  { rewrite insts_app. unfold times. rewrite foldl_app. cbn. rewrite Ht. by rewrite (bt_times _ _ Hb). }
  assert (Z.of_nat (consumed (l ++ [(i, n)])) = base_ b + Z.of_nat n) as Ec.
  { rewrite consumed_app. cbn. rewrite (bt_base _ _ Hb). lia. }
  unfold sync_point, tick, arg in *. destruct (bool_decide (opcode i = str "sync")); [|injection E2 as <-; split; cbn; by rewrite ?Er, ?Et, ?Ec].
  destruct (args i !! 0%nat ≫= parse_u64) as [ts|]; [|injection E2 as <-; split; cbn; by rewrite ?Er, ?Et, ?Ec].
  destruct (_ && due _ _ _ _) eqn:Hc; [|injection E2 as <-; split; cbn; by rewrite ?Er, ?Et, ?Ec].
  apply bind_Some in E2 as (is_ & Ep & E2). injection E2 as <-. split; cbn; try (by rewrite ?Er, ?Et, ?Ec).
  apply Forall_app. split; [done|]. apply Forall_singleton. b2p. cbn in *.
  exists (l ++ [(i, n)]), [], is_. rewrite Er, Et, Ec. cbn. split; [by rewrite app_nil_r|]. do 3 (split; [done|]). split; [by eexists|]. split; [done|]. by left.
Qed.

Fixpoint steps (b : Builder) (l : list (GuacInstruction * nat)) : option Builder :=
  match l with [] => Some b | ic :: r => b ← build_step every_bytes b ic; steps b r end.

Lemma steps_app b l k : steps b (l ++ k) = b ← steps b l; steps b k.
Proof. revert b. induction l as [|ic l IH]; intros b; [done|]. cbn. destruct (build_step _ b ic); cbn; [apply IH|done]. Qed.

Lemma steps_built l k b b' : built l b -> steps b k = Some b' -> built (l ++ k) b'.
Proof.
  revert l b. induction k as [|ic k IH]; intros l b Hb E; cbn in E; [injection E as <-; by rewrite app_nil_r|].
  apply bind_Some in E as (b1 & E1 & E). replace (l ++ ic :: k) with ((l ++ [ic]) ++ k) by (by rewrite <- (assoc_L (++))).
  eapply IH; [|exact E]. by eapply step_built.
Qed.

Lemma drain_steps fuel : forall b buf, (length buf < fuel)%nat ->
  drain every_bytes fuel b buf = b' ← steps b (instructions buf); Some (b', drop (consumed (instructions buf)) buf).
Proof.
  induction fuel as [|f IH]; intros b buf Hf; [lia|]. cbn [drain]. rewrite instructions_step.
  destruct (parsed buf) as [ic|] eqn:E; [|cbn; by rewrite drop_0]. cbn [steps]. destruct (build_step _ b ic) as [b1|]; [|done]. cbn.
  apply parsed_bounds in E as [? _]. rewrite IH by (rewrite length_drop; lia). unfold consumed. by rewrite drop_drop.
Qed.

(** How the recording was read does not matter. *)
Lemma build_loop_steps reads : forall b buf, parsed buf = None ->
  build_loop every_bytes b buf reads =
  b' ← steps b (instructions (buf ++ concat reads)); Some (b', drop (consumed (instructions (buf ++ concat reads))) (buf ++ concat reads)).
Proof.
  induction reads as [|chunk r IH]; intros b buf Hn; cbn [build_loop concat].
  - rewrite app_nil_r, instructions_step, Hn. cbn. by rewrite drop_0.
  - rewrite drain_steps by lia. rewrite (assoc_L (++)), (instructions_app (buf ++ chunk)), steps_app.
    destruct (steps b (instructions (buf ++ chunk))) as [b1|]; [|done]. cbn [mbind option_bind].
    pose proof (consumed_le (buf ++ chunk)) as Hc. rewrite IH by apply parsed_rest. rewrite <- drop_app_le by done.
    destruct (steps b1 _) as [b2|]; [|done]. cbn [mbind option_bind]. by rewrite consumed_app, drop_drop.
Qed.

Lemma steps_start : built [] builder_new.
Proof. split; done || constructor. Qed.

(** An index is built from the instructions of the recording. *)
Lemma build_built reads idx : build every_bytes reads = Some idx ->
  Forall (taken (instructions (concat reads))) (checkpoints idx) /\
  first_ts idx = fst (times (insts (instructions (concat reads)))) /\ source_len idx = Z.of_nat (length (concat reads)).
Proof.
  unfold build. rewrite build_loop_steps by done. cbn [app]. intros E. apply bind_Some in E as ([b buf] & E & Ei).
  apply bind_Some in E as (b' & E & Eb). injection Eb as -> <-. injection Ei as <-. cbn [checkpoints first_ts source_len].
  destruct (steps_built [] _ _ _ steps_start E) as [Hm Hb Ht Hs]. cbn [app] in *. split_and!; [done|by rewrite <- Ht|].
  rewrite Hb, length_drop. pose proof (consumed_le (concat reads)). lia.
Qed.

(** ** What a seek shows *)

Lemma insts_text is_ : Forall wf_instruction is_ -> insts (instructions (prelude_text is_)) = is_.
Proof.
  intros Hw. pose proof (instructions_text is_ [] Hw) as E. rewrite app_nil_r in E. rewrite E.
  rewrite (instructions_step []), app_nil_r. unfold insts. rewrite <- list_fmap_compose. apply list_fmap_id.
Qed.

Lemma insts_wf buf : Forall wf_instruction (insts (instructions buf)).
Proof. apply Forall_fmap. eapply Forall_impl; [apply instructions_wf|]. by intros ic []. Qed.

Lemma set_unknown_empty m : unknown_layers m = ∅ -> set_unknown m ∅ = m.
Proof. destruct m. cbn. by intros ->. Qed.

(** Where a checkpoint of an index was taken. *)
Lemma build_taken reads idx c la lb : build every_bytes reads = Some idx -> c ∈ checkpoints idx ->
  instructions (concat reads) = la ++ lb -> Z.of_nat (consumed la) = offset c ->
  exists skip is_, prelude (replay (insts la)) skip = Some is_ /\ file c = prelude_text is_ /\ at_ms c = snd (times (insts la)) /\
  is_Some (fst (times (insts la))) /\ broken (replay (insts la)) = false /\ at_rest (replay (insts la)) = true /\
  match skip with
    | None => unknown_layers (replay (insts la)) = ∅
    | Some id => unknown_layers (replay (insts la)) ⊆ {[id]} /\
  exists i n lb', lb = (i, n) :: lb' /\ opcode i = str "h264" /\ int (args i) 1 = Some id
    end.
Proof.
  intros E Hc Ei Ho. apply build_built in E as (Hs & _). rewrite Forall_forall in Hs.
  destruct (Hs _ Hc) as (la' & lb' & is_ & El & Eo & Ea & Ef & Ht & Hr & Hk). rewrite Ei in El. rewrite Eo in Ho.
  destruct (consumed_inj la lb la' lb') as [-> ->]; [|done|lia|].
  { rewrite <- Ei. eapply Forall_impl; [apply instructions_wf|]. by intros ? []. }
  destruct Hk as [(Hu & Ep & Hb)|(i & n & k & id & -> & Hop & Hid & Hu & Ep & Hb)]; [exists None, is_|exists (Some id), is_; do 7 (split; [done|])].
  - done.
  - by exists i, n, k.
Qed.

(** The display of a client that got the prelude and then what follows. *)
Lemma resumed_same m skip is_ l : wf m -> resumable m -> broken m = false -> at_rest m = true -> paths m = ∅ ->
  prelude m skip = Some is_ ->
  match skip with
  | None => unknown_layers m = ∅
  | Some id => unknown_layers m ⊆ {[id]} /\ exists i r, l = i :: r /\ opcode i = str "h264" /\ int (args i) 1 = Some id
  end -> broken (foldl apply m l) = false -> same (foldl apply m l) (foldl apply (replay is_) l).
Proof.
  intros Hm Hr Hb Hrest Hp Ep Hk Hf. pose proof (prelude_same _ _ _ Hm Hr Hb Hrest Hp Ep) as Hs.
  destruct skip as [id|]; cbn in Hs.
  - destruct Hk as (Hu & i & r & -> & Hop & Hid). rewrite !foldl_cons_eq in *. apply replay_from_proper.
    eapply keyframe_same; try done. by eapply broken_replay.
  - apply replay_from_proper. unfold same. rewrite Hk. by rewrite set_unknown_empty in Hs.
Qed.
End build.
End Checkpoints.

(** * Seeking *)
Module Resumed.
Import Display DisplayFacts Index Playback Same Reached Preludes Parsed Checkpoints.

Section seeking.
Context `{Winnow} `{Base64} `{ImageCodec}.

(** The client that got the file of a checkpoint and then [l], the first
    instructions from its offset. *)
Lemma resume_replay every reads idx c la l lb : build every reads = Some idx -> c ∈ checkpoints idx ->
  instructions (concat reads) = la ++ l ++ lb -> Z.of_nat (consumed la) = offset c ->
  paths (replay (insts la)) = ∅ -> resumable (replay (insts la)) -> (l = [] -> lb = []) -> broken (replay (insts (la ++ l))) = false ->
  instructions (drop (Z.to_nat (offset c)) (concat reads)) = l ++ lb /\
  same (replay (insts (la ++ l))) (replay (insts (instructions (file c)) ++ insts l)).
Proof.
  intros E Hc Ei Ho Hp Hr Hn Hf. destruct (build_taken _ _ _ _ _ _ E Hc Ei Ho) as (skip & is_ & Ep & -> & _ & _ & Hb & Hrest & Hk).
  rewrite <- Ho, Nat2Z.id, (instructions_drop la _ (l ++ lb) Ei). split; [done|].
  assert (Forall wf_instruction (insts la)) as Hla.
  { pose proof (insts_wf (concat reads)) as Hw. rewrite Ei, insts_app in Hw. by apply Forall_app in Hw as []. }
  pose proof (replay_wf _ Hla) as Hm. rewrite insts_text by (by eapply prelude_wf).
  rewrite insts_app in *. unfold replay in *. rewrite !foldl_app in *. eapply resumed_same; try done.
  destruct skip as [id|]; [|done]. destruct Hk as (Hu & i & k & lb' & El & Hop & Hid). split; [done|].
  destruct l as [|ic l]; [by rewrite Hn in El|]. injection El as -> _. by exists i, (insts l).
Qed.

(** ** Where a playback stops *)

(** The timestamp of a [sync]. *)
Definition stamp (i : GuacInstruction) : option Z :=
  if bool_decide (opcode i = str "sync") then args i !! 0%nat ≫= parse_u64 else None.

Definition stamps (l : list GuacInstruction) : list Z := omap stamp l.

(** What a seeking playback sends on. *)
Definition quiet (l : list GuacInstruction) : list GuacInstruction := filter (fun i => opcode i <> str "sync") l.

Definition elapsed (first ts : Z) : Z := Z.max (ts - first) 0.

Lemma stamp_sync i ts : stamp i = Some ts -> opcode i = str "sync" /\ args i !! 0%nat ≫= parse_u64 = Some ts.
Proof. unfold stamp. by case_bool_decide. Qed.

Lemma quiet_app l k : quiet (l ++ k) = quiet l ++ quiet k.
Proof. apply filter_app. Qed.

Lemma stamps_app l k : stamps (l ++ k) = stamps l ++ stamps k.
Proof. apply omap_app. Qed.

(** The two timestamps an index keeps, from those of the [sync]s. *)
Lemma tick_stamp t i : tick t i = match stamp i with Some ts => (Some (default ts (fst t)), elapsed (default ts (fst t)) ts) | None => t end.
Proof. unfold tick, stamp. by case_bool_decide. Qed.

Lemma times_stamps l t : foldl tick t l =
  match last (stamps l) with
  | Some ts => let f := default (default 0 (head (stamps l))) (fst t) in (Some f, elapsed f ts)
  | None => t
  end.
Proof.
  revert t. induction l as [|i l IH]; intros t; [done|]. cbn [foldl stamps omap list_omap]. rewrite IH, tick_stamp.
  destruct (stamp i) as [ts|]; [|done]. rewrite last_cons. unfold stamps. by destruct (last (omap stamp l)).
Qed.

Lemma sorted_last (l : list Z) m : Sorted Z.le l -> last l = Some m -> Forall (fun x => x <= m) l.
Proof.
  intros Hs%Sorted_StronglySorted; [|intros ???; lia]. induction Hs as [|x l Hs IH Hx]; [done|]. rewrite last_cons. intros Hm.
  destruct (last l) as [y|] eqn:E; [|apply last_None in E as ->; injection Hm as ->; constructor; [lia|constructor]].
  injection Hm as ->. constructor; [|by apply IH]. rewrite Forall_forall in Hx. by apply Hx, last_Some_elem_of.
Qed.

Lemma times_head l f : fst (times l) = Some f <-> head (stamps l) = Some f.
Proof.
  unfold times. rewrite times_stamps. destruct (stamps l) as [|x r]; [done|]. rewrite last_cons. by destruct (last r).
Qed.

(** When time does not run back, nothing before a checkpoint reaches a time
    after it. *)
Lemma stamps_before l f seek : Sorted Z.le (stamps l) -> fst (times l) = Some f -> snd (times l) < seek ->
  Forall (fun t => elapsed f t < seek) (stamps l).
Proof.
  unfold times. rewrite times_stamps. intros Hs. destruct (last (stamps l)) as [m|] eqn:E; [|done]. cbn. intros Hf Hm.
  apply (inj Some) in Hf. rewrite Hf in Hm. eapply Forall_impl; [by apply sorted_last|]. unfold elapsed in *. lia.
Qed.

Lemma nearest_spec idx seek c : nearest idx seek = Some c -> c ∈ checkpoints idx /\ at_ms c < seek.
Proof.
  unfold nearest. intros E%head_Some_elem_of. apply list_elem_of_filter in E as [? E]. by apply list_elem_of_In, in_rev, list_elem_of_In in E.
Qed.

(** A [sync] leaves the display as it is. *)
Lemma apply_sync m i : opcode i = str "sync" -> apply m i = m.
Proof. unfold apply. intros ->. by change (apply_known (str "sync") (args i) m) with (m, true). Qed.

Lemma replay_quiet l m : foldl apply m (quiet l) = foldl apply m l.
Proof.
  revert m. induction l as [|i l IH]; intros m; [done|]. unfold quiet. rewrite filter_cons. rewrite (foldl_cons_eq apply m i l).
  destruct (decide _) as [Hn|Hn]; [rewrite foldl_cons_eq; apply IH|]. rewrite apply_sync by (by apply dec_stable). apply IH.
Qed.

Section play.
Variable seek_ms : Z.

(** Once at the frame, everything goes out. *)
Lemma play_on fo a l : play seek_ms (mk_player fo a false) l = Show <$> l.
Proof.
  revert fo a. induction l as [|i l IH]; intros fo a; [done|]. cbn [play fmap list_fmap]. unfold play_step. cbn [seeking armed andb p_first].
  destruct (bool_decide _), (args i !! 0%nat ≫= parse_u64) as [ts|]; try (cbn; by rewrite IH). destruct a; cbn; by rewrite IH.
Qed.

(** Before it, nothing but the [sync]s is held back. *)
Lemma play_quiet f l r : forall fo a, (fo = Some f \/ fo = None /\ a = false /\ forall ts, head (stamps l) = Some ts -> ts = f) ->
  Forall (fun ts => elapsed f ts < seek_ms) (stamps l) ->
  play seek_ms (mk_player fo a true) (l ++ r) =
  (Show <$> quiet l) ++ play seek_ms (if decide (stamps l = []) then mk_player fo a true else mk_player (Some f) true true) r.
Proof.
  induction l as [|i l IH]; intros fo a Hf Hs; [done|]. cbn [app play]. unfold play_step. cbn [seeking armed p_first].
  unfold quiet. rewrite filter_cons. cbn [stamps omap list_omap] in Hs, Hf |- *. unfold stamp in Hs, Hf |- *.
  destruct (bool_decide_reflect (opcode i = str "sync")) as [Hop|Hop].
  - rewrite decide_False by naive_solver. destruct (args i !! 0%nat ≫= parse_u64) as [ts|]; [|cbn; by apply IH].
    apply Forall_cons in Hs as [Hts Hs]. rewrite decide_False by done.
    assert (default ts fo = f) as Ed by (destruct Hf as [->|(-> & _ & Hf)]; [done|by apply Hf]). rewrite Ed.
    assert (forall p, p = mk_player (Some f) true true -> play seek_ms p (l ++ r) = (Show <$> quiet l) ++ play seek_ms (mk_player (Some f) true true) r) as Hgo.
    { intros p ->. rewrite IH; [|by left|done]. by destruct (decide _). }
    destruct a; cbn [andb]; [|by apply Hgo]. destruct Hf as [->|(_ & ? & _)]; [|done].
    fold (elapsed f ts). rewrite (proj2 (Z.leb_gt _ _)) by done. by apply Hgo.
  - rewrite decide_True by done. cbn. f_equal. by apply IH.
Qed.

(** At it, the client is told first. *)
Lemma play_target f s ts r : stamp s = Some ts -> seek_ms <= elapsed f ts ->
  play seek_ms (mk_player (Some f) true true) (s :: r) = Seeked (elapsed f ts) :: (Show <$> s :: r).
Proof.
  intros [Ho Ea]%stamp_sync Hs. cbn [play]. unfold play_step. rewrite (bool_decide_eq_true_2 _ Ho), Ea. cbn [armed p_first default seeking].
  fold (elapsed f ts). rewrite (proj2 (Z.leb_le _ _)) by done. cbn. by rewrite play_on.
Qed.
End play.

(** ** What a playback reads *)

Definition well_formed (buf : bytes) : Prop := try_parse_instruction (drop (consumed (instructions buf)) buf) = Ok None.

Lemma take_all_read fuel : forall buf, (length buf < fuel)%nat -> well_formed buf ->
  take_all fuel buf = (insts (instructions buf), drop (consumed (instructions buf)) buf).
Proof.
  induction fuel as [|f IH]; intros buf Hf Hw; [lia|]. unfold well_formed in Hw. rewrite instructions_step in *. cbn [take_all].
  unfold parsed in *. destruct (try_parse_instruction buf) as [[[i n]|]|] eqn:E; [|by rewrite drop_0|by rewrite drop_0, E in Hw].
  cbn [consumed fmap list_fmap sum_list sum_list_with snd insts fst] in *. apply try_parse_bounds in E. unfold id in *.
  rewrite <- drop_drop in *. rewrite IH by (rewrite ?length_drop; lia || done). done.
Qed.

(** A part of a recording that parses does, too. *)
Lemma well_formed_prefix buf k : well_formed (buf ++ k) -> well_formed buf.
Proof.
  unfold well_formed. pose proof (parsed_rest buf) as Hn. unfold parsed in Hn.
  destruct (try_parse_instruction (drop _ buf)) as [[x|]|e] eqn:E; [done|done|].
  assert (try_parse_instruction (drop (consumed (instructions buf)) buf ++ k) = Err e) as Ek by (by apply try_parse_more).
  rewrite instructions_app, (instructions_step (drop _ buf ++ k)). unfold parsed. rewrite Ek, app_nil_r, drop_app_le by apply consumed_le. by rewrite Ek.
Qed.

Lemma read_all_read reads : forall buf, parsed buf = None -> well_formed (buf ++ concat reads) ->
  read_all buf reads = insts (instructions (buf ++ concat reads)).
Proof.
  induction reads as [|chunk r IH]; intros buf Hn Hw; cbn [read_all concat] in *.
  - by rewrite app_nil_r, instructions_step, Hn.
  - rewrite (assoc_L (++)) in *. rewrite take_all_read; [|lia|by eapply well_formed_prefix].
    pose proof (consumed_le (buf ++ chunk)) as Hc. rewrite IH; [| apply parsed_rest |].
    + by rewrite (instructions_app (buf ++ chunk)), insts_app.
    + unfold well_formed in *. rewrite (instructions_app (buf ++ chunk)), consumed_app, <- drop_drop, (drop_app_le (buf ++ chunk)) in Hw by done. exact Hw.
Qed.

(** What follows a part of a recording that was read. *)
Lemma well_formed_rest buf la lb : well_formed buf -> instructions buf = la ++ lb -> well_formed (drop (consumed la) buf).
Proof. unfold well_formed. intros Hw E. rewrite (instructions_drop _ _ _ E), drop_drop, <- consumed_app, <- E. exact Hw. Qed.

Section frames.
Context (seek f ts : Z) (s : GuacInstruction) (l2 : list GuacInstruction).
Hypothesis Hseek : 0 < seek.
Hypothesis Hts : stamp s = Some ts.
Hypothesis Hstop : seek <= elapsed f ts.

Lemma start_frames rec rs q : well_formed rec -> concat rs = rec -> insts (instructions rec) = q ++ s :: l2 ->
  head (stamps q) = Some f -> Forall (fun t => elapsed f t < seek) (stamps q) ->
  stream seek None None rec (fun _ => rs) = ([], (Show <$> quiet q) ++ Seeked (elapsed f ts) :: (Show <$> s :: l2)).
Proof.
  intros Hw Er El Hh Hq. unfold stream, resume. rewrite (proj2 (Z.eqb_neq _ _)), (proj2 (Z.ltb_lt _ _)) by lia. f_equal.
  rewrite read_all_read by (done || by rewrite Er). cbn [app]. rewrite Er, El, (play_quiet seek f); [|right; split_and!; [done|done|congruence]|done].
  rewrite decide_False by (by intros Hn; rewrite Hn in Hh). by rewrite (play_target seek f s ts).
Qed.

Lemma resumed_frames idx c rec rs q : nearest idx seek = Some c -> first_ts idx = Some f -> source_len idx = Z.of_nat (length rec) ->
  well_formed (drop (Z.to_nat (offset c)) rec) -> concat rs = drop (Z.to_nat (offset c)) rec ->
  insts (instructions (drop (Z.to_nat (offset c)) rec)) = q ++ s :: l2 -> stamps q <> [] -> Forall (fun t => elapsed f t < seek) (stamps q) ->
  stream seek (Some idx) (Some (Z.of_nat (length rec))) rec (fun _ => rs) =
    (file c, (Show <$> quiet q) ++ Seeked (elapsed f ts) :: (Show <$> s :: l2)).
Proof.
  intros Hc Hf Hlen Hw Er El Hn Hq. unfold stream, resume. rewrite (proj2 (Z.eqb_neq _ _)) by lia.
  rewrite Hc, Hlen, bool_decide_eq_true_2, Hf by done. rewrite (proj2 (Z.ltb_lt _ _)) by lia. f_equal.
  rewrite read_all_read by (done || by rewrite Er). cbn [app]. rewrite Er, El, (play_quiet seek f); [|by left|done].
  rewrite decide_False by done. by rewrite (play_target seek f s ts).
Qed.
End frames.


End seeking.
End Resumed.

(** * Concrete recordings *)
Module SeekingExamples.
Import Display Index Playback Same Reached Preludes Parsed Checkpoints Resumed Reference.

(** A codec of small pictures: width, height and the bytes of the pixels. *)
Fixpoint ungroup (bs : bytes) : option (list pixel) :=
  match bs with
  | [] => Some []
  | r :: g :: b :: a :: rest => if bool_decide (bytes_ok [r; g; b; a]) then p ← ungroup rest; Some ((r, g, b, a) :: p) else None
  | _ => None
  end.

Definition group (px : list pixel) : bytes := concat ((fun '(r, g, b, a) => [r; g; b; a]) <$> px).

Definition decode_picture (bs : bytes) : option (Z * Z * list pixel) :=
  match bs with
  | w :: h :: rest =>
      if bool_decide (bytes_ok [w; h]) then
        px ← ungroup rest; if Z.of_nat (length px) =? w * h then Some (w, h, px) else None
      else None
  | _ => None
  end.

Definition encode_picture (w h : Z) (px : list pixel) : option bytes :=
  if bool_decide (bytes_ok ([w; h] ++ group px)) then Some ([w; h] ++ group px) else None.

Lemma ungroup_ok bs px : ungroup bs = Some px -> Forall pixel_ok px.
Proof.
  revert px. induction bs as [bs IH] using (induction_ltof1 _ (@length Z)). unfold ltof in IH. intros px E.
  destruct bs as [|r [|g [|b [|a rest]]]]; try done; cbn [ungroup] in E; [by injection E as <-|].
  case_bool_decide as Hb; [|done]. apply bind_Some in E as (p & Ep & E). injection E as <-. constructor; [done|].
  eapply IH; [|exact Ep]. cbn. lia.
Qed.

Lemma ungroup_group px : Forall pixel_ok px -> ungroup (group px) = Some px.
Proof.
  induction 1 as [|[[[r g] b] a] px Hp _ IH]; [done|]. unfold group. cbn [fmap list_fmap concat app ungroup]. fold (group px).
  rewrite bool_decide_eq_true_2 by exact Hp. by rewrite IH.
Qed.

#[export] Instance small_pictures : ImageCodec.
Proof.
  refine (Build_ImageCodec decode_picture encode_picture _ _ _).
  - intros bs w h px E. destruct bs as [|w' [|h' rest]]; try done. unfold decode_picture in E. case_bool_decide as Hb; [|done].
    apply bind_Some in E as (p & Ep & E). destruct (_ =? _) eqn:Hl; [|done]. injection E as -> -> ->. b2p.
    split_and!; [|done|by eapply ungroup_ok]. do 2 (apply Forall_cons in Hb as [? Hb]).
    unfold u32_dims, in_range, byte_ok, u32_max in *. lia.
  - intros w h px bs E. unfold encode_picture in E. case_bool_decide; [|done]. by injection E as <-.
  - intros w h px bs E _ _ _ Hp Ho _. unfold encode_picture in E. case_bool_decide as Hb; [|done]. injection E as <-.
    apply Forall_app in Hb as [Hb _]. unfold decode_picture. cbn [app].
    rewrite bool_decide_eq_true_2, ungroup_group by done. cbn. unfold picture in Hp. by rewrite (proj2 (Z.eqb_eq _ _)).
Defined.

Definition msg (op : string) (args : list Z) : bytes := wire (str op) (num <$> args).

Definition paint (x y : Z) : bytes := msg "rect" [0; x; y; 1; 1] ++ msg "cfill" [14; 0; 255; 0; 0; 255].

(** A 2x2 display, painted a pixel at a time. *)
Definition recording : bytes :=
  msg "size" [0; 2; 2] ++ paint 0 0 ++ msg "sync" [1000] ++ paint 1 0 ++ msg "sync" [1040] ++ paint 0 1 ++ msg "sync" [1080] ++
  paint 1 1 ++ msg "sync" [1120].

Definition the_index : Index := default (mk_index 0 None []) (build 80 [recording]).
Definition the_checkpoint : Checkpoint := default (mk_checkpoint 0 0 []) (nearest the_index 80).
Definition before : list (GuacInstruction * nat) := take 4 (instructions recording).
Definition after : list (GuacInstruction * nat) := drop 4 (instructions recording).
Definition target : GuacInstruction := mk_instruction (str "sync") [num 1080].

Example index_checkpoints : (fun c => (at_ms c, offset c)) <$> checkpoints the_index = [(0, 97); (80, 253)].
Proof. by vm_compute. Qed.

Ltac small := refine (bool_decide_unpack _ _); by vm_compute.

#[export] Instance resumable_dec m : Decision (resumable m).
Proof. unfold resumable, drawable. apply _. Defined.

Lemma before_resumable : resumable (replay (insts before)).
Proof. small. Qed.



(** The first [sync] after a checkpoint is not compared with the time sought:
    with a checkpoint every byte, the seek to 80 ms resumes right before that
    frame and stops at 120 ms. *)
Definition announced (evs : list event) : list Z := omap (fun e => match e with Seeked t => Some t | Show _ => None end) evs.

Example seek_overshoots : exists idx, build 1 [recording] = Some idx /\ (at_ms <$> nearest idx 80) = Some 40 /\
  announced (snd (stream 80 None None recording (fun b => [b]))) = [80] /\
  announced (snd (stream 80 (Some idx) (Some 331) recording (fun b => [b]))) = [120].
Proof. eexists. split; [by vm_compute|]. split_and!; by vm_compute. Qed.

(** A rectangle that is not filled yet is in no prelude: after this seek the
    fill paints nothing, and from the start it paints a pixel. *)
Definition open_path : bytes :=
  msg "size" [0; 2; 2] ++ msg "rect" [0; 0; 0; 1; 1] ++ msg "sync" [1000] ++ msg "cfill" [14; 0; 255; 0; 0; 255] ++ msg "sync" [1040].

Definition shown_pixels (l : list GuacInstruction) : list (list pixel) := (fun '(_, l) => px l) <$> map_to_list (layers (replay l)).

Definition open_index : Index := default (mk_index 0 None []) (build 40 [open_path]).

Example open_path_lost : (offset <$> nearest open_index 40) = Some 60 /\
  shown_pixels (insts (instructions open_path)) = [[(255, 0, 0, 255); clear_pixel; clear_pixel; clear_pixel]] /\
  (c ← nearest open_index 40; Some (shown_pixels (insts (instructions (file c ++ drop 60 open_path))))) = Some [replicate 4 clear_pixel].
Proof. split_and!; by vm_compute. Qed.
End SeekingExamples.
