(* ===== verification/Sinks.v ===== *)
(** * Recording sinks

    [actor/audit.rs]: what the actor's recording tap writes to, as instances
    of one class; the [TrackedRecording] of [session_engine.rs] around a
    [.guac] file, and the status a recording's row ends with
    ([finalize_session], [recording_failed], [mark_failed],
    [mark_interrupted]).  The file and the buffer in front of it (tokio) are
    the interface [BufFile]. *)

From S2P Require Import Prelude Machine Text Engine.

Local Open Scope Z_scope.

(** ** Files

    A buffered file opened for appending: what other readers see, what was
    accepted but is not there yet, and what survives a crash.  Each call is
    given what the system answers. *)
Class BufFile := {
  file : Type;
  answer : Type;
  contents : file -> bytes;
  pending : file -> bytes;
  durable : file -> bytes;
  write_all : answer -> bytes -> file -> file * result bytes unit;
  flush : answer -> file -> file * result bytes unit;
  sync : bool -> answer -> file -> file * result bytes unit;
  durable_prefix f : durable f `prefix_of` contents f;
  write_all_grows a bs f : exists n, let f' := fst (write_all a bs f) in
    contents f' ++ pending f' = contents f ++ pending f ++ take n bs /\
    contents f `prefix_of` contents f' /\ durable f `prefix_of` durable f';
  write_all_ok a bs f : snd (write_all a bs f) = Ok tt -> let f' := fst (write_all a bs f) in
    contents f' ++ pending f' = contents f ++ pending f ++ bs;
  flush_grows a f : let f' := fst (flush a f) in
    contents f' ++ pending f' = contents f ++ pending f /\
    contents f `prefix_of` contents f' /\ durable f `prefix_of` durable f';
  flush_ok a f : snd (flush a f) = Ok tt -> pending (fst (flush a f)) = [];
  sync_keeps all a f : let f' := fst (sync all a f) in
    contents f' = contents f /\ pending f' = pending f /\ durable f `prefix_of` durable f';
  sync_ok all a f : snd (sync all a f) = Ok tt -> durable (fst (sync all a f)) = contents f
}.

(** * Records *)
Record AuditRecord : Type := mk_audit { seq_no : Z; timestamp_ms : Z; frame : ClientFrame }.

(** [AuditRecord::encode]. *)
Definition encode_record (r : AuditRecord) : bytes :=
  u64_to_be (seq_no r) ++ u64_to_be (timestamp_ms r) ++ [match frame r with TextFrame _ => 0 | BinaryFrame _ => 1 end] ++
  len_prefixed (frame_payload (frame r)).

Definition record_ok (r : AuditRecord) : Prop := is_u64 (seq_no r) /\ is_u64 (timestamp_ms r) /\ short (frame_payload (frame r)).

(** A log determines its records. *)
Lemma encode_record_app_inj r1 r2 s1 s2 : record_ok r1 -> record_ok r2 ->
  encode_record r1 ++ s1 = encode_record r2 ++ s2 -> r1 = r2 /\ s1 = s2.
Proof.
  intros (Hq1 & Ht1 & Hp1) (Hq2 & Ht2 & Hp2). unfold encode_record. rewrite <- !(assoc_L (++)). intros E.
  apply app_inj_1 in E as [Eq E]; [|by rewrite !to_be_length_8]. apply app_inj_1 in E as [Et E]; [|by rewrite !to_be_length_8].
  apply (app_eq_length_inv [_] [_]) in E as [Ek E]; [|done]. apply (inj (fun x => [x])) in Ek. apply len_prefixed_app_inj in E as [Ep ->]; [|done|done]. split; [|done].
  apply (f_equal u64_from_be) in Eq, Et. rewrite !u64_from_to_be in Eq, Et by done.
  destruct r1 as [q1 t1 [b1|b1]], r2 as [q2 t2 [b2|b2]]; cbn in *; try done; by subst.
Qed.

Lemma log_unambiguous rs : forall rs', Forall record_ok rs -> Forall record_ok rs' ->
  concat (encode_record <$> rs) = concat (encode_record <$> rs') -> rs = rs'.
Proof.
  assert (forall r, encode_record r <> []) as Hne.
  { intros r E. apply (f_equal length) in E. unfold encode_record in E. rewrite length_app, to_be_length_8 in E. done. }
  induction rs as [|r rs IH]; intros [|r' rs'] H H' E; [done|..].
  - cbn in E. symmetry in E. apply app_nil in E as [E _]. by apply Hne in E.
  - cbn in E. apply app_nil in E as [E _]. by apply Hne in E.
  - apply Forall_cons in H as [Hr H], H' as [Hr' H']. cbn in E. apply encode_record_app_inj in E as [-> E]; [|done|done].
    f_equal. by apply IH.
Qed.

(** * Sinks *)
Section sinks.
Context `{BufFile}.

(** The trait; [checkpoint] does nothing by default.  The two answers are
    those to the [flush] and the [sync] of [sync_writer]. *)
Class AuditSink (S : Type) := {
  record : answer -> AuditRecord -> S -> S * result bytes unit;
  checkpoint : answer -> answer -> S -> S * result bytes unit;
  finalize : answer -> answer -> S -> S * result bytes unit
}.

Definition checkpoint_default {S} (_ _ : answer) (s : S) : S * result bytes unit := (s, Ok tt).

(** [Audit(format!("{stage} {path}: {e}"))]. *)
Definition audit_error (stage : string) (path e : bytes) : bytes := str stage ++ [32] ++ path ++ str ": " ++ e.

Definition labelled (stage : string) (path : bytes) (r : file * result bytes unit) : file * result bytes unit :=
  (fst r, map_err (audit_error stage path) (snd r)).

Definition sync_writer (all : bool) (a1 a2 : answer) (path : bytes) (writer : file) : file * result bytes unit :=
  match labelled "flush" path (flush a1 writer) with
  | (writer, Ok _) => labelled "fsync" path (sync all a2 writer)
  | (writer, Err e) => (writer, Err e)
  end.

#[export] Instance NullAuditSink : AuditSink unit :=
  {| record _ _ s := (s, Ok tt); checkpoint := checkpoint_default; finalize _ _ s := (s, Ok tt) |}.

Record FileAuditSink : Type := mk_file_sink { fs_path : bytes; fs_writer : file; records : Z }.

Definition file_record (a : answer) (r : AuditRecord) (s : FileAuditSink) : FileAuditSink * result bytes unit :=
  match labelled "write" (fs_path s) (write_all a (encode_record r) (fs_writer s)) with
  | (w, Ok _) => (mk_file_sink (fs_path s) w (records s + 1), Ok tt)
  | (w, Err e) => (mk_file_sink (fs_path s) w (records s), Err e)
  end.

Definition file_sync (all : bool) (a1 a2 : answer) (s : FileAuditSink) : FileAuditSink * result bytes unit :=
  let '(w, r) := sync_writer all a1 a2 (fs_path s) (fs_writer s) in (mk_file_sink (fs_path s) w (records s), r).

#[export] Instance file_audit_sink : AuditSink FileAuditSink :=
  {| record := file_record; checkpoint := file_sync false; finalize := file_sync true |}.

Record GuacRecordingSink : Type := mk_guac_sink { path : bytes; writer : file; bytes_written : Z }.

(** Binary envelopes are left out. *)
Definition guac_record (a : answer) (r : AuditRecord) (s : GuacRecordingSink) : GuacRecordingSink * result bytes unit :=
  match frame r with
  | BinaryFrame _ => (s, Ok tt)
  | TextFrame bs =>
      match labelled "write" (path s) (write_all a bs (writer s)) with
      | (w, Ok _) => (mk_guac_sink (path s) w (bytes_written s + Z.of_nat (length bs)), Ok tt)
      | (w, Err e) => (mk_guac_sink (path s) w (bytes_written s), Err e)
      end
  end.

Definition guac_sync (all : bool) (a1 a2 : answer) (s : GuacRecordingSink) : GuacRecordingSink * result bytes unit :=
  let '(w, r) := sync_writer all a1 a2 (path s) (writer s) in (mk_guac_sink (path s) w (bytes_written s), r).

#[export] Instance guac_recording_sink : AuditSink GuacRecordingSink :=
  {| record := guac_record; checkpoint := guac_sync false; finalize := guac_sync true |}.

(** ** The recording policy *)

Record TrackedRecording : Type := mk_tracked { inner : GuacRecordingSink; required : bool; fault : option bytes; stopped : bool }.

(** [get_or_insert_with]. *)
Definition note_fault (why : bytes) (fault : option bytes) : option bytes := Some (default why fault).

Definition fail (err : bytes) (t : TrackedRecording) : TrackedRecording * result bytes unit :=
  let fault := note_fault err (fault t) in
  if required t then (mk_tracked (inner t) true fault (stopped t), Err err)
  else (mk_tracked (inner t) false fault true, Ok tt).

Definition set_inner (t : TrackedRecording) (s : GuacRecordingSink) : TrackedRecording :=
  mk_tracked s (required t) (fault t) (stopped t).

Definition tracked (op : GuacRecordingSink -> GuacRecordingSink * result bytes unit) (t : TrackedRecording) :
    TrackedRecording * result bytes unit :=
  if stopped t then (t, Ok tt)
  else match op (inner t) with
       | (s, Ok _) => (set_inner t s, Ok tt)
       | (s, Err e) => fail e (set_inner t s)
       end.

Definition tracked_finalize (a1 a2 : answer) (t : TrackedRecording) : TrackedRecording * result bytes unit :=
  if stopped t then (t, Ok tt)
  else match finalize a1 a2 (inner t) with
       | (s, Ok _) => (set_inner t s, Ok tt)
       | (s, Err e) => (mk_tracked s (required t) (note_fault e (fault t)) (stopped t), Err e)
       end.

#[export] Instance tracked_recording : AuditSink TrackedRecording :=
  {| record a r := tracked (record a r); checkpoint a1 a2 := tracked (checkpoint a1 a2); finalize := tracked_finalize |}.

(** ** What the actor does with its sink *)

Inductive sink_call : Type :=
| CallRecord (a : answer) (r : AuditRecord)
| CallCheckpoint (a1 a2 : answer).

Definition call {S} `{AuditSink S} (s : S) (c : sink_call) : S :=
  match c with CallRecord a r => fst (record a r s) | CallCheckpoint a1 a2 => fst (checkpoint a1 a2 s) end.

(** [bounded(self.audit.finalize(), ..)]: done, or dropped in one of its two
    waits; [None] when it did not even start in time. *)
Inductive ending : Type :=
| Finalized (a1 a2 : answer)
| TimedOut (a : option answer).

Definition abandon (a : option answer) (t : TrackedRecording) : TrackedRecording :=
  if stopped t then t
  else match a with
       | Some a => set_inner t (mk_guac_sink (path (inner t)) (fst (flush a (writer (inner t)))) (bytes_written (inner t)))
       | None => t
       end.

Definition close (e : ending) (t : TrackedRecording) : TrackedRecording :=
  match e with Finalized a1 a2 => fst (finalize a1 a2 t) | TimedOut a => abandon a t end.

Definition record_session (calls : list sink_call) (e : ending) (t : TrackedRecording) : TrackedRecording :=
  close e (foldl call t calls).

(** The instructions handed to the sink. *)
Definition text_of (f : ClientFrame) : bytes := match f with TextFrame b => b | BinaryFrame _ => [] end.

Definition recorded (calls : list sink_call) : bytes :=
  concat ((fun c => match c with CallRecord _ r => text_of (frame r) | CallCheckpoint _ _ => [] end) <$> calls).
End sinks.

#[global] Hint Mode AuditSink + + : typeclass_instances.

(** * The row of a recording *)
Inductive Status : Type := Recording | Complete | Incomplete | Failed.

#[export] Instance Status_eq_dec : EqDecision Status.
Proof. solve_decision. Defined.

(** [recording_failed], by the stage it failed at. *)
Definition failed_status (stage : bytes) : Status := if bool_decide (stage = str "write") then Incomplete else Failed.

(** [finalize_session]: a status already set stands. *)
Definition finalized_status (recording_fault : option bytes) (status : Status) : Status :=
  let outcome := match recording_fault with Some _ => Incomplete | None => Complete end in
  if bool_decide (status = Recording) then outcome else status.

(** The end of a session: [recording_failed] when the sink noted a fault,
    whose UPDATE may fail, and then [finalize_session]. *)
Definition ended_status (fault : option bytes) (updated : bool) (status : Status) : Status :=
  let status := match fault with Some _ => if updated then failed_status (str "write") else status | None => status end in
  finalized_status fault status.

(** [mark_interrupted], when the backend starts. *)
Definition interrupted_status (status : Status) : Status := if bool_decide (status = Recording) then Incomplete else status.

(** * What a recording holds *)
Module Intact.
Section intact.
Context `{BufFile}.

Definition held (f : file) : bytes := contents f ++ pending f.

(** Nothing that is in the file, or safe on disk, is lost again. *)
Definition grows (f f' : file) : Prop := contents f `prefix_of` contents f' /\ durable f `prefix_of` durable f'.

#[export] Instance grows_preorder : PreOrder grows.
Proof. split; [by intros f|]. intros f g h [? ?] [? ?]. split; by etrans. Qed.

Lemma labelled_fst stage p r : fst (labelled stage p r) = fst r.
Proof. done. Qed.

Lemma labelled_ok stage p r : is_ok (snd (labelled stage p r)) = true -> snd r = Ok tt.
Proof. destruct r as [f [[]|]]; done. Qed.

Lemma write_all_held a bs f : exists n, held (fst (write_all a bs f)) = held f ++ take n bs /\ grows f (fst (write_all a bs f)).
Proof. destruct (write_all_grows a bs f) as (n & Hc & Hg). exists n. unfold held. by rewrite Hc, (assoc_L (++)). Qed.

Lemma flush_held a f : held (fst (flush a f)) = held f /\ grows f (fst (flush a f)).
Proof. by destruct (flush_grows a f) as (Hc & Hg). Qed.

Lemma sync_held all a f : held (fst (sync all a f)) = held f /\ grows f (fst (sync all a f)).
Proof. destruct (sync_keeps all a f) as (Hc & Hp & Hd). unfold held, grows. rewrite Hc, Hp. by repeat split. Qed.

Lemma sync_writer_held all a1 a2 p f : let r := sync_writer all a1 a2 p f in
  held (fst r) = held f /\ grows f (fst r) /\ (is_ok (snd r) = true -> durable (fst r) = held f).
Proof.
  unfold sync_writer. destruct (flush_held a1 f) as [Hh Hg]. pose proof (flush_ok a1 f) as Hok.
  destruct (flush a1 f) as [f1 [[]|e]]; cbn in *; [|done].
  destruct (sync_held all a2 f1) as [Hh' Hg']. split_and!; [by rewrite Hh'|by etrans|]. intros Ho. apply labelled_ok in Ho.
  rewrite (sync_ok all a2 f1 Ho), <- Hh. unfold held. by rewrite (Hok eq_refl), app_nil_r.
Qed.

(** ** The sinks *)

Definition sink_file (t : TrackedRecording) : file := writer (inner t).

Lemma guac_record_held a r s : let q := guac_record a r s in exists n,
  held (writer (fst q)) = held (writer s) ++ take n (text_of (frame r)) /\ grows (writer s) (writer (fst q)) /\
  (is_ok (snd q) = true -> held (writer (fst q)) = held (writer s) ++ text_of (frame r)).
Proof.
  unfold guac_record. destruct (frame r) as [bs|bs]; [|exists 0%nat; cbn; rewrite app_nil_r; by repeat split].
  destruct (write_all_held a bs (writer s)) as (n & Hh & Hg). pose proof (write_all_ok a bs (writer s)) as Hok.
  exists n. destruct (write_all a bs (writer s)) as [w [[]|e]]; cbn in *; [|done]. split_and!; try done.
  intros _. unfold held. rewrite (Hok eq_refl). by rewrite (assoc_L (++)).
Qed.

Lemma guac_sync_held all a1 a2 s : let q := guac_sync all a1 a2 s in
  held (writer (fst q)) = held (writer s) /\ grows (writer s) (writer (fst q)) /\
  (is_ok (snd q) = true -> durable (writer (fst q)) = held (writer s)).
Proof.
  unfold guac_sync. pose proof (sync_writer_held all a1 a2 (path s) (writer s)) as Hs. by destruct (sync_writer _ _ _ _ _) as [w r].
Qed.

(** What the sink holds of the instructions [text] it was given. *)
Definition keeps (text : bytes) (t : TrackedRecording) : Prop :=
  match fault t with
  | None => stopped t = false /\ held (sink_file t) = text
  | Some _ => required t = true \/ stopped t = true /\ held (sink_file t) `prefix_of` text
  end.

(** A call of the tracked sink that hands [more] to the file. *)
Lemma tracked_keeps text more op t : keeps text t ->
  (exists n, held (writer (fst (op (inner t)))) = held (sink_file t) ++ take n more /\ grows (sink_file t) (writer (fst (op (inner t)))) /\
     (is_ok (snd (op (inner t))) = true -> held (writer (fst (op (inner t)))) = held (sink_file t) ++ more)) ->
  keeps (text ++ more) (fst (tracked op t)) /\ grows (sink_file t) (sink_file (fst (tracked op t))) /\
  required (fst (tracked op t)) = required t /\ (fault (fst (tracked op t)) = None -> fault t = None /\ is_ok (snd (op (inner t))) = true /\
    sink_file (fst (tracked op t)) = writer (fst (op (inner t)))).
Proof.
  unfold tracked, keeps, sink_file. intros Hk (n & Hn & Hg & Hok). destruct (stopped t) eqn:Es.
  { cbn. destruct (fault t) eqn:Ef; [|by destruct Hk]. split_and!; try done.
    destruct Hk as [?|[_ Hp]]; [by left|right]. split; [done|]. by apply prefix_app_r. }
  destruct (op (inner t)) as [s [u|e]]; cbn in *.
  - split_and!; try done. destruct (fault t); [destruct Hk as [?|[? _]]; [by left|done]|]. destruct Hk as [_ <-]. split; [done|]. by apply Hok.
  - unfold fail. cbn. destruct (required t) eqn:Er; cbn; split_and!; try done; [by left|right]. split; [done|]. rewrite Hn.
    destruct (fault t); [destruct Hk as [?|[? _]]; done|]. destruct Hk as [_ <-]. apply prefix_app. exists (drop n more). by rewrite take_drop.
Qed.

Definition call_text (c : sink_call) : bytes := match c with CallRecord _ r => text_of (frame r) | CallCheckpoint _ _ => [] end.

Lemma call_keeps text t c : keeps text t ->
  keeps (text ++ call_text c) (call t c) /\ grows (sink_file t) (sink_file (call t c)) /\ required (call t c) = required t /\
  (fault (call t c) = None -> fault t = None /\ match c with CallCheckpoint _ _ => durable (sink_file (call t c)) = text | _ => True end).
Proof.
  intros Hk. destruct c as [a r|a1 a2]; cbn [call call_text].
  - destruct (tracked_keeps text (text_of (frame r)) (guac_record a r) t Hk) as (H1 & H2 & H3 & H4).
    { destruct (guac_record_held a r (inner t)) as (n & ?). by exists n. }
    split_and!; try done. intros Hf. by apply H4 in Hf as [].
  - destruct (tracked_keeps text [] (guac_sync false a1 a2) t Hk) as (H1 & H2 & H3 & H4).
    { destruct (guac_sync_held false a1 a2 (inner t)) as (Hh & Hg & _). exists 0%nat. rewrite Hh. fold (sink_file t). rewrite take_0, !app_nil_r. by split_and!. }
    split_and!; try done. intros Hf. destruct (H4 Hf) as (Hf0 & Ho & Ew). split; [done|]. change (checkpoint a1 a2 t) with (tracked (guac_sync false a1 a2) t). rewrite Ew.
    destruct (guac_sync_held false a1 a2 (inner t)) as (_ & _ & Hd). rewrite Hd by done. unfold keeps in Hk. rewrite Hf0 in Hk. apply Hk.
Qed.

Lemma recorded_app c d : recorded (c ++ d) = recorded c ++ recorded d.
Proof. unfold recorded. by rewrite fmap_app, concat_app. Qed.

Lemma calls_keep calls : forall text t, keeps text t ->
  keeps (text ++ recorded calls) (foldl call t calls) /\ grows (sink_file t) (sink_file (foldl call t calls)) /\
  required (foldl call t calls) = required t /\ (fault (foldl call t calls) = None -> fault t = None).
Proof.
  induction calls as [|c calls IH]; intros text t Hk; cbn [foldl]; [cbn; by rewrite app_nil_r|].
  destruct (call_keeps text t c Hk) as (H1 & H2 & H3 & H4). destruct (IH _ _ H1) as (I1 & I2 & I3 & I4).
  split_and!; [by rewrite <- (assoc_L (++)) in I1|by etrans|by rewrite I3|]. intros Hf. by apply I4, H4 in Hf as [].
Qed.

Lemma close_keeps text e t : keeps text t ->
  grows (sink_file t) (sink_file (close e t)) /\ held (sink_file (close e t)) = held (sink_file t) /\
  (fault (close e t) = None -> fault t = None /\ match e with Finalized _ _ => durable (sink_file (close e t)) = text | TimedOut _ => True end).
Proof.
  unfold sink_file. intros Hk. destruct e as [a1 a2|a]; cbn [close].
  - cbn [finalize tracked_recording]. unfold tracked_finalize. destruct (stopped t) eqn:Es.
    { cbn. split_and!; try done. intros Hf. unfold keeps in Hk. rewrite Hf, Es in Hk. by destruct Hk. }
    destruct (guac_sync_held true a1 a2 (inner t)) as (Hh & Hg & Hd). cbn [finalize guac_recording_sink].
    destruct (guac_sync true a1 a2 (inner t)) as [s [u|err]]; cbn in *; split_and!; try done. intros Hf. split; [done|].
    rewrite Hd by done. unfold keeps in Hk. rewrite Hf in Hk. apply Hk.
  - unfold abandon. destruct (stopped t); [done|]. destruct a as [a|]; [|done]. cbn. destruct (flush_held a (writer (inner t))). by split_and!.
Qed.

Definition fresh (t : TrackedRecording) : Prop := fault t = None /\ stopped t = false /\ held (sink_file t) = [].

Lemma fresh_keeps t : fresh t -> keeps [] t.
Proof. intros (Hf & Hs & Hh). unfold keeps. by rewrite Hf. Qed.

Lemma ended_complete fault updated : ended_status fault updated Recording = Complete -> fault = None.
Proof. destruct fault; [|done]. unfold ended_status, failed_status, finalized_status. by destruct updated. Qed.

(** C7: A recording's status can be trusted.  Whatever the disk answers, and
    however a session's records and checkpoints follow each other: what was
    recorded before a checkpoint without a fault is on disk from then on; a
    best-effort recording is at every moment a beginning of what was
    recorded; and when the row ends complete and the sink was finalised, the
    disk holds exactly the instructions that were recorded, in order. *)
Theorem recording_intact calls1 a1 a2 calls2 e t updated :
  let calls := calls1 ++ CallCheckpoint a1 a2 :: calls2 in
  let fin := record_session calls e t in
  fresh t ->
  (fault (foldl call t (calls1 ++ [CallCheckpoint a1 a2])) = None -> recorded calls1 `prefix_of` durable (sink_file fin)) /\
  (required t = false -> contents (sink_file fin) `prefix_of` recorded calls) /\
  (ended_status (fault fin) updated Recording = Complete ->
     match e with Finalized _ _ => durable (sink_file fin) = recorded calls | TimedOut _ => True end).
Proof.
  intros calls fin Ht. apply fresh_keeps in Ht. unfold fin, record_session.
  destruct (calls_keep calls [] t Ht) as (Hk & Hg & Hr & Hf). cbn [app] in *.
  destruct (close_keeps _ e _ Hk) as (Cg & Ch & Cf). split_and!.
  - destruct (calls_keep calls1 [] t Ht) as (Hk1 & _). cbn [app] in Hk1. rewrite foldl_app. cbn [foldl].
    destruct (call_keeps _ _ (CallCheckpoint a1 a2) Hk1) as (Hk2 & _ & _ & Hd). intros Hf2. destruct (Hd Hf2) as [_ <-].
    unfold calls in *. rewrite foldl_app in *. cbn [foldl] in *.
    destruct (calls_keep calls2 _ _ Hk2) as (_ & [_ Hg2] & _). destruct Cg as [_ Cg]. by etrans.
  - intros Hreq. trans (held (sink_file (close e (foldl call t calls)))); [by eexists|]. rewrite Ch.
    unfold keeps in Hk. rewrite Hr, Hreq in Hk. destruct (fault _); [by destruct Hk as [?|[_ ?]]|]. by destruct Hk as [_ ->].
  - intros Hc%ended_complete. apply Cf in Hc as [_ Hc]. by destruct e.
Qed.
End intact.
End Intact.

(** * Examples *)
Module SinkExamples.
Import Intact.

(** A file of which the disk takes the number of bytes it is told. *)
Record Disk : Type := mk_disk { d_contents : bytes; d_pending : bytes; d_durable : nat }.

Definition disk_write (a : bool * nat) (bs : bytes) (d : Disk) : Disk * result bytes unit :=
  let all := d_pending d ++ if fst a then bs else take (snd a) bs in
  (mk_disk (d_contents d ++ take (snd a) all) (drop (snd a) all) (d_durable d), if fst a then Ok tt else Err (str "disk full")).

Definition disk_flush (a : bool * nat) (d : Disk) : Disk * result bytes unit :=
  let n := if fst a then length (d_pending d) else snd a in
  (mk_disk (d_contents d ++ take n (d_pending d)) (drop n (d_pending d)) (d_durable d), if fst a then Ok tt else Err (str "disk full")).

Definition disk_sync (all : bool) (a : bool * nat) (d : Disk) : Disk * result bytes unit :=
  if fst a then (mk_disk (d_contents d) (d_pending d) (length (d_contents d)), Ok tt) else (d, Err (str "I/O error")).

Lemma take_prefix_app {A} n (l k : list A) : take n l `prefix_of` take n (l ++ k).
Proof. rewrite take_app. by apply prefix_app_r. Qed.

#[export] Instance disk : BufFile.
Proof.
  refine (Build_BufFile Disk (bool * nat) d_contents d_pending (fun d => take (d_durable d) (d_contents d)) disk_write disk_flush disk_sync _ _ _ _ _ _ _).
  - intros d. exists (drop (d_durable d) (d_contents d)). by rewrite take_drop.
  - intros [ok n] bs d. exists (if ok then length bs else n). cbn. split_and!; [|by apply prefix_app_r|apply take_prefix_app].
    rewrite <- (assoc_L (++)), take_drop. destruct ok; [by rewrite firstn_all|done].
  - intros [[] n] bs d; [|done]. intros _. cbn. by rewrite <- (assoc_L (++)), take_drop.
  - intros [ok n] d. cbn. split_and!; [by rewrite <- (assoc_L (++)), take_drop|by apply prefix_app_r|apply take_prefix_app].
  - intros [[] n] d; [|done]. intros _. cbn. apply drop_all.
  - intros all [[] n] d; cbn; split_and!; try done. rewrite firstn_all. exists (drop (d_durable d) (d_contents d)). by rewrite take_drop.
  - intros all [[] n] d; [|done]. intros _. cbn. by rewrite firstn_all.
Defined.

Definition good : bool * nat := (true, 0%nat).
Definition text (seq : Z) (s : string) : sink_call (H := disk) := CallRecord (H := disk) (true, 2%nat) (mk_audit seq 0 (TextFrame (str s))).
Definition recording : TrackedRecording (H := disk) :=
  mk_tracked (mk_guac_sink (str "session.guac") (mk_disk [] [] 0) 0) false None false.

Lemma recording_intact_witness :
  let calls := [text 0 "3.nop;"] ++ CallCheckpoint (H := disk) good good :: [text 1 "4.sync,1.1;"] in
  let fin := record_session calls (Finalized (H := disk) good good) recording in
  str "3.nop;" `prefix_of` durable (sink_file fin) /\ contents (sink_file fin) `prefix_of` recorded calls /\
  durable (sink_file fin) = recorded calls /\ length (recorded calls) = 17%nat.
Proof.
  destruct (recording_intact [text 0 "3.nop;"] good good [text 1 "4.sync,1.1;"] (Finalized (H := disk) good good) recording true)
    as (H1 & H2 & H3); [by vm_compute|].
  split; [by apply H1|]. split; [by apply H2|]. split; [by apply H3|by vm_compute].
Defined.

(** A disk that hangs when the recording is finalised: the wait is given up
    after ten seconds, nothing notes a fault, and the row ends complete
    although the last instruction was never written. *)
Example timed_out_complete : let fin := record_session [text 0 "3.nop;"] (TimedOut (H := disk) None) recording in
  ended_status (fault fin) true Recording = Complete /\ contents (sink_file fin) = str "3.".
Proof. by vm_compute. Qed.
End SinkExamples.
