(* ===== verification/RecordingStore.v ===== *)
(** * Where recordings are kept

    [services/recordings.rs]: the upload of finished recordings to blob
    storage, the retention of both kinds of copies and the rows that say
    where a recording is.  Module [Upload] sends one file block by block;
    [Store] is the sync task as a program that other events interleave with:
    sessions that write, time, failures of every call, a pass cut off
    anywhere and a restart. *)

From stdpp Require Import sorting.
From S2P Require Import Prelude Machine Text Crates Resilience Sinks.

Local Open Scope Z_scope.

(** ** Azure block blobs

    A blob has committed content; [Put Block] stages a block under an id
    without touching it, and [Put Block List] commits the latest block of
    each listed id (the staged one, or else the committed one). *)
Class BlobStore := {
  blobs : Type;
  committed : blobs -> bytes -> option bytes;
  latest : blobs -> bytes -> bytes -> option bytes;
  put_block : bytes -> bytes -> bytes -> blobs -> blobs;
  put_block_list : bytes -> list bytes -> blobs -> blobs;
  delete_blob : bytes -> blobs -> blobs;
  put_block_committed n id d b m : committed (put_block n id d b) m = committed b m;
  put_block_latest n id d b id' : latest (put_block n id d b) n id' = if bool_decide (id' = id) then Some d else latest b n id';
  put_block_list_committed n ids ds b : mapM (latest b n) ids = Some ds -> committed (put_block_list n ids b) n = Some (concat ds);
  put_block_list_latest n ids ds b : mapM (latest b n) ids = Some ds -> mapM (latest (put_block_list n ids b) n) ids = Some ds;
  put_block_list_other n ids b m : m <> n -> committed (put_block_list n ids b) m = committed b m;
  delete_blob_committed n b m : committed (delete_blob n b) m = if bool_decide (m = n) then None else committed b m
}.

(** * One file *)
Module Upload.
Section upload.
Context `{Base64} `{BlobStore}.
Variable jitter : Z -> Z.

Definition UPLOAD_BLOCK_SIZE : nat := Z.to_nat (8 * 1024 * 1024).
Definition MAX_BLOCKS : nat := Z.to_nat 50000.

Lemma block_size_Z : Z.of_nat UPLOAD_BLOCK_SIZE = 8 * 1024 * 1024.
Proof. by apply Z2Nat.id. Qed.

Lemma max_blocks_Z : Z.of_nat MAX_BLOCKS = 50000.
Proof. by apply Z2Nat.id. Qed.

(** One signed request as its sender and the service see it: an answer that
    is lost leaves a request applied. *)
Inductive attempt : Type := Success | Failure (applied transient : bool).

Definition verdict (a : attempt) : result bool unit := match a with Success => Ok tt | Failure _ t => Err t end.
Definition applied (a : attempt) : bool := match a with Success => true | Failure b _ => b end.

(** [retry_transient_with_jitter(.., 3, 500 ms)] around a request. *)
Definition request (ans : nat -> attempt) (f : blobs -> blobs) (b : blobs) : blobs * result bool unit :=
  match Retry.retry_transient_with_jitter (fun t => t) (fun n => verdict (ans n)) jitter 3 500 with
  | Some (r, n, _) => (foldl (fun b k => if applied (ans k) then f b else b) b (seq 1 n), r)
  | None => (b, Err false)
  end.

(** [format!("{index:06}")] in base64. *)
Definition pad6 (d : bytes) : bytes := replicate (6 - length d) 48 ++ d.
Definition block_id (index : nat) : bytes := b64_encode STANDARD (pad6 (dec (Z.of_nat index))).

(** The answers to a file's upload: for each read, that it fails or those to
    the requests for the block it got; then those to the block list. *)
Record Answers : Type := mk_answers { opened : bool; block_answers : nat -> option (nat -> attempt); list_answers : nat -> attempt }.

Fixpoint put_blocks (ans : nat -> option (nat -> attempt)) (blob : bytes) (ids : list bytes) (cs : list bytes) (b : blobs) :
    blobs * result bool (list bytes) :=
  match ans (length ids), cs with
  | None, _ => (b, Err false)
  | Some _, [] => (b, Ok ids)
  | Some ans1, data :: r =>
          if (length ids =? MAX_BLOCKS)%nat then (b, Err false)
          else
            let id := block_id (length ids) in
            match request ans1 (put_block blob id data) b with
            | (b, Ok _) => put_blocks ans blob (ids ++ [id]) r b
            | (b, Err e) => (b, Err e)
            end
  end.

Definition upload_file_to_azure (blob content : bytes) (a : Answers) (b : blobs) : blobs * result bool unit :=
  if opened a then
    match put_blocks (block_answers a) blob [] (chunks UPLOAD_BLOCK_SIZE content) b with
    | (b, Ok ids) => request (list_answers a) (put_block_list blob ids) b
    | (b, Err e) => (b, Err e)
    end
  else (b, Err false).

Definition delete_from_azure (blob : bytes) (ans : nat -> attempt) (b : blobs) : blobs * result bool unit :=
  request ans (delete_blob blob) b.

(** ** Requests *)

Lemma applied_iter (ans : nat -> attempt) (f : blobs -> blobs) l : forall b,
  foldl (fun b k => if applied (ans k) then f b else b) b l = Nat.iter (length (filter (fun k => applied (ans k) = true) l)) f b.
Proof.
  induction l as [|k l IH]; intros b; [done|]. cbn [foldl]. rewrite IH, filter_cons. destruct (applied (ans k)) eqn:E.
  - rewrite decide_True by done. cbn [length]. by rewrite Nat.iter_succ_r.
  - by rewrite decide_False.
Qed.

(** A request is applied some number of times, and at least once when it
    succeeds. *)
Lemma request_spec ans f b : exists k, fst (request ans f b) = Nat.iter k f b /\ (snd (request ans f b) = Ok tt -> (0 < k)%nat).
Proof.
  unfold request, Retry.retry_transient_with_jitter. cbn [Nat.max].
  destruct (Retry.retry_loop_spec (fun t => t) (fun n => verdict (ans n)) jitter 500 3 3 1) as (n & sl & -> & Hn & _); [lia..|].
  rewrite applied_iter. eexists. split; [done|]. cbn. intros Hv.
  assert (n ∈ filter (fun k => applied (ans k) = true) (seq 1 n)) as Hin.
  { apply list_elem_of_filter. split; [by destruct (ans n)|]. apply elem_of_seq. lia. }
  destruct (filter _ _); [by apply not_elem_of_nil in Hin|cbn; lia].
Qed.

Lemma pad6_inj i j : Z.of_nat i < 1000000 -> Z.of_nat j < 1000000 -> pad6 (dec (Z.of_nat i)) = pad6 (dec (Z.of_nat j)) -> i = j.
Proof.
  intros Hi Hj E. assert (forall k d, digits_value (replicate k 48 ++ d) = digits_value d) as Hz by (induction k; [done|exact IHk]).
  apply (f_equal digits_value) in E. unfold pad6 in E. rewrite !Hz in E.
  destruct (dec_spec (Z.of_nat i)) as [Ei _], (dec_spec (Z.of_nat j)) as [Ej _]; [unfold dec_bound; lia..|]. lia.
Qed.

(** The ids of a blob's blocks are of one length before they are encoded. *)
Lemma pad6_length i : Z.of_nat i < 1000000 -> length (pad6 (dec (Z.of_nat i))) = 6%nat.
Proof.
  intros Hi. unfold pad6. rewrite length_app, length_replicate. pose proof (dec_fuel_length 20 6 (Z.of_nat i)) as Hl.
  unfold dec. assert (length (dec_fuel 20 (Z.of_nat i)) <= 6)%nat by (apply Hl; lia). lia.
Qed.

Lemma pad6_ok i : Z.of_nat i < 1000000 -> bytes_ok (pad6 (dec (Z.of_nat i))).
Proof.
  intros Hi. destruct (dec_spec (Z.of_nat i)) as (_ & Hd & _); [unfold dec_bound; lia|]. unfold pad6. apply Forall_app. split.
  - apply Forall_replicate. unfold byte_ok. lia.
  - eapply Forall_impl; [exact Hd|]. intros d Hr%digit_range. unfold byte_ok. lia.
Qed.

Lemma block_id_inj i j : Z.of_nat i < 1000000 -> Z.of_nat j < 1000000 -> block_id i = block_id j -> i = j.
Proof.
  intros Hi Hj E. unfold block_id in E. apply (f_equal (b64_decode STANDARD)) in E.
  rewrite !b64_decode_encode in E by (by apply pad6_ok). apply (inj Some) in E. by apply pad6_inj.
Qed.

(** ** The upload *)

Definition ids_upto (n : nat) : list bytes := block_id <$> seq 0 n.

Lemma ids_upto_S n : ids_upto (S n) = ids_upto n ++ [block_id n].
Proof. unfold ids_upto. by rewrite seq_S, fmap_app. Qed.

Lemma ids_upto_length n : length (ids_upto n) = n.
Proof. unfold ids_upto. by rewrite length_fmap, length_seq. Qed.

Lemma put_block_iter k blob id d b : (forall m, committed (Nat.iter k (put_block blob id d) b) m = committed b m) /\
  forall id', latest (Nat.iter k (put_block blob id d) b) blob id' = if bool_decide (id' = id) && (0 <? k)%nat then Some d else latest b blob id'.
Proof.
  induction k as [|k [IH1 IH2]]; [split; [done|]; intros; by rewrite andb_false_r|]. cbn [Nat.iter nat_rect]. split.
  - intros m. rewrite put_block_committed. apply IH1.
  - intros id'. rewrite put_block_latest, IH2. by destruct (bool_decide _), (0 <? k)%nat.
Qed.

Lemma put_block_list_iter k blob ids ds b : mapM (latest b blob) ids = Some ds ->
  mapM (latest (Nat.iter k (put_block_list blob ids) b) blob) ids = Some ds /\
  (forall m, m <> blob -> committed (Nat.iter k (put_block_list blob ids) b) m = committed b m) /\
  committed (Nat.iter k (put_block_list blob ids) b) blob = if (0 <? k)%nat then Some (concat ds) else committed b blob.
Proof.
  intros E. induction k as [|k (IH1 & IH2 & IH3)]; [done|]. cbn [Nat.iter nat_rect]. split_and!.
  - by apply put_block_list_latest.
  - intros m Hm. rewrite put_block_list_other by done. by apply IH2.
  - by rewrite (put_block_list_committed _ _ ds).
Qed.

Lemma mapM_ext_in {A B} (f g : A -> option B) l : (forall x, x ∈ l -> f x = g x) -> mapM f l = mapM g l.
Proof.
  induction l as [|x l IH]; intros Hfg; [done|]. cbn. rewrite (Hfg x) by left. destruct (g x); [|done]. cbn. rewrite IH; [done|].
  intros y Hy. apply Hfg. by right.
Qed.

Lemma put_blocks_spec ans blob cs : forall done_ b, Z.of_nat (length done_) <= 50000 ->
  mapM (latest b blob) (ids_upto (length done_)) = Some done_ ->
  let r := put_blocks ans blob (ids_upto (length done_)) cs b in
  (forall m, committed (fst r) m = committed b m) /\
  forall ids, snd r = Ok ids -> mapM (latest (fst r) blob) ids = Some (done_ ++ cs) /\ Z.of_nat (length (done_ ++ cs)) <= 50000.
Proof.
  induction cs as [|c cs IH]; intros d b Hd E; cbn [put_blocks]; rewrite ?ids_upto_length.
  { destruct (ans (length d)); [|done]. split; [done|]. intros ids [= <-]. by rewrite app_nil_r. }
  destruct (ans (length d)) as [ans1|]; [|done]. destruct (_ =? MAX_BLOCKS)%nat eqn:Hm; [done|].
  apply Nat.eqb_neq in Hm. assert (Z.of_nat (length d) < 50000) as Hlt by (pose proof max_blocks_Z; lia).
  destruct (request_spec ans1 (put_block blob (block_id (length d)) c) b) as (k & Ek & Hk).
  destruct (put_block_iter k blob (block_id (length d)) c b) as [Hc Hl]. rewrite <- Ek in *.
  destruct (request _ _ b) as [b1 [u|e]]; cbn [fst snd] in *; [|done]. destruct u. specialize (Hk eq_refl).
  assert (mapM (latest b1 blob) (ids_upto (length (d ++ [c]))) = Some (d ++ [c])) as E1.
  { rewrite length_app, Nat.add_1_r, ids_upto_S. apply mapM_Some, Forall2_app.
    - apply mapM_Some. rewrite <- E. apply mapM_ext_in. intros id (i & -> & Hi%elem_of_seq)%list_elem_of_fmap. rewrite Hl, bool_decide_eq_false_2; [done|].
      intros Eb%block_id_inj; lia.
    - apply Forall2_cons. split; [|done]. rewrite Hl, bool_decide_eq_true_2 by done. by destruct k; [lia|]. }
  destruct (IH (d ++ [c]) b1) as [I1 I2]; [rewrite length_app; cbn; lia|done|].
  rewrite length_app, Nat.add_1_r, ids_upto_S in I1, I2. split.
  - intros m. by rewrite I1.
  - intros ids Hi. destruct (I2 ids Hi) as [J1 J2]. by rewrite <- (assoc_L (++)) in J1, J2.
Qed.

Lemma concat_bounded n (l : list bytes) : Forall (fun c => (0 < length c <= n)%nat) l ->
  Z.of_nat (length (concat l)) <= Z.of_nat (length l) * Z.of_nat n.
Proof. induction 1 as [|c l Hcl _ IH]; [done|]. cbn [concat length]. rewrite length_app. lia. Qed.

(** What an upload leaves in the storage, however often each request is
    repeated, applied or lost. *)
Lemma upload_spec blob content a b : let r := upload_file_to_azure blob content a b in
  (forall m, m <> blob -> committed (fst r) m = committed b m) /\
  (committed (fst r) blob = committed b blob \/ committed (fst r) blob = Some content) /\
  (snd r = Ok tt -> committed (fst r) blob = Some content) /\
  (50000 * (8 * 1024 * 1024) < Z.of_nat (length content) -> is_ok (snd r) = false /\ committed (fst r) blob = committed b blob).
Proof.
  unfold upload_file_to_azure. destruct (opened a); [|by split_and!; [|left|..]].
  destruct (put_blocks_spec (block_answers a) blob (chunks UPLOAD_BLOCK_SIZE content) [] b) as [Hc Hb]; [done|done|]. cbn [length app ids_upto fmap list_fmap seq] in *.
  change (ids_upto 0) with (@nil bytes) in *.
  assert (0 < UPLOAD_BLOCK_SIZE)%nat as Hpos by (pose proof block_size_Z; lia).
  destruct (put_blocks _ blob [] _ b) as [b1 [ids|e]]; cbn [fst snd] in *; [|split_and!; try done; [by left]].
  destruct (Hb ids eq_refl) as [El Hn]. destruct (request_spec (list_answers a) (put_block_list blob ids) b1) as (k & Ek & Hk).
  destruct (put_block_list_iter k blob ids _ b1 El) as (_ & Ho & Hblob). rewrite <- Ek in *. rewrite (chunks_concat _ _ Hpos) in Hblob.
  assert (Z.of_nat (length content) <= 50000 * (8 * 1024 * 1024)) as Hlen.
  { rewrite <- (chunks_concat _ content Hpos). pose proof (concat_bounded _ _ (chunks_bounded UPLOAD_BLOCK_SIZE content Hpos)) as Hcb.
    rewrite block_size_Z in Hcb. lia. }
  split_and!; [intros m Hm; by rewrite Ho, Hc| | |lia].
  - rewrite Hblob, <- Hc. by destruct (0 <? k)%nat; [right|left].
  - intros Hok. rewrite Hblob. by rewrite (proj2 (Nat.ltb_lt _ _)) by auto.
Qed.

Lemma delete_spec blob ans b : let r := delete_from_azure blob ans b in
  (forall m, m <> blob -> committed (fst r) m = committed b m) /\ (snd r = Ok tt -> committed (fst r) blob = None).
Proof.
  unfold delete_from_azure. destruct (request_spec ans (delete_blob blob) b) as (k & Ek & Hk). cbn. rewrite Ek.
  assert (forall m, committed (Nat.iter k (delete_blob blob) b) m = if bool_decide (m = blob) && (0 <? k)%nat then None else committed b m) as Hi.
  { clear. induction k as [|k IH]; intros m; [by rewrite andb_false_r|]. cbn [Nat.iter nat_rect]. rewrite delete_blob_committed, IH.
    by destruct (bool_decide _), (0 <? k)%nat. }
  split; [intros m Hm|intros Hok]; rewrite Hi; [by rewrite bool_decide_eq_false_2|].
  rewrite bool_decide_eq_true_2 by done. by rewrite (proj2 (Nat.ltb_lt _ _)) by auto.
Qed.
End upload.
End Upload.

(** * The sync task *)
Module Store.
Import Upload.

Inductive StorageType : Type := Local | AzureBlob.

#[export] Instance StorageType_eq_dec : EqDecision StorageType.
Proof. solve_decision. Defined.

Definition parse_storage_type (s : bytes) : StorageType := if bool_decide (s = str "azure_blob") then AzureBlob else Local.
Definition parse_retention_days (s : bytes) : Z := default 30 (parse_u32 s).
Definition parse_recording_enabled (s : bytes) : bool := bool_decide (s = str "true").

Record RecordingConfig : Type := mk_config { enabled : bool; retention_days : Z; storage_type : StorageType }.

(** [get_config], from the three settings it reads ([required] concerns the
    sessions only). *)
Definition get_config (recordings_enabled recordings_retention_days recordings_storage_type : option bytes) : RecordingConfig :=
  mk_config (parse_recording_enabled (default (str "false") recordings_enabled))
    (parse_retention_days (default (str "30") recordings_retention_days))
    (parse_storage_type (default (str "local") recordings_storage_type)).

(** Wait after the [failures]-th failed upload, in seconds. *)
Definition upload_backoff (failures : Z) : Z := Z.min (Z.shiftl 60 (Z.min (Z.max (failures - 1) 0) 6)) 3600.

(** Times in milliseconds. *)
Definition SETTLED : Z := 30000.
Definition DAY : Z := 86400000.

Record SyncState : Type := mk_sync { synced : gset bytes; retry_at : gmap bytes (Z * Z) }.

Definition forget (name : bytes) (s : SyncState) : SyncState := mk_sync (synced s ∖ {[name]}) (delete name (retry_at s)).

Record LocalFile : Type := mk_local { content : bytes; modified : Z }.

(** A row of [recordings]; [remote] says that [storage_type] is 'azure'. *)
Record Row : Type := mk_row { storage_path : bytes; remote : bool; created_at : Z; status : Status }.

(** Where the task is: what is left of the loop it is in. *)
Inductive Place : Type :=
| Idle
| Purging (entries : list bytes)
| Selecting
| Doomed (rows : list Row)
| Deleting
| Scanning
| Uploading (candidates : list bytes)
| Sending (name : bytes) (candidates : list bytes)
| Marking (name : bytes) (candidates : list bytes)
| Removing (name : bytes) (candidates : list bytes).

Section store.
Context `{Base64} `{BlobStore}.
Variable jitter : Z -> Z.

(** [written] is what sessions wrote to each file they created and when its
    row was made, [live] the files a session has open, [unmarked] those whose
    UPDATE failed after an upload; the program does not look at them. *)
Record World : Type := mk_world {
  now : Z; files : gmap bytes LocalFile; rows : gmap bytes Row; blob : blobs; sync_state : SyncState; place : Place;
  written : gmap bytes (bytes * Z); live : gset bytes; unmarked : gset bytes }.

Definition set_now x w := mk_world x (files w) (rows w) (blob w) (sync_state w) (place w) (written w) (live w) (unmarked w).
Definition set_files x w := mk_world (now w) x (rows w) (blob w) (sync_state w) (place w) (written w) (live w) (unmarked w).
Definition set_rows x w := mk_world (now w) (files w) x (blob w) (sync_state w) (place w) (written w) (live w) (unmarked w).
Definition set_blob x w := mk_world (now w) (files w) (rows w) x (sync_state w) (place w) (written w) (live w) (unmarked w).
Definition set_sync x w := mk_world (now w) (files w) (rows w) (blob w) x (place w) (written w) (live w) (unmarked w).
Definition set_place x w := mk_world (now w) (files w) (rows w) (blob w) (sync_state w) x (written w) (live w) (unmarked w).
Definition set_written x w := mk_world (now w) (files w) (rows w) (blob w) (sync_state w) (place w) x (live w) (unmarked w).
Definition set_live x w := mk_world (now w) (files w) (rows w) (blob w) (sync_state w) (place w) (written w) x (unmarked w).
Definition set_unmarked x w := mk_world (now w) (files w) (rows w) (blob w) (sync_state w) (place w) (written w) (live w) x.

Variable config : RecordingConfig.

Definition max_age : Z := retention_days config * DAY.

Definition hidden (name : bytes) : bool := match name with 46 :: _ => true | _ => false end.

(** [config.retention_days as i32], the argument of both statements. *)
Definition sql_days : Z := wrap_i 32 (retention_days config).

(** [created_at < now() - make_interval(days => ..)]. *)
Definition row_expired (now : Z) (r : Row) : bool := created_at r <? now - sql_days * DAY.

(** What follows the retention pass in [sync_pass]. *)
Definition after_retention : Place := match storage_type config with AzureBlob => Scanning | Local => Idle end.

(** The order in which candidates go: by age, then by name. *)
Fixpoint name_le (a b : bytes) : bool :=
  match a, b with
  | [], _ => true
  | _, [] => false
  | x :: a, y :: b => (x <? y) || (x =? y) && name_le a b
  end.

Definition older (a b : Z * bytes) : Prop := (fst a <? fst b) || (fst a =? fst b) && name_le (snd a) (snd b) = true.

#[local] Instance older_dec a b : Decision (older a b).
Proof. unfold older. apply _. Defined.

(** The tests of the scan. *)
Definition candidate (w : World) (e : bytes * LocalFile) : bool :=
  let '(name, f) := e in
  negb (hidden name) && negb (bool_decide (name ∈ synced (sync_state w))) &&
  negb (match retry_at (sync_state w) !! name with Some (_, at_) => now w <? at_ | None => false end) &&
  negb (Z.max (now w - modified f) 0 <? SETTLED).

Definition candidates (w : World) : list bytes :=
  snd <$> merge_sort older ((fun e => (modified (snd e), fst e)) <$> filter (fun e => candidate w e = true) (map_to_list (files w))).

(** The answers of the world to one step of the task. *)
Record Answer : Type := mk_answer { ok : bool; upload : Answers; requests : nat -> attempt }.

(** [failures] counts the attempt before it is made. *)
Definition note_attempt (name : bytes) (now : Z) (s : SyncState) : SyncState :=
  let failures := default 0 (fst <$> retry_at s !! name) + 1 in
  mk_sync (synced s) (<[name := (failures, now + 1000 * upload_backoff failures)]> (retry_at s)).

Definition uploaded (name : bytes) (s : SyncState) : SyncState := mk_sync (synced s ∪ {[name]}) (delete name (retry_at s)).

(** [UPDATE recordings SET storage_type = 'azure' WHERE storage_path = $1]. *)
Definition mark_remote (name : bytes) (rs : gmap bytes Row) : gmap bytes Row :=
  (fun r => if bool_decide (storage_path r = name) then mk_row (storage_path r) true (created_at r) (status r) else r) <$> rs.

(** One doomed row: its blob when Azure is what is configured now, or what
    may be left of its file. *)
Definition purge_row (a : Answer) (r : Row) (w : World) : World :=
  if remote r then
    if ok a && bool_decide (storage_type config = AzureBlob)
    then set_blob (fst (delete_from_azure jitter (storage_path r) (requests a) (blob w))) w
    else w
  else if ok a then set_files (delete (storage_path r) (files w)) w else w.

(** [sync_pass] with [retention_pass] and [upload_pass], a call at a time. *)
Definition pass_step (a : Answer) (w : World) : World :=
  match place w with
  | Idle =>
      if enabled config then
        if 0 <? retention_days config then
          if ok a then set_place (Purging (fst <$> map_to_list (files w))) w else set_place after_retention w
        else set_place after_retention w
      else w
  | Purging [] => set_place Selecting w
  | Purging (name :: r) =>
      let w := set_place (Purging r) w in
      if hidden name then w
      else match files w !! name with
           | Some f =>
               if (max_age <? Z.max (now w - modified f) 0) && ok a
               then set_sync (forget name (sync_state w)) (set_files (delete name (files w)) w)
               else w
           | None => w
           end
  | Selecting =>
      let doomed := if ok a then filter (fun r => row_expired (now w) r = true) (snd <$> map_to_list (rows w)) else [] in
      match doomed with [] => set_place after_retention w | _ => set_place (Doomed doomed) w end
  | Doomed [] => set_place Deleting w
  | Doomed (r :: rs) => purge_row a r (set_place (Doomed rs) w)
  | Deleting =>
      if ok a then set_place after_retention (set_rows (filter (fun kr => row_expired (now w) (snd kr) = false) (rows w)) w)
      else set_place Idle w
  | Scanning =>
      if ok a then
        set_sync (mk_sync (synced (sync_state w)) (filter (fun kv => is_Some (files w !! fst kv) /\ hidden (fst kv) = false) (retry_at (sync_state w))))
          (set_place (Uploading (candidates w)) w)
      else set_place Idle w
  | Uploading [] => set_place Idle w
  | Uploading (name :: r) => set_sync (note_attempt name (now w) (sync_state w)) (set_place (Sending name r) w)
  | Sending name r =>
      match files w !! name with
      | Some f =>
          match upload_file_to_azure jitter name (content f) (upload a) (blob w) with
          | (b, Ok _) => set_sync (uploaded name (sync_state w)) (set_blob b (set_place (Marking name r) w))
          | (b, Err _) => set_blob b (set_place (Uploading r) w)
          end
      | None => set_place (Uploading r) w
      end
  | Marking name r =>
      let w := set_place (Removing name r) w in
      if ok a then set_rows (mark_remote name (rows w)) w else set_unmarked (unmarked w ∪ {[name]}) w
  | Removing name r =>
      let w := set_place (Uploading r) w in
      if ok a then set_files (delete name (files w)) w else w
  end.

(** The pass is dropped (its time is up, shutdown, an error with [?]); an
    upload under way may have come any part of the way. *)
Definition cut (a : Answer) (w : World) : World :=
  let w := match place w with
           | Sending name _ =>
               match files w !! name with
               | Some f => set_blob (fst (upload_file_to_azure jitter name (content f) (upload a) (blob w))) w
               | None => w
               end
           | _ => w
           end in
  set_place Idle w.

(** [UPDATE recordings SET status = .. WHERE session_id = ..]. *)
Definition set_status (f : Status -> Status) (r : Row) : Row := mk_row (storage_path r) (remote r) (created_at r) (f (status r)).

(** [insert_start]. *)
Definition insert_start (session_id name : bytes) (w : World) : World :=
  set_rows (<[session_id := mk_row name false (now w) Recording]> (rows w)) w.

(** [GuacRecordingSink::create] for the session of a row, ... *)
Definition create (name : bytes) (r : Row) (w : World) : World :=
  set_live (live w ∪ {[name]}) (set_written (<[name := ([], created_at r)]> (written w)) (set_files (<[name := mk_local [] (now w)]> (files w)) w)).

(** ... what reaches the file, through a descriptor that outlives its name, ... *)
Definition append (name bs : bytes) (w : World) : World :=
  set_written (alter (fun tc => (fst tc ++ bs, snd tc)) name (written w))
    (set_files (alter (fun f => mk_local (content f ++ bs) (now w)) name (files w)) w).

(** ... and the end: [recording_failed] and [finalize_session]. *)
Definition finish (session_id name : bytes) (fault : option bytes) (updated : bool) (w : World) : World :=
  set_live (live w ∖ {[name]}) (set_rows (alter (set_status (ended_status fault updated)) session_id (rows w)) w).

(** The backend starts again: [mark_interrupted]. *)
Definition restart (w : World) : World :=
  set_live ∅ (set_sync (mk_sync ∅ ∅) (set_place Idle (set_rows (set_status interrupted_status <$> rows w) w))).

(** The directory is only scanned while every open recording was written to
    in the last thirty seconds (the actor flushes it every five). *)
Definition open_files_fresh (w : World) : Prop :=
  forall name f, name ∈ live w -> files w !! name = Some f -> now w - modified f < SETTLED.

Definition unused (name : bytes) (w : World) : Prop :=
  written w !! name = None /\ files w !! name = None /\ forall sid r, rows w !! sid = Some r -> storage_path r <> name.

Inductive step : World -> World -> Prop :=
| step_tick w d : 0 <= d -> step w (set_now (now w + d) w)
| step_insert w sid name : rows w !! sid = None -> unused name w -> hidden name = false -> step w (insert_start sid name w)
| step_create w sid r : rows w !! sid = Some r -> written w !! storage_path r = None -> step w (create (storage_path r) r w)
| step_append w name bs : name ∈ live w -> step w (append name bs w)
| step_finish w sid r fault updated : rows w !! sid = Some r -> step w (finish sid (storage_path r) fault updated w)
| step_restart w : step w (restart w)
| step_cut w a : step w (cut a w)
| step_pass w a : (place w = Scanning -> open_files_fresh w) -> step w (pass_step a w).

Definition start (b : blobs) : World := mk_world 0 ∅ ∅ b (mk_sync ∅ ∅) Idle ∅ ∅ ∅.

Definition reachable (b : blobs) : World -> Prop := rtc step (start b).

(** [open_recording]: where a row says the recording is. *)
Definition open_recording (w : World) (r : Row) : option bytes :=
  if remote r then committed (blob w) (storage_path r) else content <$> files w !! storage_path r.

Definition expired (w : World) (created : Z) : Prop := created < now w - max_age.
End store.
End Store.

(** * No recording is lost *)
Module Kept.
Import Upload Store.

Section kept.
Context `{Base64} `{BlobStore}.
Variable jitter : Z -> Z.
Variable config : RecordingConfig.

(** The names an upload pass is at. *)
Definition busy (p : Place) : list bytes :=
  match p with Uploading l => l | Sending n l | Marking n l | Removing n l => n :: l | _ => [] end.

(** What the task knows of its place. *)
Definition placed (w : World) : Prop :=
  match place w with
  | Doomed rs => Forall (fun r => row_expired config (now w) r = true /\
      exists sid r', rows w !! sid = Some r' /\ storage_path r' = storage_path r /\ created_at r' = created_at r) rs
  | Marking n _ => forall C c, written w !! n = Some (C, c) -> committed (blob w) n = Some C
  | Removing n _ => (forall C c, written w !! n = Some (C, c) -> committed (blob w) n = Some C) /\
      (forall sid r, rows w !! sid = Some r -> storage_path r = n -> remote r = true \/ n ∈ unmarked w)
  | _ => True
  end.

Record inv (w : World) : Prop := mk_inv {
  i_written : forall n C c, written w !! n = Some (C, c) -> c <= now w;
  i_files : forall n f, files w !! n = Some f -> exists c, written w !! n = Some (content f, c) /\ c <= modified f;
  i_live : forall n, n ∈ live w -> is_Some (written w !! n) /\ n ∉ busy (place w);
  i_busy : forall n, n ∈ busy (place w) -> is_Some (written w !! n);
  i_rows : forall sid r, rows w !! sid = Some r -> created_at r <= now w /\
    (forall C c, written w !! storage_path r = Some (C, c) -> created_at r = c) /\
    (remote r = true -> is_Some (written w !! storage_path r));
  i_unique : forall sid sid' r r', rows w !! sid = Some r -> rows w !! sid' = Some r' -> storage_path r = storage_path r' -> sid = sid';
  i_kept : forall n C c, written w !! n = Some (C, c) ->
    expired config w c \/ is_Some (files w !! n) \/ (n ∉ live w) /\ committed (blob w) n = Some C;
  i_row : forall n C c, written w !! n = Some (C, c) -> expired config w c \/ exists sid r, rows w !! sid = Some r /\ storage_path r = n;
  i_remote : forall sid r C c, rows w !! sid = Some r -> remote r = true -> written w !! storage_path r = Some (C, c) ->
    (storage_path r ∉ live w) /\ (expired config w c \/ committed (blob w) (storage_path r) = Some C);
  i_local : forall sid r C c, rows w !! sid = Some r -> remote r = false -> written w !! storage_path r = Some (C, c) ->
    storage_path r ∉ unmarked w -> expired config w c \/ is_Some (files w !! storage_path r);
  i_placed : placed w }.

(** ** Places *)

(** Moving on without touching anything else. *)
Lemma set_place_inv p w : inv w -> (forall n, n ∈ busy p -> n ∈ busy (place w)) -> placed (set_place p w) -> inv (set_place p w).
Proof.
  intros [] Hb Hp. split; try done; cbn.
  - intros n Hn. destruct (i_live0 n Hn) as [? Hnb]. split; [done|]. intros Hi. by apply Hnb, Hb.
  - intros n Hn. by apply i_busy0, Hb.
Qed.

Lemma set_sync_inv s w : inv w -> inv (set_sync s w).
Proof. by intros []. Qed.

Lemma tick_inv d w : 0 <= d -> inv w -> inv (set_now (now w + d) w).
Proof.
  intros Hd []. assert (forall c, expired config w c -> expired config (set_now (now w + d) w) c) as He by (unfold expired; cbn; lia).
  split; try done; cbn.
  - intros n C c Hw. specialize (i_written0 _ _ _ Hw). lia.
  - intros sid r Hr. destruct (i_rows0 sid r Hr) as (? & ? & ?). split; [lia|done].
  - intros n C c Hw. destruct (i_kept0 n C c Hw); auto.
  - intros n C c Hw. destruct (i_row0 n C c Hw); auto.
  - intros sid r C c E1 E2 E3. destruct (i_remote0 sid r C c E1 E2 E3) as [? [?|?]]; auto.
  - intros sid r C c E1 E2 E3 E4. destruct (i_local0 sid r C c E1 E2 E3 E4); auto.
  - unfold placed in *. cbn. destruct (place w); try done. eapply Forall_impl; [exact i_placed0|]. intros r [Hr ?]. split; [|done].
    unfold row_expired in *. b2p. bdec.
Qed.

(** ** Sessions *)

Lemma insert_inv w sid name : rows w !! sid = None -> unused name w -> inv w -> inv (insert_start sid name w).
Proof.
  intros Hs (Hw & Hf & Hr) []. unfold insert_start. split; try done; cbn.
  - intros sid' r. rewrite lookup_insert_Some. intros [[<- <-]|[Hne Hl]]; cbn; [|by eapply i_rows0]. split_and!; [lia|congruence|done].
  - intros s1 s2 r1 r2. rewrite !lookup_insert_Some. intros [[<- <-]|[? L1]] [[<- <-]|[? L2]]; cbn; try done.
    + intros E. by destruct (Hr _ _ L2).
    + intros E. by destruct (Hr _ _ L1).
    + by eapply i_unique0.
  - intros n C c Hn. destruct (i_row0 n C c Hn) as [?|(s & r & Hl & Hp)]; [by left|right]. exists s, r. split; [|done].
    rewrite lookup_insert_ne; [done|]. intros ->. congruence.
  - intros s r C c. rewrite lookup_insert_Some. intros [[<- <-]|[? Hl]]; cbn; [done|by eapply i_remote0].
  - intros s r C c. rewrite lookup_insert_Some. intros [[<- <-]|[? Hl]]; cbn; [congruence|by eapply i_local0].
  - unfold placed in *. cbn. destruct (place w) as [| | |rs| | | | |n l|n l]; try done.
    + eapply Forall_impl; [exact i_placed0|]. intros r (He & s & r' & Hl & ?). split; [done|]. exists s, r'. split; [|done].
      rewrite lookup_insert_ne; [done|]. intros ->. congruence.
    + destruct i_placed0 as [? Hrow]. split; [done|]. intros s r. rewrite lookup_insert_Some. intros [[<- <-]|[? Hl]]; [|by eapply Hrow].
      cbn. intros ->. destruct (i_busy0 n) as [x Hx]; [left|congruence].
Qed.

Lemma create_inv w sid r : rows w !! sid = Some r -> written w !! storage_path r = None -> inv w -> inv (create (storage_path r) r w).
Proof.
  intros Hr Hw []. destruct (i_rows0 sid r Hr) as (Hc & _ & Hrem).
  assert (storage_path r ∉ busy (place w)) as Hnb by (intros [x Hx]%i_busy0; congruence).
  assert (files w !! storage_path r = None) as Hnf.
  { destruct (files w !! storage_path r) eqn:E; [|done]. apply i_files0 in E as (c & E & _). congruence. }
  assert (remote r = false) as Hrf by (destruct (remote r); [destruct Hrem as [x ?]; [done|congruence]|done]).
  split; cbn.
  - intros n C c. rewrite lookup_insert_Some. intros [[_ [= _ <-]]|[_ Hl]]; [done|by eapply i_written0].
  - intros n f. rewrite !lookup_insert_Some. intros [[<- <-]|[Hne Hl]]; [exists (created_at r); by rewrite lookup_insert_eq|].
    destruct (i_files0 _ _ Hl) as (c & ? & ?). exists c. by rewrite lookup_insert_ne.
  - intros n [Hn| ->%elem_of_singleton]%elem_of_union; [|by rewrite lookup_insert_eq].
    destruct (i_live0 n Hn) as [Hs ?]. split; [|done]. destruct (decide (storage_path r = n)) as [<-|]; [by rewrite lookup_insert_eq|by rewrite lookup_insert_ne].
  - intros n Hn. destruct (decide (storage_path r = n)) as [<-|]; [by rewrite lookup_insert_eq|rewrite lookup_insert_ne by done; auto].
  - intros s r' Hl. destruct (i_rows0 s r' Hl) as (? & Hcr & Hre). split_and!; [done| |].
    + intros C c. rewrite lookup_insert_Some. intros [[E [= _ <-]]|[_ Hl']]; [|by eapply Hcr].
      assert (sid = s) as <- by (by eapply i_unique0). congruence.
    + intros Ht. destruct (decide (storage_path r = storage_path r')) as [E|]; [by rewrite E, lookup_insert_eq|rewrite lookup_insert_ne by done; auto].
  - done.
  - intros n C c. rewrite lookup_insert_Some. intros [[<- [= <- <-]]|[Hne Hl]]; [right; left; by rewrite lookup_insert_eq|].
    destruct (i_kept0 _ _ _ Hl) as [?|[?|[? ?]]]; [by left|right; left; by rewrite lookup_insert_ne|right; right]. split; [|done]. apply not_elem_of_union. by rewrite not_elem_of_singleton.
  - intros n C c. rewrite lookup_insert_Some. intros [[<- _]|[Hne Hl]]; [right; by exists sid, r|by eapply i_row0].
  - intros s r' C c Hl Ht. rewrite lookup_insert_Some. intros [[E [= <- <-]]|[Hne Hl']].
    + assert (sid = s) as <- by (by eapply i_unique0). congruence.
    + destruct (i_remote0 _ _ _ _ Hl Ht Hl') as [? ?]. split; [|done]. apply not_elem_of_union. by rewrite not_elem_of_singleton.
  - intros s r' C c Hl Ht. rewrite lookup_insert_Some. intros [[E [= <- <-]]|[Hne Hl']] Hu.
    + right. rewrite E. by rewrite lookup_insert_eq.
    + rewrite lookup_insert_ne by done. by eapply i_local0.
  - unfold placed in *. cbn. destruct (place w) as [| | |rs| | | | |n l|n l]; try done.
    + intros C c. rewrite lookup_insert_ne; [by apply i_placed0|]. intros <-. apply Hnb. left.
    + destruct i_placed0 as [Hc' ?]. split; [|done]. intros C c. rewrite lookup_insert_ne; [by apply Hc'|]. intros <-. apply Hnb. left.
Qed.

Lemma append_inv w name bs : name ∈ live w -> inv w -> inv (append name bs w).
Proof.
  intros Hn []. destruct (i_live0 name Hn) as [[[C0 c0] Hw0] Hnb]. unfold append.
  assert (forall n C c, alter (fun tc : bytes * Z => (fst tc ++ bs, snd tc)) name (written w) !! n = Some (C, c) ->
    exists C', written w !! n = Some (C', c) /\ (n <> name -> C' = C)) as Hinv.
  { intros n C c. destruct (decide (n = name)) as [->|]; [rewrite lookup_alter_eq|rewrite lookup_alter_ne by done; by exists C].
    intros ([C' c'] & ? & [= -> ->])%fmap_Some. by exists C'. }
  assert (forall n, is_Some (written w !! n) -> is_Some (alter (fun tc : bytes * Z => (fst tc ++ bs, snd tc)) name (written w) !! n)) as Hsw.
  { intros n. destruct (decide (n = name)) as [->|]; [rewrite lookup_alter_eq|by rewrite lookup_alter_ne]. by intros [x ->]. }
  assert (forall n, is_Some (files w !! n) -> is_Some (alter (fun f => mk_local (content f ++ bs) (now w)) name (files w) !! n)) as Hsf.
  { intros n. destruct (decide (n = name)) as [->|]; [rewrite lookup_alter_eq|by rewrite lookup_alter_ne]. by intros [x ->]. }
  split; cbn.
  - intros n C c (C' & Hw & _)%Hinv. by eapply i_written0.
  - intros n f. destruct (decide (n = name)) as [->|].
    + rewrite !lookup_alter_eq. intros (f' & Hf & ->)%fmap_Some. destruct (i_files0 _ _ Hf) as (c & Hw & _). exists c. rewrite Hw. split; [done|]. cbn.
      by eapply i_written0.
    + rewrite !lookup_alter_ne by done. apply i_files0.
  - intros n Hl. destruct (i_live0 n Hl). auto.
  - auto.
  - intros s r Hl. destruct (i_rows0 s r Hl) as (? & Hcr & Hre). split_and!; [done| |auto].
    intros C c (C' & Hw & _)%Hinv. by eapply Hcr.
  - done.
  - intros n C c Hw. destruct (Hinv _ _ _ Hw) as (C' & Hw' & HC). destruct (i_kept0 _ _ _ Hw') as [?|[?|[? ?]]]; [by left|right; left; auto|].
    right; right. rewrite <- HC; [done|]. by intros ->.
  - intros n C c (C' & Hw & _)%Hinv. by eapply i_row0.
  - intros s r C c Hl Ht Hw. destruct (Hinv _ _ _ Hw) as (C' & Hw' & HC). destruct (i_remote0 _ _ _ _ Hl Ht Hw') as [? Hk]. split; [done|].
    rewrite <- HC; [done|]. congruence.
  - intros s r C c Hl Ht (C' & Hw & _)%Hinv Hu. destruct (i_local0 _ _ _ _ Hl Ht Hw Hu); auto.
  - unfold placed in *. cbn. destruct (place w) as [| | |rs| | | | |n l|n l]; try done.
    + intros C c Hw. destruct (Hinv _ _ _ Hw) as (C' & Hw' & HC). rewrite <- HC; [by eapply i_placed0|]. intros ->. apply Hnb. left.
    + destruct i_placed0 as [Hc ?]. split; [|done]. intros C c Hw. destruct (Hinv _ _ _ Hw) as (C' & Hw' & HC). rewrite <- HC; [by eapply Hc|].
      intros ->. apply Hnb. left.
Qed.

(** Rows that only change their status. *)
Definition same_row (r r' : Row) : Prop := storage_path r' = storage_path r /\ created_at r' = created_at r /\ remote r' = remote r.

Lemma set_rows_inv rs w : (forall sid r', rs !! sid = Some r' -> exists r, rows w !! sid = Some r /\ same_row r r') ->
  (forall sid r, rows w !! sid = Some r -> exists r', rs !! sid = Some r' /\ same_row r r') -> inv w -> inv (set_rows rs w).
Proof.
  intros Hb Hf []. split; try done; cbn.
  - intros sid r' (r & Hr & -> & -> & ->)%Hb. by apply (i_rows0 sid).
  - intros s1 s2 r1 r2 (q1 & ? & -> & _)%Hb (q2 & ? & -> & _)%Hb. by eapply i_unique0.
  - intros n C c Hw. destruct (i_row0 _ _ _ Hw) as [?|(sid & r & Hr & <-)]; [by left|right]. destruct (Hf _ _ Hr) as (r' & ? & ? & _). by exists sid, r'.
  - intros sid r' C c (r & Hr & -> & _ & ->)%Hb. by apply (i_remote0 sid).
  - intros sid r' C c (r & Hr & -> & _ & ->)%Hb. by apply (i_local0 sid).
  - unfold placed in *. cbn. destruct (place w) as [| | |l| | | | |n l|n l]; try done.
    + eapply Forall_impl; [exact i_placed0|]. intros r (He & sid & r1 & Hl & Hp & Hc). split; [done|].
      destruct (Hf _ _ Hl) as (r2 & ? & E1 & E2 & _). exists sid, r2. by rewrite E1, E2.
    + destruct i_placed0 as [? Hrow]. split; [done|]. intros sid r' (r & Hr & -> & _ & ->)%Hb. by eapply Hrow.
Qed.

Lemma set_live_inv L w : L ⊆ live w -> inv w -> inv (set_live L w).
Proof.
  intros HL []. split; try done; cbn.
  - intros n Hn. by apply i_live0, HL.
  - intros n C c Hw. destruct (i_kept0 _ _ _ Hw) as [?|[?|[? ?]]]; [by left|by right; left|right; right]. split; [|done]. by intros ?%HL.
  - intros sid r C c E1 E2 E3. destruct (i_remote0 _ _ _ _ E1 E2 E3) as [? ?]. split; [|done]. by intros ?%HL.
Qed.

Lemma finish_inv sid name fault updated w : inv w -> inv (finish sid name fault updated w).
Proof.
  intros Hi. unfold finish. apply set_live_inv; [cbn; apply subseteq_difference_l; reflexivity|]. apply set_rows_inv; [| |done].
  - intros s r'. destruct (decide (s = sid)) as [->|]; [rewrite lookup_alter_eq|rewrite lookup_alter_ne by done; by exists r'].
    intros (r & Hr & ->)%fmap_Some. by exists r.
  - intros s r Hr. destruct (decide (s = sid)) as [->|]; [rewrite lookup_alter_eq, Hr|rewrite lookup_alter_ne by done; by exists r].
    by eexists.
Qed.

Lemma restart_inv w : inv w -> inv (restart w).
Proof.
  intros Hi. unfold restart. apply set_live_inv; [set_solver|]. apply set_sync_inv, set_place_inv; [|cbn; set_solver|done].
  apply set_rows_inv; [| |done].
  - intros s r'. rewrite lookup_fmap. intros (r & Hr & ->)%fmap_Some. by exists r.
  - intros s r Hr. rewrite lookup_fmap, Hr. by eexists.
Qed.

(** ** Copies *)

(** A file is removed whose recording is expired or in the storage. *)
Lemma delete_file_inv name w :
  (forall C c, written w !! name = Some (C, c) -> expired config w c \/
     (name ∉ live w) /\ committed (blob w) name = Some C /\
     forall sid r, rows w !! sid = Some r -> storage_path r = name -> remote r = true \/ name ∈ unmarked w) ->
  inv w -> inv (set_files (delete name (files w)) w).
Proof.
  intros Hn []. split; try done; cbn.
  - intros n f [_ Hf]%lookup_delete_Some. by apply i_files0.
  - intros n C c Hw. destruct (decide (n = name)) as [->|Hne].
    + destruct (Hn _ _ Hw) as [?|(? & ? & _)]; [by left|right; by right].
    + rewrite lookup_delete_ne by done. by apply i_kept0.
  - intros sid r C c E1 E2 E3 E4. destruct (decide (storage_path r = name)) as [E|Hne].
    + rewrite E in *. destruct (Hn _ _ E3) as [?|(_ & _ & Hr)]; [by left|]. destruct (Hr _ _ E1 E) as [?|?]; [congruence|done].
    + rewrite lookup_delete_ne by done. by eapply i_local0.
Qed.

(** The storage changes at one name, to what was written under it or
    because it is expired. *)
Lemma set_blob_inv name b w : (forall m, m <> name -> committed b m = committed (blob w) m) ->
  (forall C c, written w !! name = Some (C, c) -> expired config w c \/ committed b name = Some C \/
     committed b name = committed (blob w) name) ->
  (forall n l, place w = Marking n l \/ place w = Removing n l -> n <> name) -> inv w -> inv (set_blob b w).
Proof.
  intros Ho Hn Hp []. split; try done; cbn.
  - intros n C c Hw. destruct (i_kept0 _ _ _ Hw) as [?|[?|[? Hc]]]; [by left|by right; left|].
    destruct (decide (n = name)) as [->|Hne]; [|right; right; by rewrite Ho].
    destruct (Hn _ _ Hw) as [?|[?|E]]; [by left|by right; right|right; right; by rewrite E].
  - intros sid r C c E1 E2 E3. destruct (i_remote0 _ _ _ _ E1 E2 E3) as [? Hc]. split; [done|].
    destruct (decide (storage_path r = name)) as [E|Hne]; [|by rewrite Ho]. rewrite E in *.
    destruct (Hn _ _ E3) as [?|[?|E']]; [by left|by right|by rewrite E'].
  - unfold placed in *. cbn. destruct (place w) as [| | |l| | | | |n l|n l]; try done.
    + intros C c Hw. rewrite Ho; [by eapply i_placed0|]. apply (Hp n l). by left.
    + destruct i_placed0 as [Hc ?]. split; [|done]. intros C c Hw. rewrite Ho; [by eapply Hc|]. apply (Hp n l). by right.
Qed.

(** ** The task *)

Hypothesis retention_i32 : 0 <= retention_days config <= i32_max.

Lemma sql_days_exact : sql_days config = retention_days config.
Proof. unfold sql_days, wrap_i, i32_max in *. rewrite Z.mod_small; lia. Qed.

Lemma row_expired_spec t r : row_expired config t r = true -> created_at r < t - max_age config.
Proof. unfold row_expired, max_age. rewrite sql_days_exact. intros E. by b2p. Qed.

Lemma nothing_busy (n : bytes) (l : list bytes) : n ∈ [] -> n ∈ l.
Proof. by intros ?%not_elem_of_nil. Qed.

Lemma after_inv w : inv w -> inv (set_place (after_retention config) w).
Proof. intros Hi. apply set_place_inv; [done|unfold after_retention; destruct (storage_type config); intros n; apply nothing_busy|].
  unfold after_retention, placed. cbn. by destruct (storage_type config). Qed.

Lemma idle_inv w : inv w -> inv (set_place Idle w).
Proof. intros Hi. by apply set_place_inv; [|intros n ?%not_elem_of_nil|]. Qed.

Lemma file_expired w name f : inv w -> files w !! name = Some f -> max_age config < Z.max (now w - modified f) 0 ->
  forall C c, written w !! name = Some (C, c) -> expired config w c.
Proof.
  intros Hi Hf Hm C c Hw. destruct (i_files _ Hi _ _ Hf) as (c' & Hw' & Hc). rewrite Hw in Hw'. injection Hw' as _ <-.
  unfold expired, max_age, DAY in *. lia.
Qed.

Lemma purging_inv a name r w : place w = Purging (name :: r) -> inv w -> inv (pass_step jitter config a w).
Proof.
  intros Hp Hi. unfold pass_step. rewrite Hp.
  assert (inv (set_place (Purging r) w)) as Hi' by (apply set_place_inv; [done|intros n; apply nothing_busy|done]).
  destruct (hidden name); [done|]. change (files (set_place (Purging r) w)) with (files w). destruct (files w !! name) as [f|] eqn:Ef; [|done].
  destruct (_ && ok a) eqn:E; [|done]. apply andb_prop in E as [E%Z.ltb_lt _]. apply set_sync_inv.
  apply (delete_file_inv name (set_place (Purging r) w)); [|done]. intros C c Hw. left. exact (file_expired w name f Hi Ef E C c Hw).
Qed.

Lemma selecting_inv a w : place w = Selecting -> inv w -> inv (pass_step jitter config a w).
Proof.
  intros Hp Hi. unfold pass_step. rewrite Hp.
  set (l := if ok a then _ else _).
  assert (Forall (fun r => row_expired config (now w) r = true /\
      exists sid r', rows w !! sid = Some r' /\ storage_path r' = storage_path r /\ created_at r' = created_at r) l) as Hl.
  { unfold l. destruct (ok a); [|constructor]. apply Forall_forall. intros r [He Hr]%list_elem_of_filter. split; [done|].
    apply list_elem_of_fmap in Hr as ([sid r'] & -> & Hr%elem_of_map_to_list). by exists sid, r'. }
  destruct l as [|r rs]; [by apply after_inv|]. by apply set_place_inv; [|intros n; apply nothing_busy|].
Qed.

Lemma doomed_inv a r rs w : place w = Doomed (r :: rs) -> inv w -> inv (pass_step jitter config a w).
Proof.
  intros Hp Hi. unfold pass_step. rewrite Hp. pose proof (i_placed _ Hi) as Hd. unfold placed in Hd. rewrite Hp in Hd.
  apply Forall_cons in Hd as [(He & sid & r' & Hr' & Epath & Ecr) Hrs].
  assert (inv (set_place (Doomed rs) w)) as Hi' by (apply set_place_inv; [done|intros n; apply nothing_busy|done]).
  assert (forall C c, written w !! storage_path r = Some (C, c) -> expired config w c) as Hexp.
  { intros C c Hw. destruct (i_rows _ Hi _ _ Hr') as (_ & Hcr & _). rewrite Epath in Hcr. apply Hcr in Hw as <-. rewrite Ecr.
    by apply row_expired_spec. }
  unfold purge_row. destruct (remote r).
  - destruct (_ && _); [|done]. destruct (delete_spec jitter (storage_path r) (requests a) (blob w)) as [Ho _].
    apply (set_blob_inv (storage_path r)); [exact Ho| |by intros n l [?|?]|done]. intros C c Hw. left. by eapply Hexp.
  - destruct (ok a); [|done]. apply delete_file_inv; [|done]. intros C c Hw. left. by eapply Hexp.
Qed.

Lemma deleting_inv a w : place w = Deleting -> inv w -> inv (pass_step jitter config a w).
Proof.
  intros Hp Hi. unfold pass_step. rewrite Hp. destruct (ok a); [|by apply idle_inv]. apply after_inv. destruct Hi. split; try done; cbn.
  - intros sid r [Hr _]%map_lookup_filter_Some. by apply (i_rows0 sid).
  - intros s1 s2 r1 r2 [? _]%map_lookup_filter_Some [? _]%map_lookup_filter_Some. by eapply i_unique0.
  - intros n C c Hw. destruct (i_row0 _ _ _ Hw) as [?|(sid & r & Hr & <-)]; [by left|]. destruct (row_expired config (now w) r) eqn:E.
    + left. destruct (i_rows0 _ _ Hr) as (_ & Hc & _). apply Hc in Hw as <-. by apply row_expired_spec.
    + right. exists sid, r. split; [|done]. by apply map_lookup_filter_Some.
  - intros sid r C c [Hr _]%map_lookup_filter_Some. by apply (i_remote0 sid).
  - intros sid r C c [Hr _]%map_lookup_filter_Some. by apply (i_local0 sid).
  - unfold placed in *. cbn. by rewrite Hp.
Qed.

Lemma elem_of_candidates w n : n ∈ candidates w -> exists f, files w !! n = Some f /\ SETTLED <= now w - modified f.
Proof.
  unfold candidates. intros ([m n'] & -> & Hm)%list_elem_of_fmap. rewrite merge_sort_Permutation in Hm.
  apply list_elem_of_fmap in Hm as ([n f] & [= -> ->] & [Hc Hf%elem_of_map_to_list]%list_elem_of_filter). exists f. split; [done|].
  unfold candidate, SETTLED in *. b2p. lia.
Qed.

Lemma scanning_inv a w : place w = Scanning -> open_files_fresh w -> inv w -> inv (pass_step jitter config a w).
Proof.
  intros Hp Hfresh Hi. unfold pass_step. rewrite Hp. destruct (ok a); [|by apply idle_inv]. apply set_sync_inv. destruct Hi. split; try done; cbn.
  - intros n Hn. split; [by apply i_live0|]. intros (f & Hf & Hs)%elem_of_candidates. specialize (Hfresh n f Hn Hf). unfold SETTLED in *. lia.
  - intros n (f & Hf & _)%elem_of_candidates. apply i_files0 in Hf as (c & -> & _). by eexists.
Qed.

Lemma upload_inv ans name r w : place w = Sending name r -> inv w -> forall f, files w !! name = Some f ->
  inv (set_blob (fst (upload_file_to_azure jitter name (content f) ans (blob w))) w).
Proof.
  intros Hp Hi f Hf. destruct (upload_spec jitter name (content f) ans (blob w)) as (Ho & Hn & _).
  apply (set_blob_inv name); [exact Ho| |rewrite Hp; by intros n l [?|?]|done].
  intros C c Hw. destruct (i_files _ Hi _ _ Hf) as (c' & Hw' & _). rewrite Hw in Hw'. injection Hw' as -> _. right. tauto.
Qed.

Lemma cut_inv a w : inv w -> inv (cut jitter a w).
Proof.
  intros Hi. unfold cut. apply idle_inv. destruct (place w) eqn:Hp; try done. destruct (files w !! name) as [f|] eqn:Hf; [|done].
  by eapply upload_inv.
Qed.

Lemma sending_inv a name r w : place w = Sending name r -> inv w -> inv (pass_step jitter config a w).
Proof.
  intros Hp Hi. unfold pass_step. rewrite Hp.
  assert (forall n, n ∈ r -> n ∈ busy (place w)) as Hb by (rewrite Hp; by right).
  destruct (files w !! name) as [f|] eqn:Hf; [|by apply set_place_inv]. pose proof (upload_inv (upload a) name r w Hp Hi f Hf) as Hu.
  destruct (upload_spec jitter name (content f) (upload a) (blob w)) as (_ & _ & Hok & _).
  destruct (upload_file_to_azure _ _ _ _ _) as [b [u|e]]; cbn [fst snd] in *; [|by apply (set_place_inv (Uploading r)) in Hu].
  apply set_sync_inv. apply (set_place_inv (Marking name r)) in Hu; [exact Hu|cbn; by rewrite Hp|]. unfold placed. cbn.
  intros C c Hw. destruct (i_files _ Hi _ _ Hf) as (c' & Hw' & _). rewrite Hw in Hw'. injection Hw' as -> _. destruct u. by apply Hok.
Qed.

Lemma marking_inv a name r w : place w = Marking name r -> inv w -> inv (pass_step jitter config a w).
Proof.
  intros Hp Hi. pose proof (i_placed _ Hi) as Hc. unfold placed in Hc. rewrite Hp in Hc.
  assert (is_Some (written w !! name)) as [x Hx] by (apply (i_busy _ Hi); rewrite Hp; left).
  assert (name ∉ live w) as Hnl by (intros Hl; destruct (i_live _ Hi _ Hl) as [_ Hb]; apply Hb; rewrite Hp; left).
  assert (forall sid r', mark_remote name (rows w) !! sid = Some r' -> exists r, rows w !! sid = Some r /\ storage_path r' = storage_path r /\
    created_at r' = created_at r /\ (remote r' = true <-> remote r = true \/ storage_path r = name)) as Hm.
  { intros sid r'. unfold mark_remote. rewrite lookup_fmap. intros (q & Hq & ->)%fmap_Some. exists q. case_bool_decide; naive_solver. }
  unfold pass_step. rewrite Hp. destruct (ok a).
  - destruct Hi. split; try done; cbn.
    + intros n Hn. destruct (i_live0 n Hn) as [? Hb]. rewrite Hp in Hb. done.
    + intros n Hn. apply i_busy0. by rewrite Hp.
    + intros sid r' (q & Hq & -> & -> & Hre)%Hm. destruct (i_rows0 _ _ Hq) as (? & ? & Hq'). split_and!; [done..|].
      intros [Ht|E]%Hre; [by apply Hq'|]. rewrite E, Hx. by eexists.
    + intros s1 s2 r1 r2 (q1 & ? & -> & _)%Hm (q2 & ? & -> & _)%Hm. by eapply i_unique0.
    + intros n C c Hw. destruct (i_row0 _ _ _ Hw) as [?|(sid & q & Hq & <-)]; [by left|right]. exists sid. unfold mark_remote. rewrite lookup_fmap, Hq.
      cbn. eexists. split; [done|]. by case_bool_decide.
    + intros sid r' C c (q & Hq & -> & _ & Hre)%Hm Ht Hw. apply Hre in Ht as [Ht|E]; [by apply (i_remote0 sid)|]. rewrite E in *.
      split; [done|]. right. by eapply Hc.
    + intros sid r' C c (q & Hq & -> & _ & Hre)%Hm Ht. apply (i_local0 sid); [done|]. destruct (remote q); [|done].
      exfalso. assert (remote r' = true) by (apply Hre; by left). congruence.
    + unfold placed. cbn. split; [exact Hc|]. intros sid r' (q & Hq & -> & _ & Hre)%Hm E. left. apply Hre. by right.
  - destruct Hi. split; try done; cbn.
    + intros n Hn. destruct (i_live0 n Hn) as [? Hb]. rewrite Hp in Hb. done.
    + intros n Hn. apply i_busy0. by rewrite Hp.
    + intros sid q C c E1 E2 E3 E4. apply (i_local0 sid) with C; [done..|]. by intros ?; apply E4, elem_of_union_l.
    + unfold placed. cbn. split; [exact Hc|]. intros sid q _ _. right. apply elem_of_union_r. by apply elem_of_singleton.
Qed.

Lemma removing_inv a name r w : place w = Removing name r -> inv w -> inv (pass_step jitter config a w).
Proof.
  intros Hp Hi. pose proof (i_placed _ Hi) as Hc. unfold placed in Hc. rewrite Hp in Hc. destruct Hc as [Hc Hr].
  assert (name ∉ live w) as Hnl by (intros Hl; destruct (i_live _ Hi _ Hl) as [_ Hb]; apply Hb; rewrite Hp; left).
  assert (inv (set_place (Uploading r) w)) as Hi' by (apply set_place_inv; [done|rewrite Hp; by right|done]).
  unfold pass_step. rewrite Hp. destruct (ok a); [|done]. apply delete_file_inv; [|done]. intros C c Hw. right. split_and!; [done|by eapply Hc|exact Hr].
Qed.

Lemma pass_inv a w : (place w = Scanning -> open_files_fresh w) -> inv w -> inv (pass_step jitter config a w).
Proof.
  intros Hf Hi. destruct (place w) as [|[|name l]| |[|r rs]| | |[|name l]|name l|name l|name l] eqn:Hp.
  - unfold pass_step. rewrite Hp. destruct (enabled config); [|done]. destruct (0 <? _); [|by apply after_inv]. destruct (ok a); [|by apply after_inv].
    by apply set_place_inv; [|intros n; apply nothing_busy|].
  - unfold pass_step. rewrite Hp. by apply set_place_inv; [|intros n; apply nothing_busy|].
  - by eapply purging_inv.
  - by apply selecting_inv.
  - unfold pass_step. rewrite Hp. by apply set_place_inv; [|intros n; apply nothing_busy|].
  - by eapply doomed_inv.
  - by apply deleting_inv.
  - by apply scanning_inv; [|apply Hf|].
  - unfold pass_step. rewrite Hp. by apply idle_inv.
  - unfold pass_step. rewrite Hp. apply set_sync_inv. apply set_place_inv; [done|by rewrite Hp|done].
  - by eapply sending_inv.
  - by eapply marking_inv.
  - by eapply removing_inv.
Qed.

Lemma store_step_inv w w' : step jitter config w w' -> inv w -> inv w'.
Proof.
  intros Hs Hi. destruct Hs; [by apply tick_inv|by apply insert_inv|by eapply create_inv|by apply append_inv|by apply finish_inv|
    by apply restart_inv|by apply cut_inv|by apply pass_inv].
Qed.

Lemma start_inv b : inv (start b).
Proof. split; cbn; try done; set_solver. Qed.

Lemma reachable_keeps b w : reachable jitter config b w -> inv w.
Proof.
  assert (forall w0, rtc (step jitter config) w0 w -> inv w0 -> inv w) as Hk.
  { intros w0 Hr. induction Hr as [|w1 w2 w3 Hs _ IH]; [done|]. intros Hi. by eapply IH, store_step_inv. }
  intros Hr. apply (Hk (start b) Hr), start_inv.
Qed.

End kept.
End Kept.

(** * Examples *)
Module StoreExamples.
Import Upload Store Kept Reference.

(** Committed blobs and the latest block of each id. *)
Definition shelf : Type := gmap bytes bytes * gmap (bytes * bytes) bytes.

Definition commit (n : bytes) (ids : list bytes) (b : shelf) : shelf :=
  match mapM (fun id => snd b !! (n, id)) ids with Some ds => (<[n := concat ds]> (fst b), snd b) | None => b end.

#[export] Instance shelves : BlobStore.
Proof.
  refine (Build_BlobStore shelf (fun b n => fst b !! n) (fun b n id => snd b !! (n, id))
    (fun n id d b => (fst b, <[(n, id) := d]> (snd b))) commit (fun n b => (delete n (fst b), snd b)) _ _ _ _ _ _).
  - done.
  - intros n id d b id'. cbn. case_bool_decide as E; [subst; by rewrite lookup_insert_eq|]. rewrite lookup_insert_ne; [done|congruence].
  - intros n ids ds b E. unfold commit. rewrite E. cbn. by rewrite lookup_insert_eq.
  - intros n ids ds b E. unfold commit. by rewrite E.
  - intros n ids b m Hm. unfold commit. destruct (mapM _ _); [|done]. cbn. by rewrite lookup_insert_ne.
  - intros n b m. cbn. case_bool_decide as E; [subst; by rewrite lookup_delete_eq|by rewrite lookup_delete_ne].
Defined.

Definition at_once (z : Z) : Z := z.
Definition config : RecordingConfig := get_config (Some (str "true")) (Some (str "1")) (Some (str "azure_blob")).

Definition fine : Answer := mk_answer true (mk_answers true (fun _ => Some (fun _ => Success)) (fun _ => Success)) (fun _ => Success).
Definition failing : Answer := mk_answer false (mk_answers false (fun _ => None) (fun _ => Failure false false)) (fun _ => Failure false false).

Definition name : bytes := str "session-1.guac".
Definition text : bytes := str "3.nop;".

(** A session that is recorded, and a pass a minute later that uploads it. *)
Definition recorded_row : Row := mk_row name false 0 Recording.
Definition w1 : World := insert_start (str "1") name (start (∅, ∅)).
Definition w2 : World := create name recorded_row w1.
Definition w3 : World := append name text w2.
Definition w4 : World := finish (str "1") name None true w3.
Definition w5 : World := set_now (now w4 + 60000) w4.
Definition passes (n : nat) (w : World) : World := Nat.iter n (pass_step at_once config fine) w.

Lemma reachable_step b w w' : reachable at_once config b w -> step at_once config w w' -> reachable at_once config b w'.
Proof. intros Hr Hs. by eapply rtc_r. Qed.

Lemma pass_live a w : live (pass_step at_once config a w) = live w.
Proof. unfold pass_step, purge_row. by repeat case_match. Qed.

Lemma reachable_passes n b w : live w = ∅ -> reachable at_once config b w -> reachable at_once config b (passes n w).
Proof.
  intros Hl Hr. unfold passes.
  assert (live (Nat.iter n (pass_step at_once config fine) w) = ∅) as Hn by (induction n as [|n IH]; [done|cbn; by rewrite pass_live]).
  induction n as [|n IH]; [done|]. cbn in *. rewrite pass_live in Hn. eapply reachable_step; [by apply IH|]. apply step_pass.
  intros _ m f Hm. rewrite Hn in Hm. by apply not_elem_of_empty in Hm.
Qed.

Lemma w5_reachable : reachable at_once config (∅, ∅) w5.
Proof.
  eapply reachable_step; [|apply step_tick; lia].
  eapply reachable_step; [|apply (step_finish at_once config w3 (str "1") recorded_row None true); by vm_compute].
  eapply reachable_step; [|apply (step_append at_once config w2 name text); refine (bool_decide_unpack _ _); by vm_compute].
  eapply reachable_step; [|apply (step_create at_once config w1 (str "1") recorded_row); by vm_compute].
  eapply reachable_step; [apply rtc_refl|]. apply step_insert; [done| |by vm_compute]. split_and!; [done|done|]. intros sid r Hr. done.
Qed.

Example pass_uploads : files (passes 10 w5) !! name = None /\ committed (blob (passes 10 w5)) name = Some text /\
  rows (passes 10 w5) !! str "1" = Some (mk_row name true 0 Complete).
Proof. split_and!; by vm_compute. Qed.


(** When the UPDATE after an upload fails, the file is removed all the same:
    the row still says the recording is local, and opening it finds nothing
    although the storage has it. *)
Definition unmarked_world : World := pass_step at_once config fine (pass_step at_once config failing (passes 7 w5)).

Example update_fails : rows unmarked_world !! str "1" = Some (mk_row name false 0 Complete) /\
  open_recording unmarked_world (mk_row name false 0 Complete) = None /\ committed (blob unmarked_world) name = Some text.
Proof. split_and!; by vm_compute. Qed.

(** When a blob cannot be deleted, its row is: nothing knows of it any more. *)
Definition refused : Answer := mk_answer true (upload fine) (fun _ => Failure false false).
Definition purged : World :=
  passes 2 (pass_step at_once config refused (passes 3 (set_now (2 * DAY) (set_place Idle (passes 10 w5))))).

Example blob_orphaned : rows purged = ∅ /\ committed (blob purged) name = Some text.
Proof. split_and!; by vm_compute. Qed.

(** The days are cast to [i32] for the statements: with the largest number of
    days a setting can hold, meant to keep everything, the next pass removes
    every row and the file of a recording made a minute ago. *)
Definition keep_forever : RecordingConfig := get_config (Some (str "true")) (Some (str "4294967295")) (Some (str "local")).

Example everything_expires : let w := Nat.iter 7 (pass_step at_once keep_forever fine) w5 in
  sql_days keep_forever = -1 /\ rows w = ∅ /\ files w = ∅.
Proof. split_and!; by vm_compute. Qed.

(** A purge without any failure: a second recording's retention ends while
    the blobs of the first are deleted. *)
Definition name2 : bytes := str "session-2.guac".
Definition two_uploaded : World :=
  let w := set_place Idle (passes 10 w5) in
  let w := append name2 text (create name2 (mk_row name2 false 60000 Recording) (insert_start (str "2") name2 w)) in
  set_place Idle (passes 10 (set_now 120000 (finish (str "2") name2 None true w))).
Definition slow_purge : World := passes 2 (set_now (DAY + 60001) (passes 4 (set_now (DAY + 1) two_uploaded))).

Example expired_while_purging : (remote <$> rows two_uploaded !! str "2") = Some true /\
  committed (blob slow_purge) name = None /\ rows slow_purge = ∅ /\ committed (blob slow_purge) name2 = Some text.
Proof. split_and!; by vm_compute. Qed.
End StoreExamples.
