(* ===== verification/DmzProxy.v ===== *)
(** * strata-dmz: the link registry and the reverse proxy

    [crates/strata-dmz/src/link_server/registry.rs], [listener.rs],
    [proxy.rs], [ws_proxy.rs] and [operator.rs].  A request handler is a
    program over the effects it has on the registry and on a link ([prog]);
    the DMZ is a transition system in which handlers, connection tasks and
    the operator share one registry.  Module [Headers] is what reaches the
    internal node, [Pump] the streaming of a request body and the bridge of
    a WebSocket, [Dmz] the transition system. *)

From S2P Require Import Prelude Machine Text Net Crates Protocol EdgeHeader EdgeTrust Handshake Link.

Local Open Scope Z_scope.

(** ** http and h2

    The parts of [http::Uri] and [http::HeaderName] the proxy uses, and
    SHA-1. *)
Class ProxyCrates := {
  uri : Type; authority : Type; path_and_query : Type;
  uri_authority : uri -> option authority;
  uri_path_and_query : uri -> option path_and_query;
  parse_authority : bytes -> option authority;
  root_path : path_and_query;
  build_uri : authority -> path_and_query -> option uri;
  build_uri_parts a p u : build_uri a p = Some u -> uri_authority u = Some a /\ uri_path_and_query u = Some p;
  header_name_try_from : bytes -> option bytes;
  sha1 : bytes -> bytes
}.

(** ** The registry ([LinkSessionRegistry])

    [sender] is the h2 handle of a connection. *)

Record LinkSessionInfo : Type := mk_info {
  link_id : bytes; i_cluster_id : bytes; i_node_id : bytes; i_software_version : bytes; since : Z
}.

Abbreviation Entry sender := (LinkSessionInfo * sender)%type.
Abbreviation LinkSessionRegistry sender := (gmap bytes (Entry sender)).

Section registry.
Context {sender : Type}.
Implicit Types r : LinkSessionRegistry sender.

Definition insert_link (info : LinkSessionInfo) (s : sender) r : LinkSessionRegistry sender := <[link_id info := (info, s)]> r.

Definition remove_link (id : bytes) r : LinkSessionRegistry sender := delete id r.

(** [g.values().choose(&mut rand::rng())]: the [draw]-th entry. *)
Definition pick_any (draw : nat) r : option (Entry sender) :=
  let es := snd <$> map_to_list r in es !! (draw mod length es)%nat.

Definition snapshot r : list LinkSessionInfo := (fst ∘ snd) <$> map_to_list r.

Definition any_up r : bool := negb (bool_decide (r = ∅)).

Definition link_count r : nat := size r.
End registry.

(** [handle_connection] after TLS: the configuration of the handshake and the
    entry a peer gets, from the outcome of the handshake. *)
Record LinkServerConfig : Type := mk_link_config {
  l_cluster_id : bytes; active_psk_id : bytes; l_psks : gmap bytes bytes; l_software_version : bytes
}.

Definition handshake_config (cfg : LinkServerConfig) (link_id : bytes) : ServerHandshakeConfig :=
  {| s_psk_id := active_psk_id cfg; s_psks := l_psks cfg; Link.s_link_id := link_id;
     s_software_version := l_software_version cfg |}.

Definition admit_peer (cfg : LinkServerConfig) (link_id : bytes) (now : Z) (r : result ProtocolError LinkPeer) :
    option LinkSessionInfo :=
  match r with
  | Ok peer =>
      if bool_decide (p_cluster_id peer = l_cluster_id cfg)
      then Some (mk_info link_id (p_cluster_id peer) (p_node_id peer) (p_software_version peer) now)
      else None
  | Err _ => None
  end.

(** ** Headers and targets *)

Definition HOP_BY_HOP : list bytes :=
  [ str "connection"; str "proxy-connection"; str "proxy-authenticate"; str "proxy-authorization"; str "keep-alive";
    str "transfer-encoding"; str "te"; str "trailer"; str "upgrade"; str "host" ].

Definition SKIP_FORWARD : list bytes :=
  [ str "host"; str "connection"; str "keep-alive"; str "transfer-encoding"; str "te"; str "trailer";
    str "proxy-connection"; str "upgrade"; str "sec-websocket-key"; str "sec-websocket-version";
    str "sec-websocket-accept"; str "sec-websocket-extensions" ].

Definition eq_ignore_ascii_case (a b : bytes) : bool := bool_decide (to_ascii_lowercase a = to_ascii_lowercase b).

Definition is_hop_by_hop (name : bytes) : bool := existsb (fun h => eq_ignore_ascii_case h name) HOP_BY_HOP.

Definition skip_forward (name : bytes) : bool := existsb (fun s => eq_ignore_ascii_case s name) SKIP_FORWARD.

Definition MAX_PROXY_REQUEST_BODY_BYTES : Z := 512 * 1024 * 1024.

Definition WS_GUID : bytes := str "258EAFA5-E914-47DA-95CA-C5AB0DC85B11".

Section proxy.
Context `{Base64} `{HmacSha256} `{ProxyCrates} {hm hv : Type} `{Http hm hv} {sender : Type}.

(** The names listed in the first [connection] header. *)
Definition connection_listed (h : hm) : list bytes :=
  match header_text h (str "connection") with
  | Some s => omap header_name_try_from (trim <$> split 44 s)
  | None => []
  end.

Definition strip_hop_by_hop (h : hm) : hm :=
  fold_left (fun h n => hm_remove n h) HOP_BY_HOP (fold_left (fun h n => hm_remove n h) (connection_listed h) h).

(** The target of the upstream request: the authority of the request, or
    else of its [Host] header, and its path. *)
Definition upstream_uri (u : uri) (h : hm) : option uri :=
  let a := match uri_authority u with Some a => Some a | None => header_text h (str "host") ≫= parse_authority end in
  a ← a; build_uri a (default root_path (uri_path_and_query u)).

Definition is_websocket_upgrade (h : hm) : bool :=
  default false ((fun s => eq_ignore_ascii_case s (str "websocket")) <$> header_text h (str "upgrade")) &&
  default false ((fun s => existsb (fun tok => eq_ignore_ascii_case (trim tok) (str "upgrade")) (split 44 s))
    <$> header_text h (str "connection")) &&
  negb (bool_decide (hm_get_all h (str "sec-websocket-key") = [])) &&
  default false ((fun s => bool_decide (trim s = str "13")) <$> header_text h (str "sec-websocket-version")).

Definition compute_accept (key : bytes) : bytes := b64_encode STANDARD (sha1 (key ++ WS_GUID)).

(** ** Requests and responses *)

(** A public request without its body; [bodyless] is [body.is_end_stream()]. *)
Record Request : Type := mk_request { r_method : bytes; r_uri : uri; r_headers : hm; r_peer : option IpAddr; bodyless : bool }.

(** What is sent on a link: a plain request, or an Extended CONNECT. *)
Record Upstream : Type := mk_upstream { u_method : bytes; u_uri : uri; u_headers : hm; websocket : bool }.

(** What the link made of it. *)
Inductive outcome : Type :=
| SendFailed
| ResponseFailed
| Responded (status : Z) (headers : list (bytes * hv)).

(** What the public client gets: an answer of the proxy's own (with its
    [x-strata-link] marker, if any), the head of the node's answer, or the
    protocol switch. *)
Inductive Response : Type :=
| Answer (status : Z) (msg : bytes) (marker : option bytes)
| Relayed (status : Z) (headers : list (bytes * hv))
| Switching (accept : bytes) (headers : list (bytes * hv)).

Inductive ProxyError : Type := NoLinkUp | LinkSendUnavailable | UpstreamHandshake | UpstreamProtocol | InvalidRequestUri.

Definition proxy_error_response (e : ProxyError) : Response :=
  let '(status, msg) :=
    match e with
    | NoLinkUp => (503, str "no internal links available")
    | LinkSendUnavailable => (502, str "link session lost during request")
    | UpstreamHandshake => (502, str "upstream link handshake failed")
    | UpstreamProtocol => (502, str "upstream link protocol error")
    | InvalidRequestUri => (400, str "invalid request uri")
    end in
  Answer status msg (Some (str "dmz-proxy")).

Inductive WsProxyError : Type := WsNoLinkUp | WsLinkSendUnavailable | WsUpstreamHandshake | WsUpstreamRejected (status : Z) | WsInvalidRequest.

Definition ws_error_response (e : WsProxyError) : Response :=
  let '(status, msg) :=
    match e with
    | WsNoLinkUp => (503, str "no internal links available")
    | WsLinkSendUnavailable => (502, str "link session lost during upgrade")
    | WsUpstreamHandshake => (502, str "upstream link upgrade failed")
    | WsUpstreamRejected s =>
        (s, if s =? 401 then str "upstream rejected websocket: unauthorized"
            else if s =? 403 then str "upstream rejected websocket: forbidden"
            else if s =? 404 then str "upstream rejected websocket: not found"
            else str "upstream rejected websocket upgrade")
    | WsInvalidRequest => (400, str "invalid websocket upgrade request")
    end in
  Answer status msg (Some (str "dmz-proxy-ws")).

(** ** Handlers as programs *)

Inductive prog (A : Type) : Type :=
| Return (a : A)
| PickAny (k : option (Entry sender) -> prog A)
| AwaitReady (s : sender) (k : bool -> prog A)
| Evict (id : bytes) (k : prog A)
| Exchange (s : sender) (up : Upstream) (k : outcome -> prog A).
Arguments Return {A} _. Arguments PickAny {A} _. Arguments AwaitReady {A} _ _.
Arguments Evict {A} _ _. Arguments Exchange {A} _ _ _.

Fixpoint prog_map {A B} (f : A -> B) (p : prog A) : prog B :=
  match p with
  | Return a => Return (f a)
  | PickAny k => PickAny (fun e => prog_map f (k e))
  | AwaitReady s k => AwaitReady s (fun b => prog_map f (k b))
  | Evict id k => Evict id (prog_map f k)
  | Exchange s up k => Exchange s up (fun o => prog_map f (k o))
  end.

Record ProxyState : Type := mk_proxy { signer : HmacEdgeSigner; max_request_body : Z }.

(** The loop of [proxy] that looks for a ready sender: [n] picks are left. *)
Fixpoint pick_ready {A} (n : nat) (last_err : option ProxyError) (k : result ProxyError (Entry sender) -> prog A) : prog A :=
  match n with
  | O => k (Err (default LinkSendUnavailable last_err))
  | S m =>
      PickAny (fun picked =>
        match picked with
        | None => k (Err NoLinkUp)
        | Some (info, s) =>
            AwaitReady s (fun ready =>
              if ready then k (Ok (info, s))
              else Evict (link_id info) (pick_ready m (Some LinkSendUnavailable) k))
        end)
  end.

(** [Content-Length] as the proxy reads it. *)
Definition declared_length (h : hm) : option Z := header_text h (str "content-length") ≫= parse_u64.

(** [proxy].  [now] and [uuid] are the signer's clock and random draw; that
    signing does not panic is [sign_request_total]. *)
Definition proxy (st : ProxyState) (now : Z) (uuid : bytes) (req : Request) : prog (result ProxyError Response) :=
  match upstream_uri (r_uri req) (r_headers req) with
  | None => Return (Err InvalidRequestUri)
  | Some target =>
      match sign_request (signer st) (r_peer req) now uuid (strip_hop_by_hop (r_headers req)) with
      | None => Return (Ok (Answer 500 [] None))
      | Some headers =>
          if default false ((fun n => max_request_body st <? n) <$> declared_length (r_headers req))
          then Return (Ok (Answer 413 (str "request body too large") None))
          else pick_ready 2 None (fun chosen =>
            match chosen with
            | Err e => Return (Err e)
            | Ok (info, s) =>
                Exchange s (mk_upstream (r_method req) target headers false) (fun o =>
                  match o with
                  | SendFailed => Evict (link_id info) (Return (Err LinkSendUnavailable))
                  | ResponseFailed => Evict (link_id info) (Return (Err UpstreamHandshake))
                  | Responded status hs =>
                      Return (Ok (Relayed status (filter (fun e => is_hop_by_hop (fst e) = false) hs)))
                  end)
            end)
      end
  end.

(** The loop of [proxy_websocket]: an Extended CONNECT on a link, [n]
    attempts left. *)
Fixpoint connect {A} (n : nat) (last_err : option WsProxyError) (up : Upstream)
    (k : result WsProxyError (list (bytes * hv)) -> prog A) : prog A :=
  match n with
  | O => k (Err (default WsLinkSendUnavailable last_err))
  | S m =>
      PickAny (fun picked =>
        match picked with
        | None => k (Err WsNoLinkUp)
        | Some (info, s) =>
            AwaitReady s (fun ready =>
              if ready
              then Exchange s up (fun o =>
                match o with
                | SendFailed => Evict (link_id info) (connect m (Some WsLinkSendUnavailable) up k)
                | ResponseFailed => Evict (link_id info) (connect m (Some WsUpstreamHandshake) up k)
                | Responded status hs => if status =? 200 then k (Ok hs) else k (Err (WsUpstreamRejected status))
                end)
              else Evict (link_id info) (connect m (Some WsLinkSendUnavailable) up k))
        end)
  end.

(** [proxy_websocket], up to the spawned bridge. *)
Definition proxy_websocket (st : ProxyState) (now : Z) (uuid : bytes) (req : Request) : prog (result WsProxyError Response) :=
  match trim <$> header_text (r_headers req) (str "sec-websocket-key") with
  | None => Return (Err WsInvalidRequest)
  | Some client_key =>
      match upstream_uri (r_uri req) (r_headers req) with
      | None => Return (Err WsInvalidRequest)
      | Some target =>
          match sign_request (signer st) (r_peer req) now uuid (strip_headers skip_forward (r_headers req)) with
          | None => Return (Ok (Answer 500 [] None))
          | Some headers =>
              connect 2 None (mk_upstream (str "CONNECT") target headers true) (fun r =>
                match r with
                | Err e => Return (Err e)
                | Ok hs =>
                    Return (Ok (Switching (compute_accept client_key)
                      (filter (fun e => fst e ∈ [str "sec-websocket-protocol"; str "sec-websocket-extensions"]) hs)))
                end)
          end
      end
  end.

Definition proxy_handler (st : ProxyState) (now : Z) (uuid : bytes) (req : Request) : prog Response :=
  if is_websocket_upgrade (r_headers req)
  then prog_map (fun r => match r with Ok resp => resp | Err e => ws_error_response e end) (proxy_websocket st now uuid req)
  else prog_map (fun r => match r with Ok resp => resp | Err e => proxy_error_response e end) (proxy st now uuid req).

(** ** The operator's requests *)

(** [require_bearer]. *)
Definition bearer_ok (token : bytes) (h : hm) : bool :=
  match header_text h (str "authorization") with
  | Some s => if starts_with (str "Bearer ") s then bool_decide (drop 7 s = token) else false
  | None => false
  end.

(** [disconnect_link]: whether the link existed, and the registry. *)
Definition disconnect_link (id : bytes) (r : LinkSessionRegistry sender) : bool * LinkSessionRegistry sender :=
  (bool_decide (id ∈ link_id <$> snapshot r), remove_link id r).
End proxy.
Arguments Return {_ _ _ _ A} _.
Arguments PickAny {_ _ _ _ A} _.
Arguments AwaitReady {_ _ _ _ A} _ _.
Arguments Evict {_ _ _ _ A} _ _.
Arguments Exchange {_ _ _ _ A} _ _ _.

(** ** The request body on its way upstream *)

Module Pump.

Inductive PumpFail : Type := BodyReadError | CapExceeded | UpstreamGone.

Inductive Reason : Type := INTERNAL_ERROR | CANCEL.

(** What the pump does to the h2 stream. *)
Inductive frame : Type :=
| Data (bs : bytes)
| EndStream
| Reset (r : Reason).

(** What [poll_capacity] answers, with the result of the [send_data] that
    follows a grant. *)
Inductive grant : Type :=
| Capacity (n : nat) (sent : bool)
| Refused.

Inductive send_result : Type :=
| Sent (answers : list grant)
| Gone
| Starved.

(** The loop over one chunk: it ends [Starved] while the peer grants nothing
    more. *)
Fixpoint send_chunk (remaining : bytes) (answers : list grant) : list frame * send_result :=
  match remaining, answers with
  | [], _ => ([], Sent answers)
  | _, [] => ([], Starved)
  | _, Capacity granted sent :: answers =>
      if sent
      then let '(fs, r) := send_chunk (drop granted remaining) answers in (Data (take granted remaining) :: fs, r)
      else ([], Gone)
  | _, Refused :: _ => ([], Gone)
  end.

(** [pump_request_body_upstream]: the chunks the public client sends ([None]
    a read error), whether the body has ended after them, and whether the
    final empty frame can be sent.  No outcome yet means that the pump still
    waits for the client or for capacity. *)
Fixpoint pump (cap : Z) (ended eos_ok : bool) (total : Z) (body : list (option bytes)) (answers : list grant) :
    list frame * option (result PumpFail unit) :=
  match body with
  | [] =>
      if ended then if eos_ok then ([EndStream], Some (Ok tt)) else ([], Some (Err UpstreamGone))
      else ([], None)
  | None :: _ => ([Reset INTERNAL_ERROR], Some (Err BodyReadError))
  | Some chunk :: body =>
      if cap <? Z.min (total + Z.of_nat (length chunk)) u64_max then ([Reset CANCEL], Some (Err CapExceeded))
      else
        let '(fs, r) := send_chunk chunk answers in
        match r with
        | Sent answers =>
            let '(fs', o) := pump cap ended eos_ok (Z.min (total + Z.of_nat (length chunk)) u64_max) body answers in
            (fs ++ fs', o)
        | Gone => (fs, Some (Err UpstreamGone))
        | Starved => (fs, None)
        end
  end.

Definition data (fs : list frame) : bytes := concat ((fun f => match f with Data bs => bs | _ => [] end) <$> fs).

Definition plain (f : frame) : bool := match f with Data _ => true | _ => false end.

(** The body up to its first error. *)
Fixpoint readable (body : list (option bytes)) : bytes :=
  match body with Some chunk :: body => chunk ++ readable body | _ => [] end.

Lemma data_app fs fs' : data (fs ++ fs') = data fs ++ data fs'.
Proof. unfold data. by rewrite fmap_app, concat_app. Qed.

Lemma send_chunk_spec answers : forall chunk fs r,
  send_chunk chunk answers = (fs, r) ->
  Forall (fun f => plain f = true) fs /\
  match r with Sent _ => data fs = chunk | _ => data fs `prefix_of` chunk end.
Proof.
  induction answers as [|[granted sent|] answers IH]; intros [|b chunk] fs r; cbn [send_chunk]; intros E.
  1-3, 5: injection E as <- <-; split; [constructor|try done; apply prefix_nil].
  - destruct sent; [|injection E as <- <-; split; [constructor|apply prefix_nil]].
    destruct (send_chunk (drop granted (b :: chunk)) answers) as [fs' r'] eqn:Es. injection E as <- <-.
    apply IH in Es as [Hp Hd]. split; [by constructor|]. change (data (Data ?x :: fs')) with (x ++ data fs').
    pose proof (take_drop granted (b :: chunk)) as Ht. destruct r'; [by rewrite Hd| |]; rewrite <- Ht at 2; by apply prefix_app.
  - injection E as <- <-. split; [constructor|apply prefix_nil].
Qed.

(** How a pump may end. *)
Definition ending (cap : Z) (ended : bool) (total : Z) (body : list (option bytes)) (fs : list frame)
    (o : option (result PumpFail unit)) : Prop :=
  match o with
  | Some (Ok _) =>
      exists ds, fs = ds ++ [EndStream] /\ Forall (fun f => plain f = true) ds /\ data ds = readable body /\
        ended = true /\ Forall (fun c => c <> None) body /\ total + Z.of_nat (length (readable body)) <= cap
  | Some (Err BodyReadError) =>
      exists ds, fs = ds ++ [Reset INTERNAL_ERROR] /\ Forall (fun f => plain f = true) ds /\ data ds = readable body /\ None ∈ body
  | Some (Err CapExceeded) =>
      exists ds, fs = ds ++ [Reset CANCEL] /\ Forall (fun f => plain f = true) ds /\
        cap < total + Z.of_nat (length (readable body))
  | Some (Err UpstreamGone) | None => Forall (fun f => plain f = true) fs
  end.

Lemma ending_step cap ended total chunk body cs fs o :
  Forall (fun f => plain f = true) cs -> data cs = chunk ->
  ending cap ended (total + Z.of_nat (length chunk)) body fs o -> ending cap ended total (Some chunk :: body) (cs ++ fs) o.
Proof.
  intros Hc Hd. assert (forall z, total + Z.of_nat (length (chunk ++ z : bytes)) = total + Z.of_nat (length chunk) + Z.of_nat (length z)) as Hl
    by (intros; rewrite length_app; lia).
  unfold ending. cbn [readable]. rewrite Hl. destruct o as [[[]|[]]|].
  - intros (ds & -> & Hp & Hr & He & Hb & Ht). exists (cs ++ ds). rewrite data_app, Hd, Hr, app_assoc.
    split_and!; [done|by apply Forall_app|done|done|by constructor|done].
  - intros (ds & -> & Hp & Hr & He). exists (cs ++ ds). rewrite data_app, Hd, Hr, app_assoc.
    split_and!; [done|by apply Forall_app|done|by right].
  - intros (ds & -> & Hp & Ht). exists (cs ++ ds). rewrite app_assoc. split_and!; [done|by apply Forall_app|done].
  - intros Hp. by apply Forall_app.
  - intros Hp. by apply Forall_app.
Qed.

Lemma pump_spec cap ended eos_ok body : forall total answers fs o,
  cap < u64_max -> 0 <= total <= cap ->
  pump cap ended eos_ok total body answers = (fs, o) ->
  data fs `prefix_of` readable body /\ total + Z.of_nat (length (data fs)) <= cap /\ ending cap ended total body fs o.
Proof.
  induction body as [|[chunk|] body IH]; intros total answers fs o Hcap Ht; cbn [pump readable].
  - intros E. destruct ended; [destruct eos_ok|]; injection E as <- <-; cbn; (split; [apply prefix_nil|split; [lia|]]); [|constructor..].
    exists []. cbn. split_and!; try done; [constructor..|lia].
  - destruct (cap <? _) eqn:Ec; b2p.
    { intros [= <- <-]. split; [apply prefix_nil|]. split; [cbn; lia|]. exists []. split_and!; [done|constructor|].
      cbn [readable]. rewrite length_app. lia. }
    destruct (send_chunk chunk answers) as [cs r] eqn:Es. apply send_chunk_spec in Es as [Hp Hd].
    assert (total + Z.of_nat (length chunk) <= cap) as Hle by lia.
    destruct r as [answers'| |].
    + rewrite Z.min_l by lia. destruct (pump _ _ _ _ _ _) as [fs' o'] eqn:Ep. intros [= <- <-].
      apply IH in Ep as (Hpre & Hlen & Hend); [|done|lia]. rewrite data_app, Hd, length_app. split_and!.
      * by apply prefix_app.
      * lia.
      * by apply ending_step.
    + intros [= <- <-]. apply prefix_length in Hd as Hl. split_and!; [by apply prefix_app_r|lia|done].
    + intros [= <- <-]. apply prefix_length in Hd as Hl. split_and!; [by apply prefix_app_r|lia|done].
  - intros [= <- <-]. split; [apply prefix_nil|]. split; [cbn; lia|]. exists []. split_and!; [done|constructor|done|left].
Qed.

(** A peer that keeps granting: at least one byte each time, and the data is
    taken. *)
Definition granting (g : grant) : Prop := match g with Capacity n sent => (0 < n)%nat /\ sent = true | Refused => False end.

Lemma send_chunk_granted answers : forall chunk,
  Forall granting answers -> (length chunk <= length answers)%nat ->
  exists fs rest, send_chunk chunk answers = (fs, Sent rest) /\ Forall granting rest /\
    (length answers <= length chunk + length rest)%nat.
Proof.
  induction answers as [|g answers IH]; intros [|b chunk] Hg Hl; cbn [send_chunk].
  - by exists [], [].
  - cbn in Hl. lia.
  - exists [], (g :: answers). split_and!; [done|done|cbn; lia].
  - apply Forall_cons in Hg as [Hn Hg]. destruct g as [n sent|]; [|done]. destruct Hn as [Hn ->]. cbn [length] in Hl.
    destruct (IH (drop n (b :: chunk)) Hg) as (fs & rest & -> & Hr & Hlen); [rewrite length_drop; cbn; lia|].
    rewrite length_drop in Hlen. cbn [length] in Hlen |- *. eexists _, rest. split_and!; [done|done|lia].
Qed.

(** What becomes of a body on a link that takes it. *)
Definition verdict (cap : Z) (body : list (option bytes)) : result PumpFail unit :=
  if cap <? Z.of_nat (length (readable body)) then Err CapExceeded
  else if bool_decide (None ∈ body) then Err BodyReadError else Ok tt.

Lemma pump_decides cap body : forall total answers,
  cap < u64_max -> 0 <= total <= cap -> Forall granting answers -> (length (readable body) <= length answers)%nat ->
  snd (pump cap true true total body answers) = Some (verdict (cap - total) body).
Proof.
  unfold verdict. induction body as [|[chunk|] body IH]; intros total answers Hcap Ht Hg Hl; cbn [pump readable] in *.
  - cbn [length]. by take_false (cap - total <? Z.of_nat 0).
  - rewrite length_app in Hl |- *. destruct (cap <? _) eqn:Ec; b2p.
    { by take_true (cap - total <? Z.of_nat (length chunk + length (readable body))). }
    assert (total + Z.of_nat (length chunk) <= cap) as Hle by lia.
    destruct (send_chunk_granted answers chunk Hg) as (fs & rest & -> & Hr & Hlen); [lia|]. rewrite Z.min_l by lia.
    specialize (IH (total + Z.of_nat (length chunk)) rest Hcap). destruct (pump _ _ _ _ _ _) as [fs' o']. cbn [snd] in *.
    rewrite IH by first [lia|done]. do 2 f_equal.
    rewrite (bool_decide_ext (None ∈ Some chunk :: body) (None ∈ body)) by (rewrite elem_of_cons; naive_solver).
    replace (cap - (total + Z.of_nat (length chunk)) <? Z.of_nat (length (readable body)))
      with (cap - total <? Z.of_nat (length chunk + length (readable body))); [done|]. apply eq_iff_eq_true. rewrite !Z.ltb_lt. lia.
  - cbn [length]. take_false (cap - total <? Z.of_nat 0). rewrite bool_decide_true by left. done.
Qed.

Lemma plain_marks ds : Forall (fun f => plain f = true) ds -> (EndStream ∉ ds) /\ forall r, Reset r ∉ ds.
Proof. rewrite Forall_forall. intros Hd. split; [|intros r]; intros Hin; by apply Hd in Hin. Qed.

Lemma ending_marks cap ended total body fs o :
  ending cap ended total body fs o ->
  (EndStream ∈ fs <-> o = Some (Ok tt)) /\
  ((exists r, Reset r ∈ fs) <-> o = Some (Err BodyReadError) \/ o = Some (Err CapExceeded)).
Proof.
  unfold ending. intros He. destruct o as [[[]|[]]|].
  1-3: destruct He as (ds & -> & [H1 H2]%plain_marks & _); setoid_rewrite elem_of_app; setoid_rewrite list_elem_of_singleton; naive_solver.
  1-2: apply plain_marks in He as [H1 H2]; naive_solver.
Qed.

(** C38: the body a link carries is what the public client sent.  Whatever the
    client sends and however the node grants capacity, the data frames of a
    stream are a beginning of the body and never more than the cap; the
    stream is ended exactly for a body that was read to its end within the
    cap, and then it carried all of it; a body that fails or grows too large
    is cut off by a reset.  A node that keeps granting gets the verdict the
    body deserves. *)
Theorem body_streamed cap ended eos_ok body answers fs o :
  0 <= cap < u64_max -> pump cap ended eos_ok 0 body answers = (fs, o) ->
  data fs `prefix_of` readable body /\ Z.of_nat (length (data fs)) <= cap /\
  (EndStream ∈ fs <-> o = Some (Ok tt)) /\
  (o = Some (Ok tt) -> data fs = readable body /\ ended = true /\ None ∉ body) /\
  ((exists r, Reset r ∈ fs) <-> o = Some (Err BodyReadError) \/ o = Some (Err CapExceeded)) /\
  (ended = true -> eos_ok = true -> Forall granting answers -> (length (readable body) <= length answers)%nat ->
    o = Some (verdict cap body)).
Proof.
  intros Hcap Hp.
  assert (ended = true -> eos_ok = true -> Forall granting answers -> (length (readable body) <= length answers)%nat ->
    o = Some (verdict cap body)) as Hv.
  { intros -> -> Hg Hl. pose proof (pump_decides cap body 0 answers) as Hd. rewrite Hp, Z.sub_0_r in Hd. apply Hd; [lia|lia|done|done]. }
  apply pump_spec in Hp as (Hpre & Hlen & Hend); [|lia|lia].
  destruct (ending_marks _ _ _ _ _ _ Hend) as [He Hr]. split; [done|]. split; [lia|]. split; [done|]. split; [|by split].
  intros ->. destruct Hend as (ds & -> & _ & Hd & He' & Hb & _). rewrite data_app, Hd, app_nil_r. split_and!; [done|done|].
  rewrite Forall_forall in Hb. intros Hin. by apply Hb in Hin.
Qed.
End Pump.

(** ** The bridge of an upgraded WebSocket ([ws_proxy::pump]) *)

Module Bridge.

Definition MAX_WS_RELAY_CHUNK_BYTES : Z := 8 * 1024 * 1024.

Inductive read : Type := Bytes (bs : bytes) | Eof | ReadError | Idle.

(** What either side does next: a read from the public socket with the result
    of sending it on, or a read from the link with how much of it could be
    written before the write failed ([None]: all of it). *)
Inductive event : Type :=
| FromPublic (r : read) (sent : bool)
| FromLink (r : read) (failed_after : option nat).

Inductive BridgeError : Type := PublicRead | PublicIdle | LinkSend | LinkRead | LinkIdle | Oversized | PublicWrite.

Record bridge : Type := mk_bridge { to_link : bytes; to_public : bytes; over : option (result BridgeError unit) }.

Definition start : bridge := mk_bridge [] [] None.

Definition bridge_step (b : bridge) (e : event) : bridge :=
  let close r := mk_bridge (to_link b) (to_public b) (Some r) in
  match over b, e with
  | Some _, _ => b
  | None, FromPublic (Bytes chunk) sent =>
      if bool_decide (chunk = []) then close (Ok tt)
      else if sent then mk_bridge (to_link b ++ chunk) (to_public b) None else close (Err LinkSend)
  | None, FromPublic Eof _ => close (Ok tt)
  | None, FromPublic ReadError _ => close (Err PublicRead)
  | None, FromPublic Idle _ => close (Err PublicIdle)
  | None, FromLink (Bytes chunk) failed_after =>
      if bool_decide (chunk = []) then b
      else if MAX_WS_RELAY_CHUNK_BYTES <? Z.of_nat (length chunk) then close (Err Oversized)
      else match failed_after with
           | None => mk_bridge (to_link b) (to_public b ++ chunk) None
           | Some n => mk_bridge (to_link b) (to_public b ++ take n chunk) (Some (Err PublicWrite))
           end
  | None, FromLink Eof _ => close (Ok tt)
  | None, FromLink ReadError _ => close (Err LinkRead)
  | None, FromLink Idle _ => close (Err LinkIdle)
  end.

Definition run (es : list event) : bridge := fold_left bridge_step es start.

Definition public_bytes (e : event) : bytes := match e with FromPublic (Bytes bs) _ => bs | _ => [] end.
Definition link_bytes (e : event) : bytes := match e with FromLink (Bytes bs) _ => bs | _ => [] end.

Lemma bridge_over es b : over b <> None -> fold_left bridge_step es b = b.
Proof.
  induction es as [|e es IH]; intros Hb; [done|]. cbn [fold_left]. replace (bridge_step b e) with b; [by apply IH|].
  unfold bridge_step. by destruct (over b).
Qed.

(** The bridge is transparent: what either side receives is a beginning of
    what the other sent, all of it as long as the bridge stands. *)
Lemma bridge_faithful es : forall b,
  over b = None ->
  let b' := fold_left bridge_step es b in
  to_link b' `prefix_of` to_link b ++ concat (public_bytes <$> es) /\
  to_public b' `prefix_of` to_public b ++ concat (link_bytes <$> es) /\
  (over b' = None -> to_link b' = to_link b ++ concat (public_bytes <$> es) /\ to_public b' = to_public b ++ concat (link_bytes <$> es)).
Proof.
  induction es as [|e es IH]; intros b Hb; cbn [fold_left fmap list_fmap concat]; [by rewrite !app_nil_r|].
  destruct (over (bridge_step b e)) as [r|] eqn:Ho.
  - rewrite bridge_over by by rewrite Ho. rewrite Ho. unfold bridge_step in *. rewrite Hb in *.
    destruct e as [[chunk| | |] sent|[chunk| | |] [n|]]; cbn [public_bytes link_bytes] in *;
      repeat case_match; cbn [to_link to_public over] in *; try discriminate;
      (split; [by apply prefix_app_r|split; [|done]]); try by apply prefix_app_r.
    apply prefix_app. exists (drop n chunk ++ concat (link_bytes <$> es)). by rewrite app_assoc, take_drop.
  - pose proof (IH _ Ho) as Hi. cbv zeta in Hi |- *. revert Hi. set (b' := fold_left _ _ _). clearbody b'.
    assert (to_link (bridge_step b e) = to_link b ++ public_bytes e /\ to_public (bridge_step b e) = to_public b ++ link_bytes e) as [-> ->].
    { unfold bridge_step in *. rewrite Hb in *.
      destruct e as [[chunk| | |] sent|[chunk| | |] [n|]]; cbn [public_bytes link_bytes] in *;
        repeat case_match; cbn [to_link to_public over] in *; try discriminate; b2p; subst; by rewrite ?app_nil_r. }
    by rewrite <- !app_assoc.
Qed.
End Bridge.

(** ** What reaches the internal node *)

Module Headers.
Section headers.
Context `{Base64} `{HmacSha256} `{ProxyCrates} {hm hv : Type} `{Http hm hv} {sender : Type}.
Implicit Types (h : hm) (req : Request (hm := hm)).

Abbreviation program := (prog (hm := hm) (hv := hv) (sender := sender)).

(** Every exchange of a handler, whatever it is answered, satisfies [P]. *)
Fixpoint sends_only {A} (P : Upstream -> Prop) (p : program A) : Prop :=
  match p with
  | Return _ => True
  | PickAny k => forall e, sends_only P (k e)
  | AwaitReady _ k => forall b, sends_only P (k b)
  | Evict _ k => sends_only P k
  | Exchange _ up k => P up /\ forall o, sends_only P (k o)
  end.

Lemma sends_only_weaken {A} (P Q : Upstream -> Prop) (p : program A) :
  (forall up, P up -> Q up) -> sends_only P p -> sends_only Q p.
Proof. intros Hpq. induction p as [a|k IH|s k IH|id p IH|s up k IH]; cbn; try done; eauto. intros [? ?]. eauto. Qed.

Lemma sends_only_map {A B} (f : A -> B) P (p : program A) : sends_only P p -> sends_only P (prog_map f p).
Proof. induction p as [a|k IH|s k IH|id p IH|s up k IH]; cbn; try done; eauto. intros [? ?]. eauto. Qed.

Lemma sends_only_pick {A} P n last (k : _ -> program A) : (forall r, sends_only P (k r)) -> sends_only P (pick_ready n last k).
Proof. intros Hk. revert last. induction n as [|n IH]; intros last; cbn; [done|]. intros [[info s]|]; cbn; [|done]. intros []; [done|]. apply IH. Qed.

Lemma sends_only_connect {A} P n last up (k : _ -> program A) :
  P up -> (forall r, sends_only P (k r)) -> sends_only P (connect n last up k).
Proof.
  intros Hu Hk. revert last. induction n as [|n IH]; intros last; cbn; [done|]. intros [[info s]|]; cbn; [|done].
  intros []; [|apply IH]. split; [done|]. intros [| |status hs]; cbn; [apply IH|apply IH|by destruct (_ =? _)].
Qed.

(** The headers a handler removes from the request before it signs it. *)
Definition dropped h (n : bytes) : bool :=
  if is_websocket_upgrade h then skip_forward n else bool_decide (n ∈ HOP_BY_HOP) || bool_decide (n ∈ connection_listed h).

Definition relayed h : hm :=
  if is_websocket_upgrade h then strip_headers skip_forward h else strip_hop_by_hop h.

Lemma relayed_get h n : hm_get_all (relayed h) n = if dropped h n then [] else hm_get_all h n.
Proof.
  unfold relayed, dropped. destruct (is_websocket_upgrade h); [apply strip_headers_get|].
  unfold strip_hop_by_hop. rewrite !remove_all_get. by destruct (bool_decide (n ∈ HOP_BY_HOP)), (bool_decide (n ∈ connection_listed h)).
Qed.

Definition target_of req (u : uri) : Prop :=
  uri_path_and_query u = Some (default root_path (uri_path_and_query (r_uri req))) /\
  exists a, uri_authority u = Some a /\
    (uri_authority (r_uri req) = Some a \/
     uri_authority (r_uri req) = None /\ header_text (r_headers req) (str "host") ≫= parse_authority = Some a).

Lemma upstream_uri_spec req u : upstream_uri (r_uri req) (r_headers req) = Some u -> target_of req u.
Proof.
  unfold upstream_uri, target_of. intros E. apply bind_Some in E as (a & Ha & [Hau Hpq]%build_uri_parts).
  split; [done|]. exists a. split; [done|]. destruct (uri_authority (r_uri req)); [by left|by right].
Qed.

(** What a handler sends for a request. *)
Record sent_for (st : ProxyState) (now : Z) (uuid : bytes) req (up : Upstream) : Prop := {
  sent_kind : websocket up = is_websocket_upgrade (r_headers req);
  sent_method : u_method up = if is_websocket_upgrade (r_headers req) then str "CONNECT" else r_method req;
  sent_target : target_of req (u_uri up);
  sent_headers : sign_request (signer st) (r_peer req) now uuid (relayed (r_headers req)) = Some (u_headers up);
  sent_length n : websocket up = false -> declared_length (r_headers req) = Some n -> n <= max_request_body st
}.

Lemma handler_sends st now uuid req : sends_only (sent_for st now uuid req) (proxy_handler st now uuid req : program Response).
Proof.
  assert (forall n, default false ((fun n => max_request_body st <? n) <$> declared_length (r_headers req)) = false ->
    declared_length (r_headers req) = Some n -> n <= max_request_body st) as Hlen by (intros n Hd E; rewrite E in Hd; cbn in Hd; b2p; lia).
  unfold proxy_handler. destruct (is_websocket_upgrade (r_headers req)) eqn:Ew; apply sends_only_map; [unfold proxy_websocket|unfold proxy];
    repeat (case_match; [|done]); try (case_match; [done|]); [apply sends_only_connect|apply sends_only_pick].
  - split; cbn; rewrite ?Ew; [done|done|by apply upstream_uri_spec|unfold relayed; by rewrite Ew|done].
  - by intros [].
  - intros [[info s]|e]; [|done]. split; [|by intros []].
    split; cbn; rewrite ?Ew; [done|done|by apply upstream_uri_spec|unfold relayed; by rewrite Ew|by auto].
Qed.

End headers.
End Headers.

(** ** The DMZ as a transition system *)

Module Dmz.
Import Headers.

(** What an environment answers to one effect of a handler. *)
Inductive answer {hv : Type} : Type :=
| Drawn (draw : nat)
| IsReady (ready : bool)
| Removed
| Outcome (o : outcome (hv := hv)).
Arguments answer : clear implicits.

(** The accepted connection of a link as the DMZ saw it: its nonce and clock,
    how long the peer took, the writes, and the bytes of the peer. *)
Record Transcript : Type := mk_transcript {
  t_nonce : bytes; t_now : Z; t_deadline : nat; t_writes : list WriteIO; t_inbox : bytes
}.

Section dmz.
Context `{Base64} `{HmacSha256} `{Json AuthHello} `{Json AuthChallenge} `{Json AuthResponse} `{Json AuthOutcome}.
Context `{ProxyCrates} {hm hv : Type} `{Http hm hv}.
Variables (cfg : LinkServerConfig) (st : ProxyState).

Abbreviation handler := (prog (hm := hm) (hv := hv) (sender := bytes) (Response (hv := hv))).
Abbreviation sending := (bytes * Upstream (hm := hm))%type.

(** The h2 handle of a link is written as the link's id. *)
Definition effect (a : answer hv) (r : LinkSessionRegistry bytes) (p : handler) :
    option (handler * LinkSessionRegistry bytes * list sending) :=
  match p, a with
  | PickAny k, Drawn draw => Some (k (pick_any draw r), r, [])
  | AwaitReady _ k, IsReady ready => Some (k ready, r, [])
  | Evict id k, Removed => Some (k, remove_link id r, [])
  | Exchange s up k, Outcome o => Some (k o, r, [(s, up)])
  | _, _ => None
  end.

(** [links] are the connection tasks, with whether their h2 connection still
    runs; [peers] remembers every link ever admitted and [sent] every request
    put on one. *)
Record World : Type := mk_world {
  registry : LinkSessionRegistry bytes; links : gmap bytes bool; tasks : gmap nat handler;
  peers : gmap bytes Transcript; sent : list sending
}.

(** h2 refuses a request, or the readiness of a handle, only once the
    connection is gone. *)
Definition permitted (w : World) (p : handler) (a : answer hv) : Prop :=
  match p, a with
  | AwaitReady s _, IsReady false => links w !! s <> Some true
  | Exchange s _ _, Outcome SendFailed => links w !! s <> Some true
  | _, _ => True
  end.

Definition handshake (id : bytes) (t : Transcript) : result ProtocolError LinkPeer :=
  fst (exec (t_deadline t) (server_handshake (handshake_config cfg id) (t_nonce t) (t_now t)) (t_writes t) (t_inbox t) []).

(** [handle_connection] from the handshake to the registration, ... *)
Definition register (id : bytes) (t : Transcript) (info : LinkSessionInfo) (w : World) : World :=
  mk_world (insert_link info id (registry w)) (<[id := true]> (links w)) (tasks w) (<[id := t]> (peers w)) (sent w).

(** ... the end of the connection (or the shutdown), and what follows it. *)
Definition hang_up (id : bytes) (w : World) : World :=
  mk_world (registry w) (<[id := false]> (links w)) (tasks w) (peers w) (sent w).

Definition unregister (id : bytes) (w : World) : World :=
  mk_world (remove_link id (registry w)) (delete id (links w)) (tasks w) (peers w) (sent w).

Definition set_task (t : nat) (p : option handler) (r : LinkSessionRegistry bytes) (l : list sending) (w : World) : World :=
  mk_world r (links w) (partial_alter (fun _ => p) t (tasks w)) (peers w) (sent w ++ l).

Definition operator_disconnect (id : bytes) (w : World) : World :=
  mk_world (snd (disconnect_link id (registry w))) (links w) (tasks w) (peers w) (sent w).

Inductive step : World -> World -> Prop :=
| step_register w id t since info : peers w !! id = None -> admit_peer cfg id since (handshake id t) = Some info -> step w (register id t info w)
| step_hang_up w id : links w !! id = Some true -> step w (hang_up id w)
| step_unregister w id : links w !! id = Some false -> step w (unregister id w)
| step_request w t now uuid req : tasks w !! t = None -> step w (set_task t (Some (proxy_handler st now uuid req)) (registry w) [] w)
| step_effect w t p a p' r l :
    tasks w !! t = Some p -> permitted w p a -> effect a (registry w) p = Some (p', r, l) -> step w (set_task t (Some p') r l w)
| step_finish w t p : tasks w !! t = Some p -> step w (set_task t None (registry w) [] w)
| step_operator w id : step w (operator_disconnect id w).

Definition start : World := mk_world ∅ ∅ ∅ ∅ [].

Definition reachable : World -> Prop := rtc step start.

(** ** Which links carry requests *)

(** Every handle a handler uses it was given by a pick. *)
Fixpoint uses {A} (known : bytes -> Prop) (p : prog (hm := hm) (hv := hv) (sender := bytes) A) : Prop :=
  match p with
  | Return _ => True
  | PickAny k => forall e, match e with Some (_, s) => known s | None => True end -> uses known (k e)
  | AwaitReady _ k => forall b, uses known (k b)
  | Evict _ k => uses known k
  | Exchange s _ k => known s /\ forall o, uses known (k o)
  end.

Lemma uses_map {A B} (f : A -> B) known p : uses known p -> uses known (prog_map f p).
Proof. induction p as [a|k IH|s k IH|id p IH|s up k IH]; cbn; try done; eauto. intros [? ?]. eauto. Qed.

Lemma uses_pick {A} known n last (k : _ -> prog (hm := hm) (hv := hv) A) :
  (forall r, (forall e, r = Ok e -> known (snd e)) -> uses known (k r)) -> uses known (pick_ready n last k).
Proof.
  intros Hk. revert last. induction n as [|n IH]; intros last; cbn; [by apply Hk|]. intros [[info s]|]; cbn; [|by intros _; apply Hk].
  intros Hs []; [|by apply IH]. apply Hk. by intros e [= <-].
Qed.

Lemma uses_connect {A} known n last up (k : _ -> prog (hm := hm) (hv := hv) A) :
  (forall r, uses known (k r)) -> uses known (connect n last up k).
Proof.
  intros Hk. revert last. induction n as [|n IH]; intros last; cbn; [done|]. intros [[info s]|]; cbn; [|done].
  intros Hs []; [|apply IH]. split; [done|]. intros [| |status hs]; cbn; [apply IH|apply IH|by destruct (_ =? _)].
Qed.

Lemma handler_uses known now uuid req : uses known (proxy_handler st now uuid req : handler).
Proof.
  unfold proxy_handler. case_match; apply uses_map; [unfold proxy_websocket|unfold proxy];
    repeat (case_match; [|done]); try (case_match; [done|]); [apply uses_connect; by intros []|apply uses_pick].
  intros [[info s]|e] Hr; [|done]. split; [by apply (Hr (info, s))|by intros []].
Qed.

Definition for_some_request (up : Upstream (hm := hm)) : Prop := exists now uuid req, sent_for st now uuid req up.

Definition known (w : World) (id : bytes) : Prop := is_Some (peers w !! id).

Definition task_ok (w : World) (p : handler) : Prop :=
  sends_only for_some_request p /\ forall more : bytes -> Prop, (forall id, known w id -> more id) -> uses more p.

Record inv (w : World) : Prop := mk_inv {
  i_registry id e : registry w !! id = Some e -> link_id (fst e) = id /\ snd e = id /\ is_Some (links w !! id) /\
    exists t since, peers w !! id = Some t /\ admit_peer cfg id since (handshake id t) = Some (fst e);
  i_links id : is_Some (links w !! id) -> known w id;
  i_peers id t : peers w !! id = Some t -> exists since info, admit_peer cfg id since (handshake id t) = Some info;
  i_tasks t p : tasks w !! t = Some p -> task_ok w p;
  i_sent id up : (id, up) ∈ sent w -> known w id /\ for_some_request up
}.

Lemma admit_peer_id id since r info : admit_peer cfg id since r = Some info -> link_id info = id.
Proof. unfold admit_peer. destruct r; [|done]. case_bool_decide; [|done]. by intros [= <-]. Qed.

Lemma pick_known w draw e : inv w -> pick_any draw (registry w) = Some e -> known w (snd e).
Proof.
  intros Hi Hp. unfold pick_any in Hp. apply list_elem_of_lookup_2, list_elem_of_fmap in Hp as ([id e'] & -> & Hin%elem_of_map_to_list).
  cbn. destruct (i_registry _ Hi _ _ Hin) as (_ & -> & Hl & _). by apply (i_links _ Hi).
Qed.

Lemma effect_ok w p a p' r l :
  inv w -> task_ok w p -> effect a (registry w) p = Some (p', r, l) ->
  task_ok w p' /\ (forall id e, r !! id = Some e -> registry w !! id = Some e) /\
  (forall id up, (id, up) ∈ l -> known w id /\ for_some_request up).
Proof.
  intros Hi [Hs Hu] He. destruct p as [x|k|s k|id k|s up k], a as [draw|ready| |o]; try discriminate He; injection He as <- <- <-; cbn in Hs.
  - split_and!; [|done|by intros ? ? ?%not_elem_of_nil]. split; [by apply Hs|]. intros more Hm. apply (Hu more Hm).
    destruct (pick_any draw (registry w)) as [[info s]|] eqn:Hp; [|done]. apply Hm. by apply (pick_known _ _ _ Hi) in Hp.
  - split_and!; [|done|by intros ? ? ?%not_elem_of_nil]. split; [by apply Hs|]. intros more Hm. by apply (Hu more Hm).
  - split_and!; [|unfold remove_link; by intros id' e [_ ?]%lookup_delete_Some|by intros ? ? ?%not_elem_of_nil]. split; [done|]. intros more Hm. by apply (Hu more Hm).
  - destruct Hs as [Hup Hs]. split_and!; [|done|].
    + split; [by apply Hs|]. intros more Hm. by apply (Hu more Hm).
    + intros id up' [= -> ->]%list_elem_of_singleton. split; [|done]. by apply (Hu (known w)).
Qed.

Lemma task_ok_mono w w' p : (forall id, known w id -> known w' id) -> task_ok w p -> task_ok w' p.
Proof. intros Hk [Hs Hu]. split; [done|]. intros more Hm. apply Hu. auto. Qed.

Lemma set_task_inv w t p r l :
  inv w -> (forall p', p = Some p' -> task_ok w p') -> (forall id e, r !! id = Some e -> registry w !! id = Some e) ->
  (forall id up, (id, up) ∈ l -> known w id /\ for_some_request up) -> inv (set_task t p r l w).
Proof.
  intros Hi Hp Hr Hl. destruct Hi. split; unfold set_task, known in *; cbn; try done.
  - intros id e He. by apply i_registry0, Hr.
  - intros t' p' Ht. apply (task_ok_mono w); [done|]. destruct (decide (t = t')) as [->|Hn].
    + rewrite lookup_partial_alter_eq in Ht. by apply Hp.
    + rewrite lookup_partial_alter_ne in Ht by done. by apply i_tasks0 in Ht.
  - intros id up [Hin|Hin]%elem_of_app; [by apply i_sent0|by apply Hl].
Qed.

Lemma register_inv w id t since info :
  inv w -> peers w !! id = None -> admit_peer cfg id since (handshake id t) = Some info -> inv (register id t info w).
Proof.
  intros Hi Hn Ha. pose proof (admit_peer_id _ _ _ _ Ha) as Hid.
  assert (forall id', known w id' -> id' <> id) as Hne by (intros id' [x Hx] ->; congruence).
  assert (forall id', known w id' -> known (register id t info w) id') as Hk.
  { intros id' Hk. unfold known. cbn. rewrite lookup_insert_ne; [done|]. intros ->. by apply Hne in Hk. }
  destruct Hi. split; cbn.
  - unfold insert_link. rewrite Hid. intros id' e [[<- <-]|[Hne' He]]%lookup_insert_Some.
    + split_and!; [done|done|by rewrite lookup_insert_eq|]. exists t, since. by rewrite lookup_insert_eq.
    + rewrite !lookup_insert_ne by done. by apply i_registry0.
  - intros id' Hl. destruct (decide (id = id')) as [->|Hne']; [unfold known; cbn; by rewrite lookup_insert_eq|].
    rewrite lookup_insert_ne in Hl by done. by apply Hk, i_links0.
  - intros id' t' [[<- <-]|[_ Hp]]%lookup_insert_Some; [by eauto|by apply i_peers0].
  - intros t' p Ht. apply (task_ok_mono w); [done|]. by apply i_tasks0 in Ht.
  - intros id' up Hin. apply i_sent0 in Hin as [? ?]. auto.
Qed.

Lemma remove_sub (id : bytes) (r : LinkSessionRegistry bytes) (id' : bytes) e : remove_link id r !! id' = Some e -> r !! id' = Some e.
Proof. unfold remove_link. by intros [_ ?]%lookup_delete_Some. Qed.

Lemma dmz_step_inv w w' : step w w' -> inv w -> inv w'.
Proof.
  intros Hs Hi. destruct Hs as [w id t since info Hn Ha|w id Hl|w id Hl|w t now uuid req Ht|w t p a p' r l Ht Hp He|w t p Ht|w id].
  - by eapply register_inv.
  - destruct Hi. split; cbn; try done.
    + intros id' e He. destruct (i_registry0 id' e He) as (? & ? & ? & ?). split_and!; [done|done|by rewrite lookup_insert_is_Some'; right|done].
    + intros id' [->|Hl']%lookup_insert_is_Some'; apply i_links0; [by eexists|done].
  - destruct Hi. split; cbn; try done.
    + unfold remove_link. intros id' e [Hne He]%lookup_delete_Some. rewrite lookup_delete_ne by done. by apply i_registry0.
    + intros id' [Hne Hl']%lookup_delete_is_Some. by apply i_links0.
  - apply set_task_inv; [done| |done|by intros ? ? ?%not_elem_of_nil]. intros p' [= <-].
    split; [|intros more _; apply handler_uses]. eapply sends_only_weaken; [|apply handler_sends]. intros up Hup. by exists now, uuid, req.
  - destruct (effect_ok w p a p' r l Hi (i_tasks _ Hi _ _ Ht) He) as (Hp' & Hr & Hl). apply set_task_inv; [done| |done|done]. by intros ? [= <-].
  - apply set_task_inv; [done|done|done|by intros ? ? ?%not_elem_of_nil].
  - destruct Hi. split; cbn; try done. intros id' e He%remove_sub. by apply i_registry0.
Qed.

Lemma dmz_start_inv : inv start.
Proof. split; cbn; intros *; rewrite ?lookup_empty; try done; by intros ?%not_elem_of_nil. Qed.

Lemma dmz_reachable_inv w : reachable w -> inv w.
Proof.
  intros Hr. unfold reachable in Hr. generalize dmz_start_inv. induction Hr as [|w1 w2 w3 Hs _ IH]; [done|]. intros Hi. by eapply IH, dmz_step_inv.
Qed.

(** A peer that proved, in this link's own handshake and within its clock
    skew, that it holds the active PSK, and gave the cluster's name. *)
Definition authenticated (w : World) (id : bytes) (node version : bytes) : Prop :=
  exists t h r psk i1 i2,
    peers w !! id = Some t /\ read_frame (t_inbox t) = (Ok h, i1) /\ read_frame i1 = (Ok r, i2) /\
    l_psks cfg !! active_psk_id cfg = Some psk /\
    verify_response h (server_challenge (handshake_config cfg id) (t_nonce t)) r psk (t_now t) = Ok tt /\
    cluster_id h = l_cluster_id cfg /\ node_id h = node /\ software_version h = version.

Lemma admitted_authenticated w id t since info :
  peers w !! id = Some t -> admit_peer cfg id since (handshake id t) = Some info ->
  authenticated w id (i_node_id info) (i_software_version info).
Proof.
  unfold admit_peer, handshake. intros Hp. destruct (exec _ _ _ _ _) as [res out] eqn:E. cbn [fst]. destruct res as [peer|]; [|done].
  case_bool_decide as Hc; [|done]. intros [= <-]. apply server_accepts_authentic in E as (h & r & psk & i1 & i2 & H1' & H2' & Hk & Hv & ->).
  by exists t, h, r, psk, i1, i2.
Qed.

Lemma effect_registry_sub a r p p' r' l id e : effect a r p = Some (p', r', l) -> r' !! id = Some e -> r !! id = Some e.
Proof. intros He Hr. destruct p, a; try discriminate He; injection He as _ <- _; try done. by apply remove_sub in Hr. Qed.

Lemma step_peers w w' id : step w w' -> known w id -> known w' id.
Proof.
  unfold known. intros Hs. destruct Hs; cbn; try done. intros Hk. by apply lookup_insert_is_Some'; right.
Qed.

Lemma step_absent w w' id : inv w -> step w w' -> known w id -> registry w !! id = None -> registry w' !! id = None.
Proof.
  intros Hi Hs Hk Hn. destruct Hs as [w id' t since info Hp Ha|w id' Hl|w id' Hl|w t now uuid req Ht|w t p a p' r l Ht Hp He|w t p Ht|w id']; cbn; try done.
  - apply admit_peer_id in Ha. unfold insert_link. rewrite Ha, lookup_insert_ne; [done|]. intros ->. destruct Hk. congruence.
  - unfold remove_link. rewrite lookup_delete_None. by right.
  - destruct (r !! id) as [e|] eqn:E; [|done]. apply (effect_registry_sub _ _ _ _ _ _ _ _ He) in E. congruence.
  - unfold remove_link. rewrite lookup_delete_None. by right.
Qed.

(** Eviction is final: a link that left the registry is never picked again,
    although its connection may live on. *)
Lemma eviction_final w w' id : reachable w -> known w id -> registry w !! id = None -> rtc step w w' -> registry w' !! id = None.
Proof.
  intros Hr%dmz_reachable_inv Hk Hn Hs. revert Hr Hk Hn. induction Hs as [|w1 w2 w3 Hs _ IH]; [done|]. intros Hi Hk Hn.
  apply IH; [by eapply dmz_step_inv|by eapply step_peers|by eapply step_absent].
Qed.

(** C31: only authenticated links carry public requests.  In every state of the
    DMZ, reached by any interleaving of handshakes, requests, broken
    connections, dropped clients and operator commands, a registered link has
    a running connection task and a peer that proved in that link's handshake
    that it holds the active PSK and belongs to the cluster; every request
    ever put on a link went to such a peer and is what the proxy makes of some
    public request; and a link that left the registry never returns. *)
Theorem links_authenticated w :
  reachable w ->
  (forall id e, registry w !! id = Some e ->
     is_Some (links w !! id) /\ authenticated w id (i_node_id (fst e)) (i_software_version (fst e))) /\
  (forall id up, (id, up) ∈ sent w -> (exists node version, authenticated w id node version) /\ for_some_request up) /\
  (forall id w', known w id -> registry w !! id = None -> rtc step w w' -> registry w' !! id = None).
Proof.
  intros Hr. pose proof (dmz_reachable_inv w Hr) as Hi. split_and!.
  - intros id e He. destruct (i_registry _ Hi _ _ He) as (_ & _ & Hl & t & since & Hp & Ha). split; [done|]. by eapply admitted_authenticated.
  - intros id up Hin. destruct (i_sent _ Hi _ _ Hin) as [[t Hp] Hup]. split; [|done].
    destruct (i_peers _ Hi _ _ Hp) as (since & info & Ha). eexists _, _. by eapply admitted_authenticated.
  - intros id w' Hk Hn. by apply eviction_final.
Qed.

(** The transition system run by hand. *)
Definition blocked (w : World) (p : handler) (a : answer hv) : bool :=
  match p, a with
  | AwaitReady s _, IsReady false => bool_decide (links w !! s = Some true)
  | Exchange s _ _, Outcome SendFailed => bool_decide (links w !! s = Some true)
  | _, _ => false
  end.

Definition answer_task (t : nat) (a : answer hv) (w : World) : option World :=
  p ← tasks w !! t;
  if blocked w p a then None else '(p', r, l) ← effect a (registry w) p; Some (set_task t (Some p') r l w).

Fixpoint answer_all (t : nat) (l : list (answer hv)) (w : World) : option World :=
  match l with [] => Some w | a :: l => answer_task t a w ≫= answer_all t l end.

Lemma answer_task_step t a w w' : answer_task t a w = Some w' -> step w w'.
Proof.
  unfold answer_task. intros (p & Hp & E)%bind_Some. destruct (blocked w p a) eqn:Hb; [done|].
  apply bind_Some in E as ([[p' r] l] & He & [= <-]). eapply step_effect; [done| |done].
  destruct p as [| | | |], a as [|[]| |[]]; cbn in *; try done; by b2p.
Qed.

Lemma answer_all_steps t l : forall w w', answer_all t l w = Some w' -> rtc step w w'.
Proof.
  induction l as [|a l IH]; intros w w'; cbn; [by intros [= ->]|]. intros (w1 & H1'%answer_task_step & H2'%IH)%bind_Some. by eapply rtc_l.
Qed.

Definition response_of (w : World) (t : nat) : option (Response (hv := hv)) :=
  match tasks w !! t with Some (Return resp) => Some resp | _ => None end.
End dmz.
End Dmz.

(** ** Witnesses *)

Module DmzExamples.
Import Reference HandshakeExamples LinkExamples Dmz.

Definition token_char (b : Z) : bool := is_visible b && negb (bool_decide (b ∈ str "(),/:;<=>?@[\]{}")).

#[export] Instance proxy_crates : ProxyCrates.
Proof.
  refine {|
    uri := option bytes * option bytes; authority := bytes; path_and_query := bytes;
    uri_authority := fst; uri_path_and_query := snd;
    parse_authority := fun s => if bool_decide (s = []) then None else Some s;
    root_path := str "/";
    build_uri := fun a p => Some (Some a, Some p);
    header_name_try_from := fun s => if bool_decide (s = []) || negb (forallb token_char s) then None else Some (to_ascii_lowercase s);
    sha1 := fun s => take 20 (hmac [] s)
  |}.
  by intros a p u [= <-].
Defined.

Definition dmz_config : LinkServerConfig := mk_link_config (str "production") (str "current") {[ str "current" := psk ]} (str "1.5.0").
Definition public_proxy : ProxyState := mk_proxy EdgeTrustExamples.node MAX_PROXY_REQUEST_BODY_BYTES.

Definition link_1 : bytes := str "link-1".
Definition transcript : Transcript := mk_transcript sn now 4 [] (LinkExamples.sent hello ++ LinkExamples.sent response).
Definition info : LinkSessionInfo := mk_info link_1 (str "production") (str "internal-1") (str "1.5.0") 0.

Definition upload : Request :=
  mk_request (str "POST") (None, Some (str "/api/upload"))
    [ (str "host", str "strata.example"); (str "user-agent", str "curl/8"); (str "connection", str "close, X-Private");
      (str "x-private", str "1"); (str "x-strata-edge-client-ip", str "1.1.1.1") ]
    (Some (V4 3405803785)) false.
Definition page : Request := mk_request (str "GET") (None, Some (str "/")) [ (str "host", str "strata.example") ] (Some (V4 3405803785)) true.

Definition minted : bytes := EdgeTrustExamples.minted.

Definition linked : World := register link_1 transcript info (@start proxy_crates entries bytes).
Definition requested (t : nat) (req : Request) (w : World) : World :=
  set_task t (Some (proxy_handler public_proxy now minted req)) (registry w) [] w.

Lemma linked_reachable : reachable dmz_config public_proxy linked.
Proof. eapply rtc_once, (step_register _ _ _ _ transcript 0); by vm_compute. Qed.

Lemma requested_step t req w : tasks w !! t = None -> step dmz_config public_proxy w (requested t req w).
Proof. intros Ht. by apply step_request. Qed.

Lemma ran {A} (o : option A) (d : A) : match o with Some _ => true | None => false end = true -> o = Some (default d o).
Proof. by destruct o. Qed.

(** A request that is put on the link and answered. *)
Definition answers : list (answer bytes) := [Drawn 7; IsReady true; Outcome (Responded 200 [(str "te", str "x"); (str "etag", str "1")])].

Definition answered : World := default linked (answer_all 0 answers (requested 0 upload linked)).

Lemma answered_reachable : reachable dmz_config public_proxy answered.
Proof.
  unfold reachable. etrans; [apply linked_reachable|]. eapply rtc_l; [by apply (requested_step 0 upload)|].
  apply (answer_all_steps dmz_config public_proxy 0 answers), ran. by vm_compute.
Qed.

Example answered_response : response_of answered 0 = Some (Relayed 200 [(str "etag", str "1")]).
Proof. by vm_compute. Qed.

Lemma links_authenticated_witness :
  (is_Some (links answered !! link_1) /\ authenticated dmz_config answered link_1 (str "internal-1") (str "1.5.0")) /\
  fst <$> sent answered = [link_1].
Proof.
  split; [|by vm_compute]. destruct (links_authenticated dmz_config public_proxy answered answered_reachable) as (Hl & _).
  apply (Hl link_1 (info, link_1)). by vm_compute.
Defined.

(** An upload that stays within the cap, granted two bytes at a time. *)
Definition grants : list Pump.grant := replicate 6 (Pump.Capacity 2 true).
Definition body : list (option bytes) := [Some (str "abc"); Some (str "de")].

Lemma body_streamed_witness :
  let '(fs, o) := Pump.pump 5 true true 0 body grants in
  Pump.data fs `prefix_of` Pump.readable body /\ o = Some (Ok tt).
Proof.
  destruct (Pump.pump 5 true true 0 body grants) as [fs o] eqn:E.
  destruct (Pump.body_streamed 5 true true body grants fs o) as (Hp & _ & _ & _ & _ & Hv); [unfold u64_max; lia|done|].
  split; [done|]. apply (Hv eq_refl eq_refl); [|vm_compute; lia]. apply Forall_replicate. split; [lia|done].
Defined.


(** ** A client can take a link out of service

    The pump resets the stream of a body that fails (here: the limiter in
    front of the proxy stops it) or exceeds the cap, and h2 fails the
    response of a stream its own side has reset; the handler takes that for a
    broken link and evicts it.  The connection itself still runs, so its
    internal node sees no reason to dial again; the DMZ is not ready, answers
    [503], and the link never returns. *)
Definition stopped_body : list (option bytes) := [Some (str "abc"); None].

Example aborted_upload_resets :
  Pump.pump MAX_PROXY_REQUEST_BODY_BYTES true true 0 stopped_body grants =
    ([Pump.Data (str "ab"); Pump.Data (str "c"); Pump.Reset Pump.INTERNAL_ERROR], Some (Err Pump.BodyReadError)).
Proof. by vm_compute. Qed.

Definition aborted : World :=
  default linked (answer_all 0 [Drawn 0; IsReady true; Outcome ResponseFailed; Removed] (requested 0 upload linked)).

Definition refused : World := default linked (answer_all 1 [Drawn 0] (requested 1 page aborted)).

Lemma aborted_reachable : reachable dmz_config public_proxy aborted.
Proof.
  unfold reachable. etrans; [apply linked_reachable|]. eapply rtc_l; [by apply (requested_step 0 upload)|].
  apply (answer_all_steps dmz_config public_proxy 0 [Drawn 0; IsReady true; Outcome ResponseFailed; Removed]), ran. by vm_compute.
Qed.

Lemma aborted_upload_evicts :
  links aborted !! link_1 = Some true /\ any_up (registry aborted) = false /\
  response_of aborted 0 = Some (proxy_error_response UpstreamHandshake) /\
  response_of refused 1 = Some (proxy_error_response NoLinkUp) /\
  forall w, rtc (step dmz_config public_proxy) aborted w -> registry w !! link_1 = None.
Proof.
  split_and!; [by vm_compute..|]. intros w Hs. eapply eviction_final; [apply aborted_reachable| |by vm_compute|exact Hs].
  eexists. by vm_compute.
Qed.

(** Only the first [Connection] header is read, ... *)
Example second_connection_ignored :
  hm_get_all (strip_hop_by_hop [(str "connection", str "close"); (str "connection", str "x-private"); (str "x-private", str "1")])
    (str "x-private") = [str "1"].
Proof. by vm_compute. Qed.

(** ... and what it lists is removed before the client's address is resolved:
    behind a trusted proxy that passes [Connection] on, a client can make the
    edge sign the proxy's address for its own. *)
Example connection_hides_forwarded_for :
  let h := [(str "x-forwarded-for", str "203.0.113.9")] in
  let h' := (str "connection", str "x-forwarded-for") :: h in
  let ip h := resolve_client_ip (Headers.relayed h) (Some EdgeTrustExamples.proxy) (trusted_proxies EdgeTrustExamples.node) in
  ip h = str "203.0.113.9" /\ ip h' = str "10.0.0.1".
Proof. by vm_compute. Qed.

Example websocket_recognised :
  is_websocket_upgrade [(str "upgrade", str "WebSocket"); (str "connection", str "keep-alive, Upgrade");
    (str "sec-websocket-key", str "abc=="); (str "sec-websocket-version", str "13")] = true /\
  is_websocket_upgrade [(str "upgrade", str "websocket"); (str "connection", str "Upgrade");
    (str "sec-websocket-key", str "abc=="); (str "sec-websocket-version", str "8")] = false.
Proof. by vm_compute. Qed.
End DmzExamples.
