(* ===== verification/LinkSupervisor.v ===== *)
(** * backend: the links to the DMZ and their supervisors

    [services/dmz_link/registry.rs], [supervisor.rs] and [config.rs].  The
    supervisor of an endpoint is a program over its registry, its tokens and
    the awaits of a cycle; the node is a transition system of all supervisors,
    administrators' kicks (in the two steps they take), failing pings and the
    shutdown. *)

From S2P Require Import Prelude Machine Text Crates Protocol Handshake Link Resilience.

Local Open Scope Z_scope.

(** ** Configuration ([LinkConfig]) *)

Module Config.
Section config.
Context `{Base64} (to_lowercase : bytes -> bytes) (default_version : bytes).

Record LinkConfig : Type := mk_config {
  cluster_id : bytes; node_id : bytes; software_version : bytes; endpoints : list bytes; psks : gmap bytes bytes
}.

Definition PSK_PREFIX : bytes := str "STRATA_DMZ_LINK_PSK_".

(** [trim_start_matches]: the prefix is removed as often as it occurs. *)
Fixpoint trim_start_matches (fuel : nat) (p s : bytes) : bytes :=
  match fuel with
  | O => s
  | S fuel => if bool_decide (take (length p) s = p) then trim_start_matches fuel p (drop (length p) s) else s
  end.

Definition parse_endpoints (raw : bytes) : list bytes := filter (fun s => s <> []) (trim <$> split 44 raw).

Fixpoint parse_psks (vars : list (bytes * bytes)) (psks : gmap bytes bytes) : result string (gmap bytes bytes) :=
  match vars with
  | [] => Ok psks
  | (k, v) :: vars =>
      let id := to_lowercase (trim_start_matches (length k) PSK_PREFIX k) in
      if bool_decide (id = []) then parse_psks vars psks
      else match b64_decode STANDARD (trim v) with
           | Some raw => parse_psks vars (<[id := raw]> psks)
           | None => Err "invalid base64"%string
           end
  end.

(** [from_env_inner], without the paths of the TLS material; [prefixed] are
    the variables whose name starts with [PSK_PREFIX]. *)
Definition from_env (get : bytes -> option bytes) (prefixed : list (bytes * bytes)) : result string (option LinkConfig) :=
  match get (str "STRATA_DMZ_ENDPOINTS") with
  | None => Ok None
  | Some raw =>
      if bool_decide (trim raw = []) then Ok None
      else
        let endpoints := parse_endpoints raw in
        if bool_decide (endpoints = []) then Ok None
        else
          cluster_id ← ok_or (get (str "STRATA_CLUSTER_ID")) "STRATA_CLUSTER_ID required"%string;
          node_id ← ok_or (get (str "STRATA_NODE_ID")) "STRATA_NODE_ID required"%string;
          let version :=
            match get (str "CARGO_PKG_VERSION") with
            | Some v => v
            | None => default default_version (get (str "STRATA_SOFTWARE_VERSION"))
            end in
          psks ← parse_psks prefixed ∅;
          if bool_decide (psks = ∅) then Err "no STRATA_DMZ_LINK_PSK_<id> env vars set"%string
          else Ok (Some (mk_config cluster_id node_id version endpoints psks))
  end.

(** A configuration that is accepted can authenticate and has somewhere to
    dial. *)
Lemma from_env_usable get prefixed c :
  from_env get prefixed = Ok (Some c) ->
  endpoints c <> [] /\ psks c <> ∅ /\ Forall (fun e => e <> []) (endpoints c).
Proof.
  unfold from_env. destruct (get _) as [raw|]; [|done]. case_bool_decide; [done|]. case_bool_decide as He; [done|]. intros E.
  apply result_bind_Ok in E as (cl & _ & E). apply result_bind_Ok in E as (nd & _ & E). apply result_bind_Ok in E as (ps & _ & E).
  case_bool_decide; [done|]. injection E as <-. cbn. split_and!; [done|done|]. apply Forall_forall. by intros e [Hn _]%list_elem_of_filter.
Qed.
End config.
End Config.

(** ** The registry ([LinkRegistry]) *)

Inductive LinkState : Type := Initializing | Connecting | Authenticating | Up | Backoff | Stopped.

#[export] Instance LinkState_eq_dec : EqDecision LinkState.
Proof. solve_decision. Defined.

Definition is_ready (s : LinkState) : bool := match s with Up => true | _ => false end.

Record LinkStatus : Type := mk_status {
  state : LinkState; last_error : option bytes; since : Z; connects : Z; failures : Z;
  remote_software_version : option bytes; kicked : bool
}.

(** A token is its number. *)
Record LinkRegistry : Type := mk_registry { inner : gmap bytes LinkStatus; active_tokens : gmap bytes nat }.

Definition u64_saturating_add (a b : Z) : Z := Z.min (a + b) u64_max.

Definition map_status (f : LinkStatus -> LinkStatus) (endpoint : bytes) (r : LinkRegistry) : LinkRegistry :=
  mk_registry (alter f endpoint (inner r)) (active_tokens r).

Definition set_state (endpoint : bytes) (st : LinkState) (err : option bytes) (now : Z) : LinkRegistry -> LinkRegistry :=
  map_status (fun s =>
    let s := mk_status st (last_error s) now (connects s) (failures s) (remote_software_version s) (kicked s) in
    let s :=
      match err with
      | Some e => mk_status (state s) (Some e) (since s) (connects s) (u64_saturating_add (failures s) 1) (remote_software_version s) (kicked s)
      | None => s
      end in
    if is_ready st
    then mk_status (state s) None (since s) (u64_saturating_add (connects s) 1) 0 (remote_software_version s) (kicked s)
    else s) endpoint.

Definition set_backoff_without_failure (endpoint reason : bytes) (now : Z) : LinkRegistry -> LinkRegistry :=
  map_status (fun s => mk_status Backoff (Some reason) now (connects s) (failures s) (remote_software_version s) (kicked s)) endpoint.

Definition set_remote_version (endpoint : bytes) (version : option bytes) : LinkRegistry -> LinkRegistry :=
  map_status (fun s => mk_status (state s) (last_error s) (since s) (connects s) (failures s) version (kicked s)) endpoint.

Definition register_active_token (endpoint : bytes) (token : nat) (r : LinkRegistry) : LinkRegistry :=
  mk_registry (inner r) (<[endpoint := token]> (active_tokens r)).

Definition clear_active_token (endpoint : bytes) (r : LinkRegistry) : LinkRegistry :=
  mk_registry (inner r) (delete endpoint (active_tokens r)).

(** [kick] in its two critical sections: the token it cancels, if there is
    one, and the flag. *)
Definition kick_token (endpoint : bytes) (r : LinkRegistry) : option nat := active_tokens r !! endpoint.

Definition set_kicked (flag : bool) (s : LinkStatus) : LinkStatus :=
  mk_status (state s) (last_error s) (since s) (connects s) (failures s) (remote_software_version s) flag.

Definition kick_mark (endpoint : bytes) : LinkRegistry -> LinkRegistry := map_status (set_kicked true) endpoint.

Definition take_kicked (endpoint : bytes) (r : LinkRegistry) : bool * LinkRegistry :=
  match inner r !! endpoint with
  | Some s => (kicked s, map_status (set_kicked false) endpoint r)
  | None => (false, r)
  end.

Definition snapshot (r : LinkRegistry) : list LinkStatus := snd <$> map_to_list (inner r).

Definition any_up (r : LinkRegistry) : bool := existsb (fun s => is_ready (state s)) (snapshot r).

Definition seed_one (now : Z) (r : LinkRegistry) (endpoint : bytes) : LinkRegistry :=
  match inner r !! endpoint with
  | Some _ => r
  | None => mk_registry (<[endpoint := mk_status Initializing None now 0 0 None false]> (inner r)) (active_tokens r)
  end.

Definition seed (endpoints : list bytes) (now : Z) (r : LinkRegistry) : LinkRegistry := fold_left (seed_one now) endpoints r.

(** [ProtocolError]'s [Display]. *)
Definition display (e : ProtocolError) : bytes :=
  match e with
  | PMalformed what => str "malformed message: " ++ str what
  | VersionMismatch peer ours => str "incompatible protocol version: peer=" ++ peer ++ str ", ours=" ++ ours
  | BadMac => str "hmac verification failed"
  | AuthFailed m => str "authentication failed: " ++ m
  | Skew => str "timestamp outside accepted skew window"
  | Replay => str "replayed nonce"
  | InvalidResumeToken => str "invalid or expired resume token"
  end.

(** ** The supervisor ([run_endpoint]) *)

(** The writes of a supervisor to the registry. *)
Inductive update : Type :=
| SetState (st : LinkState) (err : option bytes)
| QuietBackoff (reason : bytes)
| SetRemote (version : option bytes)
| RegisterToken (t : nat)
| ClearToken.

Definition apply_update (endpoint : bytes) (now : Z) (u : update) (r : LinkRegistry) : LinkRegistry :=
  match u with
  | SetState st err => set_state endpoint st err now r
  | QuietBackoff reason => set_backoff_without_failure endpoint reason now r
  | SetRemote v => set_remote_version endpoint v r
  | RegisterToken t => register_active_token endpoint t r
  | ClearToken => clear_active_token endpoint r
  end.

(** The handshake as the client lives it. *)
Record Transcript : Type := mk_transcript {
  t_nonce : bytes; t_now : Z; t_deadline : nat; t_writes : list WriteIO; t_inbox : bytes
}.

(** How a dial ends: the cycle's token was cancelled, or the connector
    answered. *)
Inductive dialled : Type := Interrupted | Dialled (r : result bytes unit).

Inductive code : Type :=
| Halt
| Continue (b : LinkBackoff.Backoff)
| ShutdownCancelled (k : bool -> code)
| ChildToken (k : nat -> code)
| Update (u : update) (k : code)
| TakeKicked (k : bool -> code)
| Connect (t : nat) (k : dialled -> code)
| Handshake (t : nat) (k : result ProtocolError LinkAccepted -> code)
| ServeH2 (t : nat) (on_ready : option update) (k : result bytes unit -> code)
| NextDelay (b : LinkBackoff.Backoff) (k : Z -> LinkBackoff.Backoff -> code)
| Sleep (delay : Z) (k : bool -> code).

Definition RECONNECT : bytes := str "admin-requested reconnect".

(** The sleep before the next dial; only the last one of a cycle that served
    resets the backoff. *)
Definition back_off (served : bool) (b : LinkBackoff.Backoff) : code :=
  NextDelay b (fun delay b =>
    Sleep delay (fun slept =>
      if slept then Continue (if served then LinkBackoff.reset b else b)
      else Update (SetState Stopped None) Halt)).

(** One turn of the loop of [run_endpoint]. *)
Definition cycle (b : LinkBackoff.Backoff) : code :=
  ShutdownCancelled (fun cancelled =>
    if cancelled then Update (SetState Stopped None) (Update ClearToken Halt)
    else
      ChildToken (fun t =>
      Update (RegisterToken t) (
      Update (SetState Connecting None) (
      Connect t (fun dialled =>
        match dialled with
        | Interrupted =>
            Update ClearToken (
            ShutdownCancelled (fun cancelled =>
              if cancelled then Update (SetState Stopped None) Halt
              else TakeKicked (fun _ => Update (QuietBackoff RECONNECT) (Continue (LinkBackoff.reset b)))))
        | Dialled (Err e) =>
            Update (SetState Backoff (Some (str "dial failed: " ++ e))) (Update ClearToken (back_off false b))
        | Dialled (Ok _) =>
            Update (SetState Authenticating None) (
            Handshake t (fun accepted =>
              match accepted with
              | Err e =>
                  Update (SetState Backoff (Some (str "handshake failed: " ++ display e))) (Update ClearToken (back_off false b))
              | Ok a =>
                  Update (SetRemote (Link.remote_software_version a)) (
                  ServeH2 t (Some (SetState Up None)) (fun served =>
                    Update ClearToken (
                    ShutdownCancelled (fun cancelled =>
                      if cancelled then Update (SetState Stopped None) Halt
                      else
                        TakeKicked (fun kicked =>
                          if kicked then Update (QuietBackoff RECONNECT) (Continue (LinkBackoff.reset b))
                          else
                            let msg := match served with Ok _ => str "peer closed link" | Err e => str "h2 serve: " ++ e end in
                            Update (SetState Backoff (Some msg)) (back_off true b))))))
              end))
        end))))).

(** ** The node as a transition system *)

Section node.
Context `{Base64} `{HmacSha256} `{Json AuthHello} `{Json AuthChallenge} `{Json AuthResponse} `{Json AuthOutcome}.
Variable (cfg : ClientHandshakeConfig).

Definition client_result (t : Transcript) : result ProtocolError LinkAccepted :=
  fst (exec (t_deadline t) (client_handshake cfg (t_nonce t) (t_now t)) (t_writes t) (t_inbox t) []).

(** What the environment decides at an effect. *)
Inductive answer : Type :=
| Go
| At (now : Z)
| Dial (d : dialled)
| Shook (t : Transcript)
| Ready (now : Z)
| Served (r : result bytes unit)
| Draw (draw : Z -> Z -> Z)
| Slept (full : bool).

(** What happened to a supervisor so far: real failures since its link was
    last up, how often it came up, whether a link went down that is not yet
    accounted for, and the handshake of the current cycle. *)
Record Tally : Type := mk_tally { n_failures : Z; n_connects : Z; ended : bool; shaken : option Transcript }.

Definition failed (t : Tally) : Tally := mk_tally (u64_saturating_add (n_failures t) 1) (n_connects t) false (shaken t).

Record Supervisor : Type := mk_supervisor { url : bytes; todo : code; tally : Tally; moves : nat }.

Record Node : Type := mk_node {
  reg : LinkRegistry; shutdown : bool; cancelled_tokens : gset nat; next_token : nat;
  half_kicks : list bytes; supervisors : list Supervisor
}.

(** A child token is cancelled with its parent, too. *)
Definition is_cancelled (t : nat) (n : Node) : bool := shutdown n || bool_decide (t ∈ cancelled_tokens n).

(** One effect of a supervisor: what is left to do, the registry, and the
    tally. [biased] selects look at the cancellation first. *)
Definition effect (endpoint : bytes) (c : code) (a : answer) (n : Node) (y : Tally) : option (code * LinkRegistry * Tally) :=
  match c, a with
  | Continue b, Go => Some (cycle b, reg n, y)
  | ShutdownCancelled k, Go => Some (k (shutdown n), reg n, y)
  | ChildToken k, Go => Some (k (next_token n), reg n, mk_tally (n_failures y) (n_connects y) (ended y) None)
  | Update u k, At now => Some (k, apply_update endpoint now u (reg n), y)
  | TakeKicked k, Go =>
      let '(b, r) := take_kicked endpoint (reg n) in
      Some (k b, r, if ended y && negb b then failed y else mk_tally (n_failures y) (n_connects y) false (shaken y))
  | Connect t k, Dial Interrupted => if is_cancelled t n then Some (k Interrupted, reg n, y) else None
  | Connect t k, Dial (Dialled r) =>
      if is_cancelled t n then None else Some (k (Dialled r), reg n, if is_ok r then y else failed y)
  | Handshake _ k, Shook t =>
      let r := client_result t in
      Some (k r, reg n, if is_ok r then mk_tally (n_failures y) (n_connects y) (ended y) (Some t) else failed y)
  | ServeH2 t (Some u) k, Ready now =>
      Some (ServeH2 t None k, apply_update endpoint now u (reg n),
            mk_tally 0 (u64_saturating_add (n_connects y) 1) (ended y) (shaken y))
  | ServeH2 _ _ k, Served r => Some (k r, reg n, mk_tally (n_failures y) (n_connects y) true (shaken y))
  | NextDelay b k, Draw draw => '(d, b) ← LinkBackoff.next_delay draw b; Some (k d b, reg n, y)
  | Sleep _ k, Slept full => if Bool.eqb full (negb (shutdown n)) then Some (k full, reg n, y) else None
  | _, _ => None
  end.

Definition takes_token (c : code) : nat := match c with ChildToken _ => 1 | _ => 0 end.

Definition move (i : nat) (s : Supervisor) (c : code) (r : LinkRegistry) (y : Tally) (n : Node) : Node :=
  mk_node r (shutdown n) (cancelled_tokens n) (next_token n + takes_token (todo s)) (half_kicks n)
    (<[i := mk_supervisor (url s) c y (S (moves s))]> (supervisors n)).

(** An administrator's kick: the token first, the flag afterwards. *)
Definition kick_cancel (endpoint : bytes) (n : Node) : Node :=
  mk_node (reg n) (shutdown n)
    (match kick_token endpoint (reg n) with Some t => {[t]} ∪ cancelled_tokens n | None => cancelled_tokens n end)
    (next_token n) (endpoint :: half_kicks n) (supervisors n).

Definition kick_flag (endpoint : bytes) (rest : list bytes) (n : Node) : Node :=
  mk_node (kick_mark endpoint (reg n)) (shutdown n) (cancelled_tokens n) (next_token n) rest (supervisors n).

Inductive step : Node -> Node -> Prop :=
| step_move n i s a c r y :
    supervisors n !! i = Some s -> effect (url s) (todo s) a n (tally s) = Some (c, r, y) -> step n (move i s c r y n)
| step_kick n endpoint : step n (kick_cancel endpoint n)
| step_flag n endpoint before after : half_kicks n = before ++ endpoint :: after -> step n (kick_flag endpoint (before ++ after) n)
| step_ping n i s t u k :
    supervisors n !! i = Some s -> todo s = ServeH2 t u k ->
    step n (mk_node (reg n) (shutdown n) ({[t]} ∪ cancelled_tokens n) (next_token n) (half_kicks n) (supervisors n))
| step_shutdown n : step n (mk_node (reg n) true (cancelled_tokens n) (next_token n) (half_kicks n) (supervisors n)).

(** [spawn_link_supervisors]. *)
Definition start (endpoints : list bytes) (now : Z) : Node :=
  mk_node (seed endpoints now (mk_registry ∅ ∅)) false ∅ 0 []
    ((fun e => mk_supervisor e (cycle LinkBackoff.default_link_backoff) (mk_tally 0 0 false None) 0) <$> endpoints).

Definition reachable (endpoints : list bytes) (now : Z) : Node -> Prop := rtc step (start endpoints now).

(** ** What the registry shows

    The part of an entry that only its supervisor writes. *)
Record View : Type := mk_view { v_state : LinkState; v_connects : Z; v_failures : Z; v_token : option nat }.

Definition view (endpoint : bytes) (r : LinkRegistry) (s : LinkStatus) : View :=
  mk_view (state s) (connects s) (failures s) (active_tokens r !! endpoint).

Definition updated (u : update) (v : View) : View :=
  match u with
  | SetState st err =>
      let f := match err with Some _ => u64_saturating_add (v_failures v) 1 | None => v_failures v end in
      if is_ready st then mk_view st (u64_saturating_add (v_connects v) 1) 0 (v_token v)
      else mk_view st (v_connects v) f (v_token v)
  | QuietBackoff _ => mk_view Backoff (v_connects v) (v_failures v) (v_token v)
  | SetRemote _ => v
  | RegisterToken t => mk_view (v_state v) (v_connects v) (v_failures v) (Some t)
  | ClearToken => mk_view (v_state v) (v_connects v) (v_failures v) None
  end.

Definition agree (v : View) (y : Tally) : Prop := v_failures v = n_failures y /\ v_connects v = n_connects y.

Definition authenticated (y : Tally) : Prop := exists t a, shaken y = Some t /\ client_result t = Ok a.

Definition came_up (y : Tally) : Tally := mk_tally 0 (u64_saturating_add (n_connects y) 1) (ended y) (shaken y).
Definition went_down (y : Tally) : Tally := mk_tally (n_failures y) (n_connects y) true (shaken y).
Definition accounted (kicked : bool) (y : Tally) : Tally :=
  if ended y && negb kicked then failed y else mk_tally (n_failures y) (n_connects y) false (shaken y).
Definition shook (t : Transcript) (y : Tally) : Tally :=
  if is_ok (client_result t) then mk_tally (n_failures y) (n_connects y) (ended y) (Some t) else failed y.

(** What has to hold of the entry at each await of the rest of a program. *)
Fixpoint good (c : code) (v : View) (y : Tally) : Prop :=
  match c with
  | Halt => v_state v = Stopped /\ v_token v = None /\ agree v y
  | Continue _ => v_state v <> Up /\ v_token v = None /\ agree v y /\ ended y = false
  | ShutdownCancelled k => forall b, good (k b) v y
  | ChildToken k => v_state v <> Up /\ forall t, good (k t) v (mk_tally (n_failures y) (n_connects y) (ended y) None)
  | Update u k => (v_state (updated u v) = Up -> v_state v = Up) /\ good k (updated u v) y
  | TakeKicked k => forall b, good (k b) v (accounted b y)
  | Connect t k =>
      v_state v = Connecting /\ v_token v = Some t /\ agree v y /\
      good (k Interrupted) v y /\ forall r, good (k (Dialled r)) v (if is_ok r then y else failed y)
  | Handshake t k =>
      v_state v = Authenticating /\ v_token v = Some t /\ agree v y /\ forall tr, good (k (client_result tr)) v (shook tr y)
  | ServeH2 t ready k =>
      v_token v = Some t /\ agree v y /\ authenticated y /\ (forall r, good (k r) v (went_down y)) /\
      match ready with
      | None => v_state v = Up
      | Some u =>
          v_state v = Authenticating /\ v_state (updated u v) = Up /\ v_token (updated u v) = Some t /\
          agree (updated u v) (came_up y) /\ forall r, good (k r) (updated u v) (went_down (came_up y))
      end
  | NextDelay b k => forall d b', good (k d b') v y
  | Sleep _ k => v_state v = Backoff /\ v_token v = None /\ agree v y /\ ended y = false /\ forall b, good (k b) v y
  end.

Lemma back_off_good served b v y :
  v_state v = Backoff -> v_token v = None -> agree v y -> ended y = false -> good (back_off served b) v y.
Proof. intros Hs Ht Ha He. cbn. intros d b'. split_and!; [done..|]. intros []; cbn; destruct Ha; split_and!; try done; congruence. Qed.

Lemma cycle_good b v y : v_state v <> Up -> agree v y -> ended y = false -> v_token v = None -> good (cycle b) v y.
Proof.
  intros Hu [Hf Hc] He Ht. unfold cycle. cbn [good]. intros [|]; [by cbn|]. cbn [good]. split; [done|]. intros t.
  cbn [good updated is_ready]. do 4 (split; [done|]). split; [by split|]. split.
  - split; [done|]. cbn. intros [|]; [by split_and!|]. intros b'. unfold accounted. by rewrite He.
  - intros [[]|e]; cbn [is_ok good updated is_ready].
    2: do 2 (split; [done|]); by apply back_off_good; [..|split; cbn; rewrite ?Hf|].
    do 3 (split; [done|]). split; [by split|]. intros tr. unfold shook. destruct (client_result tr) as [a|e] eqn:Er; cbn [is_ok good updated is_ready].
    2: do 2 (split; [done|]); by apply back_off_good; [..|split; cbn; rewrite ?Hf|].
    do 2 (split; [done|]). split; [by split|]. split; [by exists tr, a|].
    assert (forall v' y', n_failures y' = v_failures v' -> v_connects v' = n_connects y' -> ended y' = true -> forall r,
      good (Update ClearToken (ShutdownCancelled (fun cancelled =>
        if cancelled then Update (SetState Stopped None) Halt
        else TakeKicked (fun kicked =>
          if kicked then Update (QuietBackoff RECONNECT) (Continue (LinkBackoff.reset b))
          else let msg := match r : result bytes unit with Ok _ => str "peer closed link" | Err e => str "h2 serve: " ++ e end in
               Update (SetState Backoff (Some msg)) (back_off true b))))) v' y') as Hdown.
    { intros v' y' Hf' Hc' He' r. cbn [good]. split; [done|]. intros [|]; [by cbn; split_and!|]. cbn [good].
      intros [|]; unfold accounted; rewrite He'; cbn [andb negb good]; (split; [done|]); [by cbn; split_and!|].
      apply back_off_good; try done. split; cbn; by rewrite ?Hf', ?Hc'. }
    split; [intros r; by apply Hdown|]. do 3 (split; [done|]). split; [split; cbn; by rewrite ?Hc|]. intros r. apply Hdown; cbn; by rewrite ?Hc.
Qed.

(** [r'] is [r] except for the entry and token of [endpoint]. *)
Definition only (endpoint : bytes) (r r' : LinkRegistry) : Prop :=
  forall e, e <> endpoint -> inner r' !! e = inner r !! e /\ active_tokens r' !! e = active_tokens r !! e.

Lemma map_status_spec f endpoint r s :
  inner r !! endpoint = Some s ->
  inner (map_status f endpoint r) !! endpoint = Some (f s) /\ only endpoint r (map_status f endpoint r).
Proof. intros Hs. cbn. rewrite lookup_alter_eq, Hs. split; [done|]. intros e Hn. cbn. by rewrite lookup_alter_ne. Qed.

Lemma apply_update_view endpoint now u r s :
  inner r !! endpoint = Some s ->
  exists s', inner (apply_update endpoint now u r) !! endpoint = Some s' /\
    view endpoint (apply_update endpoint now u r) s' = updated u (view endpoint r s) /\ only endpoint r (apply_update endpoint now u r).
Proof.
  intros Hs. destruct u as [st err|reason|v|t|]; cbn [apply_update].
  1-3: unfold set_state, set_backoff_without_failure, set_remote_version;
    match goal with |- context [map_status ?f _ _] => destruct (map_status_spec f _ _ _ Hs) as [-> Ho] end;
    eexists; split_and!; [reflexivity| |apply Ho]; unfold view; cbn;
    repeat (case_match; cbn); congruence.
  - exists s. unfold view. cbn. rewrite lookup_insert_eq. split_and!; [done|done|]. intros e Hn. cbn. by rewrite lookup_insert_ne.
  - exists s. unfold view. cbn. rewrite lookup_delete_eq. split_and!; [done|done|]. intros e Hn. cbn. by rewrite lookup_delete_ne.
Qed.

Lemma view_kicked endpoint e f r s :
  inner r !! endpoint = Some s ->
  exists s', inner (map_status (set_kicked f) e r) !! endpoint = Some s' /\
    view endpoint (map_status (set_kicked f) e r) s' = view endpoint r s.
Proof.
  intros Hs. cbn. destruct (decide (e = endpoint)) as [->|Hn].
  - rewrite lookup_alter_eq, Hs. by eexists.
  - rewrite lookup_alter_ne, Hs by done. by eexists.
Qed.

Lemma only_refl endpoint r : only endpoint r r.
Proof. done. Qed.

Lemma take_kicked_spec endpoint r s b r' :
  inner r !! endpoint = Some s -> take_kicked endpoint r = (b, r') ->
  (exists s', inner r' !! endpoint = Some s' /\ view endpoint r' s' = view endpoint r s) /\ only endpoint r r'.
Proof.
  unfold take_kicked. intros Hs. rewrite Hs. intros [= _ <-]. split; [by apply view_kicked|]. by destruct (map_status_spec (set_kicked false) _ _ _ Hs).
Qed.

(** An effect keeps what is promised of its supervisor's entry and leaves the
    others alone. *)
Lemma effect_good endpoint c a n y c' r y' s :
  inner (reg n) !! endpoint = Some s -> good c (view endpoint (reg n) s) y -> effect endpoint c a n y = Some (c', r, y') ->
  (exists s', inner r !! endpoint = Some s' /\ good c' (view endpoint r s') y') /\ only endpoint (reg n) r.
Proof.
  intros Hs Hg He. destruct c as [|b|k|k|u k|k|t k|t k|t ready k|b k|d k], a as [|now|d'|tr|now|res|draw|full]; cbn in He; try discriminate He; try (by destruct ready).
  - injection He as <- <- <-. split; [|apply only_refl]. exists s. split; [done|]. destruct Hg as (Hu & Ht & Ha & He'). by apply cycle_good.
  - injection He as <- <- <-. split; [|apply only_refl]. exists s. split; [done|]. apply Hg.
  - injection He as <- <- <-. split; [|apply only_refl]. exists s. split; [done|]. apply Hg.
  - injection He as <- <- <-. destruct (apply_update_view endpoint now u _ s Hs) as (s' & Hs' & Hv & Ho). split; [|done]. exists s'. rewrite Hv. split; [done|]. apply Hg.
  - destruct (take_kicked endpoint (reg n)) as [b r0] eqn:Ek. injection He as <- <- <-.
    destruct (take_kicked_spec _ _ _ _ _ Hs Ek) as [(s' & Hs' & Hv) Ho]. split; [|done]. exists s'. rewrite Hv. split; [done|]. apply Hg.
  - destruct Hg as (_ & _ & _ & Hi & Hd). destruct d' as [|res]; destruct (is_cancelled t n); try discriminate He; injection He as <- <- <-;
      (split; [|apply only_refl]); exists s; (split; [done|]); [exact Hi|apply Hd].
  - injection He as <- <- <-. split; [|apply only_refl]. exists s. split; [done|]. destruct Hg as (_ & _ & _ & Hg). apply Hg.
  - destruct ready as [u|]; [|done]. injection He as <- <- <-. destruct Hg as (_ & _ & Hauth & _ & _ & Hup & Ht & Ha & Hk).
    destruct (apply_update_view endpoint now u _ s Hs) as (s' & Hs' & Hv & Ho). split; [|done]. exists s'. rewrite Hv. split; [done|].
    cbn. split_and!; try done; apply Ha.
  - destruct ready; injection He as <- <- <-; (split; [|apply only_refl]); exists s; (split; [done|]); apply Hg.
  - apply bind_Some in He as ([d b'] & _ & [= <- <- <-]). split; [|apply only_refl]. exists s. split; [done|]. apply Hg.
  - destruct (Bool.eqb _ _); [|done]. injection He as <- <- <-. split; [|apply only_refl]. exists s. split; [done|]. apply Hg.
Qed.

(** An entry that is up belongs to a supervisor whose current cycle
    authenticated. *)
Lemma effect_up endpoint c a n y c' r y' s s' :
  inner (reg n) !! endpoint = Some s -> good c (view endpoint (reg n) s) y -> effect endpoint c a n y = Some (c', r, y') ->
  inner r !! endpoint = Some s' -> (state s = Up -> authenticated y) -> state s' = Up -> authenticated y'.
Proof.
  intros Hs Hg He Hs' Hup Hu. assert (forall y0, shaken y0 = shaken y -> authenticated y -> authenticated y0) as Hsame
    by (intros y0 E (t & x & Ht & Hx); exists t, x; by rewrite E).
  destruct c as [|b|k|k|u k|k|t k|t k|t ready k|b k|d k], a as [|now|d'|tr|now|res|draw|full]; cbn in He; try discriminate He; try (by destruct ready).
  - injection He as <- <- <-. simplify_eq. auto.
  - injection He as <- <- <-. simplify_eq. auto.
  - injection He as <- <- <-. simplify_eq. by destruct Hg.
  - injection He as <- <- <-. destruct (apply_update_view endpoint now u _ s Hs) as (s0 & Hs0 & Hv & _). simplify_eq.
    destruct Hg as [Hg _]. rewrite <- Hv in Hg. cbn in Hg. auto.
  - destruct (take_kicked endpoint (reg n)) as [b r0] eqn:Ek. injection He as <- <- <-.
    destruct (take_kicked_spec _ _ _ _ _ Hs Ek) as [(s0 & Hs0 & Hv) _]. simplify_eq.
    apply Hsame; [by destruct (ended y && negb b)|apply Hup; congruence].
  - destruct Hg as (Hst & _). destruct d' as [|res]; destruct (is_cancelled t n); try discriminate He; injection He as <- <- <-; simplify_eq; cbn in Hst; congruence.
  - destruct Hg as (Hst & _). injection He as <- <- <-. simplify_eq. cbn in Hst. congruence.
  - destruct ready as [u|]; [|done]. injection He as <- <- <-. destruct Hg as (_ & _ & Hauth & _). by apply Hsame.
  - destruct Hg as (_ & _ & Hauth & _). destruct ready; injection He as <- <- <-; by apply Hsame.
  - apply bind_Some in He as ([d b'] & _ & [= <- <- <-]). simplify_eq. auto.
  - destruct (Bool.eqb _ _); [|done]. injection He as <- <- <-. simplify_eq. auto.
Qed.

Record inv (n : Node) : Prop := mk_inv {
  i_urls : NoDup (url <$> supervisors n);
  i_good i s : supervisors n !! i = Some s ->
    exists st, inner (reg n) !! url s = Some st /\ good (todo s) (view (url s) (reg n) st) (tally s) /\ (state st = Up -> authenticated (tally s));
  i_entries e st : inner (reg n) !! e = Some st -> e ∈ url <$> supervisors n
}.

Lemma inv_same_registry n n' : reg n' = reg n -> supervisors n' = supervisors n -> inv n -> inv n'.
Proof. intros Hr Hs []. split; rewrite ?Hs, ?Hr; done. Qed.

Lemma move_inv n i s a c r y : supervisors n !! i = Some s -> effect (url s) (todo s) a n (tally s) = Some (c, r, y) -> inv n -> inv (move i s c r y n).
Proof.
  intros Hs He Hi. destruct (i_good _ Hi _ _ Hs) as (st & Hst & Hg & Hup).
  destruct (effect_good _ _ _ _ _ _ _ _ _ Hst Hg He) as [(st' & Hst' & Hg') Ho].
  assert (url <$> supervisors (move i s c r y n) = url <$> supervisors n) as Hu.
  { cbn. rewrite list_fmap_insert. cbn. apply list_insert_id. by rewrite list_lookup_fmap, Hs. }
  split.
  - rewrite Hu. apply Hi.
  - intros j s'. cbn. rewrite list_lookup_insert. case_decide as Hj.
    + intros [= <-]. cbn. exists st'. split_and!; [done|done|]. by eapply effect_up.
    + intros Hj'. destruct (i_good _ Hi _ _ Hj') as (st0 & Hst0 & Hg0 & Hup0). exists st0.
      assert (url s' <> url s) as Hn.
      { intros E. destruct Hi as [Hd _ _]. apply Hj. split; [|by eapply lookup_lt_Some]. eapply NoDup_lookup; [exact Hd| |].
        - by rewrite list_lookup_fmap, Hs.
        - rewrite list_lookup_fmap, Hj'. cbn. by rewrite E. }
      destruct (Ho _ Hn) as [He1 He2]. unfold view in *. rewrite He1, He2. by split_and!.
  - intros e st0 He0. rewrite Hu. destruct (decide (e = url s)) as [->|Hn].
    + apply list_elem_of_fmap. exists s. split; [done|]. by eapply list_elem_of_lookup_2.
    + cbn in He0. destruct (Ho _ Hn) as [He1 _]. rewrite He1 in He0. by eapply i_entries.
Qed.

Lemma flag_inv n endpoint rest : inv n -> inv (kick_flag endpoint rest n).
Proof.
  intros []. split; cbn; [done| |].
  - intros i s Hs. destruct (i_good0 i s Hs) as (st & Hst & Hg & Hup).
    destruct (view_kicked _ endpoint true _ _ Hst) as (st' & Hst' & Hv). exists st'. split_and!; [exact Hst'| |].
    + by change (good (todo s) (view (url s) (map_status (set_kicked true) endpoint (reg n)) st') (tally s)); rewrite Hv.
    + apply (f_equal v_state) in Hv. cbn in Hv. by rewrite Hv.
  - intros e st Hst. assert (is_Some (inner (reg n) !! e)) as [st0 Hst0]; [|by eapply i_entries0].
    apply (lookup_alter_is_Some (set_kicked true) _ endpoint). by eexists.
Qed.

Lemma node_step_inv n n' : step n n' -> inv n -> inv n'.
Proof.
  intros Hs Hi. destruct Hs; first [by eapply move_inv|by apply flag_inv|by apply (inv_same_registry n)].
Qed.

Definition seeded (now : Z) : LinkStatus := mk_status Initializing None now 0 0 None false.

Lemma seed_spec now es : forall r,
  (forall e st, inner r !! e = Some st -> st = seeded now) ->
  let r' := seed es now r in
  (forall e st, inner r' !! e = Some st -> st = seeded now /\ (e ∈ es \/ is_Some (inner r !! e))) /\
  (forall e, e ∈ es \/ is_Some (inner r !! e) -> is_Some (inner r' !! e)) /\ active_tokens r' = active_tokens r.
Proof.
  induction es as [|e es IH]; intros r Hr; cbn.
  - split_and!; [|by intros e [?%not_elem_of_nil|]|done]. intros e st He. split; [by eapply Hr|right; by eexists].
  - assert (forall e' st, inner (seed_one now r e) !! e' = Some st -> st = seeded now) as Hr'.
    { unfold seed_one. destruct (inner r !! e) eqn:E; [done|]. cbn. intros e' st [[<- <-]|[_ H']]%lookup_insert_Some; [done|by eapply Hr]. }
    assert (forall e', is_Some (inner (seed_one now r e) !! e') <-> e' = e \/ is_Some (inner r !! e')) as Hk.
    { intros e'. unfold seed_one. destruct (inner r !! e) eqn:E; cbn.
      - split; [by right|]. intros [->|]; [by eexists|done].
      - rewrite lookup_insert_is_Some'. split; intros [?|?]; auto. }
    destruct (IH _ Hr') as (H1' & H2' & H3'). split_and!.
    + intros e' st He'. destruct (H1' _ _ He') as [-> [Hin|[->|Hin]%Hk]]; (split; [done|]); [left; by right|left; left|by right].
    + intros e' [[->|Hin]%elem_of_cons|Hin]; apply H2'; [right; apply Hk; by left|by left|right; apply Hk; by right].
    + etrans; [exact H3'|]. unfold seed_one. by destruct (inner r !! e).
Qed.

Lemma node_start_inv endpoints now : NoDup endpoints -> inv (start endpoints now).
Proof.
  intros Hd. assert (url <$> supervisors (start endpoints now) = endpoints) as Hu.
  { cbn. rewrite <- list_fmap_compose. apply list_fmap_id. }
  destruct (seed_spec now endpoints (mk_registry ∅ ∅)) as (H1' & H2' & H3'); [by intros e st He; cbn in He; rewrite lookup_empty in He|].
  split; rewrite ?Hu; [done| |].
  - intros i s Hs. cbn in Hs. apply list_lookup_fmap_Some in Hs as (e & -> & He). cbn [url todo tally].
    destruct (H2' e) as [st Hst]; [left; by eapply list_elem_of_lookup_2|]. exists st. destruct (H1' _ _ Hst) as [-> _].
    split_and!; [exact Hst| |done]. apply cycle_good; [done|done|done|]. unfold view. cbn [v_token reg start]. by rewrite H3'.
  - intros e st He. destruct (H1' _ _ He) as [_ [Hin|[x Hx]]]; [done|]. cbn in Hx. by rewrite lookup_empty in Hx.
Qed.

Lemma node_reachable_inv endpoints now n : NoDup endpoints -> reachable endpoints now n -> inv n.
Proof.
  intros Hd Hr. unfold reachable in Hr. generalize (node_start_inv endpoints now Hd). induction Hr as [|n1 n2 n3 Hs _ IH]; [done|].
  intros Hi. by eapply IH, node_step_inv.
Qed.

(** What the entry of a waiting supervisor says. *)
Definition shows (c : code) (s : LinkStatus) (token : option nat) : Prop :=
  match c with
  | Connect t _ => state s = Connecting /\ token = Some t
  | Handshake t _ | ServeH2 t (Some _) _ => state s = Authenticating /\ token = Some t
  | ServeH2 t None _ => state s = Up /\ token = Some t
  | Sleep _ _ => state s = Backoff /\ token = None
  | Halt => state s = Stopped /\ token = None
  | _ => True
  end.

Definition waiting (c : code) : bool :=
  match c with Connect _ _ | Handshake _ _ | ServeH2 _ _ _ | Sleep _ _ | Halt => true | _ => false end.

Definition client_authenticated (t : Transcript) : Prop :=
  exists a ch psk r i1 i2,
    client_result t = Ok a /\ read_frame (t_inbox t) = (Ok ch, i1) /\ c_psks cfg !! psk_id ch = Some psk /\
    compute_response (client_hello cfg (t_nonce t) (t_now t)) ch psk = Ok r /\
    read_frame i1 = (Ok (Accept (a_link_id a) (Link.remote_software_version a)), i2).

Lemma authenticated_client y : authenticated y -> exists t, shaken y = Some t /\ client_authenticated t.
Proof.
  intros (t & a & Ht & Ha). exists t. split; [done|]. unfold client_result in Ha. destruct (exec _ _ _ _ _) as [res out] eqn:E. cbn [fst] in Ha. subst res.
  pose proof E as (ch & psk & r & i1 & i2 & Hc & Hp & Hr & Hi)%client_accepts_only_accept.
  exists a, ch, psk, r, i1, i2. unfold client_result. by rewrite E.
Qed.

Lemma good_shows c st token r y endpoint :
  active_tokens r !! endpoint = token -> good c (view endpoint r st) y -> shows c st token /\
  (waiting c = true -> failures st = n_failures y /\ connects st = n_connects y).
Proof.
  unfold view. intros ->. destruct c as [| | | | | | | |t [u|] k| |]; cbn; try (by split); unfold agree; cbn; intros Hg; split_and!; intros; tauto.
Qed.

(** C32: the link registry tells the truth.  However supervisors, kicks, failing
    pings and the shutdown interleave, whenever a supervisor waits its entry
    shows what it waits for (dialling, authenticating, serving, sleeping,
    stopped), the registered token is the one of the current connection and
    gone otherwise, and the counters are the connections so far and the
    failures since the last one that no kick was noted for.  When readiness is reported, some link's
    current connection read an acceptance for the response it computed under
    one of its own PSKs. *)
Theorem registry_truthful endpoints now n :
  NoDup endpoints -> reachable endpoints now n ->
  (forall i s, supervisors n !! i = Some s ->
     exists st, inner (reg n) !! url s = Some st /\ shows (todo s) st (active_tokens (reg n) !! url s) /\
       (waiting (todo s) = true -> failures st = n_failures (tally s) /\ connects st = n_connects (tally s))) /\
  (any_up (reg n) = true ->
     exists i s t, supervisors n !! i = Some s /\ shaken (tally s) = Some t /\ client_authenticated t).
Proof.
  intros Hd Hr. pose proof (node_reachable_inv _ _ _ Hd Hr) as Hi. split.
  - intros i s Hs. destruct (i_good _ Hi _ _ Hs) as (st & Hst & Hg & _). exists st. split; [done|]. by eapply good_shows.
  - unfold any_up. intros (st & Hin & Hup)%existsb_exists. unfold snapshot in Hin.
    apply list_elem_of_In, list_elem_of_fmap in Hin as ([e st'] & -> & Hin%elem_of_map_to_list). cbn in Hup.
    pose proof (i_entries _ Hi _ _ Hin) as (s & -> & Hs)%list_elem_of_fmap. apply list_elem_of_lookup in Hs as [i Hs].
    destruct (i_good _ Hi _ _ Hs) as (st0 & Hst0 & _ & Ha). assert (st0 = st') as -> by congruence.
    destruct (authenticated_client (tally s)) as (t & Ht & Hc); [apply Ha; by destruct (state st')|]. by exists i, s, t.
Qed.

(** ** Shutdown

    The moves a program has left once the shutdown token is cancelled: its
    dials are interrupted and its sleeps cut short. *)
Fixpoint winds (c : code) (n : nat) : Prop :=
  match c, n with
  | Halt, _ => True
  | _, O => False
  | Continue _, S n => (3 <= n)%nat
  | ShutdownCancelled k, S n => winds (k true) n
  | ChildToken k, S n => forall t, winds (k t) n
  | Update _ k, S n => winds k n
  | TakeKicked k, S n => forall b, winds (k b) n
  | Connect _ k, S n => winds (k Interrupted) n
  | Handshake _ k, S n => forall r, winds (k r) n
  | ServeH2 _ None k, S n => forall r, winds (k r) n
  | ServeH2 _ (Some _) k, S (S n) => forall r, winds (k r) n
  | ServeH2 _ (Some _) _, S O => False
  | NextDelay _ k, S n => forall d b, winds (k d b) n
  | Sleep _ k, S n => winds (k false) n
  end.

Definition WIND_UP : nat := 8.

Definition steady (b : LinkBackoff.Backoff) : Prop := LinkBackoff.base b = LinkBackoff.base LinkBackoff.default_link_backoff.

(** At every point of a program the shutdown is that near, and every delay can
    be drawn. *)
Fixpoint deep (c : code) : Prop :=
  winds c WIND_UP /\
  match c with
  | Halt => True
  | Continue b => steady b
  | ShutdownCancelled k | TakeKicked k | Sleep _ k => forall b, deep (k b)
  | ChildToken k => forall t, deep (k t)
  | Update _ k => deep k
  | Connect _ k => forall d, deep (k d)
  | Handshake _ k => forall r, deep (k r)
  | ServeH2 _ _ k => forall r, deep (k r)
  | NextDelay b k => steady b /\ forall d b', steady b' -> deep (k d b')
  end.

Lemma winds_mono c : forall n m, winds c n -> (n <= m)%nat -> winds c m.
Proof.
  induction c as [|b|k IH|k IH|u c IH|k IH|t k IH|t k IH|t [u|] k IH|b k IH|d k IH]; intros [|n] [|m]; cbn; try done; try lia; intros Hw Hle.
  7: destruct n as [|n], m as [|m]; try done; [lia|]. all: try (intros; eapply IH; [apply Hw|lia]). 
Qed.

Lemma steady_reset b : steady b -> steady (LinkBackoff.reset b).
Proof. done. Qed.

Lemma back_off_deep served b : steady b -> deep (back_off served b).
Proof.
  intros Hb. unfold back_off. cbn. split_and!; try done. intros d b' Hb'. split_and!; try done. intros []; cbn; [|by split_and!].
  split; [lia|by destruct served].
Qed.

Lemma back_off_winds served b n : (3 <= n)%nat -> winds (back_off served b) n.
Proof. intros Hn. by destruct n as [|[|[|n]]]; [lia..|]. Qed.

(** Walk down a program: [winds] is computed, [deep] taken apart. *)
Ltac walk :=
  repeat match goal with
  | |- deep (back_off _ _) => by apply back_off_deep
  | |- winds (back_off _ _) _ => apply back_off_winds; lia
  | |- steady _ => done
  | |- True => done
  | |- (_ <= _)%nat => lia
  | |- _ /\ _ => split
  | |- forall _, _ => intros
  | |- winds (if ?b then _ else _) _ => destruct b
  | |- deep (if ?b then _ else _) => destruct b
  | |- winds (match ?r with _ => _ end) _ => destruct r
  | |- deep (match ?r with _ => _ end) => destruct r
  | |- context [match ?r with Dialled _ => _ | Interrupted => _ end] => destruct r
  | |- _ => progress cbn [deep winds WIND_UP Nat.pred]
  end.

Lemma cycle_deep b : steady b -> deep (cycle b).
Proof.
  intros Hb. unfold cycle. walk.
Qed.

Lemma next_delay_steady draw b : steady b -> exists d b', LinkBackoff.next_delay draw b = Some (d, b') /\ steady b'.
Proof.
  unfold steady, LinkBackoff.next_delay, LinkBackoff.random_range. intros ->.
  change (wrap_u 64 (LinkBackoff.as_millis (LinkBackoff.base LinkBackoff.default_link_backoff))) with 250. change (wrap_u 64 (250 + 1)) with 251.
  set (hi := u64_saturating_mul _ _). take_true (250 <? Z.max hi 251). cbn. by eexists _, _.
Qed.

Lemma effect_deep endpoint c a n y c' r y' : effect endpoint c a n y = Some (c', r, y') -> deep c -> deep c'.
Proof.
  intros He. destruct c as [|b|k|k|u k|k|t k|t k|t ready k|b k|d k], a as [|now|d'|tr|now|res|draw|full]; cbn in He; try discriminate He;
    try (by destruct ready); cbn [deep]; intros [Hw Hd].
  - injection He as <- _ _. by apply cycle_deep.
  - injection He as <- _ _. apply Hd.
  - injection He as <- _ _. apply Hd.
  - by injection He as <- _ _.
  - destruct (take_kicked _ _). injection He as <- _ _. apply Hd.
  - destruct d'; destruct (is_cancelled t n); try discriminate He; injection He as <- _ _; apply Hd.
  - injection He as <- _ _. apply Hd.
  - destruct ready; [|done]. injection He as <- _ _. cbn [deep]. split; [|exact Hd]. unfold WIND_UP in *. cbn in Hw |- *. intros r0.
    eapply winds_mono; [apply Hw|]. lia.
  - destruct ready; injection He as <- _ _; apply Hd.
  - destruct Hd as [Hb Hd]. destruct (next_delay_steady draw b Hb) as (d & b' & E & Hb'). rewrite E in He. cbn in He. injection He as <- _ _. by apply Hd.
  - destruct (Bool.eqb _ _); [|done]. injection He as <- _ _. apply Hd.
Qed.

Lemma effect_winds endpoint c a n y c' r y' m :
  shutdown n = true -> effect endpoint c a n y = Some (c', r, y') -> winds c m -> exists m', m = S m' /\ winds c' m'.
Proof.
  intros Hsh He. assert (forall t, is_cancelled t n = true) as Hc by (intros t; unfold is_cancelled; by rewrite Hsh).
  destruct m as [|m]; [by destruct c as [| | | | | | | |t [u|] k| |], a|]. intros Hw. exists m. split; [done|].
  destruct c as [|b|k|k|u k|k|t k|t k|t ready k|b k|d k], a as [|now|d'|tr|now|res|draw|full]; cbn in He; try discriminate He;
    try (by destruct ready); cbn [winds] in Hw.
  - injection He as <- _ _. destruct m as [|[|[|m]]]; [lia..|]. done.
  - injection He as <- _ _. by rewrite Hsh.
  - injection He as <- _ _. apply Hw.
  - by injection He as <- _ _.
  - destruct (take_kicked _ _). injection He as <- _ _. apply Hw.
  - rewrite Hc in He. destruct d'; [|done]. by injection He as <- _ _.
  - injection He as <- _ _. apply Hw.
  - destruct ready; [|done]. injection He as <- _ _. by destruct m as [|m].
  - destruct ready; injection He as <- _ _; [|apply Hw]. destruct m as [|m]; [done|]. eapply winds_mono; [apply Hw|lia].
  - apply bind_Some in He as ([d b'] & _ & [= <- _ _]). apply Hw.
  - rewrite Hsh in He. destruct full; [done|]. by injection He as <- _ _.
Qed.

(** Whatever is left to do, a supervisor can go on: an interrupted dial and a
    cut sleep return at once, a handshake and a serve loop when their streams
    do. *)
Lemma effect_possible endpoint c n y :
  shutdown n = true -> deep c -> c <> Halt -> exists a c' r y', effect endpoint c a n y = Some (c', r, y').
Proof.
  intros Hsh Hd Hh. assert (forall t, is_cancelled t n = true) as Hc by (intros t; unfold is_cancelled; by rewrite Hsh).
  destruct c as [|b|k|k|u k|k|t k|t k|t ready k|b k|d k]; [done|..].
  1-3: eexists Go, _, _, _; reflexivity.
  - eexists (At 0), _, _, _. reflexivity.
  - eexists Go. cbn. destruct (take_kicked _ _). eexists _, _, _. reflexivity.
  - eexists (Dial Interrupted), _, _, _. cbn. by rewrite Hc.
  - eexists (Shook (mk_transcript [] 0 0 [] [])), _, _, _. reflexivity.
  - eexists (Served (Ok tt)), _, _, _. by destruct ready.
  - destruct Hd as (_ & Hb & _). destruct (next_delay_steady LinkBackoff.lowest b Hb) as (d & b' & E & _).
    eexists (Draw LinkBackoff.lowest), _, _, _. cbn. by rewrite E.
  - eexists (Slept false), _, _, _. cbn. by rewrite Hsh.
Qed.

Definition all_deep (n : Node) : Prop := forall i s, supervisors n !! i = Some s -> deep (todo s).

Lemma step_deep n n' : step n n' -> all_deep n -> all_deep n'.
Proof.
  intros Hs Ha. destruct Hs as [n i s a c r y Hi He| | | |]; try exact Ha.
  intros j s'. cbn. rewrite list_lookup_insert. case_decide; [|apply Ha]. intros [= <-]. eapply effect_deep; [exact He|by eapply Ha].
Qed.

Lemma reachable_deep endpoints now n : reachable endpoints now n -> all_deep n.
Proof.
  intros Hr. assert (all_deep (start endpoints now)) as Hs.
  { intros i s Hs. cbn in Hs. apply list_lookup_fmap_Some in Hs as (e & -> & _). by apply cycle_deep. }
  unfold reachable in Hr. revert Hs. induction Hr as [|n1 n2 n3 Hst _ IH]; [done|]. intros Ha. by eapply IH, step_deep.
Qed.

(** What is left of a supervisor after [m] more moves. *)
Definition winding (i m : nat) (n n' : Node) : Prop :=
  shutdown n' = true /\
  forall s, supervisors n !! i = Some s -> exists s' m', supervisors n' !! i = Some s' /\ url s' = url s /\
    winds (todo s') m' /\ (moves s' + m' = moves s + m)%nat.

Lemma winding_step i m n n1 n2 : winding i m n n1 -> step n1 n2 -> winding i m n n2.
Proof.
  intros [Hsh Hw] Hs. destruct Hs as [n1 j s1 a c r y Hj He| | | |]; try by split.
  split; [done|]. intros s Hi. destruct (Hw s Hi) as (s' & m' & Hs' & Hu & Hwd & Hm). cbn. rewrite list_lookup_insert. case_decide as Hd.
  - destruct Hd as [-> _]. assert (s1 = s') as -> by congruence. destruct (effect_winds _ _ _ _ _ _ _ _ _ Hsh He Hwd) as (m'' & -> & Hwd').
    eexists _, m''. split_and!; [done|done|done|cbn; lia].
  - by exists s', m'.
Qed.

Lemma winding_steps i m n n1 n2 : rtc step n1 n2 -> winding i m n n1 -> winding i m n n2.
Proof. induction 1 as [|n1 n2 n3 Hs _ IH]; [done|]. intros Hw. by eapply IH, winding_step. Qed.


(** The transition system run by hand. *)
Inductive deed : Type := Move (i : nat) (a : answer) | Kick (endpoint : bytes) | Flag | Cancel.

Definition perform (d : deed) (n : Node) : option Node :=
  match d with
  | Move i a => s ← supervisors n !! i; '(c, r, y) ← effect (url s) (todo s) a n (tally s); Some (move i s c r y n)
  | Kick endpoint => Some (kick_cancel endpoint n)
  | Flag => match half_kicks n with e :: rest => Some (kick_flag e rest n) | [] => None end
  | Cancel => Some (mk_node (reg n) true (cancelled_tokens n) (next_token n) (half_kicks n) (supervisors n))
  end.

Fixpoint perform_all (ds : list deed) (n : Node) : option Node :=
  match ds with [] => Some n | d :: ds => perform d n ≫= perform_all ds end.

Lemma perform_step d n n' : perform d n = Some n' -> step n n'.
Proof.
  destruct d as [i a|e| |]; cbn.
  - intros (s & Hs & (((c & r) & y) & He & [= <-])%bind_Some)%bind_Some. by eapply step_move.
  - intros [= <-]. apply step_kick.
  - destruct (half_kicks n) as [|e rest] eqn:E; [done|]. intros [= <-]. by apply (step_flag n e []).
  - intros [= <-]. apply step_shutdown.
Qed.

Lemma perform_all_app ds ds' n : perform_all (ds ++ ds') n = perform_all ds n ≫= perform_all ds'.
Proof. revert n. induction ds as [|d ds IH]; intros n; cbn; [done|]. destruct (perform d n); cbn; [apply IH|done]. Qed.

Lemma perform_all_steps ds : forall n n', perform_all ds n = Some n' -> rtc step n n'.
Proof.
  induction ds as [|d ds IH]; intros n n'; cbn; [by intros [= ->]|]. intros (n1 & H1'%perform_step & H2'%IH)%bind_Some. by eapply rtc_l.
Qed.
End node.

(** ** Witnesses *)

Module SupervisorExamples.
Import Reference HandshakeExamples LinkExamples.

Definition dmz1 : bytes := str "tls://dmz1:8444".
Definition dmz2 : bytes := str "tls://dmz2:8444".

Definition accepted : Transcript := mk_transcript cn now 5 [] (sent challenge ++ sent (Accept (str "link-1") (Some (str "1.5.0")))).

Definition begin_dial : list deed := [Move 0 Go; Move 0 Go; Move 0 (At 1); Move 0 (At 2)].
Definition begin_serve : list deed :=
  begin_dial ++ [Move 0 (Dial (Dialled (Ok tt))); Move 0 (At 3); Move 0 (Shook accepted); Move 0 (At 4)].
Definition come_up : list deed := begin_serve ++ [Move 0 (Ready 5)].
(** The serve loop ends and the supervisor looks at the flag. *)
Definition end_serve (r : result bytes unit) : list deed := [Move 0 (Served r); Move 0 (At 6); Move 0 Go; Move 0 Go; Move 0 (At 7)].
Definition redial : list deed := [Move 0 (Draw LinkBackoff.highest); Move 0 (Slept true); Move 0 Go].
Definition dial_fails : list deed := begin_dial ++ [Move 0 (Dial (Dialled (Err (str "refused")))); Move 0 (At 3); Move 0 (At 4)].

Definition after (ds : list deed) : option Node := perform_all ccfg ds (start [dmz1; dmz2] 0).

Definition entry (o : option Node) : option (LinkState * option bytes * Z * Z) :=
  n ← o; s ← inner (reg n) !! dmz1; Some (state s, last_error s, connects s, failures s).

Definition delay (o : option Node) : option Z :=
  n ← o; s ← supervisors n !! 0%nat; match todo s with Sleep d _ => Some d | _ => None end.

Lemma ran_to ds : match after ds with Some _ => true | None => false end = true ->
  exists n, after ds = Some n /\ reachable ccfg [dmz1; dmz2] 0 n.
Proof. unfold after. intros Hr. destruct (perform_all _ _ _) as [n|] eqn:E; [|done]. exists n. split; [done|]. by eapply perform_all_steps. Qed.

Lemma two_endpoints : NoDup [dmz1; dmz2].
Proof. apply (bool_decide_unpack _). by vm_compute. Qed.

Example comes_up : entry (after come_up) = Some (Up, None, 1, 0).
Proof. by vm_compute. Qed.

Lemma registry_truthful_witness :
  exists n, after come_up = Some n /\ any_up (reg n) = true /\
    exists i s t, supervisors n !! i = Some s /\ shaken (tally s) = Some t /\ client_authenticated ccfg t.
Proof.
  destruct (ran_to come_up) as (n & Hn & Hr); [by vm_compute|]. exists n. split; [exact Hn|].
  assert (any_up (reg n) = true) as Hu.
  { assert (any_up <$> (reg <$> after come_up) = Some true) as E by (by vm_compute). rewrite Hn in E. by injection E. }
  split; [exact Hu|]. exact (proj2 (registry_truthful ccfg _ _ n two_endpoints Hr) Hu).
Defined.


(** A kick cancels the connection before it sets the flag: a supervisor that
    is quicker counts the kick as a failure, and the flag then hides the next
    real one. *)
Definition kicked_late : list deed := come_up ++ [Kick dmz1] ++ end_serve (Ok tt) ++ [Flag].

Example kick_counted : entry (after kicked_late) = Some (Backoff, Some (str "peer closed link"), 1, 1).
Proof. by vm_compute. Qed.

Example failure_hidden :
  entry (after (kicked_late ++ redial ++ come_up ++ end_serve (Err (str "reset")))) = Some (Backoff, Some RECONNECT, 2, 0).
Proof. by vm_compute. Qed.

(** The token is registered before the dial, so a kick finds one while the
    endpoint is still being dialled. *)
Example kick_finds_dial : (kick_token dmz1 ∘ reg <$> after begin_dial) = Some (Some 0%nat).
Proof. by vm_compute. Qed.

(** A peer whose h2 handshake never completes is redialled within 750 ms for
    ever, ... *)
Example unready_never_backs_off :
  let round := begin_serve ++ end_serve (Err (str "h2 server handshake failed")) ++ redial in
  delay (after (round ++ round ++ round ++ begin_serve ++ end_serve (Err []) ++ [Move 0 (Draw LinkBackoff.highest)])) = Some 749000000.
Proof. by vm_compute. Qed.

(** ... and a link that goes down after a long life waits as long as the
    failures before that life had made it. *)
Example healthy_link_waits :
  let round := dial_fails ++ redial in
  delay (after (round ++ round ++ round ++ round ++ round ++ come_up ++ end_serve (Ok tt) ++ [Move 0 (Draw LinkBackoff.highest)]))
    = Some 30000000000.
Proof. by vm_compute. Qed.
End SupervisorExamples.
